(* ===== verification/_CoqProject ===== *)
-Q . S2P
Prelude.v
Log.v
Utf8.v
Gimli.v
Speck.v
IpAddr.v
SeenPackets.v
Tests.v
Channel.v
AllSenders.v
World.v
Rng.v
Delay.v
Framing.v
LegacyTcp.v
MeshNode.v
Tun.v
Windows.v
Futures.v
Loops.v
Runtime.v
PollCache.v
SleepHeap.v
Descriptors.v
Devices.v
AsyncIo.v
LinkEnv.v
LinkRecv.v
LinkSend.v
LinkPolls.v
LinkHello.v
LinkTasks.v
LinkRuns.v
Listener.v
Retry.v
Wakeups.v
Startup.v
Mesh.v
NodePolls.v
MeshRoutes.v
MeshFlood.v
MeshTraffic.v
MeshSettle.v
MeshTypes.v
