(* ===== verification/Prelude.v ===== *)
(** * smolmesh2: a verified model of the Rust node

    smolmesh2 is a peer-to-peer mesh VPN. A node keeps encrypted TCP links to
    some other nodes; it announces its addresses over all of them, floods the
    announcements of others, routes each IP packet to the link on which the
    newest announcement of its destination came first, and exchanges packets
    with the operating system through a TUN interface. This library models the
    program of [rust/src/] as executable definitions and proves what its parts
    promise. All files and functions named below are under [src/].

    ** The parts of the program, and where they are modelled

    - [Prelude] (this file): machine integers as [Z] with explicit wrap-around
      ([wrap], [wrapping_add], [shl], [rotate_left], ...), little-endian
      encodings, [slice::chunks], panics ([outcome]) and errors ([result]) as
      monads, decimal parsing; the lemmas and the hint database [words] that
      the other files share.
    - [Log] ([rust/src/log.rs]): the logging macros, as functions of the lines
      written so far. The other files leave the log lines of the code out.
    - [Utf8]: [std::str::from_utf8], which node names go through, as a check on
      bytes, with the definition of UTF-8 as its specification.
    - [Gimli] ([rust/src/gimli.rs]): the permutation and the hash.
    - [Speck] ([rust/src/raw_speck.rs]): the round functions, the key schedule.
    - [IpAddr] ([rust/src/ip_addr.rs]): node addresses, the address of a name,
      the printed form.
    - [SeenPackets] ([rust/src/seen_packets.rs]): the bounded memory of packets
      already handled.
    - [Tests]: the unit tests of [rust/src/gimli.rs], [rust/src/raw_speck.rs] and
      [rust/src/seen_packets.rs], run on the model.
    - [Channel]: not code of the repository, but the interface of the
      channels ([futures::channel::mpsc]) through which the parts talk: the
      classes [Mpsc], [MpscNew] and their laws. All theorems about parts that
      send or receive are proved against these classes. [World] is a concrete
      instance (four kinds of channel in four finite maps), used by witnesses.
    - [AllSenders] ([rust/src/all_senders.rs]): the switchboard, which owns the
      list of links and the routing table. The task is a fold of its loop body
      over the messages it has received.
    - [Rng] ([rust/src/rng.rs]): the random number generator, a state passed
      along (the program keeps it in a static behind a mutex), and how it is
      seeded. [Delay]: [uniform] in binary floating point, the delays of the
      loops of [rust/src/main.rs] and [rust/src/legacy_tcp.rs], and [millis].
    - [Framing] ([rust/src/legacy_tcp.rs]): the keystream, the keyed hashes, the
      frames and the sending and receiving loops of a link.
    - [LegacyTcp] ([rust/src/legacy_tcp.rs]): the handshake, [connect_impl],
      [handle_connection] and the loops that keep connecting and listening.
    - [AsyncIo], [LinkEnv], [LinkHello], [LinkRecv], [LinkSend], [LinkTasks],
      [Listener], [Retry] ([rust/src/legacy_tcp.rs]): the same code once more, as the
      futures it is: from one [await] to the next, with the deadlines, the system
      calls that set up a socket, and the two tasks in [select2_noresult].
      [AsyncIo] has the classes for what is third-party there ([read_exact],
      [write_all], [flush], the receiving end of a channel) and the timed reads and
      writes; [LinkEnv] the environment of a link's tasks (operating system,
      channels, generator), and a concrete one for witnesses; [LinkHello] the two
      halves of the handshake, [LinkRecv] and [LinkSend] the two loops,
      [LinkTasks] [connect_impl] and [handle_connection], [Listener]
      [listener_impl] and [listener], [Retry] the loop of [create_connection], with the sleeps of
      [Loops].
      [LinkPolls] joins the two ends; [LinkRuns] has the runs of
      [LinkTasks] as witnesses.
    - [MeshNode] ([rust/src/main.rs]): the announcements, the receiving loop with
      its commands, the configuration of addresses and links, the commands of
      the command line.

    - [Tun] ([rust/src/linux_tuntap.rs], [rust/src/mac_tuntap.rs]): the tasks
      between the TUN interface and the mesh, and the route creators; modules
      [Linux] and [Mac] for what differs.
    - [Windows] ([rust/src/windows_tuntap.rs], [rust/src/wintun.rs]): the
      interface on Windows and its bindings, as they are written; the library
      and the system calls are the class [Winapi].
    - [Futures] ([rust/src/leo_async.rs]): sleeping, timeouts, [yield_now],
      [select2_noresult], [join2] and [fused], each as a state with its poll
      function.
    - [Loops]: a loop that sleeps five to ten seconds between its turns, around any
      future: that of [create_connection], of [listener], of the announcing tasks, of
      the cleaner.
    - [Runtime] ([rust/src/leo_async.rs]): modules [SleepStore] (timers),
      [Poller] ([fd_poller]), [Executor] (tasks, wake-ups and one iteration of
      [run_forever], and sequences of iterations) and [ThreadFuture]
      ([fn_thread_future], the interleaving of a thread and a task as a step
      relation).
    - [PollCache], [SleepHeap] ([rust/src/leo_async.rs]): the data structures that
      [Runtime] abstracts from. [poll_and_wake] on its map, slab and vector, against
      [Runtime.Poller]; the timers in a binary heap of reversed order, against
      [Runtime.SleepStore]. [slab::Slab] and [BinaryHeap] are classes.
    - [Descriptors] ([rust/src/leo_async.rs], [connect_timeout] of
      [rust/src/legacy_tcp.rs]): the futures on file descriptors, non-blocking
      mode, sockets. The operating system is the class [Posix]: what each system
      call answers in a state and the state it leaves; the laws [PosixLaws] are
      what POSIX says of them. [Machine] is a concrete instance, for witnesses.
    - [Devices] ([rust/src/linux_tuntap.rs], [rust/src/mac_tuntap.rs]): opening a
      TUN device, and the TUN tasks from one [await] to the next.
    - [Wakeups] ([rust/src/leo_async.rs]): [Task::wake], the wake pipe and
      [run_forever] as a transition system in which the executor and any number
      of threads interleave, one access to shared state per step.
    - [Startup] ([rust/src/main.rs]): the command line, the configuration, and
      what a node starts before its receiving loop.
    - [Mesh]: the whole system. The tasks of one node as a step relation
      ([peer_step]: the receiving loop, the switchboard, the announcing tasks,
      the cleaner, the TUN reader, links that begin, carry, lose and end), and a
      network of nodes whose links join them ([net_step]); executable schedules
      ([exec], [run]) and a ring of three nodes as an example. [MeshRoutes],
      [MeshFlood], [MeshTraffic], [MeshSettle] and [MeshTypes] prove what holds of
      every reachable state and every run. [NodePolls] has the tasks of the nodes as
      futures: [main_poll] (the receiving loop), [all_senders_poll] (the
      switchboard), [periodic_poll] (the announcing tasks and the cleaner); and a
      network in which they are polled in any order, while links carry packets.

    A packet's way through the files: [Tun.forward] reads it from the interface
    and gives it to the switchboard, or [MeshNode.name_announcement] makes it;
    [AllSenders.handle] puts it in the channel of one link ([SendToFastest]) or
    of all ([SendToAll]); [Framing.send_task] seals it; the other end's
    [Framing.recv_task] opens it and puts it in the node's queue with the link's
    own sender; [MeshNode.handle_packet] decodes it and tells the switchboard
    ([AddFastestTo], [SendToAll], [SendToFastest]), the route creator, or the
    TUN interface.

    ** What the theorems show

    - The network: following the routes to an address never loops and ends at a
      node that owns the address, whatever the links do
      ([MeshRoutes.routes_loop_free]); an announcement whose flood has settled
      has reached every node connected to its origin
      ([MeshFlood.flood_reaches_everyone]); traffic that is read from one TUN
      interface follows the routes, over any number of hops, and comes out of the
      interface of an owner of its destination, unchanged
      ([MeshTraffic.traffic_reaches_owner]); an announcement causes at most
      [2 D + 2] steps per node and emission, [D] being the node's links
      ([MeshSettle.floods_end]); a network whose tasks are polled in any order is
      always in one of these states ([NodePolls.polled_network_refines]), and no
      task of a node gets stuck ([NodePolls.node_tasks_go_on]). As a check of the model,
      all its integers stay in the ranges of their Rust types
      ([MeshTypes.network_typed]). The theorems about floods and traffic are about
      what has happened once nothing is left in the queues; they assume that while it
      is under way links neither end nor lose it and no node rejects it, and for
      traffic that the routes to its destination stay.
    - The node: which configurations start one ([Startup.start_node_correct]),
      what the receiving loop does on every branch
      ([MeshNode.handle_packet_correct]), which packets make it panic
      ([MeshNode.handle_packet_crashes_iff]), that nothing is processed twice
      ([MeshNode.processed_once]), that the announcements of what a node keeps are
      understood as exactly that ([MeshNode.announcements_understood]) and that
      routes follow announcements, node and switchboard together
      ([MeshNode.announcement_routes_traffic]).
    - The links: frames are accepted exactly when they were sealed at the same
      point under the same keys ([Framing.recv_accepts_sealed]); a stream cut
      anywhere delivers exactly its complete packets
      ([Framing.link_delivers]); two ends that share a key understand each
      other ([LegacyTcp.link_end_to_end]); strangers are turned away without
      any effect ([LegacyTcp.handle_connection_authenticates]), but an echo of
      oneself is not ([LegacyTcp.connect_reflection]); the connecting task
      retries forever ([LegacyTcp.create_connection_retries]); the bounds of the
      16-bit length ([Framing.oversized_packet]).
    - The links, poll by poll, whatever happens between the polls: the loops do
      what [Framing] says of the bytes that have arrived and of the packets taken,
      at most one packet per poll; each reason for which they are pending is
      characterised (yielded after progress, an interrupted call of the socket, or
      registered, with nothing left that could be done), and each for which they end
      (a closed queue or channel, a forged frame, a deadline that has passed, an error
      of the socket) ([LinkRecv.recv_task_polls], [LinkSend.send_task_polls]); what one
      end delivers is a prefix of what the other was given, a receiver that waits has
      delivered every packet that has arrived completely, and no honest frame ends it
      ([LinkPolls.link_delivers_polls]); since a deadline is looked at before what has
      arrived, a packet can be lost with a link that ends so; the whole
      functions never panic, and do nothing for a peer before it has proved its key
      ([LinkTasks.handle_connection_polls], [LinkTasks.connect_impl_polls]); a
      flush has no deadline ([LinkSend.flush_has_no_deadline]); and when the
      listening loop gives the thread back ([Listener.listener_polls]). The
      connecting task never panics or ends, and starts the next attempt after a
      sleep of five to ten seconds ([Retry.create_connection_polls]).
    - The switchboard: the routing rule ([AllSenders.routes_newest_first]), what
      each message delivers ([AllSenders.handle_delivery]), routes that outlive
      their links ([AllSenders.stale_route_drops]).
    - The TUN interfaces: what is forwarded, and what the next node does with it
      ([Tun.tun_forwarding]); the headers of macOS are transparent
      ([Tun.mac_framing_transparent]); one route command per address
      ([Tun.route_creator_once]); which packets the interface on Windows
      forwards, and that it does so like the others
      ([Windows.win_forward_correct]).
    - The runtime: no wake-up and no due timer is lost by an iteration of the
      executor ([Runtime.Executor.run_forever_step_correct]), no waiter by the
      poller ([Runtime.Poller.poller_conserves]), no result of a thread
      ([Runtime.ThreadFuture.thread_result_not_lost]), no timer of a future
      ([Futures.timers_not_lost]); the combinators never poll a completed
      future ([Futures.combinators_respect_contract]); and how long the
      executor can oversleep
      ([Runtime.Executor.poll_timeout_ignores_new_timers]). The data structures
      underneath do what [Runtime] says, without their panics
      ([PollCache.poll_cache_refines], [SleepHeap.sleep_heap_refines]). With threads that
      wake tasks at any point: no wake-up is lost
      ([Wakeups.wakeups_not_lost]), and the executor of [Runtime] is one of the
      interleavings ([Wakeups.executor_is_interleaving]).
    - The descriptors: a task that waits for one is resumed
      ([Descriptors.pending_task_resumed]); reads and writes in non-blocking mode
      never panic and stay in bounds ([Descriptors.nonblocking_io]); connecting
      ends at its deadline ([Descriptors.connect_timeout_correct]); and the TUN
      tasks, poll by poll, are the tasks that the theorems about packets are
      stated for ([Devices.tun_tasks_refine]).
    - The primitives: [Gimli.permute_permutation], [Gimli.gimli_hash_is_sponge],
      [Framing.keystream_is_sponge], [Speck.ernd_drnd_inverse],
      [Speck.key_schedule_correct], [Rng.rng_keeps_entropy],
      [Utf8.from_utf8_correct]; the bounds, accuracy and order of the random
      delays ([Delay.delay_bounds]). As a check of the model, the unit tests of the
      repository pass on it ([Tests.unit_tests_pass]).
    - Addresses and memory: the search of [from_node_name] against the unbounded
      loop, its range, its collisions and where it never ends (the [IpAddr]
      theorems); [SeenPackets] against a window of the last [n] hashes.

    ** Conventions and bounds

    Bytes are [Z] in the range of [u8] (predicate [is_bytes]); a [usize] that
    counts elements of a list is a [nat]. Loops without a bound in the code take
    fuel and return [None] when it runs out: the search of [from_node_name]
    ([IpAddr.from_node_name_correct] relates it to the loop as a relation, for
    every fuel that is enough) and the receiving loop of a link, for which one
    unit more than the number of bytes received is enough, since every frame
    has at least 18 ([Framing.link_delivers] and
    [LegacyTcp.handle_connection_authenticates] state the result at that fuel).
    Asynchronous tasks are functions of the sequence of values they receive; an
    [await] on a channel or socket is a place where that sequence grows, and
    tasks share nothing but channels, so the order between tasks is the order
    of the values in the queues. What the operating system answers (sockets,
    clock, writes) is an argument.

    The runtime appears at three levels. [Wakeups] has the single accesses to
    what threads share; [Futures], [Runtime] and [Descriptors] have the executor
    and the polls, with tasks that do arbitrary things when polled, and [Devices],
    the [Link] files and [NodePolls] the polls of the program's own tasks; all other
    files take from them that a task goes on when what it awaits has come, and are
    about the sequences of values. [Wakeups.executor_is_interleaving],
    [Devices.tun_tasks_refine], [NodePolls.polled_network_refines] and the theorems
    of the [Link] files join the levels. The loop of [listener_impl] takes fuel within one poll:
    [Listener.listener_polls] says when a poll ends, and that one unit more than
    the number of waiting connections is enough then. So does the loop of
    [create_connection]: an attempt can end, a sleep be over and the next attempt
    end within one poll, and four turns are always enough
    ([Retry.create_connection_polls]); [SleepHeap.wake_all_ready] needs one unit
    more than there are timers.

    ** What is not modelled

    Descriptors are closed when their last owner is dropped; that is left out,
    as is what [write_all], [read_exact] and the buffered reader and writer of the
    [futures] library do between the polls of a descriptor: [AsyncIo] has what they
    promise. Of a command run in a shell
    there is the text and whether it could be run. Not
    modelled at all: the parsing of the JSON file (a third-party library;
    [Startup.Config] is what its accessors show); the C# port
    under [dotnet/]. The Windows files are left from an older version and do not
    compile ([rust/README.md]); the address module they use is gone and is a
    parameter of [Windows]. The hash function [rustc_hash::FxHasher] is a
    parameter of [SeenPackets] and [MeshNode]. Atomic operations are
    sequentially consistent in [Wakeups]. In [NodePolls] the tasks of
    the links and of the TUN interface act on a node's channels as [Mesh] lets them;
    that their own polls do no more is what [Devices] and the [Link] files show, each
    for its own environment. *)
From Stdlib Require Export ZArith Lia.
From Stdlib Require Ascii String.
From stdpp Require Export base numbers list gmap strings option.
Open Scope Z_scope.

(** * Machine integers *)

(** A Rust unsigned integer of [w] bits is a [Z] in the range of [uint w]. *)
Definition uint (w x : Z) : Prop := 0 <= x < 2 ^ w.
Abbreviation u8 := (uint 8).
Abbreviation u16 := (uint 16).
Abbreviation u32 := (uint 32).
Abbreviation u64 := (uint 64).

#[export] Instance uint_dec w x : Decision (uint w x).
Proof. unfold uint. apply _. Defined.

(** Truncation to [w] bits: [as uN] casts and the [wrapping_*] operations. *)
Definition wrap (w x : Z) : Z := Z.land x (Z.ones w).
Definition wrapping_add (w x y : Z) : Z := wrap w (x + y).
Definition wrapping_sub (w x y : Z) : Z := wrap w (x - y).

(** [x << n] on a [w]-bit integer: the bits shifted out are lost. *)
Definition shl (w x n : Z) : Z := wrap w (Z.shiftl x n).
Definition rotate_left (w x n : Z) : Z := Z.lor (shl w x n) (Z.shiftr x (w - n)).
Definition rotate_right (w x n : Z) : Z := Z.lor (Z.shiftr x n) (shl w x (w - n)).
(** [u64::abs_diff]. *)
Definition abs_diff (x y : Z) : Z := Z.abs (x - y).

(** * Lemmas on machine integers *)

Lemma wrap_mod w x : 0 <= w → wrap w x = x mod 2 ^ w.
Proof. apply Z.land_ones. Qed.

Lemma uint_wrap w x : 0 <= w → uint w (wrap w x).
Proof. intros. unfold uint. rewrite wrap_mod by done. apply Z.mod_pos_bound, Z.pow_pos_nonneg; lia. Qed.

Lemma wrap_small w x : 0 <= w → uint w x → wrap w x = x.
Proof. intros ? Hx. rewrite wrap_mod by done. by apply Z.mod_small. Qed.

Lemma wrap_idem_add_l w x y : 0 <= w → wrap w (wrap w x + y) = wrap w (x + y).
Proof. intros. rewrite !wrap_mod by done. apply Zplus_mod_idemp_l. Qed.

Lemma testbit_wrap w x i : 0 <= w → 0 <= i → Z.testbit (wrap w x) i = Z.testbit x i && (i <? w).
Proof.
  intros. unfold wrap. rewrite Z.land_spec, Z.testbit_ones_nonneg by lia. done.
Qed.

Lemma uint_testbit_high w x i : 0 <= w → uint w x → w <= i → Z.testbit x i = false.
Proof.
  intros Hw Hx Hi. rewrite <- (wrap_small w x), testbit_wrap by (done || lia).
  destruct (Z.ltb_spec i w); [lia|]. apply andb_false_r.
Qed.

(** Two [w]-bit integers are equal when their [w] bits are. *)
Lemma uint_bits_ext w x y :
  0 <= w → uint w x → uint w y →
  (∀ i, 0 <= i < w → Z.testbit x i = Z.testbit y i) → x = y.
Proof.
  intros Hw Hx Hy H. apply Z.bits_inj'. intros i Hi.
  destruct (decide (i < w)); [apply H; lia|].
  rewrite !(uint_testbit_high w) by (done || lia). done.
Qed.

Lemma uint_of_bits w x :
  0 <= w → (∀ i, w <= i → Z.testbit x i = false) → uint w x.
Proof.
  intros Hw H. cut (x = wrap w x); [intros ->; by apply uint_wrap|].
  apply Z.bits_inj'. intros i Hi. rewrite testbit_wrap by lia.
  destruct (Z.ltb_spec i w); [by rewrite andb_true_r|]. rewrite andb_false_r. apply H. lia.
Qed.

Lemma uint_lxor w x y : 0 <= w → uint w x → uint w y → uint w (Z.lxor x y).
Proof.
  intros Hw Hx Hy. apply uint_of_bits; [done|]. intros i Hi.
  by rewrite Z.lxor_spec, !(uint_testbit_high w) by (done || lia).
Qed.

Lemma uint_lor w x y : 0 <= w → uint w x → uint w y → uint w (Z.lor x y).
Proof.
  intros Hw Hx Hy. apply uint_of_bits; [done|]. intros i Hi.
  by rewrite Z.lor_spec, !(uint_testbit_high w) by (done || lia).
Qed.

Lemma uint_land w x y : 0 <= w → uint w x → uint w (Z.land x y).
Proof.
  intros Hw Hx. apply uint_of_bits; [done|]. intros i Hi.
  by rewrite Z.land_spec, (uint_testbit_high w) by (done || lia).
Qed.

Lemma uint_shiftr w x n : 0 <= n → uint w x → uint w (Z.shiftr x n).
Proof.
  intros Hn [Hx0 Hx]. unfold uint. rewrite Z.shiftr_div_pow2 by done.
  split; [apply Z.div_pos; [done|apply Z.pow_pos_nonneg; lia]|].
  eapply Z.le_lt_trans; [|exact Hx]. apply Z.div_le_upper_bound; [apply Z.pow_pos_nonneg; lia|].
  assert (1 <= 2 ^ n) by (apply Z.pow_le_mono_r with (b := 0); lia). nia.
Qed.

Lemma uint_weaken v w x : v <= w → uint v x → uint w x.
Proof.
  intros Hvw [H1 H2]. split; [done|]. eapply Z.lt_le_trans; [exact H2|].
  apply Z.pow_le_mono_r; lia.
Qed.

Lemma uint_shl w x n : 0 <= w → uint w (shl w x n).
Proof. apply uint_wrap. Qed.

Lemma uint_rotate_left w x n : 0 <= n <= w → uint w x → uint w (rotate_left w x n).
Proof. intros. apply uint_lor; [lia|apply uint_shl; lia|apply uint_shiftr; [lia|done]]. Qed.

Lemma uint_rotate_right w x n : 0 <= n <= w → uint w x → uint w (rotate_right w x n).
Proof. intros. apply uint_lor; [lia|apply uint_shiftr; [lia|done]|apply uint_shl; lia]. Qed.

Lemma testbit_shl w x n i :
  0 <= w → 0 <= i < w → Z.testbit (shl w x n) i = Z.testbit x (i - n).
Proof.
  intros. unfold shl. rewrite testbit_wrap, Z.shiftl_spec by lia.
  destruct (Z.ltb_spec i w); [apply andb_true_r|lia].
Qed.

(** The bits of a rotation: bit [i] comes from bit [i - n] modulo [w]. *)
Lemma testbit_rotate_left w x n i :
  0 <= n <= w → uint w x → 0 <= i < w →
  Z.testbit (rotate_left w x n) i = Z.testbit x (if i <? n then i - n + w else i - n).
Proof.
  intros Hn Hx Hi. unfold rotate_left. rewrite Z.lor_spec, testbit_shl, Z.shiftr_spec by lia.
  replace (i + (w - n)) with (i - n + w) by lia. destruct (Z.ltb_spec i n).
  - by rewrite (Z.testbit_neg_r x (i - n)) by lia.
  - rewrite (uint_testbit_high w x (i - n + w)) by (done || lia). apply orb_false_r.
Qed.

Lemma rotate_right_left_eq w x n : rotate_right w x n = rotate_left w x (w - n).
Proof. unfold rotate_right, rotate_left. rewrite Z.lor_comm. do 2 f_equal; lia. Qed.

Lemma rotate_left_compose w x n :
  0 <= n <= w → uint w x → rotate_left w (rotate_left w x n) (w - n) = x.
Proof.
  intros Hn Hx. apply (uint_bits_ext w); [lia| |done|].
  - apply uint_rotate_left; [lia|]. by apply uint_rotate_left.
  - intros i Hi. rewrite testbit_rotate_left; [|lia|by apply uint_rotate_left|done].
    destruct (Z.ltb_spec i (w - n)).
    + rewrite testbit_rotate_left by (done || lia).
      destruct (Z.ltb_spec (i - (w - n) + w) n); [lia|]. f_equal. lia.
    + rewrite testbit_rotate_left by (done || lia).
      destruct (Z.ltb_spec (i - (w - n)) n); f_equal; lia.
Qed.

Lemma rotate_right_left w x n : 0 <= n <= w → uint w x → rotate_right w (rotate_left w x n) n = x.
Proof. intros. rewrite rotate_right_left_eq. by apply rotate_left_compose. Qed.

Lemma rotate_left_right w x n : 0 <= n <= w → uint w x → rotate_left w (rotate_right w x n) n = x.
Proof.
  intros. rewrite rotate_right_left_eq. pose proof (rotate_left_compose w x (w - n)) as E.
  replace (w - (w - n)) with n in E by lia. apply E; [lia|done].
Qed.

Lemma lxor_cancel_r x k : Z.lxor (Z.lxor x k) k = x.
Proof. by rewrite Z.lxor_assoc, Z.lxor_nilpotent, Z.lxor_0_r. Qed.

Lemma lxor_inj_l x y k : Z.lxor k x = Z.lxor k y → x = y.
Proof.
  intros H. rewrite <- (lxor_cancel_r x k), <- (lxor_cancel_r y k).
  by rewrite (Z.lxor_comm x), (Z.lxor_comm y), H.
Qed.

Lemma wrapping_sub_add w x y : 0 <= w → uint w x → wrapping_sub w (wrapping_add w x y) y = x.
Proof.
  intros. unfold wrapping_sub, wrapping_add, Z.sub. rewrite wrap_idem_add_l by done.
  rewrite <- (wrap_small w x) at 2 by done. f_equal. lia.
Qed.

Lemma wrapping_add_sub w x y : 0 <= w → uint w x → wrapping_add w (wrapping_sub w x y) y = x.
Proof.
  intros. unfold wrapping_sub, wrapping_add. rewrite wrap_idem_add_l by done.
  rewrite <- (wrap_small w x) at 2 by done. f_equal. lia.
Qed.

(** Range goals on words built from the operations above. *)
Create HintDb words discriminated.
#[export] Hint Resolve uint_wrap uint_lxor uint_lor uint_land uint_shl uint_shiftr
  uint_rotate_left uint_rotate_right : words.
#[export] Hint Extern 2 (_ <= _) => lia : words.
#[export] Hint Extern 2 (_ <= _ <= _) => lia : words.
#[export] Hint Extern 2 (uint _ (wrapping_add _ _ _)) => apply uint_wrap : words.
#[export] Hint Extern 2 (uint _ (wrapping_sub _ _ _)) => apply uint_wrap : words.
#[export] Hint Extern 3 (uint _ ?x) => (is_ground x; split; [lia|reflexivity]) : words.

(** * Little-endian encodings ([to_le_bytes], [from_le_bytes]) *)

Fixpoint to_le_bytes (n : nat) (x : Z) : list Z :=
  match n with
  | O => []
  | S n => Z.land x 255 :: to_le_bytes n (Z.shiftr x 8)
  end.

Fixpoint from_le_bytes (bs : list Z) : Z :=
  match bs with
  | [] => 0
  | b :: bs => Z.lor b (Z.shiftl (from_le_bytes bs) 8)
  end.

Abbreviation bytes := (list Z).
Abbreviation is_bytes := (Forall (uint 8)).

Lemma testbit_byte_tail x i : 0 <= i → Z.testbit (Z.land x 255) i = Z.testbit x i && (i <? 8).
Proof. change 255 with (Z.ones 8). intros. apply (testbit_wrap 8); lia. Qed.

Lemma land_255 x : Z.land x 255 = wrap 8 x.
Proof. reflexivity. Qed.

Lemma lor_byte_shiftl b x i :
  u8 b → 0 <= i →
  Z.testbit (Z.lor b (Z.shiftl x 8)) i = if i <? 8 then Z.testbit b i else Z.testbit x (i - 8).
Proof.
  intros Hb Hi. rewrite Z.lor_spec, Z.shiftl_spec by lia. destruct (Z.ltb_spec i 8).
  - rewrite (Z.testbit_neg_r x) by lia. apply orb_false_r.
  - by rewrite (uint_testbit_high 8) by (done || lia).
Qed.

Lemma length_to_le_bytes n x : length (to_le_bytes n x) = n.
Proof. revert x; induction n; intros; simpl; auto. Qed.

Lemma to_le_bytes_bytes n x : is_bytes (to_le_bytes n x).
Proof.
  revert x; induction n; intros; simpl; constructor; auto.
  rewrite land_255. by apply uint_wrap.
Qed.

Lemma from_to_le_bytes n x : from_le_bytes (to_le_bytes n x) = wrap (8 * Z.of_nat n) x.
Proof.
  revert x; induction n; intros x; cbn [to_le_bytes from_le_bytes].
  - unfold wrap. by rewrite Z.land_0_r.
  - apply Z.bits_inj'. intros i Hi.
    rewrite lor_byte_shiftl, IHn by (rewrite ?land_255; auto with words).
    rewrite land_255, (testbit_wrap (8 * Z.of_nat (S n))) by lia. destruct (Z.ltb_spec i 8).
    + rewrite testbit_wrap by lia. f_equal. destruct (Z.ltb_spec i 8), (Z.ltb_spec i (8 * Z.of_nat (S n))); done || lia.
    + rewrite testbit_wrap, Z.shiftr_spec by lia. replace (i - 8 + 8) with i by lia. f_equal.
      destruct (Z.ltb_spec (i - 8) (8 * Z.of_nat n)), (Z.ltb_spec i (8 * Z.of_nat (S n))); done || lia.
Qed.

Lemma from_to_le_bytes_small n x :
  uint (8 * Z.of_nat n) x → from_le_bytes (to_le_bytes n x) = x.
Proof. intros. rewrite from_to_le_bytes. apply wrap_small; [lia|done]. Qed.

Lemma uint_from_le_bytes bs : is_bytes bs → uint (8 * Z.of_nat (length bs)) (from_le_bytes bs).
Proof.
  induction 1 as [|b bs Hb Hbs IH]; [split; [done|]; simpl; lia|].
  cbn [from_le_bytes length]. apply uint_of_bits; [lia|]. intros i Hi.
  rewrite lor_byte_shiftl by (done || lia).
  destruct (Z.ltb_spec i 8); [lia|]. apply (uint_testbit_high (8 * Z.of_nat (length bs))); [lia|done|lia].
Qed.

Lemma to_from_le_bytes bs : is_bytes bs → to_le_bytes (length bs) (from_le_bytes bs) = bs.
Proof.
  induction 1 as [|b bs Hb Hbs IH]; [done|]. cbn [from_le_bytes to_le_bytes length]. f_equal.
  - apply (uint_bits_ext 8); [done|rewrite land_255; by apply uint_wrap|done|].
    intros i Hi. rewrite testbit_byte_tail, lor_byte_shiftl by (done || lia).
    destruct (Z.ltb_spec i 8); [apply andb_true_r|lia].
  - transitivity (to_le_bytes (length bs) (from_le_bytes bs)); [|done]. f_equal.
    apply Z.bits_inj'. intros i Hi. rewrite Z.shiftr_spec, lor_byte_shiftl by (done || lia).
    destruct (Z.ltb_spec (i + 8) 8); [lia|]. f_equal. lia.
Qed.

Lemma to_le_bytes_inj n x y :
  uint (8 * Z.of_nat n) x → uint (8 * Z.of_nat n) y → to_le_bytes n x = to_le_bytes n y → x = y.
Proof. intros Hx Hy E. rewrite <- (from_to_le_bytes_small n x), <- (from_to_le_bytes_small n y) by done. by rewrite E. Qed.

(** * Slices *)

(** [slice::chunks(n)]: consecutive pieces of [n] elements, the last one
    shorter when [n] does not divide the length. *)
Fixpoint chunks_fuel {A} (fuel n : nat) (l : list A) : list (list A) :=
  match fuel, l with
  | S fuel, _ :: _ => take n l :: chunks_fuel fuel n (drop n l)
  | _, _ => []
  end.
Definition chunks {A} (n : nat) (l : list A) : list (list A) := chunks_fuel (length l) n l.

(** [for (i, c) in chunk.iter().enumerate() { buf[i] ^= c }], for a [chunk] no
    longer than [buf]. *)
Fixpoint xor_into (buf chunk : bytes) : bytes :=
  match buf, chunk with
  | b :: buf, c :: chunk => Z.lxor b c :: xor_into buf chunk
  | _, _ => buf
  end.

(** [buf[0..8].copy_from_slice(x)] and the like, for an [x] no longer than [buf]. *)
Definition write_prefix {A} (x buf : list A) : list A := x ++ drop (length x) buf.

Lemma chunks_fuel_enough {A} (f n : nat) (l : list A) :
  (0 < n)%nat → (length l <= f)%nat → chunks_fuel f n l = chunks n l.
Proof.
  intros Hn. unfold chunks.
  cut (∀ f g (l : list A), (length l <= f)%nat → (length l <= g)%nat →
         chunks_fuel f n l = chunks_fuel g n l); [intros H ?; by apply H|].
  clear f l. induction f as [|f IH]; intros g l Hf Hg.
  - destruct l; [|simpl in *; lia]. by destruct g.
  - destruct l as [|x l]; [by destruct g|]. destruct g; simpl in Hg; [lia|].
    cbn [chunks_fuel]. f_equal.
    apply IH; rewrite length_drop; cbn [length] in *; lia.
Qed.

Lemma chunks_nil {A} n : chunks (A:=A) n [] = [].
Proof. done. Qed.

Lemma chunks_step {A} n (l : list A) :
  (0 < n)%nat → l ≠ [] → chunks n l = take n l :: chunks n (drop n l).
Proof.
  intros Hn Hl. destruct l as [|x l]; [done|]. unfold chunks at 1. cbn [length chunks_fuel].
  f_equal. apply chunks_fuel_enough; [done|]. rewrite length_drop. cbn [length]. lia.
Qed.

Lemma chunks_app {A} n (b l : list A) :
  (0 < n)%nat → length b = n → chunks n (b ++ l) = b :: chunks n l.
Proof.
  intros Hn Hb. rewrite chunks_step; [|done|].
  - by rewrite take_app_length', drop_app_length' by done.
  - destruct b; simpl in *; [lia|done].
Qed.

Lemma chunks_short {A} n (l : list A) : l ≠ [] → (length l <= n)%nat → chunks n l = [l].
Proof.
  intros Hl Hn. assert (0 < n)%nat by (destruct l; simpl in *; [done|lia]).
  by rewrite chunks_step, take_ge, drop_ge by done.
Qed.

(** Induction that follows the pieces of [chunks n]. *)
Lemma chunks_ind {A} n (Hn : (0 < n)%nat) (P : list A → Prop) :
  P [] → (∀ l, l ≠ [] → P (drop n l) → P l) → ∀ l, P l.
Proof.
  intros Hnil Hstep l. remember (length l) as k eqn:Hk. revert l Hk.
  induction k as [k IH] using lt_wf_ind. intros l ->.
  destruct (decide (l = [])) as [->|Hl]; [done|]. apply Hstep; [done|].
  eapply IH; [|done]. rewrite length_drop. destruct l; simpl in *; [done|lia].
Qed.

Lemma concat_chunks {A} n (l : list A) : (0 < n)%nat → concat (chunks n l) = l.
Proof.
  intros Hn. induction l as [|l Hl IH] using (chunks_ind n Hn); [done..|].
  rewrite chunks_step by done. simpl. by rewrite IH, take_drop.
Qed.

(** The pieces inherit what holds of all elements, and have at most [n] of them. *)
Lemma chunks_Forall {A} (P : A → Prop) n (l : list A) :
  (0 < n)%nat → Forall P l → Forall (λ c, Forall P c ∧ (length c <= n)%nat) (chunks n l).
Proof.
  intros Hn. induction l as [|l Hl IH] using (chunks_ind n Hn); intros HP; [constructor|].
  rewrite chunks_step by done. constructor; [|by apply IH, Forall_drop].
  split; [by apply Forall_take|]. rewrite length_take. lia.
Qed.

Lemma xorb_cancel_r a b c : xorb a c = xorb b c → a = b.
Proof. by destruct a, b, c. Qed.

Lemma length_xor_into buf chunk : length (xor_into buf chunk) = length buf.
Proof. revert chunk; induction buf; intros [|c chunk]; simpl; auto. Qed.

Lemma lookup_xor_into buf chunk i :
  xor_into buf chunk !! i = match buf !! i, chunk !! i with
                            | Some b, Some c => Some (Z.lxor b c)
                            | o, _ => o
                            end.
Proof.
  revert chunk i; induction buf as [|b buf IH]; intros [|c chunk] [|i]; try done; simpl.
  - by destruct (buf !! i).
  - apply IH.
Qed.

Lemma xor_into_bytes buf chunk : is_bytes buf → is_bytes chunk → is_bytes (xor_into buf chunk).
Proof.
  intros Hb. revert chunk; induction Hb; intros chunk Hc; [done|].
  destruct Hc; simpl; constructor; auto. by apply uint_lxor.
Qed.

Lemma length_write_prefix {A} (x buf : list A) :
  (length x <= length buf)%nat → length (write_prefix x buf) = length buf.
Proof. intros. unfold write_prefix. rewrite length_app, length_drop. lia. Qed.

(** * Loops over lists *)

Lemma foldl_invariant {A B} (I : B → Prop) (P : A → Prop) (f : B → A → B) l b :
  (∀ b a, P a → I b → I (f b a)) → Forall P l → I b → I (foldl f b l).
Proof. intros Hf Hl. revert b. induction Hl; simpl; auto. Qed.

Lemma foldl_inj {A B} (I : B → Prop) (P : A → Prop) (f : B → A → B) l b b' :
  Forall P l → (∀ b a, P a → I b → I (f b a)) →
  (∀ b b' a, P a → I b → I b' → f b a = f b' a → b = b') →
  I b → I b' → foldl f b l = foldl f b' l → b = b'.
Proof.
  intros Hl Hok Hinj. revert b b'. induction Hl as [|a l Ha Hl IH]; intros b b' Hb Hb' E; [done|].
  apply (Hinj b b' a); [done..|]. apply IH; auto.
Qed.

(** * Outcomes *)

(** A Rust computation that returns a value or panics. *)
Inductive outcome (A : Type) : Type :=
| Ret (a : A)
| Panic (why : string).
Arguments Ret {_} _.
Arguments Panic {_} _.

#[export] Instance outcome_ret : MRet outcome := λ _ a, Ret a.
#[export] Instance outcome_bind : MBind outcome := λ _ _ k m,
  match m with Ret a => k a | Panic why => Panic why end.

(** [Result<T, Box<dyn Error>>]; [why] is the message the code builds, or names
    the library call whose error is passed on. *)
Inductive result (A : Type) : Type :=
| Ok (a : A)
| Err (why : string).
Arguments Ok {_} _.
Arguments Err {_} _.

#[export] Instance result_eq_dec {A} `{EqDecision A} : EqDecision (result A).
Proof. solve_decision. Defined.

#[export] Instance result_ret : MRet result := λ _ a, Ok a.
#[export] Instance result_bind : MBind result := λ _ _ k m,
  match m with Ok a => k a | Err why => Err why end.

(** Indexing and slicing panic out of range. *)
Definition index (l : bytes) (i : nat) : outcome Z :=
  match l !! i with Some x => Ret x | None => Panic "index out of bounds" end.
Definition slice (l : bytes) (i j : nat) : outcome bytes :=
  if decide (i <= j ∧ j <= length l)%nat then Ret (take (j - i) (drop i l))
  else Panic "range out of bounds".

Lemma bind_Ret_inv {A B} (m : outcome A) (k : A → outcome B) b :
  m ≫= k = Ret b → ∃ a, m = Ret a ∧ k a = Ret b.
Proof. destruct m; [eauto|discriminate]. Qed.

Lemma slice_ok l i j : (i <= j)%nat → (j <= length l)%nat → slice l i j = Ret (take (j - i) (drop i l)).
Proof. intros. unfold slice. by rewrite decide_True. Qed.

(** The bytes of a Rust byte-string or [str] literal. *)
Definition str_bytes (s : string) : bytes := (λ c, Z.of_N (Ascii.N_of_ascii c)) <$> Stdlib.Strings.String.list_ascii_of_string s.

(** [format!("{:02x}", b)] for a byte. *)
Definition hex_digit (d : Z) : string :=
  default ""%string (["0";"1";"2";"3";"4";"5";"6";"7";"8";"9";"a";"b";"c";"d";"e";"f"]%string !! Z.to_nat d).
Definition hex2 (b : Z) : string := String.append (hex_digit (Z.shiftr b 4)) (hex_digit (Z.land b 15)).
Definition hex_string (bs : bytes) : string := foldr (λ b s, String.append (hex2 b) s) ""%string bs.

Lemma str_bytes_app s t : str_bytes (String.append s t) = str_bytes s ++ str_bytes t.
Proof.
  unfold str_bytes. rewrite <- fmap_app. f_equal.
  induction s as [|c s IH]; [done|].
  transitivity (c :: Stdlib.Strings.String.list_ascii_of_string (String.append s t)); [done|]. by rewrite IH.
Qed.

Lemma str_bytes_inj s t : str_bytes s = str_bytes t → s = t.
Proof.
  revert t; induction s as [|c s IH]; intros [|d t] E; try done. injection E as Ecd E.
  f_equal; [|by apply IH]. apply N2Z.inj in Ecd.
  by rewrite <- (Ascii.ascii_N_embedding c), <- (Ascii.ascii_N_embedding d), Ecd.
Qed.

(** What holds of all the 256 bytes by computation. *)
Lemma forall_bytes (P : Z → bool) : forallb P (seqZ 0 256) = true → ∀ b, u8 b → P b = true.
Proof.
  intros H b [Hb0 Hb]. rewrite forallb_forall in H. apply H, list_elem_of_In, elem_of_seqZ. lia.
Qed.

(** [str::split] on a one-byte separator. *)
Fixpoint split_on (sep : Z) (l : bytes) : list bytes :=
  match l with
  | [] => [[]]
  | c :: l =>
      if c =? sep then [] :: split_on sep l else
      match split_on sep l with
      | [] => [[c]]
      | p :: ps => (c :: p) :: ps
      end
  end.

Lemma split_on_piece sep p : Forall (λ c, c ≠ sep) p → split_on sep p = [p].
Proof.
  induction 1 as [|c p Hc Hp IH]; [done|]. cbn [split_on].
  rewrite (proj2 (Z.eqb_neq c sep)) by done. by rewrite IH.
Qed.

Lemma split_on_app sep p l :
  Forall (λ c, c ≠ sep) p → split_on sep (p ++ sep :: l) = p :: split_on sep l.
Proof.
  induction 1 as [|c p Hc Hp IH]; cbn [app split_on]; [by rewrite Z.eqb_refl|].
  rewrite (proj2 (Z.eqb_neq c sep)) by done. by rewrite IH.
Qed.

(** [str::parse::<u8>]: an optional plus sign and decimal digits whose value
    never leaves the range. *)
Fixpoint parse_digits (acc : Z) (l : bytes) : option Z :=
  match l with
  | [] => Some acc
  | c :: l =>
      if (48 <=? c) && (c <=? 57) && (10 * acc + (c - 48) <=? 255)
      then parse_digits (10 * acc + (c - 48)) l else None
  end.
Definition parse_u8 (l : bytes) : option Z :=
  match l with
  | [] | [43] => None
  | 43 :: l => parse_digits 0 l
  | _ => parse_digits 0 l
  end.
