(* ===== verification/Log.v ===== *)
(** The logging macros ([rust/src/log.rs]).

    A macro expands to its test and [eprintln!]; what is modelled is the state of
    [stderr] it leaves: the lines written so far. [now] is the formatted local time
    ([chrono]), [write_ok] whether the operating system takes the line:
    [eprintln!] panics when it does not. *)
From S2P Require Import Prelude.
From stdpp Require Import strings.

Definition TRACE_ENABLED : bool := false.
Definition DEBUG_ENABLED : bool := true.
Definition INFO_ENABLED : bool := true.
Definition WARN_ENABLED : bool := true.
Definition ERROR_ENABLED : bool := true.

Section log.
Context (now : string) (write_ok : string → bool).

Definition eprintln (line : string) (stderr : list string) : outcome (list string) :=
  if write_ok line then mret (stderr ++ [line]) else Panic "failed printing to stderr".

Definition log_line (level_str msg : string) : string :=
  "[" +:+ now +:+ "] [" +:+ level_str +:+ "] " +:+ msg.

(** The arguments are only formatted when the level is enabled. *)
Definition log_level (level_enabled : bool) (level_str : string) (msg : unit → string) (stderr : list string) : outcome (list string) :=
  if level_enabled then eprintln (log_line level_str (msg tt)) stderr else mret stderr.

Definition trace := log_level TRACE_ENABLED "TRC".
Definition debug := log_level DEBUG_ENABLED "DBG".
Definition info := log_level INFO_ENABLED "INF".
Definition warn := log_level WARN_ENABLED "WRN".
Definition error := log_level ERROR_ENABLED "ERR".
Definition log := debug.

(** Tracing costs nothing and never fails; the others add their line or panic. *)
Lemma trace_silent msg stderr : trace msg stderr = Ret stderr.
Proof. reflexivity. Qed.

Lemma log_writes msg stderr :
  write_ok (log_line "DBG" (msg tt)) = true → log msg stderr = Ret (stderr ++ [log_line "DBG" (msg tt)]).
Proof. intros H. unfold log, debug, log_level, eprintln. by rewrite H. Qed.

Lemma log_level_inv enabled level_str msg stderr stderr' :
  log_level enabled level_str msg stderr = Ret stderr' →
  stderr' = stderr ++ (if enabled then [log_line level_str (msg tt)] else []).
Proof.
  unfold log_level, eprintln. destruct enabled; [|intros [= <-]; by rewrite app_nil_r].
  destruct (write_ok _); [by intros [= <-]|done].
Qed.
End log.

(** The level can be read off a line that begins with a time: lines of different
    levels, or with different messages, differ. *)
Lemma log_line_inj now now' level level' msg msg' :
  String.length now = String.length now' → String.length level = String.length level' →
  log_line now level msg = log_line now' level' msg' → now = now' ∧ level = level' ∧ msg = msg'.
Proof.
  assert (Happ : ∀ a a' b b', String.length a = String.length a' → a +:+ b = a' +:+ b' → a = a' ∧ b = b').
  { induction a as [|c a IH]; intros [|c' a'] b b' Hl; try done; cbn.
    intros [= -> He]. injection Hl as Hl. by destruct (IH a' b b' Hl He) as [-> ->]. }
  intros Hn Hl He. apply (Happ "[" "[") in He as [_ He]; [|done]. apply Happ in He as [-> He]; [|done].
  apply (Happ "] [" "] [") in He as [_ He]; [|done]. apply Happ in He as [-> He]; [|done].
  by apply (Happ "] " "] ") in He as [_ ->].
Qed.
