(* ===== verification/Utf8.v ===== *)
(** [std::str::from_utf8], through which every node name that arrives passes
    ([rust/src/main.rs]), as an executable validity check on bytes, proved
    against the definition of UTF-8. *)
From S2P Require Import Prelude.

Definition in_range (lo hi b : Z) : bool := (lo <=? b) && (b <=? hi).
Definition is_cont (b : Z) : bool := in_range 0x80 0xBF b.

(** The byte sequences of the Unicode standard (table 3-7): no overlong forms, no
    surrogates, nothing above U+10FFFF. *)
Fixpoint from_utf8 (l : bytes) : bool :=
  match l with
  | [] => true
  | b0 :: l =>
      if b0 <? 0x80 then from_utf8 l else
      match l with
      | [] => false
      | b1 :: l =>
          if in_range 0xC2 0xDF b0 then is_cont b1 && from_utf8 l else
          match l with
          | [] => false
          | b2 :: l =>
              if b0 =? 0xE0 then in_range 0xA0 0xBF b1 && is_cont b2 && from_utf8 l
              else if b0 =? 0xED then in_range 0x80 0x9F b1 && is_cont b2 && from_utf8 l
              else if in_range 0xE1 0xEF b0 then is_cont b1 && is_cont b2 && from_utf8 l else
              match l with
              | [] => false
              | b3 :: l =>
                  if b0 =? 0xF0 then in_range 0x90 0xBF b1 && is_cont b2 && is_cont b3 && from_utf8 l
                  else if in_range 0xF1 0xF3 b0 then is_cont b1 && is_cont b2 && is_cont b3 && from_utf8 l
                  else if b0 =? 0xF4 then in_range 0x80 0x8F b1 && is_cont b2 && is_cont b3 && from_utf8 l
                  else false
              end
          end
      end
  end.

(** ** The encoding *)

(** A Unicode scalar value, and its encoding. *)
Definition scalar (c : Z) : Prop := 0 <= c < 0xD800 ∨ 0xE000 <= c < 0x110000.
Definition encode_utf8 (c : Z) : bytes :=
  if c <? 0x80 then [c]
  else if c <? 0x800 then [0xC0 + c / 64; 0x80 + c mod 64]
  else if c <? 0x10000 then [0xE0 + c / 4096; 0x80 + c / 64 mod 64; 0x80 + c mod 64]
  else [0xF0 + c / 262144; 0x80 + c / 4096 mod 64; 0x80 + c / 64 mod 64; 0x80 + c mod 64].

(** The accepted sequences of two, three and four bytes. *)
Definition ok2 (b0 b1 : Z) : Prop := 0xC2 <= b0 <= 0xDF ∧ 0x80 <= b1 <= 0xBF.
Definition ok3 (b0 b1 b2 : Z) : Prop :=
  0xE0 <= b0 <= 0xEF ∧ 0x80 <= b1 <= 0xBF ∧ 0x80 <= b2 <= 0xBF
  ∧ (b0 = 0xE0 → 0xA0 <= b1) ∧ (b0 = 0xED → b1 <= 0x9F).
Definition ok4 (b0 b1 b2 b3 : Z) : Prop :=
  0xF0 <= b0 <= 0xF4 ∧ 0x80 <= b1 <= 0xBF ∧ 0x80 <= b2 <= 0xBF ∧ 0x80 <= b3 <= 0xBF
  ∧ (b0 = 0xF0 → 0x90 <= b1) ∧ (b0 = 0xF4 → b1 <= 0x8F).

Lemma in_range_spec lo hi b : BoolSpec (lo <= b <= hi) (¬ (lo <= b <= hi)) (in_range lo hi b).
Proof. unfold in_range. destruct (Z.leb_spec lo b), (Z.leb_spec b hi); constructor; lia. Qed.

Lemma in_range_true lo hi b : lo <= b <= hi → in_range lo hi b = true.
Proof. by destruct (in_range_spec lo hi b). Qed.

Lemma in_range_false lo hi b : b < lo ∨ hi < b → in_range lo hi b = false.
Proof. destruct (in_range_spec lo hi b); [lia|done]. Qed.

(** Decides the tests of [from_utf8], by arithmetic where it is enough. *)
Ltac utf8_cases :=
  repeat match goal with
  | |- context [in_range ?lo ?hi ?b] =>
      first [rewrite (in_range_true lo hi b) by lia | rewrite (in_range_false lo hi b) by lia
            | destruct (in_range_spec lo hi b)]
  | |- context [?b =? ?k] =>
      first [rewrite (proj2 (Z.eqb_neq b k)) by lia | destruct (Z.eqb_spec b k); [subst b|]]
  | |- context [?b <? ?k] =>
      first [rewrite (proj2 (Z.ltb_lt b k)) by lia | rewrite (proj2 (Z.ltb_ge b k)) by lia
            | destruct (Z.ltb_spec b k)]
  end; cbn [andb].

Lemma from_utf8_1 b0 l : b0 < 0x80 → from_utf8 (b0 :: l) = from_utf8 l.
Proof. intros. cbn [from_utf8]. by rewrite (proj2 (Z.ltb_lt b0 0x80)). Qed.

Lemma from_utf8_2 b0 b1 l : ok2 b0 b1 → from_utf8 (b0 :: b1 :: l) = from_utf8 l.
Proof. unfold ok2. intros. cbn [from_utf8]. unfold is_cont. by utf8_cases. Qed.

Lemma from_utf8_3 b0 b1 b2 l : ok3 b0 b1 b2 → from_utf8 (b0 :: b1 :: b2 :: l) = from_utf8 l.
Proof.
  intros (H0 & H1 & H2 & Ha & Hb). cbn [from_utf8]. unfold is_cont.
  destruct (decide (b0 = 0xE0)); [specialize (Ha e)|clear Ha]; (destruct (decide (b0 = 0xED)); [specialize (Hb ltac:(done))|clear Hb]);
    by utf8_cases.
Qed.

Lemma from_utf8_4 b0 b1 b2 b3 l : ok4 b0 b1 b2 b3 → from_utf8 (b0 :: b1 :: b2 :: b3 :: l) = from_utf8 l.
Proof.
  intros (H0 & H1 & H2 & H3 & Ha & Hb). cbn [from_utf8]. unfold is_cont.
  destruct (decide (b0 = 0xF0)); [specialize (Ha e)|clear Ha]; (destruct (decide (b0 = 0xF4)); [specialize (Hb ltac:(done))|clear Hb]);
    by utf8_cases.
Qed.

Lemma from_utf8_inv b0 l :
  from_utf8 (b0 :: l) = true →
  b0 < 0x80 ∧ from_utf8 l = true
  ∨ (∃ b1 l', l = b1 :: l' ∧ ok2 b0 b1 ∧ from_utf8 l' = true)
  ∨ (∃ b1 b2 l', l = b1 :: b2 :: l' ∧ ok3 b0 b1 b2 ∧ from_utf8 l' = true)
  ∨ (∃ b1 b2 b3 l', l = b1 :: b2 :: b3 :: l' ∧ ok4 b0 b1 b2 b3 ∧ from_utf8 l' = true).
Proof.
  cbn [from_utf8]. unfold is_cont, ok2, ok3, ok4.
  destruct (Z.ltb_spec b0 0x80); [by left|]. destruct l as [|b1 l]; [done|].
  destruct (in_range_spec 0xC2 0xDF b0).
  { destruct (in_range_spec 0x80 0xBF b1); [|done]. right; left. exists b1, l. split_and!; done || lia. }
  destruct l as [|b2 l]; [done|].
  destruct (decide (0xE0 <= b0 <= 0xEF)) as [Hr|Hr].
  { intros Hv. right; right; left. exists b1, b2, l. revert Hv.
    utf8_cases; try done; intros; split_and!; done || lia. }
  destruct l as [|b3 l]; [utf8_cases; done|].
  intros Hv. right; right; right. exists b1, b2, b3, l. revert Hv.
  utf8_cases; try done; intros; split_and!; done || lia.
Qed.

Ltac div_mod_lia := Z.to_euclidean_division_equations; lia.

Lemma from_utf8_encode c l : scalar c → from_utf8 (encode_utf8 c ++ l) = from_utf8 l.
Proof.
  unfold scalar, encode_utf8. intros Hc.
  destruct (Z.ltb_spec c 0x80); [|destruct (Z.ltb_spec c 0x800); [|destruct (Z.ltb_spec c 0x10000)]]; cbn [app].
  - by apply from_utf8_1.
  - apply from_utf8_2. unfold ok2. div_mod_lia.
  - apply from_utf8_3. unfold ok3. div_mod_lia.
  - apply from_utf8_4. unfold ok4. div_mod_lia.
Qed.

(** Every accepted sequence is the encoding of one scalar value. *)
Lemma ok1_encode b0 : 0 <= b0 < 0x80 → scalar b0 ∧ encode_utf8 b0 = [b0].
Proof. unfold scalar, encode_utf8. intros. rewrite (proj2 (Z.ltb_lt b0 0x80)) by lia. split; [lia|done]. Qed.

Lemma ok2_encode b0 b1 : ok2 b0 b1 → ∃ c, scalar c ∧ encode_utf8 c = [b0; b1].
Proof.
  unfold ok2, scalar, encode_utf8. intros. exists ((b0 - 0xC0) * 64 + (b1 - 0x80)). split; [lia|].
  utf8_cases. repeat f_equal; div_mod_lia.
Qed.

Lemma ok3_encode b0 b1 b2 : ok3 b0 b1 b2 → ∃ c, scalar c ∧ encode_utf8 c = [b0; b1; b2].
Proof.
  unfold ok3, scalar, encode_utf8. intros. exists ((b0 - 0xE0) * 4096 + (b1 - 0x80) * 64 + (b2 - 0x80)).
  split; [lia|]. utf8_cases. repeat f_equal; div_mod_lia.
Qed.

Lemma ok4_encode b0 b1 b2 b3 : ok4 b0 b1 b2 b3 → ∃ c, scalar c ∧ encode_utf8 c = [b0; b1; b2; b3].
Proof.
  unfold ok4, scalar, encode_utf8. intros.
  exists ((b0 - 0xF0) * 262144 + (b1 - 0x80) * 4096 + (b2 - 0x80) * 64 + (b3 - 0x80)).
  split; [lia|]. utf8_cases. repeat f_equal; div_mod_lia.
Qed.

(** [from_utf8] accepts exactly the encodings of sequences of Unicode scalar
    values. *)
Theorem from_utf8_correct l :
  is_bytes l → from_utf8 l = true ↔ ∃ cs, Forall scalar cs ∧ l = concat (encode_utf8 <$> cs).
Proof.
  intros Hb. split; cycle 1.
  { intros (cs & Hcs & ->). clear Hb. induction Hcs as [|c cs Hc _ IH]; [done|].
    rewrite fmap_cons. cbn [concat]. by rewrite from_utf8_encode. }
  remember (length l) as n eqn:Hn. revert l Hn Hb. induction n as [n IH] using lt_wf_ind. intros l -> Hb H.
  destruct l as [|b0 l]; [by exists []|]. pose proof Hb as [Hb0 Hbl]%list.Forall_cons.
  assert (Hstep : ∀ c seq l', b0 :: l = seq ++ l' → scalar c → encode_utf8 c = seq → seq ≠ [] →
    from_utf8 l' = true → ∃ cs, Forall scalar cs ∧ b0 :: l = concat (encode_utf8 <$> cs)).
  { intros c seq l' E Hc He Hne Hl'. rewrite E in Hb. apply list.Forall_app in Hb as [_ Hb'].
    destruct (IH (length l')) with (l := l') as (cs & Hcs & ->); [|done|done|done|].
    - rewrite E, length_app. destruct seq; [done|]. cbn [length]. lia.
    - exists (c :: cs). split; [by constructor|]. by rewrite E, fmap_cons, He. }
  destruct (from_utf8_inv b0 l H) as [[H1 Hl]|[(b1 & l' & -> & Hok & Hl)|[(b1 & b2 & l' & -> & Hok & Hl)|(b1 & b2 & b3 & l' & -> & Hok & Hl)]]].
  - destruct (ok1_encode b0) as [Hs He]; [destruct Hb0; lia|]. by eapply (Hstep b0 [b0] l).
  - destruct (ok2_encode b0 b1 Hok) as (c & Hs & He). by eapply (Hstep c [b0; b1] l').
  - destruct (ok3_encode b0 b1 b2 Hok) as (c & Hs & He). by eapply (Hstep c [b0; b1; b2] l').
  - destruct (ok4_encode b0 b1 b2 b3 Hok) as (c & Hs & He). by eapply (Hstep c [b0; b1; b2; b3] l').
Qed.

(** A name in three scripts, and an overlong encoding of a slash. *)
Lemma from_utf8_correct_witness :
  from_utf8 (encode_utf8 0x61 ++ encode_utf8 0x119 ++ encode_utf8 0x1F600) = true
  ∧ ∃ cs, Forall scalar cs ∧
      encode_utf8 0x61 ++ encode_utf8 0x119 ++ encode_utf8 0x1F600 = concat (encode_utf8 <$> cs).
Proof.
  assert (H : from_utf8 (encode_utf8 0x61 ++ encode_utf8 0x119 ++ encode_utf8 0x1F600) = true) by (vm_compute; reflexivity).
  split; [exact H|]. apply (from_utf8_correct (encode_utf8 0x61 ++ encode_utf8 0x119 ++ encode_utf8 0x1F600)); [|exact H].
  apply (bool_decide_unpack _). vm_compute. reflexivity.
Defined.

Example overlong_slash : from_utf8 [0xC0; 0xAF] = false.
Proof. reflexivity. Qed.
