(* ===== verification/Gimli.v ===== *)
(** The Gimli permutation and the Gimli hash ([rust/src/gimli.rs]).

    [GimliState] holds the 48 bytes of the struct; [permute] views them as
    twelve little-endian 32-bit words, which is what the [transmute] gives on
    the little-endian targets the program is built for. *)
From S2P Require Import Prelude.

Definition RATE_BITS : nat := 128.
Definition RATE_BYTES : nat := RATE_BITS / 8.

Record GimliState := MkGimliState { state : bytes }.

Definition new : GimliState := MkGimliState (replicate 48 0).
Definition buf (g : GimliState) : bytes := state g.
(** A write through [buf_mut]. *)
Definition buf_mut (g : GimliState) (f : bytes → bytes) : GimliState := MkGimliState (f (state g)).

(** ** The permutation on twelve words *)

Definition gimli_col (s : list Z) (col : nat) : list Z :=
  let x := rotate_left 32 (s !!! col) 24 in
  let y := rotate_left 32 (s !!! (col + 4)%nat) 9 in
  let z := s !!! (col + 8)%nat in
  let s := <[(col + 8)%nat := Z.lxor (Z.lxor x (shl 32 z 1)) (shl 32 (Z.land y z) 2)]> s in
  let s := <[(col + 4)%nat := Z.lxor (Z.lxor y x) (shl 32 (Z.lor x z) 1)]> s in
  <[col := Z.lxor (Z.lxor z y) (shl 32 (Z.land x y) 3)]> s.

Definition swap (i j : nat) (s : list Z) : list Z := <[i := s !!! j]> (<[j := s !!! i]> s).

Definition gimli_round (s : list Z) (round : Z) : list Z :=
  let s := foldl gimli_col s (seq 0 4) in
  let s := if Z.land round 3 =? 0 then swap 2 3 (swap 0 1 s) else s in
  let s := if Z.land round 3 =? 2 then swap 1 3 (swap 0 2 s) else s in
  if Z.land round 3 =? 0 then <[0%nat := Z.lxor (s !!! 0%nat) (Z.lor 0x9e377900 round)]> s else s.

(** [for round in (1..25).rev()]. *)
Definition gimli (s : list Z) : list Z := foldl gimli_round s (reverse (seqZ 1 24)).

Definition words_of_bytes (bs : bytes) : list Z := from_le_bytes <$> chunks 4 bs.
Definition bytes_of_words (ws : list Z) : bytes := concat (to_le_bytes 4 <$> ws).

Definition permute (g : GimliState) : GimliState :=
  buf_mut g (λ b, bytes_of_words (gimli (words_of_bytes b))).

(** ** The hash *)

(** [state.buf_mut()[i] ^= v]. *)
Definition xor_at (i : nat) (v : Z) (b : bytes) : bytes := alter (λ x, Z.lxor x v) i b.

Definition absorb_chunk (g : GimliState) (chunk : bytes) : GimliState :=
  let g := buf_mut g (λ b, xor_into b chunk) in
  if decide (length chunk = RATE_BYTES) then permute g else g.

(** The squeezing loop; [fuel] bounds its number of iterations. *)
Fixpoint squeeze (fuel : nat) (g : GimliState) (out_len : nat) : bytes :=
  match fuel with
  | O => []
  | S fuel =>
      if decide (out_len = 0%nat) then [] else
      let block_size := Nat.min out_len RATE_BYTES in
      let out_len := (out_len - block_size)%nat in
      take block_size (buf g) ++
        squeeze fuel (if decide (0 < out_len)%nat then permute g else g) out_len
  end.

(** [gimli_hash(input, out)], for an [out] of [out_len] bytes: what [out] holds
    afterwards. *)
Definition gimli_hash (input : bytes) (out_len : nat) : bytes :=
  let g := foldl absorb_chunk new (chunks RATE_BYTES input) in
  let last_chunk_len := (length input mod RATE_BYTES)%nat in
  let g := buf_mut g (xor_at last_chunk_len 0x1F) in
  let g := buf_mut g (xor_at (RATE_BYTES - 1) 0x80) in
  squeeze out_len (permute g) out_len.

Example gimlihash_0 : hex_string (gimli_hash [] 32) = "b0634b2c0b082aedc5c0a2fe4ee3adcfc989ec05de6f00addb04b3aaac271f67"%string.
Proof. vm_compute. reflexivity. Qed.

(** ** Well-formed states *)

Definition words_ok (s : list Z) : Prop := length s = 12%nat ∧ Forall u32 s.
Definition wf (g : GimliState) : Prop := length (state g) = 48%nat ∧ is_bytes (state g).

(** A list of twelve words, named. *)
Ltac destruct_words s :=
  do 12 (destruct s as [|? s]; [done|]); destruct s; [|done].

Lemma Forall_total_lookup (P : Z → Prop) l i : Forall P l → (i < length l)%nat → P (l !!! i).
Proof. intros. eapply Forall_lookup_total_1; done. Qed.

Lemma insert_words_ok s i x : words_ok s → u32 x → words_ok (<[i:=x]> s).
Proof. intros [? ?] ?. split; [by rewrite length_insert|by apply Forall_insert]. Qed.

Lemma lookup_words_ok s i : words_ok s → (i < 12)%nat → u32 (s !!! i).
Proof. intros [Hl Hs] Hi. apply Forall_total_lookup; [done|lia]. Qed.

Lemma gimli_col_ok s col : (col < 4)%nat → words_ok s → words_ok (gimli_col s col).
Proof.
  intros Hc Hs. unfold gimli_col.
  assert (u32 (s !!! col)) by (apply lookup_words_ok; [done|lia]).
  assert (u32 (s !!! (col + 4)%nat)) by (apply lookup_words_ok; [done|lia]).
  assert (u32 (s !!! (col + 8)%nat)) by (apply lookup_words_ok; [done|lia]).
  repeat apply insert_words_ok; try done; auto 10 with words.
Qed.

Lemma swap_ok i j s : (i < 12)%nat → (j < 12)%nat → words_ok s → words_ok (swap i j s).
Proof. intros. unfold swap. repeat apply insert_words_ok; try done; by apply lookup_words_ok. Qed.

Lemma gimli_round_ok s round : u32 round → words_ok s → words_ok (gimli_round s round).
Proof.
  intros Hr Hs. unfold gimli_round.
  assert (Hc : words_ok (foldl gimli_col s (seq 0 4))).
  { cbn [seq foldl]. repeat (apply gimli_col_ok; [lia|]). done. }
  revert Hc. generalize (foldl gimli_col s (seq 0 4)). clear s Hs. intros s Hs.
  assert (u32 (Z.lor 0x9e377900 round)) by auto with words.
  destruct (Z.land round 3 =? 2), (Z.land round 3 =? 0);
    repeat match goal with
    | |- words_ok (swap _ _ _) => apply swap_ok; [lia|lia|]
    | |- words_ok (<[_:=_]> _) => apply insert_words_ok
    | |- u32 (Z.lxor _ _) => apply uint_lxor; [done| |done]
    | |- u32 (_ !!! _) => apply lookup_words_ok; [|lia]
    end; done.
Qed.

Lemma rounds_u32 : Forall u32 (reverse (seqZ 1 24)).
Proof.
  apply Forall_reverse, Forall_seqZ. intros x Hx. split; [lia|].
  change (2 ^ 32) with 4294967296. lia.
Qed.

Lemma gimli_ok s : words_ok s → words_ok (gimli s).
Proof.
  apply (foldl_invariant _ u32); [|apply rounds_u32]. intros. by apply gimli_round_ok.
Qed.

Lemma words_of_bytes_ok b : length b = 48%nat → is_bytes b → words_ok (words_of_bytes b).
Proof.
  intros Hl Hb. unfold words_of_bytes. split.
  - rewrite length_fmap. do 48 (destruct b as [|? b]; [done|]). by destruct b.
  - apply Forall_fmap. eapply list.Forall_impl.
    + apply (chunks_Forall (uint 8)); [lia|exact Hb].
    + intros c [Hc Hlc]. apply (uint_weaken (8 * Z.of_nat (length c))); [lia|].
      by apply uint_from_le_bytes.
Qed.

Lemma bytes_of_words_ok s :
  words_ok s → length (bytes_of_words s) = 48%nat ∧ is_bytes (bytes_of_words s).
Proof.
  intros [Hl _]. unfold bytes_of_words. split.
  - by destruct_words s.
  - apply Forall_concat, Forall_fmap, Forall_true. intros; apply to_le_bytes_bytes.
Qed.

Lemma words_of_bytes_of_words s : words_ok s → words_of_bytes (bytes_of_words s) = s.
Proof.
  intros [_ Hs]. unfold words_of_bytes, bytes_of_words.
  induction Hs as [|w s Hw Hs IH]; [done|]. rewrite fmap_cons. cbn [concat].
  rewrite chunks_app by (apply length_to_le_bytes || lia).
  rewrite fmap_cons, IH, from_to_le_bytes_small by done. done.
Qed.

Lemma bytes_of_words_of_bytes k b :
  length b = (4 * k)%nat → is_bytes b → bytes_of_words (words_of_bytes b) = b.
Proof.
  unfold words_of_bytes, bytes_of_words. revert b.
  induction k as [|k IH]; intros b Hl Hb; [by destruct b|].
  rewrite chunks_step; [|lia|by intros ->].
  rewrite !fmap_cons. cbn [concat]. rewrite IH; [|rewrite length_drop; lia|by apply Forall_drop].
  replace 4%nat with (length (take 4 b)) at 1 by (rewrite length_take; lia).
  rewrite to_from_le_bytes by (by apply Forall_take). apply take_drop.
Qed.

Lemma permute_wf g : wf g → wf (permute g).
Proof.
  intros [Hl Hb]. by apply bytes_of_words_ok, gimli_ok, words_of_bytes_ok.
Qed.

(** ** The permutation loses no information *)

(** Equal outputs of the SP-box on a column force equal inputs, by induction
    on the bit index: bit [i] of each output mixes bit [i] of the inputs with
    strictly lower bits. *)
Lemma sp_box_inj x y z x' y' z' :
  u32 x → u32 y → u32 z → u32 x' → u32 y' → u32 z' →
  Z.lxor (Z.lxor x (shl 32 z 1)) (shl 32 (Z.land y z) 2)
    = Z.lxor (Z.lxor x' (shl 32 z' 1)) (shl 32 (Z.land y' z') 2) →
  Z.lxor (Z.lxor y x) (shl 32 (Z.lor x z) 1) = Z.lxor (Z.lxor y' x') (shl 32 (Z.lor x' z') 1) →
  Z.lxor (Z.lxor z y) (shl 32 (Z.land x y) 3) = Z.lxor (Z.lxor z' y') (shl 32 (Z.land x' y') 3) →
  x = x' ∧ y = y' ∧ z = z'.
Proof.
  intros Hx Hy Hz Hx' Hy' Hz' E1 E2 E3.
  assert (Hbits : ∀ n i, i < Z.of_nat n → i < 32 →
    Z.testbit x i = Z.testbit x' i ∧ Z.testbit y i = Z.testbit y' i ∧ Z.testbit z i = Z.testbit z' i).
  { induction n as [|n IH]; intros i Hi Hi32; [by rewrite !Z.testbit_neg_r by lia|].
    destruct (decide (i < Z.of_nat n)); [by apply IH|].
    assert (Hlow : ∀ k, 0 < k → Z.testbit x (i - k) = Z.testbit x' (i - k) ∧
      Z.testbit y (i - k) = Z.testbit y' (i - k) ∧ Z.testbit z (i - k) = Z.testbit z' (i - k))
      by (intros; apply IH; lia).
    destruct (Hlow 1 ltac:(lia)) as (X1 & _ & Z1), (Hlow 2 ltac:(lia)) as (_ & Y2 & Z2),
      (Hlow 3 ltac:(lia)) as (X3 & Y3 & _).
    apply (f_equal (λ v, Z.testbit v i)) in E1, E2, E3. revert E1 E2 E3.
    rewrite !Z.lxor_spec, !testbit_shl, !Z.land_spec, !Z.lor_spec by lia.
    rewrite X1, Z1, Y2, Z2, X3, Y3. intros E1%xorb_cancel_r%xorb_cancel_r E2%xorb_cancel_r E3%xorb_cancel_r.
    rewrite E1 in E2 |- *. apply xorb_cancel_r in E2. rewrite E2 in E3 |- *.
    apply xorb_cancel_r in E3. done. }
  repeat split; (apply (uint_bits_ext 32); [done..|]); intros i Hi; apply (Hbits 32%nat i); lia.
Qed.

Lemma rotate_left_inj x y n :
  0 <= n <= 32 → u32 x → u32 y → rotate_left 32 x n = rotate_left 32 y n → x = y.
Proof. intros Hn Hx Hy E. by rewrite <- (rotate_right_left 32 x n), E, rotate_right_left. Qed.

Lemma gimli_col_inj s s' col :
  (col < 4)%nat → words_ok s → words_ok s' → gimli_col s col = gimli_col s' col → s = s'.
Proof.
  intros Hc [Hl Hs] [Hl' Hs'] E. destruct_words s. destruct_words s'.
  pose proof (f_equal (.!!! col) E) as E3.
  pose proof (f_equal (.!!! (col + 4)%nat) E) as E2.
  pose proof (f_equal (.!!! (col + 8)%nat) E) as E1.
  unfold gimli_col in *.
  repeat match goal with H : Forall _ (_ :: _) |- _ => apply list.Forall_cons in H as [? H] end.
  destruct col as [|[|[|[|col]]]]; [| | | |lia];
    cbn -[rotate_left shl Z.lxor Z.land Z.lor] in E, E1, E2, E3;
    (destruct (λ a b c d e f, sp_box_inj _ _ _ _ _ _ a b c d e f E1 E2 E3) as (Ex & Ey & Ez);
      [auto with words..|]);
    apply rotate_left_inj in Ex, Ey; (lia || done || by simplify_eq).
Qed.

Lemma swap_inj i j s s' :
  (i < 12)%nat → (j < 12)%nat → words_ok s → words_ok s' → swap i j s = swap i j s' → s = s'.
Proof.
  intros Hi Hj [Hl _] [Hl' _] E.
  assert (Hlen : ∀ k, (k < 12)%nat → s !! k = s' !! k); cycle 1.
  { apply list_eq_same_length with (n := 12%nat); [done..|]. intros k x y Hk Hx Hy.
    specialize (Hlen k Hk). congruence. }
  assert (Hk : ∀ t k, length t = 12%nat → (k < 12)%nat → swap i j t !! k =
    Some (t !!! (if decide (k = i) then j else if decide (k = j) then i else k))).
  { intros t k Ht Hk. unfold swap. destruct (decide (k = i)) as [->|].
    - by rewrite list_lookup_insert_eq by (rewrite length_insert; lia).
    - rewrite list_lookup_insert_ne by done. destruct (decide (k = j)) as [->|].
      + by rewrite list_lookup_insert_eq by lia.
      + rewrite list_lookup_insert_ne by done. apply list_lookup_lookup_total_lt. lia. }
  intros k Hlt. rewrite !list_lookup_lookup_total_lt by lia.
  pose proof (f_equal (.!! i) E) as Ei. pose proof (f_equal (.!! j) E) as Ej.
  pose proof (f_equal (.!! k) E) as Ek. cbv beta in *.
  rewrite !Hk in Ei, Ej, Ek by done. repeat case_decide; congruence.
Qed.

#[local] Opaque swap.

Lemma insert0_lxor_inj s s' c :
  words_ok s → words_ok s' →
  <[0%nat := Z.lxor (s !!! 0%nat) c]> s = <[0%nat := Z.lxor (s' !!! 0%nat) c]> s' → s = s'.
Proof.
  intros [Hl _] [Hl' _] E. destruct s as [|x s], s' as [|x' s']; [done..|].
  injection E as E ->. f_equal. apply (lxor_inj_l _ _ c). by rewrite !(Z.lxor_comm c).
Qed.

Lemma seq04_lt : Forall (λ col, col < 4)%nat (seq 0 4).
Proof. repeat constructor; lia. Qed.

Lemma gimli_cols_inj s s' :
  words_ok s → words_ok s' → foldl gimli_col s (seq 0 4) = foldl gimli_col s' (seq 0 4) → s = s'.
Proof.
  apply (foldl_inj words_ok _ _ _ _ _ seq04_lt); intros; [by apply gimli_col_ok|].
  by eapply gimli_col_inj.
Qed.

Lemma gimli_cols_ok s : words_ok s → words_ok (foldl gimli_col s (seq 0 4)).
Proof. apply (foldl_invariant _ _ _ _ _ (λ b a Ha, gimli_col_ok b a Ha) seq04_lt). Qed.

Lemma gimli_round_inj s s' round :
  words_ok s → words_ok s' → gimli_round s round = gimli_round s' round → s = s'.
Proof.
  intros Hs Hs' E. apply gimli_cols_inj; [done..|]. revert E. unfold gimli_round.
  generalize (gimli_cols_ok s Hs), (gimli_cols_ok s' Hs').
  generalize (foldl gimli_col s (seq 0 4)), (foldl gimli_col s' (seq 0 4)). clear s s' Hs Hs'.
  intros s s' Hs Hs' E. destruct (Z.land round 3 =? 2), (Z.land round 3 =? 0);
    repeat match goal with
    | |- words_ok (swap _ _ _) => apply swap_ok; [lia..|]
    | |- words_ok _ => assumption
    | E : <[_:=_]> _ = _ |- _ => apply insert0_lxor_inj in E
    | E : swap _ _ _ = swap _ _ _ |- _ => apply swap_inj in E; [|lia|lia| |]
    end; done.
Qed.

Lemma gimli_inj s s' : words_ok s → words_ok s' → gimli s = gimli s' → s = s'.
Proof.
  apply (foldl_inj words_ok _ _ _ _ _ rounds_u32); intros; [by apply gimli_round_ok|].
  by eapply gimli_round_inj.
Qed.

Lemma permute_inj g g' : wf g → wf g' → permute g = permute g' → g = g'.
Proof.
  intros [Hl Hb] [Hl' Hb']. destruct g as [b], g' as [b'].
  unfold permute, buf_mut. simpl in *. intros [= E]. f_equal.
  pose proof (words_of_bytes_ok b Hl Hb) as Hw. pose proof (words_of_bytes_ok b' Hl' Hb') as Hw'.
  apply (f_equal words_of_bytes) in E. rewrite !words_of_bytes_of_words in E by (by apply gimli_ok).
  apply gimli_inj in E; [|done..]. apply (f_equal bytes_of_words) in E.
  by rewrite !(bytes_of_words_of_bytes 12) in E.
Qed.

(** [permute] is a permutation of the valid 48-byte states: it keeps the
    length and the byte range, and two distinct states never collide. *)
Theorem permute_permutation g g' :
  wf g → wf g' → wf (permute g) ∧ (permute g = permute g' → g = g').
Proof. intros. split; [by apply permute_wf|by apply permute_inj]. Qed.

(** ** The hash is a sponge *)

(** The reference construction: the message is padded to a multiple of the
    rate with [0x1F], zeros and a last [0x80] (one byte [0x9F] when a single
    byte is left), every block is absorbed and followed by a permutation, and
    the output is the rate part of the successive states. *)
Definition sponge_padding (len : nat) : bytes :=
  let r := (RATE_BYTES - len mod RATE_BYTES)%nat in
  if decide (r = 1%nat) then [0x9F] else 0x1F :: replicate (r - 2) 0 ++ [0x80].
Definition absorb_block (g : GimliState) (block : bytes) : GimliState :=
  permute (buf_mut g (λ b, xor_into b block)).
Definition squeeze_blocks (g : GimliState) (n : nat) : bytes :=
  concat ((λ k, take RATE_BYTES (buf (Nat.iter k permute g))) <$> seq 0 n).
Definition sponge_hash (input : bytes) (out_len : nat) : bytes :=
  let g := foldl absorb_block new (chunks RATE_BYTES (input ++ sponge_padding (length input))) in
  take out_len (squeeze_blocks g (out_len / RATE_BYTES + 1)).

Lemma new_wf : wf new.
Proof. split; [done|]. by repeat constructor. Qed.

Lemma buf_mut_wf g f :
  wf g → (∀ b, length b = 48%nat → is_bytes b → length (f b) = 48%nat ∧ is_bytes (f b)) →
  wf (buf_mut g f).
Proof. intros [? ?] Hf. by apply Hf. Qed.

Lemma xor_into_wf g chunk : wf g → is_bytes chunk → wf (buf_mut g (λ b, xor_into b chunk)).
Proof.
  intros. apply buf_mut_wf; [done|]. intros. rewrite length_xor_into.
  split; [done|]. by apply xor_into_bytes.
Qed.

Lemma absorb_block_wf g block : wf g → is_bytes block → wf (absorb_block g block).
Proof. intros. by apply permute_wf, xor_into_wf. Qed.

Lemma sponge_padding_length len :
  length (sponge_padding len) = (RATE_BYTES - len mod RATE_BYTES)%nat.
Proof.
  unfold sponge_padding. change RATE_BYTES with 16%nat.
  pose proof (Nat.mod_upper_bound len 16 ltac:(done)).
  cbv zeta. case_decide; cbn [length]; [lia|].
  rewrite length_app, length_replicate. cbn [length]. lia.
Qed.

(** Byte [i] of the padding of a last piece of [len] bytes. *)
Lemma sponge_padding_lookup len i :
  (len < 16)%nat → (i < 16 - len)%nat →
  sponge_padding len !! i = Some (Z.lxor (if decide (i = 0%nat) then 0x1F else 0)
                                         (if decide (len + i = 15)%nat then 0x80 else 0)).
Proof.
  intros Hlen Hi. unfold sponge_padding. change RATE_BYTES with 16%nat.
  rewrite Nat.mod_small by done. cbv zeta. case_decide as Hr.
  - by assert (len = 15 ∧ i = 0)%nat as [-> ->] by lia.
  - destruct i as [|i]; [by rewrite (decide_False (P := (_ = 15)%nat)) by lia|].
    transitivity ((replicate (16 - len - 2) 0 ++ [0x80]) !! i); [done|].
    destruct (decide (len + S i = 15)%nat).
    + rewrite lookup_app_r by (rewrite length_replicate; lia). rewrite length_replicate.
      by replace (i - (16 - len - 2))%nat with 0%nat by lia.
    + rewrite lookup_app_l by (rewrite length_replicate; lia).
      by rewrite lookup_replicate_2 by lia.
Qed.

Lemma lookup_xor_at k v b i :
  xor_at k v b !! i = (λ x, Z.lxor x (if decide (k = i) then v else 0)) <$> b !! i.
Proof.
  unfold xor_at. destruct (decide (k = i)) as [->|].
  - apply list_lookup_alter_eq.
  - rewrite list_lookup_alter_ne by done. destruct (b !! i); simpl; by rewrite ?Z.lxor_0_r.
Qed.

Lemma padding_xor b l :
  length b = 48%nat → (length l < 16)%nat →
  xor_at (RATE_BYTES - 1) 0x80 (xor_at (length l) 0x1F (xor_into b l))
    = xor_into b (l ++ sponge_padding (length l)).
Proof.
  intros Hb Hl. apply list_eq. intros i.
  rewrite !lookup_xor_at, !lookup_xor_into. change (RATE_BYTES - 1)%nat with 15%nat.
  destruct (b !! i) as [x|]; [|done].
  destruct (decide (i < length l)%nat) as [Hi|Hi].
  { rewrite (lookup_app_l l) by done. rewrite !decide_False by lia.
    by destruct (l !! i); simpl; rewrite !Z.lxor_0_r. }
  rewrite (lookup_ge_None_2 l), (lookup_app_r l) by lia.
  destruct (decide (i < 16)%nat) as [Hi16|Hi16].
  - rewrite sponge_padding_lookup by lia. simpl. f_equal. rewrite Z.lxor_assoc. f_equal.
    f_equal; apply decide_ext; lia.
  - rewrite !decide_False by lia.
    rewrite lookup_ge_None_2 by (rewrite sponge_padding_length, Nat.mod_small by done; change RATE_BYTES with 16%nat; lia).
    simpl. by rewrite !Z.lxor_0_r.
Qed.

Lemma absorb_chunk_full g chunk : length chunk = RATE_BYTES → absorb_chunk g chunk = absorb_block g chunk.
Proof. intros. unfold absorb_chunk. by rewrite decide_True. Qed.

Lemma absorb_chunk_short g chunk :
  (length chunk < RATE_BYTES)%nat → absorb_chunk g chunk = buf_mut g (λ b, xor_into b chunk).
Proof. intros. unfold absorb_chunk. rewrite decide_False by lia. done. Qed.

Lemma absorb_is_sponge input g :
  wf g → is_bytes input →
  let g' := foldl absorb_chunk g (chunks RATE_BYTES input) in
  permute (buf_mut (buf_mut g' (xor_at (length input mod RATE_BYTES) 0x1F))
                   (xor_at (RATE_BYTES - 1) 0x80))
    = foldl absorb_block g (chunks RATE_BYTES (input ++ sponge_padding (length input))).
Proof.
  change RATE_BYTES with 16%nat. cbv zeta. intros Hg Hin. revert g Hg Hin.
  assert (H0 : (0 < 16)%nat) by lia.
  assert (Hshort : ∀ l g, length (state g) = 48%nat → (length l < 16)%nat →
    permute (buf_mut (buf_mut (buf_mut g (λ b, xor_into b l)) (xor_at (length l mod 16) 31))
                     (xor_at (16 - 1) 128))
      = foldl absorb_block g (chunks 16 (l ++ sponge_padding (length l)))).
  { intros l g Hg Hl. rewrite Nat.mod_small by done.
    assert (length (l ++ sponge_padding (length l)) = 16%nat).
    { rewrite length_app, sponge_padding_length, Nat.mod_small by done.
      change RATE_BYTES with 16%nat. lia. }
    rewrite chunks_short by (lia || by destruct l). cbn [foldl]. unfold absorb_block.
    f_equal. unfold buf_mut. f_equal. by apply padding_xor. }
  induction input as [|l Hl IH] using (chunks_ind 16 H0); intros g Hg Hin.
  { rewrite chunks_nil. cbn [foldl]. rewrite <- Hshort by (apply Hg || simpl; lia).
    destruct g as [b]. unfold buf_mut. cbn [state]. by destruct b. }
  destruct (decide (length l < 16)%nat) as [Hlt|Hge].
  { rewrite (chunks_short 16 l) by (done || lia). cbn [foldl]. rewrite absorb_chunk_short by done. apply Hshort; [apply Hg|done]. }
  rewrite (chunks_step 16 l) by done. rewrite <- (take_drop 16 l) at 4.
  rewrite <- app_assoc, chunks_app by (rewrite ?length_take; lia). cbn [foldl].
  rewrite absorb_chunk_full by (rewrite length_take; change RATE_BYTES with 16%nat; lia).
  assert (Hmod : (length l mod 16 = length (drop 16 l) mod 16)%nat).
  { rewrite length_drop. replace (length l) with (length l - 16 + 1 * 16)%nat at 1 by lia.
    apply Nat.Div0.mod_add. }
  assert (Hpad : sponge_padding (length l) = sponge_padding (length (drop 16 l))).
  { unfold sponge_padding. change RATE_BYTES with 16%nat. by rewrite Hmod. }
  rewrite Hmod, Hpad. apply IH; [|by apply Forall_drop]. by apply absorb_block_wf, Forall_take.
Qed.

Lemma squeeze_blocks_S g m :
  squeeze_blocks g (S m) = take RATE_BYTES (buf g) ++ squeeze_blocks (permute g) m.
Proof.
  unfold squeeze_blocks. cbn [seq fmap list_fmap concat]. f_equal. f_equal.
  rewrite <- fmap_S_seq, <- list_fmap_compose. apply list_fmap_ext. intros i k _. unfold compose.
  by rewrite Nat.iter_succ_r.
Qed.

Lemma squeeze_blocks_length g m : wf g → length (squeeze_blocks g m) = (RATE_BYTES * m)%nat.
Proof.
  revert g; induction m as [|m IH]; intros g Hg; [done|].
  rewrite squeeze_blocks_S, length_app, IH, length_take by (by apply permute_wf).
  destruct Hg as [Hg _]. unfold buf. change RATE_BYTES with 16%nat. lia.
Qed.

Lemma squeeze_blocks_bytes g m : wf g → is_bytes (squeeze_blocks g m).
Proof.
  revert g; induction m as [|m IH]; intros g Hg; [constructor|].
  rewrite squeeze_blocks_S. apply list.Forall_app. split; [apply Forall_take, Hg|].
  by apply IH, permute_wf.
Qed.

(** With at least [out_len] iterations of fuel the squeezing loop runs to its
    end, and yields the first [out_len] bytes of the blocks. *)
Lemma squeeze_is_blocks fuel g n m :
  wf g → (n <= fuel)%nat → (n <= RATE_BYTES * m)%nat →
  squeeze fuel g n = take n (squeeze_blocks g m).
Proof.
  change RATE_BYTES with 16%nat.
  revert g n m. induction fuel as [|fuel IH]; intros g n m Hg Hf Hm; cbn [squeeze].
  { by assert (n = 0)%nat as -> by lia. }
  change RATE_BYTES with 16%nat. case_decide as Hn; [by subst n|]. cbv zeta.
  destruct m as [|m]; [lia|]. rewrite squeeze_blocks_S. change RATE_BYTES with 16%nat.
  assert (Hlen : length (take 16 (buf g)) = 16%nat) by (rewrite length_take; destruct Hg as [Hg _]; unfold buf; lia).
  destruct (decide (n <= 16)%nat) as [Hle|Hgt].
  - replace (n - n `min` 16)%nat with 0%nat by lia. replace (n `min` 16)%nat with n by lia.
    rewrite take_app_le, take_take by lia. replace (n `min` 16)%nat with n by lia.
    destruct fuel; cbn [squeeze]; apply app_nil_r.
  - replace (n `min` 16)%nat with 16%nat by lia. rewrite decide_True by lia.
    rewrite (IH _ _ m) by (by apply permute_wf || lia).
    rewrite (take_app_ge (take 16 (buf g))) by lia. by rewrite Hlen.
Qed.

(** C34. The hash of the code, with its partial last chunk left unpermuted and the
    padding bytes patched into the state, is the textbook sponge over the padded
    message; it always returns exactly the requested number of bytes. *)
Theorem gimli_hash_is_sponge input out_len :
  is_bytes input →
  gimli_hash input out_len = sponge_hash input out_len
  ∧ length (gimli_hash input out_len) = out_len ∧ is_bytes (gimli_hash input out_len).
Proof.
  intros Hin. assert (Hwf : wf (foldl absorb_block new (chunks RATE_BYTES (input ++ sponge_padding (length input))))).
  { apply (foldl_invariant _ (λ c, is_bytes c ∧ (length c <= RATE_BYTES)%nat)).
    - intros g c [? _] ?. by apply absorb_block_wf.
    - apply (chunks_Forall (uint 8)); [change RATE_BYTES with 16%nat; lia|].
      apply list.Forall_app. split; [done|]. unfold sponge_padding.
      case_decide; repeat constructor; try done. apply list.Forall_app.
      split; [by apply Forall_replicate|by repeat constructor].
    - apply new_wf. }
  assert (E : gimli_hash input out_len = sponge_hash input out_len).
  { unfold gimli_hash, sponge_hash. rewrite absorb_is_sponge by (done || apply new_wf).
    apply squeeze_is_blocks; [done..|]. change RATE_BYTES with 16%nat.
    pose proof (Nat.div_mod_eq out_len 16). pose proof (Nat.mod_upper_bound out_len 16 ltac:(done)). lia. }
  split; [done|]. rewrite E. unfold sponge_hash.
  split; [|by apply Forall_take, squeeze_blocks_bytes].
  rewrite length_take, squeeze_blocks_length by done. change RATE_BYTES with 16%nat.
  pose proof (Nat.div_mod_eq out_len 16). pose proof (Nat.mod_upper_bound out_len 16 ltac:(done)). lia.
Qed.

(** The state after absorbing the byte 1, against the empty state. *)
Lemma permute_permutation_witness :
  wf (MkGimliState (1 :: replicate 47 0)) ∧ wf new
  ∧ wf (permute (MkGimliState (1 :: replicate 47 0)))
  ∧ permute (MkGimliState (1 :: replicate 47 0)) ≠ permute new.
Proof.
  assert (H1 : wf (MkGimliState (1 :: replicate 47 0))) by (split; [done|by repeat constructor]).
  destruct (permute_permutation _ _ H1 new_wf) as [Hwf Hinj].
  assert (Hne : MkGimliState (1 :: replicate 47 0) ≠ new) by (intros [=]).
  split; [exact H1|]. split; [exact new_wf|]. split; [exact Hwf|]. exact (λ E, Hne (Hinj E)).
Defined.

Lemma gimli_hash_is_sponge_witness :
  is_bytes (str_bytes "There's plenty for the both of us, may the best Dwarf win.")
  ∧ hex_string (gimli_hash (str_bytes "There's plenty for the both of us, may the best Dwarf win.") 32)
      = "4afb3ff784c7ad6943d49cf5da79facfa7c4434e1ce44f5dd4b28f91a84d22c8"%string
  ∧ length (gimli_hash (str_bytes "There's plenty for the both of us, may the best Dwarf win.") 32) = 32%nat.
Proof.
  assert (H : is_bytes (str_bytes "There's plenty for the both of us, may the best Dwarf win.")) by (by repeat constructor).
  split; [exact H|]. split; [vm_compute; reflexivity|].
  exact (proj1 (proj2 (gimli_hash_is_sponge _ 32 H))).
Defined.
