(* ===== verification/Speck.v ===== *)
(** The Speck-128 round function and key schedule ([rust/src/raw_speck.rs]).

    [ernd] is also what [IpAddr::from_node_name] hashes node names with. *)
From S2P Require Import Prelude.

Definition ernd (x y k : Z) : Z * Z :=
  let x := rotate_right 64 x 8 in
  let x := wrapping_add 64 x y in
  let x := Z.lxor x k in
  let y := rotate_left 64 y 3 in
  let y := Z.lxor y x in
  (x, y).

Definition drnd (x y k : Z) : Z * Z :=
  let y := Z.lxor y x in
  let y := rotate_right 64 y 3 in
  let x := Z.lxor x k in
  let x := wrapping_sub 64 x y in
  let x := rotate_left 64 x 8 in
  (x, y).

(** The word at byte offset [i] of the key: [x |= (key[i + j] as u64) << (j * 8)]. *)
Definition key_word (key : bytes) (i : nat) : Z :=
  foldl (λ x j, Z.lor x (shl 64 (key !!! (i + j)%nat) (8 * Z.of_nat j))) 0 (seq 0 8).

(** The [while i < key.len()] loop, [i] advancing by eight. *)
Definition key_words (key : bytes) : list Z :=
  (λ k, key_word key (8 * k)) <$> seq 0 (length key / 8).

(** The rounds from number [i] on, on the words [a] and [b]; returns what is
    pushed on [res]. [i % len_a] panics when [a] is empty. *)
Fixpoint schedule_rounds (rounds i : nat) (a : list Z) (b : Z) : outcome (list Z) :=
  match rounds with
  | O => mret []
  | S rounds =>
      if decide (length a = 0%nat) then Panic "remainder with a divisor of zero" else
      let ind := (i mod length a)%nat in
      let '(x, y) := ernd (a !!! ind) b (wrap 64 (Z.of_nat i)) in
      res ← schedule_rounds rounds (S i) (<[ind := x]> a) y;
      mret (b :: res)
  end.

Definition key_schedule (key : bytes) (rounds : nat) : outcome (list Z) :=
  if decide (length key mod 8 ≠ 0)%nat then Panic "assertion failed" else
  match key_words key with
  | [] => Panic "removal index (is 0) should be < len (is 0)"
  | b :: a => schedule_rounds rounds 0 a b
  end.

(** ** The round function *)

Lemma ernd_u64 x y k : u64 x → u64 y → u64 k → u64 (ernd x y k).1 ∧ u64 (ernd x y k).2.
Proof. intros. simpl. auto 10 with words. Qed.

Lemma drnd_u64 x y k : u64 x → u64 y → u64 k → u64 (drnd x y k).1 ∧ u64 (drnd x y k).2.
Proof. intros. simpl. auto 10 with words. Qed.

Lemma drnd_ernd x y k : u64 x → u64 y → drnd (ernd x y k).1 (ernd x y k).2 k = (x, y).
Proof.
  intros Hx Hy. unfold drnd, ernd. cbn [fst snd].
  rewrite !lxor_cancel_r, rotate_right_left by (done || lia). f_equal.
  rewrite wrapping_sub_add by auto with words. by rewrite rotate_left_right by (done || lia).
Qed.

Lemma ernd_drnd x y k : u64 x → u64 y → u64 k → ernd (drnd x y k).1 (drnd x y k).2 k = (x, y).
Proof.
  intros Hx Hy Hk. unfold drnd, ernd. cbn [fst snd].
  rewrite rotate_right_left by auto with words.
  rewrite wrapping_add_sub by auto with words. rewrite lxor_cancel_r.
  rewrite rotate_left_right by auto with words. by rewrite lxor_cancel_r.
Qed.

Lemma ernd_inj x y x' y' k :
  u64 x → u64 y → u64 x' → u64 y' → ernd x y k = ernd x' y' k → x = x' ∧ y = y'.
Proof.
  intros Hx Hy Hx' Hy' E. pose proof (drnd_ernd x y k Hx Hy) as E1.
  rewrite E, drnd_ernd in E1 by done. by injection E1.
Qed.

(** C35. [drnd] undoes [ernd] and [ernd] undoes [drnd], on all 64-bit words and
    for every round key: the round is a bijection of the 128-bit block. *)
Theorem ernd_drnd_inverse x y k :
  u64 x → u64 y → u64 k →
  drnd (ernd x y k).1 (ernd x y k).2 k = (x, y)
  ∧ ernd (drnd x y k).1 (drnd x y k).2 k = (x, y)
  ∧ u64 (ernd x y k).1 ∧ u64 (ernd x y k).2.
Proof. intros. split; [by apply drnd_ernd|]. split; [by apply ernd_drnd|by apply ernd_u64]. Qed.

(** [ernd(1, 2, 3)] and [drnd(1, 2, 3)] of the unit tests. *)
Lemma ernd_drnd_inverse_witness :
  ernd 1 2 3 = (72057594037927937, 72057594037927953)
  ∧ drnd 1 2 3 = (672, 6917529027641081856)
  ∧ drnd (ernd 1 2 3).1 (ernd 1 2 3).2 3 = (1, 2).
Proof.
  split; [reflexivity|]. split; [reflexivity|].
  apply (ernd_drnd_inverse 1 2 3); split; (lia || reflexivity).
Defined.

(** ** The key schedule *)

Lemma shl_byte b n : u8 b → 0 <= n <= 56 → shl 64 b n = Z.shiftl b n.
Proof.
  intros Hb Hn. apply wrap_small; [done|]. apply uint_of_bits; [done|]. intros i Hi.
  rewrite Z.shiftl_spec by lia. apply (uint_testbit_high 8); [done|done|lia].
Qed.

(** A key word is the little-endian value of its eight bytes. *)
Lemma key_word_le key i :
  is_bytes key → (i + 8 <= length key)%nat → key_word key i = from_le_bytes (take 8 (drop i key)).
Proof.
  intros Hkey Hi. unfold key_word.
  assert (Hd : ∀ j, key !!! (i + j)%nat = drop i key !!! j).
  { intros j. by rewrite !list_lookup_total_alt, lookup_drop. }
  cbn [seq foldl]. rewrite !Hd.
  assert (Hb : is_bytes (drop i key)) by by apply Forall_drop.
  assert (Hl : (8 <= length (drop i key))%nat) by (rewrite length_drop; lia).
  revert Hb Hl. generalize (drop i key) as l. intros l Hb Hl.
  do 8 (destruct l as [|? l]; [simpl in Hl; lia|]).
  repeat (apply list.Forall_cons in Hb as [? Hb]).
  cbn -[shl Z.lor Z.shiftl Z.of_nat Z.mul]. rewrite !shl_byte by (done || lia).
  rewrite !Z.shiftl_lor, !Z.shiftl_shiftl, Z.shiftl_0_l, Z.lor_0_r by lia.
  by rewrite Z.lor_0_l, !Z.lor_assoc.
Qed.

Lemma length_key_words key : length (key_words key) = (length key / 8)%nat.
Proof. unfold key_words. by rewrite length_fmap, length_seq. Qed.

Lemma key_words_u64 key :
  is_bytes key → (length key mod 8 = 0)%nat → Forall u64 (key_words key).
Proof.
  intros Hkey Hmod. apply Forall_fmap, Forall_seq. intros k Hk. unfold compose.
  pose proof (Nat.div_mod_eq (length key) 8).
  rewrite key_word_le by (done || lia).
  replace 64 with (8 * Z.of_nat (length (take 8 (drop (8 * k) key))))
    by (rewrite length_take, length_drop; lia).
  apply uint_from_le_bytes. by apply Forall_take, Forall_drop.
Qed.

(** The words determine the key. *)
Lemma key_words_inj key key' :
  is_bytes key → is_bytes key' → length key = length key' → (length key mod 8 = 0)%nat →
  key_words key = key_words key' → key = key'.
Proof.
  intros Hk Hk' Hl Hmod E. apply list_eq_same_length with (length key); [done..|].
  intros i x y Hi Hx Hy. pose proof (Nat.div_mod_eq (length key) 8).
  pose proof (Nat.div_mod_eq i 8). pose proof (Nat.mod_upper_bound i 8 ltac:(done)).
  set (q := (i / 8)%nat) in *. set (r := (i mod 8)%nat) in *.
  assert (Hw : key_word key (8 * q) = key_word key' (8 * q)).
  { apply (f_equal (.!! q)) in E. unfold key_words in E.
    rewrite !list_lookup_fmap, <- Hl, lookup_seq_lt in E by lia. by injection E. }
  rewrite !key_word_le in Hw by (done || lia).
  apply (f_equal (to_le_bytes 8)) in Hw.
  assert (Hle : ∀ l, is_bytes l → length l = length key →
    to_le_bytes 8 (from_le_bytes (take 8 (drop (8 * q) l))) !! r = l !! i).
  { intros l Hb Hlen.
    replace 8%nat with (length (take 8 (drop (8 * q) l))) at 1 by (rewrite length_take, length_drop; lia).
    rewrite to_from_le_bytes by (by apply Forall_take, Forall_drop).
    rewrite lookup_take_lt, lookup_drop by lia. f_equal. lia. }
  apply (f_equal (.!! r)) in Hw. rewrite !Hle in Hw by done. congruence.
Qed.

Lemma schedule_rounds_length rounds i a b res :
  schedule_rounds rounds i a b = Ret res → length res = rounds.
Proof.
  revert i a b res; induction rounds as [|rounds IH]; intros i a b res; simpl; [by intros [= <-]|].
  case_decide; [discriminate|]. intros [rest [Hrest [= <-]]]%bind_Ret_inv. simpl. by erewrite IH.
Qed.

Lemma schedule_rounds_total rounds i a b :
  a ≠ [] → Forall u64 a → u64 b → ∃ res, schedule_rounds rounds i a b = Ret res ∧ Forall u64 res.
Proof.
  revert i a b; induction rounds as [|rounds IH]; intros i a b Ha Hua Hb; cbn [schedule_rounds]; [by eexists|].
  assert (Hl : length a ≠ 0%nat) by (by destruct a). rewrite decide_False by done.
  destruct (ernd_u64 (a !!! (i mod length a)%nat) b (wrap 64 (Z.of_nat i))) as [Hx Hy]; [|done|by apply uint_wrap|].
  { eapply Forall_lookup_total_1; [done|]. by apply Nat.mod_upper_bound. }
  cbn [ernd fst snd] in *.
  edestruct (IH (S i)) as (res & -> & Hres); [| | |eexists; split; [reflexivity|by constructor]].
  - intros E. apply (f_equal length) in E. by rewrite length_insert in E.
  - by apply Forall_insert.
  - done.
Qed.

Lemma ernd_snd x y k : (ernd x y k).2 = Z.lxor (rotate_left 64 y 3) (ernd x y k).1.
Proof. done. Qed.

(** Two runs that push the same round keys agree on the second word and on
    every word of [a] the remaining rounds read for the first time. *)
Lemma schedule_rounds_inj rounds i a a' b b' res :
  length a = length a' → (i <= length a)%nat → (length a - i < rounds)%nat →
  Forall u64 a → Forall u64 a' → u64 b → u64 b' →
  schedule_rounds rounds i a b = Ret res → schedule_rounds rounds i a' b' = Ret res →
  b = b' ∧ ∀ j, (i <= j)%nat → a !! j = a' !! j.
Proof.
  revert i a a' b b' res; induction rounds as [|rounds IH]; intros i a a' b b' res Hl Hi Hr Ha Ha' Hb Hb'; [lia|].
  cbn [schedule_rounds]. rewrite <- Hl. case_decide as H0; [discriminate|].
  cbn [ernd]. intros [rest [Hrest [= <-]]]%bind_Ret_inv [rest' [Hrest' [= -> Erest]]]%bind_Ret_inv.
  split; [done|]. subst rest'. destruct (decide (i = length a)) as [->|Hne].
  { intros j Hj. by rewrite !lookup_ge_None_2 by lia. }
  rewrite (Nat.mod_small i) in Hrest, Hrest' by lia.
  set (x := Z.lxor (wrapping_add 64 (rotate_right 64 (a !!! i) 8) b) _) in Hrest.
  set (x' := Z.lxor (wrapping_add 64 (rotate_right 64 (a' !!! i) 8) b) _) in Hrest'.
  assert (Hai : u64 (a !!! i)) by (eapply Forall_lookup_total_1; [done|lia]).
  assert (Hai' : u64 (a' !!! i)) by (eapply Forall_lookup_total_1; [done|lia]).
  assert (Hk : u64 (wrap 64 (Z.of_nat i))) by by apply uint_wrap.
  edestruct (ernd_u64 (a !!! i) b) as [Hx Hy]; [done|done|exact Hk|].
  edestruct (ernd_u64 (a' !!! i) b) as [Hx' Hy']; [done|done|exact Hk|].
  destruct (IH (S i) (<[i:=x]> a) (<[i:=x']> a') (Z.lxor (rotate_left 64 b 3) x)
              (Z.lxor (rotate_left 64 b 3) x') rest) as [Eb Erest];
    [by rewrite !length_insert|rewrite length_insert; lia..|by apply Forall_insert|by apply Forall_insert
    |done|done|done|done|].
  apply lxor_inj_l in Eb.
  destruct (ernd_inj (a !!! i) b (a' !!! i) b (wrap 64 (Z.of_nat i))) as [Eai _]; try done.
  { unfold ernd. cbv zeta. fold x x'. by rewrite Eb. }
  intros j Hj. destruct (decide (i = j)) as [<-|Hij].
  - rewrite !list_lookup_lookup_total_lt by lia. by rewrite Eai.
  - specialize (Erest j ltac:(lia)). by rewrite !list_lookup_insert_ne in Erest by done.
Qed.

(** The key schedule returns exactly when the key is a positive number of
    whole words, of at least two words if any round is asked for (with one word
    [i % len_a] divides by zero), and it panics otherwise. It then returns
    [rounds] words, and as soon as [rounds] reaches the number of key words the
    schedule determines the key. *)
Theorem key_schedule_correct key rounds :
  is_bytes key →
  ((∃ res, key_schedule key rounds = Ret res)
     ↔ (length key mod 8 = 0 ∧ 8 <= length key ∧ (rounds = 0 ∨ 16 <= length key))%nat)
  ∧ (∀ res, key_schedule key rounds = Ret res → length res = rounds)
  ∧ (∀ key' res, is_bytes key' → length key' = length key → (length key / 8 <= rounds)%nat →
       key_schedule key rounds = Ret res → key_schedule key' rounds = Ret res → key = key').
Proof.
  intros Hkey. pose proof (length_key_words key) as Hlw. pose proof (Nat.div_mod_eq (length key) 8) as Hdm.
  unfold key_schedule. case_decide as Hmod.
  { split; [split; [by intros [? ?]|lia]|]. split; discriminate. }
  assert (Hmod0 : (length key mod 8 = 0)%nat) by lia.
  pose proof (key_words_u64 key Hkey Hmod0) as Hwu.
  destruct (key_words key) as [|b a] eqn:Ew; cbn [length] in Hlw.
  { split; [split; [by intros [? ?]|lia]|]. split; [discriminate|]. intros. discriminate. }
  apply list.Forall_cons in Hwu as [Hb Ha]. split; [|split].
  - destruct a as [|w a]; [|split; [intros _; cbn [length] in *; lia|]].
    + destruct rounds; cbn [schedule_rounds length decide decide_rel]; cbn [length] in Hlw.
      * split; [intros _; lia|by eexists].
      * split; [by intros [? ?]|lia].
    + intros _. destruct (schedule_rounds_total rounds 0 (w :: a) b) as (res & ? & _); eauto.
  - apply schedule_rounds_length.
  - intros key' res Hkey' Hl' Hr E. rewrite Hl', (decide_False (P := (_ ≠ _)%nat)) by lia.
    pose proof (length_key_words key') as Hlw'. pose proof (key_words_u64 key' Hkey' ltac:(by rewrite Hl')) as Hwu'.
    destruct (key_words key') as [|b' a'] eqn:Ew'; [discriminate|]. cbn [length] in Hlw'. rewrite Hl' in Hlw'.
    apply list.Forall_cons in Hwu' as [Hb' Ha']. intros E'.
    destruct (schedule_rounds_inj rounds 0 a a' b b' res) as [-> Ea]; try (done || lia).
    assert (a = a') as -> by (apply list_eq; intros; apply Ea; lia).
    apply key_words_inj; [done..|]. congruence.
Qed.

(** A 16-byte key and its first two round keys. *)
Lemma key_schedule_correct_witness :
  is_bytes (str_bytes "0123456789abcdef") ∧
  ∃ res, key_schedule (str_bytes "0123456789abcdef") 2 = Ret res ∧ length res = 2%nat.
Proof.
  assert (H : is_bytes (str_bytes "0123456789abcdef")) by (repeat constructor; done).
  split; [exact H|].
  destruct (key_schedule_correct (str_bytes "0123456789abcdef") 2 H) as (Hiff & Hlen & _).
  destruct (proj2 Hiff) as [res Hres]; [vm_compute; lia|]. exists res. split; [exact Hres|by apply Hlen].
Defined.
