(* ===== verification/IpAddr.v ===== *)
(** Node addresses ([rust/src/ip_addr.rs]): construction from buffers, the hash
    of a node name into [fd00::/16], and the textual form. *)
From S2P Require Import Prelude Speck.

Inductive IpAddr :=
| V4 (a b c d : Z)
| V6 (a b c d e f g h i j k l m n o p : Z).

#[export] Instance IpAddr_eq_dec : EqDecision IpAddr.
Proof. solve_decision. Defined.

(** The bytes of an address, in order. *)
Definition octets (addr : IpAddr) : bytes :=
  match addr with
  | V4 a b c d => [a; b; c; d]
  | V6 a b c d e f g h i j k l m n o p => [a; b; c; d; e; f; g; h; i; j; k; l; m; n; o; p]
  end.
Definition is_addr (addr : IpAddr) : Prop := is_bytes (octets addr).

Definition of_octets (bs : bytes) : option IpAddr :=
  match bs with
  | [a; b; c; d] => Some (V4 a b c d)
  | [a; b; c; d; e; f; g; h; i; j; k; l; m; n; o; p] => Some (V6 a b c d e f g h i j k l m n o p)
  | _ => None
  end.

#[export] Instance IpAddr_countable : Countable IpAddr.
Proof. refine (inj_countable octets of_octets _). by intros []. Defined.

Definition ipv4_from_buf (buf : bytes) : outcome IpAddr :=
  if decide (length buf = 4%nat) then
    mret (V4 (buf !!! 0%nat) (buf !!! 1%nat) (buf !!! 2%nat) (buf !!! 3%nat))
  else Panic "assertion failed".

Definition ipv6_from_buf (buf : bytes) : outcome IpAddr :=
  if decide (length buf = 16%nat) then
    mret (V6 (buf !!! 0%nat) (buf !!! 1%nat) (buf !!! 2%nat) (buf !!! 3%nat)
             (buf !!! 4%nat) (buf !!! 5%nat) (buf !!! 6%nat) (buf !!! 7%nat)
             (buf !!! 8%nat) (buf !!! 9%nat) (buf !!! 10%nat) (buf !!! 11%nat)
             (buf !!! 12%nat) (buf !!! 13%nat) (buf !!! 14%nat) (buf !!! 15%nat))
  else Panic "assertion failed".

(** ** Hashing a node name *)

(** [(a, b) = ernd(a, b, 0)]. *)
Definition step (s : Z * Z) : Z * Z := ernd s.1 s.2 0.
(** [for _ in 0..32 { (a, b) = ernd(a, b, 0) }]. *)
Definition mix (s : Z * Z) : Z * Z := Nat.iter 32 step s.
Definition absorb_char (s : Z * Z) (c : Z) : Z * Z := mix (ernd s.1 s.2 c).

(** [(a, b)] when the final [loop] is entered. *)
Definition name_state (name : bytes) : Z * Z :=
  mix (foldl absorb_char (69, wrap 64 (Z.of_nat (length name))) name).

(** The exit test of the [loop]. *)
Definition in_fd00 (s : Z * Z) : bool :=
  let buf := to_le_bytes 8 s.2 in
  (buf !!! 0%nat =? 0xfd) && (buf !!! 1%nat =? 0x00).

(** The [loop]: it has no bound, so the executable version takes fuel and
    returns [None] when that runs out. *)
Fixpoint search (fuel : nat) (s : Z * Z) : option (Z * Z) :=
  match fuel with
  | O => None
  | S fuel => if in_fd00 s then Some s else search fuel (step s)
  end.

Definition state_addr (s : Z * Z) : IpAddr :=
  let a := to_le_bytes 8 s.1 in
  let b := to_le_bytes 8 s.2 in
  V6 (b !!! 0%nat) (b !!! 1%nat) (b !!! 2%nat) (b !!! 3%nat)
     (b !!! 4%nat) (b !!! 5%nat) (b !!! 6%nat) (b !!! 7%nat)
     (a !!! 0%nat) (a !!! 1%nat) (a !!! 2%nat) (a !!! 3%nat)
     (a !!! 4%nat) (a !!! 5%nat) (a !!! 6%nat) (a !!! 7%nat).

Definition from_node_name (fuel : nat) (name : bytes) : option IpAddr :=
  state_addr <$> search fuel (name_state name).

(** The unbounded [loop] as a relation: it leaves [s] through [t]. *)
Inductive loop_exits : Z * Z → Z * Z → Prop :=
| loop_break s : in_fd00 s = true → loop_exits s s
| loop_next s t : in_fd00 s = false → loop_exits (step s) t → loop_exits s t.

(** [from_node_name] returns [addr]. *)
Definition name_addr (name : bytes) (addr : IpAddr) : Prop :=
  ∃ t, loop_exits (name_state name) t ∧ addr = state_addr t.

(** ** Display *)

Definition dec_digit (d : Z) : string :=
  default ""%string (["0";"1";"2";"3";"4";"5";"6";"7";"8";"9"]%string !! Z.to_nat d).
(** [{}] of a byte. *)
Definition dec_u8 (b : Z) : string :=
  String.append (if 100 <=? b then dec_digit (b / 100) else ""%string)
    (String.append (if 10 <=? b then dec_digit (b / 10 mod 10) else ""%string) (dec_digit (b mod 10))).

Fixpoint join (sep : string) (l : list string) : string :=
  match l with
  | [] => ""%string
  | [s] => s
  | s :: l => String.append s (String.append sep (join sep l))
  end.

Fixpoint hex_groups (bs : bytes) : list string :=
  match bs with
  | x :: y :: bs => String.append (hex2 x) (hex2 y) :: hex_groups bs
  | _ => []
  end.

Definition fmt (addr : IpAddr) : string :=
  match addr with
  | V4 _ _ _ _ => join "." (dec_u8 <$> octets addr)
  | V6 _ _ _ _ _ _ _ _ _ _ _ _ _ _ _ _ => join ":" (hex_groups (octets addr))
  end.

(** ** The search loop *)

Definition state_ok (s : Z * Z) : Prop := u64 s.1 ∧ u64 s.2.

Lemma step_ok s : state_ok s → state_ok (step s).
Proof. intros [? ?]. by apply ernd_u64. Qed.

Lemma iter_step_ok n s : state_ok s → state_ok (Nat.iter n step s).
Proof. intros. induction n; simpl; [done|by apply step_ok]. Qed.

Lemma absorb_char_ok s c : u8 c → state_ok s → state_ok (absorb_char s c).
Proof.
  intros Hc [? ?]. apply iter_step_ok, ernd_u64; try done. by apply (uint_weaken 8).
Qed.

Lemma name_state_ok name : is_bytes name → state_ok (name_state name).
Proof.
  intros. apply iter_step_ok. eapply (foldl_invariant state_ok); [|done|].
  - intros. by apply absorb_char_ok.
  - split; [done|]. by apply uint_wrap.
Qed.

Lemma step_inj s s' : state_ok s → state_ok s' → step s = step s' → s = s'.
Proof.
  intros [? ?] [? ?] E. apply ernd_inj in E as [? ?]; [|done..]. destruct s, s'. by simpl in *; subst.
Qed.

Lemma iter_step_inj n s s' :
  state_ok s → state_ok s' → Nat.iter n step s = Nat.iter n step s' → s = s'.
Proof.
  intros. induction n as [|n IH]; [done|]. apply IH. apply step_inj; [by apply iter_step_ok..|done].
Qed.

(** [t] is the first state of the orbit of [s] that passes the exit test, and
    it is reached after [n] steps. *)
Definition first_exit (n : nat) (s t : Z * Z) : Prop :=
  t = Nat.iter n step s ∧ in_fd00 t = true ∧ ∀ m, (m < n)%nat → in_fd00 (Nat.iter m step s) = false.

Lemma first_exit_next n s t : in_fd00 s = false → first_exit n (step s) t ↔ first_exit (S n) s t.
Proof.
  intros Hs. unfold first_exit. rewrite Nat.iter_succ_r. split; intros (Ht & Hexit & Hbefore).
  - split_and!; [done|done|]. intros [|m] Hm; [done|]. rewrite Nat.iter_succ_r. apply Hbefore. lia.
  - split_and!; [done|done|]. intros m Hm. rewrite <- Nat.iter_succ_r. apply Hbefore. lia.
Qed.

Lemma search_first_exit fuel s t :
  search fuel s = Some t ↔ ∃ n, (n < fuel)%nat ∧ first_exit n s t.
Proof.
  revert s; induction fuel as [|fuel IH]; intros s; cbn [search].
  { split; [done|]. intros (n & ? & _). lia. }
  destruct (in_fd00 s) eqn:Hs.
  - split.
    + intros [= <-]. exists 0%nat. split; [lia|]. split_and!; [done|done|lia].
    + intros ([|n] & Hn & -> & _ & Hbefore); [done|]. specialize (Hbefore 0%nat ltac:(lia)). simpl in Hbefore. congruence.
  - rewrite IH. split.
    + intros (n & Hn & He). exists (S n). split; [lia|]. by apply first_exit_next.
    + intros ([|n] & Hn & He); [|exists n; split; [lia|by apply first_exit_next]].
      destruct He as (-> & Hexit & _). simpl in Hexit. congruence.
Qed.

Lemma loop_exits_first_exit s t : loop_exits s t ↔ ∃ n, first_exit n s t.
Proof.
  split.
  - induction 1 as [s Hs|s t Hs _ [n IH]].
    + exists 0%nat. split_and!; [done|done|lia].
    + exists (S n). by apply first_exit_next.
  - intros [n He]. revert s He. induction n as [|n IH]; intros s He.
    + destruct He as (-> & ? & _). by apply loop_break.
    + assert (Hs : in_fd00 s = false) by (destruct He as (_ & _ & Hb); apply (Hb 0%nat); lia).
      apply loop_next; [done|]. apply IH. by apply first_exit_next.
Qed.

Lemma first_exit_det n n' s t t' : first_exit n s t → first_exit n' s t' → n = n'.
Proof.
  intros (-> & He & Hb) (-> & He' & Hb'). destruct (Nat.lt_trichotomy n n') as [Hlt|[->|Hlt]]; [|done|].
  - by rewrite Hb' in He.
  - by rewrite Hb in He'.
Qed.

Lemma from_node_name_det f f' name a a' :
  from_node_name f name = Some a → from_node_name f' name = Some a' → a = a'.
Proof.
  unfold from_node_name. destruct (search f _) as [t|] eqn:E; [|done]. destruct (search f' _) as [t'|] eqn:E'; [|done].
  apply search_first_exit in E as (n & _ & H). apply search_first_exit in E' as (n' & _ & H').
  pose proof (first_exit_det _ _ _ _ _ H H') as <-. destruct H as (-> & _), H' as (-> & _). by intros [= <-] [= <-].
Qed.

Lemma in_fd00_bytes s : in_fd00 s = true → take 2 (to_le_bytes 8 s.2) = [0xfd; 0].
Proof.
  unfold in_fd00. rewrite andb_true_iff, !Z.eqb_eq.
  destruct (to_le_bytes 8 s.2) as [|x [|y l]]; intros [Hx Hy]; [discriminate..|].
  simpl. cbn in Hx, Hy. by subst.
Qed.

Lemma octets_state_addr s : octets (state_addr s) = to_le_bytes 8 s.2 ++ to_le_bytes 8 s.1.
Proof. reflexivity. Qed.

Lemma state_addr_inj s s' : state_ok s → state_ok s' → state_addr s = state_addr s' → s = s'.
Proof.
  intros [? ?] [? ?] E%(f_equal octets). rewrite !octets_state_addr in E.
  apply app_inj_1 in E as [E2%to_le_bytes_inj E1%to_le_bytes_inj]; try done.
  destruct s, s'; simpl in *; by subst.
Qed.

(** The executable [from_node_name] computes exactly what the unbounded loop
    returns: enough fuel gives the loop's result, no fuel gives another one,
    and the address is the one of the first state, in the order of iteration,
    whose low bytes are [fd 00]. *)
Theorem from_node_name_correct name addr :
  (name_addr name addr ↔ ∃ fuel, from_node_name fuel name = Some addr)
  ∧ (name_addr name addr ↔ ∃ n t, first_exit n (name_state name) t ∧ addr = state_addr t)
  ∧ (∀ addr', name_addr name addr → name_addr name addr' → addr = addr')
  ∧ (∀ fuel, from_node_name fuel name = None ↔
       ∀ n, (n < fuel)%nat → in_fd00 (Nat.iter n step (name_state name)) = false).
Proof.
  unfold name_addr, from_node_name. split_and!.
  - setoid_rewrite loop_exits_first_exit. split.
    + intros (t & [n He] & ->). exists (S n). apply fmap_Some. exists t. split; [|done].
      apply search_first_exit. exists n. split; [lia|done].
    + intros (fuel & (t & Hs & ->)%fmap_Some). apply search_first_exit in Hs as (n & _ & He). eauto.
  - setoid_rewrite loop_exits_first_exit.
    split; [intros (t & [n He] & ->)|intros (n & t & He & ->)]; eauto.
  - setoid_rewrite loop_exits_first_exit. intros addr' (t & [n He] & ->) (t' & [n' He'] & ->).
    f_equal. assert (n = n') as <- by by eapply first_exit_det. by destruct He as [-> _], He' as [-> _].
  - intros fuel. rewrite fmap_None. split.
    + intros Hn n. induction n as [n IH] using lt_wf_ind. intros Hlt.
      destruct (in_fd00 _) eqn:Hx; [|done]. exfalso.
      assert (search fuel (name_state name) = Some (Nat.iter n step (name_state name))); [|congruence].
      apply search_first_exit. exists n. split; [done|]. split_and!; [done|done|].
      intros m Hm. apply IH; lia.
    + intros Hall. destruct (search fuel _) as [t|] eqn:Hs; [|done]. exfalso.
      apply search_first_exit in Hs as (n & Hn & -> & Hx & _). by rewrite Hall in Hx.
Qed.

Lemma from_node_name_octets fuel name addr :
  is_bytes name → from_node_name fuel name = Some addr →
  is_addr addr ∧ length (octets addr) = 16%nat ∧ take 2 (octets addr) = [0xfd; 0].
Proof.
  intros Hname (t & Hs & ->)%fmap_Some. apply search_first_exit in Hs as (n & _ & _ & Hexit & _).
  unfold is_addr. rewrite octets_state_addr. split_and!.
  - apply list.Forall_app. split; apply to_le_bytes_bytes.
  - by rewrite length_app, !length_to_le_bytes.
  - rewrite take_app_le by (rewrite length_to_le_bytes; lia). by apply in_fd00_bytes.
Qed.

(** Every address derived from a node name is a valid IPv6 address inside
    [fd00::/16]. *)
Theorem from_node_name_fd00 fuel name addr :
  is_bytes name → from_node_name fuel name = Some addr →
  is_addr addr ∧ length (octets addr) = 16%nat ∧ take 2 (octets addr) = [0xfd; 0].
Proof. apply from_node_name_octets. Qed.

Lemma from_node_name_fd00_witness :
  option_map fmt (from_node_name 1000 (str_bytes "P")) = Some "fd00:6632:cc31:2429:1be9:5b62:63a8:0a0b"%string
  ∧ ∃ addr, from_node_name 1000 (str_bytes "P") = Some addr ∧ take 2 (octets addr) = [0xfd; 0].
Proof.
  assert (E : ∃ addr, from_node_name 1000 (str_bytes "P") = Some addr) by (eexists; vm_compute; reflexivity).
  split; [vm_compute; reflexivity|]. destruct E as [addr E]. exists addr. split; [exact E|].
  apply (from_node_name_fd00 1000 (str_bytes "P") addr); [repeat constructor; done|exact E].
Defined.

(** Two searches that leave through the same state run on one orbit. *)
Lemma first_exit_common n n' s s' t :
  state_ok s → state_ok s' → (n <= n')%nat → first_exit n s t → first_exit n' s' t →
  s = Nat.iter (n' - n) step s'.
Proof.
  intros Hs Hs' Hn (-> & _) (E & _). apply (iter_step_inj n); [done|by apply iter_step_ok|].
  rewrite E, <- Nat.iter_add. f_equal. lia.
Qed.

(** Names collide only on one orbit: when two names get the same address, the
    search of one of them starts on a state the search of the other goes
    through. *)
Theorem node_name_collision name name' addr :
  is_bytes name → is_bytes name' → name_addr name addr → name_addr name' addr →
  ∃ n, name_state name = Nat.iter n step (name_state name')
     ∨ name_state name' = Nat.iter n step (name_state name).
Proof.
  intros Hn Hn' (t & He & ->) (t' & He' & E).
  apply loop_exits_first_exit in He as [n He], He' as [n' He'].
  pose proof (name_state_ok name Hn) as Ho. pose proof (name_state_ok name' Hn') as Ho'.
  assert (t = t') as <-.
  { apply state_addr_inj; [| |done]; [destruct He as [-> _]|destruct He' as [-> _]]; by apply iter_step_ok. }
  destruct (decide (n <= n')%nat).
  - exists (n' - n)%nat. left. by eapply first_exit_common.
  - exists (n - n')%nat. right. eapply first_exit_common; [done|done|lia|done|done].
Qed.

(** The loop of [from_node_name] has no bound: it stays for ever on the state
    [(0, 0)], which every round with key 0 maps to itself, and the names that
    get there are exactly those whose state before their last character [c] is
    [(c << 8, 0)]. *)
Theorem node_name_divergence :
  (∀ t, ¬ loop_exits (0, 0) t)
  ∧ (∀ name c, is_bytes name → u8 c →
       name_state (name ++ [c]) = (0, 0)
       ↔ foldl absorb_char (69, wrap 64 (Z.of_nat (length (name ++ [c])))) name = (Z.shiftl c 8, 0)).
Proof.
  assert (H0 : ∀ n, Nat.iter n step (0, 0) = (0, 0)) by (induction n as [|n IH]; simpl; [|rewrite IH]; done).
  assert (Hok0 : state_ok (0, 0)) by by split.
  split.
  - intros t [n (-> & Hexit & _)]%loop_exits_first_exit. by rewrite H0 in Hexit.
  - intros name c Hname Hc. unfold name_state, mix. rewrite foldl_app. cbn [foldl].
    set (s := foldl absorb_char _ name).
    assert (Hs : state_ok s).
    { apply (foldl_invariant state_ok (uint 8)); [|done|].
      - intros. by apply absorb_char_ok.
      - split; [done|]. by apply uint_wrap. }
    assert (Hc64 : u64 c) by by apply (uint_weaken 8).
    unfold absorb_char, mix. rewrite <- Nat.iter_add. rewrite <- (H0 (32 + 32)%nat) at 1.
    assert (Hshift : drnd 0 0 c = (Z.shiftl c 8, 0)).
    { unfold drnd. cbv zeta. rewrite (Z.lxor_0_l c). change (rotate_right 64 (Z.lxor 0 0) 3) with 0.
      unfold wrapping_sub. rewrite Z.sub_0_r, wrap_small by done. f_equal. unfold rotate_left.
      rewrite (shl_byte c 8) by (done || lia). rewrite <- (Z.lor_0_r (Z.shiftl c 8)) at 2. f_equal.
      rewrite Z.shiftr_div_pow2 by done. apply Z.div_small. destruct Hc as [? Hc]. split; [done|].
      eapply Z.lt_le_trans; [exact Hc|]. by apply Z.pow_le_mono_r. }
    split.
    + intros E. apply iter_step_inj in E; [|by apply ernd_u64; destruct Hs|done].
      pose proof (drnd_ernd s.1 s.2 c) as Hinv. rewrite E in Hinv. cbn [fst snd] in Hinv.
      rewrite Hshift in Hinv. destruct s; symmetry; apply Hinv; apply Hs.
    + intros ->. f_equal. pose proof (ernd_drnd 0 0 c) as Hinv. rewrite Hshift in Hinv. by apply Hinv.
Qed.

(** ** Addresses from buffers *)

Lemma ipv4_from_buf_inv buf addr :
  ipv4_from_buf buf = Ret addr → length buf = 4%nat ∧ octets addr = buf.
Proof.
  unfold ipv4_from_buf. case_decide; [|discriminate]. intros [= <-]. split; [done|].
  do 4 (destruct buf as [|? buf]; [done|]). by destruct buf.
Qed.

Lemma ipv6_from_buf_inv buf addr :
  ipv6_from_buf buf = Ret addr → length buf = 16%nat ∧ octets addr = buf.
Proof.
  unfold ipv6_from_buf. case_decide; [|discriminate]. intros [= <-]. split; [done|].
  do 16 (destruct buf as [|? buf]; [done|]). by destruct buf.
Qed.

Lemma ipv4_from_buf_ok buf : length buf = 4%nat → ∃ addr, ipv4_from_buf buf = Ret addr.
Proof. intros. unfold ipv4_from_buf. rewrite decide_True by done. by eexists. Qed.

Lemma ipv6_from_buf_ok buf : length buf = 16%nat → ∃ addr, ipv6_from_buf buf = Ret addr.
Proof. intros. unfold ipv6_from_buf. rewrite decide_True by done. by eexists. Qed.

(** ** The textual form *)

Lemma length_hex2 b : u8 b → length (str_bytes (hex2 b)) = 2%nat.
Proof.
  intros Hb. apply Nat.eqb_eq. revert b Hb.
  apply (forall_bytes (λ b, Nat.eqb (length (str_bytes (hex2 b))) 2)). vm_compute. reflexivity.
Qed.

(** Value of a hexadecimal digit. *)
Definition hex_val (c : Z) : Z := if c <? 58 then c - 48 else c - 87.
Definition hex_vals (l : bytes) : Z := foldl (λ v c, 16 * v + hex_val c) 0 l.

Lemma hex_vals_hex2 b : u8 b → hex_vals (str_bytes (hex2 b)) = b.
Proof.
  intros Hb. apply Z.eqb_eq. revert b Hb.
  apply (forall_bytes (λ b, hex_vals (str_bytes (hex2 b)) =? b)). vm_compute. reflexivity.
Qed.

Lemma hex2_inj x y : u8 x → u8 y → str_bytes (hex2 x) = str_bytes (hex2 y) → x = y.
Proof. intros Hx Hy E. by rewrite <- (hex_vals_hex2 x), E, hex_vals_hex2. Qed.

Lemma hex_pair_inj x y x' y' l l' :
  u8 x → u8 y → u8 x' → u8 y' →
  str_bytes (String.append (hex2 x) (hex2 y)) ++ l = str_bytes (String.append (hex2 x') (hex2 y')) ++ l' →
  x = x' ∧ y = y' ∧ l = l'.
Proof.
  intros. rewrite !str_bytes_app, <- !app_assoc in *.
  repeat match goal with H : _ ++ _ = _ ++ _ |- _ => apply app_inj_1 in H as [? H]; [|by rewrite !length_hex2] end.
  split_and!; [by apply hex2_inj..|done].
Qed.

Lemma join_cons2 sep s t l : join sep (s :: t :: l) = String.append s (String.append sep (join sep (t :: l))).
Proof. done. Qed.

Lemma join_hex_groups_inj l l' :
  length l = length l' → is_bytes l → is_bytes l' → Nat.Even (length l) →
  str_bytes (join ":" (hex_groups l)) = str_bytes (join ":" (hex_groups l')) → l = l'.
Proof.
  intros Hl Hb Hb' [k Hk]. revert l l' Hl Hb Hb' Hk.
  induction k as [|k IH]; intros l l' Hl Hb Hb' Hk E.
  { destruct l, l'; simpl in *; try lia; done. }
  destruct l as [|x [|y l]], l' as [|x' [|y' l']]; cbn [length] in *; try lia.
  apply list.Forall_cons in Hb as [Hx Hb], Hb' as [Hx' Hb'].
  apply list.Forall_cons in Hb as [Hy Hb], Hb' as [Hy' Hb'].
  destruct l as [|u [|v l]], l' as [|u' [|v' l']]; cbn [length] in *; try lia.
  - cbn [hex_groups join] in E. rewrite <- (app_nil_r (str_bytes _)), <- (app_nil_r (str_bytes (String.append (hex2 x') _))) in E.
    apply hex_pair_inj in E as (-> & -> & _); done.
  - cbn [hex_groups] in E. rewrite !join_cons2, 2!(str_bytes_app (String.append _ _)) in E.
    apply hex_pair_inj in E as (-> & -> & E); [|done..]. do 2 f_equal.
    rewrite !(str_bytes_app ":") in E. apply app_inv_head in E.
    apply IH; cbn [length]; try done; lia.
Qed.

(** Value of the decimal digits, by the [parse] of the standard library. *)
Lemma parse_dec_u8 b : u8 b → parse_u8 (str_bytes (dec_u8 b)) = Some b.
Proof.
  intros Hb. apply (bool_decide_unpack _). revert b Hb.
  assert (H : ∀ b, u8 b → bool_decide (parse_u8 (str_bytes (dec_u8 b)) = Some b) = true).
  { apply (forall_bytes (λ b, bool_decide (parse_u8 (str_bytes (dec_u8 b)) = Some b))). vm_compute. reflexivity. }
  intros b Hb. by rewrite H.
Qed.

Lemma dec_u8_no_sep b : u8 b → Forall (λ c, 48 <= c <= 57) (str_bytes (dec_u8 b)).
Proof.
  intros Hb. apply list.Forall_forall. intros c Hc%list_elem_of_In.
  assert (H : forallb (λ c, (48 <=? c) && (c <=? 57)) (str_bytes (dec_u8 b)) = true).
  { revert b Hb Hc. intros b Hb _. revert b Hb.
    apply (forall_bytes (λ b, forallb (λ c, (48 <=? c) && (c <=? 57)) (str_bytes (dec_u8 b)))).
    vm_compute. reflexivity. }
  rewrite forallb_forall in H. specialize (H c Hc). lia.
Qed.

Lemma split_dec_octets l :
  l ≠ [] → is_bytes l →
  split_on 46 (str_bytes (join "." (dec_u8 <$> l))) = (λ b, str_bytes (dec_u8 b)) <$> l.
Proof.
  intros Hl Hb. induction Hb as [|b l Hb Hbs IH]; [done|].
  assert (Hdot : Forall (λ c, c ≠ 46) (str_bytes (dec_u8 b))).
  { eapply list.Forall_impl; [by apply dec_u8_no_sep|]. simpl. lia. }
  destruct l as [|b' l]; [by apply split_on_piece|].
  rewrite !fmap_cons, join_cons2, !str_bytes_app. change (str_bytes ".") with [46]. cbn [app].
  rewrite split_on_app by done. f_equal. by apply IH.
Qed.

Lemma parse_fmt_v4 a b c d :
  is_addr (V4 a b c d) →
  parse_u8 <$> split_on 46 (str_bytes (fmt (V4 a b c d))) = Some <$> [a; b; c; d].
Proof.
  intros Hb. change (fmt (V4 a b c d)) with (join "." (dec_u8 <$> [a; b; c; d])).
  rewrite split_dec_octets by done. rewrite <- list_fmap_compose.
  apply list_fmap_ext. intros i x Hx. apply parse_dec_u8. by eapply Forall_lookup_1.
Qed.

Lemma fmt_v4_no_colon a b c d : is_addr (V4 a b c d) → 58 ∉ str_bytes (fmt (V4 a b c d)).
Proof.
  intros Hb. unfold is_addr, octets in Hb. repeat (apply list.Forall_cons in Hb as [? Hb]).
  change (fmt (V4 a b c d)) with (join "." [dec_u8 a; dec_u8 b; dec_u8 c; dec_u8 d]).
  rewrite !join_cons2. cbn [join]. rewrite !str_bytes_app, !elem_of_app.
  change (str_bytes ".") with [46]. rewrite !list_elem_of_singleton.
  assert (Hno : ∀ x, u8 x → 58 ∉ str_bytes (dec_u8 x)).
  { intros x Hx Hin. eapply list.Forall_forall in Hin; [|by apply dec_u8_no_sep]. simpl in Hin. lia. }
  intros Hin. destruct_or! Hin; try discriminate; by eapply Hno; [|exact Hin].
Qed.

(** The printed form identifies an address: no two valid addresses, of either
    family, are displayed alike. *)
Theorem fmt_inj addr addr' : is_addr addr → is_addr addr' → fmt addr = fmt addr' → addr = addr'.
Proof.
  intros Ha Ha' E%(f_equal str_bytes).
  assert (Hcolon : ∀ a b c d e f g h i j k l m n o p,
    58 ∈ str_bytes (fmt (V6 a b c d e f g h i j k l m n o p))).
  { intros. cbn [fmt octets hex_groups]. rewrite join_cons2, !str_bytes_app, !elem_of_app.
    right; left. by apply list_elem_of_here. }
  assert (Hoct : octets addr = octets addr' → addr = addr').
  { intros H%(f_equal of_octets). by destruct addr, addr'; injection H as ->; subst. }
  destruct addr, addr'.
  - apply (f_equal (λ s, parse_u8 <$> split_on 46 s)) in E. rewrite !parse_fmt_v4 in E by done. by simplify_eq.
  - by destruct (fmt_v4_no_colon a b c d); [|rewrite E].
  - by destruct (fmt_v4_no_colon a0 b0 c0 d0); [|rewrite <- E].
  - apply Hoct. apply join_hex_groups_inj; [done|exact Ha|exact Ha'|by exists 8%nat|exact E].
Qed.

Lemma fmt_inj_witness :
  is_addr (V4 10 42 0 1) ∧ fmt (V4 10 42 0 1) = "10.42.0.1"%string
  ∧ (fmt (V4 10 42 0 1) = fmt (V4 10 42 0 1) → V4 10 42 0 1 = V4 10 42 0 1).
Proof.
  assert (H : is_addr (V4 10 42 0 1)) by (repeat constructor; done).
  split; [exact H|]. split; [reflexivity|]. exact (fmt_inj (V4 10 42 0 1) (V4 10 42 0 1) H H).
Defined.

Lemma node_name_collision_witness :
  ∃ addr, name_addr (str_bytes "P") addr ∧
    ∃ n, name_state (str_bytes "P") = Nat.iter n step (name_state (str_bytes "P"))
       ∨ name_state (str_bytes "P") = Nat.iter n step (name_state (str_bytes "P")).
Proof.
  assert (E : ∃ t, search 1000 (name_state (str_bytes "P")) = Some t) by (eexists; vm_compute; reflexivity).
  destruct E as [t E]. exists (state_addr t).
  assert (Hn : name_addr (str_bytes "P") (state_addr t)).
  { exists t. split; [|done]. apply loop_exits_first_exit. apply search_first_exit in E as (n & _ & He). by exists n. }
  split; [exact Hn|].
  apply (node_name_collision (str_bytes "P") (str_bytes "P") (state_addr t));
    [by repeat constructor|by repeat constructor|exact Hn|exact Hn].
Defined.
