(* ===== verification/SeenPackets.v ===== *)
(** The bounded set of recently seen packets ([rust/src/seen_packets.rs]).

    Packets are remembered by a 64-bit hash. The hash function is
    [rustc_hash::FxHasher], a third-party library: it is the parameter
    [fx_hash] of the section, and nothing is assumed of it. *)
From S2P Require Import Prelude.

(** ** [IdentityHasher] *)

Record IdentityHasher := MkIdentityHasher { value : Z }.
Definition finish (h : IdentityHasher) : Z := value h.
Definition write (h : IdentityHasher) (_bytes : bytes) : outcome IdentityHasher := Panic "unreachable".
Definition write_u64 (h : IdentityHasher) (i : Z) : IdentityHasher := MkIdentityHasher i.
Definition build_hasher : IdentityHasher := MkIdentityHasher 0.

(** ** The set and the queue *)

Record SeenPackets := MkSeenPackets { hashset : gset Z; deque : list Z; capacity : nat }.

Definition new (n : nat) : SeenPackets := MkSeenPackets ∅ [] n.

(** The well-formed states: the set holds the elements of the queue, which are
    distinct and at most [n]. *)
Definition wf (s : SeenPackets) : Prop :=
  hashset s = list_to_set (deque s) ∧ NoDup (deque s) ∧ (length (deque s) <= capacity s)%nat.

(** The last [n] elements of a list. *)
Definition lastn {A} (n : nat) (l : list A) : list A := drop (length l - n) l.

Section seen_packets.
Context (fx_hash : bytes → Z).

Definition add (s : SeenPackets) (packet : bytes) : outcome (bool * SeenPackets) :=
  let hash := fx_hash packet in
  if negb (bool_decide (hash ∈ hashset s)) then
    let hs := {[hash]} ∪ hashset s in
    let dq := deque s ++ [hash] in
    if decide (capacity s < length dq)%nat then
      match dq with
      | [] => Panic "called `Option::unwrap()` on a `None` value"
      | old_hash :: dq => mret (false, MkSeenPackets (hs ∖ {[old_hash]}) dq (capacity s))
      end
    else mret (false, MkSeenPackets hs dq (capacity s))
  else mret (true, s).

Definition contains (s : SeenPackets) (packet : bytes) : bool :=
  bool_decide (fx_hash packet ∈ hashset s).

(** A sequence of calls of [add], and what each returns. *)
Fixpoint add_all (s : SeenPackets) (packets : list bytes) : outcome (list bool * SeenPackets) :=
  match packets with
  | [] => mret ([], s)
  | p :: packets =>
      '(b, s) ← add s p;
      '(bs, s) ← add_all s packets;
      mret (b :: bs, s)
  end.

(** *** The abstract specification

    A window over the hashes that were not found, in order: the [n] most
    recent of them are known. *)
Definition known (n : nat) (admitted : list Z) (h : Z) : bool := bool_decide (h ∈ lastn n admitted).

Fixpoint spec_add_all (n : nat) (admitted : list Z) (packets : list bytes) : list bool * list Z :=
  match packets with
  | [] => ([], admitted)
  | p :: packets =>
      let b := known n admitted (fx_hash p) in
      let '(bs, admitted) :=
        spec_add_all n (if b then admitted else admitted ++ [fx_hash p]) packets in
      (b :: bs, admitted)
  end.

(** ** Lemmas *)

Lemma lastn_all {A} n (l : list A) : (length l <= n)%nat → lastn n l = l.
Proof. intros. unfold lastn. by replace (length l - n)%nat with 0%nat by lia. Qed.

Lemma length_lastn {A} n (l : list A) : length (lastn n l) = Nat.min n (length l).
Proof. unfold lastn. rewrite length_drop. lia. Qed.

Lemma lastn_snoc {A} n (l : list A) x :
  lastn n (l ++ [x]) =
    if decide (n < length (lastn n l ++ [x]))%nat then tail (lastn n l ++ [x]) else lastn n l ++ [x].
Proof.
  rewrite length_app, length_lastn. unfold lastn. rewrite length_app. cbn [length].
  case_decide as Hd.
  - replace (length l + 1 - n)%nat with (S (length l - n)) by lia.
    assert (Hs : ∀ k (m : list A), drop (S k) m = tail (drop k m)).
    { induction k as [|k IH]; intros [|y m]; try done. apply IH. }
    rewrite Hs. destruct (decide (n = 0%nat)) as [->|].
    + rewrite Nat.sub_0_r, drop_app_length, drop_all. done.
    + rewrite drop_app_le by lia. done.
  - replace (length l + 1 - n)%nat with 0%nat by lia. by replace (length l - n)%nat with 0%nat by lia.
Qed.

Lemma seen_new_wf n : wf (new n).
Proof. split_and!; [done|constructor|simpl; lia]. Qed.

(** The simulation step: on a state whose queue is the abstract window, [add]
    returns what the specification says and re-establishes the window. *)
Lemma add_simulates s p admitted :
  wf s → deque s = lastn (capacity s) admitted →
  ∃ s', let b := known (capacity s) admitted (fx_hash p) in
    add s p = Ret (b, s') ∧ wf s' ∧ capacity s' = capacity s ∧
    deque s' = lastn (capacity s) (if b then admitted else admitted ++ [fx_hash p]).
Proof.
  intros (Hset & Hnd & Hlen) Hw. unfold add, known. rewrite Hset, <- Hw.
  destruct (decide (fx_hash p ∈ deque s)) as [Hin|Hin].
  { rewrite !bool_decide_eq_true_2 by (done || by apply elem_of_list_to_set). cbn [negb]. exists s. by split_and!. }
  rewrite !bool_decide_eq_false_2 by (done || by rewrite elem_of_list_to_set). cbn [negb].
  assert (Hnd' : NoDup (deque s ++ [fx_hash p])).
  { apply list.NoDup_app. split_and!; [done| |apply NoDup_singleton].
    intros x Hx ->%list_elem_of_singleton. done. }
  rewrite (lastn_snoc _ _ (fx_hash p)), <- Hw. case_decide as Hd.
  - destruct (deque s ++ [fx_hash p]) as [|old dq] eqn:Edq; [simpl in Hd; lia|].
    apply list.NoDup_cons in Hnd' as [Hold Hnd'].
    eexists. split; [reflexivity|]. unfold wf. simpl. split_and!; try done.
    + apply set_eq. intros x.
      assert (Hmem : x ∈ deque s ++ [fx_hash p] ↔ x ∈ old :: dq) by by rewrite Edq.
      rewrite elem_of_app, list_elem_of_singleton, elem_of_cons in Hmem.
      rewrite elem_of_difference, elem_of_union, !elem_of_singleton, !elem_of_list_to_set.
      destruct (decide (x = old)) as [->|]; tauto.
    + apply (f_equal length) in Edq. rewrite length_app in Edq. simpl in Edq. lia.
  - eexists. split; [reflexivity|]. unfold wf. simpl. split_and!; try (done || lia).
    apply set_eq. intros x.
    rewrite elem_of_union, elem_of_singleton, !elem_of_list_to_set, elem_of_app, list_elem_of_singleton. tauto.
Qed.

Lemma add_all_simulates ps s admitted :
  wf s → deque s = lastn (capacity s) admitted →
  ∃ s', add_all s ps = Ret ((spec_add_all (capacity s) admitted ps).1, s') ∧ wf s' ∧
    capacity s' = capacity s ∧
    deque s' = lastn (capacity s) (spec_add_all (capacity s) admitted ps).2.
Proof.
  revert s admitted. induction ps as [|p ps IH]; intros s admitted Hs Hw; [by exists s|].
  cbn [add_all spec_add_all].
  destruct (add_simulates s p admitted Hs Hw) as (s1 & -> & Hs1 & Hn1 & Hw1).
  destruct (IH s1 _ Hs1 ltac:(rewrite Hn1; exact Hw1)) as (s' & Hall & Hs' & Hn' & Hw').
  rewrite Hn1 in *. exists s'. cbn [mbind outcome_bind]. rewrite Hall.
  by destruct (spec_add_all _ _ ps).
Qed.

(** C36. [SeenPackets] implements the window specification: from the empty state,
    every sequence of [add] calls runs without panic, returns exactly the
    booleans of the specification, keeps the set, the queue and the capacity
    bound consistent, and [contains] answers from the window of the last [n]
    admitted hashes. *)
Theorem seen_packets_refines_window n ps :
  ∃ s', add_all (new n) ps = Ret ((spec_add_all n [] ps).1, s') ∧ wf s' ∧
    deque s' = lastn n (spec_add_all n [] ps).2 ∧
    ∀ p, contains s' p = known n (spec_add_all n [] ps).2 (fx_hash p).
Proof.
  destruct (add_all_simulates ps (new n) [] (seen_new_wf n) eq_refl) as (s' & Hall & Hwf & Hn & Hdq).
  exists s'. split_and!; [done|done|done|]. intros p. unfold contains, known.
  destruct Hwf as (-> & _). rewrite Hdq. apply bool_decide_ext. apply elem_of_list_to_set.
Qed.

Lemma spec_add_all_extends n admitted ps :
  ∃ ext, (spec_add_all n admitted ps).2 = admitted ++ ext ∧ (length ext <= length ps)%nat ∧
    (Forall (λ b, b = false) (spec_add_all n admitted ps).1 → ext = fx_hash <$> ps).
Proof.
  revert admitted; induction ps as [|p ps IH]; intros admitted; cbn [spec_add_all].
  { exists []. split_and!; [by rewrite app_nil_r|done|done]. }
  destruct (known n admitted (fx_hash p)).
  - destruct (IH admitted) as (ext & E & Hl & _). destruct (spec_add_all _ _ ps) as [bs adm].
    exists ext. split_and!; [done|simpl; lia|]. by intros [? _]%list.Forall_cons.
  - destruct (IH (admitted ++ [fx_hash p])) as (ext & E & Hl & Hall).
    destruct (spec_add_all _ _ ps) as [bs adm]. exists (fx_hash p :: ext).
    cbn [fst snd] in *. split_and!; [by rewrite E, <- app_assoc|simpl; lia|].
    intros [_ Hf]%list.Forall_cons. by rewrite fmap_cons, Hall.
Qed.

(** Hash [h] was admitted at most [k] admissions ago. *)
Definition remembers (k : nat) (s : SeenPackets) (h : Z) : Prop :=
  ∃ l1 l2, deque s = l1 ++ h :: l2 ∧ (length l2 <= k)%nat.

Lemma wf_window s : wf s → deque s = lastn (capacity s) (deque s).
Proof. intros (_ & _ & ?). by rewrite lastn_all. Qed.

Lemma add_remembers s p s' :
  wf s → (0 < capacity s)%nat → add s p = Ret (false, s') → remembers 0 s' (fx_hash p).
Proof.
  intros Hwf Hn Hadd.
  destruct (add_simulates s p (deque s) Hwf (wf_window s Hwf)) as (s1 & Ha & _ & _ & Hdq).
  rewrite Hadd in Ha. injection Ha as Hb <-. rewrite <- Hb in Hdq.
  exists (drop (length (deque s) + 1 - capacity s) (deque s)), []. split; [|done].
  rewrite Hdq. unfold lastn. rewrite length_app. cbn [length]. destruct Hwf as (_ & _ & Hlen).
  by rewrite drop_app_le by lia.
Qed.

Lemma remembers_add k s h p b s' :
  wf s → remembers k s h → (S k < capacity s)%nat → add s p = Ret (b, s') → remembers (S k) s' h.
Proof.
  intros Hwf (l1 & l2 & Hdq & Hl) Hk Hadd.
  destruct (add_simulates s p (deque s) Hwf (wf_window s Hwf)) as (s1 & Ha & _ & _ & Hdq').
  rewrite Hadd in Ha. injection Ha as Hb <-. rewrite <- Hb in Hdq'. destruct b.
  - rewrite <- (wf_window s Hwf) in Hdq'. exists l1, l2. split; [congruence|lia].
  - exists (drop (length (deque s ++ [fx_hash p]) - capacity s) l1), (l2 ++ [fx_hash p]).
    split; [|rewrite length_app; cbn [length]; lia]. rewrite Hdq'. unfold lastn.
    rewrite Hdq at 2. rewrite <- app_assoc. cbn [app]. rewrite drop_app_le; [done|].
    apply (f_equal length) in Hdq. rewrite !length_app in *. cbn [length] in *. lia.
Qed.

Lemma remembers_contains k s p : wf s → remembers k s (fx_hash p) → contains s p = true.
Proof.
  intros (Hs & _) (l1 & l2 & Hdq & _). unfold contains. rewrite Hs, Hdq. apply bool_decide_eq_true_2.
  apply elem_of_list_to_set, elem_of_app. right. by apply list_elem_of_here.
Qed.

(** How long a packet is remembered. Once [add] has admitted a packet, it is
    found again after any fewer than [n] further calls (so a packet flooded
    back is recognised), and once [n] or more other packets have been admitted
    after it, it is forgotten: eviction is first in, first out. *)
Theorem seen_packets_retention s p s1 ps bs s2 :
  wf s → add s p = Ret (false, s1) → add_all s1 ps = Ret (bs, s2) →
  ((length ps < capacity s)%nat → contains s2 p = true ∧ add s2 p = Ret (true, s2))
  ∧ ((capacity s <= length ps)%nat → Forall (λ b, b = false) bs → fx_hash p ∉ fx_hash <$> ps →
     contains s2 p = false).
Proof.
  intros Hwf Hadd Hall.
  destruct (add_simulates s p (deque s) Hwf (wf_window s Hwf)) as (s1' & Ha & Hwf1 & Hn1 & Hdq1).
  rewrite Hadd in Ha. injection Ha as Hb <-. rewrite <- Hb in Hdq1.
  destruct (add_all_simulates ps s1 (deque s ++ [fx_hash p]) Hwf1 ltac:(by rewrite Hn1))
    as (s2' & Ha & Hwf2 & Hn2 & Hdq2).
  rewrite Hall in Ha. injection Ha as Hbs <-. rewrite Hn1 in *.
  destruct (spec_add_all_extends (capacity s) (deque s ++ [fx_hash p]) ps) as (ext & E & Hl & Hf).
  rewrite E in Hdq2. rewrite <- Hbs in Hf.
  assert (Hc : contains s2 p = bool_decide (fx_hash p ∈ deque s2)).
  { unfold contains. apply bool_decide_ext. destruct Hwf2 as (-> & _). apply elem_of_list_to_set. }
  pose proof Hwf as (_ & _ & Hlen). unfold lastn in Hdq2. rewrite !length_app in Hdq2. cbn [length] in Hdq2.
  split.
  - intros Hps. assert (contains s2 p = true) as Hin.
    { rewrite Hc, Hdq2. apply bool_decide_eq_true_2.
      rewrite <- app_assoc, drop_app_le by lia. apply elem_of_app. right. by apply list_elem_of_here. }
    split; [done|]. unfold add. unfold contains in Hin. by rewrite Hin.
  - intros Hps Hfalse Hnot. rewrite Hc, Hdq2. apply bool_decide_eq_false_2.
    rewrite (Hf Hfalse) in *. rewrite length_fmap in *.
    rewrite drop_app_ge by (rewrite length_app; simpl; lia).
    intros Hin%(elem_of_submseteq _ (fx_hash <$> ps)); [done|]. apply submseteq_drop.
Qed.
End seen_packets.

(** The capacity-2 cache of the unit tests, with a toy hash. *)
Lemma seen_packets_retention_witness :
  let h := foldr Z.add 0 in
  let s := MkSeenPackets {[1]} [1] 2 in
  let s1 := MkSeenPackets {[1; 2]} [1; 2] 2 in
  ∃ s2, add h s [2] = Ret (false, s1) ∧ add_all h s1 [[3]] = Ret ([false], s2) ∧ contains h s2 [2] = true.
Proof.
  intros h s s1. eexists. split; [vm_compute; reflexivity|]. split; [vm_compute; reflexivity|].
  apply (seen_packets_retention h s [2] s1 [[3]] [false] _).
  - split_and!; [vm_compute; reflexivity|repeat constructor; set_solver|simpl; lia].
  - vm_compute. reflexivity.
  - vm_compute. reflexivity.
  - simpl. lia.
Defined.
