(* ===== verification/Tests.v ===== *)
(** The unit tests of the repository ([rust/src/gimli.rs], [rust/src/raw_speck.rs],
    [rust/src/seen_packets.rs]), run on the model: a check of the definitions
    against what the authors expect of the code. *)
From stdpp Require Import pretty.
From S2P Require Import Prelude Gimli Speck SeenPackets.

(** [assert!]. *)
Definition assert (b : bool) : outcome unit := if b then mret tt else Panic "assertion failed".
Definition assert_eq {A} `{!EqDecision A} (a b : A) : outcome unit := assert (bool_decide (a = b)).

(** [format!("{:02x}", b)]. *)
Definition hex_digit (x : Z) : string :=
  String (Ascii.ascii_of_nat (Z.to_nat (if x <? 10 then 48 + x else 87 + x))) EmptyString.
Definition hex2 (b : Z) : string := hex_digit (b / 16) +:+ hex_digit (b mod 16).

Definition gimli_hash_assert (input : string) (expected_hash : string) : outcome unit :=
  let hash := gimli_hash (str_bytes input) 32 in
  let hash_hex := foldl (λ s b, s +:+ hex2 b) EmptyString hash in
  assert_eq hash_hex expected_hash.

Definition test_gimlihash_1 : outcome unit :=
  gimli_hash_assert "" "b0634b2c0b082aedc5c0a2fe4ee3adcfc989ec05de6f00addb04b3aaac271f67".
Definition test_gimlihash_2 : outcome unit :=
  gimli_hash_assert "There's plenty for the both of us, may the best Dwarf win."
    "4afb3ff784c7ad6943d49cf5da79facfa7c4434e1ce44f5dd4b28f91a84d22c8".

Definition test_ernd_basic : outcome unit := assert_eq (ernd 1 2 3) (72057594037927937, 72057594037927953).
Definition test_drnd_basic : outcome unit := assert_eq (drnd 1 2 3) (672, 6917529027641081856).

(** ** [SeenPackets] *)

(** The lines of a test. *)
Inductive line := Add (packet : bytes) | Contains (packet : bytes) | Misses (packet : bytes).

Section seen.
Context (fx_hash : bytes → Z).

Fixpoint run_lines (lines : list line) (s : SeenPackets) : outcome unit :=
  match lines with
  | [] => mret tt
  | Add p :: lines => '(_, s) ← add fx_hash s p; run_lines lines s
  | Contains p :: lines => _ ← assert (contains fx_hash s p); run_lines lines s
  | Misses p :: lines => _ ← assert (negb (contains fx_hash s p)); run_lines lines s
  end.
Definition run_test (n : nat) (lines : list line) : outcome unit := run_lines lines (new n).
End seen.

Definition test_packet : bytes := str_bytes "test packet".
Definition different_packet : bytes := str_bytes "different packet".
Definition packet (i : nat) : bytes := str_bytes ("packet" +:+ pretty i).

(** Each with the capacity of its [SeenPackets]; [test_edge_cases] has three. *)
Definition test_new_packet_is_not_contained : nat * list line := (5%nat, [Misses test_packet]).
Definition test_add_and_contains : nat * list line :=
  (5%nat, [Misses test_packet; Add test_packet; Contains test_packet; Misses different_packet]).
Definition test_adding_same_packet_multiple_times : nat * list line :=
  (5%nat, [Add test_packet; Contains test_packet; Add test_packet; Contains test_packet]).
Definition test_capacity_limit : nat * list line :=
  (3%nat, [Add (packet 1); Add (packet 2); Add (packet 3); Contains (packet 1); Contains (packet 2); Contains (packet 3);
           Add (packet 4); Misses (packet 1); Contains (packet 2); Contains (packet 3); Contains (packet 4)]).
Definition test_multiple_capacity_limit_exceeding : nat * list line :=
  (2%nat, [Add (packet 1); Add (packet 2); Contains (packet 1); Contains (packet 2);
           Add (packet 3); Misses (packet 1); Contains (packet 2); Contains (packet 3);
           Add (packet 4); Misses (packet 1); Misses (packet 2); Contains (packet 3); Contains (packet 4)]).
Definition test_edge_cases : list (nat * list line) :=
  [(0%nat, [Add (str_bytes "packet"); Misses (str_bytes "packet")]);
   (1%nat, [Add (packet 1); Contains (packet 1); Add (packet 2); Misses (packet 1); Contains (packet 2)]);
   (5%nat, [Add []; Contains []])].
Definition large_capacity (capacity : nat) : list line :=
  ((λ i, Add (packet i)) <$> seq 0 capacity) ++ ((λ i, Contains (packet i)) <$> seq 0 capacity)
  ++ [Add (packet capacity); Misses (packet 0); Contains (packet capacity)].
Definition test_large_capacity : nat * list line := (1000%nat, large_capacity 1000).

Definition small_tests : list (nat * list line) :=
  [test_new_packet_is_not_contained; test_add_and_contains; test_adding_same_packet_multiple_times; test_capacity_limit;
   test_multiple_capacity_limit_exceeding] ++ test_edge_cases.
Definition seen_tests : list (nat * list line) := small_tests ++ [test_large_capacity].

(** The packets of the tests. *)
Definition tested : list bytes := [test_packet; different_packet; str_bytes "packet"; []] ++ (packet <$> seq 0 1001).

(** ** The tests pass *)

Section pass.
Context (fx_hash : bytes → Z).
(** No two packets of the tests have the same hash. *)
Context (no_collision : ∀ p q, p ∈ tested → q ∈ tested → fx_hash p = fx_hash q → p = q).

(** What is remembered, as packets. *)
Definition remembers (s : SeenPackets) (ps : list bytes) : Prop :=
  wf s ∧ deque s = fx_hash <$> ps ∧ ps ⊆ tested.

Lemma tested_hash p ps : p ∈ tested → ps ⊆ tested → fx_hash p ∈ fx_hash <$> ps ↔ p ∈ ps.
Proof.
  intros Hp Hps. split; [|apply list_elem_of_fmap_2]. intros (q & Heq & Hq)%list_elem_of_fmap.
  by rewrite (no_collision p q Hp (Hps q Hq) Heq).
Qed.

Lemma contains_remembers s ps p : remembers s ps → p ∈ tested → contains fx_hash s p = bool_decide (p ∈ ps).
Proof.
  intros ((Hset & _) & Hd & Hps) Hp. unfold contains. apply bool_decide_ext.
  by rewrite Hset, elem_of_list_to_set, Hd, tested_hash.
Qed.

(** What [add] makes of it. *)
Definition after_add (n : nat) (ps : list bytes) (p : bytes) : list bytes :=
  if decide (p ∈ ps) then ps else lastn n (ps ++ [p]).

Lemma add_recalled s ps p :
  remembers s ps → p ∈ tested →
  ∃ b s', add fx_hash s p = Ret (b, s') ∧ capacity s' = capacity s ∧ remembers s' (after_add (capacity s) ps p).
Proof.
  intros (Hwf & Hd & Hps) Hp. pose proof Hwf as (_ & _ & Hlen). rewrite Hd, length_fmap in Hlen.
  assert (Hall : lastn (capacity s) (fx_hash <$> ps) = fx_hash <$> ps) by (apply lastn_all; by rewrite length_fmap).
  destruct (add_simulates fx_hash s p (fx_hash <$> ps) Hwf) as (s' & Ha & Hwf' & Hc & Hd'); [by rewrite Hall|].
  eexists _, s'. split; [exact Ha|]. split; [done|]. unfold known in Hd'. rewrite Hall in Hd'.
  unfold after_add. rewrite (bool_decide_ext _ _ (tested_hash p ps Hp Hps)) in Hd'. destruct (decide (p ∈ ps)) as [Hin|Hin].
  - rewrite bool_decide_eq_true_2 in Hd' by done. split; [done|]. split; [|done]. by rewrite Hd'.
  - rewrite bool_decide_eq_false_2 in Hd' by done. split; [done|]. split.
    + rewrite Hd'. unfold lastn. rewrite fmap_drop, fmap_app, !length_app, length_fmap. done.
    + unfold lastn. intros q Hq.
      assert (Hq' : q ∈ ps ++ [p]) by (rewrite <- (take_drop (length (ps ++ [p]) - capacity s) (ps ++ [p])); apply elem_of_app; by right).
      apply elem_of_app in Hq' as [?| ->%list_elem_of_singleton]; [by apply Hps|done].
Qed.

(** The lines of a test, on the list of packets that are remembered. *)
Definition packet_of (l : line) : bytes := match l with Add p | Contains p | Misses p => p end.
Fixpoint lines_hold (n : nat) (ps : list bytes) (lines : list line) : bool :=
  match lines with
  | [] => true
  | Add p :: lines => lines_hold n (after_add n ps p) lines
  | Contains p :: lines => bool_decide (p ∈ ps) && lines_hold n ps lines
  | Misses p :: lines => negb (bool_decide (p ∈ ps)) && lines_hold n ps lines
  end.

Lemma run_lines_ok lines : ∀ s ps,
  remembers s ps → Forall (λ l, packet_of l ∈ tested) lines → lines_hold (capacity s) ps lines = true →
  run_lines fx_hash lines s = Ret tt.
Proof.
  induction lines as [|l lines IH]; intros s ps Hs Hall Hh; [done|]. apply list.Forall_cons in Hall as [Hp Hall].
  destruct l as [p|p|p]; cbn [run_lines lines_hold packet_of] in *.
  - destruct (add_recalled s ps p Hs Hp) as (b & s' & -> & Hc & Hs'). cbn [mbind outcome_bind].
    apply (IH s' (after_add (capacity s) ps p)); [done|done|by rewrite Hc].
  - apply andb_prop in Hh as [Hin Hh]. rewrite (contains_remembers s ps p Hs Hp), Hin. cbn. by apply (IH s ps).
  - apply andb_prop in Hh as [Hin Hh]. rewrite (contains_remembers s ps p Hs Hp), Hin. cbn. by apply (IH s ps).
Qed.

Lemma run_test_ok n lines :
  Forall (λ l, packet_of l ∈ tested) lines → lines_hold n [] lines = true → run_test fx_hash n lines = Ret tt.
Proof. intros Hall Hh. apply (run_lines_ok lines (new n) []); [|done|done]. split; [apply seen_new_wf|]. split; [done|]. by intros q Hq%elem_of_nil. Qed.
End pass.


Lemma packet_inj i j : packet i = packet j → i = j.
Proof. unfold packet. intros H%str_bytes_inj. injection H as H. by apply (inj pretty). Qed.

Lemma packet_in i (l : list nat) : packet i ∈ packet <$> l ↔ i ∈ l.
Proof.
  split; [|apply list_elem_of_fmap_2]. intros (j & ->%packet_inj & Hj)%list_elem_of_fmap. done.
Qed.

Lemma packet_tested i : (i < 1001)%nat → packet i ∈ tested.
Proof. intros Hi. apply elem_of_app. right. apply packet_in, elem_of_seq. lia. Qed.

(** Fresh packets are appended while there is room; looking for remembered ones
    changes nothing. *)
Lemma add_run n m : ∀ k rest,
  (k + m <= n)%nat →
  lines_hold n (packet <$> seq 0 k) (((λ i, Add (packet i)) <$> seq k m) ++ rest) = lines_hold n (packet <$> seq 0 (k + m)) rest.
Proof.
  induction m as [|m IH]; intros k rest Hk; [by rewrite Nat.add_0_r|]. cbn [seq fmap list_fmap app lines_hold].
  unfold after_add. rewrite decide_False by (rewrite packet_in, elem_of_seq; lia).
  assert (Hs : (packet <$> seq 0 k) ++ [packet k] = packet <$> seq 0 (S k)) by by rewrite seq_S, fmap_app.
  rewrite Hs, lastn_all by (rewrite length_fmap, length_seq; lia). rewrite IH by lia. by rewrite Nat.add_succ_r.
Qed.

Lemma contains_run n ps l : ∀ rest,
  Forall (λ i, packet i ∈ ps) l → lines_hold n ps (((λ i, Contains (packet i)) <$> l) ++ rest) = lines_hold n ps rest.
Proof.
  induction l as [|i l IH]; intros rest Hl; [done|]. apply list.Forall_cons in Hl as [Hi Hl]. cbn [fmap list_fmap app lines_hold].
  rewrite bool_decide_eq_true_2 by done. by apply IH.
Qed.

Lemma large_capacity_holds capacity : (0 < capacity)%nat → lines_hold capacity [] (large_capacity capacity) = true.
Proof.
  unfold large_capacity.
  intros Hc. rewrite (add_run capacity capacity 0) by lia. cbn [Nat.add]. rewrite contains_run.
  2: { apply list.Forall_forall. intros i Hi. by apply packet_in. }
  cbn [lines_hold]. unfold after_add. rewrite decide_False by (rewrite packet_in, elem_of_seq; lia).
  assert (Hs : lastn capacity ((packet <$> seq 0 capacity) ++ [packet capacity]) = packet <$> seq 1 capacity).
  { assert (H1 : (packet <$> seq 0 capacity) ++ [packet capacity] = packet <$> seq 0 (S capacity)) by by rewrite seq_S, fmap_app.
    rewrite H1. unfold lastn. rewrite length_fmap, length_seq. by replace (S capacity - capacity)%nat with 1%nat by lia. }
  rewrite Hs. rewrite bool_decide_eq_false_2 by (rewrite packet_in, elem_of_seq; lia).
  by rewrite bool_decide_eq_true_2 by (rewrite packet_in, elem_of_seq; lia).
Qed.

Lemma literal_tested p : p ∈ [test_packet; different_packet; str_bytes "packet"; []] → p ∈ tested.
Proof. intros Hp. apply elem_of_app. by left. Qed.

Lemma small_tests_hold : Forall (λ t, Forall (λ l, packet_of l ∈ tested) t.2 ∧ lines_hold t.1 [] t.2 = true) small_tests.
Proof.
  unfold small_tests, test_edge_cases. cbn [app]. repeat apply list.Forall_cons_2; [..|apply Forall_nil_2].
  all: split; [|vm_compute; reflexivity].
  all: repeat apply list.Forall_cons_2; try apply Forall_nil_2; cbn [packet_of].
  all: first [apply packet_tested; lia|apply literal_tested; by repeat (first [left|right])].
Qed.

Lemma large_capacity_tested capacity : (capacity <= 1000)%nat → Forall (λ l, packet_of l ∈ tested) (large_capacity capacity).
Proof.
  intros Hc. unfold large_capacity. rewrite !list.Forall_app. split_and!.
  - apply Forall_fmap, list.Forall_forall. intros i Hi%elem_of_seq. apply packet_tested. lia.
  - apply Forall_fmap, list.Forall_forall. intros i Hi%elem_of_seq. apply packet_tested. lia.
  - repeat apply list.Forall_cons_2; [apply packet_tested; lia..|apply Forall_nil_2].
Qed.

Lemma tests_hold : Forall (λ t, Forall (λ l, packet_of l ∈ tested) t.2 ∧ lines_hold t.1 [] t.2 = true) seen_tests.
Proof.
  apply list.Forall_app. split; [apply small_tests_hold|]. apply list.Forall_singleton. split.
  - apply large_capacity_tested. reflexivity.
  - apply large_capacity_holds. apply Nat.ltb_lt. reflexivity.
Qed.

(** The unit tests of the repository pass on the model: the published vectors of
    the Gimli hash, those of the round functions, and, for any hash function
    without a collision among the packets of the tests, the seven tests of
    [SeenPackets], the one with a thousand packets included. *)
Theorem unit_tests_pass fx_hash :
  (∀ p q, p ∈ tested → q ∈ tested → fx_hash p = fx_hash q → p = q) →
  test_gimlihash_1 = Ret tt ∧ test_gimlihash_2 = Ret tt ∧ test_ernd_basic = Ret tt ∧ test_drnd_basic = Ret tt
  ∧ Forall (λ '(n, lines), run_test fx_hash n lines = Ret tt) seen_tests.
Proof.
  intros Hinj. split; [vm_compute; reflexivity|]. split; [vm_compute; reflexivity|].
  split; [vm_compute; reflexivity|]. split; [vm_compute; reflexivity|].
  eapply list.Forall_impl; [exact tests_hold|]. intros [n lines] [H1 H2]. by apply run_test_ok.
Qed.

(** The bytes as a number, each digit one more than the byte, in base 257. *)
Fixpoint code (p : bytes) : Z := match p with [] => 0 | b :: p => (b + 1) + 257 * code p end.

Lemma code_inj p : ∀ q, is_bytes p → is_bytes q → code p = code q → p = q.
Proof.
  assert (Hpos : ∀ p, is_bytes p → 0 <= code p) by (induction 1 as [|b l Hb _ IH]; cbn; [lia|unfold uint in Hb; lia]).
  induction p as [|b p IH]; intros [|b' q] Hp Hq; cbn; [done| | |].
  - apply list.Forall_cons in Hq as [Hb Hq]. specialize (Hpos q Hq). unfold uint in Hb. lia.
  - apply list.Forall_cons in Hp as [Hb Hp]. specialize (Hpos p Hp). unfold uint in Hb. lia.
  - apply list.Forall_cons in Hp as [Hb Hp]. apply list.Forall_cons in Hq as [Hb' Hq]. intros H.
    unfold uint in Hb, Hb'. change (2 ^ 8) with 256 in *.
    assert (b = b' ∧ code p = code q) as [-> Hc] by (pose proof (Hpos p Hp); pose proof (Hpos q Hq); nia). f_equal. by apply IH.
Qed.

Lemma tested_bytes : Forall is_bytes tested.
Proof.
  apply list.Forall_app. split.
  - repeat apply list.Forall_cons_2; try apply Forall_nil_2; apply (bool_decide_unpack _); vm_compute; reflexivity.
  - apply Forall_fmap, list.Forall_true. intros i. apply Forall_fmap, list.Forall_true. intros c. unfold compose. cbn.
    pose proof (Ascii.N_ascii_bounded c). split; [lia|]. change (2 ^ 8) with 256. lia.
Qed.

Lemma unit_tests_pass_witness : ∃ fx_hash, Forall (λ '(n, lines), run_test fx_hash n lines = Ret tt) seen_tests.
Proof.
  exists code. apply (unit_tests_pass code). intros p q Hp Hq. pose proof tested_bytes as Hb. rewrite list.Forall_forall in Hb.
  apply code_inj; by apply Hb.
Defined.
