(* ===== verification/Channel.v ===== *)
(** The unbounded channels the components talk through.

    [futures::channel::mpsc] is a third-party library. What the program uses of
    it is the interface [Mpsc]: a world of type [W] in which the channel of a
    sender [c] holds the values of type [A] sent on it and not yet received,
    and is open while its receiver is alive. [MpscLaws] states the documented
    behaviour of [UnboundedSender::unbounded_send]: a value sent on an open
    channel goes to the end of its queue, sending on a closed one fails and
    changes nothing. A cloned sender is the same [c]. *)
From S2P Require Import Prelude.

Class Mpsc (W C A : Type) := {
  unbounded_send : C → A → W → bool * W;
  queued : W → C → list A;
  is_open : W → C → bool;
}.

Class MpscLaws (W C A : Type) {mpsc : Mpsc W C A} : Prop := {
  send_open (w : W) (c : C) (a : A) :
    is_open w c = true →
    (unbounded_send c a w).1 = true
    ∧ queued (unbounded_send c a w).2 c = queued w c ++ [a]
    ∧ (∀ c', c' ≠ c → queued (unbounded_send c a w).2 c' = queued w c')
    ∧ (∀ c', is_open (unbounded_send c a w).2 c' = is_open w c');
  send_closed (w : W) (c : C) (a : A) :
    is_open w c = false → unbounded_send c a w = (false, w);
}.

(** [unbounded()]: a new channel, open and empty. *)
Class MpscNew (W C A : Type) {mpsc : Mpsc W C A} := {
  unbounded : W → C * W;
}.

Class MpscNewLaws (W C A : Type) {mpsc : Mpsc W C A} {mpsc_new : MpscNew W C A} : Prop := {
  new_open (w : W) : is_open (unbounded w).2 (unbounded w).1 = true;
  new_queued (w : W) : queued (unbounded w).2 (unbounded w).1 = [];
  new_others (w : W) (c : C) :
    c ≠ (unbounded w).1 →
    queued (unbounded w).2 c = queued w c ∧ is_open (unbounded w).2 c = is_open w c;
}.

(** Channels of one type of values and channels of another do not interfere:
    sending on one kind leaves the other kind alone. *)
Class MpscFrame (W C A C' A' : Type) {mpsc : Mpsc W C A} {mpsc' : Mpsc W C' A'} : Prop := {
  frame_queued (w : W) (c : C) (a : A) (c' : C') : queued (unbounded_send c a w).2 c' = queued w c';
  frame_open (w : W) (c : C) (a : A) (c' : C') : is_open (unbounded_send c a w).2 c' = is_open w c';
}.

Class MpscNewFrame (W C A C' A' : Type) {mpsc : Mpsc W C A} {mpsc_new : MpscNew W C A}
    {mpsc' : Mpsc W C' A'} : Prop := {
  new_frame_queued (w : W) (c' : C') : queued (unbounded w).2 c' = queued w c';
  new_frame_open (w : W) (c' : C') : is_open (unbounded w).2 c' = is_open w c';
}.

(** ** Sending, in one equation per observation *)

Section mpsc.
Context {W C A : Type} `{!EqDecision C, mpsc : Mpsc W C A, laws : !MpscLaws W C A}.
Implicit Types (w : W) (c : C) (a : A).

Lemma send_result w c a : (unbounded_send c a w).1 = is_open w c.
Proof.
  destruct (is_open w c) eqn:Ho; [by apply send_open|by rewrite send_closed].
Qed.

Lemma send_is_open w c a c' : is_open (unbounded_send c a w).2 c' = is_open w c'.
Proof.
  destruct (is_open w c) eqn:Ho; [by apply send_open|by rewrite send_closed].
Qed.

Lemma send_queued w c a c' :
  queued (unbounded_send c a w).2 c' =
    queued w c' ++ (if decide (c' = c) then if is_open w c then [a] else [] else []).
Proof.
  destruct (is_open w c) eqn:Ho.
  - destruct (send_open w c a Ho) as (_ & Hc & Hne & _).
    destruct (decide (c' = c)) as [->|]; [done|]. rewrite app_nil_r. by apply Hne.
  - rewrite send_closed by done. destruct (decide (c' = c)); by rewrite app_nil_r.
Qed.
End mpsc.

(** ** A concrete world, for the witnesses

    A store of channels by number, each with its open flag and its queue. *)
Section store.
Context (A : Type).

Definition chan_store : Type := gmap nat (bool * list A).

#[export] Instance store_mpsc : Mpsc chan_store nat A := {
  unbounded_send c a w := match w !! c with
                          | Some (true, q) => (true, <[c := (true, q ++ [a])]> w)
                          | _ => (false, w)
                          end;
  queued w c := match w !! c with Some (_, q) => q | None => [] end;
  is_open w c := match w !! c with Some (b, _) => b | None => false end;
}.

#[export] Instance store_mpsc_laws : MpscLaws chan_store nat A.
Proof.
  split; intros w c a; cbn; destruct (w !! c) as [[[] q]|] eqn:Hc; try done.
  intros _. unfold chan_store in *. cbn. split_and!; [done|by rewrite lookup_insert_eq| |].
  - intros c' Hne. by rewrite lookup_insert_ne.
  - intros c'. destruct (decide (c = c')) as [<-|]; [by rewrite lookup_insert_eq, Hc|by rewrite lookup_insert_ne].
Qed.
End store.

(** [receiver.next()] on the channel [n] when a value is queued: the value, and
    what is left. *)
Definition next_value {A} (n : nat) (s : chan_store A) : option (A * chan_store A) :=
  match s !! n with
  | Some (b, a :: q) => Some (a, <[n := (b, q)]> s)
  | _ => None
  end.

(** The receiver of channel [n] is dropped: what was queued is gone. *)
Definition close_channel {A} (n : nat) (s : chan_store A) : chan_store A := <[n := (false, [])]> s.

Section receive.
Context {A : Type}.
Implicit Types (s : chan_store A).

Lemma next_value_spec n s a s' :
  next_value n s = Some (a, s') →
  queued s n = a :: queued s' n ∧ (∀ m, m ≠ n → queued s' m = queued s m) ∧ ∀ m, is_open s' m = is_open s m.
Proof.
  unfold next_value, queued, is_open, store_mpsc, chan_store in *.
  destruct (s !! n) as [[b [|x q]]|] eqn:E; try done. intros [= -> <-].
  rewrite lookup_insert_eq. split_and!; [done| |]; intros m; [intros Hm|].
  - by rewrite lookup_insert_ne.
  - destruct (decide (n = m)) as [<-|]; [by rewrite E, lookup_insert_eq|by rewrite lookup_insert_ne].
Qed.

Lemma next_value_some n s a q : queued s n = a :: q → ∃ s', next_value n s = Some (a, s').
Proof. unfold next_value. cbn. destruct (s !! n) as [[b l]|]; [intros ->; eauto|done]. Qed.

Lemma close_channel_spec n s :
  queued (close_channel n s) n = [] ∧ is_open (close_channel n s) n = false
  ∧ ∀ m, m ≠ n → queued (close_channel n s) m = queued s m ∧ is_open (close_channel n s) m = is_open s m.
Proof.
  unfold close_channel, queued, is_open, store_mpsc, chan_store in *. rewrite lookup_insert_eq.
  split_and!; [done|done|]. intros m Hm. by rewrite lookup_insert_ne.
Qed.
End receive.

(** Several stores side by side in one world: [get] and [set] reach the store of
    one kind of channel, whose senders are named by [idx]. *)
Section component.
Context {W C A : Type} (idx : C → nat) (name : nat → C) (get : W → chan_store A) (set : chan_store A → W → W).

Definition component_mpsc : Mpsc W C A := {|
  unbounded_send c a w := let '(ok, s) := unbounded_send (idx c) a (get w) in (ok, set s w);
  queued w c := queued (get w) (idx c);
  is_open w c := is_open (get w) (idx c);
|}.

Lemma component_laws :
  (∀ c c', idx c = idx c' → c = c') → (∀ s w, get (set s w) = s) → (∀ w, set (get w) w = w) →
  MpscLaws W C A (mpsc := component_mpsc).
Proof.
  intros Hinj Hgs Hsg. split; intros w c a; cbn; destruct (get w !! idx c) as [[[] q]|] eqn:Hc; cbn;
    try done; rewrite ?Hsg; try done.
  intros _. unfold chan_store in *. rewrite Hgs. split_and!; [done|by rewrite lookup_insert_eq| |].
  - intros c' Hne. rewrite lookup_insert_ne; [done|]. intros E. by apply Hne, Hinj.
  - intros c'. destruct (decide (idx c = idx c')) as [E|]; [|by rewrite lookup_insert_ne].
    by rewrite <- E, lookup_insert_eq, Hc.
Qed.

Definition component_new : MpscNew W C A (mpsc := component_mpsc) := {|
  unbounded w := let n := fresh (dom (get w)) in (name n, set (<[n := (true, [])]> (get w)) w);
|}.

Lemma component_new_laws :
  (∀ n, idx (name n) = n) → (∀ c c', idx c = idx c' → c = c') → (∀ s w, get (set s w) = s) →
  MpscNewLaws W C A (mpsc := component_mpsc) (mpsc_new := component_new).
Proof.
  intros Hidx Hinj Hgs.
  assert (Hnew : ∀ (s : chan_store A) (n : nat), (<[n := (true, [])]> s : chan_store A) !! n = Some (true, []))
    by (intros; apply (lookup_insert_eq (M := gmap nat))).
  split; cbn -[fresh]; intros w; [by rewrite Hgs, Hidx, Hnew..|].
  intros c Hne. rewrite Hgs. assert (fresh (dom (get w)) ≠ idx c).
  { intros E. apply Hne, Hinj. by rewrite Hidx. }
  assert (Hold : ∀ v, (<[fresh (dom (get w)) := v]> (get w) : chan_store A) !! idx c = get w !! idx c)
    by (intros; by apply (lookup_insert_ne (M := gmap nat))).
  by rewrite Hold.
Qed.
End component.
