(* ===== verification/AllSenders.v ===== *)
(** The switchboard of the node ([rust/src/all_senders.rs]): the task that owns
    the links and the routing table, and the messages it serves.

    [C] is the type of [UnboundedSender<Bytes>]; the task's effects are the
    values it sends, on a world of channels ([Channel]). *)
From S2P Require Import Prelude IpAddr Channel.

Section all_senders.
Context {C : Type} `{!EqDecision C}.

Inductive AllSendersMessage :=
| AddSender (sender : C)
| AddFastestTo (millis : Z) (addr : IpAddr) (sender : C)
| SendToFastest (addr : IpAddr) (data : bytes)
| SendToAll (data : bytes)
| CleanBrokenSenders.

(** The local variables of [all_senders_task]. *)
Record TaskState := MkTaskState {
  senders : list C;
  fastest_to_address : gmap IpAddr (Z * C);
}.

Definition initial : TaskState := MkTaskState [] ∅.

Context {W : Type} `{mpsc : Mpsc W C bytes}.

(** [for sender in senders.iter() { _ = sender.unbounded_send(data.clone()) }]. *)
Definition send_each (ss : list C) (data : bytes) (w : W) : W :=
  foldl (λ w s, (unbounded_send s data w).2) w ss.

(** [senders.retain(..)]: probes every sender with an empty value and keeps
    those that accept it; also counts the others. *)
Fixpoint retain_open (ss : list C) (num_cleaned : nat) (w : W) : list C * nat * W :=
  match ss with
  | [] => ([], num_cleaned, w)
  | x :: ss =>
      let '(ok, w) := unbounded_send x [] w in
      if ok then
        let '(ss, num_cleaned, w) := retain_open ss num_cleaned w in (x :: ss, num_cleaned, w)
      else retain_open ss (S num_cleaned) w
  end.

(** One iteration of the [while let] loop of [all_senders_task]. *)
Definition handle (st : TaskState) (w : W) (msg : AllSendersMessage) : TaskState * W :=
  match msg with
  | AddSender sender =>
      (MkTaskState (senders st ++ [sender]) (fastest_to_address st), w)
  | AddFastestTo millis addr sender =>
      match fastest_to_address st !! addr with
      | Some (millis_old, _) =>
          if millis <=? millis_old then (st, w)
          else (MkTaskState (senders st) (<[addr := (millis, sender)]> (fastest_to_address st)), w)
      | None => (MkTaskState (senders st) (<[addr := (millis, sender)]> (fastest_to_address st)), w)
      end
  | SendToFastest addr data =>
      match fastest_to_address st !! addr with
      | Some (_, sender) => (st, (unbounded_send sender data w).2)
      | None => (st, w)
      end
  | SendToAll data => (st, send_each (senders st) data w)
  | CleanBrokenSenders =>
      let '(ss, num_cleaned, w) := retain_open (senders st) 0 w in
      (MkTaskState ss (fastest_to_address st), w)
  end.

(** [all_senders_task] on the messages received so far. *)
Definition all_senders_task (st : TaskState) (w : W) (msgs : list AllSendersMessage) : TaskState * W :=
  foldl (λ '(st, w) msg, handle st w msg) (st, w) msgs.
End all_senders.

Arguments AllSendersMessage : clear implicits.
Arguments TaskState : clear implicits.

(** ** The handle the other tasks use

    [ALLSENDERS] is the sending end of the task's own queue; the methods ignore
    the result of the send. *)
Section handle.
Context {C W S : Type} `{mpsc : Mpsc W S (AllSendersMessage C)}.

Record AllSenders := MkAllSenders { sender : S }.

Definition add (self : AllSenders) (s : C) (w : W) : W :=
  (unbounded_send (sender self) (AddSender s) w).2.
Definition add_fastest_to (self : AllSenders) (millis : Z) (addr : IpAddr) (s : C) (w : W) : W :=
  (unbounded_send (sender self) (AddFastestTo millis addr s) w).2.
Definition send_to_fastest (self : AllSenders) (addr : IpAddr) (data : bytes) (w : W) : W :=
  (unbounded_send (sender self) (SendToFastest addr data : AllSendersMessage C) w).2.
Definition clean_broken_senders (self : AllSenders) (w : W) : W :=
  (unbounded_send (sender self) (CleanBrokenSenders : AllSendersMessage C) w).2.
Definition send_all (self : AllSenders) (data : bytes) (w : W) : W :=
  (unbounded_send (sender self) (SendToAll data : AllSendersMessage C) w).2.
End handle.
Arguments AllSenders : clear implicits.

(** ** What the task promises *)

Section spec.
Context {C : Type} `{!EqDecision C}.

(** How many times a sender is registered. *)
Definition registrations (c : C) (ss : list C) : nat := length (filter (c =.) ss).

(** The announcements of [addr] among the messages, in order of arrival. *)
Definition announcements (addr : IpAddr) (msgs : list (AllSendersMessage C)) : list (Z * C) :=
  omap (λ msg, match msg with
               | AddFastestTo millis a s => if decide (a = addr) then Some (millis, s) else None
               | _ => None
               end) msgs.

(** [r] is the newest announcement, and the first to arrive of those as new. *)
Definition newest_first (anns : list (Z * C)) (r : Z * C) : Prop :=
  ∃ before after, anns = before ++ r :: after
    ∧ Forall (λ x, x.1 < r.1) before ∧ Forall (λ x, x.1 <= r.1) after.

(** What a message puts at the end of the queue of [c]. *)
Definition delivered {W} `{mpsc : Mpsc W C bytes}
    (st : TaskState C) (w : W) (msg : AllSendersMessage C) (c : C) : list bytes :=
  if is_open w c then
    match msg with
    | SendToFastest addr data =>
        match fastest_to_address st !! addr with
        | Some (_, s) => if decide (c = s) then [data] else []
        | None => []
        end
    | SendToAll data => replicate (registrations c (senders st)) data
    | CleanBrokenSenders => replicate (registrations c (senders st)) []
    | _ => []
    end
  else [].

(** The routing table alone, one announcement at a time. *)
Definition pick (old : option (Z * C)) (ann : Z * C) : option (Z * C) :=
  match old with
  | Some (millis_old, _) => if ann.1 <=? millis_old then old else Some ann
  | None => Some ann
  end.

Lemma pick_newest_first anns r : foldl pick None anns = Some r ↔ newest_first anns r.
Proof.
  revert r. induction anns as [|x anns IH] using rev_ind; intros r.
  { split; [done|]. by intros (before & after & ?%app_cons_not_nil & _). }
  rewrite foldl_app. cbn [foldl]. split.
  - intros Hp. destruct (foldl pick None anns) as [[m s]|] eqn:E; unfold pick in Hp.
    + destruct (proj1 (IH _) eq_refl) as (before & after & -> & Hb & Ha).
      destruct (Z.leb_spec x.1 m) as [Hle|Hgt]; simplify_eq.
      * exists before, (after ++ [x]). split_and!; [by rewrite <- app_assoc|done|].
        apply list.Forall_app. split; [done|]. by constructor.
      * exists (before ++ (m, s) :: after), []. split_and!; [done| |constructor].
        simpl in *. apply list.Forall_app. split; [eapply list.Forall_impl; [done|simpl; lia]|].
        constructor; [done|]. eapply list.Forall_impl; [done|simpl; lia].
    + simplify_eq. destruct anns as [|y anns _] using rev_ind.
      * exists [], []. by split_and!.
      * rewrite foldl_app in E. cbn [foldl] in E. destruct (foldl pick None anns) as [[m s]|]; cbn in E; [|done].
        by destruct (y.1 <=? m).
  - intros (before & after & E & Hb & Ha). destruct after as [|y after _] using rev_ind.
    + apply app_inj_tail in E as [-> ->]. destruct (foldl pick None before) as [[m s]|] eqn:Ef; [|done].
      destruct (proj1 (IH _) eq_refl) as (b & a & -> & _ & _).
      apply list.Forall_app in Hb as [_ [Hm _]%list.Forall_cons]. simpl in Hm. unfold pick.
      destruct (Z.leb_spec r.1 m); [lia|done].
    + rewrite app_comm_cons, app_assoc in E. apply app_inj_tail in E as [-> ->].
      apply list.Forall_app in Ha as [Ha [Hy _]%list.Forall_cons].
      rewrite (proj2 (IH r)) by (by exists before, after). destruct r as [m s]. unfold pick.
      simpl in Hy. destruct (Z.leb_spec y.1 m); [done|lia].
Qed.

Context {W : Type} `{mpsc : Mpsc W C bytes, laws : !MpscLaws W C bytes}.

Lemma handle_routes (st : TaskState C) (w : W) msg addr :
  fastest_to_address (handle st w msg).1 !! addr
    = foldl pick (fastest_to_address st !! addr) (announcements addr [msg]).
Proof.
  destruct msg as [s|m a s|a d|d|]; cbn.
  - done.
  - destruct (decide (a = addr)) as [->|Hne]; cbn.
    + destruct (fastest_to_address st !! addr) as [[m0 s0]|] eqn:E; cbn; [|by rewrite lookup_insert_eq].
      destruct (m <=? m0); cbn; [done|by rewrite lookup_insert_eq].
    + destruct (fastest_to_address st !! a) as [[m0 s0]|]; [destruct (m <=? m0)|]; cbn;
        by rewrite ?lookup_insert_ne.
  - by destruct (fastest_to_address st !! a) as [[m0 s0]|].
  - done.
  - by destruct (retain_open _ _ _) as [[ss n] w'].
Qed.

Lemma task_routes msgs (st : TaskState C) (w : W) addr :
  fastest_to_address (all_senders_task st w msgs).1 !! addr
    = foldl pick (fastest_to_address st !! addr) (announcements addr msgs).
Proof.
  revert st w. induction msgs as [|msg msgs IH]; intros st w; [done|].
  change (all_senders_task st w (msg :: msgs)) with
    (foldl (λ '(st, w) msg, handle st w msg) (handle st w msg) msgs).
  destruct (handle st w msg) as [st' w'] eqn:E.
  change (foldl _ (st', w') msgs) with (all_senders_task st' w' msgs).
  rewrite IH. change st' with ((st', w').1). rewrite <- E, handle_routes, <- foldl_app. f_equal.
  unfold announcements. cbn. by destruct (match msg with AddFastestTo _ _ _ => _ | _ => _ end).
Qed.

(** C9. The routing rule. Whatever the task receives, its route to an address is
    the link of the newest announcement of that address and, among equally
    new ones, of the first that arrived; there is no route exactly when there
    was no announcement. *)
Theorem routes_newest_first (w : W) (msgs : list (AllSendersMessage C)) addr :
  let routes := fastest_to_address (all_senders_task initial w msgs).1 in
  (∀ r, routes !! addr = Some r ↔ newest_first (announcements addr msgs) r)
  ∧ (routes !! addr = None ↔ announcements addr msgs = []).
Proof.
  cbn zeta. rewrite task_routes. unfold initial. cbn [fastest_to_address]. rewrite lookup_empty.
  split; [intros r; apply pick_newest_first|].
  split; [|by intros ->]. intros Hn. destruct (announcements addr msgs) as [|x anns _] using rev_ind; [done|].
  rewrite foldl_app in Hn. cbn [foldl] in Hn. destruct (foldl pick None anns) as [[m s]|]; cbn in Hn; [|done].
  by destruct (x.1 <=? m).
Qed.

Lemma send_each_spec ss data (w : W) c :
  queued (send_each ss data w) c =
    queued w c ++ (if is_open w c then replicate (registrations c ss) data else [])
  ∧ is_open (send_each ss data w) c = is_open w c.
Proof.
  unfold registrations. revert w. induction ss as [|s ss IH]; intros w; cbn [send_each foldl].
  { rewrite filter_nil. cbn. destruct (is_open w c); by rewrite app_nil_r. }
  change (foldl _ _ ss) with (send_each ss data (unbounded_send s data w).2).
  destruct (IH (unbounded_send s data w).2) as [-> ->].
  rewrite send_queued, send_is_open, filter_cons, <- app_assoc. split; [|done]. f_equal.
  destruct (decide (c = s)) as [->|]; [|by destruct (is_open w c)].
  by destruct (is_open w s).
Qed.

Lemma retain_open_spec ss n (w : W) ss' n' w' :
  retain_open ss n w = (ss', n', w') →
  ss' = filter (λ s, is_open w s = true) ss
  ∧ (n' + length ss' = n + length ss)%nat
  ∧ ∀ c, queued w' c = queued w c ++ (if is_open w c then replicate (registrations c ss) [] else [])
       ∧ is_open w' c = is_open w c.
Proof.
  unfold registrations. revert n w ss' n' w'. induction ss as [|s ss IH]; intros n w ss' n' w'; cbn [retain_open].
  { intros [= <- <- <-]. split_and!; [done|done|]. intros c. rewrite filter_nil. cbn.
    destruct (is_open w c); by rewrite app_nil_r. }
  destruct (unbounded_send s [] w) as [ok w1] eqn:Es.
  assert (Hok : ok = is_open w s) by (rewrite <- (send_result w s []), Es; done).
  assert (H1 : w1 = (unbounded_send s [] w).2) by by rewrite Es.
  assert (Hstep : ∀ w2 (P : list C), (∀ c, queued w2 c = queued w1 c ++
      (if is_open w1 c then replicate (length (filter (c =.) ss)) [] else []) ∧ is_open w2 c = is_open w1 c) →
    ∀ c, queued w2 c = queued w c ++ (if is_open w c then replicate (length (filter (c =.) (s :: ss))) [] else [])
       ∧ is_open w2 c = is_open w c).
  { intros w2 _ H2 c. destruct (H2 c) as [-> ->]. subst w1. rewrite send_queued, send_is_open, filter_cons, <- app_assoc.
    split; [|done]. f_equal. destruct (decide (c = s)) as [->|]; [|by destruct (is_open w c)].
    by destruct (is_open w s). }
  assert (Hfilter : ∀ ss : list C, filter (λ s, is_open w1 s = true) ss = filter (λ s, is_open w s = true) ss).
  { intros l. apply list_filter_iff. intros x. subst w1. by rewrite send_is_open. }
  rewrite filter_cons. subst ok. destruct (is_open w s) eqn:Ho.
  - destruct (retain_open ss n w1) as [[ss1 n1] w2] eqn:Er. intros [= <- <- <-].
    apply IH in Er as (-> & Hn & Hq). rewrite Hfilter in *.
    split_and!; [by rewrite decide_True|simpl; lia|by apply Hstep].
  - intros Er. apply IH in Er as (-> & Hn & Hq). rewrite Hfilter in *.
    split_and!; [by rewrite decide_False|simpl; lia|by apply Hstep].
Qed.

(** What a message does, in one lemma; the theorem below is about it. *)
Lemma handle_spec (st : TaskState C) (w : W) msg :
  (∀ c, queued (handle st w msg).2 c = queued w c ++ delivered st w msg c
      ∧ is_open (handle st w msg).2 c = is_open w c)
  ∧ senders (handle st w msg).1 = match msg with
                                  | AddSender s => senders st ++ [s]
                                  | CleanBrokenSenders => filter (λ s, is_open w s = true) (senders st)
                                  | _ => senders st
                                  end.
Proof.
  assert (Hnone : ∀ c, queued w c = queued w c ++ (if is_open w c then [] else []) ∧ is_open w c = is_open w c).
  { intros c. by destruct (is_open w c); rewrite app_nil_r. }
  unfold delivered. destruct msg as [s|m a s|a d|d|]; cbn [handle].
  - split; [exact Hnone|done].
  - by destruct (fastest_to_address st !! a) as [[m0 s0]|]; [destruct (m <=? m0)|].
  - destruct (fastest_to_address st !! a) as [[m0 s]|]; cbn; [|by split].
    split; [|done]. intros c. rewrite send_queued, send_is_open. split; [|done].
    by destruct (decide (c = s)) as [->|]; destruct (is_open w _).
  - split; [|done]. apply send_each_spec.
  - destruct (retain_open (senders st) 0 w) as [[ss n] w'] eqn:Er. apply retain_open_spec in Er as (-> & _ & Hq).
    split; [exact Hq|done].
Qed.

(** C23. What each message does, on every branch: the queue of every channel gets
    exactly the values of [delivered] (a routed packet goes to the one link of
    the route, a broadcast once to every open registration, the cleaner one
    empty value per open registration), no channel is opened or closed, and
    the list of links loses exactly the closed ones and only to the cleaner. *)
Theorem handle_delivery (st : TaskState C) (w : W) msg :
  (∀ c, queued (handle st w msg).2 c = queued w c ++ delivered st w msg c
      ∧ is_open (handle st w msg).2 c = is_open w c)
  ∧ senders (handle st w msg).1 = match msg with
                                  | AddSender s => senders st ++ [s]
                                  | CleanBrokenSenders => filter (λ s, is_open w s = true) (senders st)
                                  | _ => senders st
                                  end.
Proof. apply handle_spec. Qed.

Lemma handle_open (st : TaskState C) (w : W) msg c : is_open (handle st w msg).2 c = is_open w c.
Proof.
  destruct msg as [s|m a s|a d|d|]; cbn [handle]; [done| | |apply send_each_spec|].
  - by destruct (fastest_to_address st !! a) as [[m0 s0]|]; [destruct (m <=? m0)|].
  - destruct (fastest_to_address st !! a) as [[m0 s]|]; [apply send_is_open|done].
  - destruct (retain_open (senders st) 0 w) as [[ss n] w'] eqn:Er. apply retain_open_spec in Er as (_ & _ & Hq).
    apply Hq.
Qed.

Lemma task_open msgs (st : TaskState C) (w : W) c : is_open (all_senders_task st w msgs).2 c = is_open w c.
Proof.
  unfold all_senders_task. revert st w. induction msgs as [|msg msgs IH]; intros st w; [done|].
  cbn [foldl]. pose proof (handle_open st w msg c) as Ho.
  destruct (handle st w msg) as [st' w']. rewrite IH. exact Ho.
Qed.

Lemma pick_keeps r anns :
  Forall (λ x, x.1 <= r.1) anns → foldl pick (Some r) anns = Some r.
Proof.
  destruct r as [m s]. induction 1 as [|x anns Hx _ IH]; [done|]. cbn. simpl in Hx.
  destruct (Z.leb_spec x.1 m); [exact IH|lia].
Qed.

(** Routes outlive their links: the cleaner never touches the routing table,
    so once the link of a route is closed, packets for that address are
    silently dropped, whatever the task is asked to do in between, until a
    strictly newer announcement arrives. *)
Theorem stale_route_drops (st : TaskState C) (w : W) (msgs : list (AllSendersMessage C)) addr millis s data :
  fastest_to_address st !! addr = Some (millis, s) →
  is_open w s = false →
  Forall (λ ann, ann.1 <= millis) (announcements addr msgs) →
  let st' := (all_senders_task st w msgs).1 in
  let w' := (all_senders_task st w msgs).2 in
  handle st' w' (SendToFastest addr data) = (st', w').
Proof.
  intros Hr Hc Hanns. cbn zeta. pose proof (task_routes msgs st w addr) as Hroute.
  pose proof (task_open msgs st w s) as Hopen. destruct (all_senders_task st w msgs) as [st' w'].
  cbn [fst snd] in *. rewrite Hr, pick_keeps in Hroute by done.
  cbn [handle]. rewrite Hroute, send_closed by by rewrite Hopen. done.
Qed.
End spec.

(** A broadcast to an open link registered twice and a closed one. *)
Lemma handle_delivery_witness :
  let w : chan_store bytes := {[0%nat := (true, []); 1%nat := (false, [])]} in
  let st := MkTaskState [0%nat; 1%nat; 0%nat] ∅ in
  delivered st w (SendToAll [7]) 0%nat = [[7]; [7]]
  ∧ queued (handle st w (SendToAll [7])).2 0%nat = queued w 0%nat ++ delivered st w (SendToAll [7]) 0%nat.
Proof.
  intros w st. split; [vm_compute; reflexivity|].
  apply (handle_delivery st w (SendToAll [7])).
Defined.

(** Link 0 is closed and holds the route; the cleaner runs and an announcement
    as old arrives on link 1. *)
Lemma stale_route_drops_witness :
  let w : chan_store bytes := {[0%nat := (false, []); 1%nat := (true, [])]} in
  let st := MkTaskState [0%nat; 1%nat] {[V4 10 0 0 1 := (5, 0%nat)]} in
  let msgs := [CleanBrokenSenders; AddFastestTo 5 (V4 10 0 0 1) 1%nat] in
  let st' := (all_senders_task st w msgs).1 in
  let w' := (all_senders_task st w msgs).2 in
  senders st' = [1%nat] ∧ queued w' 1%nat = [[]]
  ∧ handle st' w' (SendToFastest (V4 10 0 0 1) [69]) = (st', w').
Proof.
  intros w st msgs st' w'. split; [vm_compute; reflexivity|]. split; [vm_compute; reflexivity|].
  apply (stale_route_drops st w msgs (V4 10 0 0 1) 5 0%nat [69]);
    [vm_compute; reflexivity|vm_compute; reflexivity|].
  vm_compute. constructor; [discriminate|constructor].
Defined.
