(* ===== verification/World.v ===== *)
(** A concrete world of channels: the four kinds of channel the node uses, each
    in a store of its own. It instantiates the interfaces of [Channel], so that
    theorems about the node can be evaluated on examples. *)
From S2P Require Import Prelude IpAddr Channel AllSenders.

(** [UnboundedSender<Bytes>]: the links and the TUN interface. *)
Inductive byte_tx := Tx (n : nat).
(** The node's own queue, the switchboard's queue and the queue of the route
    creator. *)
Inductive incoming_tx := Incoming (n : nat).
Inductive switch_tx := Switch (n : nat).
Inductive route_tx := Route (n : nat).

#[export] Instance byte_tx_eq_dec : EqDecision byte_tx.
Proof. solve_decision. Defined.
#[export] Instance incoming_tx_eq_dec : EqDecision incoming_tx.
Proof. solve_decision. Defined.
#[export] Instance switch_tx_eq_dec : EqDecision switch_tx.
Proof. solve_decision. Defined.
#[export] Instance route_tx_eq_dec : EqDecision route_tx.
Proof. solve_decision. Defined.

Record world := MkWorld {
  links : chan_store bytes;
  incomings : chan_store (bytes * byte_tx);
  switches : chan_store (AllSendersMessage byte_tx);
  routes : chan_store IpAddr;
}.

#[export] Instance links_mpsc : Mpsc world byte_tx bytes :=
  component_mpsc (λ '(Tx n), n) links (λ s w, MkWorld s (incomings w) (switches w) (routes w)).
#[export] Instance incomings_mpsc : Mpsc world incoming_tx (bytes * byte_tx) :=
  component_mpsc (λ '(Incoming n), n) incomings (λ s w, MkWorld (links w) s (switches w) (routes w)).
#[export] Instance switches_mpsc : Mpsc world switch_tx (AllSendersMessage byte_tx) :=
  component_mpsc (λ '(Switch n), n) switches (λ s w, MkWorld (links w) (incomings w) s (routes w)).
#[export] Instance routes_mpsc : Mpsc world route_tx IpAddr :=
  component_mpsc (λ '(Route n), n) routes (λ s w, MkWorld (links w) (incomings w) (switches w) s).
#[export] Instance links_new : MpscNew world byte_tx bytes :=
  component_new (λ '(Tx n), n) Tx links (λ s w, MkWorld s (incomings w) (switches w) (routes w)).

Ltac solve_component :=
  apply component_laws; [intros [] [] E; by rewrite E|done|by intros []].

#[export] Instance links_laws : MpscLaws world byte_tx bytes.
Proof. solve_component. Qed.
#[export] Instance incomings_laws : MpscLaws world incoming_tx (bytes * byte_tx).
Proof. solve_component. Qed.
#[export] Instance switches_laws : MpscLaws world switch_tx (AllSendersMessage byte_tx).
Proof. solve_component. Qed.
#[export] Instance routes_laws : MpscLaws world route_tx IpAddr.
Proof. solve_component. Qed.
#[export] Instance links_new_laws : MpscNewLaws world byte_tx bytes.
Proof. apply component_new_laws; [done|intros [] [] E; by rewrite E|done]. Qed.

(** Two kinds of channel never share a store. *)
Ltac solve_frame := split; intros w [c] a [c']; cbn; by destruct (_ !! c) as [[[] q]|].
Ltac solve_new_frame := split; intros w [c']; reflexivity.

#[export] Instance switches_incomings_frame :
  MpscFrame world switch_tx (AllSendersMessage byte_tx) incoming_tx (bytes * byte_tx).
Proof. solve_frame. Qed.
#[export] Instance incomings_switches_frame :
  MpscFrame world incoming_tx (bytes * byte_tx) switch_tx (AllSendersMessage byte_tx).
Proof. solve_frame. Qed.
#[export] Instance switches_links_frame :
  MpscFrame world switch_tx (AllSendersMessage byte_tx) byte_tx bytes.
Proof. solve_frame. Qed.
#[export] Instance switches_routes_frame :
  MpscFrame world switch_tx (AllSendersMessage byte_tx) route_tx IpAddr.
Proof. solve_frame. Qed.
#[export] Instance routes_switches_frame :
  MpscFrame world route_tx IpAddr switch_tx (AllSendersMessage byte_tx).
Proof. solve_frame. Qed.
#[export] Instance routes_links_frame : MpscFrame world route_tx IpAddr byte_tx bytes.
Proof. solve_frame. Qed.
#[export] Instance links_switches_frame :
  MpscFrame world byte_tx bytes switch_tx (AllSendersMessage byte_tx).
Proof. solve_frame. Qed.
#[export] Instance links_routes_frame : MpscFrame world byte_tx bytes route_tx IpAddr.
Proof. solve_frame. Qed.
#[export] Instance links_new_incomings_frame :
  MpscNewFrame world byte_tx bytes incoming_tx (bytes * byte_tx).
Proof. solve_new_frame. Qed.
#[export] Instance links_new_switches_frame :
  MpscNewFrame world byte_tx bytes switch_tx (AllSendersMessage byte_tx).
Proof. solve_new_frame. Qed.

(** ** The receiving ends *)

Definition next_link (n : nat) (w : world) : option (bytes * world) :=
  '(a, s) ← next_value n (links w); Some (a, MkWorld s (incomings w) (switches w) (routes w)).
Definition next_incoming (n : nat) (w : world) : option (bytes * byte_tx * world) :=
  '(a, s) ← next_value n (incomings w); Some (a, MkWorld (links w) s (switches w) (routes w)).
Definition next_switch (n : nat) (w : world) : option (AllSendersMessage byte_tx * world) :=
  '(a, s) ← next_value n (switches w); Some (a, MkWorld (links w) (incomings w) s (routes w)).
Definition next_route (n : nat) (w : world) : option (IpAddr * world) :=
  '(a, s) ← next_value n (routes w); Some (a, MkWorld (links w) (incomings w) (switches w) s).
Definition close_link (n : nat) (w : world) : world :=
  MkWorld (close_channel n (links w)) (incomings w) (switches w) (routes w).

(** Sending on one kind of channel leaves the others as they are. *)
Lemma send_link_frame (c : byte_tx) (a : bytes) w :
  let w' := (unbounded_send c a w).2 in incomings w' = incomings w ∧ switches w' = switches w ∧ routes w' = routes w.
Proof. destruct c as [n]. cbn. destruct (links w !! n) as [[[] q]|]; done. Qed.

Lemma send_switch_frame (c : switch_tx) (a : AllSendersMessage byte_tx) w :
  let w' := (unbounded_send c a w).2 in links w' = links w ∧ incomings w' = incomings w ∧ routes w' = routes w.
Proof. destruct c as [n]. cbn. destruct (switches w !! n) as [[[] q]|]; done. Qed.

Lemma send_route_frame (c : route_tx) (a : IpAddr) w :
  let w' := (unbounded_send c a w).2 in links w' = links w ∧ incomings w' = incomings w ∧ switches w' = switches w.
Proof. destruct c as [n]. cbn. destruct (routes w !! n) as [[[] q]|]; done. Qed.

Lemma send_incoming_frame (c : incoming_tx) (a : bytes * byte_tx) w :
  let w' := (unbounded_send c a w).2 in links w' = links w ∧ switches w' = switches w ∧ routes w' = routes w.
Proof. destruct c as [n]. cbn. destruct (incomings w !! n) as [[[] q]|]; done. Qed.
