(* ===== verification/Rng.v ===== *)
(** The random number generator ([rust/src/rng.rs]): a Gimli state that absorbs
    data and yields 64-bit words.

    The static [RNG] is a [Mutex<Rng>]: each of the free functions below is one
    locked section, a step from the value under the lock to the next one. *)
From S2P Require Import Prelude Gimli.

Record Rng := MkRng { gimli_state : GimliState }.

Definition new : Rng := MkRng Gimli.new.

(** XOR of [data] into the first bytes of the state, then [permute]. *)
Definition absorb (r : Rng) (data : bytes) : Rng :=
  let g := gimli_state r in
  let g := buf_mut g (λ b, xor_into b (to_le_bytes 8 (Z.of_nat (length data)))) in
  let g := permute g in
  MkRng (foldl absorb_block g (chunks RATE_BYTES data)).

(** [Rng::u64]: the result and the next state. *)
Definition u64_next (r : Rng) : Z * Rng :=
  let res := from_le_bytes (take 8 (buf (gimli_state r))) in
  (res, MkRng (permute (gimli_state r))).

(** [impl Write for Rng]: all of [buf] is consumed. *)
Definition write (r : Rng) (data : bytes) : result nat * Rng := (Ok (length data), absorb r data).
Definition flush (r : Rng) : result unit * Rng := (Ok tt, r).

(** The free functions, on the value of the static. *)
Definition absorb_u64 (RNG : Rng) (data : Z) : Rng := absorb RNG (to_le_bytes 8 data).
Definition u64 (RNG : Rng) : Z * Rng := u64_next RNG.

(** ** Seeding

    [writeln!] writes its text piece by piece: the literals of the format string
    and whatever pieces the [Debug] implementation of each argument writes, which
    are arguments of the model. [write_all] does not write an empty piece. *)
Definition write_all (r : Rng) (piece : bytes) : Rng :=
  match piece with [] => r | _ => (write r piece).2 end.
Definition writeln (r : Rng) (pieces : list bytes) : Rng := foldl write_all r pieces.

Definition newline : bytes := [10].
(** [writeln!(rng, "{:?}", x)]. *)
Definition debug_line (x : list bytes) : list bytes := x ++ [newline].
(** [writeln!(rng, "label: {:?}", x)]. *)
Definition labelled (label : string) (x : list bytes) : list bytes := str_bytes label :: x ++ [newline].

(** What opening and reading [/dev/urandom] gave. *)
Inductive Urandom := OpenFailed (e : list bytes) | ReadFailed (e : list bytes) | ReadExact (buf : list bytes).

Definition read_from_urandom (r : Rng) (u : Urandom) : Rng :=
  match u with
  | OpenFailed e => writeln r (labelled "Failed to open /dev/urandom: " e)
  | ReadFailed e => writeln (writeln r [str_bytes "Opened!" ++ newline]) (labelled "Failed to read from /dev/urandom: " e)
  | ReadExact buf => writeln (writeln r [str_bytes "Opened!" ++ newline]) (labelled "urandom buffer: " buf)
  end.

(** The values that are written, as their [Debug] texts. *)
Record Sources := MkSources {
  process_id : list bytes; thread_id : list bytes; thread_name : list bytes;
  arch : list bytes; dll_extension : list bytes; dll_prefix : list bytes; dll_suffix : list bytes;
  exe_extension : list bytes; exe_suffix : list bytes; family : list bytes; os_name : list bytes;
  args_os : list (list bytes);
  current_dir : list bytes; current_exe : list bytes; temp_dir : list bytes;
  vars_os : list (list bytes * list bytes);
  system_time : list bytes; instant : list bytes;
  urandom : Urandom;
}.

(** The lines of [init_rng] before it reads [/dev/urandom]. *)
Definition init_lines (src : Sources) : list (list bytes) :=
  [[str_bytes "Smolmesh2" ++ newline]; debug_line (process_id src); debug_line (thread_id src); debug_line (thread_name src)]
  ++ (debug_line <$> [arch src; dll_extension src; dll_prefix src; dll_suffix src; exe_extension src; exe_suffix src;
                      family src; os_name src])
  ++ [[str_bytes "Command line arguments" ++ newline]] ++ (debug_line <$> args_os src)
  ++ [labelled "Current dir: " (current_dir src); labelled "Current exe: " (current_exe src);
      labelled "Temp dir: " (temp_dir src)]
  ++ ((λ '(key, value), key ++ [str_bytes " -> "] ++ value ++ [newline]) <$> vars_os src)
  ++ [debug_line (system_time src); debug_line (instant src)].

Definition init_rng (RNG : Rng) (src : Sources) : Rng :=
  read_from_urandom (foldl writeln RNG (init_lines src)) (urandom src).

#[local] Opaque permute.

Definition wf (r : Rng) : Prop := Gimli.wf (gimli_state r).

Lemma rng_new_wf : wf new.
Proof. apply Gimli.new_wf. Qed.

Lemma xor_into_cancel b b' chunk :
  xor_into b chunk = xor_into b' chunk → length b = length b' → b = b'.
Proof.
  revert b' chunk; induction b as [|x b IH]; intros [|x' b'] [|c chunk]; try done; simpl.
  intros [= E1 E2] [= Hl]. f_equal; [|by eapply IH]. by rewrite <- (lxor_cancel_r x c), E1, lxor_cancel_r.
Qed.

Lemma xor_permute_inj g g' chunk :
  Gimli.wf g → Gimli.wf g' → is_bytes chunk →
  absorb_block g chunk = absorb_block g' chunk → g = g'.
Proof.
  intros Hg Hg' Hc E. apply permute_inj in E; [|by apply xor_into_wf..].
  destruct g as [b], g' as [b']. injection E as E. f_equal. apply (xor_into_cancel _ _ _ E).
  destruct Hg as [Hl _], Hg' as [Hl' _]. simpl in *. congruence.
Qed.

Lemma absorb_blocks_wf g data :
  Gimli.wf g → is_bytes data → Gimli.wf (foldl absorb_block g (chunks RATE_BYTES data)).
Proof.
  intros Hg Hd. apply (foldl_invariant _ (λ c, is_bytes c ∧ (length c <= RATE_BYTES)%nat)); [| |done].
  - intros g' c [? _] ?. by apply absorb_block_wf.
  - apply (chunks_Forall (uint 8)); [change RATE_BYTES with 16%nat; lia|done].
Qed.

Lemma absorb_blocks_inj g g' data :
  Gimli.wf g → Gimli.wf g' → is_bytes data →
  foldl absorb_block g (chunks RATE_BYTES data) = foldl absorb_block g' (chunks RATE_BYTES data) → g = g'.
Proof.
  intros Hg Hg' Hd. apply (foldl_inj Gimli.wf (λ c, is_bytes c ∧ (length c <= RATE_BYTES)%nat)); try done.
  - apply (chunks_Forall (uint 8)); [change RATE_BYTES with 16%nat; lia|done].
  - intros b c [? _] ?. by apply absorb_block_wf.
  - intros b b' c [? _] ? ? E. by eapply xor_permute_inj.
Qed.

Lemma absorb_state r data :
  gimli_state (absorb r data) =
    foldl absorb_block (absorb_block (gimli_state r) (to_le_bytes 8 (Z.of_nat (length data))))
      (chunks RATE_BYTES data).
Proof. reflexivity. Qed.

Lemma absorb_wf r data : wf r → is_bytes data → wf (absorb r data).
Proof.
  intros Hr Hd. apply absorb_blocks_wf; [|done].
  apply (absorb_block_wf (gimli_state r)); [done|]. apply to_le_bytes_bytes.
Qed.

Lemma u64_next_wf r : wf r → wf (u64_next r).2 ∧ uint 64 (u64_next r).1.
Proof.
  intros [Hl Hb]. split; [by apply permute_wf|].
  replace 64 with (8 * Z.of_nat (length (take 8 (buf (gimli_state r)))))
    by (rewrite length_take; unfold buf; rewrite Hl; lia).
  apply uint_from_le_bytes. by apply Forall_take.
Qed.

Lemma absorb_inj r r' data :
  wf r → wf r' → is_bytes data → absorb r data = absorb r' data → r = r'.
Proof.
  intros Hr Hr' Hd E%(f_equal gimli_state). rewrite !absorb_state in E.
  apply absorb_blocks_inj in E; [|by apply absorb_block_wf, to_le_bytes_bytes..|done].
  apply xor_permute_inj in E; [|done|done|apply to_le_bytes_bytes]. destruct r, r'. by simpl in *; subst.
Qed.

(** Writing keeps states apart, and well formed, piece by piece and line by line. *)
Lemma write_all_wf r piece : is_bytes piece → wf r → wf (write_all r piece).
Proof. intros Hp Hr. destruct piece; [done|]. by apply absorb_wf. Qed.
Lemma writeln_wf r pieces : Forall is_bytes pieces → wf r → wf (writeln r pieces).
Proof. intros Hp Hr. apply (foldl_invariant wf is_bytes); [|done..]. intros. by apply write_all_wf. Qed.
Lemma writeln_inj r r' pieces : Forall is_bytes pieces → wf r → wf r' → writeln r pieces = writeln r' pieces → r = r'.
Proof.
  intros Hp Hr Hr'. apply (foldl_inj wf is_bytes); try done.
  - intros b c ? ?. by apply write_all_wf.
  - intros b b' c Hc Hb Hb' E. destruct c; [done|]. by eapply absorb_inj.
Qed.

(** The texts that [init_rng] writes are bytes. *)
Definition sources_ok (src : Sources) : Prop :=
  Forall (Forall is_bytes) (init_lines src)
  ∧ match urandom src with OpenFailed e | ReadFailed e | ReadExact e => Forall is_bytes e end.

Lemma labelled_bytes label x : Forall is_bytes x → is_bytes (str_bytes label) → Forall is_bytes (labelled label x).
Proof. intros Hx Hl. constructor; [done|]. apply list.Forall_app. split; [done|]. by repeat constructor. Qed.

Lemma read_from_urandom_ok r r' u :
  match u with OpenFailed e | ReadFailed e | ReadExact e => Forall is_bytes e end → wf r → wf r' →
  wf (read_from_urandom r u) ∧ (read_from_urandom r u = read_from_urandom r' u → r = r').
Proof.
  assert (Ho : Forall is_bytes [str_bytes "Opened!" ++ newline]) by (by repeat constructor).
  destruct u as [e|e|e]; cbn [read_from_urandom]; intros He Hr Hr'.
  all: match goal with |- context [labelled ?l ?x] =>
         assert (Hl : Forall is_bytes (labelled l x)) by (apply labelled_bytes; [done|by repeat constructor]) end.
  all: split; [repeat apply writeln_wf; done|intros E; repeat (apply writeln_inj in E; [|try apply writeln_wf; done..]); done].
Qed.

(** Seeding never loses entropy: absorbing the same data, drawing a word, or
    the whole of [init_rng] on the same sources, takes distinct generator states
    to distinct states and keeps them well formed, and every word drawn is a
    64-bit integer. *)
Theorem rng_keeps_entropy r r' data src :
  wf r → wf r' → is_bytes data → sources_ok src →
  (absorb r data = absorb r' data → r = r')
  ∧ ((u64_next r).2 = (u64_next r').2 → r = r')
  ∧ (init_rng r src = init_rng r' src → r = r')
  ∧ wf (absorb r data) ∧ wf (u64_next r).2 ∧ wf (init_rng r src) ∧ uint 64 (u64_next r).1.
Proof.
  intros Hr Hr' Hd [Hl Hu].
  assert (Hw : ∀ x, wf x → wf (foldl writeln x (init_lines src))).
  { intros x Hx. apply (foldl_invariant wf (Forall is_bytes)); [|done..]. intros. by apply writeln_wf. }
  destruct (read_from_urandom_ok _ _ _ Hu (Hw r Hr) (Hw r' Hr')) as [Hi1 Hi2].
  split_and!; [by apply absorb_inj| | |by apply absorb_wf|by apply u64_next_wf|exact Hi1|by apply u64_next_wf].
  - intros E%(f_equal gimli_state). apply permute_inj in E; [|done..]. destruct r, r'. by simpl in *; subst.
  - intros E%Hi2. refine (foldl_inj wf (Forall is_bytes) writeln (init_lines src) r r' Hl _ _ Hr Hr' E).
    + intros b c ? ?. by apply writeln_wf.
    + intros b b' c ? ? ?. by apply writeln_inj.
Qed.

(** A run as process 42 without arguments or variables. *)
Definition example_sources : Sources :=
  let t := [str_bytes "x"] in
  MkSources [str_bytes "42"] t [] t t t t [] [] t t [] t t t [] t t (OpenFailed t).

Lemma rng_keeps_entropy_witness :
  wf new ∧ wf (absorb new (str_bytes "Smolmesh2")) ∧ wf (init_rng new example_sources) ∧ uint 64 (u64_next new).1.
Proof.
  assert (Hb : is_bytes (str_bytes "Smolmesh2")) by (by repeat constructor).
  assert (Hs : sources_ok example_sources) by (split; apply (bool_decide_unpack _); vm_compute; reflexivity).
  destruct (rng_keeps_entropy new new (str_bytes "Smolmesh2") example_sources rng_new_wf rng_new_wf Hb Hs)
    as (_ & _ & _ & H1 & _ & H3 & H2).
  split; [exact rng_new_wf|]. split; [exact H1|]. split; [exact H3|exact H2].
Defined.
