(* ===== verification/Delay.v ===== *)
(** The delays between announcements, cleanings and attempts to connect:
    [5.0 + rng::uniform() * 5.0] in binary floating point ([Rng::uniform] of
    [rust/src/rng.rs], and the loops of [rust/src/main.rs] and
    [rust/src/legacy_tcp.rs]).

    All values here are zero or between 2^-64 and 10, far from overflow and from
    the subnormal numbers, and multiples of 2^-64: an [f64] is an integer, in
    units of 2^-64, and an operation is the exact one followed by rounding to 53
    significant bits, to the nearest and of two equally near to the even one. *)
From Stdlib Require Import SpecFloat.
From S2P Require Import Prelude Gimli Rng.

(** ** Rounding *)

(** The exponent of the last of 53 bits. *)
Definition last_bit (x : Z) : Z := Z.max 0 (Z.log2 x - 52).

Definition round53 (x : Z) : Z :=
  let e := last_bit x in
  let q := x / 2 ^ e in
  let r := x mod 2 ^ e in
  let up := (2 ^ e <? 2 * r) || ((2 ^ e =? 2 * r) && Z.odd q) in
  (q + Z.b2z up) * 2 ^ e.

Lemma last_bit_nonneg x : 0 <= last_bit x.
Proof. unfold last_bit. lia. Qed.

Lemma last_bit_mono x y : x <= y → last_bit x <= last_bit y.
Proof. intros H%Z.log2_le_mono. unfold last_bit. lia. Qed.

(** The integer part in units of the last bit. *)
Lemma quotient_bounds x : 0 <= x → 0 <= x / 2 ^ last_bit x < 2 ^ 53 ∧ (0 < last_bit x → 2 ^ 52 <= x / 2 ^ last_bit x).
Proof.
  intros Hx. pose proof (last_bit_nonneg x) as He. assert (Hp : 0 < 2 ^ last_bit x) by (apply Z.pow_pos_nonneg; lia).
  assert (Hlt : x < 2 ^ (53 + last_bit x)).
  { destruct (decide (x = 0)) as [->|]; [apply Z.pow_pos_nonneg; lia|]. apply Z.log2_lt_pow2; [lia|]. unfold last_bit. lia. }
  split; [split; [by apply Z.div_pos|]|].
  - apply Z.div_lt_upper_bound; [done|]. by rewrite Z.mul_comm, <- Z.pow_add_r by lia.
  - intros He'. apply Z.div_le_lower_bound; [done|]. rewrite Z.mul_comm, <- Z.pow_add_r by lia.
    assert (Hx0 : 0 < x) by (destruct (decide (x = 0)) as [->|]; [unfold last_bit in He'; cbn in He'; lia|lia]).
    etransitivity; [|apply Z.log2_spec, Hx0]. apply Z.pow_le_mono_r; [lia|]. unfold last_bit in *. lia.
Qed.

(** The nearest: the error is at most half a unit of the last bit. *)
Lemma round53_error x : 0 <= x → 2 * Z.abs (round53 x - x) <= 2 ^ last_bit x.
Proof.
  intros Hx. unfold round53. assert (Hp : 0 < 2 ^ last_bit x) by (apply Z.pow_pos_nonneg; [lia|apply last_bit_nonneg]).
  pose proof (Z.div_mod x (2 ^ last_bit x) ltac:(lia)) as E. pose proof (Z.mod_pos_bound x (2 ^ last_bit x) Hp) as Hr.
  set (P := 2 ^ last_bit x) in *. set (q := x / P) in *. set (r := x mod P) in *. clearbody P q r.
  destruct (Z.ltb_spec P (2 * r)); cbn [orb Z.b2z]; [nia|]. destruct (Z.eqb_spec P (2 * r)); cbn [andb].
  - destruct (Z.odd q); cbn [Z.b2z]; nia.
  - cbn [Z.b2z]. nia.
Qed.

Lemma round53_exact x : 0 <= x < 2 ^ 53 → round53 x = x.
Proof.
  intros Hx. assert (E : last_bit x = 0).
  { unfold last_bit. destruct (decide (x = 0)) as [->|]; [done|]. pose proof (proj1 (Z.log2_lt_pow2 x 53 ltac:(lia)) (proj2 Hx)). lia. }
  unfold round53. rewrite E. change (2 ^ 0) with 1. by rewrite Z.div_1_r, Z.mod_1_r, Z.mul_1_r, Z.add_0_r.
Qed.

(** Rounding keeps the order. *)
Lemma round53_mono x y : 0 <= x <= y → round53 x <= round53 y.
Proof.
  intros [Hx Hxy]. pose proof (last_bit_mono x y Hxy) as Hle. pose proof (last_bit_nonneg x) as H0.
  destruct (quotient_bounds x Hx) as [Qx _], (quotient_bounds y ltac:(lia)) as [Qy Qy'].
  destruct (decide (last_bit x = last_bit y)) as [E|Hne].
  - unfold round53. rewrite <- E. assert (Hp : 0 < 2 ^ last_bit x) by (apply Z.pow_pos_nonneg; lia). apply Z.mul_le_mono_nonneg_r; [lia|].
    pose proof (Z.div_mod x (2 ^ last_bit x) ltac:(lia)). pose proof (Z.mod_pos_bound x _ Hp).
    pose proof (Z.div_mod y (2 ^ last_bit x) ltac:(lia)). pose proof (Z.mod_pos_bound y _ Hp).
    pose proof (Z.div_le_mono x y _ Hp Hxy).
    set (P := 2 ^ last_bit x) in *. set (q := x / P) in *. set (r := x mod P) in *. set (q' := y / P) in *. set (r' := y mod P) in *.
    destruct (decide (q = q')) as [Eq|]; [|destruct (_ || _), (_ || _); cbn [Z.b2z]; lia].
    assert (r <= r') by nia. rewrite <- Eq. clearbody P q r q' r'.
    destruct (Z.ltb_spec P (2 * r)), (Z.ltb_spec P (2 * r')), (Z.eqb_spec P (2 * r)), (Z.eqb_spec P (2 * r')), (Z.odd q);
      cbn [orb andb Z.b2z]; lia.
  - transitivity (2 ^ 53 * 2 ^ last_bit x).
    + unfold round53. apply Z.mul_le_mono_nonneg_r; [apply Z.pow_nonneg; lia|]. destruct (_ || _); cbn [Z.b2z]; lia.
    + transitivity (2 ^ 52 * 2 ^ last_bit y).
      * rewrite <- !Z.pow_add_r by lia. apply Z.pow_le_mono_r; lia.
      * unfold round53. apply Z.mul_le_mono_nonneg_r; [apply Z.pow_nonneg; lia|]. specialize (Qy' ltac:(lia)).
        destruct (_ || _); cbn [Z.b2z]; lia.
Qed.

(** ** The program *)

Definition ONE : Z := 2 ^ 64.

(** [Rng::uniform], [self.u64() as f64 / u64::MAX as f64]: the divisor rounds to
    2^64, so the division only changes the exponent. *)
Definition uniform_next (self : Rng) : Z * Rng := let '(res, self) := u64_next self in (round53 res, self).
(** The free function, on the value of the static. *)
Definition uniform (RNG : Rng) : Z * Rng := uniform_next RNG.

(** [5.0 + rng::uniform() * 5.0], the seconds that a loop sleeps. *)
Definition delay_of (x : Z) : Z := round53 (5 * ONE + round53 (x * 5)).
Definition delay (RNG : Rng) : Z * Rng := let '(x, RNG) := uniform RNG in (delay_of x, RNG).

(** [millis]: the system time in milliseconds; [None] is a clock set before 1970,
    else the nanoseconds since then. *)
Definition millis (since_epoch : option Z) : outcome Z :=
  match since_epoch with
  | None => Panic "called `Result::unwrap()` on an `Err` value"
  | Some nanos => mret (wrap 64 (nanos / 1000000))
  end.

(** The time announced never goes back while the clock does not, for as long as
    64 bits are enough for it. *)
Lemma millis_mono nanos nanos' :
  0 <= nanos <= nanos' → nanos' < 1000000 * 2 ^ 64 →
  ∃ ms ms', millis (Some nanos) = Ret ms ∧ millis (Some nanos') = Ret ms' ∧ uint 64 ms ∧ ms <= ms'.
Proof.
  intros H Hlt. eexists _, _. split; [reflexivity|]. split; [reflexivity|]. split; [by apply uint_wrap|].
  assert (Hd : 0 <= nanos / 1000000 <= nanos' / 1000000) by (split; [apply Z.div_pos|apply Z.div_le_mono]; lia).
  assert (nanos' / 1000000 < 2 ^ 64) by (apply Z.div_lt_upper_bound; lia). rewrite !wrap_small by (unfold uint; lia). lia.
Qed.

(** ** The same in the standard's arithmetic *)

(** An integer in units of 2^-64 as a binary64 number, and the program's
    expression in the arithmetic of [SpecFloat]. *)
Definition f64 (x : Z) : spec_float := binary_normalize 53 1024 x (-64) false.
Definition u64_as_f64 (x : Z) : spec_float := binary_normalize 53 1024 x 0 false.
Definition delay_spec (x : Z) : spec_float :=
  SFadd 53 1024 (u64_as_f64 5) (SFmul 53 1024 (SFdiv 53 1024 (u64_as_f64 x) (u64_as_f64 (2 ^ 64 - 1))) (u64_as_f64 5)).

(** Draws with few and many bits, ties both ways, and the extremes. *)
Definition sample_draws : list Z :=
  [0; 1; 5; 2 ^ 53 - 1; 2 ^ 53; 2 ^ 53 + 1; 2 ^ 53 + 3; 2 ^ 60 + 12345; 2 ^ 63 - 1; 2 ^ 63; 2 ^ 63 + 1024; 2 ^ 63 + 3072;
   2 ^ 63 + 1025; 0x123456789abcdef0; 0xfedcba9876543210; 0xdeadbeefcafebabe; 2 ^ 64 - 2049; 2 ^ 64 - 1025; 2 ^ 64 - 1024; 2 ^ 64 - 1].

#[local] Instance spec_float_eq_dec : EqDecision spec_float.
Proof. solve_decision. Defined.

Lemma delay_spec_samples : Forall (λ x, delay_spec x = f64 (delay_of (round53 x))) sample_draws.
Proof. apply (bool_decide_unpack _). vm_compute. reflexivity. Qed.

(** ** Bounds *)

Lemma max_as_f64 : round53 (2 ^ 64 - 1) = ONE.
Proof. reflexivity. Qed.

Lemma round53_unit u : 0 <= u <= 2 ^ 64 - 1 → 0 <= round53 u <= ONE.
Proof.
  intros Hu. change 0 with (round53 0) at 1. rewrite <- max_as_f64. split; apply round53_mono; lia.
Qed.

Lemma delay_of_range x : 0 <= x <= ONE → 5 * ONE <= delay_of x <= 10 * ONE.
Proof.
  intros Hx. unfold delay_of. change (5 * ONE) with (round53 (5 * ONE)) at 1. change (10 * ONE) with (round53 (10 * ONE)).
  assert (H : 0 <= round53 (x * 5) <= 5 * ONE).
  { change 0 with (round53 0) at 1. change (5 * ONE) with (round53 (5 * ONE)). split; apply round53_mono; lia. }
  split; apply round53_mono; unfold ONE in *; lia.
Qed.

(** The error of the three roundings together. *)
Lemma delay_of_error u : 0 <= u <= 2 ^ 64 - 1 → Z.abs (delay_of (round53 u) - (5 * ONE + 5 * u)) < 2 ^ 15.
Proof.
  intros Hu. pose proof (round53_unit u Hu) as Hx. set (x := round53 u) in *. unfold delay_of.
  assert (He : ∀ y n, 0 <= y < 2 ^ n → 53 <= n → 2 * Z.abs (round53 y - y) <= 2 ^ (n - 53)).
  { intros y n Hy Hn. etransitivity; [apply round53_error; lia|]. apply Z.pow_le_mono_r; [lia|]. unfold last_bit.
    destruct (decide (y = 0)) as [->|]; [cbn; lia|]. pose proof (proj1 (Z.log2_lt_pow2 y n ltac:(lia)) (proj2 Hy)). lia. }
  pose proof (He u 64 ltac:(lia) ltac:(lia)) as E1. fold x in E1.
  pose proof (He (x * 5) 67 ltac:(unfold ONE in *; lia) ltac:(lia)) as E2.
  assert (H : 0 <= round53 (x * 5) <= 5 * ONE).
  { change 0 with (round53 0) at 1. change (5 * ONE) with (round53 (5 * ONE)). split; apply round53_mono; lia. }
  pose proof (He (5 * ONE + round53 (x * 5)) 68 ltac:(unfold ONE in *; lia) ltac:(lia)) as E3.
  change (2 ^ (64 - 53)) with 2048 in E1. change (2 ^ (67 - 53)) with 16384 in E2. change (2 ^ (68 - 53)) with 32768 in E3.
  change (2 ^ 15) with 32768. lia.
Qed.

Lemma delay_range RNG : wf RNG → 5 * ONE <= (delay RNG).1 <= 10 * ONE ∧ wf (delay RNG).2.
Proof.
  intros [Hwf Hu]%u64_next_wf. unfold delay, uniform, uniform_next, u64 in *. destruct (u64_next RNG) as [d R]. cbn [fst snd] in *.
  split; [|done]. apply delay_of_range. unfold uint in Hu. assert (0 <= d <= 2 ^ 64 - 1) by lia. by apply round53_unit.
Qed.

(** C40. The delays. [uniform] is within [0, 1], both ends included: the largest
    1024 of the 2^64 draws give 1. Every loop waits from 5 to 10 seconds, never
    more than 2^-49 seconds off the real number [5 + 5 * u / 2^64] for the drawn
    word [u], and longer for larger words. *)
Theorem delay_bounds RNG RNG' :
  wf RNG → wf RNG' →
  let u := (u64 RNG).1 in let u' := (u64 RNG').1 in
  0 <= (uniform RNG).1 <= ONE
  ∧ ((uniform RNG).1 = ONE ↔ 2 ^ 64 - 1024 <= u)
  ∧ 5 * ONE <= (delay RNG).1 <= 10 * ONE
  ∧ Z.abs ((delay RNG).1 - (5 * ONE + 5 * u)) < 2 ^ 15
  ∧ (u <= u' → (delay RNG).1 <= (delay RNG').1)
  ∧ wf (delay RNG).2.
Proof.
  intros [Hwf Hu]%u64_next_wf [_ Hu']%u64_next_wf u u'. unfold delay, uniform, uniform_next, u64 in *.
  unfold u, u'. destruct (u64_next RNG) as [d R], (u64_next RNG') as [d' R']. cbn [fst snd] in *. clear u u'.
  assert (Hd : 0 <= d <= 2 ^ 64 - 1) by (unfold uint in Hu; lia). assert (Hd' : 0 <= d' <= 2 ^ 64 - 1) by (unfold uint in Hu'; lia).
  pose proof (round53_unit d Hd) as Hx. split_and!; [apply Hx|apply Hx| |by apply delay_of_range..|by apply delay_of_error| |done].
  - split; intros H.
    + destruct (decide (d <= 2 ^ 64 - 1025)) as [Hle|]; [|lia].
      pose proof (round53_mono d (2 ^ 64 - 1025) ltac:(lia)) as Hm. change (round53 (2 ^ 64 - 1025)) with (2 ^ 64 - 2048) in Hm.
      unfold ONE in H. lia.
    + pose proof (round53_mono (2 ^ 64 - 1024) d ltac:(lia)) as Hm. change (round53 (2 ^ 64 - 1024)) with ONE in Hm. lia.
  - intros Hle. unfold delay_of. pose proof (round53_mono d d' ltac:(lia)) as H1.
    pose proof (round53_mono (round53 d * 5) (round53 d' * 5) ltac:(lia)) as H2.
    apply round53_mono. pose proof (round53_mono 0 (round53 d * 5) ltac:(lia)) as H3. change (round53 0) with 0 in H3. unfold ONE. lia.
Qed.

Lemma delay_bounds_witness : 5 * ONE <= (delay new).1 <= 10 * ONE ∧ wf (delay new).2.
Proof. destruct (delay_bounds new new rng_new_wf rng_new_wf) as (_ & _ & H & _ & _ & H'). split; [exact H|exact H']. Defined.
