(* ===== verification/Framing.v ===== *)
(** The encrypted and authenticated framing of a link
    ([rust/src/legacy_tcp.rs]): the keystream, the keyed hashes, the body of the
    sending loop and the receiving loop.

    The two sides of a connection ([connect_impl] and [handle_connection]) run
    the same two loops, with the yield points in another order; both are mapped
    to the definitions here. *)
From S2P Require Import Prelude Gimli Channel.

(** ** Keystream *)

Record KeystreamGen := MkKeystreamGen { gimli_state : GimliState; n : nat }.

(** [state.buf_mut()[0..8].copy_from_slice(&len.to_le_bytes()); state.permute()]. *)
Definition put_len (g : GimliState) (len : nat) : GimliState :=
  permute (buf_mut g (write_prefix (to_le_bytes 8 (Z.of_nat len)))).

(** [for chunk in buf.chunks(RATE_BYTES) { xor the chunk; permute }]. *)
Definition absorb_all (g : GimliState) (data : bytes) : GimliState :=
  foldl absorb_block g (chunks RATE_BYTES data).

Definition new (key : bytes) : KeystreamGen :=
  MkKeystreamGen (absorb_all (put_len Gimli.new (length key)) key) 0.

Definition next (ks : KeystreamGen) : Z * KeystreamGen :=
  let byte := buf (gimli_state ks) !!! n ks in
  let n := S (n ks) in
  if decide (n = 16%nat) then (byte, MkKeystreamGen (permute (gimli_state ks)) 0)
  else (byte, MkKeystreamGen (gimli_state ks) n).

(** [for byte in data.iter_mut() { *byte ^= keystream.next() }]. *)
Fixpoint xor_stream (ks : KeystreamGen) (data : bytes) : bytes * KeystreamGen :=
  match data with
  | [] => ([], ks)
  | b :: data =>
      let '(k, ks) := next ks in
      let '(data, ks) := xor_stream ks data in
      (Z.lxor b k :: data, ks)
  end.

(** ** Keyed hashes *)

Definition multigimli3 (x y z : bytes) : bytes :=
  let g := put_len (put_len (put_len Gimli.new (length x)) (length y)) (length z) in
  take 16 (buf (foldl absorb_all g [x; y; z])).

Definition multigimli2 (x y : bytes) : bytes :=
  let g := put_len (put_len Gimli.new (length x)) (length y) in
  take 16 (buf (foldl absorb_all g [x; y])).

(** ** Sending *)

(** One packet of the sending loop: length, data and MAC, encrypted in place. *)
Definition seal (mac_key : bytes) (ks : KeystreamGen) (data : bytes) : bytes * KeystreamGen :=
  let mac := multigimli2 mac_key data in
  let packet_data := to_le_bytes 2 (wrap 16 (Z.of_nat (length data))) ++ data ++ mac in
  xor_stream ks packet_data.

(** The sending loop on the packets received from [sender_rx]: what is written
    on the socket, packet by packet. [write_ok i] tells whether writing and
    flushing the [i]-th packet succeeds; the loop returns when it does not. *)
Fixpoint send_task (write_ok : nat → bool) (i : nat) (mac_key : bytes) (ks : KeystreamGen)
    (packets : list bytes) : list bytes :=
  match packets with
  | [] => []
  | data :: packets =>
      if decide (data = []) then send_task write_ok i mac_key ks packets else
      let '(to_send, ks) := seal mac_key ks data in
      if write_ok i then to_send :: send_task write_ok (S i) mac_key ks packets else []
  end.

(** ** Receiving *)

(** [read_exact] with its time limit, on the bytes that arrive before the end of
    the stream, an error or the limit. *)
Definition read_exact (len : nat) (input : bytes) : result (bytes * bytes) :=
  if decide (len <= length input)%nat then mret (take len input, drop len input)
  else Err "read_exact".

(** One iteration of the receiving loop, up to the MAC check. *)
Definition recv_frame (mac_key : bytes) (ks : KeystreamGen) (input : bytes)
    : result (bytes * KeystreamGen * bytes) :=
  '(len_buf, input) ← read_exact 2 input;
  let '(len_buf, ks) := xor_stream ks len_buf in
  let len := from_le_bytes len_buf in
  '(data, input) ← read_exact (Z.to_nat len) input;
  let '(data, ks) := xor_stream ks data in
  '(mac, input) ← read_exact 16 input;
  let '(mac, ks) := xor_stream ks mac in
  let expected_mac := multigimli2 mac_key data in
  if decide (expected_mac ≠ mac) then Err "MAC verification failed"
  else mret (data, ks, input).

(** The receiving loop: [incoming] is the node's queue, [sender_tx] the link's
    own sender, passed along with every packet. [None] means out of fuel. *)
Fixpoint recv_task {W I C} `{!Mpsc W I (bytes * C)} (incoming : I) (sender_tx : C)
    (fuel : nat) (mac_key : bytes) (ks : KeystreamGen) (input : bytes) (w : W)
    : option (result unit * W) :=
  match fuel with
  | O => None
  | S fuel =>
      match recv_frame mac_key ks input with
      | Err why => Some (Err why, w)
      | Ok (data, ks, input) =>
          let '(ok, w) := unbounded_send incoming (data, sender_tx) w in
          if ok then recv_task incoming sender_tx fuel mac_key ks input w
          else Some (Ok tt, w)
      end
  end.

#[local] Opaque permute.

(** ** The keystream *)

Definition ks_wf (ks : KeystreamGen) : Prop := Gimli.wf (gimli_state ks) ∧ (n ks < 16)%nat.

Lemma put_len_wf g len : Gimli.wf g → Gimli.wf (put_len g len).
Proof.
  intros Hg. apply permute_wf, buf_mut_wf; [done|]. intros b Hl Hb.
  rewrite length_write_prefix by (rewrite length_to_le_bytes; lia). split; [done|].
  apply list.Forall_app. split; [apply to_le_bytes_bytes|by apply Forall_drop].
Qed.

Lemma absorb_all_wf g data : Gimli.wf g → is_bytes data → Gimli.wf (absorb_all g data).
Proof.
  intros Hg Hd. apply (foldl_invariant _ (λ c, is_bytes c ∧ (length c <= RATE_BYTES)%nat)); [| |done].
  - intros g' c [? _] ?. by apply absorb_block_wf.
  - apply (chunks_Forall (uint 8)); [change RATE_BYTES with 16%nat; lia|done].
Qed.

Lemma ks_new_wf key : is_bytes key → ks_wf (new key).
Proof. intros. split; [|simpl; lia]. apply absorb_all_wf; [|done]. apply put_len_wf, new_wf. Qed.

Lemma next_wf ks : ks_wf ks → u8 (next ks).1 ∧ ks_wf (next ks).2.
Proof.
  intros [[Hl Hb] Hn]. unfold next.
  assert (u8 (buf (gimli_state ks) !!! n ks)) by (eapply Forall_lookup_total_1; [done|unfold buf; lia]).
  case_decide; (split; [done|]); (split; [|simpl; lia]); [|done]. by apply permute_wf.
Qed.

Lemma xor_stream_cons ks b data :
  xor_stream ks (b :: data) =
    (Z.lxor b (next ks).1 :: (xor_stream (next ks).2 data).1, (xor_stream (next ks).2 data).2).
Proof. cbn [xor_stream]. destruct (next ks) as [k ks1]. cbn. by destruct (xor_stream ks1 data). Qed.

Lemma xor_stream_app ks a b :
  xor_stream ks (a ++ b) =
    ((xor_stream ks a).1 ++ (xor_stream (xor_stream ks a).2 b).1, (xor_stream (xor_stream ks a).2 b).2).
Proof.
  revert ks; induction a as [|x a IH]; intros ks; [cbn; by destruct (xor_stream ks b)|].
  rewrite <- app_comm_cons, !xor_stream_cons, IH. done.
Qed.

Lemma length_xor_stream ks data : length (xor_stream ks data).1 = length data.
Proof. revert ks; induction data; intros ks; [done|]. rewrite xor_stream_cons. simpl. auto. Qed.

Lemma xor_stream_involutive ks data : xor_stream ks (xor_stream ks data).1 = (data, (xor_stream ks data).2).
Proof.
  revert ks; induction data as [|b data IH]; intros ks; [done|].
  rewrite !xor_stream_cons. cbn [fst snd]. rewrite xor_stream_cons, IH, lxor_cancel_r. done.
Qed.

Lemma xor_stream_state ks a b : length a = length b → (xor_stream ks a).2 = (xor_stream ks b).2.
Proof.
  revert ks b; induction a as [|x a IH]; intros ks [|y b] [=]; [done|].
  rewrite !xor_stream_cons. by apply IH.
Qed.

Lemma xor_stream_wf ks data :
  ks_wf ks → is_bytes data → is_bytes (xor_stream ks data).1 ∧ ks_wf (xor_stream ks data).2.
Proof.
  intros Hk Hd. revert ks Hk. induction Hd as [|b data Hb Hd IH]; intros ks Hk; [by split|].
  rewrite xor_stream_cons. destruct (next_wf ks Hk) as [H1 H2]. destruct (IH _ H2) as [H3 H4].
  split; [|done]. constructor; [by apply uint_lxor|done].
Qed.

(** The rest of the current block, then the following ones. *)
Lemma xor_stream_squeeze g k data m :
  Gimli.wf g → (k < 16)%nat → (length data <= 16 - k + 16 * m)%nat →
  (xor_stream (MkKeystreamGen g k) data).1
    = xor_into data (drop k (take RATE_BYTES (buf g)) ++ squeeze_blocks (permute g) m).
Proof.
  change RATE_BYTES with 16%nat. revert g k m. induction data as [|b data IH]; intros g k m Hg Hk Hlen; [done|].
  assert (Hl : length (take 16 (buf g)) = 16%nat) by (rewrite length_take; destruct Hg as [Hg _]; unfold buf; lia).
  rewrite xor_stream_cons. unfold next. cbn [gimli_state n fst snd].
  destruct (lookup_lt_is_Some_2 (take 16 (buf g)) k) as [x Hx]; [lia|].
  rewrite (drop_S _ x) by done. rewrite <- app_comm_cons. cbn [xor_into].
  assert (Hbuf : buf g !!! k = x).
  { rewrite lookup_take_lt in Hx by lia. by apply list_lookup_total_correct. }
  rewrite Hbuf. cbn [length] in Hlen. destruct (decide (S k = 16)%nat) as [E|E].
  - cbn [snd fst]. f_equal. destruct m as [|m].
    + assert (data = []) as -> by (destruct data; [done|simpl in *; lia]). reflexivity.
    + rewrite (IH (permute g) 0%nat m (permute_wf g Hg) ltac:(lia) ltac:(lia)), squeeze_blocks_S.
      change RATE_BYTES with 16%nat. rewrite (drop_ge (take 16 (buf g))) by lia. rewrite drop_0, app_nil_l. reflexivity.
  - cbn [snd fst]. f_equal. apply IH; [done|lia|lia].
Qed.

(** ** Sealing and opening a frame *)

Lemma multigimli2_wf x y : is_bytes x → is_bytes y → is_bytes (multigimli2 x y) ∧ length (multigimli2 x y) = 16%nat.
Proof.
  intros Hx Hy. assert (Hw : Gimli.wf (foldl absorb_all (put_len (put_len Gimli.new (length x)) (length y)) [x; y])).
  { apply (foldl_invariant _ is_bytes); [intros; by apply absorb_all_wf|by repeat constructor|].
    apply put_len_wf, put_len_wf, new_wf. }
  destruct Hw as [Hl Hb]. unfold multigimli2. split; [by apply Forall_take|].
  rewrite length_take. unfold buf. lia.
Qed.

Lemma multigimli3_wf x y z :
  is_bytes x → is_bytes y → is_bytes z → is_bytes (multigimli3 x y z) ∧ length (multigimli3 x y z) = 16%nat.
Proof.
  intros Hx Hy Hz.
  assert (Hw : Gimli.wf (foldl absorb_all (put_len (put_len (put_len Gimli.new (length x)) (length y)) (length z)) [x; y; z])).
  { apply (foldl_invariant _ is_bytes); [intros; by apply absorb_all_wf|by repeat constructor|].
    apply put_len_wf, put_len_wf, put_len_wf, new_wf. }
  destruct Hw as [Hl Hb]. unfold multigimli3. split; [by apply Forall_take|].
  rewrite length_take. unfold buf. lia.
Qed.

Lemma read_exact_app len a b : length a = len → read_exact len (a ++ b) = Ok (a, b).
Proof.
  intros <-. unfold read_exact. rewrite decide_True by (rewrite length_app; lia).
  by rewrite take_app_length, drop_app_length.
Qed.

Lemma read_exact_inv len input a b :
  read_exact len input = Ok (a, b) ↔ input = a ++ b ∧ length a = len.
Proof.
  split; [|intros [-> ?]; by apply read_exact_app].
  unfold read_exact. case_decide; [|done]. intros [= <- <-].
  split; [by rewrite take_drop|rewrite length_take; lia].
Qed.

Lemma read_exact_short len input : (length input < len)%nat → read_exact len input = Err "read_exact".
Proof. intros. unfold read_exact. by rewrite decide_False by lia. Qed.

(** The three pieces of a frame, each encrypted where the stream stands. *)
Lemma seal_pieces mac_key ks data :
  seal mac_key ks data =
    let e1 := xor_stream ks (to_le_bytes 2 (wrap 16 (Z.of_nat (length data)))) in
    let e2 := xor_stream e1.2 data in
    let e3 := xor_stream e2.2 (multigimli2 mac_key data) in
    (e1.1 ++ e2.1 ++ e3.1, e3.2).
Proof. unfold seal. by rewrite !xor_stream_app. Qed.

Lemma length_seal mac_key ks data :
  is_bytes mac_key → is_bytes data → length (seal mac_key ks data).1 = (length data + 18)%nat.
Proof.
  intros Hm Hd. unfold seal. rewrite length_xor_stream, !length_app, length_to_le_bytes.
  rewrite (proj2 (multigimli2_wf mac_key data Hm Hd)). lia.
Qed.

(** What the receiver makes of a frame, whatever the length of its data. *)
Lemma recv_frame_seal mac_key ks data rest :
  is_bytes mac_key → is_bytes data → Z.of_nat (length data) < 65536 →
  recv_frame mac_key ks ((seal mac_key ks data).1 ++ rest) = Ok (data, (seal mac_key ks data).2, rest).
Proof.
  intros Hm Hd Hlen. rewrite seal_pieces. cbn zeta. cbn [fst snd]. unfold recv_frame.
  rewrite <- !app_assoc, read_exact_app by (by rewrite length_xor_stream). cbn [mbind result_bind].
  rewrite xor_stream_involutive, from_to_le_bytes. change (8 * Z.of_nat 2) with 16.
  assert (Hu : u16 (Z.of_nat (length data))) by (split; [lia|exact Hlen]).
  rewrite !(wrap_small 16), Nat2Z.id by done.
  rewrite read_exact_app by (by rewrite length_xor_stream). cbn [mbind result_bind].
  rewrite xor_stream_involutive.
  rewrite read_exact_app by (rewrite length_xor_stream; by apply multigimli2_wf). cbn [mbind result_bind].
  rewrite xor_stream_involutive. by rewrite decide_False by (intros []; done).
Qed.

Lemma recv_frame_inv mac_key ks input data ks' rest :
  is_bytes mac_key → ks_wf ks → is_bytes input →
  recv_frame mac_key ks input = Ok (data, ks', rest) →
  is_bytes data ∧ Z.of_nat (length data) < 65536 ∧ seal mac_key ks data = ((seal mac_key ks data).1, ks') ∧
  input = (seal mac_key ks data).1 ++ rest.
Proof.
  intros Hm Hk Hi. unfold recv_frame.
  destruct (read_exact 2 input) as [[l1 r1]|] eqn:E1; [|done]. cbn [mbind result_bind].
  apply read_exact_inv in E1 as [-> Hl1]. apply list.Forall_app in Hi as [Hb1 Hi].
  destruct (xor_stream ks l1) as [p1 ks1] eqn:X1.
  destruct (xor_stream_wf ks l1 Hk Hb1) as [Hp1 Hk1]. rewrite X1 in Hp1, Hk1. cbn [fst snd] in *.
  destruct (read_exact _ r1) as [[l2 r2]|] eqn:E2; [|done]. cbn [mbind result_bind].
  apply read_exact_inv in E2 as [-> Hl2]. apply list.Forall_app in Hi as [Hb2 Hi].
  destruct (xor_stream ks1 l2) as [p2 ks2] eqn:X2.
  destruct (xor_stream_wf ks1 l2 Hk1 Hb2) as [Hp2 Hk2]. rewrite X2 in Hp2, Hk2. cbn [fst snd] in *.
  destruct (read_exact 16 r2) as [[l3 r3]|] eqn:E3; [|done]. cbn [mbind result_bind].
  apply read_exact_inv in E3 as [-> Hl3].
  destruct (xor_stream ks2 l3) as [p3 ks3] eqn:X3. case_decide as Hmac; [done|].
  intros [= <- <- <-].
  assert (Hp1l : length p1 = 2%nat) by (by rewrite <- Hl1, <- (length_xor_stream ks l1), X1).
  assert (Hp2l : length p2 = length l2) by (by rewrite <- (length_xor_stream ks1 l2), X2).
  assert (Hu : uint 16 (from_le_bytes p1)).
  { replace 16 with (8 * Z.of_nat (length p1)) by lia. by apply uint_from_le_bytes. }
  assert (Hu' : 0 <= from_le_bytes p1 < 65536) by exact Hu.
  assert (Hlen : Z.of_nat (length p2) < 65536) by lia. split; [done|]. split; [done|].
  assert (Hle : to_le_bytes 2 (wrap 16 (Z.of_nat (length p2))) = p1).
  { rewrite Hp2l, Hl2, Z2Nat.id, wrap_small by (done || lia || by apply Hu). rewrite <- Hp1l. by apply to_from_le_bytes. }
  assert (Hs : seal mac_key ks p2 = (l1 ++ l2 ++ l3, ks3)).
  { rewrite seal_pieces, Hle, Hmac. cbn zeta.
    pose proof (xor_stream_involutive ks l1) as I1. rewrite X1 in I1.
    pose proof (xor_stream_involutive ks1 l2) as I2. rewrite X2 in I2.
    pose proof (xor_stream_involutive ks2 l3) as I3. rewrite X3 in I3. cbn [fst snd] in *.
    rewrite I1. cbn [fst snd]. rewrite I2. cbn [fst snd]. by rewrite I3. }
  rewrite Hs. cbn [fst]. by rewrite <- !app_assoc.
Qed.

(** A frame cut anywhere is not accepted: the receiver runs out of bytes. *)
Lemma recv_frame_cut mac_key ks data n :
  is_bytes mac_key → is_bytes data → Z.of_nat (length data) < 65536 → (n < length data + 18)%nat →
  recv_frame mac_key ks (take n (seal mac_key ks data).1) = Err "read_exact".
Proof.
  intros Hm Hd Hlen Hn. destruct (multigimli2_wf mac_key data Hm Hd) as [_ Hmac].
  assert (Hu : u16 (Z.of_nat (length data))) by (split; [lia|exact Hlen]).
  rewrite seal_pieces. cbn zeta. cbn [fst snd]. unfold recv_frame.
  destruct (decide (n < 2)%nat).
  { rewrite read_exact_short by (rewrite length_take; lia). done. }
  rewrite take_app_ge, length_xor_stream, length_to_le_bytes by (rewrite length_xor_stream, length_to_le_bytes; lia).
  rewrite read_exact_app by (by rewrite length_xor_stream). cbn [mbind result_bind].
  rewrite xor_stream_involutive, from_to_le_bytes. change (8 * Z.of_nat 2) with 16.
  rewrite !(wrap_small 16), Nat2Z.id by done.
  destruct (decide (n < 2 + length data)%nat).
  { rewrite read_exact_short by (rewrite length_take; lia). done. }
  rewrite take_app_ge, length_xor_stream by (rewrite length_xor_stream; lia).
  rewrite read_exact_app by (by rewrite length_xor_stream). cbn [mbind result_bind].
  rewrite xor_stream_involutive. rewrite read_exact_short by (rewrite length_take; lia). done.
Qed.

(** *** One frame *)

(** C8. Authenticated framing is exact: the receiver accepts the bytes it has and
    delivers [data] if and only if they start with the frame that sealing [data]
    produces under the same key at the same point of the stream; it then stands
    where the sender stands, with the rest of the bytes unread. No frame of
    65536 bytes or more is ever delivered. *)
Theorem recv_accepts_sealed mac_key ks input data ks' rest :
  is_bytes mac_key → ks_wf ks → is_bytes input →
  recv_frame mac_key ks input = Ok (data, ks', rest) ↔
  is_bytes data ∧ Z.of_nat (length data) < 65536 ∧
    ∃ frame, seal mac_key ks data = (frame, ks') ∧ input = frame ++ rest.
Proof.
  intros Hm Hk Hi. split.
  - intros (? & ? & ? & ?)%recv_frame_inv; [|done..]. split_and!; [done..|]. by eexists.
  - intros (Hd & Hl & frame & Hs & ->). pose proof (recv_frame_seal mac_key ks data rest Hm Hd Hl) as E.
    by rewrite Hs in E.
Qed.

(** What the 16-bit length field does to a packet of 65536 bytes or more: the
    receiver reads only the length modulo 65536, and takes the 16 packet bytes
    that follow for the MAC. It reports a MAC failure (and the link ends) unless
    these bytes are the MAC of the truncated packet. *)
Theorem oversized_packet mac_key ks data rest :
  is_bytes mac_key → is_bytes data → 65536 <= Z.of_nat (length data) →
  let len := Z.to_nat (Z.of_nat (length data) mod 65536) in
  let ok := multigimli2 mac_key (take len data) = take 16 (drop len data) in
  let r := recv_frame mac_key ks ((seal mac_key ks data).1 ++ rest) in
  (¬ ok → r = Err "MAC verification failed")
  ∧ (ok → ∃ ks' rest', r = Ok (take len data, ks', rest')).
Proof.
  intros Hm Hd Hlen len ok r.
  assert (Hll : (len + 16 <= length data)%nat).
  { pose proof (Z.div_mod (Z.of_nat (length data)) 65536 ltac:(done)).
    pose proof (Z.div_le_lower_bound (Z.of_nat (length data)) 65536 1 ltac:(lia) ltac:(lia)). lia. }
  set (mac := multigimli2 mac_key data). set (hdr := to_le_bytes 2 (wrap 16 (Z.of_nat (length data)))).
  assert (Hh : from_le_bytes hdr = Z.of_nat (length data) mod 65536).
  { unfold hdr. rewrite from_to_le_bytes. change (8 * Z.of_nat 2) with 16.
    rewrite (wrap_small 16) by (done || by apply uint_wrap). by apply wrap_mod. }
  assert (Hs : (seal mac_key ks data).1 ++ rest =
    (xor_stream ks hdr).1 ++ (xor_stream (xor_stream ks hdr).2 (take len data)).1 ++
    (xor_stream (xor_stream (xor_stream ks hdr).2 (take len data)).2 (take 16 (drop len data))).1 ++
    ((xor_stream (xor_stream (xor_stream (xor_stream ks hdr).2 (take len data)).2 (take 16 (drop len data))).2
       (drop 16 (drop len data) ++ mac)).1 ++ rest)).
  { unfold seal. fold mac hdr.
    assert (data ++ mac = take len data ++ take 16 (drop len data) ++ drop 16 (drop len data) ++ mac) as ->.
    { by rewrite (app_assoc (take 16 _)), take_drop, app_assoc, take_drop. }
    rewrite !xor_stream_app. cbn [fst snd]. by rewrite <- !app_assoc. }
  unfold r, recv_frame. rewrite Hs.
  rewrite read_exact_app by (by rewrite length_xor_stream; unfold hdr; rewrite length_to_le_bytes).
  cbn [mbind result_bind]. rewrite xor_stream_involutive, Hh. fold len.
  rewrite read_exact_app by (rewrite length_xor_stream, length_take; lia). cbn [mbind result_bind].
  rewrite xor_stream_involutive.
  rewrite read_exact_app by (rewrite length_xor_stream, length_take, length_drop; lia). cbn [mbind result_bind].
  rewrite xor_stream_involutive. fold ok. split; intros Hok; case_decide; try done. eauto.
Qed.

(** *** The keystream *)

(** The reference construction: a sponge that has absorbed the length of the
    key and the key. *)
Definition keyed_sponge (key : bytes) : GimliState :=
  foldl absorb_block (absorb_block Gimli.new (to_le_bytes 8 (Z.of_nat (length key)))) (chunks RATE_BYTES key).

Lemma keyed_sponge_new key : gimli_state (new key) = keyed_sponge key.
Proof.
  unfold new, keyed_sponge, absorb_all, put_len, absorb_block. cbn [gimli_state]. reflexivity.
Qed.

(** C33. [KeystreamGen] is a stream cipher built on the sponge: encrypting is the
    XOR with the successive squeezed blocks of the sponge keyed with [key], one
    byte at a time or in pieces of any size, and a second keystream of the same
    key undoes it, however the pieces are cut on the other side. *)
Theorem keystream_is_sponge key a b :
  is_bytes key →
  (xor_stream (new key) (a ++ b)).1
    = xor_into (a ++ b) (squeeze_blocks (keyed_sponge key) (length (a ++ b) / RATE_BYTES + 1))
  ∧ (let '(ea, ks) := xor_stream (new key) a in
     let '(eb, ks) := xor_stream ks b in
     xor_stream (new key) (ea ++ eb) = (a ++ b, ks)).
Proof.
  intros Hk. pose proof (ks_new_wf key Hk) as [Hg _]. split.
  - set (data := a ++ b). rewrite <- keyed_sponge_new.
    destruct (new key) as [g k] eqn:E. assert (k = 0%nat) as -> by (by injection E).
    cbn [gimli_state] in *. rewrite (xor_stream_squeeze g 0 data (length data / 16)); [|done|lia|].
    + change RATE_BYTES with 16%nat. rewrite drop_0, (Nat.add_1_r (length data / 16)), squeeze_blocks_S. done.
    + pose proof (Nat.div_mod_eq (length data) 16). pose proof (Nat.mod_upper_bound (length data) 16 ltac:(done)). lia.
  - destruct (xor_stream (new key) a) as [ea ks] eqn:Ea. destruct (xor_stream ks b) as [eb ks'] eqn:Eb.
    pose proof (xor_stream_app (new key) a b) as E. rewrite Ea in E. cbn [fst snd] in E. rewrite Eb in E.
    cbn [fst snd] in E. pose proof (xor_stream_involutive (new key) (a ++ b)) as I. by rewrite E in I.
Qed.

(** ** The two loops of a link *)

Lemma send_task_cons_empty write_ok i mac_key ks ps :
  send_task write_ok i mac_key ks ([] :: ps) = send_task write_ok i mac_key ks ps.
Proof. reflexivity. Qed.

Lemma send_task_cons write_ok i mac_key ks p ps :
  p ≠ [] →
  send_task write_ok i mac_key ks (p :: ps) =
    if write_ok i
    then (seal mac_key ks p).1 :: send_task write_ok (S i) mac_key (seal mac_key ks p).2 ps else [].
Proof. intros Hp. cbn [send_task]. rewrite decide_False by done. by destruct (seal mac_key ks p). Qed.

(** When every write succeeds, the index of the packet does not matter. *)
Lemma send_task_index i j mac_key ks ps :
  send_task (λ _, true) i mac_key ks ps = send_task (λ _, true) j mac_key ks ps.
Proof.
  revert i j ks. induction ps as [|p ps IH]; intros i j ks; [done|].
  destruct (decide (p = [])) as [->|Hp]; [rewrite !send_task_cons_empty; apply IH|].
  rewrite !send_task_cons by done. f_equal. apply IH.
Qed.

(** A failed write only cuts the stream short. *)
Lemma send_task_prefix write_ok i mac_key ks ps :
  send_task write_ok i mac_key ks ps `prefix_of` send_task (λ _, true) i mac_key ks ps.
Proof.
  revert i ks. induction ps as [|p ps IH]; intros i ks; [done|].
  destruct (decide (p = [])) as [->|Hp]; [rewrite !send_task_cons_empty; apply IH|].
  rewrite !send_task_cons by done. destruct (write_ok i); [by apply prefix_cons|apply prefix_nil].
Qed.

(** The packets that arrive when the stream is cut after [n] bytes: those whose
    frame (18 bytes longer than the packet) is complete. *)
Fixpoint complete (n : nat) (ps : list bytes) : list bytes :=
  match ps with
  | [] => []
  | p :: ps =>
      if decide (p = []) then complete n ps
      else if decide (length p + 18 <= n)%nat then p :: complete (n - (length p + 18)) ps
      else []
  end.

Definition packet_ok (p : bytes) : Prop := is_bytes p ∧ Z.of_nat (length p) < 65536.
#[export] Instance packet_ok_dec p : Decision (packet_ok p).
Proof. unfold packet_ok. apply _. Defined.

Lemma complete_all n ps mac_key ks :
  is_bytes mac_key → Forall packet_ok ps →
  (length (concat (send_task (λ _, true) 0 mac_key ks ps)) <= n)%nat →
  complete n ps = filter (.≠ []) ps.
Proof.
  intros Hm Hps. revert n ks. induction Hps as [|p ps [Hb Hl] Hps IH]; intros n ks Hn; [done|].
  rewrite filter_cons. cbn [complete]. destruct (decide (p = [])) as [->|Hp].
  - rewrite (decide_False (P := [] ≠ [])) by tauto. rewrite send_task_cons_empty in Hn. by eapply IH.
  - rewrite (decide_True (P := p ≠ [])) by done. rewrite send_task_cons in Hn by done. cbn [concat] in Hn.
    rewrite length_app, length_seal in Hn by done. rewrite decide_True by lia. f_equal.
    eapply (IH _ (seal mac_key ks p).2). rewrite (send_task_index 0 1). lia.
Qed.

Section delivery.
Context {W I C : Type} `{!EqDecision I, mpsc : Mpsc W I (bytes * C), laws : !MpscLaws W I (bytes * C)}.

(** What the sending side puts in the world of the receiver: [ps] at the end of
    the node's queue, each with the link they came by; nothing else changes. *)
Definition received (incoming : I) (sender_tx : C) (ps : list bytes) (w w' : W) : Prop :=
  queued w' incoming = queued w incoming ++ ((λ p, (p, sender_tx)) <$> ps)
  ∧ (∀ c, c ≠ incoming → queued w' c = queued w c)
  ∧ (∀ c : I, is_open w' c = is_open w c).

Lemma received_nil incoming sender_tx w : received incoming sender_tx [] w w.
Proof. split_and!; [by rewrite app_nil_r|done|done]. Qed.

Lemma received_cons incoming sender_tx p ps w w' :
  is_open w incoming = true →
  received incoming sender_tx ps (unbounded_send incoming (p, sender_tx) w).2 w' →
  received incoming sender_tx (p :: ps) w w'.
Proof.
  intros Ho (Hq & Hne & Hop). destruct (send_open w incoming (p, sender_tx) Ho) as (_ & Hs & Hne' & Hop').
  split_and!.
  - rewrite Hq, Hs, <- app_assoc. done.
  - intros c Hc. rewrite Hne, Hne' by done. done.
  - intros c. by rewrite Hop, Hop'.
Qed.

Lemma recv_task_stream mac_key ks ps n fuel incoming sender_tx (w : W) :
  is_bytes mac_key → Forall packet_ok ps → is_open w incoming = true → (n < fuel)%nat →
  ∃ w', recv_task incoming sender_tx fuel mac_key ks
          (take n (concat (send_task (λ _, true) 0 mac_key ks ps))) w = Some (Err "read_exact", w')
      ∧ received incoming sender_tx (complete n ps) w w'.
Proof.
  intros Hm Hps. revert n fuel ks w. induction Hps as [|p ps [Hb Hl] Hps IH]; intros n fuel ks w Ho Hf.
  { exists w. cbn [send_task concat]. rewrite take_nil. destruct fuel; [lia|]. split; [done|apply received_nil]. }
  destruct (decide (p = [])) as [->|Hp].
  { rewrite send_task_cons_empty. cbn [complete]. rewrite decide_True by done. by apply IH. }
  rewrite send_task_cons by done. cbn [concat complete]. rewrite decide_False by done.
  pose proof (length_seal mac_key ks p Hm Hb) as Hlen. destruct fuel as [|fuel]; [lia|]. cbn [recv_task].
  destruct (decide (length p + 18 <= n)%nat) as [Hn|Hn].
  - rewrite take_app_ge, Hlen, recv_frame_seal by (done || lia).
    pose proof (send_result w incoming (p, sender_tx)) as Hres.
    pose proof (send_is_open w incoming (p, sender_tx) incoming) as Hopen.
    destruct (unbounded_send incoming (p, sender_tx) w) as [ok w1] eqn:Es. cbn [fst snd] in *.
    rewrite Hres, Ho in *. rewrite (send_task_index 1 0).
    destruct (IH (n - (length p + 18))%nat fuel (seal mac_key ks p).2 w1 Hopen ltac:(lia)) as (w' & E & Hr).
    exists w'. split; [exact E|]. apply received_cons; [done|]. by rewrite Es.
  - rewrite take_app_le by lia. rewrite recv_frame_cut by (done || lia).
    exists w. split; [done|apply received_nil].
Qed.

(** A link delivers a prefix of what was sent, in order, once, unmodified. The
    two ends stand at the same point of the same keys; the stream is cut after
    [n] bytes, by an error of the sender ([write_ok]), of the network, or a
    timeout. The receiver never rejects a frame, always returns (the fuel is
    not exhausted), appends to the node's queue exactly the packets whose frame
    is complete, and ends with the read error; the empty values of the cleaner
    never cross. Nothing is missing when the whole stream arrives. *)
Theorem link_delivers mac_key ks ps write_ok n incoming sender_tx (w : W) :
  is_bytes mac_key → Forall packet_ok ps → is_open w incoming = true →
  let wire := concat (send_task (λ _, true) 0 mac_key ks ps) in
  concat (send_task write_ok 0 mac_key ks ps) `prefix_of` wire
  ∧ (∃ w', recv_task incoming sender_tx (S n) mac_key ks (take n wire) w = Some (Err "read_exact", w')
         ∧ received incoming sender_tx (complete n ps) w w')
  ∧ ((length wire <= n)%nat → complete n ps = filter (.≠ []) ps).
Proof.
  intros Hm Hps Ho wire. split; [|split].
  - destruct (send_task_prefix write_ok 0 mac_key ks ps) as [l E]. unfold wire. rewrite E, concat_app.
    by apply prefix_app_r.
  - apply recv_task_stream; [done|done|done|lia].
  - by apply complete_all.
Qed.
(** The frames of [ds], one after the other, and the keystream after them. *)
Fixpoint seal_all (mac_key : bytes) (ks : KeystreamGen) (ds : list bytes) : bytes * KeystreamGen :=
  match ds with
  | [] => ([], ks)
  | d :: ds =>
      let '(frame, ks) := seal mac_key ks d in
      let '(frames, ks) := seal_all mac_key ks ds in
      (frame ++ frames, ks)
  end.

Lemma seal_all_snoc mac_key ks ds d :
  seal_all mac_key ks (ds ++ [d]) =
    ((seal_all mac_key ks ds).1 ++ (seal mac_key (seal_all mac_key ks ds).2 d).1, (seal mac_key (seal_all mac_key ks ds).2 d).2).
Proof.
  revert ks. induction ds as [|d' ds IH]; intros ks; cbn [app seal_all fst snd].
  - destruct (seal mac_key ks d). cbn. by rewrite app_nil_r.
  - destruct (seal mac_key ks d') as [f ks']. rewrite IH. destruct (seal_all mac_key ks' ds). cbn. by rewrite app_assoc.
Qed.

Lemma seal_wf mac_key ks d :
  is_bytes mac_key → ks_wf ks → is_bytes d → is_bytes (seal mac_key ks d).1 ∧ ks_wf (seal mac_key ks d).2.
Proof.
  intros Hm Hk Hd. apply xor_stream_wf; [done|]. apply list.Forall_app. split; [apply to_le_bytes_bytes|].
  apply list.Forall_app. split; [done|by apply multigimli2_wf].
Qed.

Lemma seal_all_wf mac_key ks ds :
  is_bytes mac_key → ks_wf ks → Forall packet_ok ds → ks_wf (seal_all mac_key ks ds).2.
Proof.
  intros Hm Hk Hds. revert ks Hk. induction Hds as [|d ds [Hd _] Hds IH]; intros ks Hk; [done|]. cbn [seal_all].
  destruct (seal_wf mac_key ks d Hm Hk Hd) as [_ Hw]. destruct (seal mac_key ks d) as [f ks'].
  specialize (IH ks' Hw). by destruct (seal_all mac_key ks' ds).
Qed.

(** What the receiving loop does with any bytes at all: it takes the longest
    run of frames sealed under its keys and stops at the first thing that is
    not one. *)
Definition authentic (mac_key : bytes) (ks : KeystreamGen) (input : bytes) (ds : list bytes) (r : result unit) : Prop :=
  ∃ rest why, input = (seal_all mac_key ks ds).1 ++ rest
    ∧ recv_frame mac_key (seal_all mac_key ks ds).2 rest = Err why ∧ r = Err why.

Lemma recv_task_authentic mac_key ks input fuel incoming sender_tx (w : W) :
  is_bytes mac_key → ks_wf ks → is_bytes input → is_open w incoming = true → (length input < fuel)%nat →
  ∃ ds r w', recv_task incoming sender_tx fuel mac_key ks input w = Some (r, w')
    ∧ received incoming sender_tx ds w w' ∧ authentic mac_key ks input ds r.
Proof.
  intros Hm. revert ks input w. induction fuel as [|fuel IH]; intros ks input w Hk Hi Ho Hf; [lia|].
  cbn [recv_task]. destruct (recv_frame mac_key ks input) as [[[d ks'] rest]|why] eqn:E.
  - destruct (recv_frame_inv _ _ _ _ _ _ Hm Hk Hi E) as (Hd & Hl & Hs & Hin).
    pose proof (send_result w incoming (d, sender_tx)) as Hres.
    pose proof (send_is_open w incoming (d, sender_tx) incoming) as Hopen.
    destruct (unbounded_send incoming (d, sender_tx) w) as [ok w1] eqn:Es. cbn [fst snd] in *.
    rewrite Hres, Ho in *.
    assert (Hk' : ks_wf ks').
    { assert (ks' = (seal mac_key ks d).2) as -> by (by rewrite Hs). by apply seal_wf. }
    assert (Hrest : is_bytes rest) by (rewrite Hin in Hi; by apply list.Forall_app in Hi as [_ ?]).
    destruct (IH ks' rest w1 Hk' Hrest Hopen) as (ds & r & w' & Hr & Hrec & rest' & why & Heq & Herr & ->).
    { apply (f_equal length) in Hin. rewrite length_app, length_seal in Hin by done. lia. }
    exists (d :: ds), (Err why), w'. split; [exact Hr|]. split; [apply received_cons; [done|by rewrite Es]|].
    exists rest', why. cbn [seal_all]. rewrite Hs. destruct (seal_all mac_key ks' ds) as [fs ks''].
    cbn [fst snd] in *. split_and!; [by rewrite <- app_assoc, <- Heq|done|done].
  - exists [], (Err why), w. split; [done|]. split; [apply received_nil|]. by exists input, why.
Qed.

(** The converse: a stream that is the frames of [ds] and then no frame is taken
    as [ds]. *)
Lemma authentic_recv_task mac_key ks input ds r fuel incoming sender_tx (w : W) :
  is_bytes mac_key → Forall packet_ok ds → is_open w incoming = true → (length input < fuel)%nat →
  authentic mac_key ks input ds r →
  ∃ w', recv_task incoming sender_tx fuel mac_key ks input w = Some (r, w') ∧ received incoming sender_tx ds w w'.
Proof.
  intros Hm Hds. revert ks input fuel w. induction Hds as [|d ds [Hd Hl] Hds IH]; intros ks input fuel w Ho Hf.
  - intros (rest & why & Hin & Herr & ->). cbn [seal_all fst snd app] in *. subst rest. destruct fuel; [lia|]. cbn [recv_task].
    rewrite Herr. exists w. split; [done|apply received_nil].
  - intros (rest & why & Hin & Herr & ->). cbn [seal_all] in Hin, Herr.
    pose proof (length_seal mac_key ks d Hm Hd) as Hlen. pose proof (recv_frame_seal mac_key ks d) as Hframe.
    destruct (seal mac_key ks d) as [f ks'] eqn:Hs. destruct (seal_all mac_key ks' ds) as [fs ks''] eqn:Ha. cbn [fst snd] in *.
    rewrite <- app_assoc in Hin. subst input. destruct fuel as [|fuel]; [lia|]. cbn [recv_task]. rewrite Hframe by done.
    pose proof (send_result w incoming (d, sender_tx)) as Hres.
    pose proof (send_is_open w incoming (d, sender_tx) incoming) as Hopen.
    destruct (unbounded_send incoming (d, sender_tx) w) as [ok w1] eqn:Es. cbn [fst snd] in *. rewrite Hres, Ho in *.
    rewrite length_app in Hf. destruct (IH ks' (fs ++ rest) fuel w1 Hopen ltac:(lia)) as (w' & E & Hr).
    { exists rest, why. by rewrite Ha. }
    exists w'. split; [exact E|]. apply received_cons; [done|]. by rewrite Es.
Qed.
End delivery.

(** ** Witnesses *)

Lemma keystream_is_sponge_witness :
  let key := str_bytes "key" in
  let a := str_bytes "attack at" in
  let b := str_bytes " dawn, bring rope" in
  (length (a ++ b) / RATE_BYTES + 1 = 2)%nat
  ∧ (xor_stream (new key) (a ++ b)).1
      = xor_into (a ++ b) (squeeze_blocks (keyed_sponge key) (length (a ++ b) / RATE_BYTES + 1)).
Proof.
  intros key a b. assert (Hk : is_bytes key) by (by repeat constructor).
  split; [reflexivity|]. 
  destruct (keystream_is_sponge key a b Hk) as [H _]. exact H.
Defined.

Lemma recv_accepts_sealed_witness :
  let mk := str_bytes "mac" in
  let ks := new (str_bytes "key") in
  let s := seal mk ks [1; 2; 3] in
  length s.1 = 21%nat ∧ recv_frame mk ks (s.1 ++ [7]) = Ok ([1; 2; 3], s.2, [7]).
Proof.
  intros mk ks s. split; [vm_compute; reflexivity|].
  assert (Hmk : is_bytes mk) by (by repeat constructor).
  assert (Hks : ks_wf ks) by (apply ks_new_wf; by repeat constructor).
  apply (recv_accepts_sealed mk ks (s.1 ++ [7]) [1; 2; 3] s.2 [7] Hmk Hks).
  - apply list.Forall_app. split; [|by repeat constructor].
    apply (bool_decide_unpack _). vm_compute. reflexivity.
  - split; [by repeat constructor|]. split; [reflexivity|]. exists s.1. split; [exact (surjective_pairing s)|done].
Defined.

(** Two packets with a probe between them, cut inside the second frame. *)
Lemma link_delivers_witness :
  let w : chan_store (bytes * nat) := {[0%nat := (true, [])]} in
  let ps := [[1; 2; 3]; []; [4; 5]] in
  complete 40 ps = [[1; 2; 3]]
  ∧ ∃ w', recv_task 0%nat 7%nat 41 (str_bytes "mac") (new (str_bytes "key"))
           (take 40 (concat (send_task (λ _, true) 0 (str_bytes "mac") (new (str_bytes "key")) ps))) w
           = Some (Err "read_exact", w')
       ∧ received 0%nat 7%nat (complete 40 ps) w w'.
Proof.
  intros w ps. split; [vm_compute; reflexivity|].
  assert (Hm : is_bytes (str_bytes "mac")) by (by repeat constructor).
  assert (Hps : Forall packet_ok ps) by (apply (bool_decide_unpack _); vm_compute; reflexivity).
  assert (Ho : is_open w 0%nat = true) by reflexivity.
  destruct (link_delivers (str_bytes "mac") (new (str_bytes "key")) ps (λ _, true) 40 0%nat 7%nat w Hm Hps Ho) as (_ & H & _).
  exact H.
Defined.

Lemma oversized_packet_witness :
  let data := replicate (Z.to_nat 65540) 7 in
  let r := recv_frame (str_bytes "mac") (new (str_bytes "key")) ((seal (str_bytes "mac") (new (str_bytes "key")) data).1 ++ []) in
  r = Err "MAC verification failed".
Proof.
  assert (Hl : length (replicate (Z.to_nat 65540) 7) = Z.to_nat 65540) by apply length_replicate.
  intros data r.
  assert (Hm : is_bytes (str_bytes "mac")) by (by repeat constructor).
  assert (H7 : u8 7) by (split; [discriminate|reflexivity]).
  pose proof (Forall_replicate (uint 8) (Z.to_nat 65540) 7 H7 : is_bytes data) as Hd.
  assert (Hlen : 65536 <= Z.of_nat (length data)) by (unfold data; rewrite Hl; lia).
  destruct (oversized_packet (str_bytes "mac") (new (str_bytes "key")) data [] Hm Hd Hlen) as [H _].
  apply H. vm_compute. discriminate.
Defined.
