(* ===== verification/LegacyTcp.v ===== *)
(** The links ([rust/src/legacy_tcp.rs]): the handshake, the two ends of a
    connection, and the loops that keep connecting and listening.

    The operating system is outside the model: [setup] is the result of opening
    the socket and setting its options, [io] the results of the writes of the
    handshake, [write_ok] those of the packets, [input] the bytes that arrive
    until the stream ends, fails or a read times out. A connection ends when
    either of its two loops does ([select2_noresult]); [packets] and [input] are
    what the loops have taken by then. *)
From S2P Require Import Prelude Gimli Rng IpAddr Channel AllSenders World Framing.

(** ** Keys *)

(** [iv.extend_from_slice(&rng::u64().to_le_bytes())], twice. *)
Definition draw_iv (RNG : Rng) : bytes * Rng :=
  let '(a, RNG) := Rng.u64 RNG in
  let '(b, RNG) := Rng.u64 RNG in
  (to_le_bytes 8 a ++ to_le_bytes 8 b, RNG).

Definition keyfinder (key iv : bytes) : bytes := multigimli3 key iv (str_bytes "keyfinder").
Definition enc_key (key iv : bytes) : bytes := multigimli3 key iv (str_bytes "enc_key").
Definition mac_key (key iv : bytes) : bytes := multigimli3 key iv (str_bytes "mac_key").

(** The first key of the list whose keyfinder is the one received. *)
Fixpoint find_key (keys : list bytes) (incoming_iv incoming_keyfinder : bytes) : option bytes :=
  match keys with
  | [] => None
  | key :: keys =>
      if decide (keyfinder key incoming_iv = incoming_keyfinder) then Some key
      else find_key keys incoming_iv incoming_keyfinder
  end.

(** ** The two ends of a connection *)

(** The writes of the iv and of the keyfinder and the flush: their result, and
    what has been written. *)
Definition send_hello (io : nat → result unit) (iv keyfinder : bytes) : result unit * list bytes :=
  match io 0%nat with
  | Err why => (Err why, [])
  | Ok _ =>
      match io 1%nat with
      | Err why => (Err why, [iv])
      | Ok _ => (io 2%nat, [iv; keyfinder])
      end
  end.

(** What is left of a connection that has ended: the function's result, that of
    its receiving loop if it got there, what was written, and the state of the
    generator and of the channels. *)
Record Ended (W : Type) := MkEnded {
  returned : result unit;
  recv_result : option (result unit);
  written : list bytes;
  RNG : Rng;
  channels : W;
}.
Arguments MkEnded {_} _ _ _ _ _.
Arguments returned {_} _. Arguments recv_result {_} _. Arguments written {_} _.
Arguments RNG {_} _. Arguments channels {_} _.

Section link.
Context {W C I S : Type}.
Context `{mpsc_in : Mpsc W I (bytes * C), mpsc_sw : Mpsc W S (AllSendersMessage C),
          mpsc_c : Mpsc W C bytes, mpsc_new : !MpscNew W C bytes}.
Context (all_senders : AllSenders S).

(** The receiving task of [connect_impl]: the peer's half of the handshake, then
    the loop. *)
Definition connect_recv_task (incoming : I) (sender_tx : C) (fuel : nat) (key input : bytes) (w : W)
    : option (result unit * W) :=
  match read_exact 16 input with
  | Err why => Some (Err why, w)
  | Ok (recv_iv, input) =>
      let expected_keyfinder := keyfinder key recv_iv in
      match read_exact 16 input with
      | Err why => Some (Err why, w)
      | Ok (recv_keyfinder, input) =>
          if decide (expected_keyfinder ≠ recv_keyfinder) then Some (Err "Got incorrect keyfinder", w)
          else recv_task incoming sender_tx fuel (mac_key key recv_iv) (Framing.new (enc_key key recv_iv)) input w
      end
  end.

Definition connect_impl (setup : result unit) (io : nat → result unit) (write_ok : nat → bool)
    (key : bytes) (incoming : I) (fuel : nat) (packets : list bytes) (input : bytes)
    (RNG : Rng) (w : W) : option (Ended W) :=
  match setup with
  | Err why => Some (MkEnded (Err why) None [] RNG w)
  | Ok _ =>
      let '(sender_iv, RNG) := draw_iv RNG in
      match send_hello io sender_iv (keyfinder key sender_iv) with
      | (Err why, hello) => Some (MkEnded (Err why) None hello RNG w)
      | (Ok _, hello) =>
          let '(sender_tx, w) := unbounded w in
          let w := AllSenders.add all_senders sender_tx w in
          let sent := send_task write_ok 0 (mac_key key sender_iv) (Framing.new (enc_key key sender_iv)) packets in
          '(r, w) ← connect_recv_task incoming sender_tx fuel key input w;
          Some (MkEnded (Ok tt) (Some r) (hello ++ sent) RNG w)
      end
  end.

Definition handle_connection (setup : result unit) (io : nat → result unit) (write_ok : nat → bool)
    (keys : list bytes) (incoming : I) (fuel : nat) (packets : list bytes) (input : bytes)
    (RNG : Rng) (w : W) : option (Ended W) :=
  let fail why := Some (MkEnded (Err why) None [] RNG w) in
  match setup with
  | Err why => fail why
  | Ok _ =>
      match read_exact 16 input with
      | Err why => fail why
      | Ok (incoming_iv, input) =>
          match read_exact 16 input with
          | Err why => fail why
          | Ok (incoming_keyfinder, input) =>
              match find_key keys incoming_iv incoming_keyfinder with
              | None => fail "Got incorrect keyfinder"
              | Some found_key =>
                  let '(send_iv, RNG) := draw_iv RNG in
                  match send_hello io send_iv (keyfinder found_key send_iv) with
                  | (Err why, hello) => Some (MkEnded (Err why) None hello RNG w)
                  | (Ok _, hello) =>
                      let '(sender_tx, w) := unbounded w in
                      let w := AllSenders.add all_senders sender_tx w in
                      let sent := send_task write_ok 0 (mac_key found_key send_iv)
                                    (Framing.new (enc_key found_key send_iv)) packets in
                      '(r, w) ← recv_task incoming sender_tx fuel (mac_key found_key incoming_iv)
                                  (Framing.new (enc_key found_key incoming_iv)) input w;
                      Some (MkEnded (Ok tt) (Some r) (hello ++ sent) RNG w)
                  end
              end
          end
      end
  end.

(** ** The loops around them *)

(** What one attempt of [create_connection] meets. *)
Record Attempt := MkAttempt {
  setup : result unit;
  io : nat → result unit;
  write_ok : nat → bool;
  packets : list bytes;
  input : bytes;
}.

(** The task of [create_connection], for the attempts so far: the result of an
    attempt is only printed, and the next one follows after a delay. *)
Fixpoint create_connection (key : bytes) (incoming : I) (fuel : nat) (attempts : list Attempt)
    (RNG : Rng) (w : W) : option (list (result unit) * Rng * W) :=
  match attempts with
  | [] => Some ([], RNG, w)
  | a :: attempts =>
      r ← connect_impl (setup a) (io a) (write_ok a) key incoming fuel (packets a) (input a) RNG w;
      (* [rng::uniform()] for the delay *)
      let '(_, RNG) := Rng.u64 (LegacyTcp.RNG r) in
      '(rs, RNG, w) ← create_connection key incoming fuel attempts RNG (channels r);
      Some (returned r :: rs, RNG, w)
  end.
End link.

(** What the listening loop sees: [fd_wait_readable], [accept] and
    [fd_make_nonblocking] on the accepted socket. *)
Inductive Accept :=
| WaitFailed
| AcceptFailed
| Accepted (fd : nat) (nonblocking : result unit).

(** [listener_impl], for the events so far: the connections for which
    [handle_connection] has been spawned, and the error it returned, if it did. *)
Fixpoint accept_loop (events : list Accept) : list nat * option string :=
  match events with
  | [] => ([], None)
  | WaitFailed :: events | AcceptFailed :: events => accept_loop events
  | Accepted fd (Err why) :: _ => ([], Some why)
  | Accepted fd (Ok _) :: events => let '(fds, r) := accept_loop events in (fd :: fds, r)
  end.

Definition listener_impl (setup : result unit) (events : list Accept) : list nat * option string :=
  match setup with
  | Err why => ([], Some why)
  | Ok _ => accept_loop events
  end.

(** The task of [listener]: it starts again, after a delay, when [listener_impl]
    returns. *)
Definition listener (runs : list (result unit * list Accept)) : list nat :=
  concat ((λ '(setup, events), (listener_impl setup events).1) <$> runs).

(** ** Lemmas on the handshake *)

#[local] Opaque permute.

Lemma draw_iv_ok RNG : is_bytes (draw_iv RNG).1 ∧ length (draw_iv RNG).1 = 16%nat.
Proof.
  unfold draw_iv. destruct (Rng.u64 RNG) as [a RNG1]. destruct (Rng.u64 RNG1) as [b RNG2]. cbn [fst].
  split; [apply list.Forall_app; split; apply to_le_bytes_bytes|].
  by rewrite length_app, !length_to_le_bytes.
Qed.

Lemma str_bytes_ok s : is_bytes (str_bytes s).
Proof.
  unfold str_bytes. apply Forall_fmap, Forall_true. intros c. cbn. split; [lia|].
  pose proof (Ascii.N_ascii_bounded c). change (2 ^ 8) with 256. lia.
Qed.

Lemma keyfinder_ok key iv : is_bytes key → is_bytes iv → is_bytes (keyfinder key iv) ∧ length (keyfinder key iv) = 16%nat.
Proof. intros. apply multigimli3_wf; [done|done|apply str_bytes_ok]. Qed.

Lemma enc_key_ok key iv : is_bytes key → is_bytes iv → is_bytes (enc_key key iv).
Proof. intros. apply multigimli3_wf; [done|done|apply str_bytes_ok]. Qed.

Lemma mac_key_ok key iv : is_bytes key → is_bytes iv → is_bytes (mac_key key iv).
Proof. intros. apply multigimli3_wf; [done|done|apply str_bytes_ok]. Qed.

#[local] Opaque keyfinder enc_key mac_key.

Lemma find_key_Some keys iv kf key :
  find_key keys iv kf = Some key ↔
  ∃ before after, keys = before ++ key :: after ∧ keyfinder key iv = kf
    ∧ Forall (λ k, keyfinder k iv ≠ kf) before.
Proof.
  induction keys as [|k keys IH]; cbn [find_key].
  { split; [done|]. by intros (before & after & ?%app_cons_not_nil & _). }
  case_decide as Hk.
  - split.
    + intros [= <-]. by exists [], keys.
    + intros (before & after & E & Hkf & Hb). destruct before as [|b before]; [injection E as -> _; reflexivity|].
      injection E as -> _. apply list.Forall_cons in Hb as [Hb _]. destruct (Hb Hk).
  - rewrite IH. split.
    + intros (before & after & -> & Hkf & Hb). exists (k :: before), after. split_and!; [reflexivity|assumption|by constructor].
    + intros (before & after & E & Hkf & Hb). destruct before as [|b before]; [injection E as -> _; destruct (Hk Hkf)|].
      injection E as -> ->. apply list.Forall_cons in Hb as [_ ?]. exists before, after. split_and!; [reflexivity|assumption|assumption].
Qed.

Lemma find_key_None keys iv kf : find_key keys iv kf = None ↔ ∀ key, key ∈ keys → keyfinder key iv ≠ kf.
Proof.
  induction keys as [|k keys IH]; cbn [find_key].
  { split; [|done]. intros _ key Hin. by apply elem_of_nil in Hin. }
  case_decide as Hk.
  - split; [done|]. intros H. destruct (H k (list_elem_of_here _ _) Hk).
  - rewrite IH. split; [|intros H key ?; apply H; by apply elem_of_cons; right].
    intros H key [->|Hin]%elem_of_cons; [done|by apply H].
Qed.

(** ** The stream of one end

    What the end with generator [RNG] that sends [ps] puts on the wire under
    [key], when nothing fails. *)
Definition wire (key : bytes) (RNG : Rng) (ps : list bytes) : bytes :=
  let iv := (draw_iv RNG).1 in
  iv ++ keyfinder key iv ++
    concat (send_task (λ _, true) 0 (mac_key key iv) (Framing.new (enc_key key iv)) ps).

Lemma take_hello (n : nat) (a b c : bytes) :
  length a = 16%nat → length b = 16%nat → take (32 + n) (a ++ b ++ c) = a ++ b ++ take n c.
Proof.
  intros Ha Hb. rewrite take_app_ge by lia. rewrite take_app_ge by lia. rewrite Ha, Hb.
  by replace (32 + n - 16 - 16)%nat with n by lia.
Qed.

Lemma take_wire key RNG ps n :
  is_bytes key →
  take (32 + n) (wire key RNG ps) =
    (draw_iv RNG).1 ++ keyfinder key (draw_iv RNG).1 ++
      take n (concat (send_task (λ _, true) 0 (mac_key key (draw_iv RNG).1)
                        (Framing.new (enc_key key (draw_iv RNG).1)) ps)).
Proof.
  intros Hk. destruct (draw_iv_ok RNG) as [Hb Hl]. apply take_hello; [done|]. by apply keyfinder_ok.
Qed.

Lemma send_hello_ok iv kf : send_hello (λ _, Ok tt) iv kf = (Ok tt, [iv; kf]).
Proof. reflexivity. Qed.

(** What an end writes is a prefix of its stream. *)
Lemma written_prefix key RNG write_ok ps :
  concat ([(draw_iv RNG).1; keyfinder key (draw_iv RNG).1] ++
    send_task write_ok 0 (mac_key key (draw_iv RNG).1) (Framing.new (enc_key key (draw_iv RNG).1)) ps)
  `prefix_of` wire key RNG ps.
Proof.
  cbn [app concat]. unfold wire. do 2 apply prefix_app.
  destruct (send_task_prefix write_ok 0 (mac_key key (draw_iv RNG).1) (Framing.new (enc_key key (draw_iv RNG).1)) ps)
    as [l ->]. rewrite concat_app. by apply prefix_app_r.
Qed.

Section spec.
Context {W C I S : Type} `{!EqDecision I, !EqDecision S}.
Context `{mpsc_in : Mpsc W I (bytes * C), laws_in : !MpscLaws W I (bytes * C)}.
Context `{mpsc_sw : Mpsc W S (AllSendersMessage C), laws_sw : !MpscLaws W S (AllSendersMessage C)}.
Context `{mpsc_c : Mpsc W C bytes, mpsc_new : !MpscNew W C bytes}.
Context `{!MpscFrame W S (AllSendersMessage C) I (bytes * C), !MpscFrame W I (bytes * C) S (AllSendersMessage C)}.
Context `{!MpscNewFrame W C bytes I (bytes * C), !MpscNewFrame W C bytes S (AllSendersMessage C)}.
Context (all_senders : AllSenders S).
Implicit Types (w : W) (RNG : Rng).

(** What a link that came up has done to the node: it has registered its sender
    with the switchboard, and put [ds] in the node's queue, tagged with it. *)
Definition linked (incoming : I) (ds : list bytes) (w w' : W) : Prop :=
  queued w' incoming = queued w incoming ++ ((λ d, (d, (unbounded w).1)) <$> ds)
  ∧ queued w' (sender all_senders) =
      queued w (sender all_senders) ++
        (if is_open w (sender all_senders) then [AddSender (unbounded w).1] else [])
  ∧ is_open w' incoming = is_open w incoming
  ∧ is_open w' (sender all_senders) = is_open w (sender all_senders).

(** The world in which the loops of a new link start. *)
Definition link_world (w : W) : W := AllSenders.add all_senders (unbounded w).1 (unbounded w).2.

Lemma link_world_open w (incoming : I) : is_open (link_world w) incoming = is_open w incoming.
Proof. unfold link_world, AllSenders.add. by rewrite frame_open, new_frame_open. Qed.

Lemma recv_task_frame (incoming : I) sender_tx fuel mac_key ks input w r w' (c : S) :
  recv_task incoming sender_tx fuel mac_key ks input w = Some (r, w') →
  queued w' c = queued w c ∧ is_open w' c = is_open w c.
Proof.
  revert ks input w. induction fuel as [|fuel IH]; intros ks input w; cbn [recv_task]; [done|].
  destruct (recv_frame mac_key ks input) as [[[d ks'] rest]|why]; [|by intros [= <- <-]].
  pose proof (frame_queued w incoming (d, sender_tx) c) as Hq.
  pose proof (frame_open w incoming (d, sender_tx) c) as Ho.
  destruct (unbounded_send incoming (d, sender_tx) w) as [[] w1]; cbn [snd] in *.
  - intros [-> ->]%IH. done.
  - by intros [= <- <-].
Qed.

Lemma received_linked (incoming : I) ds fuel mac_key ks input w r w' :
  recv_task incoming (unbounded w).1 fuel mac_key ks input (link_world w) = Some (r, w') →
  received incoming (unbounded w).1 ds (link_world w) w' → linked incoming ds w w'.
Proof.
  intros Hrun (Hq & _ & Ho). destruct (recv_task_frame _ _ _ _ _ _ _ _ _ (sender all_senders) Hrun) as [Hs Hso].
  unfold linked, link_world, AllSenders.add in *. rewrite Hq, Hs, Ho, Hso.
  rewrite frame_queued, frame_open, new_frame_queued, new_frame_open.
  rewrite send_queued, send_is_open, !new_frame_queued, !new_frame_open. rewrite decide_True by done. done.
Qed.

(** The receiving loop of an end on the stream of the other end. *)
Lemma recv_wire (incoming : I) key RNG ps n fuel w :
  is_bytes key → Forall packet_ok ps → is_open w incoming = true → (n < fuel)%nat →
  let iv := (draw_iv RNG).1 in
  ∃ w', recv_task incoming (unbounded w).1 fuel (mac_key key iv) (Framing.new (enc_key key iv))
          (take n (concat (send_task (λ _, true) 0 (mac_key key iv) (Framing.new (enc_key key iv)) ps)))
          (link_world w) = Some (Err "read_exact", w')
      ∧ linked incoming (complete n ps) w w'.
Proof.
  intros Hk Hps Ho Hf iv. destruct (draw_iv_ok RNG) as [Hiv _].
  destruct (recv_task_stream (mac_key key iv) (Framing.new (enc_key key iv)) ps n fuel incoming (unbounded w).1
              (link_world w)) as (w' & Hr & Hrec); [by apply mac_key_ok|done|by rewrite link_world_open|done|].
  exists w'. split; [exact Hr|]. by eapply received_linked.
Qed.

(** [connect_impl] on the stream of any end that holds the key. *)
Lemma connect_wire write_ok key incoming n ps packets RNG RNG' w :
  is_bytes key → Forall packet_ok packets → is_open w incoming = true →
  ∃ e, connect_impl all_senders (Ok tt) (λ _, Ok tt) write_ok key incoming (Datatypes.S n) ps
         (take (32 + n) (wire key RNG' packets)) RNG w = Some e
     ∧ linked incoming (complete n packets) w (channels e)
     ∧ recv_result e = Some (Err "read_exact") ∧ returned e = Ok tt
     ∧ concat (written e) `prefix_of` wire key RNG ps.
Proof.
  intros Hk Hps Ho. destruct (draw_iv_ok RNG') as [Hb' Hl'].
  destruct (recv_wire incoming key RNG' packets n (Datatypes.S n) w Hk Hps Ho ltac:(lia)) as (w' & Hr & Hlink).
  pose proof (written_prefix key RNG write_ok ps) as Hw.
  rewrite take_wire by done. unfold connect_impl. destruct (draw_iv RNG) as [iv RNG1]. cbn [fst] in *.
  rewrite send_hello_ok. destruct (unbounded w) as [tx w1] eqn:Enew. unfold connect_recv_task.
  rewrite read_exact_app by done. rewrite read_exact_app by (by apply keyfinder_ok).
  rewrite decide_False by (intros HH; by apply HH).
  unfold link_world in Hr. rewrite Enew in Hr. cbn [fst snd] in Hr. rewrite Hr. cbn [mbind option_bind].
  eexists. split; [reflexivity|]. cbn [channels recv_result returned written]. split_and!; done.
Qed.

Lemma handle_wire write_ok key keys incoming n ps packets RNG RNG' w :
  is_bytes key → Forall packet_ok packets → is_open w incoming = true →
  find_key keys (draw_iv RNG').1 (keyfinder key (draw_iv RNG').1) = Some key →
  ∃ e, handle_connection all_senders (Ok tt) (λ _, Ok tt) write_ok keys incoming (Datatypes.S n) ps
         (take (32 + n) (wire key RNG' packets)) RNG w = Some e
     ∧ linked incoming (complete n packets) w (channels e)
     ∧ recv_result e = Some (Err "read_exact") ∧ returned e = Ok tt
     ∧ concat (written e) `prefix_of` wire key RNG ps.
Proof.
  intros Hk Hps Ho Hfind. destruct (draw_iv_ok RNG') as [Hb' Hl'].
  destruct (recv_wire incoming key RNG' packets n (Datatypes.S n) w Hk Hps Ho ltac:(lia)) as (w' & Hr & Hlink).
  pose proof (written_prefix key RNG write_ok ps) as Hw.
  rewrite take_wire by done. unfold handle_connection.
  rewrite read_exact_app by done. rewrite read_exact_app by (by apply keyfinder_ok). rewrite Hfind.
  destruct (draw_iv RNG) as [iv RNG1]. cbn [fst] in *.
  rewrite send_hello_ok. destruct (unbounded w) as [tx w1] eqn:Enew.
  unfold link_world in Hr. rewrite Enew in Hr. cbn [fst snd] in Hr. rewrite Hr. cbn [mbind option_bind].
  eexists. split; [reflexivity|]. cbn [channels recv_result returned written]. split_and!; done.
Qed.

(** C6. Two nodes that share a key get a working link. The server finds the
    client's key among its own; then both ends compute each other's session
    keys, each writes a prefix of its stream, each registers the link with its
    switchboard, and each delivers to its node exactly the packets of the other
    whose frames are complete in the [n] (or [m]) bytes that arrive after the
    handshake, in order. *)
Theorem link_end_to_end key keys client_rng server_rng pc ps wo_c wo_s n m inc_c inc_s wc ws :
  is_bytes key → Forall packet_ok pc → Forall packet_ok ps →
  is_open wc inc_c = true → is_open ws inc_s = true →
  find_key keys (draw_iv client_rng).1 (keyfinder key (draw_iv client_rng).1) = Some key →
  ∃ client server,
    connect_impl all_senders (Ok tt) (λ _, Ok tt) wo_c key inc_c (Datatypes.S m) pc
      (take (32 + m) (wire key server_rng ps)) client_rng wc = Some client
    ∧ handle_connection all_senders (Ok tt) (λ _, Ok tt) wo_s keys inc_s (Datatypes.S n) ps
        (take (32 + n) (wire key client_rng pc)) server_rng ws = Some server
    ∧ concat (written client) `prefix_of` wire key client_rng pc
    ∧ concat (written server) `prefix_of` wire key server_rng ps
    ∧ linked inc_c (complete m ps) wc (channels client)
    ∧ linked inc_s (complete n pc) ws (channels server).
Proof.
  intros Hk Hpc Hps Hc Hs Hfind.
  destruct (connect_wire wo_c key inc_c m pc ps client_rng server_rng wc) as (client & ? & ? & _ & _ & ?); [done..|].
  destruct (handle_wire wo_s key keys inc_s n ps pc server_rng client_rng ws) as (server & ? & ? & _ & _ & ?); [done..|].
  exists client, server. by split_and!.
Qed.

(** C31. The client does not tell its peer from itself. A peer that knows no key
    and sends back every byte it receives passes the handshake, and each packet
    the client sends comes back into its own node as a packet of that link:
    neither the keyfinder nor the session keys depend on the direction. *)
Theorem connect_reflection key RNG ps write_ok n incoming w :
  is_bytes key → Forall packet_ok ps → is_open w incoming = true →
  ∃ e, connect_impl all_senders (Ok tt) (λ _, Ok tt) write_ok key incoming (Datatypes.S n) ps
         (take (32 + n) (wire key RNG ps)) RNG w = Some e
     ∧ concat (written e) `prefix_of` wire key RNG ps
     ∧ recv_result e = Some (Err "read_exact")
     ∧ linked incoming (complete n ps) w (channels e).
Proof.
  intros Hk Hps Ho. destruct (connect_wire write_ok key incoming n ps ps RNG RNG w Hk Hps Ho)
    as (e & ? & ? & ? & _ & ?). exists e. by split_and!.
Qed.

Lemma authentic_linked key iv input fuel (incoming : I) w :
  is_bytes key → is_bytes iv → is_bytes input → is_open w incoming = true → (length input < fuel)%nat →
  ∃ ds r w', recv_task incoming (unbounded w).1 fuel (mac_key key iv) (Framing.new (enc_key key iv)) input
               (link_world w) = Some (r, w')
    ∧ linked incoming ds w w' ∧ authentic (mac_key key iv) (Framing.new (enc_key key iv)) input ds r.
Proof.
  intros Hk Hiv Hi Ho Hf.
  destruct (recv_task_authentic (mac_key key iv) (Framing.new (enc_key key iv)) input fuel incoming (unbounded w).1
    (link_world w)) as (ds & r & w' & Hr & Hrec & Ha); [by apply mac_key_ok|by apply ks_new_wf, enc_key_ok|done| |done|].
  { by rewrite link_world_open. }
  exists ds, r, w'. split; [exact Hr|]. split; [by eapply received_linked|exact Ha].
Qed.

(** C20. What a listening node does with any bytes at all. Without 32 of them whose
    second half is the keyfinder of a key of the list for the first half, the
    connection ends with an error and nothing has happened: nothing is written,
    no link registered, no packet delivered, no random number drawn. With them,
    the node delivers the longest run of frames sealed under the session keys of
    the first such key, and nothing else, then ends. *)
Theorem handle_connection_authenticates write_ok keys incoming packets iv kf rest RNG w :
  Forall is_bytes keys → is_bytes (iv ++ kf ++ rest) → length iv = 16%nat → length kf = 16%nat →
  is_open w incoming = true →
  let run input := handle_connection all_senders (Ok tt) (λ _, Ok tt) write_ok keys incoming
                     (Datatypes.S (length input)) packets input RNG w in
  (∀ input, (length input < 32)%nat → run input = Some (MkEnded (Err "read_exact") None [] RNG w))
  ∧ ((∀ key, key ∈ keys → keyfinder key iv ≠ kf) →
     run (iv ++ kf ++ rest) = Some (MkEnded (Err "Got incorrect keyfinder") None [] RNG w))
  ∧ (∀ key, find_key keys iv kf = Some key →
     ∃ e ds r, run (iv ++ kf ++ rest) = Some e ∧ returned e = Ok tt ∧ recv_result e = Some r
       ∧ linked incoming ds w (channels e)
       ∧ authentic (mac_key key iv) (Framing.new (enc_key key iv)) rest ds r).
Proof.
  intros Hks Hb Hiv Hkf Ho run. unfold run, handle_connection. split; [|split].
  - intros input Hlen. destruct (read_exact 16 input) as [[a b]|why] eqn:E.
    + apply read_exact_inv in E as [-> Ha]. rewrite length_app in Hlen.
      by rewrite (read_exact_short 16 b) by lia.
    + unfold read_exact in E. case_decide; [done|]. by injection E as <-.
  - intros Hnone%find_key_None. by rewrite !read_exact_app, Hnone by done.
  - intros key Hfind. rewrite !read_exact_app, Hfind by done.
    apply list.Forall_app in Hb as [Hbiv [_ Hbr]%list.Forall_app].
    assert (Hk : is_bytes key).
    { apply find_key_Some in Hfind as (before & after & -> & _). by apply list.Forall_app in Hks as [_ [? _]%list.Forall_cons]. }
    destruct (draw_iv RNG) as [iv' RNG']. rewrite send_hello_ok.
    destruct (authentic_linked key iv rest (Datatypes.S (length (iv ++ kf ++ rest))) incoming w) as (ds & r & w' & Hr & Hl & Ha);
      [done..|rewrite !length_app; lia|].
    unfold link_world in Hr. destruct (unbounded w) as [tx w1] eqn:Enew. cbn [fst snd] in Hr.
    rewrite Hr. cbn [mbind option_bind].
    eexists _, ds, r. split; [reflexivity|]. cbn [returned recv_result channels]. by split_and!.
Qed.

Lemma connect_impl_registers a key incoming fuel RNG w :
  is_open w incoming = true → (length (input a) < fuel)%nat → is_bytes key → is_bytes (input a) →
  let up := bool_decide (setup a = Ok tt ∧ (send_hello (io a) [] []).1 = Ok tt) in
  ∃ e, connect_impl all_senders (setup a) (io a) (write_ok a) key incoming fuel (packets a) (input a) RNG w = Some e
    ∧ is_open (channels e) incoming = true
    ∧ is_open (channels e) (sender all_senders) = is_open w (sender all_senders)
    ∧ queued (channels e) (sender all_senders) = queued w (sender all_senders) ++
        (if up && is_open w (sender all_senders) then [AddSender (unbounded w).1] else [])
    ∧ (returned e = Ok tt ↔ up = true).
Proof.
  intros Ho Hf Hk Hb. cbn zeta. unfold connect_impl. destruct (setup a) as [[]|why].
  2:{ rewrite bool_decide_eq_false_2 by (by intros [? _]). eexists. split; [done|]. cbn. rewrite app_nil_r. by split_and!. }
  destruct (draw_iv RNG) as [iv RNG1].
  assert (Hh : ∀ iv kf, (send_hello (io a) iv kf).1 = (send_hello (io a) [] []).1).
  { intros. unfold send_hello. by destruct (io a 0%nat), (io a 1%nat). }
  specialize (Hh iv (keyfinder key iv)). destruct (send_hello (io a) iv _) as [[[]|why] hello]; cbn [fst] in Hh; rewrite <- Hh.
  2:{ rewrite bool_decide_eq_false_2 by (by intros [_ ?]). eexists. split; [done|]. cbn. rewrite app_nil_r. by split_and!. }
  rewrite bool_decide_eq_true_2 by done. cbn [andb].
  assert (Hlw : ∃ r w', connect_recv_task incoming (unbounded w).1 fuel key (input a) (link_world w) = Some (r, w')
    ∧ ∃ ds, linked incoming ds w w').
  { assert (Hnil : linked incoming [] w (link_world w)).
    { unfold linked, link_world, AllSenders.add. rewrite frame_queued, frame_open, new_frame_queued, new_frame_open.
      rewrite send_queued, send_is_open, !new_frame_queued, !new_frame_open, decide_True by done.
      by rewrite app_nil_r. }
    unfold connect_recv_task. destruct (read_exact 16 (input a)) as [[riv rest]|] eqn:E1; [|eexists _, _; eauto].
    apply read_exact_inv in E1 as [E1 Hl1]. destruct (read_exact 16 rest) as [[rkf rest']|] eqn:E2; [|eexists _, _; eauto].
    apply read_exact_inv in E2 as [E2 Hl2]. case_decide; [eexists _, _; eauto|].
    rewrite E1, E2 in Hb, Hf. rewrite !length_app in Hf.
    apply list.Forall_app in Hb as [? [_ ?]%list.Forall_app].
    destruct (authentic_linked key riv rest' fuel incoming w) as (ds & r & w' & Hr & Hl & _); [done..|lia|]. eauto 6. }
  destruct Hlw as (r & w' & Hr & ds & Hl). unfold link_world in Hr. destruct (unbounded w) as [tx w1] eqn:Enew.
  cbn [fst snd] in Hr. rewrite Hr. cbn [mbind option_bind]. eexists. split; [reflexivity|].
  destruct Hl as (_ & H1 & H2 & H3). cbn [channels returned]. rewrite Enew in H1. cbn [fst] in H1.
  split_and!; [by rewrite H2|done|exact H1|done].
Qed.

(** Whether an attempt gets as far as sending its half of the handshake. *)
Definition comes_up (a : Attempt) : bool :=
  bool_decide (setup a = Ok tt ∧ (send_hello (io a) [] []).1 = Ok tt).

(** The connecting task never gives up and never gets stuck: whatever the
    attempts meet, each one ends and the next one follows, and the switchboard
    gets exactly one new link from every attempt that could send its half of the
    handshake (before the peer has proved that it knows the key), none from the
    others. *)
Theorem create_connection_retries key incoming fuel attempts RNG w :
  is_bytes key → is_open w incoming = true → is_open w (sender all_senders) = true →
  Forall (λ a, is_bytes (input a) ∧ (length (input a) < fuel)%nat) attempts →
  ∃ rs RNG' w' links,
    create_connection all_senders key incoming fuel attempts RNG w = Some (rs, RNG', w')
    ∧ (λ r, bool_decide (r = Ok tt)) <$> rs = comes_up <$> attempts
    ∧ queued w' (sender all_senders) = queued w (sender all_senders) ++ (AddSender <$> links)
    ∧ length links = length (filter (λ a, comes_up a = true) attempts).
Proof.
  intros Hk Ho Hs Hall. revert RNG w Ho Hs. induction Hall as [|a attempts [Hb Hf] Hall IH]; intros RNG w Ho Hs.
  { exists [], RNG, w, []. cbn. by rewrite app_nil_r. }
  destruct (connect_impl_registers a key incoming fuel RNG w Ho Hf Hk Hb) as (e & He & Ho' & Hs' & Hq & Hret).
  cbn zeta in *. fold (comes_up a) in *. cbn [create_connection]. rewrite He. cbn [mbind option_bind].
  destruct (Rng.u64 (LegacyTcp.RNG e)) as [v RNG1]. rewrite Hs in Hs', Hq. rewrite andb_true_r in Hq.
  destruct (IH RNG1 (channels e) Ho' Hs') as (rs & RNG' & w' & links & Hc & Hrs & Hlq & Hll). rewrite Hc.
  cbn [mbind option_bind].
  exists (returned e :: rs), RNG', w', ((if comes_up a then [(unbounded w).1] else []) ++ links).
  split_and!; [done| | |].
  - rewrite !fmap_cons, Hrs. f_equal. destruct (comes_up a); [by apply bool_decide_eq_true_2, Hret|].
    apply bool_decide_eq_false_2. by intros ?%Hret.
  - rewrite Hlq, Hq, fmap_app, <- app_assoc. by destruct (comes_up a).
  - rewrite filter_cons, length_app, Hll. destruct (comes_up a); [by rewrite decide_True|by rewrite decide_False].
Qed.
End spec.

(** ** Witnesses

    A node whose switchboard is channel 0 and whose own queue is channel 0. *)
Definition example_world : world := MkWorld ∅ {[0%nat := (true, [])]} {[0%nat := (true, [])]} ∅.
Definition example_switch : AllSenders switch_tx := MkAllSenders (Switch 0).
Definition example_key : bytes := str_bytes "long-random-secret".

Lemma example_key_ok : is_bytes example_key.
Proof. apply str_bytes_ok. Qed.

Lemma example_packets_ok : Forall packet_ok [[1; 2; 3]; []; [4; 5]].
Proof. apply (bool_decide_unpack _). vm_compute. reflexivity. Qed.

Lemma example_finds : find_key [str_bytes "other"; example_key] (draw_iv Rng.new).1
  (keyfinder example_key (draw_iv Rng.new).1) = Some example_key.
Proof. vm_compute. reflexivity. Qed.

Lemma link_end_to_end_witness :
  let pc := [[1; 2; 3]; []; [4; 5]] in
  complete 40 pc = [[1; 2; 3]]
  ∧ ∃ client server,
    connect_impl example_switch (Ok tt) (λ _, Ok tt) (λ _, true) example_key (Incoming 0) 101 pc
      (take (32 + 100) (wire example_key (Rng.absorb Rng.new [1]) [[7]])) Rng.new example_world = Some client
    ∧ handle_connection example_switch (Ok tt) (λ _, Ok tt) (λ _, true) [str_bytes "other"; example_key] (Incoming 0) 41
        [[7]] (take (32 + 40) (wire example_key Rng.new pc)) (Rng.absorb Rng.new [1]) example_world = Some server
    ∧ concat (written client) `prefix_of` wire example_key Rng.new pc
    ∧ concat (written server) `prefix_of` wire example_key (Rng.absorb Rng.new [1]) [[7]]
    ∧ linked example_switch (Incoming 0) (complete 100 [[7]]) example_world (channels client)
    ∧ linked example_switch (Incoming 0) (complete 40 pc) example_world (channels server).
Proof.
  intros pc. split; [vm_compute; reflexivity|].
  assert (H7 : Forall packet_ok [[7]]) by (apply (bool_decide_unpack _); vm_compute; reflexivity).
  assert (Ho : is_open example_world (Incoming 0) = true) by reflexivity.
  exact (link_end_to_end example_switch example_key [str_bytes "other"; example_key] Rng.new (Rng.absorb Rng.new [1])
    pc [[7]] (λ _, true) (λ _, true) 40 100 (Incoming 0) (Incoming 0) example_world example_world
    example_key_ok example_packets_ok H7 Ho Ho example_finds).
Defined.

Lemma connect_reflection_witness :
  let ps := [[1; 2; 3]; []; [4; 5]] in
  complete 100 ps = [[1; 2; 3]; [4; 5]]
  ∧ ∃ e, connect_impl example_switch (Ok tt) (λ _, Ok tt) (λ _, true) example_key (Incoming 0) 101 ps
           (take (32 + 100) (wire example_key Rng.new ps)) Rng.new example_world = Some e
       ∧ concat (written e) `prefix_of` wire example_key Rng.new ps
       ∧ recv_result e = Some (Err "read_exact")
       ∧ linked example_switch (Incoming 0) (complete 100 ps) example_world (channels e).
Proof.
  intros ps. split; [vm_compute; reflexivity|].
  assert (Ho : is_open example_world (Incoming 0) = true) by reflexivity.
  exact (connect_reflection example_switch example_key Rng.new ps (λ _, true) 100 (Incoming 0) example_world
    example_key_ok example_packets_ok Ho).
Defined.

(** A peer that sends zeros is turned away. *)
Lemma handle_connection_authenticates_witness :
  handle_connection example_switch (Ok tt) (λ _, Ok tt) (λ _, true) [example_key] (Incoming 0) 34 []
    (replicate 16 0 ++ replicate 16 0 ++ [1]) Rng.new example_world
  = Some (MkEnded (Err "Got incorrect keyfinder") None [] Rng.new example_world).
Proof.
  assert (Hks : Forall is_bytes [example_key]) by (constructor; [exact example_key_ok|constructor]).
  assert (Hb : is_bytes (replicate 16 0 ++ replicate 16 0 ++ [1])) by (apply (bool_decide_unpack _); vm_compute; reflexivity).
  assert (Ho : is_open example_world (Incoming 0) = true) by reflexivity.
  destruct (handle_connection_authenticates example_switch (λ _, true) [example_key] (Incoming 0) []
    (replicate 16 0) (replicate 16 0) [1] Rng.new example_world Hks Hb eq_refl eq_refl Ho) as (_ & H & _).
  apply H. intros key ->%list_elem_of_singleton. vm_compute. discriminate.
Defined.

(** Three attempts: no socket, a peer that closes at once, a failed write. *)
Lemma create_connection_retries_witness :
  let attempts := [MkAttempt (Err "connect") (λ _, Ok tt) (λ _, true) [] [];
                   MkAttempt (Ok tt) (λ _, Ok tt) (λ _, true) [] [];
                   MkAttempt (Ok tt) (λ i, if decide (i = 1%nat) then Err "write_all" else Ok tt) (λ _, true) [] []] in
  comes_up <$> attempts = [false; true; false]
  ∧ ∃ rs RNG' w' links,
    create_connection example_switch example_key (Incoming 0) 1 attempts Rng.new example_world = Some (rs, RNG', w')
    ∧ (λ r, bool_decide (r = Ok tt)) <$> rs = comes_up <$> attempts
    ∧ queued w' (Switch 0) = queued example_world (Switch 0) ++ (AddSender <$> links)
    ∧ length links = length (filter (λ a, comes_up a = true) attempts).
Proof.
  intros attempts. split; [vm_compute; reflexivity|].
  apply (create_connection_retries example_switch example_key (Incoming 0) 1 attempts Rng.new example_world);
    [exact example_key_ok|reflexivity|reflexivity|].
  repeat constructor.
Defined.
