(* ===== verification/MeshNode.v ===== *)
(** The mesh node ([rust/src/main.rs]): the packets it announces, what it does
    with a packet that arrives on a link, and the command line's small commands.

    The node talks to the switchboard, to the TUN interface and to the route
    creator through their queues ([Channel]); [rustc_hash::FxHasher] is the
    parameter [fx_hash] of [SeenPackets]. The clock ([millis()]) is an argument. *)
From S2P Require Import Prelude Utf8 Gimli Rng IpAddr SeenPackets Channel AllSenders World.

(** ** Packets the node originates *)

(** The body of the announcement loops. *)
Definition name_announcement (millis : Z) (node_name : bytes) : bytes :=
  to_le_bytes 8 millis ++ [0] ++ node_name.
Definition ipv4_announcement (millis : Z) (addr : bytes) : bytes :=
  to_le_bytes 8 millis ++ [2] ++ addr.

(** [addr.split(".").map(|x| x.parse::<u8>().unwrap()).collect()]. *)
Fixpoint parse_octets (pieces : list bytes) : outcome bytes :=
  match pieces with
  | [] => mret []
  | p :: pieces =>
      match parse_u8 p with
      | None => Panic "called `Result::unwrap()` on an `Err` value"
      | Some b => bs ← parse_octets pieces; mret (b :: bs)
      end
  end.
Definition parse_ipv4 (addr : bytes) : outcome bytes := parse_octets (split_on 46 addr).

(** [IpAddr::V4(addr[0], addr[1], addr[2], addr[3])]. *)
Definition ipv4_of_octets (addr : bytes) : outcome IpAddr :=
  a ← index addr 0; b ← index addr 1; c ← index addr 2; d ← index addr 3; mret (V4 a b c d).

(** The loop over [config["ipv4_addresses"]]: the addresses added to [our_ips],
    and the octets each announcing task carries. *)
Fixpoint own_ipv4s (addrs : list bytes) : outcome (list (IpAddr * bytes)) :=
  match addrs with
  | [] => mret []
  | s :: addrs =>
      octets ← parse_ipv4 s;
      addr ← ipv4_of_octets octets;
      rest ← own_ipv4s addrs;
      mret ((addr, octets) :: rest)
  end.

(** ** The packets the node receives *)

(** The local variables of the receiving loop of [run_meshnode]. *)
Record Node (C R : Type) := MkNode {
  our_ips : gset IpAddr;
  seen_packets : SeenPackets;
  tun_sender : option C;
  route_adder : option R;
}.
Arguments MkNode {_ _} _ _ _ _.
Arguments our_ips {_ _} _. Arguments seen_packets {_ _} _.
Arguments tun_sender {_ _} _. Arguments route_adder {_ _} _.

Definition IGNORE_AFTER : Z := 1000 * 60 * 3.

Section node.
Context (fx_hash : bytes → Z).
Context {W C R S : Type}.
Context `{mpsc_c : Mpsc W C bytes, mpsc_r : Mpsc W R IpAddr, mpsc_s : Mpsc W S (AllSendersMessage C)}.
Context (all_senders : AllSenders S).

(** [sender.unbounded_send(value).unwrap()]. *)
Definition send_unwrap {D A} `{Mpsc W D A} (sender : D) (value : A) (w : W) : outcome W :=
  let '(ok, w) := unbounded_send sender value w in
  if ok then mret w else Panic "called `Result::unwrap()` on an `Err` value".

(** [if let Some(route_adder) = &route_adder { .. }]. *)
Definition add_route (st : Node C R) (addr : IpAddr) (w : W) : outcome W :=
  match route_adder st with
  | Some route_adder => send_unwrap route_adder addr w
  | None => mret w
  end.

(** Command 0: a node's name. [None]: the search of [from_node_name] is still
    running after [fuel] steps. *)
Definition handle_name (fuel : nat) (st : Node C R) (ms : Z) (data orig_data : bytes) (_sender : C) (w : W)
    : option (outcome W) :=
  if from_utf8 data then
    addr ← from_node_name fuel data;
    Some (let w := add_fastest_to all_senders ms addr _sender w in
          w ← add_route st addr w;
          Ret (send_all all_senders orig_data w))
  else Some (Ret (send_all all_senders orig_data w)).

(** Commands 1 and 2: a claimed address, once its length has been checked. *)
Definition handle_claim (st : Node C R) (ms : Z) (addr : IpAddr) (orig_data : bytes) (_sender : C) (w : W)
    : outcome W :=
  let w := add_fastest_to all_senders ms addr _sender w in
  let w := send_all all_senders orig_data w in
  add_route st addr w.

(** What becomes of an IP packet for [target_addr]: handed to the TUN interface if
    the address is ours, else passed on along the best route. *)
Definition deliver (st : Node C R) (target_addr : IpAddr) (data orig_data : bytes) (w : W) : outcome W :=
  if bool_decide (target_addr ∈ our_ips st) then
    match tun_sender st with
    | Some sender => send_unwrap sender data w
    | None => mret w
    end
  else mret (send_to_fastest all_senders target_addr orig_data w).

(** Command 3: an IP packet. *)
Definition handle_ip (st : Node C R) (data orig_data : bytes) (w : W) : outcome W :=
  b0 ← index data 0;
  let ip_version := Z.shiftr (Z.land b0 0xF0) 4 in
  if ip_version =? 4 then
    buf ← slice data 16 20;
    target_addr ← ipv4_from_buf buf;
    deliver st target_addr data orig_data w
  else if ip_version =? 6 then
    buf ← slice data 24 40;
    target_addr ← ipv6_from_buf buf;
    deliver st target_addr data orig_data w
  else mret w.

Definition handle_command (fuel : nat) (st : Node C R) (ms cmd : Z) (data orig_data : bytes) (_sender : C) (w : W)
    : option (outcome W) :=
  if cmd =? 0 then handle_name fuel st ms data orig_data _sender w
  else if cmd =? 1 then
    Some (if decide (length data ≠ 16%nat) then mret w
          else addr ← ipv6_from_buf data; handle_claim st ms addr orig_data _sender w)
  else if cmd =? 2 then
    Some (if decide (length data ≠ 4%nat) then mret w
          else addr ← ipv4_from_buf data; handle_claim st ms addr orig_data _sender w)
  else if cmd =? 3 then Some (handle_ip st data orig_data w)
  else Some (Ret w).

(** One iteration of the receiving loop, on [(data, _sender)]. *)
Definition handle_packet (fuel : nat) (current : Z) (st : Node C R) (data : bytes) (_sender : C) (w : W)
    : option (outcome (Node C R * W)) :=
  if decide (length data < 9)%nat then Some (Ret (st, w)) else
  let ms := from_le_bytes (take 8 data) in
  if decide (abs_diff current ms > IGNORE_AFTER) then Some (Ret (st, w)) else
  match SeenPackets.add fx_hash (seen_packets st) data with
  | Panic why => Some (Panic why)
  | Ret (seen, seen_packets) =>
      let st := MkNode (our_ips st) seen_packets (tun_sender st) (route_adder st) in
      if (seen : bool) then Some (Ret (st, w)) else
      let orig_data := data in
      let cmd := data !!! 8%nat in
      let data := drop 9 data in
      match handle_command fuel st ms cmd data orig_data _sender w with
      | None => None
      | Some r => Some (w ← r; Ret (st, w))
      end
  end.

(** The loop, on the packets received so far and the times they are handled. *)
Fixpoint receive (fuel : nat) (st : Node C R) (packets : list (Z * bytes * C)) (w : W)
    : option (outcome (Node C R * W)) :=
  match packets with
  | [] => Some (Ret (st, w))
  | (current, data, _sender) :: packets =>
      match handle_packet fuel current st data _sender w with
      | None => None
      | Some (Panic why) => Some (Panic why)
      | Some (Ret (st, w)) => receive fuel st packets w
      end
  end.

(** The periodic tasks, one iteration each. *)
Definition cleaner_step (w : W) : W := clean_broken_senders all_senders w.
Definition announce_name_step (millis : Z) (node_name : bytes) (w : W) : W :=
  send_all all_senders (name_announcement millis node_name) w.
Definition announce_ipv4_step (millis : Z) (addr : bytes) (w : W) : W :=
  send_all all_senders (ipv4_announcement millis addr) w.
End node.

(** The state in which the loop of [run_meshnode] starts. *)
Definition run_meshnode_init {C R : Type} (fuel : nat) (node_name : bytes) (ipv4_addresses : list bytes)
    (tun_sender : option C) (route_adder : option R) : option (outcome (Node C R)) :=
  node_ip ← from_node_name fuel node_name;
  Some (ips ← own_ipv4s ipv4_addresses;
        Ret (MkNode (list_to_set (node_ip :: (fst <$> ips))) (SeenPackets.new (Z.to_nat 16384))
                tun_sender route_adder)).

(** *** The configured links

    An entry of [config["transports"]], as the accessors of the JSON library
    show it: [None] where [as_str] or [as_u64] gives nothing. *)
Record Transport := MkTransport {
  ty : option bytes;
  host : option bytes;
  port : option Z;
  key : option bytes;
  keys : list (option bytes);
}.

(** The calls of [create_connection] and [listener]. *)
Inductive LinkTask :=
| CreateConnection (host : bytes) (port : Z) (key : bytes)
| Listener (port : Z) (keys : list bytes).

Definition unwrap {A} (o : option A) : outcome A :=
  match o with Some a => mret a | None => Panic "called `Option::unwrap()` on a `None` value" end.

Fixpoint connect_transports (ts : list Transport) : outcome (list LinkTask) :=
  match ts with
  | [] => mret []
  | t :: ts =>
      ty ← unwrap (ty t);
      if decide (ty ≠ str_bytes "legacy_tcp_connect") then connect_transports ts else
      host ← unwrap (host t);
      port ← unwrap (port t);
      key ← unwrap (key t);
      rest ← connect_transports ts;
      mret (CreateConnection host (wrap 16 port) key :: rest)
  end.

Fixpoint unwrap_all (os : list (option bytes)) : outcome (list bytes) :=
  match os with
  | [] => mret []
  | o :: os => a ← unwrap o; rest ← unwrap_all os; mret (a :: rest)
  end.

Fixpoint listen_transports (ts : list Transport) : outcome (list LinkTask) :=
  match ts with
  | [] => mret []
  | t :: ts =>
      ty ← unwrap (ty t);
      if decide (ty ≠ str_bytes "legacy_tcp_listen") then listen_transports ts else
      port ← unwrap (port t);
      keys ← unwrap_all (keys t);
      rest ← listen_transports ts;
      mret (Listener (wrap 16 port) keys :: rest)
  end.

(** The two loops, one after the other. *)
Definition start_transports (ts : list Transport) : outcome (list LinkTask) :=
  cs ← connect_transports ts; ls ← listen_transports ts; mret (cs ++ ls).

(** ** The small commands *)

Definition make_random_ipv4 (RNG : Rng) : IpAddr * Rng :=
  let '(a, RNG) := Rng.u64 RNG in let '(b, RNG) := Rng.u64 RNG in
  let '(c, RNG) := Rng.u64 RNG in let '(d, RNG) := Rng.u64 RNG in
  (V4 (Z.land a 0xFF) (Z.land b 0xFF) (Z.land c 0xFF) (Z.land d 0xFF), RNG).

(** [n] words, in the order in which the arguments are evaluated. *)
Fixpoint draw_bytes (n : nat) (RNG : Rng) : bytes * Rng :=
  match n with
  | O => ([], RNG)
  | Datatypes.S n =>
      let '(a, RNG) := Rng.u64 RNG in
      let '(bs, RNG) := draw_bytes n RNG in
      (Z.land a 0xFF :: bs, RNG)
  end.

Definition make_random_ipv6 (RNG : Rng) : IpAddr * Rng :=
  let '(r, RNG) := draw_bytes 14 RNG in
  (V6 0xfd 0x00 (r !!! 0%nat) (r !!! 1%nat) (r !!! 2%nat) (r !!! 3%nat) (r !!! 4%nat) (r !!! 5%nat)
     (r !!! 6%nat) (r !!! 7%nat) (r !!! 8%nat) (r !!! 9%nat) (r !!! 10%nat) (r !!! 11%nat)
     (r !!! 12%nat) (r !!! 13%nat), RNG).

Definition run_name_to_ipv6 (fuel : nat) (args : list bytes) : option (outcome string) :=
  match args with
  | [] => Some (Panic "called `Option::unwrap()` on a `None` value")
  | node_name :: _ => ipv6 ← from_node_name fuel node_name; Some (Ret (fmt ipv6))
  end.

(** ** What the node promises

    A packet, decoded: what its command byte and payload mean. *)
Inductive Body :=
| Announce (addr : IpAddr)              (* the sender can reach [addr] *)
| BadName                               (* a name that is not UTF-8 *)
| Traffic (dst : IpAddr) (ip : bytes)   (* an IP packet for [dst] *)
| Truncated                             (* an IP packet without its addresses *)
| Noise.                                (* anything else *)

(** The destination of an IP packet, by the layout of its header. *)
Definition decode_ip (payload : bytes) : Body :=
  match payload with
  | [] => Truncated
  | b0 :: _ =>
      let version := b0 / 16 in
      let field (i n : nat) := if decide (i + n <= length payload)%nat then of_octets (take n (drop i payload)) else None in
      if version =? 4 then from_option (λ dst, Traffic dst payload) Truncated (field 16%nat 4%nat)
      else if version =? 6 then from_option (λ dst, Traffic dst payload) Truncated (field 24%nat 16%nat)
      else Noise
  end.

(** [None]: a name whose address takes more than [fuel] steps to find. *)
Definition decode (fuel : nat) (cmd : Z) (payload : bytes) : option Body :=
  if cmd =? 0 then if from_utf8 payload then Announce <$> from_node_name fuel payload else Some BadName
  else if cmd =? 1 then
    Some (if decide (length payload = 16%nat) then from_option Announce Noise (of_octets payload) else Noise)
  else if cmd =? 2 then
    Some (if decide (length payload = 4%nat) then from_option Announce Noise (of_octets payload) else Noise)
  else if cmd =? 3 then Some (decode_ip payload)
  else Some Noise.

(** What the node puts in the queues of the switchboard, of the route creator
    and of the TUN interface. *)
Record Effects (C : Type) := MkEffects {
  to_switch : list (AllSendersMessage C);
  to_routes : list IpAddr;
  to_tun : list bytes;
}.
Arguments MkEffects {_} _ _ _.
Arguments to_switch {_} _. Arguments to_routes {_} _. Arguments to_tun {_} _.

Definition then_ {C} (e f : Effects C) : Effects C :=
  MkEffects (to_switch e ++ to_switch f) (to_routes e ++ to_routes f) (to_tun e ++ to_tun f).

Definition effects {C R} (st : Node C R) (ms : Z) (body : Body) (orig : bytes) (link : C) : Effects C :=
  match body with
  | Announce addr => MkEffects [AddFastestTo ms addr link; SendToAll orig] [addr] []
  | BadName => MkEffects [SendToAll orig] [] []
  | Traffic dst ip =>
      if bool_decide (dst ∈ our_ips st) then MkEffects [] [] [ip] else MkEffects [SendToFastest dst orig] [] []
  | Truncated | Noise => MkEffects [] [] []
  end.

Lemma decode_det f f' cmd payload b b' : decode f cmd payload = Some b → decode f' cmd payload = Some b' → b = b'.
Proof.
  unfold decode. destruct (cmd =? 0); [destruct (from_utf8 payload)|].
  - destruct (from_node_name f payload) as [a|] eqn:E; [|done]. destruct (from_node_name f' payload) as [a'|] eqn:E'; [|done].
    rewrite (from_node_name_det _ _ _ _ _ E E'). by intros [= <-] [= <-].
  - congruence.
  - destruct (cmd =? 1); [|destruct (cmd =? 2); [|destruct (cmd =? 3)]]; congruence.
Qed.

Lemma of_octets_octets addr : of_octets (octets addr) = Some addr.
Proof. by destruct addr. Qed.

Lemma ipv4_from_buf_of_octets buf :
  length buf = 4%nat → ∃ dst, ipv4_from_buf buf = Ret dst ∧ of_octets buf = Some dst.
Proof.
  intros Hl. destruct (ipv4_from_buf_ok buf Hl) as [dst Hd]. exists dst. split; [done|].
  apply ipv4_from_buf_inv in Hd as [_ <-]. apply of_octets_octets.
Qed.

Lemma ipv6_from_buf_of_octets buf :
  length buf = 16%nat → ∃ dst, ipv6_from_buf buf = Ret dst ∧ of_octets buf = Some dst.
Proof.
  intros Hl. destruct (ipv6_from_buf_ok buf Hl) as [dst Hd]. exists dst. split; [done|].
  apply ipv6_from_buf_inv in Hd as [_ <-]. apply of_octets_octets.
Qed.

Lemma high_nibble b : u8 b → Z.shiftr (Z.land b 0xF0) 4 = b / 16.
Proof.
  intros Hb. apply Z.eqb_eq. revert b Hb.
  apply (forall_bytes (λ b, Z.shiftr (Z.land b 0xF0) 4 =? b / 16)). vm_compute. reflexivity.
Qed.

Section spec.
Context (fx_hash : bytes → Z).
Context {W C R S : Type} `{!EqDecision C, !EqDecision R, !EqDecision S}.
Context `{mpsc_c : Mpsc W C bytes, laws_c : !MpscLaws W C bytes}.
Context `{mpsc_r : Mpsc W R IpAddr, laws_r : !MpscLaws W R IpAddr}.
Context `{mpsc_s : Mpsc W S (AllSendersMessage C), laws_s : !MpscLaws W S (AllSendersMessage C)}.
Context `{!MpscFrame W S (AllSendersMessage C) C bytes, !MpscFrame W S (AllSendersMessage C) R IpAddr}.
Context `{!MpscFrame W R IpAddr C bytes, !MpscFrame W R IpAddr S (AllSendersMessage C)}.
Context `{!MpscFrame W C bytes R IpAddr, !MpscFrame W C bytes S (AllSendersMessage C)}.
Context (all_senders : AllSenders S).
Implicit Types (st : Node C R) (w : W) (e : Effects C).

(** The tasks at the other end of the node's queues are running. *)
Definition channels_open st w : Prop :=
  is_open w (sender all_senders) = true
  ∧ (∀ r, route_adder st = Some r → is_open w r = true)
  ∧ (∀ c, tun_sender st = Some c → is_open w c = true).

(** The queues of [w'] are those of [w] and the effects; in particular no link's
    queue has changed: only the switchboard sends on links. *)
Definition performs st e w w' : Prop :=
  queued w' (sender all_senders) = queued w (sender all_senders) ++ to_switch e
  ∧ (∀ r, queued w' r = queued w r ++ if decide (route_adder st = Some r) then to_routes e else [])
  ∧ (∀ c, queued w' c = queued w c ++ if decide (tun_sender st = Some c) then to_tun e else [])
  ∧ (channels_open st w → channels_open st w').

Lemma performs_nothing st w : performs st (MkEffects [] [] []) w w.
Proof. split_and!; [by rewrite app_nil_r|intros; case_decide; by rewrite app_nil_r..|done]. Qed.

Lemma performs_then st e f w w' w'' :
  performs st e w w' → performs st f w' w'' → performs st (then_ e f) w w''.
Proof.
  intros (A1 & A2 & A3 & A4) (B1 & B2 & B3 & B4). split_and!.
  - by rewrite B1, A1, <- app_assoc.
  - intros r. rewrite B2, A2, <- app_assoc. by case_decide.
  - intros c. rewrite B3, A3, <- app_assoc. by case_decide.
  - auto.
Qed.

Lemma performs_switch st m w :
  channels_open st w → performs st (MkEffects [m] [] []) w (unbounded_send (sender all_senders) m w).2.
Proof.
  intros (Ho & _). split_and!.
  - by rewrite send_queued, decide_True, Ho by done.
  - intros r. rewrite frame_queued. case_decide; by rewrite app_nil_r.
  - intros c. rewrite frame_queued. case_decide; by rewrite app_nil_r.
  - intros (H1 & H2 & H3). split_and!; [by rewrite send_is_open|intros; rewrite frame_open; auto..].
Qed.

Lemma add_route_performs st addr w :
  channels_open st w →
  ∃ w', add_route st addr w = Ret w' ∧ performs st (MkEffects [] [addr] []) w w'.
Proof.
  intros (_ & Hr & _). unfold add_route, send_unwrap. destruct (route_adder st) as [r|] eqn:E.
  - pose proof (send_result w r addr) as Hres. rewrite (Hr r eq_refl) in Hres.
    pose proof (send_queued w r addr) as Hq. rewrite (Hr r eq_refl) in Hq.
    pose proof (send_is_open w r addr) as Ho. pose proof (frame_queued w r addr (C' := C)) as Hfc.
    pose proof (frame_queued w r addr (C' := S)) as Hfs. pose proof (frame_open w r addr (C' := C)) as Hoc.
    pose proof (frame_open w r addr (C' := S)) as Hos.
    destruct (unbounded_send r addr w) as [ok w']. cbn [fst snd] in *. subst ok. exists w'. split; [done|].
    split_and!.
    + by rewrite Hfs, app_nil_r.
    + intros r'. rewrite Hq. rewrite E. cbn [to_routes]. f_equal. destruct (decide (r' = r)) as [->|Hne].
      * by rewrite decide_True.
      * rewrite decide_False by congruence. done.
    + intros c. rewrite Hfc. case_decide; by rewrite app_nil_r.
    + intros (H1 & H2 & H3). split_and!; [by rewrite Hos|intros; rewrite Ho; auto|intros; rewrite Hoc; auto].
  - exists w. split; [done|]. split_and!; [by rewrite app_nil_r| | |done].
    + intros r. rewrite E, decide_False by done. by rewrite app_nil_r.
    + intros c. case_decide; by rewrite app_nil_r.
Qed.

Lemma deliver_performs st dst data orig link ms w :
  channels_open st w →
  ∃ w', deliver all_senders st dst data orig w = Ret w' ∧
    performs st (effects st ms (Traffic dst data) orig link) w w'.
Proof.
  intros Hopen. unfold deliver. cbn [effects]. destruct (bool_decide (dst ∈ our_ips st)).
  2:{ eexists. split; [reflexivity|]. by apply performs_switch. }
  destruct Hopen as (_ & _ & Hc). destruct (tun_sender st) as [t|] eqn:E.
  - unfold send_unwrap. pose proof (send_result w t data) as Hres. rewrite (Hc t eq_refl) in Hres.
    pose proof (send_queued w t data) as Hq. rewrite (Hc t eq_refl) in Hq.
    pose proof (send_is_open w t data) as Ho. pose proof (frame_queued w t data (C' := R)) as Hfr.
    pose proof (frame_queued w t data (C' := S)) as Hfs. pose proof (frame_open w t data (C' := R)) as Hor.
    pose proof (frame_open w t data (C' := S)) as Hos.
    destruct (unbounded_send t data w) as [ok w']. cbn [fst snd] in *. subst ok. exists w'. split; [done|].
    split_and!.
    + by rewrite Hfs, app_nil_r.
    + intros r. rewrite Hfr. case_decide; by rewrite app_nil_r.
    + intros c. rewrite Hq, E. f_equal. destruct (decide (c = t)) as [->|Hne].
      * by rewrite decide_True.
      * rewrite decide_False by congruence. done.
    + intros (H1 & H2 & H3). split_and!; [by rewrite Hos|intros; rewrite Hor; auto|intros; rewrite Ho; auto].
  - exists w. split; [done|]. split_and!; [by rewrite app_nil_r| | |done].
    + intros r. case_decide; by rewrite app_nil_r.
    + intros c. rewrite E, decide_False by done. by rewrite app_nil_r.
Qed.

Lemma handle_claim_performs st ms addr orig link w :
  channels_open st w →
  ∃ w', handle_claim all_senders st ms addr orig link w = Ret w' ∧
    performs st (effects st ms (Announce addr) orig link) w w'.
Proof.
  intros Hopen. unfold handle_claim.
  pose proof (performs_switch st (AddFastestTo ms addr link) w Hopen) as P1.
  pose proof (performs_switch st (SendToAll orig) _ (proj2 (proj2 (proj2 P1)) Hopen)) as P2.
  destruct (add_route_performs st addr _ (proj2 (proj2 (proj2 P2)) (proj2 (proj2 (proj2 P1)) Hopen))) as (w' & Hw & P3).
  exists w'. split; [exact Hw|]. exact (performs_then _ _ _ _ _ _ P1 (performs_then _ _ _ _ _ _ P2 P3)).
Qed.

Lemma handle_name_performs fuel st ms data orig link w :
  channels_open st w →
  match decode fuel 0 data with
  | None => handle_name all_senders fuel st ms data orig link w = None
  | Some body => ∃ w', handle_name all_senders fuel st ms data orig link w = Some (Ret w') ∧
                   performs st (effects st ms body orig link) w w'
  end.
Proof.
  intros Hopen. unfold decode, handle_name. cbn [Z.eqb]. destruct (from_utf8 data).
  2:{ eexists. split; [reflexivity|]. by apply (performs_switch st (SendToAll orig) w). }
  destruct (from_node_name fuel data) as [addr|]; [|done]. cbn [fmap option_fmap option_map mbind option_bind].
  pose proof (performs_switch st (AddFastestTo ms addr link) w Hopen) as P1.
  destruct (add_route_performs st addr _ (proj2 (proj2 (proj2 P1)) Hopen)) as (w' & Hw & P2).
  pose proof (performs_switch st (SendToAll orig) w' (proj2 (proj2 (proj2 P2)) (proj2 (proj2 (proj2 P1)) Hopen))) as P3.
  unfold add_fastest_to. rewrite Hw. cbn [mbind outcome_bind]. eexists. split; [reflexivity|].
  exact (performs_then _ _ _ _ _ _ P1 (performs_then _ _ _ _ _ _ P2 P3)).
Qed.

Lemma handle_ip_performs st ms data orig link w :
  is_bytes data → channels_open st w →
  match decode_ip data with
  | Truncated => ∃ why, handle_ip all_senders st data orig w = Panic why
  | body => ∃ w', handle_ip all_senders st data orig w = Ret w' ∧ performs st (effects st ms body orig link) w w'
  end.
Proof.
  intros Hb Hopen. unfold handle_ip, decode_ip, index. destruct data as [|b0 rest]; [by eexists|].
  set (data := b0 :: rest) in *. cbn [lookup list_lookup mbind outcome_bind].
  change (data !! 0%nat) with (Some b0). cbv beta iota. cbn [mbind outcome_bind].
  rewrite (high_nibble b0) by (by apply list.Forall_cons in Hb as [? _]).
  destruct (Z.eqb_spec (b0 / 16) 4); [|destruct (Z.eqb_spec (b0 / 16) 6)].
  - unfold slice. destruct (decide (16 <= 20 ∧ 20 <= length data)%nat) as [Hl|Hl].
    + cbn [mbind outcome_bind]. rewrite decide_True by lia. change (20 - 16)%nat with 4%nat.
      destruct (ipv4_from_buf_of_octets (take 4 (drop 16 data))) as (dst & -> & ->); [rewrite length_take, length_drop; lia|].
      cbn [mbind outcome_bind from_option]. by apply deliver_performs.
    + rewrite decide_False by lia. by eexists.
  - unfold slice. destruct (decide (24 <= 40 ∧ 40 <= length data)%nat) as [Hl|Hl].
    + cbn [mbind outcome_bind]. rewrite decide_True by lia. change (40 - 24)%nat with 16%nat.
      destruct (ipv6_from_buf_of_octets (take 16 (drop 24 data))) as (dst & -> & ->); [rewrite length_take, length_drop; lia|].
      cbn [mbind outcome_bind from_option]. by apply deliver_performs.
    + rewrite decide_False by lia. by eexists.
  - exists w. split; [done|]. apply performs_nothing.
Qed.

(** Which packets get past the guards of the loop. *)
Definition accepts (current : Z) st (data : bytes) : Prop :=
  (9 <= length data)%nat ∧ abs_diff current (from_le_bytes (take 8 data)) <= IGNORE_AFTER
  ∧ contains fx_hash (seen_packets st) data = false.

Definition remember st (seen : SeenPackets) : Node C R :=
  MkNode (our_ips st) seen (tun_sender st) (route_adder st).

Lemma handle_command_performs fuel st ms data orig cmd link w :
  is_bytes data → channels_open st w →
  match decode fuel cmd data with
  | None => handle_command all_senders fuel st ms cmd data orig link w = None
  | Some Truncated => ∃ why, handle_command all_senders fuel st ms cmd data orig link w = Some (Panic why)
  | Some body => ∃ w', handle_command all_senders fuel st ms cmd data orig link w = Some (Ret w') ∧
                   performs st (effects st ms body orig link) w w'
  end.
Proof.
  intros Hb Hopen. unfold handle_command.
  destruct (Z.eqb_spec cmd 0) as [->|N0].
  { pose proof (handle_name_performs fuel st ms data orig link w Hopen) as H. unfold decode in *. cbn [Z.eqb] in *.
    destruct (from_utf8 data); [|exact H]. by destruct (from_node_name fuel data). }
  unfold decode. rewrite (proj2 (Z.eqb_neq cmd 0) N0).
  destruct (Z.eqb_spec cmd 1) as [->|N1]; [|destruct (Z.eqb_spec cmd 2) as [->|N2]; [|destruct (Z.eqb_spec cmd 3) as [->|N3]]].
  - destruct (decide (length data = 16%nat)) as [Hl|Hl].
    + rewrite decide_False by lia. destruct (ipv6_from_buf_of_octets data Hl) as (addr & -> & ->).
      cbn [mbind outcome_bind from_option]. destruct (handle_claim_performs st ms addr orig link w Hopen) as (w' & -> & P). eauto.
    + rewrite decide_True by lia. eexists. split; [reflexivity|]. apply performs_nothing.
  - destruct (decide (length data = 4%nat)) as [Hl|Hl].
    + rewrite decide_False by lia. destruct (ipv4_from_buf_of_octets data Hl) as (addr & -> & ->).
      cbn [mbind outcome_bind from_option]. destruct (handle_claim_performs st ms addr orig link w Hopen) as (w' & -> & P). eauto.
    + rewrite decide_True by lia. eexists. split; [reflexivity|]. apply performs_nothing.
  - pose proof (handle_ip_performs st ms data orig link w Hb Hopen) as H.
    destruct (decode_ip data); (destruct H as (w' & -> & P) || destruct H as (why & ->)); eauto.
  - eexists. split; [reflexivity|]. apply performs_nothing.
Qed.

Lemma handle_packet_spec fuel current st data link w :
  is_bytes data → SeenPackets.wf (seen_packets st) → channels_open st w →
  let run := handle_packet fx_hash all_senders fuel current st data link w in
  (¬ accepts current st data → run = Some (Ret (st, w)))
  ∧ (accepts current st data →
     ∃ seen, SeenPackets.add fx_hash (seen_packets st) data = Ret (false, seen) ∧ SeenPackets.wf seen ∧
       match decode fuel (data !!! 8%nat) (drop 9 data) with
       | None => run = None
       | Some Truncated => ∃ why, run = Some (Panic why)
       | Some body =>
           ∃ w', run = Some (Ret (remember st seen, w')) ∧ channels_open (remember st seen) w' ∧
             performs st (effects st (from_le_bytes (take 8 data)) body data link) w w'
       end).
Proof.
  intros Hb Hwf Hopen run. unfold run, handle_packet, accepts.
  destruct (decide (length data < 9)%nat); [split; [done|lia]|].
  destruct (decide (abs_diff current (from_le_bytes (take 8 data)) > IGNORE_AFTER)); [split; [done|lia]|].
  destruct (add_simulates fx_hash (seen_packets st) data _ Hwf (wf_window _ Hwf)) as (seen & Hadd & Hseen & _).
  assert (Hc : contains fx_hash (seen_packets st) data = known (capacity (seen_packets st)) (deque (seen_packets st)) (fx_hash data)).
  { unfold contains, known. rewrite <- wf_window by done. apply bool_decide_ext. destruct Hwf as (-> & _). apply elem_of_list_to_set. }
  rewrite <- Hc in Hadd. rewrite Hadd. destruct (contains fx_hash (seen_packets st) data) eqn:Hk.
  - split; [|intros (_ & _ & ?); done]. intros _.
    assert (seen = seen_packets st) as -> by (unfold SeenPackets.add in Hadd; unfold contains in Hk; rewrite Hk in Hadd; by injection Hadd).
    by destruct st.
  - split; [intros Hna; destruct Hna; split_and!; [lia|lia|done]|]. intros _. exists seen. split; [done|]. split; [done|].
    set (st' := MkNode (our_ips st) seen (tun_sender st) (route_adder st)).
    pose proof (handle_command_performs fuel st' (from_le_bytes (take 8 data)) (drop 9 data) data (data !!! 8%nat) link w
      (Forall_drop _ _ _ Hb) Hopen) as H.
    destruct (decode fuel (data !!! 8%nat) (drop 9 data)) as [[addr| |dst ip| |]|];
      [destruct H as (w' & -> & P)..|destruct H as [why ->]|destruct H as (w' & -> & P)|by rewrite H];
      cbn [mbind outcome_bind]; eauto; (exists w'; split; [done|]; split; [by apply P|exact P]).
Qed.

(** C2. What the node does with each packet, on every branch. A packet that is too
    short, more than three minutes off or already known changes nothing at all.
    Any other one is remembered, and: an announcement (of a name's address, or
    of an IPv6 or IPv4 address of the right length) is recorded with its time
    and link, flooded to all links unchanged and given to the route creator; a
    name that is not UTF-8 is only flooded; an IP packet goes to the TUN
    interface without its 9-byte header if its destination is ours, and else to
    the best link, unchanged; an IP packet cut before its destination address
    panics; all else is dropped. No other queue changes. *)
Theorem handle_packet_correct fuel current st data link w :
  is_bytes data → SeenPackets.wf (seen_packets st) → channels_open st w →
  let run := handle_packet fx_hash all_senders fuel current st data link w in
  (¬ accepts current st data → run = Some (Ret (st, w)))
  ∧ (accepts current st data →
     ∃ seen, SeenPackets.add fx_hash (seen_packets st) data = Ret (false, seen) ∧ SeenPackets.wf seen ∧
       match decode fuel (data !!! 8%nat) (drop 9 data) with
       | None => run = None
       | Some Truncated => ∃ why, run = Some (Panic why)
       | Some body =>
           ∃ w', run = Some (Ret (remember st seen, w')) ∧ channels_open (remember st seen) w' ∧
             performs st (effects st (from_le_bytes (take 8 data)) body data link) w w'
       end).
Proof. apply handle_packet_spec. Qed.

Lemma decode_truncated fuel cmd payload :
  decode fuel cmd payload = Some Truncated ↔
  cmd = 3 ∧ (payload = []
             ∨ payload !!! 0%nat / 16 = 4 ∧ (length payload < 20)%nat
             ∨ payload !!! 0%nat / 16 = 6 ∧ (length payload < 40)%nat).
Proof.
  unfold decode. destruct (Z.eqb_spec cmd 0) as [->|].
  { destruct (from_utf8 payload); [destruct (from_node_name fuel payload)|]; cbn; by intuition. }
  destruct (Z.eqb_spec cmd 1) as [->|].
  { destruct (decide _); [destruct (of_octets payload)|]; cbn; by intuition. }
  destruct (Z.eqb_spec cmd 2) as [->|].
  { destruct (decide _); [destruct (of_octets payload)|]; cbn; by intuition. }
  destruct (Z.eqb_spec cmd 3) as [->|]; [|by intuition].
  unfold decode_ip. destruct payload as [|b0 rest]; [by intuition|]. set (payload := b0 :: rest).
  change (payload !!! 0%nat) with b0.
  assert (Hf : ∀ i k, (k = 4 ∨ k = 16)%nat → (i + k <= length payload)%nat →
    ∃ a, of_octets (take k (drop i payload)) = Some a).
  { intros i k [-> | ->] Hl.
    - destruct (ipv4_from_buf_of_octets (take 4 (drop i payload))) as (a & _ & ?); [rewrite length_take, length_drop; lia|]. eauto.
    - destruct (ipv6_from_buf_of_octets (take 16 (drop i payload))) as (a & _ & ?); [rewrite length_take, length_drop; lia|]. eauto. }
  assert (payload ≠ []) by done. clearbody payload.
  destruct (Z.eqb_spec (b0 / 16) 4) as [->|]; [|destruct (Z.eqb_spec (b0 / 16) 6) as [->|]; [|by intuition]].
  - case_decide as Hl.
    + destruct (Hf 16%nat 4%nat) as [a ->]; [by left|done|]. cbn. split; [done|]. intros (_ & [?|[[_ ?]|[? _]]]); [done|lia|done].
    + cbn. split; [|done]. intros _. split; [done|]. right; left. split; [done|lia].
  - case_decide as Hl.
    + destruct (Hf 24%nat 16%nat) as [a ->]; [by right|done|]. cbn. split; [done|]. intros (_ & [?|[[? _]|[_ ?]]]); [done|done|lia].
    + cbn. split; [|done]. intros _. split; [done|]. right; right. split; [done|lia].
Qed.

(** C21. Exactly which packets crash the node. With the tasks it talks to running,
    the receiving loop panics on a packet if and only if the packet gets past
    the guards, has command 3, and its payload is empty or is cut before the
    end of the IPv4 or IPv6 destination address its first nibble announces.
    Nothing on the way checks this, so any node of the mesh can send such a
    packet to its neighbours. *)
Theorem handle_packet_crashes_iff fuel current st data link w :
  is_bytes data → SeenPackets.wf (seen_packets st) → channels_open st w →
  let payload := drop 9 data in
  (∃ why, handle_packet fx_hash all_senders fuel current st data link w = Some (Panic why)) ↔
  accepts current st data ∧ data !!! 8%nat = 3
    ∧ (payload = []
       ∨ payload !!! 0%nat / 16 = 4 ∧ (length payload < 20)%nat
       ∨ payload !!! 0%nat / 16 = 6 ∧ (length payload < 40)%nat).
Proof.
  intros Hb Hwf Hopen. cbn zeta. rewrite <- (decode_truncated fuel).
  destruct (handle_packet_spec fuel current st data link w Hb Hwf Hopen) as [Hno Hyes]. cbn zeta in *.
  split.
  - intros [why Hp]. assert (Ha : accepts current st data).
    { apply dec_stable. intros Hna. rewrite (Hno Hna) in Hp. done. }
    split; [done|]. destruct (Hyes Ha) as (seen & _ & _ & H).
    destruct (decode fuel _ _) as [[]|]; try done;
      (destruct H as (w' & E & _); congruence) || congruence.
  - intros [Ha Ht]. destruct (Hyes Ha) as (seen & _ & _ & H). by rewrite Ht in H.
Qed.

(** *** Flooding ends *)

(** Whatever a packet does, the memory of seen packets changes by one [add] at
    most. *)
Lemma handle_packet_seen fuel current st data link w st' w' :
  handle_packet fx_hash all_senders fuel current st data link w = Some (Ret (st', w')) →
  st' = st ∨ ∃ b, SeenPackets.add fx_hash (seen_packets st) data = Ret (b, seen_packets st').
Proof.
  unfold handle_packet. case_decide; [intros [= <- <-]; by left|]. case_decide; [intros [= <- <-]; by left|].
  destruct (SeenPackets.add fx_hash (seen_packets st) data) as [[[] seen]|why]; [| |done].
  - intros [= <- <-]. right. by exists true.
  - destruct (handle_command _ _ _ _ _ _ _ _ _) as [[w1|why]|]; [|done|done].
    intros [= <- <-]. right. by exists false.
Qed.

Lemma add_wf s p b s' :
  SeenPackets.wf s → SeenPackets.add fx_hash s p = Ret (b, s') → SeenPackets.wf s' ∧ capacity s' = capacity s.
Proof.
  intros Hwf Hadd. destruct (add_simulates fx_hash s p _ Hwf (wf_window s Hwf)) as (s1 & Ha & ? & ? & _).
  rewrite Hadd in Ha. by injection Ha as _ <-.
Qed.

Lemma handle_packet_remembers fuel current st data link w st' w' k h :
  SeenPackets.wf (seen_packets st) → remembers k (seen_packets st) h → (Datatypes.S k < capacity (seen_packets st))%nat →
  handle_packet fx_hash all_senders fuel current st data link w = Some (Ret (st', w')) →
  SeenPackets.wf (seen_packets st') ∧ capacity (seen_packets st') = capacity (seen_packets st)
  ∧ remembers (Datatypes.S k) (seen_packets st') h.
Proof.
  intros Hwf Hr Hk [->|[b Hadd]]%handle_packet_seen.
  - split_and!; [done|done|]. destruct Hr as (l1 & l2 & ? & ?). exists l1, l2. split; [done|lia].
  - destruct (add_wf _ _ _ _ Hwf Hadd). split_and!; [done|done|].
    exact (remembers_add fx_hash k _ h data b _ Hwf Hr Hk Hadd).
Qed.

Lemma receive_remembers fuel packets st w st' w' k h :
  SeenPackets.wf (seen_packets st) → remembers k (seen_packets st) h →
  (k + length packets < capacity (seen_packets st))%nat →
  receive fx_hash all_senders fuel st packets w = Some (Ret (st', w')) →
  SeenPackets.wf (seen_packets st') ∧ remembers (k + length packets) (seen_packets st') h.
Proof.
  revert st w k. induction packets as [|[[current data] link] packets IH]; intros st w k Hwf Hr Hk; cbn [receive length].
  { intros [= <- <-]. by rewrite Nat.add_0_r. }
  destruct (handle_packet _ _ _ _ _ _ _ _) as [[[st1 w1]|why]|] eqn:E; [|done|done]. intros Hrec.
  cbn [length] in Hk. destruct (handle_packet_remembers _ _ _ _ _ _ _ _ k h Hwf Hr ltac:(lia) E) as (Hwf1 & Hn1 & Hr1).
  replace (k + Datatypes.S (length packets))%nat with (Datatypes.S k + length packets)%nat by lia.
  apply (IH st1 w1); [done|done|rewrite Hn1; lia|done].
Qed.

(** C12. A packet is flooded, routed or delivered at most once. After a node has
    processed a packet, a copy that comes back on any link, at any time, with
    fewer other packets in between than the memory holds, has no effect
    whatever: so flooding over a mesh with cycles dies out. *)
Theorem processed_once fuel current st data link w st1 w1 packets st2 w2 current' link' :
  SeenPackets.wf (seen_packets st) → accepts current st data →
  handle_packet fx_hash all_senders fuel current st data link w = Some (Ret (st1, w1)) →
  receive fx_hash all_senders fuel st1 packets w1 = Some (Ret (st2, w2)) →
  (length packets < capacity (seen_packets st))%nat →
  handle_packet fx_hash all_senders fuel current' st2 data link' w2 = Some (Ret (st2, w2)).
Proof.
  intros Hwf (Hl & Hms & Hc) Hh Hrec Hn.
  assert (Hadd : SeenPackets.add fx_hash (seen_packets st) data = Ret (false, seen_packets st1)).
  { revert Hh. unfold handle_packet. rewrite decide_False by lia. rewrite decide_False by lia.
    destruct (add_simulates fx_hash (seen_packets st) data _ Hwf (wf_window _ Hwf)) as (seen & -> & _).
    unfold known. rewrite <- wf_window by done.
    replace (bool_decide _) with false.
    - cbn beta iota. destruct (handle_command _ _ _ _ _ _ _ _ _) as [[w'|why]|]; [|done|done]. by intros [= <- <-].
    - rewrite <- Hc. unfold contains. apply bool_decide_ext. destruct Hwf as (-> & _). apply elem_of_list_to_set. }
  destruct (add_wf _ _ _ _ Hwf Hadd) as [Hwf1 Hn1].
  assert (Hr1 : remembers 0 (seen_packets st1) (fx_hash data)) by (eapply add_remembers; [exact Hwf|lia|done]).
  destruct (receive_remembers fuel packets st1 w1 st2 w2 0 (fx_hash data) Hwf1 Hr1 ltac:(rewrite Hn1; lia) Hrec) as (Hwf2 & Hr2).
  assert (Hk : contains fx_hash (seen_packets st2) data = true) by (by eapply remembers_contains).
  unfold handle_packet. case_decide; [done|]. case_decide; [done|].
  unfold SeenPackets.add. unfold contains in Hk. rewrite Hk. cbn [negb]. by destruct st2.
Qed.

(** *** From an announcement to a route *)

Lemma handle_packet_Ret fuel current st data link w st' w' body :
  is_bytes data → SeenPackets.wf (seen_packets st) → channels_open st w → accepts current st data →
  decode fuel (data !!! 8%nat) (drop 9 data) = Some body →
  handle_packet fx_hash all_senders fuel current st data link w = Some (Ret (st', w')) →
  our_ips st' = our_ips st ∧ SeenPackets.wf (seen_packets st') ∧ channels_open st' w'
  ∧ performs st (effects st (from_le_bytes (take 8 data)) body data link) w w'.
Proof.
  intros Hb Hwf Hopen Ha Hd Hh.
  destruct (handle_packet_spec fuel current st data link w Hb Hwf Hopen) as [_ Hyes]. cbn zeta in Hyes.
  destruct (Hyes Ha) as (seen & _ & Hseen & H). rewrite Hd, Hh in H.
  destruct body; try (destruct H as (w1 & [= -> ->] & ? & ?); split_and!; done).
  by destruct H.
Qed.

(** C11. Routes follow announcements. A node handles an announcement of [addr] from
    [link] and later a packet for [addr], which is not its own; its switchboard,
    whose route to [addr] is older if there is one, then serves its queue: every
    open registered link gets the announcement, the packet goes to [link], and
    to no other link. *)
Theorem announcement_routes_traffic fuel t1 t2 st ann pkt addr ip link link' w st1 w1 st2 w2 (task : TaskState C) :
  is_bytes ann → is_bytes pkt → SeenPackets.wf (seen_packets st) → channels_open st w →
  queued w (sender all_senders) = [] → is_open w2 link = true →
  accepts t1 st ann → decode fuel (ann !!! 8%nat) (drop 9 ann) = Some (Announce addr) →
  handle_packet fx_hash all_senders fuel t1 st ann link w = Some (Ret (st1, w1)) →
  accepts t2 st1 pkt → decode fuel (pkt !!! 8%nat) (drop 9 pkt) = Some (Traffic addr ip) → addr ∉ our_ips st →
  handle_packet fx_hash all_senders fuel t2 st1 pkt link' w1 = Some (Ret (st2, w2)) →
  (∀ r, fastest_to_address task !! addr = Some r → r.1 < from_le_bytes (take 8 ann)) →
  let w3 := (all_senders_task task w2 (queued w2 (sender all_senders))).2 in
  ∀ c, queued w3 c = queued w2 c ++ (if is_open w2 c then replicate (registrations c (senders task)) ann else [])
                                ++ (if decide (c = link) then [pkt] else []).
Proof.
  intros Hba Hbp Hwf Hopen Hq Hlink Ha1 Hd1 Hh1 Ha2 Hd2 Hnot Hh2 Hroute w3 c. unfold w3. clear w3.
  destruct (handle_packet_Ret _ _ _ _ _ _ _ _ _ Hba Hwf Hopen Ha1 Hd1 Hh1) as (Hips & Hwf1 & Hopen1 & P1).
  destruct (handle_packet_Ret _ _ _ _ _ _ _ _ _ Hbp Hwf1 Hopen1 Ha2 Hd2 Hh2) as (_ & _ & _ & P2).
  destruct P1 as [Q1 _], P2 as [Q2 _]. rewrite Q2, Q1, Hq. cbn [effects]. rewrite Hips.
  rewrite bool_decide_eq_false_2 by done. cbn [to_switch app].
  set (ms := from_le_bytes (take 8 ann)) in *. unfold all_senders_task. cbn [foldl].
  assert (Hadd : handle task w2 (AddFastestTo ms addr link) =
    (MkTaskState (senders task) (<[addr := (ms, link)]> (fastest_to_address task)), w2)).
  { cbn [handle]. destruct (fastest_to_address task !! addr) as [[m s]|] eqn:E; [|done].
    specialize (Hroute _ eq_refl). cbn in Hroute. by rewrite (proj2 (Z.leb_gt ms m)) by lia. }
  rewrite Hadd. cbn [handle senders fastest_to_address]. rewrite lookup_insert_eq. cbn [snd].
  rewrite send_queued. destruct (send_each_spec (senders task) ann w2 c) as [Hqc _].
  destruct (send_each_spec (senders task) ann w2 link) as [_ Hol].
  rewrite Hqc, Hol, Hlink, <- app_assoc. done.
Qed.

(** *** The node's own announcements *)

Lemma stamp_of ms body : uint 64 ms → from_le_bytes (take 8 (to_le_bytes 8 ms ++ body)) = ms.
Proof.
  intros Hms. rewrite take_app_length' by (symmetry; apply length_to_le_bytes). by apply from_to_le_bytes_small.
Qed.

Lemma cmd_of ms cmd body : (to_le_bytes 8 ms ++ cmd :: body) !!! 8%nat = cmd.
Proof. apply list_lookup_total_correct. rewrite lookup_app_r; rewrite length_to_le_bytes; [done|lia]. Qed.

Lemma payload_of ms cmd body : drop 9 (to_le_bytes 8 ms ++ cmd :: body) = body.
Proof. rewrite drop_app_ge; rewrite length_to_le_bytes; [done|lia]. Qed.

Lemma parse_ipv4_fmt a b c d :
  is_addr (V4 a b c d) → parse_ipv4 (str_bytes (fmt (V4 a b c d))) = Ret [a; b; c; d].
Proof.
  intros Ha. unfold parse_ipv4. pose proof (parse_fmt_v4 a b c d Ha) as Hp.
  assert (Hgen : ∀ pieces bs, parse_u8 <$> pieces = Some <$> bs → parse_octets pieces = Ret bs).
  { induction pieces as [|p pieces IH]; intros [|x bs]; cbn; try done.
    intros [= Hx Hr]. rewrite Hx. by rewrite (IH bs Hr). }
  by apply Hgen.
Qed.

Lemma own_ipv4s_fmt vs :
  Forall (λ v, is_addr v ∧ length (octets v) = 4%nat) vs →
  own_ipv4s ((λ v, str_bytes (fmt v)) <$> vs) = Ret ((λ v, (v, octets v)) <$> vs).
Proof.
  induction 1 as [|v vs [Hv Hl] _ IH]; [done|]. destruct v as [a b c d|]; [|done].
  rewrite !fmap_cons. cbn [own_ipv4s]. rewrite parse_ipv4_fmt by done. cbn [mbind outcome_bind].
  unfold ipv4_of_octets, index. cbn [lookup list_lookup mbind outcome_bind mret outcome_ret]. by rewrite IH.
Qed.

(** What is kept of a configured address is what is announced: its octets. *)
Lemma own_ipv4s_pairs addrs ips addr octets :
  own_ipv4s addrs = Ret ips → (addr, octets) ∈ ips → ipv4_of_octets octets = Ret addr.
Proof.
  revert ips. induction addrs as [|s addrs IH]; intros ips; cbn [own_ipv4s]; [by intros [= <-] ?%elem_of_nil|].
  intros (os & _ & (a0 & Ha0 & (rest & Hrest & [= <-])%bind_Ret_inv)%bind_Ret_inv)%bind_Ret_inv.
  intros [[= -> ->]|Hin]%elem_of_cons; [done|by eapply IH].
Qed.

(** The switchboard is told to send to all links a packet that every node decodes as
    [body] and the time [ms]. *)
Definition broadcasts fuel ms (body : Body) (w w' : W) : Prop :=
  ∃ packet, queued w' (sender all_senders) = queued w (sender all_senders) ++ [SendToAll packet]
    ∧ (9 <= length packet)%nat ∧ from_le_bytes (take 8 packet) = ms
    ∧ decode fuel (packet !!! 8%nat) (drop 9 packet) = Some body.

Lemma send_all_broadcasts fuel ms cmd payload body (w : W) :
  is_open w (sender all_senders) = true → uint 64 ms → decode fuel cmd payload = Some body →
  broadcasts fuel ms body w (send_all all_senders (to_le_bytes 8 ms ++ cmd :: payload) w).
Proof.
  intros Ho Hms Hd. exists (to_le_bytes 8 ms ++ cmd :: payload). unfold send_all.
  rewrite send_queued, decide_True, Ho by done. rewrite cmd_of, payload_of, stamp_of by done.
  split_and!; [done| |done|done]. rewrite length_app, length_to_le_bytes. cbn [length]. lia.
Qed.

(** C32. A node keeps for itself what it announces, and others understand it so. Let
    the configured addresses be ones that the node can parse. It starts with
    the address of its name and the addresses it has parsed as its own, and nothing
    else. Its announcements, at any 64-bit time, are broadcast and decoded by the
    others as that time and: that of its name as the address of its name; that made
    of the octets it has kept for an address, if there are four of them, as exactly
    that address, and otherwise as noise. Addresses that are configured in their
    printed form have four octets and are kept and announced as they are; one with
    more numbers, like 10.0.0.2.9, is kept but announced in vain. *)
Theorem announcements_understood fuel node_name addrs ips (tun : option C) (route : option R) node_ip ms (w : W) :
  from_utf8 node_name = true → from_node_name fuel node_name = Some node_ip → uint 64 ms →
  own_ipv4s addrs = Ret ips → is_open w (sender all_senders) = true →
  (∃ st, run_meshnode_init fuel node_name addrs tun route = Some (Ret st)
       ∧ our_ips st = list_to_set (node_ip :: ips.*1) ∧ SeenPackets.wf (seen_packets st)
       ∧ tun_sender st = tun ∧ route_adder st = route)
  ∧ broadcasts fuel ms (Announce node_ip) w (announce_name_step all_senders ms node_name w)
  ∧ (∀ addr octets, (addr, octets) ∈ ips →
       broadcasts fuel ms (if decide (length octets = 4%nat) then Announce addr else Noise) w
         (announce_ipv4_step all_senders ms octets w))
  ∧ (∀ vs, addrs = (λ v, str_bytes (fmt v)) <$> vs → Forall (λ v, is_addr v ∧ length (octets v) = 4%nat) vs →
       ips = (λ v, (v, octets v)) <$> vs).
Proof.
  intros Hutf Hname Hms Hips Ho. split; [|split; [|split]].
  - unfold run_meshnode_init. rewrite Hname. cbn [mbind option_bind]. rewrite Hips. cbn [mbind outcome_bind].
    eexists. split; [reflexivity|]. cbn [our_ips seen_packets tun_sender route_adder].
    split_and!; [done|apply seen_new_wf|done|done].
  - apply send_all_broadcasts; [done|done|]. unfold decode. cbn [Z.eqb]. by rewrite Hutf, Hname.
  - intros addr os Hin. pose proof (own_ipv4s_pairs _ _ _ _ Hips Hin) as Haddr. apply send_all_broadcasts; [done|done|].
    unfold decode. cbn [Z.eqb Pos.eqb]. case_decide as Hl; [|done].
    destruct os as [|o1 [|o2 [|o3 [|o4 [|]]]]]; try done. cbn in Haddr. by injection Haddr as <-.
  - intros vs -> Hvs. rewrite own_ipv4s_fmt in Hips by done. by injection Hips as <-.
Qed.
End spec.

Lemma draw_bytes_ok n RNG : is_bytes (draw_bytes n RNG).1 ∧ length (draw_bytes n RNG).1 = n.
Proof.
  revert RNG; induction n as [|n IH]; intros RNG; [by split|]. cbn [draw_bytes].
  destruct (Rng.u64 RNG) as [a RNG1]. specialize (IH RNG1). destruct (draw_bytes n RNG1) as [bs RNG2].
  destruct IH as [Hb Hl]. cbn [fst length] in *. split; [|by rewrite Hl].
  constructor; [|done]. rewrite land_255. by apply uint_wrap.
Qed.

(** The addresses the two generating commands print are valid: an IPv4
    address of four bytes, and an IPv6 address in [fd00::/16], the range of the
    addresses of node names. *)
Theorem random_addresses_valid RNG :
  (is_addr (make_random_ipv4 RNG).1 ∧ length (octets (make_random_ipv4 RNG).1) = 4%nat)
  ∧ (is_addr (make_random_ipv6 RNG).1 ∧ take 2 (octets (make_random_ipv6 RNG).1) = [0xfd; 0x00]
     ∧ length (octets (make_random_ipv6 RNG).1) = 16%nat).
Proof.
  split.
  - unfold make_random_ipv4. destruct (Rng.u64 RNG) as [a R1], (Rng.u64 R1) as [b R2], (Rng.u64 R2) as [c R3],
      (Rng.u64 R3) as [d R4]. cbn [fst]. split; [|done].
    unfold is_addr. cbn [octets]. rewrite !land_255. repeat constructor; by apply uint_wrap.
  - unfold make_random_ipv6. destruct (draw_bytes_ok 14 RNG) as [Hb Hl].
    destruct (draw_bytes 14 RNG) as [r RNG1]. cbn [fst] in *.
    do 14 (destruct r as [|? r]; [done|]). destruct r; [|done].
    split_and!; [|done|done]. unfold is_addr. cbn [octets]. constructor; [done|]. constructor; [done|]. exact Hb.
Qed.

(** ** Witnesses

    A node named [P] that also owns 10.0.0.1, with a TUN interface (channel 9) and
    a route creator, on two links (channels 1 and 2). *)
Definition example_hash (packet : bytes) : Z := from_le_bytes packet.
Definition example_world : world :=
  MkWorld {[1%nat := (true, []); 2%nat := (true, []); 9%nat := (true, [])]} ∅ {[0%nat := (true, [])]} {[0%nat := (true, [])]}.
Definition example_switch : AllSenders switch_tx := MkAllSenders (Switch 0).
Definition example_node : Node byte_tx route_tx :=
  MkNode {[V4 10 0 0 1]} (SeenPackets.new 16) (Some (Tx 9)) (Some (Route 0)).

Lemma example_open : channels_open example_switch example_node example_world.
Proof. split_and!; [reflexivity|by intros r [= <-]|by intros c [= <-]]. Qed.

(** 10.0.0.7 is announced at time 1000. *)
Definition example_announcement : bytes := ipv4_announcement 1000 [10; 0; 0; 7].
(** A minimal IPv4 packet from 10.0.0.1 to 10.0.0.7. *)
Definition example_ip : bytes := [69; 0; 0; 20; 0; 0; 0; 0; 64; 17; 0; 0; 10; 0; 0; 1; 10; 0; 0; 7].
Definition example_traffic : bytes := to_le_bytes 8 1001 ++ [3] ++ example_ip.

Ltac solve_bytes := apply (bool_decide_unpack _); vm_compute; reflexivity.

Lemma handle_packet_correct_witness :
  accepts example_hash 1500 example_node example_announcement
  ∧ ∃ w', handle_packet example_hash example_switch 0 1500 example_node example_announcement (Tx 1) example_world
           = Some (Ret (remember example_node (MkSeenPackets {[example_hash example_announcement]} [example_hash example_announcement] 16), w'))
       ∧ performs example_switch example_node
           (MkEffects [AddFastestTo 1000 (V4 10 0 0 7) (Tx 1); SendToAll example_announcement] [V4 10 0 0 7] [])
           example_world w'.
Proof.
  assert (Hb : is_bytes example_announcement) by solve_bytes.
  assert (Ha : accepts example_hash 1500 example_node example_announcement).
  { split; [vm_compute; lia|]. split; [vm_compute; discriminate|vm_compute; reflexivity]. }
  split; [exact Ha|].
  destruct (handle_packet_correct example_hash example_switch 0 1500 example_node example_announcement (Tx 1)
    example_world Hb (seen_new_wf _) example_open) as [_ H].
  destruct (H Ha) as (seen & Hadd & _ & H').
  assert (E : seen = MkSeenPackets {[example_hash example_announcement]} [example_hash example_announcement] 16).
  { revert Hadd. vm_compute. intros [= <-]. reflexivity. }
  subst seen. destruct H' as (w' & H1 & _ & H2). exists w'. split; [exact H1|exact H2].
Defined.

(** Nine bytes: a time and command 3. *)
Lemma handle_packet_crashes_iff_witness :
  ∃ why, handle_packet example_hash example_switch 0 1500 example_node (to_le_bytes 8 1000 ++ [3]) (Tx 1) example_world
    = Some (Panic why).
Proof.
  assert (Hb : is_bytes (to_le_bytes 8 1000 ++ [3])) by solve_bytes.
  apply (handle_packet_crashes_iff example_hash example_switch 0 1500 example_node _ (Tx 1)
    example_world Hb (seen_new_wf _) example_open).
  split; [|split; [reflexivity|left; reflexivity]].
  split; [vm_compute; lia|]. split; [vm_compute; discriminate|vm_compute; reflexivity].
Defined.

(** The announcement comes back on the other link after a packet of traffic. *)
Lemma processed_once_witness :
  ∃ st1 w1 st2 w2,
    handle_packet example_hash example_switch 0 1500 example_node example_announcement (Tx 1) example_world
      = Some (Ret (st1, w1))
    ∧ receive example_hash example_switch 0 st1 [(1600, example_traffic, Tx 2)] w1 = Some (Ret (st2, w2))
    ∧ handle_packet example_hash example_switch 0 1700 st2 example_announcement (Tx 2) w2 = Some (Ret (st2, w2)).
Proof.
  assert (H1 : ∃ st1 w1, handle_packet example_hash example_switch 0 1500 example_node example_announcement (Tx 1)
    example_world = Some (Ret (st1, w1)) ∧ ∃ st2 w2,
    receive example_hash example_switch 0 st1 [(1600, example_traffic, Tx 2)] w1 = Some (Ret (st2, w2))).
  { eexists _, _. split; [vm_compute; reflexivity|]. eexists _, _. vm_compute. reflexivity. }
  destruct H1 as (st1 & w1 & H1 & st2 & w2 & H2). exists st1, w1, st2, w2. split; [exact H1|]. split; [exact H2|].
  apply (processed_once example_hash example_switch 0 1500 example_node example_announcement (Tx 1) example_world
    st1 w1 [(1600, example_traffic, Tx 2)] st2 w2 1700 (Tx 2)); [apply seen_new_wf| |exact H1|exact H2|simpl; lia].
  split; [vm_compute; lia|]. split; [vm_compute; discriminate|vm_compute; reflexivity].
Defined.

(** Link 1 announces 10.0.0.7; a packet for it arrives on link 2 and leaves on 1. *)
Lemma announcement_routes_traffic_witness :
  ∃ w2, let w3 := (all_senders_task (MkTaskState [Tx 1; Tx 2] ∅) w2 (queued w2 (Switch 0))).2 in
    queued w3 (Tx 1) = queued w2 (Tx 1) ++ [example_announcement] ++ [example_traffic]
    ∧ queued w3 (Tx 2) = queued w2 (Tx 2) ++ [example_announcement] ++ [].
Proof.
  assert (H : ∃ st1 w1, handle_packet example_hash example_switch 0 1500 example_node example_announcement (Tx 1)
    example_world = Some (Ret (st1, w1)) ∧ accepts example_hash 1600 st1 example_traffic ∧ ∃ st2 w2,
    handle_packet example_hash example_switch 0 1600 st1 example_traffic (Tx 2) w1 = Some (Ret (st2, w2))
    ∧ is_open w2 (Tx 1) = true ∧ is_open w2 (Tx 2) = true).
  { eexists _, _. split; [vm_compute; reflexivity|].
    split; [split; [vm_compute; lia|split; [vm_compute; discriminate|vm_compute; reflexivity]]|].
    eexists _, _. split; [vm_compute; reflexivity|]. split; vm_compute; reflexivity. }
  destruct H as (st1 & w1 & H1 & Ha2 & st2 & w2 & H2 & Ho1 & Ho2). exists w2. cbn zeta.
  assert (Hb1 : is_bytes example_announcement) by solve_bytes.
  assert (Hb2 : is_bytes example_traffic) by solve_bytes.
  assert (Ha1 : accepts example_hash 1500 example_node example_announcement).
  { split; [vm_compute; lia|]. split; [vm_compute; discriminate|vm_compute; reflexivity]. }
  assert (Hnot : V4 10 0 0 7 ∉ our_ips example_node).
  { apply (bool_decide_unpack _). vm_compute. reflexivity. }
  assert (Hroute : ∀ r, fastest_to_address (MkTaskState [Tx 1; Tx 2] ∅ : TaskState byte_tx) !! V4 10 0 0 7 = Some r →
    r.1 < from_le_bytes (take 8 example_announcement)) by (intros r; cbn; by rewrite lookup_empty).
  pose proof (announcement_routes_traffic example_hash example_switch 0 1500 1600 example_node
    example_announcement example_traffic (V4 10 0 0 7) example_ip (Tx 1) (Tx 2) example_world st1 w1 st2 w2
    (MkTaskState [Tx 1; Tx 2] ∅) Hb1 Hb2 (seen_new_wf _) example_open eq_refl Ho1 Ha1 eq_refl H1 Ha2 eq_refl Hnot H2
    Hroute) as H.
  cbn zeta in H. pose proof (H (Tx 1)) as E1. pose proof (H (Tx 2)) as E2. rewrite Ho1 in E1. rewrite Ho2 in E2.
  split; [exact E1|exact E2].
Defined.

Lemma announcements_understood_witness :
  ∃ node_ip, from_node_name 1000 (str_bytes "P") = Some node_ip
  ∧ ∃ (st : Node byte_tx route_tx) os,
      run_meshnode_init 1000 (str_bytes "P") [str_bytes "10.0.0.1"] (Some (Tx 9)) None = Some (Ret st)
      ∧ our_ips st = list_to_set [node_ip; V4 10 0 0 1]
      ∧ broadcasts example_switch 1000 1000 (Announce (V4 10 0 0 1)) example_world (announce_ipv4_step example_switch 1000 os example_world).
Proof.
  assert (E : ∃ ip, from_node_name 1000 (str_bytes "P") = Some ip) by (eexists; vm_compute; reflexivity).
  destruct E as [ip E]. exists ip. split; [exact E|].
  assert (Hips : own_ipv4s [str_bytes "10.0.0.1"] = Ret [(V4 10 0 0 1, [10; 0; 0; 1])]) by (vm_compute; reflexivity).
  destruct (announcements_understood example_switch 1000 (str_bytes "P") [str_bytes "10.0.0.1"] _ (Some (Tx 9)) (None : option route_tx) ip 1000
    example_world eq_refl E ltac:(split; [lia|reflexivity]) Hips eq_refl) as ((st & H1 & H2 & _) & _ & H3 & _).
  exists st, [10; 0; 0; 1]. split; [exact H1|]. split; [exact H2|].
  exact (H3 (V4 10 0 0 1) [10; 0; 0; 1] ltac:(apply list_elem_of_here)).
Defined.
