(* ===== verification/Tun.v ===== *)
(** The TUN interfaces ([rust/src/linux_tuntap.rs], [rust/src/mac_tuntap.rs]): the
    task that turns the IP packets of the operating system into packets of the
    mesh, the task that hands packets of the mesh to it, and the route creator.

    Reads and writes of the interface are arguments: what each read gave, and
    what each write answered. *)
From S2P Require Import Prelude IpAddr SeenPackets Channel AllSenders World Framing MeshNode.

(** A read of the interface: an error, or the bytes of one packet (at most the
    2048 of the buffer); no bytes at all is the end of the interface. *)
Inductive Read :=
| ReadErr
| ReadOk (data : bytes).

(** The destination of an IP packet, if its version and length are right. *)
Definition target_addr (packet : bytes) : outcome (option IpAddr) :=
  b0 ← index packet 0;
  let ip_version := Z.shiftr (Z.land b0 0xF0) 4 in
  if (ip_version =? 4) && (20 <=? length packet)%nat then
    buf ← slice packet 16 20; addr ← ipv4_from_buf buf; mret (Some addr)
  else if (ip_version =? 6) && (40 <=? length packet)%nat then
    buf ← slice packet 24 40; addr ← ipv6_from_buf buf; mret (Some addr)
  else mret None.

Definition netpacket (millis : Z) (packet : bytes) : bytes := to_le_bytes 8 millis ++ [3] ++ packet.

Section forward.
Context {W C S : Type} `{mpsc_s : Mpsc W S (AllSendersMessage C)} (all_senders : AllSenders S).

Definition forward (millis : Z) (packet : bytes) (w : W) : outcome W :=
  addr ← target_addr packet;
  match addr with
  | Some target_addr => mret (send_to_fastest all_senders target_addr (netpacket millis packet) w)
  | None => mret w
  end.
End forward.

(** ** Linux *)
Module Linux.
Section run.
Context {W C S : Type} `{mpsc_s : Mpsc W S (AllSendersMessage C)} (all_senders : AllSenders S).

(** The task from the interface to the network, on the reads so far and the
    times at which they are forwarded: the channels, and whether it has ended. *)
Fixpoint tun_to_network (reads : list (Z * Read)) (w : W) : outcome (bool * W) :=
  match reads with
  | [] => mret (false, w)
  | (_, ReadErr) :: reads => tun_to_network reads w
  | (_, ReadOk []) :: _ => mret (true, w)
  | (millis, ReadOk packet) :: reads => w ← forward all_senders millis packet w; tun_to_network reads w
  end.
End run.

(** The task from the network to the interface: the packets written. A write
    that fails ends the node. *)
Fixpoint network_to_tun (write : nat → result nat) (i : nat) (packets : list bytes) : outcome (list bytes) :=
  match packets with
  | [] => mret []
  | packet :: packets =>
      match write i with
      | Err _ => Panic "called `Result::unwrap()` on an `Err` value"
      | Ok _ => rest ← network_to_tun write (Datatypes.S i) packets; mret (packet :: rest)
      end
  end.

Definition route_cmd (addr : IpAddr) : string :=
  let '(version, prefix_len) := match addr with V4 _ _ _ _ => ("4", "32") | _ => ("6", "128") end%string in
  foldr String.append ""%string ["ip -"; version; " route add "; fmt addr; "/"; prefix_len; " dev smolmesh1"]%string.

(** The task of [route_creator], on the addresses received: the commands it runs. *)
Fixpoint route_creator (already_added : gset IpAddr) (addrs : list IpAddr) : list string * gset IpAddr :=
  match addrs with
  | [] => ([], already_added)
  | addr :: addrs =>
      if bool_decide (addr ∈ already_added) then route_creator already_added addrs else
      let '(cmds, already_added) := route_creator ({[addr]} ∪ already_added) addrs in
      (route_cmd addr :: cmds, already_added)
  end.

Definition set_ip6_cmd (addr : IpAddr) (prefix_len : Z) : string :=
  foldr String.append ""%string ["ip -6 addr add "; fmt addr; "/"; dec_u8 prefix_len; " dev smolmesh1"]%string.
Definition set_ipv4_cmd (addr : IpAddr) : string :=
  foldr String.append ""%string ["ip -4 addr add "; fmt addr; "/32 dev smolmesh1"]%string.
End Linux.

(** ** macOS: every packet has a header of four bytes *)
Module Mac.
Section run.
Context {W C S : Type} `{mpsc_s : Mpsc W S (AllSendersMessage C)} (all_senders : AllSenders S).

Fixpoint tun_to_network (reads : list (Z * Read)) (w : W) : outcome (bool * W) :=
  match reads with
  | [] => mret (false, w)
  | (_, ReadErr) :: reads => tun_to_network reads w
  | (_, ReadOk []) :: _ => mret (true, w)
  | (millis, ReadOk buf) :: reads =>
      if decide (length buf < 4)%nat then tun_to_network reads w else
      let packet := drop 4 buf in
      if decide (packet = []) then tun_to_network reads w else
      w ← forward all_senders millis packet w; tun_to_network reads w
  end.
End run.

(** The header by IP version; [None] for a version that is neither. *)
Definition write_buf (packet : bytes) : outcome (option bytes) :=
  b0 ← index packet 0;
  let ip_version := Z.shiftr (Z.land b0 0xF0) 4 in
  if ip_version =? 4 then mret (Some ([0x00; 0x00; 0x00; 0x02] ++ packet))
  else if ip_version =? 6 then mret (Some ([0x00; 0x00; 0x00; 0x1e] ++ packet))
  else mret None.

(** What is given to [write]; its errors are only logged. *)
Fixpoint network_to_tun (packets : list bytes) : outcome (list bytes) :=
  match packets with
  | [] => mret []
  | packet :: packets =>
      frame ← write_buf packet;
      rest ← network_to_tun packets;
      mret (match frame with Some frame => frame :: rest | None => rest end)
  end.

Definition route_cmd (name : string) (addr : IpAddr) : string :=
  let inet_flag := match addr with V4 _ _ _ _ => "inet" | _ => "inet6" end%string in
  foldr String.append ""%string ["route add -"; inet_flag; " "; fmt addr; " -interface "; name]%string.

Fixpoint route_creator (name : string) (already_added : gset IpAddr) (addrs : list IpAddr)
    : list string * gset IpAddr :=
  match addrs with
  | [] => ([], already_added)
  | addr :: addrs =>
      if bool_decide (addr ∈ already_added) then route_creator name already_added addrs else
      let '(cmds, already_added) := route_creator name ({[addr]} ∪ already_added) addrs in
      (route_cmd name addr :: cmds, already_added)
  end.
End Mac.

(** ** Lemmas *)

Lemma decode_ip_head packet b0 :
  packet !! 0%nat = Some b0 →
  decode_ip packet =
    let field (i n : nat) := if decide (i + n <= length packet)%nat then of_octets (take n (drop i packet)) else None in
    if b0 / 16 =? 4 then from_option (λ dst, Traffic dst packet) Truncated (field 16%nat 4%nat)
    else if b0 / 16 =? 6 then from_option (λ dst, Traffic dst packet) Truncated (field 24%nat 16%nat)
    else Noise.
Proof. destruct packet as [|b rest]; [done|]. by intros [= ->]. Qed.

(** The interface's reading of an IP header agrees with the node's. *)
Lemma target_addr_decode packet :
  is_bytes packet → packet ≠ [] →
  ∃ o, target_addr packet = Ret o ∧
    match o with
    | Some dst => decode_ip packet = Traffic dst packet
    | None => ∀ dst, decode_ip packet ≠ Traffic dst packet
    end.
Proof.
  intros Hb Hne. destruct (packet !! 0%nat) as [b0|] eqn:E0; [|by destruct packet].
  rewrite (decode_ip_head packet b0 E0). unfold target_addr, index. rewrite E0. cbn [mbind outcome_bind].
  rewrite high_nibble by (by eapply Forall_lookup_1).
  assert (H4 : ∀ i, (i + 4 <= length packet)%nat → ∃ a, ipv4_from_buf (take 4 (drop i packet)) = Ret a
    ∧ of_octets (take 4 (drop i packet)) = Some a).
  { intros i Hi. apply ipv4_from_buf_of_octets. rewrite length_take, length_drop. lia. }
  assert (H6 : ∀ i, (i + 16 <= length packet)%nat → ∃ a, ipv6_from_buf (take 16 (drop i packet)) = Ret a
    ∧ of_octets (take 16 (drop i packet)) = Some a).
  { intros i Hi. apply ipv6_from_buf_of_octets. rewrite length_take, length_drop. lia. }
  destruct (Z.eqb_spec (b0 / 16) 4) as [E4|N4]; [|destruct (Z.eqb_spec (b0 / 16) 6) as [E6|N6]]; cbn [andb].
  - destruct (Nat.leb_spec 20 (length packet)) as [Hl|Hl].
    + rewrite slice_ok by lia. change (20 - 16)%nat with 4%nat. cbn [mbind outcome_bind].
      destruct (H4 16%nat ltac:(lia)) as (a & -> & Ho). cbn [mbind outcome_bind]. exists (Some a). split; [done|].
      rewrite decide_True, Ho by lia. done.
    + rewrite E4. exists None. split; [done|]. rewrite decide_False by lia. done.
  - destruct (Nat.leb_spec 40 (length packet)) as [Hl|Hl].
    + rewrite slice_ok by lia. change (40 - 24)%nat with 16%nat. cbn [mbind outcome_bind].
      destruct (H6 24%nat ltac:(lia)) as (a & -> & Ho). cbn [mbind outcome_bind]. exists (Some a). split; [done|].
      rewrite decide_True, Ho by lia. done.
    + exists None. split; [done|]. rewrite decide_False by lia. done.
  - by exists None.
Qed.

(** ** What is forwarded *)

Section spec.
Context (fx_hash : bytes → Z).
Context {W C R S : Type} `{!EqDecision C, !EqDecision R, !EqDecision S}.
Context `{mpsc_c : Mpsc W C bytes, laws_c : !MpscLaws W C bytes}.
Context `{mpsc_r : Mpsc W R IpAddr, laws_r : !MpscLaws W R IpAddr}.
Context `{mpsc_s : Mpsc W S (AllSendersMessage C), laws_s : !MpscLaws W S (AllSendersMessage C)}.
Context `{!MpscFrame W S (AllSendersMessage C) C bytes, !MpscFrame W S (AllSendersMessage C) R IpAddr}.
Context `{!MpscFrame W R IpAddr C bytes, !MpscFrame W R IpAddr S (AllSendersMessage C)}.
Context `{!MpscFrame W C bytes R IpAddr, !MpscFrame W C bytes S (AllSendersMessage C)}.
Context (all_senders : AllSenders S).

Lemma forward_spec millis packet (w : W) :
  is_bytes packet → packet ≠ [] →
  ∃ w', forward all_senders millis packet w = Ret w' ∧
    match decode_ip packet with
    | Traffic dst _ => w' = send_to_fastest all_senders dst (netpacket millis packet) w
    | _ => w' = w
    end.
Proof.
  intros Hb Hne. unfold forward. destruct (target_addr_decode packet Hb Hne) as ([dst|] & -> & Hd); cbn [mbind outcome_bind].
  - rewrite Hd. by eexists.
  - exists w. split; [done|]. destruct (decode_ip packet) as [| |dst ip| |] eqn:E; try done.
    exfalso. apply (Hd dst). f_equal. destruct packet as [|b0 rest]; [done|]. unfold decode_ip in E.
    destruct (_ =? 4); [|destruct (_ =? 6); [|done]];
      (destruct (decide _); [destruct (of_octets _); [|done]|done]); cbn in E; by injection E as _ <-.
Qed.

(** One node after another. What a node reads from its interface
    never makes it panic, and is forwarded exactly when it is an IP packet with
    a complete header; the packet it makes of it fits in a frame of a link. Any
    node that accepts that packet hands the original bytes, unchanged, to its own
    interface if it owns the destination, and otherwise sends the packet on
    towards the same destination, unchanged. ([MeshTraffic] follows the packet
    through a network.) *)
Theorem tun_forwarding millis packet (w : W) :
  is_bytes packet → packet ≠ [] → Z.of_nat (length packet) <= 2048 → uint 64 millis →
  is_open w (sender all_senders) = true →
  ∃ w', forward all_senders millis packet w = Ret w' ∧
    (((∀ dst, decode_ip packet ≠ Traffic dst packet) ∧ w' = w)
     ∨ ∃ dst, decode_ip packet = Traffic dst packet
       ∧ queued w' (sender all_senders) =
           queued w (sender all_senders) ++ [SendToFastest dst (netpacket millis packet)]
       ∧ packet_ok (netpacket millis packet)
       ∧ ∀ fuel current (st : Node C R) link wb,
           SeenPackets.wf (seen_packets st) → channels_open all_senders st wb →
           accepts fx_hash current st (netpacket millis packet) →
           ∃ st' wb', handle_packet fx_hash all_senders fuel current st (netpacket millis packet) link wb = Some (Ret (st', wb'))
             ∧ performs all_senders st
                 (if bool_decide (dst ∈ our_ips st) then MkEffects [] [] [packet]
                  else MkEffects [SendToFastest dst (netpacket millis packet)] [] []) wb wb').
Proof.
  intros Hb Hne Hlen Hms Ho. destruct (forward_spec millis packet w Hb Hne) as (w' & Hw & Hd). exists w'. split; [exact Hw|].
  destruct (target_addr_decode packet Hb Hne) as ([dst|] & Ht & Hdec).
  2:{ left. split; [exact Hdec|]. unfold forward in Hw. rewrite Ht in Hw. by injection Hw. }
  right. exists dst. rewrite Hdec in Hd. split; [exact Hdec|].
  assert (Hbn : is_bytes (netpacket millis packet)).
  { apply list.Forall_app. split; [apply to_le_bytes_bytes|]. constructor; [done|exact Hb]. }
  split_and!.
  - subst w'. unfold send_to_fastest. by rewrite send_queued, decide_True, Ho by done.
  - split; [exact Hbn|]. unfold netpacket. rewrite length_app, length_to_le_bytes. cbn [app length]. lia.
  - intros fuel current st link wb Hwf Hopen Ha.
    destruct (handle_packet_spec fx_hash all_senders fuel current st (netpacket millis packet) link wb Hbn Hwf Hopen) as [_ Hyes].
    destruct (Hyes Ha) as (seen & _ & _ & H). revert H. unfold netpacket at 1 2. cbn [app].
    rewrite cmd_of, payload_of. unfold decode. cbn [Z.eqb Pos.eqb]. rewrite Hdec.
    intros (wb' & Hrun & _ & P). exists (remember st seen), wb'. split; [exact Hrun|].
    cbn [effects] in P. exact P.
Qed.

Lemma mac_header packet dst :
  decode_ip packet = Traffic dst packet → is_bytes packet →
  ∃ hdr, length hdr = 4%nat ∧ Mac.write_buf packet = Ret (Some (hdr ++ packet)).
Proof.
  intros Hd Hb. destruct (packet !! 0%nat) as [b0|] eqn:E0; [|by destruct packet].
  rewrite (decode_ip_head packet b0 E0) in Hd. cbv zeta in Hd.
  unfold Mac.write_buf, index. rewrite E0. cbn [mbind outcome_bind].
  rewrite high_nibble by (by eapply Forall_lookup_1).
  destruct (Z.eqb_spec (b0 / 16) 4) as [E4|N4]; [|destruct (Z.eqb_spec (b0 / 16) 6) as [E6|N6]; [|done]];
    eexists; (split; [|reflexivity]); reflexivity.
Qed.

Lemma mac_read hdr packet millis reads (w : W) :
  length hdr = 4%nat → packet ≠ [] →
  Mac.tun_to_network all_senders ((millis, ReadOk (hdr ++ packet)) :: reads) w
    = (w ← forward all_senders millis packet w; Mac.tun_to_network all_senders reads w).
Proof.
  intros Hl Hne. do 4 (destruct hdr as [|? hdr]; [done|]). destruct hdr; [|done].
  cbn [app Mac.tun_to_network length drop]. rewrite decide_False by lia. by rewrite decide_False.
Qed.

(** The framing of the macOS interface is transparent. Every IP packet that the
    node delivers is written with a header; and if these frames are read back, at
    any times, exactly the same happens as on Linux with the bare packets. *)
Theorem mac_framing_transparent packets :
  Forall (λ p, is_bytes p ∧ ∃ dst, decode_ip p = Traffic dst p) packets →
  ∃ frames, Mac.network_to_tun packets = Ret frames ∧ length frames = length packets ∧
    ∀ times (w : W), length times = length packets →
      Mac.tun_to_network all_senders (zip times (ReadOk <$> frames)) w
        = Linux.tun_to_network all_senders (zip times (ReadOk <$> packets)) w.
Proof.
  induction 1 as [|packet packets (Hb & dst & Hd) _ IH]; [by exists []; split_and!; try done; intros []|].
  destruct IH as (frames & Hw & Hl & Hread). destruct (mac_header packet dst Hd Hb) as (hdr & Hh & Hf).
  assert (Hne : packet ≠ []) by (by intros ->).
  exists ((hdr ++ packet) :: frames). cbn [Mac.network_to_tun]. rewrite Hf, Hw. cbn [mbind outcome_bind].
  split_and!; [done|cbn [length]; by rewrite Hl|]. intros [|millis times] w [=]; rewrite !fmap_cons.
  change (Mac.tun_to_network all_senders ((millis, ReadOk (hdr ++ packet)) :: zip times (ReadOk <$> frames)) w
    = Linux.tun_to_network all_senders ((millis, ReadOk packet) :: zip times (ReadOk <$> packets)) w).
  rewrite mac_read by done.
  assert (E : Linux.tun_to_network all_senders ((millis, ReadOk packet) :: zip times (ReadOk <$> packets)) w
    = (w ← forward all_senders millis packet w; Linux.tun_to_network all_senders (zip times (ReadOk <$> packets)) w))
    by (by destruct packet).
  rewrite E. destruct (forward all_senders millis packet w) as [w1|why]; [|done]. cbn [mbind outcome_bind]. by apply Hread.
Qed.
End spec.

(** ** The route creator *)

(** The addresses that are new, in the order in which they first come. *)
Fixpoint new_addrs (already : gset IpAddr) (addrs : list IpAddr) : list IpAddr :=
  match addrs with
  | [] => []
  | a :: addrs => if bool_decide (a ∈ already) then new_addrs already addrs else a :: new_addrs ({[a]} ∪ already) addrs
  end.

Lemma elem_of_new_addrs a already addrs : a ∈ new_addrs already addrs ↔ a ∈ addrs ∧ a ∉ already.
Proof.
  revert already; induction addrs as [|b addrs IH]; intros already; cbn [new_addrs].
  { rewrite elem_of_nil. tauto. }
  case_bool_decide as Hb; rewrite !elem_of_cons, IH; [|rewrite elem_of_union, elem_of_singleton].
  - split; [tauto|]. intros [[->|?] ?]; tauto.
  - destruct (decide (a = b)) as [->|]; tauto.
Qed.

Lemma new_addrs_NoDup already addrs : NoDup (new_addrs already addrs).
Proof.
  revert already; induction addrs as [|b addrs IH]; intros already; cbn [new_addrs]; [constructor|].
  case_bool_decide; [done|]. constructor; [|done]. rewrite elem_of_new_addrs, elem_of_union, elem_of_singleton. tauto.
Qed.

Lemma new_addrs_sublist already addrs : new_addrs already addrs `sublist_of` addrs.
Proof.
  revert already; induction addrs as [|b addrs IH]; intros already; cbn [new_addrs]; [done|].
  case_bool_decide; [by apply sublist_cons|by apply sublist_skip].
Qed.

(** The route creator runs one command per distinct address, whatever the
    number of announcements: those of the addresses not yet known, in the order
    in which they first come, and it remembers them all. The same holds on Linux
    and on macOS. *)
Theorem route_creator_once name already addrs :
  ∃ fresh, NoDup fresh ∧ fresh `sublist_of` addrs ∧ (∀ a, a ∈ fresh ↔ a ∈ addrs ∧ a ∉ already)
    ∧ Linux.route_creator already addrs = (Linux.route_cmd <$> fresh, list_to_set addrs ∪ already)
    ∧ Mac.route_creator name already addrs = (Mac.route_cmd name <$> fresh, list_to_set addrs ∪ already).
Proof.
  exists (new_addrs already addrs).
  split; [apply new_addrs_NoDup|]. split; [apply new_addrs_sublist|]. split; [intros; apply elem_of_new_addrs|].
  revert already. induction addrs as [|a addrs IH]; intros already; cbn [Linux.route_creator Mac.route_creator new_addrs].
  { rewrite list_to_set_nil, (left_id_L ∅ (∪)). done. }
  rewrite list_to_set_cons. case_bool_decide as Ha.
  - destruct (IH already) as [-> ->]. replace ({[a]} ∪ list_to_set addrs ∪ already) with (list_to_set addrs ∪ already); [done|].
    apply set_eq. intros x. rewrite !elem_of_union, elem_of_singleton. split; [tauto|]. intros [[->|]|]; tauto.
  - destruct (IH ({[a]} ∪ already)) as [-> ->]. rewrite (assoc_L (∪)), (comm_L (∪) (list_to_set addrs)). done.
Qed.

(** ** Witnesses *)

Lemma tun_forwarding_witness :
  ∃ w', forward example_switch 1001 example_ip example_world = Ret w' ∧
    (((∀ dst, decode_ip example_ip ≠ Traffic dst example_ip) ∧ w' = example_world)
     ∨ ∃ dst, decode_ip example_ip = Traffic dst example_ip
       ∧ queued w' (Switch 0) = queued example_world (Switch 0) ++ [SendToFastest dst example_traffic]).
Proof.
  assert (Hb : is_bytes example_ip) by solve_bytes.
  assert (Hms : uint 64 1001) by (split; [lia|reflexivity]).
  destruct (tun_forwarding example_hash (C := byte_tx) (R := route_tx) example_switch 1001 example_ip example_world
    Hb ltac:(discriminate) ltac:(discriminate) Hms eq_refl) as (w' & H1 & H2).
  exists w'. split; [exact H1|]. destruct H2 as [H2|(dst & Hd & Hq & _)]; [left; exact H2|right].
  exists dst. split; [exact Hd|exact Hq].
Defined.

Lemma mac_framing_transparent_witness :
  ∃ frames, Mac.network_to_tun [example_ip] = Ret frames ∧ length frames = 1%nat ∧
    Mac.tun_to_network example_switch (zip [1001] (ReadOk <$> frames)) example_world
      = Linux.tun_to_network example_switch (zip [1001] (ReadOk <$> [example_ip])) example_world.
Proof.
  assert (H : Forall (λ p, is_bytes p ∧ ∃ dst, decode_ip p = Traffic dst p) [example_ip]).
  { constructor; [|constructor]. split; [solve_bytes|]. exists (V4 10 0 0 7). vm_compute. reflexivity. }
  destruct (mac_framing_transparent example_switch [example_ip] H) as (frames & H1 & H2 & H3).
  exists frames. split; [exact H1|]. split; [exact H2|]. exact (H3 [1001] example_world eq_refl).
Defined.
