(* ===== verification/Windows.v ===== *)
(** The TUN interface on Windows ([rust/src/windows_tuntap.rs]) and the bindings
    to the library behind it ([rust/src/wintun.rs]).

    [rust/README.md] says that these two files are from an older version and do
    not compile: the module [ipv6_addr] they use is gone. They are modelled as
    they are written, with that module's address type as a parameter. The
    library, the loader and the system calls are the class [Winapi]: what each
    answers in a state of the system, and the state it leaves. *)
From stdpp Require Import pretty.
From S2P Require Import Prelude Utf8 IpAddr SeenPackets Channel AllSenders World MeshNode Tun.

(** ** Strings *)

(** [str::chars] of a valid string. *)
Fixpoint chars (l : bytes) : list Z :=
  match l with
  | [] => []
  | b0 :: l =>
      if b0 <? 0x80 then b0 :: chars l else
      match l with
      | [] => []
      | b1 :: l =>
          if b0 <? 0xE0 then (b0 - 0xC0) * 64 + (b1 - 0x80) :: chars l else
          match l with
          | [] => []
          | b2 :: l =>
              if b0 <? 0xF0 then (b0 - 0xE0) * 4096 + (b1 - 0x80) * 64 + (b2 - 0x80) :: chars l else
              match l with
              | [] => []
              | b3 :: l => (b0 - 0xF0) * 262144 + (b1 - 0x80) * 4096 + (b2 - 0x80) * 64 + (b3 - 0x80) :: chars l
              end
          end
      end
  end.

(** The code units of a character. *)
Definition encode_utf16 (c : Z) : list Z :=
  if c <? 0x10000 then [c] else [0xD800 + (c - 0x10000) / 1024; 0xDC00 + (c - 0x10000) mod 1024].

Definition str_utf16_cstr (s : bytes) : list Z := concat (encode_utf16 <$> chars s) ++ [0].

(** What the library reads of such a string, up to the first zero, and the
    characters it means. *)
Fixpoint c_wide (l : list Z) : list Z :=
  match l with [] => [] | u :: l => if u =? 0 then [] else u :: c_wide l end.
Fixpoint decode_utf16 (l : list Z) : list Z :=
  match l with
  | [] => []
  | u :: l =>
      if in_range 0xD800 0xDBFF u then
        match l with
        | [] => []
        | v :: l => 0x10000 + (u - 0xD800) * 1024 + (v - 0xDC00) :: decode_utf16 l
        end
      else u :: decode_utf16 l
  end.

Lemma chars_encode c l : scalar c → chars (encode_utf8 c ++ l) = c :: chars l.
Proof.
  intros Hc. unfold scalar, encode_utf8 in *.
  destruct (Z.ltb_spec c 0x80); [|destruct (Z.ltb_spec c 0x800); [|destruct (Z.ltb_spec c 0x10000)]]; cbn [app chars].
  - by rewrite (proj2 (Z.ltb_lt c 0x80)).
  - pose proof (Z.div_mod c 64 ltac:(lia)). pose proof (Z.mod_pos_bound c 64 ltac:(lia)). utf8_cases. f_equal. lia.
  - pose proof (Z.div_mod c 64 ltac:(lia)). pose proof (Z.mod_pos_bound c 64 ltac:(lia)).
    pose proof (Z.div_mod (c / 64) 64 ltac:(lia)). pose proof (Z.mod_pos_bound (c / 64) 64 ltac:(lia)).
    rewrite (Z.div_div c 64 64) in * by lia. change (64 * 64) with 4096 in *. utf8_cases. f_equal. lia.
  - pose proof (Z.div_mod c 64 ltac:(lia)). pose proof (Z.mod_pos_bound c 64 ltac:(lia)).
    pose proof (Z.div_mod (c / 64) 64 ltac:(lia)). pose proof (Z.mod_pos_bound (c / 64) 64 ltac:(lia)).
    pose proof (Z.div_mod (c / 4096) 64 ltac:(lia)). pose proof (Z.mod_pos_bound (c / 4096) 64 ltac:(lia)).
    rewrite (Z.div_div c 64 64), (Z.div_div c 4096 64) in * by lia. change (64 * 64) with 4096 in *. change (4096 * 64) with 262144 in *.
    utf8_cases. f_equal. lia.
Qed.

Lemma utf16_units c l : scalar c → c ≠ 0 →
  c_wide (encode_utf16 c ++ l) = encode_utf16 c ++ c_wide l ∧ decode_utf16 (encode_utf16 c ++ l) = c :: decode_utf16 l.
Proof.
  intros Hc H0. unfold scalar, encode_utf16 in *. destruct (Z.ltb_spec c 0x10000); cbn [app c_wide decode_utf16].
  - utf8_cases. by split.
  - pose proof (Z.div_mod (c - 0x10000) 1024 ltac:(lia)). pose proof (Z.mod_pos_bound (c - 0x10000) 1024 ltac:(lia)).
    utf8_cases; try lia. split; [done|]. f_equal. lia.
Qed.

(** The library gets the name it is meant to get: a string without NUL is read
    back as its characters. *)
Theorem utf16_cstr_roundtrip cs :
  Forall scalar cs → 0 ∉ cs → decode_utf16 (c_wide (str_utf16_cstr (concat (encode_utf8 <$> cs)))) = cs.
Proof.
  intros Hcs H0. unfold str_utf16_cstr.
  assert (E : chars (concat (encode_utf8 <$> cs)) = cs).
  { clear H0. induction Hcs as [|c cs Hc _ IH]; [done|]. rewrite fmap_cons. cbn [concat]. by rewrite chars_encode, IH. }
  rewrite E. clear E. induction Hcs as [|c cs Hc _ IH]; [done|]. apply not_elem_of_cons in H0 as [Hne H0].
  rewrite fmap_cons. cbn [concat]. rewrite <- app_assoc. destruct (utf16_units c (concat (encode_utf16 <$> cs) ++ [0]) Hc ltac:(done)) as [-> _].
  destruct (utf16_units c (c_wide (concat (encode_utf16 <$> cs) ++ [0])) Hc ltac:(done)) as [_ ->]. by rewrite IH.
Qed.

(** ** The system *)

Record MIB_UNICASTIPADDRESS_ROW := MkRow {
  InterfaceLuid : Z; si_family : Z; sin6_addr : list Z; OnLinkPrefixLength : Z; DadState : Z;
}.

(** Pointers and handles are integers, 0 is null; [Sym] are loaded functions. *)
Class Winapi (W Sym : Type) := {
  library_new : bytes → W → result unit * W;
  library_get : string → W → result Sym;
  call_create_adapter : Sym → list Z → list Z → W → Z * W;
  call_get_adapter_luid : Sym → Z → W → Z * W;
  call_start_session : Sym → Z → Z → W → Z * W;
  call_get_read_wait_event : Sym → Z → W → Z * W;
  call_receive_packet : Sym → Z → W → (Z * Z) * W;       (* the packet and its size *)
  call_release_receive_packet : Sym → Z → Z → W → W;
  call_allocate_send_packet : Sym → Z → Z → W → Z * W;
  call_send_packet : Sym → Z → Z → W → W;
  read_memory : Z → nat → W → bytes;                     (* [from_raw_parts(..).to_vec()] *)
  write_memory : Z → bytes → W → W;                      (* [copy_nonoverlapping] *)
  GetLastError : W → Z;
  initialize_row : W → MIB_UNICASTIPADDRESS_ROW;         (* [InitializeUnicastIpAddressEntry] *)
  create_address_entry : MIB_UNICASTIPADDRESS_ROW → W → Z * W;
  wait_for_single_object : Z → W → Z * W;
  AF_INET6 : Z; IpDadStatePreferred : Z; WAIT_OBJECT_0 : Z;
}.

Section wintun.
Context {W Sym : Type} `{api : Winapi W Sym}.

Record WintunDLL := MkWintunDLL {
  sym_wintun_create_adapter : Sym; sym_wintun_get_adapter_luid : Sym; sym_wintun_start_session : Sym;
  sym_wintun_get_read_wait_event : Sym; sym_wintun_receive_packet : Sym; sym_wintun_release_receive_packet : Sym;
  sym_wintun_allocate_send_packet : Sym; sym_wintun_send_packet : Sym;
}.
Record WintunAdapterHandle := MkAdapter { adapter_ptr : Z }.
Record WintunSessionHandle := MkSession { session_ptr : Z }.

Definition failed {A} (what : string) (code : Z) : result A :=
  Err (what +:+ " failed with error code " +:+ pretty code)%string.

(** [WintunDLL::new]. *)
Definition wintun_new (path : bytes) (w : W) : result WintunDLL * W :=
  let '(lib, w) := library_new path w in
  (_ ← lib;
   a ← library_get "WintunCreateAdapter" w; b ← library_get "WintunGetAdapterLUID" w; c ← library_get "WintunStartSession" w;
   d ← library_get "WintunGetReadWaitEvent" w; e ← library_get "WintunReceivePacket" w;
   f ← library_get "WintunReleaseReceivePacket" w; g ← library_get "WintunAllocateSendPacket" w;
   h ← library_get "WintunSendPacket" w;
   Ok (MkWintunDLL a b c d e f g h), w).

Definition wintun_create_adapter (self : WintunDLL) (name : bytes) (w : W) : result WintunAdapterHandle * W :=
  let '(adapter, w) :=
    call_create_adapter (sym_wintun_create_adapter self) (str_utf16_cstr name) (str_utf16_cstr (str_bytes "Wintun")) w in
  if adapter =? 0 then (failed "WintunCreateAdapter" (GetLastError w), w) else (Ok (MkAdapter adapter), w).

Definition wintun_get_adapter_luid (self : WintunDLL) (adapter : WintunAdapterHandle) (w : W) : Z * W :=
  call_get_adapter_luid (sym_wintun_get_adapter_luid self) (adapter_ptr adapter) w.

Definition wintun_start_session (self : WintunDLL) (adapter : WintunAdapterHandle) (capacity : Z) (w : W) :
    result WintunSessionHandle * W :=
  let '(session, w) := call_start_session (sym_wintun_start_session self) (adapter_ptr adapter) capacity w in
  if session =? 0 then (failed "WintunStartSession" (GetLastError w), w) else (Ok (MkSession session), w).

Definition wintun_get_read_wait_event (self : WintunDLL) (session : WintunSessionHandle) (w : W) : Z * W :=
  call_get_read_wait_event (sym_wintun_get_read_wait_event self) (session_ptr session) w.

(** The packet is copied out before its memory is given back. The size is an
    [i32], taken [as usize]: a negative one would be a slice of about 2^64 bytes. *)
Definition wintun_receive_packet (self : WintunDLL) (session : WintunSessionHandle) (w : W) : result bytes * W :=
  let '((packet, packet_size), w) := call_receive_packet (sym_wintun_receive_packet self) (session_ptr session) w in
  if packet =? 0 then (failed "WintunReceivePacket" (GetLastError w), w)
  else
    let buf := read_memory packet (Z.to_nat (wrap 64 packet_size)) w in
    (Ok buf, call_release_receive_packet (sym_wintun_release_receive_packet self) (session_ptr session) packet w).

(** [n as i32]. *)
Definition as_i32 (n : Z) : Z := let m := wrap 32 n in if m <? 2 ^ 31 then m else m - 2 ^ 32.

Definition wintun_send_packet (self : WintunDLL) (session : WintunSessionHandle) (data : bytes) (w : W) : result unit * W :=
  let '(packet, w) :=
    call_allocate_send_packet (sym_wintun_allocate_send_packet self) (session_ptr session) (as_i32 (Z.of_nat (length data))) w in
  if packet =? 0 then (failed "WintunAllocateSendPacket" (GetLastError w), w)
  else (Ok tt, call_send_packet (sym_wintun_send_packet self) (session_ptr session) packet (write_memory packet data w)).

(** ** [wintun_start] *)

(** [ipv6_addr::Addr]: the module is not in the repository. *)
Context (from_node_name : bytes → outcome IpAddr) (to_buf : IpAddr → bytes) (from_buf : bytes → outcome IpAddr).

(** [for i in 0..16 { ...Byte[i] = addr[i]; }]. *)
Fixpoint copy_addr (n i : nat) (addr : bytes) : outcome bytes :=
  match n with
  | 0%nat => mret []
  | Datatypes.S n => b ← index addr i; rest ← copy_addr n (Datatypes.S i) addr; mret (b :: rest)
  end.

(** The unicast address of the adapter. *)
Definition address_row (dll : WintunDLL) (adapter : WintunAdapterHandle) (ipv6 : IpAddr) (w : W) :
    outcome (MIB_UNICASTIPADDRESS_ROW * W) :=
  let row := initialize_row w in
  let '(luid, w) := wintun_get_adapter_luid dll adapter w in
  addr ← copy_addr 16 0 (to_buf ipv6);
  mret (MkRow luid AF_INET6 addr 8 IpDadStatePreferred, w).

(** Up to the threads: the library and the session they share. *)
Definition wintun_start (node_name : bytes) (w : W) : outcome (result (WintunDLL * WintunSessionHandle) * W) :=
  match wintun_new (str_bytes "./wintun-amd64.dll") w with
  | (Err why, w) => mret (Err why, w)
  | (Ok dll, w) =>
      match wintun_create_adapter dll (str_bytes "smolmesh-" ++ node_name) w with
      | (Err why, w) => mret (Err why, w)
      | (Ok adapter, w) =>
          ipv6 ← from_node_name node_name;
          '(row, w) ← address_row dll adapter ipv6 w;
          let '(res, w) := create_address_entry row w in
          if negb (res =? 0) then mret (failed "CreateUnicastIpAddressEntry" res, w)
          else match wintun_start_session dll adapter 0x4000000 w with
               | (Err why, w) => mret (Err why, w)
               | (Ok session, w) => mret (Ok (dll, session), w)
               end
      end
  end.

(** ** The threads *)

(** The thread from the network to the interface: each packet is sent, an error
    is printed. *)
Definition network_to_tun (dll : WintunDLL) (session : WintunSessionHandle) (packets : list bytes) (w : W) : W :=
  foldl (λ w packet, (wintun_send_packet dll session packet w).2) w packets.

Context {C S : Type} `{mpsc_s : Mpsc W S (AllSendersMessage C)} (all_senders : AllSenders S).

(** What becomes of a packet of the interface. *)
Definition win_forward (millis : Z) (packet : bytes) (w : W) : outcome W :=
  b0 ← index packet 0;
  if negb (b0 =? 0x60) then mret w
  else
    buf ← slice packet 24 40;
    target ← from_buf buf;
    mret (send_to_fastest all_senders target (netpacket millis packet) w).

(** One iteration of the thread from the interface to the network. *)
Definition tun_to_network_step (dll : WintunDLL) (session : WintunSessionHandle) (wait_event millis : Z) (w : W) : outcome W :=
  match wintun_receive_packet dll session w with
  | (Err _, w) => mret (wait_for_single_object wait_event w).2
  | (Ok packet, w) => win_forward millis packet w
  end.

(** The thread, for the iterations so far, at the given times. *)
Fixpoint tun_to_network_loop (dll : WintunDLL) (session : WintunSessionHandle) (wait_event : Z) (times : list Z) (w : W) : outcome W :=
  match times with
  | [] => mret w
  | millis :: times => w ← tun_to_network_step dll session wait_event millis w; tun_to_network_loop dll session wait_event times w
  end.
Definition tun_to_network (dll : WintunDLL) (session : WintunSessionHandle) (times : list Z) (w : W) : outcome W :=
  let '(wait_event, w) := wintun_get_read_wait_event dll session w in tun_to_network_loop dll session wait_event times w.

(** Of the packets of the interface, those that begin as IPv6 without traffic
    class go where the other systems send them ([Tun.forward]); all other ones are
    dropped; an empty one, and an IPv6 packet cut before the end of its
    destination address, end the thread. *)
Theorem win_forward_correct millis packet w :
  (∀ buf, from_buf buf = ipv6_from_buf buf) →
  win_forward millis packet w =
    match packet with
    | [] => index packet 0 ≫= λ _, Ret w
    | b0 :: _ =>
        if decide (b0 = 0x60) then
          if decide (40 <= length packet)%nat then forward all_senders millis packet w
          else slice packet 24 40 ≫= λ _, Ret w
        else Ret w
    end.
Proof.
  intros Hbuf. unfold win_forward. destruct packet as [|b0 rest]; [done|].
  change (index (b0 :: rest) 0) with (Ret b0 : outcome Z). cbn [mbind outcome_bind]. case_decide as Hb.
  2:{ by rewrite (proj2 (Z.eqb_neq b0 0x60)). }
  subst b0. change (negb (0x60 =? 0x60)) with false. cbv iota. unfold slice. case_decide as Hl.
  - destruct Hl as [_ Hl]. rewrite decide_True by done. cbn [mbind outcome_bind]. rewrite Hbuf.
    unfold forward, target_addr. change (index (0x60 :: rest) 0) with (Ret 0x60 : outcome Z). cbn [mbind outcome_bind].
    change (Z.shiftr (Z.land 0x60 0xF0) 4) with 6. cbn [Z.eqb Pos.eqb andb]. rewrite (proj2 (Nat.leb_le _ _) Hl).
    unfold slice. rewrite decide_True by lia. cbn [mbind outcome_bind].
    by destruct (ipv6_from_buf _).
  - rewrite decide_False by lia. done.
Qed.

End wintun.
