(* ===== verification/Futures.v ===== *)
(** The futures of the runtime ([rust/src/leo_async.rs]): sleeping, timeouts,
    yielding, and the combinators.

    A future is its state and its [poll] function, a state transformer. The
    context carries the waker of the poll, the clock (the time of each reading of
    it), the timers pushed on [SLEEP_REGISTER] so far, the wakers woken, and [env],
    all else a future acts on (for the futures of [Descriptors]: the operating
    system and [POLL_REGISTER]). *)
From S2P Require Import Prelude.

Inductive Poll (T : Type) :=
| Ready (v : T)
| Pending.
Arguments Ready {_} _.
Arguments Pending {_}.

(** An [Instant] and a [Duration] are numbers of nanoseconds. *)
Definition from_millis (n : Z) : Z := n * 1000000.
Definition from_secs (n : Z) : Z := n * 1000000000.

Section futures.
Context {Waker E : Type} `{!EqDecision Waker}.

Record Cx := MkCx {
  waker : Waker;
  clock : nat → Z;
  reads : nat;
  sleep_register : list (Z * Waker);
  woken : list Waker;
  env : E;
}.

(** [Instant::now()]. *)
Definition instant_now (cx : Cx) : Z * Cx :=
  (clock cx (reads cx), MkCx (waker cx) (clock cx) (S (reads cx)) (sleep_register cx) (woken cx) (env cx)).
Definition push_sleep (at_ : Z) (cx : Cx) : Cx :=
  MkCx (waker cx) (clock cx) (reads cx) (sleep_register cx ++ [(at_, waker cx)]) (woken cx) (env cx).
Definition wake_by_ref (cx : Cx) : Cx :=
  MkCx (waker cx) (clock cx) (reads cx) (sleep_register cx) (woken cx ++ [waker cx]) (env cx).

Definition Fut (X T : Type) : Type := X → Cx → outcome (Poll T * X * Cx).

(** ** Sleeping *)

Record SleepFuture := MkSleepFuture { target : Z; registered_waker : option Waker }.

Definition sleep_poll : Fut SleepFuture unit := λ this cx,
  let '(now, cx) := instant_now cx in
  if target this <=? now then mret (Ready tt, this, cx) else
  if bool_decide (registered_waker this = Some (waker cx)) then mret (Pending, this, cx) else
  mret (Pending, MkSleepFuture (target this) (Some (waker cx)), push_sleep (target this) cx).

(** [sleep_seconds], for a duration. *)
Definition sleep_seconds (duration : Z) (cx : Cx) : SleepFuture * Cx :=
  let '(now, cx) := instant_now cx in (MkSleepFuture (now + duration) None, cx).

(** ** Yielding *)

Definition yield_poll : Fut bool unit := λ this cx,
  if this then mret (Ready tt, this, cx) else mret (Pending, true, wake_by_ref cx).

(** ** Timeouts *)

Record TimeoutFuture (X : Type) := MkTimeoutFuture {
  future : X;
  timeout_at : Z;
  timeout_waker : option Waker;
}.
Arguments MkTimeoutFuture {_} _ _ _.
Arguments future {_} _. Arguments timeout_at {_} _. Arguments timeout_waker {_} _.

Definition timeout_future {X} (f : X) (timeout : Z) (cx : Cx) : TimeoutFuture X * Cx :=
  let '(now, cx) := instant_now cx in (MkTimeoutFuture f (now + timeout) None, cx).

Definition timeout_poll {X T} (poll : Fut X T) : Fut (TimeoutFuture X) (result T) := λ this cx,
  let '(now, cx) := instant_now cx in
  if timeout_at this <=? now then mret (Ready (Err "Timeout"), this, cx) else
  '(poll_res, f, cx) ← poll (future this) cx;
  match poll_res with
  | Ready output => mret (Ready (Ok output), MkTimeoutFuture f (timeout_at this) (timeout_waker this), cx)
  | Pending =>
      if bool_decide (timeout_waker this = Some (waker cx)) then
        mret (Pending, MkTimeoutFuture f (timeout_at this) (timeout_waker this), cx)
      else
        mret (Pending, MkTimeoutFuture f (timeout_at this) (Some (waker cx)), push_sleep (timeout_at this) cx)
  end.

(** ** Combinators *)

Definition select2_poll {X1 X2 T1 T2} (poll1 : Fut X1 T1) (poll2 : Fut X2 T2) : Fut (X1 * X2) unit :=
  λ '(f1, f2) cx,
  '(r1, f1, cx) ← poll1 f1 cx;
  '(r2, f2, cx) ← poll2 f2 cx;
  match r1, r2 with
  | Pending, Pending => mret (Pending, (f1, f2), cx)
  | _, _ => mret (Ready tt, (f1, f2), cx)
  end.

Record Join2 (X1 X2 T1 T2 : Type) := MkJoin2 {
  future1 : X1;
  future2 : X2;
  future1_result : option T1;
  future2_result : option T2;
}.
Arguments MkJoin2 {_ _ _ _} _ _ _ _.
Arguments future1 {_ _ _ _} _. Arguments future2 {_ _ _ _} _.
Arguments future1_result {_ _ _ _} _. Arguments future2_result {_ _ _ _} _.

Definition join2 {X1 X2 T1 T2} (f1 : X1) (f2 : X2) : Join2 X1 X2 T1 T2 := MkJoin2 f1 f2 None None.

(** [if result.is_none() { match poll .. }]. *)
Definition poll_unless {X T} (poll : Fut X T) (res : option T) (f : X) (cx : Cx) : outcome (option T * X * Cx) :=
  match res with
  | Some v => mret (Some v, f, cx)
  | None =>
      '(r, f, cx) ← poll f cx;
      mret (match r with Ready v => Some v | Pending => None end, f, cx)
  end.

Definition join2_poll {X1 X2 T1 T2} (poll1 : Fut X1 T1) (poll2 : Fut X2 T2) : Fut (Join2 X1 X2 T1 T2) (T1 * T2) :=
  λ this cx,
  '(r1, f1, cx) ← poll_unless poll1 (future1_result this) (future1 this) cx;
  '(r2, f2, cx) ← poll_unless poll2 (future2_result this) (future2 this) cx;
  match r1, r2 with
  | Some v1, Some v2 => mret (Ready (v1, v2), MkJoin2 f1 f2 None None, cx)
  | _, _ => mret (Pending, MkJoin2 f1 f2 r1 r2, cx)
  end.

Record Fused (X : Type) := MkFused { fused_future : X; resolved : bool }.
Arguments MkFused {_} _ _.
Arguments fused_future {_} _. Arguments resolved {_} _.

Definition fused_poll {X T} (poll : Fut X T) : Fut (Fused X) T := λ this cx,
  if resolved this then Panic "Future polled after completion" else
  '(r, f, cx) ← poll (fused_future this) cx;
  match r with
  | Ready v => mret (Ready v, MkFused f true, cx)
  | Pending => mret (Pending, MkFused f false, cx)
  end.

(** ** Driving a future

    Polls with the wakers of [ws], one after the other, until it is ready; with
    each waker comes what happens to the environment before that poll. *)
Fixpoint drive {X T} (poll : Fut X T) (ws : list (Waker * (E → E))) (f : X) (cx : Cx) : outcome (option T * X * Cx) :=
  match ws with
  | [] => mret (None, f, cx)
  | (w, others) :: ws =>
      '(r, f, cx) ← poll f (MkCx w (clock cx) (reads cx) (sleep_register cx) (woken cx) (others (env cx)));
      match r with
      | Ready v => mret (Some v, f, cx)
      | Pending => drive poll ws f cx
      end
  end.

(** ** Timers are never lost *)

(** The waker a future remembers really is registered, at its time. *)
Definition armed (at_ : Z) (w : option Waker) (cx : Cx) : Prop :=
  ∀ w', w = Some w' → (at_, w') ∈ sleep_register cx.

(** A poll function keeps its waker, the clock, and the registrations made. *)
Definition well_behaved {X T} (poll : Fut X T) : Prop :=
  ∀ f cx r f' cx', poll f cx = Ret (r, f', cx') →
    waker cx' = waker cx ∧ clock cx' = clock cx ∧ (∀ e, e ∈ sleep_register cx → e ∈ sleep_register cx').


(** A timeout polled in time polls the inner future, and is registered while that
    is pending. *)
Lemma timeout_poll_late {X T} (poll : Fut X T) (this : TimeoutFuture X) cx :
  timeout_at this <= clock cx (reads cx) →
  timeout_poll poll this cx = Ret (Ready (Err "Timeout"), this, (instant_now cx).2).
Proof. intros Hle. unfold timeout_poll, instant_now. by rewrite (proj2 (Z.leb_le _ _) Hle). Qed.

Lemma timeout_poll_inner {X T} (poll : Fut X T) (this : TimeoutFuture X) cx r f cx1 :
  clock cx (reads cx) < timeout_at this → poll (future this) (instant_now cx).2 = Ret (r, f, cx1) →
  ∃ tw regs, let cx' := MkCx (waker cx1) (clock cx1) (reads cx1) (sleep_register cx1 ++ regs) (woken cx1) (env cx1) in
    timeout_poll poll this cx =
      Ret (match r with Ready v => Ready (Ok v) | Pending => Pending end, MkTimeoutFuture f (timeout_at this) tw, cx')
    ∧ (waker cx1 = waker cx → (∀ e, e ∈ sleep_register cx → e ∈ sleep_register cx1) → armed (timeout_at this) (timeout_waker this) cx →
       armed (timeout_at this) tw cx' ∧ (r = Pending → (timeout_at this, waker cx) ∈ sleep_register cx')).
Proof.
  intros Hlt Hp. unfold timeout_poll, instant_now in *. cbn [snd] in Hp. rewrite (proj2 (Z.leb_gt _ _) Hlt), Hp.
  cbn [mbind outcome_bind].
  assert (Hid : MkCx (waker cx1) (clock cx1) (reads cx1) (sleep_register cx1 ++ []) (woken cx1) (env cx1) = cx1)
    by (rewrite app_nil_r; by destruct cx1).
  assert (Harm : armed (timeout_at this) (timeout_waker this) cx → (∀ e, e ∈ sleep_register cx → e ∈ sleep_register cx1) →
    armed (timeout_at this) (timeout_waker this) cx1).
  { intros Ha Hreg w' Hw'. by apply Hreg, Ha. }
  destruct r as [v|].
  - exists (timeout_waker this), []. cbv zeta. rewrite Hid. split; [reflexivity|]. intros _ Hreg Ha. split; [by apply Harm|done].
  - case_bool_decide as Hr.
    + exists (timeout_waker this), []. cbv zeta. rewrite Hid. split; [reflexivity|]. intros Hw Hreg Ha. split; [by apply Harm|].
      intros _. rewrite <- Hw. by apply (Harm Ha Hreg).
    + exists (Some (waker cx1)), [(timeout_at this, waker cx1)]. cbv zeta. split; [reflexivity|]. intros Hw _ _. split.
      * intros w' [= <-]. cbn. apply elem_of_app. right. by apply list_elem_of_here.
      * intros _. cbn. rewrite Hw. apply elem_of_app. right. by apply list_elem_of_here.
Qed.

(** C38. A timer is never lost and never early. While a sleeping future, or one with
    a timeout, is pending, its time has not come and the waker of its last poll
    is registered for exactly that time, whichever wakers it has been polled
    with before; polled at or after its time it is ready at once, a timeout with
    an error and without polling the inner future; before that the inner
    future's result is passed on. *)
Theorem timers_not_lost {X T} (poll : Fut X T) :
  well_behaved poll →
  (∀ this cx, armed (target this) (registered_waker this) cx →
     let now := clock cx (reads cx) in
     ∃ r this' cx', sleep_poll this cx = Ret (r, this', cx') ∧ armed (target this') (registered_waker this') cx'
       ∧ target this' = target this
       ∧ (r = Ready tt ↔ target this <= now)
       ∧ (r = Pending → (target this, waker cx) ∈ sleep_register cx'))
  ∧ (∀ (this : TimeoutFuture X) cx, armed (timeout_at this) (timeout_waker this) cx →
     let now := clock cx (reads cx) in
     (timeout_at this <= now → ∃ cx', timeout_poll poll this cx = Ret (Ready (Err "Timeout"), this, cx'))
     ∧ (now < timeout_at this → ∀ r f cx1, poll (future this) (instant_now cx).2 = Ret (r, f, cx1) →
          ∃ r' this' cx', timeout_poll poll this cx = Ret (r', this', cx')
            ∧ armed (timeout_at this') (timeout_waker this') cx' ∧ timeout_at this' = timeout_at this ∧ future this' = f
            ∧ (∀ v, r = Ready v → r' = Ready (Ok v))
            ∧ (r = Pending → r' = Pending ∧ (timeout_at this, waker cx) ∈ sleep_register cx'))).
Proof.
  intros Hpoll. split.
  - intros this cx Harm. unfold sleep_poll, instant_now. cbn zeta.
    destruct (Z.leb_spec (target this) (clock cx (reads cx))) as [Hle|Hlt].
    { eexists _, _, _. split; [reflexivity|]. by split_and!. }
    assert (Hn : ∀ r : Poll unit, r = Pending → r = Ready tt ↔ target this <= clock cx (reads cx)).
    { intros r ->. split; [done|lia]. }
    case_bool_decide as Hw; eexists _, _, _; (split; [reflexivity|]).
    + split_and!; [done|done|by apply Hn|]. intros _. by apply Harm.
    + split_and!; [|done|by apply Hn|].
      * intros w' [= <-]. cbn. apply elem_of_app. right. by apply list_elem_of_here.
      * intros _. cbn. apply elem_of_app. right. by apply list_elem_of_here.
  - intros this cx Harm now. split; [by intros Hle; eexists; apply timeout_poll_late|].
    intros Hlt r f cx1 Hp. destruct (Hpoll _ _ _ _ _ Hp) as (Hw & _ & Hreg).
    destruct (timeout_poll_inner poll this cx r f cx1 Hlt Hp) as (tw & regs & Ht & H).
    destruct (H Hw Hreg Harm) as [Ha Hr]. eexists _, _, _. split; [exact Ht|].
    split_and!; [exact Ha|done|done|by intros v ->|]. intros ->. split; [done|by apply Hr].
Qed.

(** ** The contract of futures: not polled after completion *)

Definition total {X T} (poll : Fut X T) : Prop := ∀ f cx, ∃ r f' cx', poll f cx = Ret (r, f', cx').

(** Driving a future under an invariant of its pending states, which what happens
    between the polls preserves: it does not panic, and its result satisfies what
    every poll's result does. *)
Definition at_poll (w : Waker) (others : E → E) (cx : Cx) : Cx :=
  MkCx w (clock cx) (reads cx) (sleep_register cx) (woken cx) (others (env cx)).

Lemma drive_invariant {X T} (I : X → Cx → Prop) (Q : T → X → Cx → Prop) (poll : Fut X T) ws f cx :
  (∀ f cx, I f cx → ∃ r f' cx', poll f cx = Ret (r, f', cx')
     ∧ match r with Pending => I f' cx' | Ready v => Q v f' cx' end) →
  (∀ w others f cx, (w, others) ∈ ws → I f cx → I f (at_poll w others cx)) →
  I f cx →
  ∃ res f' cx', drive poll ws f cx = Ret (res, f', cx')
    ∧ match res with None => I f' cx' | Some v => Q v f' cx' end.
Proof.
  intros Hp. revert f cx. induction ws as [|[w others] ws IH]; intros f cx Ho Hf; cbn [drive]; [by eexists _, _, _|].
  fold (at_poll w others cx).
  destruct (Hp f (at_poll w others cx)) as (r & f' & cx' & -> & Hn); [by apply Ho; [apply list_elem_of_here|]|].
  cbn [mbind outcome_bind]. destruct r as [v|]; [by eexists _, _, _|].
  apply IH; [|exact Hn]. intros w' o' f0 cx0 Hin. apply Ho. by apply list_elem_of_further.
Qed.

Lemma drive_snoc {X T} (poll : Fut X T) ws w others f cx :
  drive poll (ws ++ [(w, others)]) f cx =
    ('(r, f, cx) ← drive poll ws f cx;
     match r with
     | Some v => mret (Some v, f, cx)
     | None => '(r, f, cx) ← poll f (at_poll w others cx);
               mret (match r with Ready v => Some v | Pending => None end, f, cx)
     end).
Proof.
  revert f cx. induction ws as [|[w' o'] ws IH]; intros f cx; cbn [app drive].
  - cbn [mbind outcome_bind mret outcome_ret]. unfold at_poll.
    destruct (poll f _) as [[[[v|] f'] cx']|]; reflexivity.
  - destruct (poll f _) as [[[[v|] f'] cx']|]; cbn [mbind outcome_bind]; [reflexivity|apply IH|reflexivity].
Qed.

Lemma drive_total {X T} (I : X → Prop) (poll : Fut X T) ws f cx :
  (∀ f cx, I f → ∃ r f' cx', poll f cx = Ret (r, f', cx') ∧ (r = Pending → I f')) →
  I f → ∃ res, drive poll ws f cx = Ret res.
Proof.
  intros Hp Hf. destruct (drive_invariant (λ f _, I f) (λ _ _ _, True) poll ws f cx) as (res & f' & cx' & Hr & _);
    [|done|exact Hf|by eexists].
  intros g c Hg. destruct (Hp g c Hg) as (r & f' & cx' & Hr & H). eexists _, _, _. split; [exact Hr|].
  destruct r; [done|by apply H].
Qed.

Lemma fused_poll_total {X T} (poll : Fut X T) this cx :
  total poll → resolved this = false →
  ∃ r this' cx', fused_poll poll this cx = Ret (r, this', cx') ∧ (r = Pending ↔ resolved this' = false).
Proof.
  intros Hp Hr. unfold fused_poll. rewrite Hr. destruct (Hp (fused_future this) cx) as (r & f' & cx' & ->).
  cbn [mbind outcome_bind]. destruct r; eexists _, _, _; (split; [reflexivity|]); done.
Qed.

Lemma poll_unless_fused {X T} (poll : Fut X T) res this cx :
  total poll → (res = None → resolved this = false) →
  ∃ res' this' cx', poll_unless (fused_poll poll) res this cx = Ret (res', this', cx')
    ∧ (res' = None → resolved this' = false).
Proof.
  intros Hp Hr. destruct res as [v|]; cbn [poll_unless]; [by eexists _, _, _|].
  destruct (fused_poll_total poll this cx Hp (Hr eq_refl)) as (r & this' & cx' & -> & Hn). cbn [mbind outcome_bind].
  eexists _, _, _. split; [reflexivity|]. destruct r; [done|]. by intros _; apply Hn.
Qed.

(** The combinators keep the contract of futures. Two futures that panic when
    they are polled after completion ([fused]) can be given to [select2], to
    [join2] or to a timeout and polled, with any wakers, until the result is
    ready, and neither is ever polled again once it has completed: [join2]
    remembers the first result while it waits for the second. *)
Theorem combinators_respect_contract {X1 X2 T1 T2} (p1 : Fut X1 T1) (p2 : Fut X2 T2) f1 f2 at_ ws cx :
  total p1 → total p2 →
  (∃ r, drive (select2_poll (fused_poll p1) (fused_poll p2)) ws (MkFused f1 false, MkFused f2 false) cx = Ret r)
  ∧ (∃ r, drive (join2_poll (fused_poll p1) (fused_poll p2)) ws (join2 (MkFused f1 false) (MkFused f2 false)) cx = Ret r)
  ∧ (∃ r, drive (timeout_poll (fused_poll p1)) ws (MkTimeoutFuture (MkFused f1 false) at_ None) cx = Ret r).
Proof.
  intros H1 H2. split_and!.
  - apply (drive_total (λ '(f1, f2), resolved f1 = false ∧ resolved f2 = false)); [|done].
    intros [g1 g2] cx' [Hr1 Hr2]. unfold select2_poll.
    destruct (fused_poll_total p1 g1 cx' H1 Hr1) as (r1 & g1' & cx1 & -> & N1). cbn [mbind outcome_bind].
    destruct (fused_poll_total p2 g2 cx1 H2 Hr2) as (r2 & g2' & cx2 & -> & N2). cbn [mbind outcome_bind].
    destruct r1, r2; eexists _, _, _; (split; [reflexivity|]); try done. intros _. split; [by apply N1|by apply N2].
  - apply (drive_total (λ this, (future1_result this = None → resolved (future1 this) = false)
                             ∧ (future2_result this = None → resolved (future2 this) = false))); [|done].
    intros this cx' [Hr1 Hr2]. unfold join2_poll.
    destruct (poll_unless_fused p1 (future1_result this) (future1 this) cx' H1 Hr1) as (r1 & g1' & cx1 & -> & N1).
    cbn [mbind outcome_bind].
    destruct (poll_unless_fused p2 (future2_result this) (future2 this) cx1 H2 Hr2) as (r2 & g2' & cx2 & -> & N2).
    cbn [mbind outcome_bind]. destruct r1, r2; eexists _, _, _; (split; [reflexivity|]); done.
  - apply (drive_total (λ this, resolved (future this) = false)); [|done].
    intros this cx' Hr. unfold timeout_poll, instant_now. case_match; [by eexists _, _, _|].
    match goal with |- context [fused_poll p1 _ ?c] =>
      destruct (fused_poll_total p1 (future this) c H1 Hr) as (r & g & cx1 & -> & N) end.
    cbn [mbind outcome_bind]. destruct r; [by eexists _, _, _|].
    case_bool_decide; eexists _, _, _; (split; [reflexivity|]); intros _; by apply N.
Qed.
End futures.
Arguments Cx : clear implicits.
Arguments SleepFuture : clear implicits.
Arguments MkTimeoutFuture {_ _} _ _ _.
Arguments future {_ _} _.
Arguments timeout_at {_ _} _.
Arguments timeout_waker {_ _} _.
Arguments MkJoin2 {_ _ _ _} _ _ _ _.
Arguments MkFused {_} _ _.

(** ** Witnesses *)

Lemma timers_not_lost_witness :
  let cx := MkCx 1%nat (λ _, 5) 0 [] [] tt in
  ∃ this' cx', sleep_poll (MkSleepFuture 9 None) cx = Ret (Pending, this', cx') ∧ (9, 1%nat) ∈ sleep_register cx'.
Proof.
  intros cx. assert (Hy : well_behaved (Waker := nat) (E := unit) yield_poll).
  { intros [] c r f' c'; unfold yield_poll; intros [= <- <- <-]; by split_and!. }
  destruct (timers_not_lost yield_poll Hy) as [H _].
  destruct (H (MkSleepFuture 9 None) cx ltac:(by intros ? ?)) as (r & this' & cx' & H1 & _ & _ & H2 & H3).
  assert (E : r = Pending).
  { destruct r as [[]|]; [|reflexivity]. pose proof (proj1 H2 eq_refl) as Hle. cbn in Hle. lia. }
  exists this', cx'. split; [rewrite H1, E; reflexivity|exact (H3 E)].
Defined.

(** A future that is ready at once and one that yields. *)
Lemma combinators_respect_contract_witness :
  let cx := MkCx 1%nat (λ _, 5) 0 [] [] tt in
  ∃ r, drive (join2_poll (fused_poll yield_poll) (fused_poll yield_poll)) [(1, id); (2, id); (3, id)]%nat
         (join2 (MkFused true false) (MkFused false false)) cx = Ret r.
Proof.
  intros cx. assert (Hy : total (Waker := nat) (E := unit) yield_poll) by (intros [] c; unfold yield_poll; eauto).
  apply (combinators_respect_contract yield_poll yield_poll true false 0 [(1, id); (2, id); (3, id)]%nat cx Hy Hy).
Defined.
