(* ===== verification/Loops.v ===== *)
(** The loops that sleep between their turns ([create_connection] and [listener] of
    [rust/src/legacy_tcp.rs], the announcing tasks and the cleaner of
    [rust/src/main.rs]), poll by poll: [retry_poll], around what a turn does, a future
    again.

    Within one poll a turn may end, a sleep be over and the next turn begin: the loop
    takes fuel. *)
From S2P Require Import Prelude Gimli Rng Delay Futures.

(** [Duration::from_secs_f64], for a number of seconds in units of 2^-64 (those of
    [Delay]): the nearest number of nanoseconds, the even one of two. *)
Definition from_secs_f64 (x : Z) : Z :=
  let q := (x * 1000000000) / ONE in
  let r := (x * 1000000000) mod ONE in
  if (2 * r <? ONE) || ((2 * r =? ONE) && Z.even q) then q else q + 1.

Lemma from_secs_f64_bounds a b x : a * ONE <= x <= b * ONE → from_secs a <= from_secs_f64 x <= from_secs b.
Proof.
  intros Hx. unfold from_secs_f64, from_secs. cbv zeta. assert (HO : 0 < ONE) by (unfold ONE; lia).
  pose proof (Z.div_mod (x * 1000000000) ONE ltac:(lia)) as Hdm. pose proof (Z.mod_pos_bound (x * 1000000000) ONE HO) as Hm.
  set (q := x * 1000000000 / ONE) in *. set (r := x * 1000000000 mod ONE) in *.
  assert (Hq : a * 1000000000 <= q <= b * 1000000000) by nia.
  destruct (_ || _) eqn:Hr; [done|]. split; [lia|].
  assert (r ≠ 0) by (destruct (Z.ltb_spec (2 * r) ONE); [done|lia]). nia.
Qed.

Section retry.
Context {E X T : Type} (RNG_of : E → Rng) (with_RNG : Rng → E → E).
Context (attempt : X → Cx nat E → option (outcome (Poll T * X * Cx nat E))) (start : X).

Inductive Retry := RyAttempt (x : X) | RySleep (sleep : SleepFuture nat).

(** [let delay = 5.0 + rng::uniform() * 5.0;] *)
Definition draw_delay (cx : Cx nat E) : Z * Cx nat E :=
  let '(d, r) := delay (RNG_of (env cx)) in
  (d, MkCx (waker cx) (clock cx) (reads cx) (sleep_register cx) (woken cx) (with_RNG r (env cx))).

Fixpoint retry_poll (fuel : nat) (this : Retry) (cx : Cx nat E) : option (outcome (Poll unit * Retry * Cx nat E)) :=
  match fuel with
  | O => None
  | S fuel =>
      match this with
      | RyAttempt x =>
          match attempt x cx with
          | None => None
          | Some (Panic why) => Some (Panic why)
          | Some (Ret (Pending, x, cx)) => Some (Ret (Pending, RyAttempt x, cx))
          | Some (Ret (Ready _, _, cx)) =>
              let '(delay, cx) := draw_delay cx in
              let '(sleep, cx) := sleep_seconds (from_secs_f64 delay) cx in
              retry_poll fuel (RySleep sleep) cx
          end
      | RySleep sleep =>
          match sleep_poll sleep cx with
          | Panic why => Some (Panic why)
          | Ret (Pending, sleep, cx) => Some (Ret (Pending, RySleep sleep, cx))
          | Ret (Ready _, _, cx) => retry_poll fuel (RyAttempt start) cx
          end
      end
  end.

(** More fuel than a poll needs makes no difference. *)
Lemma retry_poll_mono fuel fuel' this cx res :
  (fuel <= fuel')%nat → retry_poll fuel this cx = Some res → retry_poll fuel' this cx = Some res.
Proof.
  revert fuel' this cx. induction fuel as [|fuel IH]; intros [|fuel'] this cx Hle; [done..|lia|]. cbn [retry_poll]. apply le_S_n in Hle.
  destruct this as [x|sleep].
  - destruct (attempt x cx) as [[[[[v|] x'] cx1]|]|]; try done. destruct (draw_delay cx1) as [delay cx2].
    destruct (sleep_seconds _ cx2) as [sleep cx3]. by apply IH.
  - destruct (sleep_poll sleep cx) as [[[[v|] s'] cx1]|]; try done. by apply IH.
Qed.

(** ** What a poll comes to *)

(** The time between two attempts: five to ten seconds from the end of the first. *)
Definition paused (ended : Cx nat E) (sleep : SleepFuture nat) : Prop :=
  let now := clock ended (reads ended) in now + from_secs 5 <= target sleep <= now + from_secs 10.

(** Between the two, only a random number is drawn. *)
Definition drawn (ended cx' : Cx nat E) : Prop := env cx' = with_RNG (delay (RNG_of (env ended))).2 (env ended).

(** What follows when an attempt is polled: it goes on, or is over and the task
    sleeps. *)
Definition attempted (x : X) (cx : Cx nat E) (this' : Retry) (cx' : Cx nat E) : Prop :=
  match this' with
  | RyAttempt x' => attempt x cx = Some (Ret (Pending, x', cx'))
  | RySleep sleep => ∃ v x1 ended, attempt x cx = Some (Ret (Ready v, x1, ended)) ∧ paused ended sleep ∧ drawn ended cx'
  end.

(** What follows a state, in one poll from [cx] to [cx']. *)
Definition followed (this : Retry) (cx : Cx nat E) (this' : Retry) (cx' : Cx nat E) : Prop :=
  match this with
  | RyAttempt x => attempted x cx this' cx'
  | RySleep sleep =>
      let '(now, cx) := instant_now cx in
      if target sleep <=? now then attempted start cx this' cx' else ∃ sleep', this' = RySleep sleep' ∧ target sleep' = target sleep ∧ env cx' = env cx
  end.

Lemma followed_over sleep cx this' cx' :
  target sleep <= clock cx (reads cx) → followed (RySleep sleep) cx this' cx' → attempted start (instant_now cx).2 this' cx'.
Proof. intros Hle. cbn [followed instant_now]. by rewrite (proj2 (Z.leb_le _ _) Hle). Qed.

(** An asleep task is registered for its time. *)
Definition asleep_registered (this : Retry) (w : nat) (cx : Cx nat E) : Prop :=
  match this with RySleep sleep => (target sleep, w) ∈ sleep_register cx | RyAttempt _ => True end.

Context (RNG_with : ∀ r e, RNG_of (with_RNG r e) = r).
Context (alive : X → Cx nat E → Prop).
Context (start_alive : ∀ cx, alive start cx).
Context (attempt_ok : ∀ x cx, alive x cx → wf (RNG_of (env cx)) →
  ∃ r x' cx', attempt x cx = Some (Ret (r, x', cx')) ∧ clock cx' = clock cx ∧ waker cx' = waker cx ∧ wf (RNG_of (env cx'))
    ∧ (r = Pending → alive x' cx')).

(** No two readings of the clock in a row are five seconds apart. *)
Definition steady (cx : Cx nat E) : Prop := ∀ n, clock cx (S n) < clock cx n + from_secs 5.

Definition running (this : Retry) (cx : Cx nat E) : Prop :=
  wf (RNG_of (env cx))
  ∧ match this with
    | RyAttempt x => alive x cx
    | RySleep sleep => armed (target sleep) (registered_waker sleep) cx
    end.

(** The end of an attempt is followed by a sleep, in the same poll. *)
Lemma sleep_follows fuel cx :
  wf (RNG_of (env cx)) → steady cx →
  ∃ sleep cx', (let '(delay, cx) := draw_delay cx in
      let '(sleep, cx) := sleep_seconds (from_secs_f64 delay) cx in retry_poll (S fuel) (RySleep sleep) cx)
      = Some (Ret (Pending, RySleep sleep, cx'))
    ∧ running (RySleep sleep) cx' ∧ paused cx sleep ∧ drawn cx cx' ∧ clock cx' = clock cx ∧ waker cx' = waker cx
    ∧ (target sleep, waker cx) ∈ sleep_register cx'.
Proof.
  intros Hwf Hsteady. unfold draw_delay, drawn. destruct (delay_range (RNG_of (env cx)) Hwf) as [Hd Hwf'].
  destruct (delay (RNG_of (env cx))) as [d r]. cbn [fst snd] in *. apply from_secs_f64_bounds in Hd.
  set (at_ := clock cx (reads cx) + from_secs_f64 d).
  assert (Hlt : clock cx (S (reads cx)) < at_) by (specialize (Hsteady (reads cx)); unfold at_, from_secs in *; lia).
  cbn [retry_poll sleep_seconds instant_now clock reads waker sleep_register woken env]. unfold sleep_poll.
  cbn [instant_now clock reads waker sleep_register woken env target registered_waker]. fold at_.
  rewrite (proj2 (Z.leb_gt _ _) Hlt). rewrite bool_decide_eq_false_2 by done. unfold push_sleep.
  cbn [clock reads waker sleep_register woken env]. unfold mret, outcome_ret.
  assert (Hreg : (at_, waker cx) ∈ sleep_register cx ++ [(at_, waker cx)]) by (apply elem_of_app; right; by left).
  eexists _, _. split; [reflexivity|]. cbn [clock reads waker sleep_register woken env target registered_waker].
  split; [split|split; [|split; [done|split; [done|split; [done|exact Hreg]]]]].
  - cbn [env]. rewrite RNG_with. exact Hwf'.
  - by intros w [= <-].
  - unfold paused. cbn [target]. unfold at_. lia.
Qed.

Lemma retry_attempt_ok fuel x cx :
  alive x cx → wf (RNG_of (env cx)) → steady cx →
  ∃ this' cx', retry_poll (S (S fuel)) (RyAttempt x) cx = Some (Ret (Pending, this', cx'))
    ∧ running this' cx' ∧ followed (RyAttempt x) cx this' cx' ∧ clock cx' = clock cx ∧ asleep_registered this' (waker cx) cx'.
Proof.
  intros Ha Hwf Hsteady. cbn [retry_poll]. destruct (attempt_ok x cx Ha Hwf) as (r & x' & cx1 & Ht & Hc & Hw & Hwf1 & Hp).
  rewrite Ht. destruct r as [v|]; [|eexists _, cx1; split; [reflexivity|]; split; [split; [done|by apply Hp]|done]].
  destruct (sleep_follows fuel cx1 Hwf1) as (sleep & cx' & Heq & Hrun & Hpause & Hdrawn & Hc' & Hw' & Hreg); [by unfold steady; rewrite Hc|].
  exists (RySleep sleep), cx'. split; [exact Heq|]. split; [done|].
  split; [by eexists _, _, _|]. split; [congruence|]. cbn. by rewrite <- Hw.
Qed.

(** Every poll: it comes to an end, within four turns of the loop, and never
    completes. *)
Lemma retry_poll_ok fuel this cx :
  running this cx → steady cx → (4 <= fuel)%nat →
  ∃ this' cx', retry_poll fuel this cx = Some (Ret (Pending, this', cx'))
    ∧ running this' cx' ∧ followed this cx this' cx' ∧ clock cx' = clock cx ∧ asleep_registered this' (waker cx) cx'.
Proof.
  intros [Hwf Hrun] Hsteady Hf. destruct fuel as [|[|[|fuel]]]; [lia..|]. destruct this as [x|sleep]; [by apply retry_attempt_ok|].
  cbn [retry_poll followed instant_now]. unfold sleep_poll, instant_now. destruct (Z.leb_spec (target sleep) (clock cx (reads cx))) as [Hle|Hlt].
  - exact (retry_attempt_ok fuel start (instant_now cx).2 (start_alive _) Hwf Hsteady).
  - case_bool_decide as Hw; cbn [mret outcome_ret]; eexists _, _; (split; [reflexivity|]).
    + split; [by split|]. split; [by eexists|]. split; [done|]. by apply Hrun.
    + assert (Hreg : (target sleep, waker cx) ∈ sleep_register cx ++ [(target sleep, waker cx)]) by (apply elem_of_app; right; by left).
      split; [split; [done|by intros w [= <-]]|]. split; [by eexists|]. split; [done|exact Hreg].
Qed.
End retry.
Arguments Retry : clear implicits.
