(* ===== verification/Runtime.v ===== *)
(** The executor ([rust/src/leo_async.rs]): the run queue with its [scheduled]
    flags, the timers, the polling of file descriptors, and one iteration of
    [run_forever].

    A task is its number, and so is its waker. What a task does when it is polled
    (the wakers it wakes, the tasks it spawns, the timers and descriptors it
    registers, and whether it completes) is an argument, as are the clock and the
    descriptors that [poll] finds ready. *)
From Stdlib Require Import Sorted.
From S2P Require Import Prelude.

(** ** [sleep_storage] *)
Module SleepStore.
(** The binary heap of [InstantAndWaker]s, whose order makes the earliest the
    first: a list sorted by time. Which of two entries of the same time comes
    first is not specified by the heap; nothing below depends on it. *)
Record SleepStore := MkSleepStore { sleep_queue : list (Z * nat) }.

Definition new : SleepStore := MkSleepStore [].

Fixpoint push (e : Z * nat) (q : list (Z * nat)) : list (Z * nat) :=
  match q with
  | [] => [e]
  | x :: q => if e.1 <? x.1 then e :: x :: q else x :: push e q
  end.
Definition add (s : SleepStore) (instant : Z) (waker : nat) : SleepStore :=
  MkSleepStore (push (instant, waker) (sleep_queue s)).

(** The loop of [wake_all_ready]: the wakers it wakes, in order, and what is left. *)
Fixpoint pop_ready (now : Z) (q : list (Z * nat)) : list nat * list (Z * nat) :=
  match q with
  | [] => ([], [])
  | (instant, waker) :: q' =>
      if instant <=? now then let '(ws, rest) := pop_ready now q' in (waker :: ws, rest) else ([], q)
  end.
Definition wake_all_ready (now : Z) (s : SleepStore) : list nat * SleepStore :=
  let '(ws, rest) := pop_ready now (sleep_queue s) in (ws, MkSleepStore rest).

Definition get_next_wakeup (s : SleepStore) : option Z := fst <$> head (sleep_queue s).

(** *** Lemmas *)

Lemma filter_all {A} (P : A → Prop) `{∀ x, Decision (P x)} (l : list A) : Forall P l → filter P l = l.
Proof. induction 1 as [|x l Hx _ IH]; [done|]. by rewrite filter_cons, decide_True, IH. Qed.

Lemma filter_none {A} (P : A → Prop) `{∀ x, Decision (P x)} (l : list A) : Forall (λ x, ¬ P x) l → filter P l = [].
Proof. induction 1 as [|x l Hx _ IH]; [done|]. by rewrite filter_cons, decide_False. Qed.

Lemma Forall_filter_any {A} (P Q : A → Prop) `{∀ x, Decision (Q x)} (l : list A) : Forall P l → Forall P (filter Q l).
Proof. induction 1 as [|x l Hx _ IH]; [constructor|]. rewrite filter_cons. case_decide; [by constructor|done]. Qed.

Definition wf (s : SleepStore) : Prop := StronglySorted (λ a b, a.1 <= b.1) (sleep_queue s).

Lemma push_Permutation e q : push e q ≡ₚ e :: q.
Proof.
  induction q as [|x q IH]; cbn [push]; [done|]. destruct (_ <? _); [done|]. rewrite IH. apply Permutation_swap.
Qed.

Lemma push_sorted e q : StronglySorted (λ a b, a.1 <= b.1) q → StronglySorted (λ a b, a.1 <= b.1) (push e q).
Proof.
  induction 1 as [|x q Hq IH Hx]; cbn [push]; [by repeat constructor|].
  destruct (Z.ltb_spec e.1 x.1).
  - constructor; [by constructor|]. constructor; [lia|]. eapply list.Forall_impl; [exact Hx|]. simpl. lia.
  - constructor; [done|]. rewrite push_Permutation. constructor; [done|exact Hx].
Qed.

Lemma sleep_add_wf s i w : wf s → wf (add s i w).
Proof. apply push_sorted. Qed.

Lemma add_Permutation s i w : sleep_queue (add s i w) ≡ₚ (i, w) :: sleep_queue s.
Proof. apply push_Permutation. Qed.

Lemma pop_ready_spec now q :
  StronglySorted (λ a b, a.1 <= b.1) q →
  pop_ready now q = (snd <$> filter (λ e, e.1 <= now) q, filter (λ e, ¬ e.1 <= now) q).
Proof.
  induction 1 as [|[i w] q Hq IH Hx]; [done|]. cbn [pop_ready]. rewrite !filter_cons. cbn [fst].
  destruct (Z.leb_spec i now) as [Hle|Hlt].
  - rewrite IH, decide_True, decide_False by (done || lia). done.
  - rewrite (decide_False (P := i <= now)), (decide_True (P := ¬ i <= now)) by lia.
    assert (Hall : Forall (λ e, ¬ e.1 <= now) q).
    { eapply list.Forall_impl; [exact Hx|]. simpl. lia. }
    by rewrite (filter_all _ q Hall), (filter_none (λ e, e.1 <= now) q Hall).
Qed.
End SleepStore.

(** ** [fd_poller] *)
Module Poller.
Inductive PollType := Read | Write.

(** An entry of [POLL_REGISTER]: descriptor, direction, waker. *)
Definition entry : Type := nat * PollType * nat.
Definition fd_of (e : entry) : nat := e.1.1.
Definition waker_of (e : entry) : nat := e.2.

(** [cache.poll_state.get(fd)], once the register has been emptied into it. *)
Definition poll_state (fd : nat) (register : list entry) : list entry := filter (λ e, fd_of e = fd) register.

(** The fold over the waiters of a descriptor: is anyone reading, anyone writing. *)
Definition interest (wakers : list entry) : bool * bool :=
  foldl (λ '(has_read, has_write) (e : entry),
           match e.1.2 with Read => (true, has_write) | Write => (has_read, true) end) (false, false) wakers.

(** The descriptors handed to [poll], each with what it waits for: the map's keys
    in the order of its iteration. *)
Fixpoint fds (order : list nat) (register : list entry) : outcome (list (nat * (bool * bool))) :=
  match order with
  | [] => mret []
  | fd :: order =>
      match interest (poll_state fd register) with
      | (false, false) => Panic "unreachable"
      | flags => rest ← fds order register; mret ((fd, flags) :: rest)
      end
  end.

(** What is woken and what is registered again after [poll], for the descriptors
    that are [ready]; [order] and [order'] are the orders of the two iterations
    over the map. *)
Definition wake_ready (order : list nat) (ready : nat → bool) (register : list entry) : list nat :=
  concat ((λ fd, if ready fd then waker_of <$> poll_state fd register else []) <$> order).
Definition reregister (order' : list nat) (ready : nat → bool) (register : list entry) : list entry :=
  concat ((λ fd, if ready fd then [] else poll_state fd register) <$> order').

(** An order in which the map of a register can be iterated. *)
Definition iterates (order : list nat) (register : list entry) : Prop :=
  NoDup order ∧ ∀ fd, fd ∈ order ↔ fd ∈ fd_of <$> register.

(** *** Lemmas *)

Lemma interest_spec es hr hw :
  foldl (λ '(has_read, has_write) (e : entry),
           match e.1.2 with Read => (true, has_write) | Write => (has_read, true) end) (hr, hw) es
  = (hr || existsb (λ e : entry, match e.1.2 with Read => true | Write => false end) es,
     hw || existsb (λ e : entry, match e.1.2 with Read => false | Write => true end) es).
Proof.
  revert hr hw; induction es as [|[[fd ty] w] es IH]; intros hr hw; cbn; [by rewrite !orb_false_r|].
  destruct ty; rewrite IH; cbn; by rewrite ?orb_true_r, ?orb_assoc, ?orb_true_r, ?orb_false_r.
Qed.

Lemma interest_nonempty es : es ≠ [] → interest es ≠ (false, false).
Proof.
  destruct es as [|[[fd ty] w] es]; [done|]. intros _. unfold interest. rewrite interest_spec. by destruct ty.
Qed.

Lemma poll_state_nonempty fd register : fd ∈ fd_of <$> register → poll_state fd register ≠ [].
Proof.
  intros (e & -> & He)%list_elem_of_fmap Hn.
  assert (Hin : e ∈ poll_state (fd_of e) register) by (apply list_elem_of_filter; done).
  rewrite Hn in Hin. by apply elem_of_nil in Hin.
Qed.

Lemma fds_ok order register :
  (∀ fd, fd ∈ order → fd ∈ fd_of <$> register) →
  fds order register = Ret ((λ fd, (fd, interest (poll_state fd register))) <$> order).
Proof.
  induction order as [|fd order IH]; intros Hin; [done|]. cbn [fds].
  pose proof (interest_nonempty _ (poll_state_nonempty fd register (Hin fd (list_elem_of_here _ _)))) as Hne.
  rewrite IH by (intros fd' ?; apply Hin; by apply elem_of_cons; right).
  rewrite fmap_cons. by destruct (interest (poll_state fd register)) as [[] []].
Qed.

(** Splitting a register by descriptor loses nothing. *)
Lemma concat_poll_state (P : nat → Prop) `{∀ fd, Decision (P fd)} order register :
  NoDup order → (∀ e, e ∈ register → fd_of e ∈ order) →
  concat ((λ fd, if decide (P fd) then poll_state fd register else []) <$> order) ≡ₚ filter (λ e, P (fd_of e)) register.
Proof.
  intros Hnd. revert register. induction Hnd as [|fd order Hfd Hnd IH]; intros register Hin.
  { destruct register as [|e register]; [done|]. destruct (not_elem_of_nil (fd_of e)). apply Hin, list_elem_of_here. }
  rewrite fmap_cons. cbn [concat].
  set (others := filter (λ e, fd_of e ≠ fd) register).
  assert (Ho : ∀ fd', fd' ∈ order → poll_state fd' register = poll_state fd' others).
  { intros fd' Hin'. unfold poll_state, others. rewrite list_filter_filter. apply list_filter_iff. intros e.
    split; [intros <-; split; [done|]; by intros E; rewrite E in Hin'|tauto]. }
  assert (E : (λ fd, if decide (P fd) then poll_state fd register else []) <$> order
            = (λ fd, if decide (P fd) then poll_state fd others else []) <$> order).
  { apply list_fmap_ext. intros i fd' Hi. rewrite Ho; [done|]. by eapply list_elem_of_lookup_2. }
  rewrite E, (IH others).
  2:{ intros e [Hne He]%list_elem_of_filter. apply Hin in He as [Heq|Hmem]%elem_of_cons; [by destruct (Hne Heq)|exact Hmem]. }
  unfold others, poll_state. clear. induction register as [|e register IH]; [by destruct (decide (P fd))|].
  rewrite !filter_cons. destruct (decide (fd_of e = fd)) as [<-|Hne].
  - rewrite (decide_False (P := fd_of e ≠ fd_of e)) by tauto.
    destruct (decide (P (fd_of e))) as [HP|HP]; [cbn [app]; by rewrite IH|exact IH].
  - rewrite (decide_True (P := fd_of e ≠ fd)) by done. rewrite filter_cons.
    destruct (decide (P (fd_of e))); [|exact IH]. rewrite <- IH. by rewrite Permutation_middle.
Qed.

Lemma wake_ready_spec order ready register :
  NoDup order → (∀ e, e ∈ register → fd_of e ∈ order) →
  wake_ready order ready register ≡ₚ waker_of <$> filter (λ e, ready (fd_of e) = true) register.
Proof.
  intros Hnd Hin. pose proof (concat_poll_state (λ fd, ready fd = true) order register Hnd Hin) as E.
  cbv beta in E. rewrite <- E. unfold wake_ready. clear.
  induction order as [|fd order IH]; [done|]. rewrite !fmap_cons. cbn [concat]. rewrite fmap_app, IH. by destruct (ready fd).
Qed.

Lemma reregister_spec order ready register :
  NoDup order → (∀ e, e ∈ register → fd_of e ∈ order) →
  reregister order ready register ≡ₚ filter (λ e, ready (fd_of e) = false) register.
Proof.
  intros Hnd Hin. pose proof (concat_poll_state (λ fd, ready fd = false) order register Hnd Hin) as E.
  cbv beta in E. rewrite <- E. unfold reregister. clear.
  induction order as [|fd order IH]; [done|]. rewrite !fmap_cons. cbn [concat]. rewrite IH. by destruct (ready fd).
Qed.

Lemma wake_ready_in order ready register w :
  w ∈ wake_ready order ready register → ∃ e, w = waker_of e ∧ e ∈ register.
Proof.
  unfold wake_ready. induction order as [|fd order IH]; [by intros ?%elem_of_nil|]. rewrite fmap_cons. cbn [concat].
  intros [Hw|Hw]%elem_of_app; [|by apply IH]. destruct (ready fd); [|by apply elem_of_nil in Hw].
  apply list_elem_of_fmap in Hw as (e & -> & [_ He]%list_elem_of_filter). eauto.
Qed.

(** No waiter is lost by the poller. Whatever the order in which the map is
    iterated and whichever descriptors are ready, every waiting descriptor is
    polled for exactly the directions someone waits for (so the code's
    [unreachable!()] is not), the waiters of the ready ones are woken, each as
    often as it was registered, and exactly the others are registered again. *)
Theorem poller_conserves order order' ready register :
  iterates order register → iterates order' register →
  fds order register = Ret ((λ fd, (fd, interest (poll_state fd register))) <$> order)
  ∧ wake_ready order ready register ≡ₚ waker_of <$> filter (λ e, ready (fd_of e) = true) register
  ∧ reregister order' ready register ≡ₚ filter (λ e, ready (fd_of e) = false) register.
Proof.
  intros [Hnd Hin] [Hnd' Hin'].
  assert (Hall : ∀ o : list nat, (∀ fd, fd ∈ o ↔ fd ∈ fd_of <$> register) → ∀ e, e ∈ register → fd_of e ∈ o).
  { intros o Ho e He. apply Ho. by apply list_elem_of_fmap_2. }
  split_and!.
  - apply fds_ok. intros fd. by rewrite Hin.
  - by apply wake_ready_spec, Hall.
  - by apply reregister_spec, Hall.
Qed.
End Poller.

(** ** The executor *)
Module Executor.
Import SleepStore Poller.

(** What has happened to tasks; a record for the statements, the code keeps none. *)
Inductive event := Woken (t : nat) | Polled (t : nat).

(** The statics, the flags of the tasks, and which tasks still have a future. *)
Record Runtime := MkRuntime {
  next_task : nat;
  scheduled : gset nat;
  TASK_SENDER : list nat;
  futures : gset nat;
  SLEEP_REGISTER : list (Z * nat);
  POLL_REGISTER : list entry;
  log : list event;
}.

Definition with_queue (q : list nat) (rt : Runtime) : Runtime :=
  MkRuntime (next_task rt) (scheduled rt) q (futures rt) (SLEEP_REGISTER rt) (POLL_REGISTER rt) (log rt).
Definition with_sleeps (s : list (Z * nat)) (rt : Runtime) : Runtime :=
  MkRuntime (next_task rt) (scheduled rt) (TASK_SENDER rt) (futures rt) s (POLL_REGISTER rt) (log rt).
Definition with_polls (p : list entry) (rt : Runtime) : Runtime :=
  MkRuntime (next_task rt) (scheduled rt) (TASK_SENDER rt) (futures rt) (SLEEP_REGISTER rt) p (log rt).

(** [Task::wake]: the flag goes from false to true at most once per poll, and
    only then is the task pushed. *)
Definition wake (rt : Runtime) (t : nat) : Runtime :=
  if bool_decide (t ∈ scheduled rt) then
    MkRuntime (next_task rt) (scheduled rt) (TASK_SENDER rt) (futures rt) (SLEEP_REGISTER rt) (POLL_REGISTER rt)
      (log rt ++ [Woken t])
  else
    MkRuntime (next_task rt) ({[t]} ∪ scheduled rt) (TASK_SENDER rt ++ [t]) (futures rt) (SLEEP_REGISTER rt)
      (POLL_REGISTER rt) (log rt ++ [Woken t]).

(** [spawn]: a new task, scheduled from the start. *)
Definition spawn (rt : Runtime) : Runtime :=
  let t := next_task rt in
  MkRuntime (S t) ({[t]} ∪ scheduled rt) (TASK_SENDER rt ++ [t]) ({[t]} ∪ futures rt) (SLEEP_REGISTER rt)
    (POLL_REGISTER rt) (log rt ++ [Woken t]).

(** What a task can do to the runtime while it is polled. *)
Inductive action :=
| Wake (t : nat)
| Spawn
| Sleep (instant : Z) (waker : nat)
| PollFd (e : entry).

Definition act (rt : Runtime) (a : action) : Runtime :=
  match a with
  | Wake t => wake rt t
  | Spawn => spawn rt
  | Sleep instant waker => with_sleeps (SLEEP_REGISTER rt ++ [(instant, waker)]) rt
  | PollFd e => with_polls (POLL_REGISTER rt ++ [e]) rt
  end.

(** The body of [for task in task_vec.drain(..)]; [poll t] is what polling the
    future of [t] does, and whether it completes. *)
Definition run_task (poll : nat → list action * bool) (rt : Runtime) (t : nat) : Runtime :=
  let rt := MkRuntime (next_task rt) (scheduled rt ∖ {[t]}) (TASK_SENDER rt) (futures rt) (SLEEP_REGISTER rt)
              (POLL_REGISTER rt) (log rt ++ [Polled t]) in
  if bool_decide (t ∈ futures rt) then
    let rt := foldl act rt (poll t).1 in
    if (poll t).2 then
      MkRuntime (next_task rt) (scheduled rt) (TASK_SENDER rt) (futures rt ∖ {[t]}) (SLEEP_REGISTER rt)
        (POLL_REGISTER rt) (log rt)
    else rt
  else rt.

(** [as_millis() as i32], for a duration in nanoseconds. *)
Definition as_i32 (x : Z) : Z := let y := wrap 32 x in if y <? 2 ^ 31 then y else y - 2 ^ 32.
Definition sleep_ms (now : Z) (s : SleepStore) : Z :=
  match get_next_wakeup s with
  | Some next_wakeup => if now <? next_wakeup then as_i32 ((next_wakeup - now) / 1000000) else 1000
  | None => 1000
  end.

(** What one iteration meets: the clock when the timers are looked at and when
    the timeout is computed, the tasks, the orders of the poller's map, and the
    answer of [poll]. *)
Record Env := MkEnv {
  now_wake : Z;
  now_sleep : Z;
  task_poll : nat → list action * bool;
  order : list nat;
  order' : list nat;
  poll_answer : result (nat → bool);
}.

(** [while let Some(..) = SLEEP_REGISTER.pop() { sleep_store.add(..) }]. *)
Definition drain_sleeps (rt : Runtime) (s : SleepStore) : SleepStore :=
  foldl (λ s e, SleepStore.add s e.1 e.2) s (SLEEP_REGISTER rt).

(** Up to the call of [poll_and_wake]: the timeout it is given, too. *)
Definition run_tasks (env : Env) (rt : Runtime) (s : SleepStore) : Z * Runtime * SleepStore :=
  let s := drain_sleeps rt s in
  let rt := with_sleeps [] rt in
  let '(ws, s) := wake_all_ready (now_wake env) s in
  let rt := foldl wake rt ws in
  let task_vec := TASK_SENDER rt in
  let rt := with_queue [] rt in
  let rt := foldl (run_task (task_poll env)) rt task_vec in
  (match TASK_SENDER rt with [] => sleep_ms (now_sleep env) s | _ => 0 end, rt, s).

(** [poll_and_wake(..).unwrap()]. *)
Definition poll_and_wake (env : Env) (timeout_ms : Z) (rt : Runtime) : outcome Runtime :=
  fds ← fds (order env) (POLL_REGISTER rt);
  if timeout_ms <? -1 then Panic "called `Result::unwrap()` on an `Err` value" else
  match poll_answer env with
  | Err _ => Panic "called `Result::unwrap()` on an `Err` value"
  | Ok ready =>
      mret (foldl wake (with_polls (reregister (order' env) ready (POLL_REGISTER rt)) rt)
              (wake_ready (order env) ready (POLL_REGISTER rt)))
  end.

(** One iteration of the loop of [run_forever]. *)
Definition run_forever_step (env : Env) (rt : Runtime) (s : SleepStore) : outcome (Z * Runtime * SleepStore) :=
  let '(timeout_ms, rt, s) := run_tasks env rt s in
  rt ← poll_and_wake env timeout_ms rt;
  mret (timeout_ms, rt, s).

(** *** The invariant of the run queue

    [vec] are the tasks taken from the queue and not yet run. *)

(** The last thing that happened to a task. *)
Definition last_event (t : nat) (l : list event) : option event :=
  foldl (λ o e, match e with Woken t' | Polled t' => if decide (t' = t) then Some e else o end) None l.

Definition queue_ok (vec : list nat) (rt : Runtime) : Prop :=
  NoDup (vec ++ TASK_SENDER rt)
  ∧ (∀ t, t ∈ scheduled rt ↔ t ∈ vec ++ TASK_SENDER rt)
  ∧ (∀ t, t ∈ scheduled rt ∨ t ∈ futures rt → (t < next_task rt)%nat)
  ∧ (∀ t, last_event t (log rt) = Some (Woken t) → t ∈ scheduled rt).

Lemma last_event_snoc t l e :
  last_event t (l ++ [e]) =
    match e with Woken t' | Polled t' => if decide (t' = t) then Some e else last_event t l end.
Proof. unfold last_event. by rewrite foldl_app. Qed.

Lemma wake_ok vec rt t : (t < next_task rt)%nat → queue_ok vec rt → queue_ok vec (wake rt t).
Proof.
  intros Ht (Hnd & Hs & Hlt & Hlog). unfold wake. case_bool_decide as Hin.
  - split_and!; [done|done|done|]. intros t'. cbn [log scheduled]. rewrite last_event_snoc.
    destruct (decide (t = t')) as [->|]; [done|apply Hlog].
  - split_and!; cbn [TASK_SENDER scheduled futures next_task log].
    + rewrite app_assoc. apply list.NoDup_app. split_and!; [done| |apply NoDup_singleton].
      intros x Hx ->%list_elem_of_singleton. by apply Hin, Hs.
    + intros t'. rewrite app_assoc, elem_of_union, elem_of_singleton, elem_of_app, list_elem_of_singleton, Hs. tauto.
    + intros t'. rewrite elem_of_union, elem_of_singleton. intros [[->|?]|?]; [done|apply Hlt; tauto..].
    + intros t'. rewrite last_event_snoc, elem_of_union, elem_of_singleton.
      destruct (decide (t = t')) as [->|]; [by left|]. intros ?. right. by apply Hlog.
Qed.

Lemma spawn_ok vec rt : queue_ok vec rt → queue_ok vec (spawn rt).
Proof.
  intros (Hnd & Hs & Hlt & Hlog).
  assert (Hfresh : next_task rt ∉ scheduled rt) by (intros Hin; specialize (Hlt _ (or_introl Hin)); lia).
  unfold spawn. split_and!; cbn [TASK_SENDER scheduled futures next_task log].
  - rewrite app_assoc. apply list.NoDup_app. split_and!; [done| |apply NoDup_singleton].
    intros x Hx ->%list_elem_of_singleton. by apply Hfresh, Hs.
  - intros t'. rewrite app_assoc, elem_of_union, elem_of_singleton, elem_of_app, list_elem_of_singleton, Hs. tauto.
  - intros t'. rewrite !elem_of_union, !elem_of_singleton.
    intros [[->|H]|[->|H]]; [lia|specialize (Hlt t' ltac:(tauto)); lia|lia|specialize (Hlt t' ltac:(tauto)); lia].
  - intros t'. rewrite last_event_snoc, elem_of_union, elem_of_singleton.
    destruct (decide (next_task rt = t')) as [->|]; [by left|]. intros ?. right. by apply Hlog.
Qed.

(** Only wakers of tasks that exist are ever used. *)
Definition action_ok (next : nat) (a : action) : Prop :=
  match a with
  | Wake t => (t < next)%nat
  | Spawn => True
  | Sleep _ w => (w < next)%nat
  | PollFd e => (waker_of e < next)%nat
  end.

Lemma act_next rt a : (next_task rt <= next_task (act rt a))%nat.
Proof. destruct a as [t| | |]; cbn; [unfold wake; by case_bool_decide|lia|lia|lia]. Qed.

Lemma act_ok vec rt a : action_ok (next_task rt) a → queue_ok vec rt → queue_ok vec (act rt a).
Proof. destruct a as [t| |i w|e]; cbn [act action_ok]; intros Ha Hok; [by apply wake_ok|by apply spawn_ok|exact Hok|exact Hok]. Qed.

Lemma acts_ok vec rt as_ : Forall (action_ok (next_task rt)) as_ → queue_ok vec rt →
  queue_ok vec (foldl act rt as_) ∧ (next_task rt <= next_task (foldl act rt as_))%nat.
Proof.
  revert rt. induction as_ as [|a as_ IH]; intros rt Hall Hok; [done|]. cbn [foldl].
  apply list.Forall_cons in Hall as [Ha Hall]. pose proof (act_next rt a).
  destruct (IH (act rt a)) as [H1 H2]; [|by apply act_ok|split; [exact H1|lia]].
  eapply list.Forall_impl; [exact Hall|]. intros []; simpl; lia.
Qed.

Lemma run_task_ok poll vec rt t :
  Forall (action_ok (next_task rt)) (poll t).1 → queue_ok (t :: vec) rt →
  queue_ok vec (run_task poll rt t) ∧ (next_task rt <= next_task (run_task poll rt t))%nat.
Proof.
  intros Hacts (Hnd & Hs & Hlt & Hlog). cbn [app] in Hnd. apply list.NoDup_cons in Hnd as [Ht Hnd].
  unfold run_task. cbv zeta.
  set (rt1 := MkRuntime (next_task rt) (scheduled rt ∖ {[t]}) (TASK_SENDER rt) (futures rt) (SLEEP_REGISTER rt)
                (POLL_REGISTER rt) (log rt ++ [Polled t])).
  assert (Hok1 : queue_ok vec rt1).
  { split_and!; cbn [rt1 TASK_SENDER scheduled futures next_task log].
    - done.
    - intros t'. rewrite elem_of_difference, elem_of_singleton, Hs. cbn [app]. rewrite elem_of_cons.
      destruct (decide (t' = t)) as [->|]; tauto.
    - intros t'. rewrite elem_of_difference. intros H. apply Hlt. tauto.
    - intros t'. rewrite last_event_snoc, elem_of_difference, elem_of_singleton.
      destruct (decide (t = t')) as [->|]; [done|]. intros Hl. split; [by apply Hlog|congruence]. }
  case_bool_decide as Hf; [|by split].
  destruct (acts_ok vec rt1 (poll t).1 Hacts Hok1) as [Hok2 Hn2]. destruct (poll t).2; [|by split].
  split; [|exact Hn2]. destruct Hok2 as (A & B & C & D). split_and!; [exact A|exact B| |exact D].
  cbn [scheduled futures next_task]. intros t'. rewrite elem_of_difference. intros H. apply C. tauto.
Qed.

(** The tasks that have been polled, in order. *)
Definition polls (l : list event) : list nat := omap (λ e, match e with Polled t => Some t | _ => None end) l.

Lemma polls_app l l' : polls (l ++ l') = polls l ++ polls l'.
Proof. apply omap_app. Qed.

Lemma polls_wake rt t : polls (log (wake rt t)) = polls (log rt).
Proof. unfold wake. case_bool_decide; cbn [log]; by rewrite polls_app, app_nil_r. Qed.

Lemma polls_acts rt as_ : polls (log (foldl act rt as_)) = polls (log rt).
Proof.
  revert rt. induction as_ as [|a as_ IH]; intros rt; [done|]. cbn [foldl]. rewrite IH.
  destruct a; cbn [act]; [apply polls_wake| |done|done]. unfold spawn. cbn [log]. by rewrite polls_app, app_nil_r.
Qed.

Lemma polls_run_task poll rt t : polls (log (run_task poll rt t)) = polls (log rt) ++ [t].
Proof.
  unfold run_task. cbv zeta. case_bool_decide; [|cbn [log]; by rewrite polls_app].
  destruct (poll t).2; cbn [log]; rewrite polls_acts; cbn [log]; by rewrite polls_app.
Qed.

(** The registers only ever hold wakers of tasks that exist. *)
Definition wakers_ok (rt : Runtime) : Prop :=
  Forall (λ e, e.2 < next_task rt)%nat (SLEEP_REGISTER rt) ∧ Forall (λ e, waker_of e < next_task rt)%nat (POLL_REGISTER rt).

Lemma wakers_ok_act n rt a :
  (n <= next_task rt)%nat → action_ok n a → wakers_ok rt → wakers_ok (act rt a).
Proof.
  intros Hn Ha [Hs Hp]. pose proof (act_next rt a) as Hnext.
  assert (Hmono : Forall (λ e, e.2 < next_task (act rt a))%nat (SLEEP_REGISTER rt)
    ∧ Forall (λ e, waker_of e < next_task (act rt a))%nat (POLL_REGISTER rt)).
  { split; (eapply list.Forall_impl; [eassumption|]); simpl; lia. }
  destruct a as [t| |i w|e]; cbn [act action_ok] in *.
  - unfold wake in *. by case_bool_decide.
  - exact Hmono.
  - split; [|apply Hmono]. apply list.Forall_app. split; [apply Hmono|]. constructor; [cbn; lia|constructor].
  - split; [apply Hmono|]. apply list.Forall_app. split; [apply Hmono|]. constructor; [cbn; lia|constructor].
Qed.

Lemma wakers_ok_acts n rt as_ :
  (n <= next_task rt)%nat → Forall (action_ok n) as_ → wakers_ok rt → wakers_ok (foldl act rt as_).
Proof.
  revert rt. induction as_ as [|a as_ IH]; intros rt Hn Hall Hw; [done|]. cbn [foldl].
  apply list.Forall_cons in Hall as [Ha Hall]. pose proof (act_next rt a).
  apply IH; [lia|done|by apply (wakers_ok_act n)].
Qed.

(** A task keeps what the registers held. *)
Lemma act_registers rt a :
  (∀ e, e ∈ SLEEP_REGISTER rt → e ∈ SLEEP_REGISTER (act rt a)) ∧ (∀ e, e ∈ POLL_REGISTER rt → e ∈ POLL_REGISTER (act rt a)).
Proof.
  destruct a as [t| |i w|e]; cbn [act]; [unfold wake; by case_bool_decide|done| |].
  - split; [|done]. intros e ?. cbn. apply elem_of_app. by left.
  - split; [done|]. intros e' ?. cbn. apply elem_of_app. by left.
Qed.

Lemma acts_registers rt as_ e : e ∈ POLL_REGISTER rt → e ∈ POLL_REGISTER (foldl act rt as_).
Proof. revert rt. induction as_ as [|a as_ IH]; intros rt He; [done|]. apply IH, act_registers, He. Qed.

Lemma run_task_registers poll rt t e : e ∈ POLL_REGISTER rt → e ∈ POLL_REGISTER (run_task poll rt t).
Proof.
  intros He. unfold run_task. cbv zeta. case_bool_decide; [|exact He].
  destruct (poll t).2; cbn [POLL_REGISTER]; by apply acts_registers.
Qed.

Lemma run_task_wakers n poll rt t :
  (n <= next_task rt)%nat → Forall (action_ok n) (poll t).1 → wakers_ok rt → wakers_ok (run_task poll rt t).
Proof.
  intros Hn Hacts Hw. unfold run_task. cbv zeta. case_bool_decide; [|exact Hw].
  match goal with |- context [foldl act ?rt0 _] => pose proof (wakers_ok_acts n rt0 (poll t).1 Hn Hacts Hw) as H' end.
  destruct (poll t).2; exact H'.
Qed.

(** The loop over the tasks taken from the queue. *)
Lemma run_vec_ok n poll vec rt :
  (n <= next_task rt)%nat → (∀ t, Forall (action_ok n) (poll t).1) → queue_ok vec rt → wakers_ok rt →
  let rt' := foldl (run_task poll) rt vec in
  queue_ok [] rt' ∧ wakers_ok rt' ∧ polls (log rt') = polls (log rt) ++ vec ∧ (next_task rt <= next_task rt')%nat
  ∧ ∀ e, e ∈ POLL_REGISTER rt → e ∈ POLL_REGISTER rt'.
Proof.
  intros Hn Hacts. revert rt Hn. induction vec as [|t vec IH]; intros rt Hn Hok Hw; cbn [foldl].
  { by rewrite app_nil_r. }
  assert (Ha : Forall (action_ok (next_task rt)) (poll t).1).
  { eapply list.Forall_impl; [apply Hacts|]. intros []; simpl; lia. }
  destruct (run_task_ok poll vec rt t Ha Hok) as [Hok1 Hn1].
  destruct (IH (run_task poll rt t) ltac:(lia) Hok1 (run_task_wakers n poll rt t Hn (Hacts t) Hw)) as (H1 & H2 & H3 & H4 & H5).
  split_and!; [exact H1|exact H2| |lia|].
  - rewrite H3, polls_run_task, <- app_assoc. done.
  - intros e He. apply H5. by apply run_task_registers.
Qed.

(** Waking several tasks. *)
Lemma wakes_ok vec rt ws :
  Forall (λ w, w < next_task rt)%nat ws → queue_ok vec rt →
  let rt' := foldl wake rt ws in
  queue_ok vec rt' ∧ next_task rt' = next_task rt ∧ SLEEP_REGISTER rt' = SLEEP_REGISTER rt
  ∧ POLL_REGISTER rt' = POLL_REGISTER rt ∧ polls (log rt') = polls (log rt)
  ∧ (∀ w, w ∈ ws → w ∈ scheduled rt')
  ∧ ∃ ext, TASK_SENDER rt' = TASK_SENDER rt ++ ext ∧ ∀ w, w ∈ ext → w ∈ ws.
Proof.
  revert rt. induction ws as [|w ws IH]; intros rt Hall Hok; cbn [foldl].
  { split_and!; try done. - by intros w ?%elem_of_nil. - exists []. split; [by rewrite app_nil_r|done]. }
  apply list.Forall_cons in Hall as [Hw Hall].
  assert (Hsame : next_task (wake rt w) = next_task rt ∧ SLEEP_REGISTER (wake rt w) = SLEEP_REGISTER rt
    ∧ POLL_REGISTER (wake rt w) = POLL_REGISTER rt ∧ w ∈ scheduled (wake rt w)
    ∧ (∀ t, t ∈ scheduled rt → t ∈ scheduled (wake rt w))
    ∧ ∃ ext, TASK_SENDER (wake rt w) = TASK_SENDER rt ++ ext ∧ ∀ x, x ∈ ext → x = w).
  { unfold wake. case_bool_decide as Hin; cbn; split_and!; try done.
    - exists []. split; [by rewrite app_nil_r|by intros x ?%elem_of_nil].
    - apply elem_of_union. left. by apply elem_of_singleton.
    - intros t ?. apply elem_of_union. by right.
    - exists [w]. split; [done|]. by intros x ?%list_elem_of_singleton. }
  destruct Hsame as (E1 & E2 & E3 & E4 & E5 & ext & E6 & E7).
  destruct (IH (wake rt w)) as (H1 & H2 & H3 & H4 & H5 & H6 & ext' & H7 & H8);
    [by rewrite E1|by apply wake_ok|].
  split_and!; [exact H1|congruence|congruence|congruence|by rewrite H5, polls_wake| |].
  - intros x [->|Hx]%elem_of_cons; [|by apply H6].
    assert (Hmono : ∀ ws rt, w ∈ scheduled rt → w ∈ scheduled (foldl wake rt ws)).
    { clear. induction ws as [|y ws IH]; intros rt Hw; [done|]. apply IH. unfold wake. case_bool_decide; [done|].
      cbn. apply elem_of_union. by right. }
    by apply Hmono.
  - exists (ext ++ ext'). split; [by rewrite H7, E6, <- app_assoc|].
    intros x [Hx|Hx]%elem_of_app; apply elem_of_cons; [left; by apply E7|right; by apply H8].
Qed.

(** *** One iteration *)

Definition timers (rt : Runtime) (s : SleepStore) : list (Z * nat) := sleep_queue s ++ SLEEP_REGISTER rt.

(** The state in which an iteration starts. *)
Definition runtime_ok (rt : Runtime) (s : SleepStore) : Prop :=
  queue_ok [] rt ∧ SleepStore.wf s ∧ wakers_ok rt ∧ Forall (λ e, e.2 < next_task rt)%nat (sleep_queue s).

Lemma drain_sleeps_spec rt s :
  SleepStore.wf s → SleepStore.wf (drain_sleeps rt s) ∧ sleep_queue (drain_sleeps rt s) ≡ₚ timers rt s.
Proof.
  unfold drain_sleeps, timers. generalize (SLEEP_REGISTER rt). intros l. revert s.
  induction l as [|[i w] l IH]; intros s Hs; cbn [foldl]; [by rewrite app_nil_r|].
  destruct (IH (SleepStore.add s i w) (sleep_add_wf s i w Hs)) as [H1 H2]. split; [exact H1|].
  rewrite H2, add_Permutation. cbn [fst snd app]. by rewrite Permutation_middle.
Qed.

Lemma run_tasks_spec env rt s :
  runtime_ok rt s → (∀ t, Forall (action_ok (next_task rt)) (task_poll env t).1) →
  let '(timeout, rt', s') := run_tasks env rt s in
  runtime_ok rt' s' ∧ (next_task rt <= next_task rt')%nat
  ∧ (∃ due, polls (log rt') = polls (log rt) ++ TASK_SENDER rt ++ due ∧ NoDup (TASK_SENDER rt ++ due)
       ∧ (∀ i w, (i, w) ∈ timers rt s → i <= now_wake env → w ∈ TASK_SENDER rt ++ due)
       ∧ (∀ w, w ∈ due → ∃ i, i <= now_wake env ∧ (i, w) ∈ timers rt s))
  ∧ sleep_queue s' ≡ₚ filter (λ e, ¬ e.1 <= now_wake env) (timers rt s)
  ∧ (∀ e, e ∈ POLL_REGISTER rt → e ∈ POLL_REGISTER rt').
Proof.
  intros (Hok & Hs & Hw & Hws) Hacts. unfold run_tasks. cbv zeta.
  destruct (drain_sleeps_spec rt s Hs) as [Hs1 Hq1]. set (s1 := drain_sleeps rt s) in *.
  unfold wake_all_ready. rewrite (pop_ready_spec (now_wake env) (sleep_queue s1) Hs1).
  set (ws := snd <$> filter (λ e, e.1 <= now_wake env) (sleep_queue s1)).
  set (s2 := MkSleepStore (filter (λ e, ¬ e.1 <= now_wake env) (sleep_queue s1))).
  set (rt1 := with_sleeps [] rt).
  assert (Htim : Forall (λ e, e.2 < next_task rt)%nat (timers rt s)).
  { apply list.Forall_app. split; [exact Hws|apply Hw]. }
  assert (Hwse : ∀ w, w ∈ ws ↔ ∃ i, i <= now_wake env ∧ (i, w) ∈ timers rt s).
  { intros w. unfold ws. rewrite list_elem_of_fmap. split.
    - intros ([i w'] & -> & [Hi He]%list_elem_of_filter). exists i. split; [exact Hi|]. by rewrite <- Hq1.
    - intros (i & Hi & He). exists (i, w). split; [done|]. apply list_elem_of_filter. split; [exact Hi|by rewrite Hq1]. }
  assert (Hws1 : Forall (λ w, w < next_task rt1)%nat ws).
  { apply list.Forall_forall. intros w (i & _ & He)%Hwse. by eapply list.Forall_forall in Htim; [|exact He]. }
  destruct (wakes_ok [] rt1 ws Hws1 Hok) as (Hok2 & Hn2 & Hsr2 & Hpr2 & Hl2 & Hin2 & due & Hdue & Hdue').
  set (rt2 := foldl wake rt1 ws) in *.
  assert (Hok3 : queue_ok (TASK_SENDER rt2) (with_queue [] rt2)).
  { destruct Hok2 as (A & B & D & E). split_and!; cbn; rewrite ?app_nil_r; assumption. }
  assert (Hw3 : wakers_ok (with_queue [] rt2)).
  { split; cbn; [rewrite Hsr2; constructor|rewrite Hpr2, Hn2; apply Hw]. }
  destruct (run_vec_ok (next_task rt) (task_poll env) (TASK_SENDER rt2) (with_queue [] rt2) ltac:(cbn; rewrite Hn2; done)
    Hacts Hok3 Hw3) as (Hok4 & Hw4 & Hl4 & Hn4 & Hp4).
  set (rt3 := foldl (run_task (task_poll env)) (with_queue [] rt2) (TASK_SENDER rt2)) in *.
  assert (Hn : (next_task rt <= next_task rt3)%nat).
  { etransitivity; [|exact Hn4]. cbn. by rewrite Hn2. }
  assert (Hs2 : sleep_queue s2 ≡ₚ filter (λ e, ¬ e.1 <= now_wake env) (timers rt s)) by (cbn; by rewrite Hq1).
  unfold runtime_ok. split_and!.
  - exact Hok4.
  - unfold s2, SleepStore.wf. cbn. clear -Hs1. unfold SleepStore.wf in Hs1. induction Hs1 as [|x q Hq IH Hx]; [constructor|].
    rewrite filter_cons. case_decide; [|exact IH]. constructor; [exact IH|]. by apply Forall_filter_any.
  - exact Hw4.
  - rewrite Hs2. apply Forall_filter_any. eapply list.Forall_impl; [exact Htim|]. simpl. lia.
  - exact Hn.
  - exists due. cbn [TASK_SENDER] in Hdue. change (TASK_SENDER rt1) with (TASK_SENDER rt) in Hdue.
    change (log (with_queue [] rt2)) with (log rt2) in Hl4. change (log rt1) with (log rt) in Hl2.
    destruct Hok2 as (Hnd2 & Hsch2 & _ & _). cbn [app] in Hnd2, Hsch2. rewrite Hdue in *. split_and!.
    + by rewrite Hl4, Hl2.
    + exact Hnd2.
    + intros i w He Hi. apply Hsch2, Hin2, Hwse. eauto.
    + intros w Hwd. by apply Hwse, Hdue'.
  - exact Hs2.
  - intros e He. apply Hp4. cbn. rewrite Hpr2. exact He.
Qed.

Lemma as_i32_small x : 0 <= x < 2 ^ 31 → as_i32 x = x.
Proof.
  intros Hx. assert (Hu : uint 32 x).
  { unfold uint. change (2 ^ 31) with 2147483648 in Hx. change (2 ^ 32) with 4294967296. lia. }
  unfold as_i32. rewrite wrap_small by (exact Hu || lia). cbv zeta. by rewrite (proj2 (Z.ltb_lt x (2 ^ 31))) by lia.
Qed.

Lemma sleep_ms_nonneg now s :
  Forall (λ e, (e.1 - now) / 1000000 < 2 ^ 31) (sleep_queue s) → 0 <= sleep_ms now s.
Proof.
  intros Hall. unfold sleep_ms, get_next_wakeup. destruct (sleep_queue s) as [|[i w] q]; [done|].
  apply list.Forall_cons in Hall as [Hi _]. cbn [head fmap option_fmap option_map fst] in *.
  destruct (Z.ltb_spec now i); [|done].
  assert (0 <= (i - now) / 1000000) by (apply Z.div_pos; lia). by rewrite as_i32_small.
Qed.

Lemma run_tasks_timeout env rt s timeout rt1 s1 :
  runtime_ok rt s → (∀ t, Forall (action_ok (next_task rt)) (task_poll env t).1) →
  Forall (λ e, (e.1 - now_sleep env) / 1000000 < 2 ^ 31) (timers rt s) →
  run_tasks env rt s = (timeout, rt1, s1) → 0 <= timeout.
Proof.
  intros Hok Hacts Hfar Hrun. pose proof (run_tasks_spec env rt s Hok Hacts) as H. rewrite Hrun in H.
  destruct H as (_ & _ & _ & Htim & _).
  unfold run_tasks in Hrun. cbv zeta in Hrun. destruct (wake_all_ready _ _) as [ws s2]. injection Hrun as <- <- <-.
  case_match; [|lia]. apply sleep_ms_nonneg. rewrite Htim. by apply Forall_filter_any.
Qed.

(** [poll_and_wake], from any state that the tasks leave: the waiters of the
    descriptors that are ready are in the queue, the others registered again, and
    nothing is polled. *)
Lemma poll_and_wake_spec env rt s timeout ready :
  runtime_ok rt s → 0 <= timeout →
  iterates (order env) (POLL_REGISTER rt) → iterates (order' env) (POLL_REGISTER rt) → poll_answer env = Ok ready →
  ∃ rt2, poll_and_wake env timeout rt = Ret rt2 ∧ runtime_ok rt2 s ∧ polls (log rt2) = polls (log rt)
    ∧ next_task rt2 = next_task rt ∧ (∀ t, t ∈ TASK_SENDER rt → t ∈ TASK_SENDER rt2)
    ∧ (∀ e, e ∈ POLL_REGISTER rt → if ready (fd_of e) then waker_of e ∈ TASK_SENDER rt2 else e ∈ POLL_REGISTER rt2)
    ∧ SLEEP_REGISTER rt2 = SLEEP_REGISTER rt.
Proof.
  intros (Hq1 & Hs1 & [Hw1a Hw1b] & Hsw1) Htimeout [Hnd Hin] [Hnd' Hin'] Hready.
  assert (Hall : ∀ o : list nat, (∀ fd, fd ∈ o ↔ fd ∈ fd_of <$> POLL_REGISTER rt) → ∀ e, e ∈ POLL_REGISTER rt → fd_of e ∈ o).
  { intros o Hi e He. apply Hi. by apply list_elem_of_fmap_2. }
  assert (Hwoken : ∀ w, w ∈ wake_ready (order env) ready (POLL_REGISTER rt) ↔
    ∃ e, w = waker_of e ∧ e ∈ POLL_REGISTER rt ∧ ready (fd_of e) = true).
  { intros w. rewrite (wake_ready_spec _ _ _ Hnd (Hall _ Hin)), list_elem_of_fmap.
    split; intros (e & -> & He); exists e; (split; [done|]); by rewrite list_elem_of_filter in *; tauto. }
  assert (Hkept : ∀ e, e ∈ reregister (order' env) ready (POLL_REGISTER rt) ↔ e ∈ POLL_REGISTER rt ∧ ready (fd_of e) = false).
  { intros e. rewrite (reregister_spec _ _ _ Hnd' (Hall _ Hin')), list_elem_of_filter. tauto. }
  set (rt1' := with_polls (reregister (order' env) ready (POLL_REGISTER rt)) rt).
  assert (Hws : Forall (λ w, w < next_task rt1')%nat (wake_ready (order env) ready (POLL_REGISTER rt))).
  { apply list.Forall_forall. intros w (e & -> & He & _)%Hwoken. by eapply list.Forall_forall in Hw1b; [|exact He]. }
  destruct (wakes_ok [] rt1' _ Hws Hq1) as (Hq2 & Hn2 & Hsr2 & Hpr2 & Hl2 & Hin2 & ext & Hext & _).
  exists (foldl wake rt1' (wake_ready (order env) ready (POLL_REGISTER rt))).
  set (rt2 := foldl wake rt1' _) in *.
  split_and!; [..|exact Hsr2].
  - unfold poll_and_wake. rewrite fds_ok by (intros fd; apply Hin).
    cbn [mbind outcome_bind]. rewrite (proj2 (Z.ltb_ge timeout (-1))) by lia. by rewrite Hready.
  - split_and!; [exact Hq2|exact Hs1| |rewrite Hn2; exact Hsw1].
    split; [rewrite Hsr2, Hn2; exact Hw1a|]. rewrite Hpr2, Hn2. apply list.Forall_forall. intros e [He _]%Hkept.
    by eapply list.Forall_forall in Hw1b; [|exact He].
  - exact Hl2.
  - exact Hn2.
  - intros t Ht. rewrite Hext. apply elem_of_app. by left.
  - intros e He. destruct (ready (fd_of e)) eqn:Hr.
    + destruct Hq2 as (_ & Hs2 & _). change (TASK_SENDER rt2) with ([] ++ TASK_SENDER rt2). apply Hs2, Hin2, Hwoken. eauto.
    + rewrite Hpr2. apply Hkept. done.
Qed.

(** C22. The executor never loses a wake-up. From a state in which the queue holds
    exactly the tasks whose [scheduled] flag is set, each once, an iteration of
    [run_forever] ends (unless a timer lies more than 2^31 milliseconds ahead
    or [poll] fails) in such a state, and: it polls every queued task once, in
    order, then the tasks of the timers that are due, each task at most once; the
    timers not due are kept; the waiters of the descriptors that were ready are
    in the queue, the others still registered; and every task that was woken
    after its last poll, by whatever, is in the queue, so that the next iteration
    polls it. *)
Theorem run_forever_step_correct env rt s ready timeout rt1 s1 :
  runtime_ok rt s → (∀ t, Forall (action_ok (next_task rt)) (task_poll env t).1) →
  Forall (λ e, (e.1 - now_sleep env) / 1000000 < 2 ^ 31) (timers rt s) →
  run_tasks env rt s = (timeout, rt1, s1) →
  iterates (order env) (POLL_REGISTER rt1) → iterates (order' env) (POLL_REGISTER rt1) →
  poll_answer env = Ok ready →
  ∃ rt2, run_forever_step env rt s = Ret (timeout, rt2, s1) ∧ runtime_ok rt2 s1
    ∧ (∃ due, polls (log rt2) = polls (log rt) ++ TASK_SENDER rt ++ due ∧ NoDup (TASK_SENDER rt ++ due)
         ∧ (∀ i w, (i, w) ∈ timers rt s → i <= now_wake env → w ∈ TASK_SENDER rt ++ due)
         ∧ (∀ w, w ∈ due → ∃ i, i <= now_wake env ∧ (i, w) ∈ timers rt s))
    ∧ sleep_queue s1 ≡ₚ filter (λ e, ¬ e.1 <= now_wake env) (timers rt s)
    ∧ (∀ e, e ∈ POLL_REGISTER rt → if ready (fd_of e) then waker_of e ∈ TASK_SENDER rt2 else e ∈ POLL_REGISTER rt2)
    ∧ (∀ t, last_event t (log rt2) = Some (Woken t) → t ∈ TASK_SENDER rt2).
Proof.
  intros Hok Hacts Hfar Hrun Ho Ho' Hready. pose proof (run_tasks_spec env rt s Hok Hacts) as H. rewrite Hrun in H.
  destruct H as (Hok1 & Hn & (due & Hdue) & Htim & Hreg).
  pose proof (run_tasks_timeout env rt s timeout rt1 s1 Hok Hacts Hfar Hrun) as Htimeout.
  destruct (poll_and_wake_spec env rt1 s1 timeout ready Hok1 Htimeout Ho Ho' Hready)
    as (rt2 & Hpw & Hok2 & Hl2 & _ & _ & He2 & _).
  exists rt2. split_and!; [|exact Hok2| |exact Htim| |].
  - unfold run_forever_step. rewrite Hrun, Hpw. done.
  - exists due. rewrite Hl2. exact Hdue.
  - intros e He. by apply He2, Hreg.
  - intros t Ht. destruct Hok2 as ((_ & Hs2 & _ & Hlog) & _). by apply Hs2, Hlog.
Qed.

(** *** Several iterations *)

(** The descriptors that [poll] reports. *)
Definition answers (env : Env) (fd : nat) : bool := match poll_answer env with Ok ready => ready fd | Err _ => false end.

(** An iteration that ends: the wakers used exist, no timer is too far ahead, the
    poller's map is iterated in some order, and [poll] does not fail. *)
Inductive iteration (env : Env) (rt : Runtime) (s : SleepStore) (rt' : Runtime) (s' : SleepStore) : Prop :=
| Iteration timeout rt1 ready :
    (∀ t, Forall (action_ok (next_task rt)) (task_poll env t).1) →
    Forall (λ e, (e.1 - now_sleep env) / 1000000 < 2 ^ 31) (timers rt s) →
    run_tasks env rt s = (timeout, rt1, s') →
    iterates (order env) (POLL_REGISTER rt1) → iterates (order' env) (POLL_REGISTER rt1) →
    poll_answer env = Ok ready →
    run_forever_step env rt s = Ret (timeout, rt', s') →
    iteration env rt s rt' s'.

Inductive iterations : list Env → Runtime → SleepStore → Runtime → SleepStore → Prop :=
| iterations_nil rt s : iterations [] rt s rt s
| iterations_cons env envs rt s rt1 s1 rt2 s2 :
    iteration env rt s rt1 s1 → iterations envs rt1 s1 rt2 s2 → iterations (env :: envs) rt s rt2 s2.

(** A task only adds to the queue, and what the task [t] does is not undone. *)
Lemma act_keeps rt a t :
  (t ∈ TASK_SENDER rt → t ∈ TASK_SENDER (act rt a)) ∧ (t ∈ futures rt → t ∈ futures (act rt a)).
Proof.
  destruct a as [t'| | |]; cbn [act]; [unfold wake; case_bool_decide|unfold spawn|done|done]; cbn; [done|..];
    rewrite ?elem_of_app, ?elem_of_union; tauto.
Qed.

Lemma acts_keep rt as_ t :
  (t ∈ TASK_SENDER rt → t ∈ TASK_SENDER (foldl act rt as_)) ∧ (t ∈ futures rt → t ∈ futures (foldl act rt as_)).
Proof.
  revert rt. induction as_ as [|a as_ IH]; intros rt; [done|]. cbn [foldl].
  destruct (IH (act rt a)), (act_keeps rt a t). tauto.
Qed.

Lemma run_task_keeps poll rt t t' :
  (t ∈ TASK_SENDER rt → t ∈ TASK_SENDER (run_task poll rt t')) ∧ (t ≠ t' → t ∈ futures rt → t ∈ futures (run_task poll rt t')).
Proof.
  unfold run_task. cbv zeta. case_bool_decide; [|done].
  match goal with |- context [foldl act ?rt0 _] => destruct (acts_keep rt0 (poll t').1 t) as [H1 H2] end.
  destruct (poll t').2; cbn; [|tauto]. rewrite elem_of_difference, elem_of_singleton. tauto.
Qed.

Lemma acts_PollFd rt as_ e : PollFd e ∈ as_ → e ∈ POLL_REGISTER (foldl act rt as_).
Proof.
  revert rt. induction as_ as [|a as_ IH]; intros rt; [by intros ?%elem_of_nil|].
  cbn [foldl]. intros [<-|He]%elem_of_cons; [|by apply IH].
  apply acts_registers. cbn. apply elem_of_app. right. by apply list_elem_of_here.
Qed.

Lemma acts_scheduled rt as_ t : t ∈ scheduled rt → t ∈ scheduled (foldl act rt as_).
Proof.
  revert rt. induction as_ as [|a as_ IH]; intros rt Ht; [done|]. apply IH.
  destruct a; cbn [act]; [unfold wake; case_bool_decide|unfold spawn|done|done]; cbn; [done|by apply elem_of_union; right..].
Qed.

Lemma acts_Wake rt as_ t : Wake t ∈ as_ → t ∈ scheduled (foldl act rt as_).
Proof.
  revert rt. induction as_ as [|a as_ IH]; intros rt; [by intros ?%elem_of_nil|].
  cbn [foldl]. intros [<-|He]%elem_of_cons; [|by apply IH]. apply acts_scheduled.
  cbn [act]. unfold wake. case_bool_decide; [done|]. cbn. apply elem_of_union. left. by apply elem_of_singleton.
Qed.

(** Running the task [t] itself. *)
Lemma run_task_self poll vec rt t :
  Forall (action_ok (next_task rt)) (poll t).1 → queue_ok (t :: vec) rt → t ∈ futures rt →
  (∀ e, PollFd e ∈ (poll t).1 → e ∈ POLL_REGISTER (run_task poll rt t))
  ∧ (Wake t ∈ (poll t).1 → t ∈ TASK_SENDER (run_task poll rt t)).
Proof.
  intros Ha Hok Hf. destruct (run_task_ok poll vec rt t Ha Hok) as [(_ & Hs & _) _].
  destruct Hok as (Hnd & _). cbn [app] in Hnd. apply list.NoDup_cons in Hnd as [Ht _].
  assert (Hreg : ∀ e, PollFd e ∈ (poll t).1 → e ∈ POLL_REGISTER (run_task poll rt t)).
  { intros e He. unfold run_task. cbv zeta. rewrite bool_decide_true by done.
    destruct (poll t).2; cbn [POLL_REGISTER]; by apply acts_PollFd. }
  split; [exact Hreg|]. intros Hw.
  assert (Hin : t ∈ scheduled (run_task poll rt t)).
  { unfold run_task. cbv zeta. rewrite bool_decide_true by done.
    destruct (poll t).2; cbn [scheduled]; by apply acts_Wake. }
  apply Hs, elem_of_app in Hin as [Hin|Hin]; [|exact Hin]. destruct Ht. apply elem_of_app. by left.
Qed.

Lemma run_vec_kept n poll vec rt t :
  (n <= next_task rt)%nat → (∀ t, Forall (action_ok n) (poll t).1) → queue_ok vec rt → t ∈ vec → t ∈ futures rt →
  let rt' := foldl (run_task poll) rt vec in
  (∀ e, PollFd e ∈ (poll t).1 → e ∈ POLL_REGISTER rt') ∧ (Wake t ∈ (poll t).1 → t ∈ TASK_SENDER rt').
Proof.
  intros Hn Hacts. revert rt Hn. induction vec as [|t' vec IH]; intros rt Hn Hok Hin Hf; cbn [foldl]; [by apply elem_of_nil in Hin|].
  assert (Ha : Forall (action_ok (next_task rt)) (poll t').1).
  { eapply list.Forall_impl; [apply Hacts|]. intros []; simpl; lia. }
  destruct (run_task_ok poll vec rt t' Ha Hok) as [Hok1 Hn1].
  destruct (decide (t = t')) as [->|Hne].
  - destruct (run_task_self poll vec rt t' Ha Hok Hf) as [Hr Hw].
    clear -Hr Hw. generalize dependent (run_task poll rt t'). intros rt1 Hr Hw. cbv zeta.
    assert (Hkeep : ∀ l rt, (∀ e, e ∈ POLL_REGISTER rt → e ∈ POLL_REGISTER (foldl (run_task poll) rt l))
      ∧ (t' ∈ TASK_SENDER rt → t' ∈ TASK_SENDER (foldl (run_task poll) rt l))).
    { induction l as [|x l IHl]; intros rt2; [done|]. cbn [foldl]. destruct (IHl (run_task poll rt2 x)) as [A B]. split.
      - intros e He. by apply A, run_task_registers.
      - intros Hx. by apply B, run_task_keeps. }
    destruct (Hkeep vec rt1) as [A B]. split; [intros e He; by apply A, Hr|intros Hx; by apply B, Hw].
  - apply elem_of_cons in Hin as [?|Hin]; [done|].
    apply IH; [lia|exact Hok1|exact Hin|by apply run_task_keeps].
Qed.

(** The parts of [run_tasks]: the wakers of the timers, then the tasks of the queue. *)
Lemma run_tasks_split env rt s timeout rt1 s1 :
  runtime_ok rt s → run_tasks env rt s = (timeout, rt1, s1) →
  ∃ ws, let rt2 := foldl wake (with_sleeps [] rt) ws in
    Forall (λ w, w < next_task rt)%nat ws ∧ next_task rt2 = next_task rt
    ∧ (∀ t, t ∈ TASK_SENDER rt → t ∈ TASK_SENDER rt2) ∧ queue_ok (TASK_SENDER rt2) (with_queue [] rt2)
    ∧ rt1 = foldl (run_task (task_poll env)) (with_queue [] rt2) (TASK_SENDER rt2).
Proof.
  intros (Hok & Hs & Hw & Hws) Hrun. unfold run_tasks in Hrun. cbv zeta in Hrun.
  destruct (drain_sleeps_spec rt s Hs) as [Hs1 Hq1]. set (s2 := drain_sleeps rt s) in *.
  unfold wake_all_ready in Hrun. rewrite (pop_ready_spec (now_wake env) (sleep_queue s2) Hs1) in Hrun.
  injection Hrun as _ <- _. set (ws := snd <$> _). exists ws. cbv zeta.
  assert (Hws1 : Forall (λ w, w < next_task rt)%nat ws).
  { apply list.Forall_forall. intros w ([i w'] & -> & [_ He]%list_elem_of_filter)%list_elem_of_fmap.
    rewrite Hq1 in He. assert (Htim : Forall (λ e, e.2 < next_task rt)%nat (timers rt s)) by (apply list.Forall_app; split; [exact Hws|apply Hw]).
    by eapply list.Forall_forall in Htim; [|exact He]. }
  destruct (wakes_ok [] (with_sleeps [] rt) ws Hws1 Hok) as ((A & B & C & D) & Hn2 & _ & _ & _ & _ & ext & Hext & _).
  split_and!; [exact Hws1|exact Hn2| |split_and!; cbn; rewrite ?app_nil_r; assumption|reflexivity].
  intros t Ht. rewrite Hext. apply elem_of_app. by left.
Qed.

Lemma wake_futures rt ws : futures (foldl wake rt ws) = futures rt.
Proof. revert rt. induction ws as [|w ws IH]; intros rt; [done|]. cbn [foldl]. rewrite IH. unfold wake. by case_bool_decide. Qed.

(** What a queued task does in an iteration is still there when the iteration
    polls the descriptors. *)
Lemma run_tasks_kept env rt s timeout rt1 s1 t :
  runtime_ok rt s → (∀ t, Forall (action_ok (next_task rt)) (task_poll env t).1) →
  run_tasks env rt s = (timeout, rt1, s1) → t ∈ TASK_SENDER rt → t ∈ futures rt →
  (∀ e, PollFd e ∈ (task_poll env t).1 → e ∈ POLL_REGISTER rt1) ∧ (Wake t ∈ (task_poll env t).1 → t ∈ TASK_SENDER rt1).
Proof.
  intros Hok Hacts Hrun Ht Hf.
  destruct (run_tasks_split env rt s timeout rt1 s1 Hok Hrun) as (ws & _ & Hn & Hq & Hok2 & ->).
  apply (run_vec_kept (next_task rt)); [cbn; by rewrite Hn|exact Hacts|exact Hok2|by apply Hq|].
  cbn. by rewrite wake_futures.
Qed.

Lemma iteration_spec env rt s rt' s' :
  runtime_ok rt s → iteration env rt s rt' s' →
  runtime_ok rt' s'
  ∧ (∃ due, polls (log rt') = polls (log rt) ++ TASK_SENDER rt ++ due)
  ∧ (∀ e, e ∈ POLL_REGISTER rt → if answers env (fd_of e) then waker_of e ∈ TASK_SENDER rt' else e ∈ POLL_REGISTER rt')
  ∧ (∀ t, t ∈ TASK_SENDER rt → t ∈ futures rt →
       (∀ e, PollFd e ∈ (task_poll env t).1 → if answers env (fd_of e) then waker_of e ∈ TASK_SENDER rt' else e ∈ POLL_REGISTER rt')
       ∧ (Wake t ∈ (task_poll env t).1 → t ∈ TASK_SENDER rt')).
Proof.
  intros Hok [timeout rt1 ready Hacts Hfar Hrun Ho Ho' Hready Hstep].
  pose proof (run_tasks_spec env rt s Hok Hacts) as H. rewrite Hrun in H.
  destruct H as (Hok1 & Hn & (due & Hdue & _) & _ & Hreg).
  pose proof (run_tasks_timeout env rt s timeout rt1 s' Hok Hacts Hfar Hrun) as Htimeout.
  destruct (poll_and_wake_spec env rt1 s' timeout ready Hok1 Htimeout Ho Ho' Hready)
    as (rt2 & Hpw & Hok2 & Hl2 & _ & Hq2 & He2 & _).
  assert (rt2 = rt') as ->.
  { unfold run_forever_step in Hstep. rewrite Hrun, Hpw in Hstep. cbn in Hstep. by injection Hstep. }
  unfold answers. rewrite Hready. split_and!; [exact Hok2| | |].
  - exists due. by rewrite Hl2.
  - intros e He. by apply He2, Hreg.
  - intros t Ht Hf. destruct (run_tasks_kept env rt s timeout rt1 s' t Hok Hacts Hrun Ht Hf) as [A B].
    split; [intros e He; by apply He2, A|intros Hw; by apply Hq2, B].
Qed.

Lemma iterations_polls envs rt s rt' s' :
  runtime_ok rt s → iterations envs rt s rt' s' → runtime_ok rt' s' ∧ ∃ l, polls (log rt') = polls (log rt) ++ l.
Proof.
  intros Hok Hit. revert Hok. induction Hit as [rt s|env envs rt s rt1 s1 rt2 s2 Hi Hit IH]; intros Hok.
  { split; [done|]. exists []. by rewrite app_nil_r. }
  destruct (iteration_spec env rt s rt1 s1 Hok Hi) as (Hok1 & (due & Hdue) & _).
  destruct (IH Hok1) as (Hok2 & l & Hl). split; [done|]. eexists. by rewrite Hl, Hdue, <- app_assoc.
Qed.

(** A queued task is polled by the next iteration. *)
Lemma queued_resumed envs rt s rt' s' t :
  runtime_ok rt s → iterations envs rt s rt' s' → t ∈ TASK_SENDER rt →
  ∃ l, polls (log rt') = polls (log rt) ++ l ∧ (t ∈ l ∨ t ∈ TASK_SENDER rt').
Proof.
  intros Hok Hit Ht. revert Hok Ht. destruct Hit as [rt s|env envs' rt s rt1 s1 rt' s' Hi Hit]; intros Hok Ht.
  { exists []. rewrite app_nil_r. auto. }
  destruct (iteration_spec env _ _ rt1 s1 Hok Hi) as (Hok1 & (due & Hdue) & _).
  destruct (iterations_polls _ _ _ _ _ Hok1 Hit) as (_ & l & Hl).
  eexists. split; [by rewrite Hl, Hdue, <- app_assoc|]. left. rewrite !elem_of_app. auto.
Qed.

(** A registered waiter stays registered until its descriptor is ready; then its
    task is in the queue, and then it is polled. *)
Lemma waiter_resumed envs rt s rt' s' e :
  runtime_ok rt s → iterations envs rt s rt' s' → e ∈ POLL_REGISTER rt →
  ∃ l, polls (log rt') = polls (log rt) ++ l
    ∧ (waker_of e ∈ l ∨ waker_of e ∈ TASK_SENDER rt'
       ∨ (e ∈ POLL_REGISTER rt' ∧ Forall (λ env, answers env (fd_of e) = false) envs)).
Proof.
  intros Hok Hit. revert Hok. induction Hit as [rt s|env envs rt s rt1 s1 rt2 s2 Hi Hit IH]; intros Hok He.
  { exists []. rewrite app_nil_r. auto. }
  destruct (iteration_spec env rt s rt1 s1 Hok Hi) as (Hok1 & (due & Hdue) & Hreg & _).
  specialize (Hreg e He). destruct (answers env (fd_of e)) eqn:Ha.
  - destruct (queued_resumed _ _ _ _ _ _ Hok1 Hit Hreg) as (l & Hl & Hcase).
    eexists. split; [by rewrite Hl, Hdue, <- app_assoc|]. rewrite !elem_of_app. tauto.
  - destruct (IH Hok1 Hreg) as (l & Hl & Hcase).
    eexists. split; [by rewrite Hl, Hdue, <- app_assoc|]. rewrite !elem_of_app.
    destruct Hcase as [?|[?|[? Hall]]]; [tauto..|]. right. right. by split; [|constructor].
Qed.

(** How long the executor sleeps. When no task is left to run, the timeout of
    [poll] is computed from the timers that were known when the iteration began,
    and from nothing else: a timer that a task sets while it runs is not looked
    at before [poll] returns, however soon it is due; and if the first known
    timer has become due in the meantime, or there is none, the executor sleeps
    for a whole second. *)
Theorem poll_timeout_ignores_new_timers env rt s timeout rt1 s1 :
  runtime_ok rt s → (∀ t, Forall (action_ok (next_task rt)) (task_poll env t).1) →
  run_tasks env rt s = (timeout, rt1, s1) → TASK_SENDER rt1 = [] →
  sleep_queue s1 ≡ₚ filter (λ e, ¬ e.1 <= now_wake env) (timers rt s)
  ∧ timeout = sleep_ms (now_sleep env) s1
  ∧ (Forall (λ e, e.1 <= now_sleep env) (sleep_queue s1) → timeout = 1000)
  ∧ (∀ i, get_next_wakeup s1 = Some i → 0 < i - now_sleep env < 1000000 * 2 ^ 31 →
       timeout = (i - now_sleep env) / 1000000 ∧ Forall (λ e, i <= e.1) (sleep_queue s1)).
Proof.
  intros Hok Hacts Hrun Hempty. pose proof (run_tasks_spec env rt s Hok Hacts) as H. rewrite Hrun in H.
  destruct H as ((_ & Hs1 & _) & _ & _ & Htim & _).
  assert (Ht : timeout = sleep_ms (now_sleep env) s1).
  { unfold run_tasks in Hrun. cbv zeta in Hrun. destruct (wake_all_ready _ _) as [ws s2]. injection Hrun as <- <- <-.
    by rewrite Hempty. }
  split_and!; [exact Htim|exact Ht| |].
  - intros Hall. rewrite Ht. unfold sleep_ms, get_next_wakeup. destruct (sleep_queue s1) as [|[i w] q]; [done|].
    apply list.Forall_cons in Hall as [Hi _]. cbn in *. by rewrite (proj2 (Z.ltb_ge (now_sleep env) i)) by lia.
  - intros i Hi Hfar. rewrite Ht. unfold sleep_ms. rewrite Hi, (proj2 (Z.ltb_lt (now_sleep env) i)) by lia. split.
    + apply as_i32_small. split; [apply Z.div_pos; lia|]. apply Z.div_lt_upper_bound; lia.
    + unfold get_next_wakeup in Hi. unfold SleepStore.wf in Hs1. destruct Hs1 as [|[i' w] q Hq Hx]; [done|].
      cbn in Hi. injection Hi as ->. constructor; [cbn; lia|exact Hx].
Qed.
End Executor.

(** ** [fn_thread_future]

    A function that runs on a thread of its own, and the future that waits for
    it. The two share a slot for the result and one for the waker, each behind
    its mutex: every locked section is one step, and the steps of the two sides
    interleave freely. *)
Module ThreadFuture.
Section thread_future.
Context {T : Type} (v : T).

Inductive ThreadState := Computing | Stored | Exited.
Inductive FutureState := Idle | Polling | Finished (res : T).

Record State := MkState {
  result : option T;
  waker : bool;             (* a waker is in the slot *)
  thread : ThreadState;
  fut : FutureState;
  woken : bool;             (* the task is going to be polled *)
}.

(** A future that has just been created is polled by its task. *)
Definition initial : State := MkState None false Computing Idle true.

Inductive step : State → State → Prop :=
| poll_waker s :            (* waker.lock().replace(ctx.waker().clone()) *)
    fut s = Idle → woken s = true →
    step s (MkState (result s) true (thread s) Polling false)
| poll_ready s res :        (* result.lock().take() is Some *)
    fut s = Polling → result s = Some res →
    step s (MkState None (waker s) (thread s) (Finished res) (woken s))
| poll_pending s :          (* result.lock().take() is None *)
    fut s = Polling → result s = None →
    step s (MkState None (waker s) (thread s) Idle (woken s))
| thread_store s :          (* result.lock().replace(f()) *)
    thread s = Computing →
    step s (MkState (Some v) (waker s) Stored (fut s) (woken s))
| thread_wake s :           (* waker.lock().take() is Some: wake and leave the loop *)
    thread s = Stored → waker s = true →
    step s (MkState (result s) false Exited (fut s) true)
| thread_spin s :           (* waker.lock().take() is None: yield and try again *)
    thread s = Stored → waker s = false →
    step s s
| other_wake s :            (* the task is woken for some other reason *)
    step s (MkState (result s) (waker s) (thread s) (fut s) true).

Definition reachable : State → Prop := rtc step initial.

Definition inv (s : State) : Prop :=
  match thread s with
  | Computing => result s = None ∧ (fut s = Polling ∨ fut s = Idle) ∧ (fut s = Idle → waker s = true ∨ woken s = true)
      ∧ (fut s = Polling → waker s = true)
  | Stored => match fut s with
              | Idle => result s = Some v ∧ (waker s = true ∨ woken s = true)
              | Polling => result s = Some v ∧ waker s = true
              | Finished res => res = v
              end
  | Exited => match fut s with
              | Idle => result s = Some v ∧ woken s = true
              | Polling => result s = Some v
              | Finished res => res = v
              end
  end.

Lemma step_inv s s' : step s s' → inv s → inv s'.
Proof.
  intros Hs. unfold inv.
  destruct Hs as [[r k t f w]|[r k t f w] ?|[r k t f w]|[r k t f w]|[r k t f w]|[r k t f w]|[r k t f w]];
    cbn in *; subst; try match goal with t : ThreadState |- _ => destruct t end;
    try match goal with f : FutureState |- _ => destruct f end; naive_solver.
Qed.

(** C39. The result of a thread is never lost. However the steps of the thread and
    of the task interleave: a future that has finished gave the result of the
    function; once the thread has exited, the future has finished, or is about
    to take the result, or its task is woken and will find it; and while the
    thread still looks for a waker, there is one, or the task is about to put it
    there. *)
Theorem thread_result_not_lost s :
  reachable s →
  (∀ res, fut s = Finished res → res = v)
  ∧ (thread s = Exited → fut s = Idle → woken s = true ∧ result s = Some v)
  ∧ (thread s = Exited → fut s = Polling → result s = Some v)
  ∧ (thread s = Stored → (∀ res, fut s ≠ Finished res) → waker s = true ∨ woken s = true).
Proof.
  intros Hr. assert (Hi : inv s).
  { unfold reachable in Hr. assert (H0 : inv initial) by (cbn; naive_solver).
    revert H0. induction Hr as [s|s s1 s2 Hs _ IH]; intros H0; [done|]. by apply IH, (step_inv s). }
  unfold inv in Hi. destruct (thread s), (fut s); naive_solver.
Qed.
End thread_future.
Arguments State : clear implicits.
End ThreadFuture.

(** ** Witnesses *)

Section witnesses.
Import SleepStore Poller Executor.

(** Task 0 is queued and task 1 sleeps until 50 ms and waits to read descriptor 5;
    task 0 sets a timer 10 ms ahead when it is polled. *)
Definition example_runtime : Runtime :=
  MkRuntime 2 {[0%nat]} [0%nat] {[0%nat; 1%nat]} [(50000000, 1%nat)] [(5%nat, Read, 1%nat)] [Woken 0].
Definition example_env : Env :=
  MkEnv 1000000 1100000 (λ t, if decide (t = 0%nat) then ([Sleep 11000000 0], false) else ([], false))
    [5%nat] [5%nat] (Ok (λ _, true)).

Lemma example_runtime_ok : runtime_ok example_runtime SleepStore.new.
Proof.
  split_and!; [split_and!| | |].
  - apply (bool_decide_unpack _). vm_compute. reflexivity.
  - intros t. cbn. rewrite elem_of_singleton, list_elem_of_singleton. done.
  - intros t. cbn. rewrite elem_of_union, !elem_of_singleton. lia.
  - intros t. cbn. destruct (decide (0 = t)%nat) as [<-|]; [by intros _; apply elem_of_singleton|done].
  - constructor.
  - split; constructor; cbn; try lia; constructor.
  - constructor.
Qed.

Lemma example_tasks_ok t : Forall (action_ok (next_task example_runtime)) (task_poll example_env t).1.
Proof. cbn. destruct (decide (t = 0%nat)); repeat constructor. Qed.

Lemma poller_conserves_witness :
  let register := [(5, Read, 1); (7, Write, 2); (5, Write, 3)]%nat in
  wake_ready [7; 5]%nat (λ fd, fd =? 5)%nat register ≡ₚ [1; 3]%nat
  ∧ reregister [5; 7]%nat (λ fd, fd =? 5)%nat register ≡ₚ [(7, Write, 2)]%nat.
Proof.
  intros register.
  assert (H1 : iterates [7; 5]%nat register).
  { split; [apply (bool_decide_unpack _); vm_compute; reflexivity|].
    intros fd. cbn. rewrite !elem_of_cons. tauto. }
  assert (H2 : iterates [5; 7]%nat register).
  { split; [apply (bool_decide_unpack _); vm_compute; reflexivity|].
    intros fd. cbn. rewrite !elem_of_cons. tauto. }
  destruct (poller_conserves [7; 5]%nat [5; 7]%nat (λ fd, fd =? 5)%nat register H1 H2) as (_ & A & B).
  split; [exact A|exact B].
Defined.

Lemma run_forever_step_correct_witness :
  ∃ timeout rt1 s1 rt2, run_tasks example_env example_runtime SleepStore.new = (timeout, rt1, s1)
    ∧ run_forever_step example_env example_runtime SleepStore.new = Ret (timeout, rt2, s1)
    ∧ runtime_ok rt2 s1 ∧ 1%nat ∈ TASK_SENDER rt2.
Proof.
  assert (E : ∃ timeout rt1 s1, run_tasks example_env example_runtime SleepStore.new = (timeout, rt1, s1)
    ∧ POLL_REGISTER rt1 = [(5%nat, Read, 1%nat)]) by (eexists _, _, _; split; vm_compute; reflexivity).
  destruct E as (timeout & rt1 & s1 & E & Hp). exists timeout, rt1, s1.
  assert (Hi : iterates [5%nat] (POLL_REGISTER rt1)).
  { rewrite Hp. split; [apply (bool_decide_unpack _); vm_compute; reflexivity|]. intros fd. cbn. tauto. }
  assert (Hfar : Forall (λ e, (e.1 - now_sleep example_env) / 1000000 < 2 ^ 31) (timers example_runtime SleepStore.new)).
  { repeat constructor. }
  destruct (run_forever_step_correct example_env example_runtime SleepStore.new (λ _, true) timeout rt1 s1
    example_runtime_ok example_tasks_ok Hfar E Hi Hi eq_refl) as (rt2 & H1 & H2 & _ & _ & H3 & _).
  exists rt2. split; [exact E|]. split; [exact H1|]. split; [exact H2|].
  exact (H3 (5%nat, Read, 1%nat) (list_elem_of_here _ _)).
Defined.

(** Task 0's timer is 10 ms ahead; the executor sleeps for the 48 ms that the older
    timer still needs. *)
Lemma poll_timeout_ignores_new_timers_witness :
  ∃ timeout rt1 s1, run_tasks example_env example_runtime SleepStore.new = (timeout, rt1, s1)
    ∧ SLEEP_REGISTER rt1 = [(11000000, 0%nat)] ∧ timeout = sleep_ms 1100000 s1 ∧ timeout = 48.
Proof.
  assert (E : ∃ timeout rt1 s1, run_tasks example_env example_runtime SleepStore.new = (timeout, rt1, s1)
    ∧ SLEEP_REGISTER rt1 = [(11000000, 0%nat)] ∧ TASK_SENDER rt1 = [] ∧ timeout = 48)
    by (eexists _, _, _; split_and!; vm_compute; reflexivity).
  destruct E as (timeout & rt1 & s1 & E & Hs & Ht & H48). exists timeout, rt1, s1.
  destruct (poll_timeout_ignores_new_timers example_env example_runtime SleepStore.new timeout rt1 s1
    example_runtime_ok example_tasks_ok E Ht) as (_ & H & _).
  split; [exact E|]. split; [exact Hs|]. split; [exact H|exact H48].
Defined.
End witnesses.

Import ThreadFuture.

(** The thread stores its result between the two steps of a poll and exits; the
    task is then woken. *)
Lemma thread_result_not_lost_witness :
  let s := MkState (Some 7) false Exited Idle true in reachable 7 s ∧ woken s = true ∧ ThreadFuture.result s = Some 7.
Proof.
  intros s. assert (Hr : reachable 7 s).
  { eapply rtc_l; [by apply poll_waker|]. cbn. eapply rtc_l; [by apply poll_pending|]. cbn.
    eapply rtc_l; [by apply thread_store|]. cbn. eapply rtc_l; [by apply thread_wake|]. cbn. apply rtc_refl. }
  split; [exact Hr|]. apply (thread_result_not_lost 7 s Hr); reflexivity.
Defined.
