(* ===== verification/PollCache.v ===== *)
(** [poll_and_wake] with the data it works on ([rust/src/leo_async.rs],
    [PollCache]): the wakers in a slab, the map from descriptors to the directions
    and the keys of their wakers, the vector handed to [poll].

    [Runtime.Poller] has the same function on the register alone; the theorem of this
    file is that the two agree, so that no key is ever missing from the slab and
    none of the panics is reached. [slab::Slab] is a library: the class [Slab]. *)
From stdpp Require Import gmap.
From S2P Require Import Prelude Runtime.
Import Runtime.Poller.

Class Slab (S V : Type) := {
  slab_new : S;
  slab_clear : S → S;
  slab_insert : V → S → nat * S;
  slab_get : nat → S → option V;
}.

(** A key is fresh when it is given out, and keeps its value from then on. *)
Class SlabLaws (S V : Type) `{!Slab S V} : Prop := {
  get_new k : slab_get k slab_new = None;
  get_clear k s : slab_get k (slab_clear s) = None;
  insert_fresh v s : slab_get (slab_insert v s).1 s = None;
  insert_get v s : slab_get (slab_insert v s).1 (slab_insert v s).2 = Some v;
  insert_others v s k : k ≠ (slab_insert v s).1 → slab_get k (slab_insert v s).2 = slab_get k s;
}.

(** [PollFlags], of those the code uses: POLLIN, POLLOUT, and POLLHUP with
    POLLERR. *)
Record PollFlags := MkPollFlags { POLLIN : bool; POLLOUT : bool; POLLHUP_POLLERR : bool }.

Section cache.
Context {S : Type} `{slab : !Slab S nat}.

Record PollCache := MkPollCache {
  poll_state : gmap nat (list (PollType * nat));
  waker_store : S;
  fds : list (nat * PollFlags);
}.

Definition new : PollCache := MkPollCache ∅ slab_new [].
Definition clear (cache : PollCache) : PollCache := MkPollCache ∅ (slab_clear (waker_store cache)) [].

(** An entry taken from [POLL_REGISTER]: [cache.poll_state.entry(fd).or_default().push(..)]. *)
Definition register_entry (cache : PollCache) (e : entry) : PollCache :=
  let '(fd, polltype, waker) := e in
  let '(waker_id, store) := slab_insert waker (waker_store cache) in
  MkPollCache (<[fd := default [] (poll_state cache !! fd) ++ [(polltype, waker_id)]]> (poll_state cache)) store (fds cache).

(** The pairs of a map, its keys in the order of its iteration. *)
Definition iter {V} (order : list nat) (m : gmap nat V) : list (nat * V) :=
  omap (λ fd, (fd,.) <$> m !! fd) order.

(** What a descriptor is polled for. *)
Definition poll_flags (wakers : list (PollType * nat)) : outcome PollFlags :=
  match foldl (λ '(has_read, has_write) w, match w.1 with Read => (true, has_write) | Write => (has_read, true) end) (false, false) wakers with
  | (true, true) => mret (MkPollFlags true true true)
  | (true, false) => mret (MkPollFlags true false true)
  | (false, true) => mret (MkPollFlags false true true)
  | (false, false) => Panic "internal error: entered unreachable code"
  end.

Fixpoint push_fds (pairs : list (nat * list (PollType * nat))) : outcome (list (nat * PollFlags)) :=
  match pairs with
  | [] => mret []
  | (fd, wakers) :: pairs => flags ← poll_flags wakers; rest ← push_fds pairs; mret ((fd, flags) :: rest)
  end.

(** [cache.waker_store.get(waker_id).ok_or("Waker not found")?], for each. *)
Definition find_wakers (store : S) (wakers : list (PollType * nat)) : result (list nat) :=
  match mapM (λ w, slab_get w.2 store) wakers with Some ws => Ok ws | None => Err "Waker not found" end.

Section poll.
(** The wake pipe, what reading it empty does, and the answer of [poll]: for each
    descriptor whether there are events, or [None] for bits [nix] does not know. *)
Context (wake_pipe_recv : nat) (drain : outcome unit) (revents : nat → option bool).

Fixpoint wake_loop (polled : list nat) (state : gmap nat (list (PollType * nat))) (store : S) :
    outcome (result (list nat * gmap nat (list (PollType * nat)))) :=
  match polled with
  | [] => mret (Ok ([], state))
  | fd :: polled =>
      match revents fd with
      | None => mret (Err "Cannot read revents")
      | Some events =>
          if decide (fd = wake_pipe_recv) then _ ← drain; wake_loop polled state store else
          if events then
            match state !! fd with
            | None => Panic "called `Option::unwrap()` on a `None` value"
            | Some wakers =>
                match find_wakers store wakers with
                | Err why => mret (Err why)
                | Ok ws =>
                    r ← wake_loop polled (delete fd state) store;
                    mret (match r with Err why => Err why | Ok (woken, state) => Ok (ws ++ woken, state) end)
                end
            end
          else wake_loop polled state store
      end
  end.

(** The entries that are pushed on [POLL_REGISTER] again. *)
Fixpoint register_again (pairs : list (nat * list (PollType * nat))) (store : S) : result (list entry) :=
  match pairs with
  | [] => Ok []
  | (fd, wakers) :: pairs =>
      match find_wakers store wakers with
      | Err why => Err why
      | Ok ws =>
          match register_again pairs store with
          | Err why => Err why
          | Ok rest => Ok (zip_with (λ w waker, (fd, w.1, waker)) wakers ws ++ rest)
          end
      end
  end.

(** [poll_and_wake]: the cache, the wakers woken, and [POLL_REGISTER] afterwards.
    [order] and [order'] are the orders of the two iterations over the map,
    [poll_ok] whether [poll] succeeds. *)
Definition poll_and_wake (order order' : list nat) (poll_ok : result unit) (cache : PollCache) (timeout_ms : Z) (register : list entry) :
    outcome (result (PollCache * list nat * list entry)) :=
  let cache := foldl register_entry (clear cache) register in
  pfds ← push_fds (iter order (poll_state cache));
  let pfds := pfds ++ [(wake_pipe_recv, MkPollFlags true false false)] in
  if timeout_ms <? -1 then Panic "called `Result::unwrap()` on an `Err` value" else
  match poll_ok with
  | Err why => mret (Err why)
  | Ok _ =>
      r ← wake_loop (fst <$> pfds) (poll_state cache) (waker_store cache);
      match r with
      | Err why => mret (Err why)
      | Ok (woken, state) =>
          match register_again (iter order' state) (waker_store cache) with
          | Err why => mret (Err why)
          | Ok entries => mret (Ok (MkPollCache state (waker_store cache) pfds, woken, entries))
          end
      end
  end.
End poll.
End cache.
Arguments PollCache : clear implicits.

(** ** The cache agrees with the register *)

Section proof.
Context {S : Type} `{slab : !Slab S nat, slab_laws : !SlabLaws S nat}.
Implicit Types (store : S) (cache : PollCache S).

(** A pair of the map stands for an entry of the register. *)
Definition stands_for store (w : PollType * nat) (e : entry) : Prop :=
  w.1 = e.1.2 ∧ slab_get w.2 store = Some (waker_of e).

Definition agrees cache (register : list entry) : Prop :=
  (∀ fd, Forall2 (stands_for (waker_store cache)) (default [] (poll_state cache !! fd)) (Poller.poll_state fd register))
  ∧ (∀ fd, poll_state cache !! fd ≠ Some []).

Lemma register_entry_agrees cache register e :
  agrees cache register → agrees (register_entry cache e) (register ++ [e]).
Proof.
  intros [Hst Hne]. destruct e as [[fd polltype] waker]. unfold register_entry.
  pose proof (insert_fresh waker (waker_store cache)) as Hfresh. pose proof (insert_get waker (waker_store cache)) as Hget.
  pose proof (insert_others waker (waker_store cache)) as Hothers.
  destruct (slab_insert waker (waker_store cache)) as [k store]. cbn [fst snd] in *.
  assert (Hkeep : ∀ w e, stands_for (waker_store cache) w e → stands_for store w e).
  { intros w e [H1 H2]. split; [done|]. rewrite Hothers; [done|]. intros Hk. rewrite Hk, Hfresh in H2. done. }
  split; cbn [poll_state waker_store]; intros fd'.
  - unfold Poller.poll_state. rewrite list.filter_app. destruct (decide (fd' = fd)) as [->|Hfd].
    + rewrite lookup_insert_eq. cbn [default]. apply Forall2_app; [eapply list.Forall2_impl; [apply Hst|exact Hkeep]|].
      rewrite list.filter_cons_True by done. by repeat constructor.
    + rewrite lookup_insert_ne by done. rewrite list.filter_cons_False by (cbn; congruence). rewrite app_nil_r.
      eapply list.Forall2_impl; [apply Hst|exact Hkeep].
  - destruct (decide (fd' = fd)) as [->|Hfd]; [|by rewrite lookup_insert_ne].
    rewrite lookup_insert_eq. intros [= H]. by destruct (default [] (poll_state cache !! fd)).
Qed.

Lemma filled cache register : agrees (foldl register_entry (clear cache) register) register.
Proof.
  induction register as [|e register IH] using rev_ind; [|rewrite foldl_app; by apply register_entry_agrees].
  split; intros fd; cbn; rewrite lookup_empty; [constructor|done].
Qed.

Lemma agrees_some cache register fd :
  agrees cache register →
  match poll_state cache !! fd with
  | Some wakers => fd ∈ fd_of <$> register ∧ Forall2 (stands_for (waker_store cache)) wakers (Poller.poll_state fd register)
  | None => Poller.poll_state fd register = []
  end.
Proof.
  intros [Hst Hne]. specialize (Hst fd). specialize (Hne fd). destruct (poll_state cache !! fd) as [wakers|]; cbn in Hst.
  - split; [|done]. destruct (Poller.poll_state fd register) as [|e es] eqn:He; [by inversion Hst; subst|].
    assert (Hin : e ∈ Poller.poll_state fd register) by (rewrite He; by left). apply list_elem_of_filter in Hin as [<- Hin].
    by apply list_elem_of_fmap_2.
  - by inversion Hst.
Qed.

Lemma find_wakers_ok store wakers es :
  Forall2 (stands_for store) wakers es → find_wakers store wakers = Ok (waker_of <$> es).
Proof.
  intros H. unfold find_wakers. assert (mapM (λ w, slab_get w.2 store) wakers = Some (waker_of <$> es)) as ->; [|done].
  induction H as [|w e wakers es [_ Hg] _ IH]; [done|]. cbn. by rewrite Hg, IH.
Qed.

Lemma poll_flags_ok store wakers es :
  Forall2 (stands_for store) wakers es → wakers ≠ [] →
  ∃ flags, poll_flags wakers = Ret flags ∧ (POLLIN flags, POLLOUT flags) = interest es ∧ POLLHUP_POLLERR flags = true.
Proof.
  intros H Hne. unfold poll_flags.
  assert (Hf : foldl (λ '(has_read, has_write) (w : PollType * nat), match w.1 with Read => (true, has_write) | Write => (has_read, true) end)
    (false, false) wakers = interest es).
  { unfold interest. generalize (false, false). clear Hne. induction H as [|w e wakers es [Hd _] _ IH]; intros [hr hw]; [done|].
    cbn [foldl]. rewrite IH. by rewrite Hd. }
  rewrite Hf. pose proof (interest_nonempty es) as Hi. destruct es as [|e es]; [by inversion H; subst|]. specialize (Hi ltac:(done)).
  destruct (interest (e :: es)) as [[] []]; try done; by eexists.
Qed.

(** *** The vector *)

Lemma push_fds_ok cache register order :
  agrees cache register → (∀ fd, fd ∈ order → fd ∈ fd_of <$> register) →
  ∃ pfds, push_fds (iter order (poll_state cache)) = Ret pfds ∧ fst <$> pfds = order
    ∧ (λ p, (p.1, (POLLIN p.2, POLLOUT p.2))) <$> pfds = (λ fd, (fd, interest (Poller.poll_state fd register))) <$> order
    ∧ Forall (λ p, POLLHUP_POLLERR p.2 = true) pfds.
Proof.
  intros Ha. induction order as [|fd order IH]; intros Hin; [by exists []|].
  destruct IH as (pfds & Hp & H1 & H2 & H3); [intros fd' ?; apply Hin; by right|].
  pose proof (agrees_some cache register fd Ha) as Hs. pose proof (poll_state_nonempty fd register (Hin fd ltac:(by left))) as Hne.
  unfold iter. cbn [omap list_omap]. destruct (poll_state cache !! fd) as [wakers|] eqn:Hw; [|done]. cbn [fmap option_fmap option_map].
  destruct Hs as [_ Hs]. destruct (poll_flags_ok _ _ _ Hs) as (flags & Hf & Hi & Hh).
  { intros ->. by inversion Hs as [He|]; subst. }
  cbn [push_fds]. rewrite Hf. cbn [mbind outcome_bind]. unfold iter in Hp. rewrite Hp. cbn [mbind outcome_bind mret outcome_ret].
  eexists. split; [reflexivity|]. split_and!; [cbn; by rewrite H1|cbn; rewrite Hi; f_equal; exact H2|by constructor].
Qed.

(** *** Waking and registering again *)

Section answered.
Context (wake_pipe_recv : nat) (ready : nat → bool) (revents : nat → option bool).
Context (answered : ∀ fd, fd ≠ wake_pipe_recv → revents fd = Some (ready fd)) (pipe_answered : revents wake_pipe_recv ≠ None).

Lemma wake_loop_ok cache register order : ∀ state,
  agrees cache register → NoDup order → (∀ fd, fd ∈ order → fd ∈ fd_of <$> register) → wake_pipe_recv ∉ order →
  (∀ fd, fd ∈ order → state !! fd = poll_state cache !! fd) →
  ∃ state', wake_loop wake_pipe_recv (Ret tt) revents (order ++ [wake_pipe_recv]) state (waker_store cache)
      = Ret (Ok (wake_ready order ready register, state'))
    ∧ ∀ fd, state' !! fd = if decide (fd ∈ order ∧ ready fd = true) then None else state !! fd.
Proof.
  intros state Ha. revert state. induction order as [|fd order IH]; intros state Hnd Hin Hpipe Hst.
  - exists state. cbn. destruct (revents wake_pipe_recv); [|done]. rewrite decide_True by done. split; [done|].
    intros fd. rewrite decide_False; [done|]. intros [H _]. by apply elem_of_nil in H.
  - apply list.NoDup_cons in Hnd as [Hfd Hnd]. apply not_elem_of_cons in Hpipe as [Hp Hpipe].
    assert (Hin' : ∀ fd', fd' ∈ order → fd' ∈ fd_of <$> register) by (intros fd' ?; apply Hin; by right).
    cbn [app wake_loop]. rewrite answered by done. rewrite decide_False by done.
    assert (Hcons : wake_ready (fd :: order) ready register
      = (if ready fd then waker_of <$> Poller.poll_state fd register else []) ++ wake_ready order ready register) by done.
    rewrite Hcons. destruct (ready fd) eqn:Hr.
    + rewrite (Hst fd) by by left. pose proof (agrees_some cache register fd Ha) as Hs.
      pose proof (poll_state_nonempty fd register (Hin fd ltac:(by left))) as Hne.
      destruct (poll_state cache !! fd) as [wakers|]; [|done]. destruct Hs as [_ Hs]. rewrite (find_wakers_ok _ _ _ Hs).
      destruct (IH (delete fd state)) as (state' & Hw & Hs'); [done|done|done| |].
      { intros fd' Hfd'. rewrite lookup_delete_ne by (intros ->; done). apply Hst. by right. }
      rewrite Hw. cbn [mbind outcome_bind mret outcome_ret]. exists state'. split; [done|]. intros fd'. rewrite Hs'.
      destruct (decide (fd' = fd)) as [->|Hne'].
      * rewrite (decide_True (P := fd ∈ fd :: order ∧ _)) by (split; [by left|done]). destruct (decide _); [done|]. by rewrite lookup_delete_eq.
      * rewrite lookup_delete_ne by done. assert (Hiff : fd' ∈ order ∧ ready fd' = true ↔ fd' ∈ fd :: order ∧ ready fd' = true) by (rewrite elem_of_cons; naive_solver).
        by rewrite (decide_ext _ _ _ _ Hiff).
    + destruct (IH state) as (state' & Hw & Hs'); [done|done|done|intros fd' ?; apply Hst; by right|].
      exists state'. split; [exact Hw|]. intros fd'. rewrite Hs'.
      assert (Hiff : fd' ∈ order ∧ ready fd' = true ↔ fd' ∈ fd :: order ∧ ready fd' = true).
      { rewrite elem_of_cons. split; [tauto|]. intros [[->|?] Hr']; [congruence|done]. }
      by rewrite (decide_ext _ _ _ _ Hiff).
Qed.

Lemma same_entries store fd wakers es :
  Forall2 (stands_for store) wakers es → Forall (λ e, fd_of e = fd) es →
  zip_with (λ (w : PollType * nat) waker, (fd, w.1, waker)) wakers (waker_of <$> es) = es.
Proof.
  induction 1 as [|w [[fd' ty] waker] wakers es [Hd _] _ IH]; [done|]. intros [Hfd Hall]%list.Forall_cons. cbn in *. subst.
  by rewrite IH.
Qed.

Lemma register_again_ok cache register state order' :
  agrees cache register → (∀ fd, fd ∈ order' → state !! fd = poll_state cache !! fd ∧ ready fd = false ∧ fd ∈ fd_of <$> register) →
  register_again (iter order' state) (waker_store cache) = Ok (reregister order' ready register).
Proof.
  intros Ha. induction order' as [|fd order' IH]; intros Hst; [done|].
  destruct (Hst fd ltac:(by left)) as (Hs & Hr & Hin). unfold iter. cbn [omap list_omap]. rewrite Hs.
  pose proof (agrees_some cache register fd Ha) as Hw. pose proof (poll_state_nonempty fd register Hin) as Hne.
  destruct (poll_state cache !! fd) as [wakers|]; [|done]. destruct Hw as [_ Hw]. cbn [fmap option_fmap option_map register_again].
  rewrite (find_wakers_ok _ _ _ Hw). unfold iter in IH. rewrite IH by (intros fd' ?; apply Hst; by right).
  assert (Hcons : reregister (fd :: order') ready register = (if ready fd then [] else Poller.poll_state fd register) ++ reregister order' ready register) by done.
  rewrite Hcons, Hr, (same_entries _ fd _ _ Hw); [done|]. apply list.Forall_forall. intros e He. by apply list_elem_of_filter in He as [? _].
Qed.

(** C26. The poller with its slab and its map is the poller of [Runtime]. For every
    content of [POLL_REGISTER], whatever is left in the cache from before and in
    whichever orders the map is iterated, [poll_and_wake] does not panic and finds
    every waker; [poll] is asked for each descriptor once, for the directions its
    waiters want, and for the wake pipe; and the wakers woken and the entries
    registered again are those of [Poller.wake_ready] and [Poller.reregister], for
    which the theorems about the executor are stated. *)
Theorem poll_cache_refines cache timeout_ms register order order' :
  -1 <= timeout_ms → iterates order register → wake_pipe_recv ∉ fd_of <$> register →
  NoDup order' → (∀ fd, fd ∈ order' ↔ fd ∈ fd_of <$> register ∧ ready fd = false) →
  ∃ cache' order'', iterates order'' register
    ∧ poll_and_wake wake_pipe_recv (Ret tt) revents order order' (Ok tt) cache timeout_ms register
      = Ret (Ok (cache', wake_ready order ready register, reregister order'' ready register))
    ∧ Ret ((λ p, (p.1, (POLLIN p.2, POLLOUT p.2))) <$> fds cache')
      = (asked ← Poller.fds order register; mret (asked ++ [(wake_pipe_recv, (true, false))])).
Proof.
  intros Htime [Hnd Hin] Hpipe Hnd' Hin'. pose proof (filled cache register) as Ha.
  set (c := foldl register_entry (clear cache) register) in *.
  destruct (push_fds_ok c register order Ha) as (pfds & Hp & Hf1 & Hf2 & _); [intros fd; apply Hin|].
  assert (Hpo : wake_pipe_recv ∉ order) by (intros ?%Hin; done).
  destruct (wake_loop_ok c register order (poll_state c) Ha Hnd (λ fd, proj1 (Hin fd)) Hpo (λ _ _, eq_refl)) as (state & Hw & Hs).
  assert (Hagain : register_again (iter order' state) (waker_store c) = Ok (reregister order' ready register)).
  { apply register_again_ok; [exact Ha|]. intros fd [Hfd Hr]%Hin'. rewrite Hs, decide_False by (intros [_ ?]; congruence). done. }
  eexists _, (order' ++ filter (λ fd, ready fd = true) order). split; [|split].
  - split.
    + apply list.NoDup_app. split_and!; [done| |by apply list.NoDup_filter]. intros fd [_ Hr]%Hin' [Hr' _]%list_elem_of_filter. congruence.
    + intros fd. rewrite elem_of_app, Hin', list_elem_of_filter, Hin. destruct (ready fd); naive_solver.
  - unfold poll_and_wake. fold c. rewrite Hp. cbn [mbind outcome_bind]. rewrite (proj2 (Z.ltb_ge _ _) Htime).
    rewrite fmap_app, Hf1. cbn [fmap list_fmap fst]. rewrite Hw. cbn [mbind outcome_bind]. rewrite Hagain.
    assert (Hre : reregister (order' ++ filter (λ fd, ready fd = true) order) ready register = reregister order' ready register); [|by rewrite Hre].
    unfold reregister. rewrite fmap_app, concat_app. rewrite <- (app_nil_r (concat _)) at 2. f_equal. clear.
    induction order as [|fd order IH]; [done|]. rewrite filter_cons. case_decide as Hr; [|done]. cbn. by rewrite Hr.
  - cbn [fds]. rewrite fds_ok by (intros fd; apply Hin). cbn [mbind outcome_bind mret outcome_ret]. by rewrite fmap_app, Hf2.
Qed.
End answered.
End proof.

(** ** Witness *)

(** A slab as a map, a new key for each value. *)
#[export] Instance map_slab : Slab (gmap nat nat) nat := {
  slab_new := ∅;
  slab_clear _ := ∅;
  slab_insert v m := let k := fresh (dom m) in (k, <[k := v]> m);
  slab_get k m := m !! k;
}.

#[export] Instance map_slab_laws : SlabLaws (gmap nat nat) nat.
Proof.
  split; cbn -[fresh]; intros.
  - apply lookup_empty.
  - apply lookup_empty.
  - apply not_elem_of_dom, is_fresh.
  - apply lookup_insert_eq.
  - by apply lookup_insert_ne.
Qed.

(** Two tasks wait for descriptor 5, one for descriptor 6; 5 is ready. *)
Lemma poll_cache_refines_witness :
  let register := [(5%nat, Read, 1%nat); (6%nat, Write, 2%nat); (5%nat, Write, 3%nat)] in
  ∃ cache' order'', poll_and_wake 9 (Ret tt) (λ fd, Some (bool_decide (fd = 5%nat))) [6; 5]%nat [6%nat] (Ok tt) new 10 register
    = Ret (Ok (cache', [1; 3]%nat, reregister order'' (λ fd, bool_decide (fd = 5%nat)) register)).
Proof.
  intros register.
  destruct (poll_cache_refines 9 (λ fd, bool_decide (fd = 5%nat)) (λ fd, Some (bool_decide (fd = 5%nat)))
    (λ _ _, eq_refl) ltac:(done) new 10 register [6; 5]%nat [6%nat]) as (cache' & order'' & _ & H & _).
  - lia.
  - split; [apply (bool_decide_unpack _); reflexivity|]. intros fd. cbn. set_solver.
  - cbn. set_solver.
  - constructor; [set_solver|constructor].
  - intros fd. cbn. rewrite bool_decide_eq_false. set_solver.
  - exists cache', order''. exact H.
Defined.
