(* ===== verification/SleepHeap.v ===== *)
(** The timers as they are kept ([rust/src/leo_async.rs], [sleep_storage]): a binary
    heap of [InstantAndWaker]s whose order is reversed, so that the greatest is the
    earliest.

    Of [BinaryHeap] there is what its documentation says: the class [BinaryHeap].
    [Runtime.SleepStore] keeps the timers in a sorted list instead; the theorem of
    this file is that the two agree. *)
From Stdlib Require Import Sorted.
From S2P Require Import Prelude Runtime.

(** ** [InstantAndWaker] *)

Record InstantAndWaker := MkInstantAndWaker { instant : Z; waker : nat }.

(** [PartialEq] and [Ord]. *)
Definition eq (self other : InstantAndWaker) : bool := instant self =? instant other.
Definition cmp (self other : InstantAndWaker) : comparison := (instant other ?= instant self).
Definition partial_cmp (self other : InstantAndWaker) : option comparison := Some (cmp self other).

(** The three are consistent, as [Ord] asks. *)
Lemma cmp_consistent a b c :
  (eq a b = true ↔ cmp a b = Eq) ∧ cmp b a = CompOpp (cmp a b) ∧ (cmp a b = Lt → cmp b c = Lt → cmp a c = Lt).
Proof.
  unfold eq, cmp. rewrite Z.eqb_eq, Z.compare_eq_iff, (Z.compare_antisym (instant b)), !Z.compare_lt_iff.
  split; [split; congruence|]. split; [done|lia].
Qed.

(** ** The heap *)

(** [items] are the elements, in some order. *)
Class BinaryHeap (H A : Type) (cmp : A → A → comparison) := {
  heap_new : H;
  heap_push : A → H → H;
  heap_peek : H → option A;
  heap_pop : H → option (A * H);
  items : H → list A;
}.

Class BinaryHeapLaws (H A : Type) (cmp : A → A → comparison) `{!BinaryHeap H A cmp} : Prop := {
  items_new : items heap_new = [];
  items_push a h : items (heap_push a h) ≡ₚ a :: items h;
  peek_none h : heap_peek h = None → items h = [];
  peek_greatest h a : heap_peek h = Some a → a ∈ items h ∧ ∀ b, b ∈ items h → cmp b a ≠ Gt;
  pop_peeked h a : heap_peek h = Some a → ∃ h', heap_pop h = Some (a, h') ∧ items h ≡ₚ a :: items h';
}.

Section store.
Context {H : Type} `{heap : !BinaryHeap H InstantAndWaker cmp}.

Record SleepStore := MkSleepStore { sleep_queue : H }.

Definition new : SleepStore := MkSleepStore heap_new.
Definition add (self : SleepStore) (instant : Z) (waker : nat) : SleepStore :=
  MkSleepStore (heap_push (MkInstantAndWaker instant waker) (sleep_queue self)).

(** The wakers woken, in order. The loop takes fuel. *)
Fixpoint wake_all_ready (fuel : nat) (now : Z) (self : SleepStore) : option (outcome (list nat * SleepStore)) :=
  match fuel with
  | O => None
  | S fuel =>
      match heap_peek (sleep_queue self) with
      | None => Some (mret ([], self))
      | Some e =>
          if instant e <=? now then
            match heap_pop (sleep_queue self) with
            | None => Some (Panic "called `Option::unwrap()` on a `None` value")
            | Some (_, h) =>
                r ← wake_all_ready fuel now (MkSleepStore h);
                Some (match r with Panic why => Panic why | Ret (ws, self) => mret (waker e :: ws, self) end)
            end
          else Some (mret ([], self))
      end
  end.

Definition get_next_wakeup (self : SleepStore) : option Z := instant <$> heap_peek (sleep_queue self).

(** ** It agrees with the sorted list *)

Context `{laws : !BinaryHeapLaws H InstantAndWaker cmp}.

Definition pair_of (e : InstantAndWaker) : Z * nat := (instant e, waker e).
Definition timers (self : SleepStore) : list (Z * nat) := pair_of <$> items (sleep_queue self).

(** The store of [Runtime] with the same timers. *)
Definition same_timers (self : SleepStore) (s : SleepStore.SleepStore) : Prop :=
  SleepStore.wf s ∧ timers self ≡ₚ SleepStore.sleep_queue s.

Abbreviation by_time := (λ a b : Z * nat, a.1 <= b.1).

Lemma peek_earliest self e :
  heap_peek (sleep_queue self) = Some e → pair_of e ∈ timers self ∧ ∀ t, t ∈ timers self → instant e <= t.1.
Proof.
  intros (Hin & Hmax)%peek_greatest. split; [by apply list_elem_of_fmap_2|]. intros t (b & -> & Hb)%list_elem_of_fmap.
  specialize (Hmax b Hb). unfold cmp in Hmax. cbn. destruct (Z.compare_spec (instant e) (instant b)); [lia|lia|done].
Qed.

(** What is due is woken in the order of time; the rest stays. *)
Lemma wake_all_ready_ok now : ∀ fuel self,
  (length (timers self) < fuel)%nat →
  ∃ due self', wake_all_ready fuel now self = Some (Ret (snd <$> due, self'))
    ∧ StronglySorted by_time due ∧ Forall (λ t, t.1 <= now) due ∧ Forall (λ t, ¬ t.1 <= now) (timers self')
    ∧ timers self ≡ₚ due ++ timers self'.
Proof.
  induction fuel as [|fuel IH]; intros self Hf; [lia|]. cbn [wake_all_ready].
  destruct (heap_peek (sleep_queue self)) as [e|] eqn:Hp.
  - destruct (peek_earliest self e Hp) as [Hin Hle]. destruct (Z.leb_spec (instant e) now) as [Hnow|Hnow].
    + destruct (pop_peeked _ _ Hp) as (h & -> & Hperm).
      assert (Ht : timers self ≡ₚ pair_of e :: timers (MkSleepStore h)) by (unfold timers; by rewrite Hperm).
      destruct (IH (MkSleepStore h)) as (due & self' & -> & Hs & Hd & Hr & Hall).
      { apply Permutation_length in Ht. cbn [length] in Ht. lia. }
      exists (pair_of e :: due), self'. cbn [mbind option_bind outcome_bind mret outcome_ret]. split; [done|].
      split_and!; [|by constructor|done|by rewrite Ht, Hall]. constructor; [done|]. apply list.Forall_forall. intros t Hin'.
      apply Hle. rewrite Ht, Hall. apply elem_of_cons. right. apply elem_of_app. by left.
    + exists [], self. split; [done|]. split_and!; [constructor|constructor| |done]. apply list.Forall_forall. intros t Ht. specialize (Hle t Ht). lia.
  - exists [], self. apply peek_none in Hp. unfold timers. rewrite Hp. by split_and!; try constructor.
Qed.

Lemma filter_due (due rest : list (Z * nat)) now :
  Forall (λ t, t.1 <= now) due → Forall (λ t, ¬ t.1 <= now) rest →
  filter (λ t, t.1 <= now) (due ++ rest) = due ∧ filter (λ t, ¬ t.1 <= now) (due ++ rest) = rest.
Proof.
  intros Hd Hr. rewrite !list.filter_app. split.
  - by rewrite (SleepStore.filter_all _ due Hd), (SleepStore.filter_none (λ t : Z * nat, t.1 <= now) rest Hr), app_nil_r.
  - rewrite (SleepStore.filter_all _ rest Hr), (SleepStore.filter_none (λ t : Z * nat, ¬ t.1 <= now) due); [done|].
    eapply list.Forall_impl; [exact Hd|]. simpl. lia.
Qed.

Lemma sorted_filter (P : Z * nat → Prop) `{∀ t, Decision (P t)} q : StronglySorted by_time q → StronglySorted by_time (filter P q).
Proof.
  induction 1 as [|t q _ IH Hall]; [constructor|]. rewrite filter_cons. case_decide; [|done]. constructor; [done|].
  by apply SleepStore.Forall_filter_any.
Qed.

(** C27. The timers in the heap behave as the sorted list of [Runtime.SleepStore]:
    a new store is empty, [add] adds a timer, the next wake-up is the same, and
    [wake_all_ready] ends, does not panic, wakes the same wakers, in the order of
    their times, and leaves the same timers. *)
Theorem sleep_heap_refines :
  same_timers new SleepStore.new
  ∧ (∀ self s i w, same_timers self s → same_timers (add self i w) (SleepStore.add s i w))
  ∧ (∀ self s, same_timers self s → get_next_wakeup self = SleepStore.get_next_wakeup s)
  ∧ ∀ self s now fuel, same_timers self s → (length (timers self) < fuel)%nat →
      ∃ due self' s', wake_all_ready fuel now self = Some (Ret (snd <$> due, self')) ∧ StronglySorted by_time due
        ∧ SleepStore.wake_all_ready now s = s' ∧ snd <$> due ≡ₚ s'.1 ∧ same_timers self' s'.2.
Proof.
  split; [split; [constructor|unfold timers; cbn; by rewrite items_new]|]. split; [|split].
  - intros self s i w [Hwf Ht]. split; [by apply SleepStore.sleep_add_wf|]. rewrite SleepStore.add_Permutation, <- Ht.
    unfold timers. cbn. by rewrite items_push.
  - intros self s [Hwf Ht]. unfold get_next_wakeup, SleepStore.get_next_wakeup, SleepStore.wf in *.
    destruct (heap_peek (sleep_queue self)) as [e|] eqn:Hp.
    + destruct (peek_earliest self e Hp) as [Hin Hle]. rewrite Ht in Hin.
      destruct (SleepStore.sleep_queue s) as [|t q]; [by apply elem_of_nil in Hin|]. cbn. f_equal.
      apply StronglySorted_inv in Hwf as [_ Hall]. rewrite list.Forall_forall in Hall.
      assert (Hle' : instant e <= t.1) by (apply Hle; rewrite Ht; by left).
      apply elem_of_cons in Hin as [<-|Hin]; [done|]. specialize (Hall _ Hin). cbn in Hall. lia.
    + apply peek_none in Hp. unfold timers in Ht. rewrite Hp in Ht. symmetry in Ht. apply Permutation_nil_r in Ht. by rewrite Ht.
  - intros self s now fuel [Hwf Ht] Hf. destruct (wake_all_ready_ok now fuel self Hf) as (due & self' & Hw & Hs & Hd & Hr & Hall).
    destruct (filter_due due (timers self') now Hd Hr) as [H1 H2].
    exists due, self', (SleepStore.wake_all_ready now s). split; [done|]. split; [done|]. split; [done|].
    unfold SleepStore.wake_all_ready. rewrite SleepStore.pop_ready_spec by done. cbn [fst snd].
    assert (Hperm : SleepStore.sleep_queue s ≡ₚ due ++ timers self') by by rewrite <- Ht.
    split; [by rewrite Hperm, H1|]. split; cbn; [|by rewrite Hperm, H2].
    by apply sorted_filter.
Qed.
End store.
Arguments SleepStore : clear implicits.

(** ** Witness

    A heap as an unordered list from which the earliest is selected. *)
Fixpoint select (e : InstantAndWaker) (q : list InstantAndWaker) : InstantAndWaker * list InstantAndWaker :=
  match q with
  | [] => (e, [])
  | x :: q => let '(m, r) := select x q in if instant e <=? instant m then (e, m :: r) else (m, e :: r)
  end.

Lemma select_spec q : ∀ e, let '(m, r) := select e q in e :: q ≡ₚ m :: r ∧ ∀ b, b ∈ e :: q → instant m <= instant b.
Proof.
  induction q as [|x q IH]; intros e; cbn [select]; [split; [done|]; by intros b ->%list_elem_of_singleton|].
  specialize (IH x). destruct (select x q) as [m r]. destruct IH as [Hp Hle]. destruct (Z.leb_spec (instant e) (instant m)).
  - split; [by rewrite Hp|]. intros b [->|Hb]%elem_of_cons; [done|]. specialize (Hle b Hb). lia.
  - split; [rewrite Hp; apply Permutation_swap|]. intros b [->|Hb]%elem_of_cons; [lia|]. by apply Hle.
Qed.

#[export] Instance list_heap : BinaryHeap (list InstantAndWaker) InstantAndWaker cmp := {
  heap_new := [];
  heap_push := cons;
  heap_peek q := match q with [] => None | e :: q => Some (select e q).1 end;
  heap_pop q := match q with [] => None | e :: q => Some (select e q) end;
  items q := q;
}.

#[export] Instance list_heap_laws : BinaryHeapLaws (list InstantAndWaker) InstantAndWaker cmp.
Proof.
  split; cbn; [done|done|by intros []| |].
  - intros [|e q] a; [done|]. intros [= <-]. pose proof (select_spec q e) as H. destruct (select e q) as [m r]. destruct H as [Hp Hle].
    split; [rewrite Hp; by left|]. intros b Hb. specialize (Hle b Hb). unfold cmp. cbn. rewrite Z.compare_gt_iff. lia.
  - intros [|e q] a; [done|]. intros [= <-]. pose proof (select_spec q e) as H. destruct (select e q) as [m r]. destruct H as [Hp _].
    by exists r.
Qed.

(** The theorem has no hypothesis left once the heap is given; two timers are due. *)
Lemma sleep_heap_refines_witness :
  let self := add (add (add new 9 1) 3 2) 5 3 in
  ∃ self', wake_all_ready (H := list InstantAndWaker) 4 6 self = Some (Ret ([2; 3]%nat, self')) ∧ get_next_wakeup self' = Some 9.
Proof.
  intros self. destruct (sleep_heap_refines (H := list InstantAndWaker)) as (Hnew & Hadd & Hnext & Hwake). pose proof (Hadd _ _ 5 3%nat (Hadd _ _ 3 2%nat (Hadd _ _ 9 1%nat Hnew))) as Hs.
  destruct (Hwake _ _ 6 4%nat Hs) as (due & self' & s' & Hw & _ & <- & _ & Hs'); [vm_compute; lia|].
  exists self'. split; [|exact (Hnext _ _ Hs')]. assert (Heq : [2; 3]%nat = snd <$> due) by exact (f_equal (λ o, match o with Some (Ret (ws, _)) => ws | _ => [] end) Hw).
  rewrite Heq. exact Hw.
Defined.
