(* ===== verification/Descriptors.v ===== *)
(** The futures on file descriptors ([rust/src/leo_async.rs]: [ArcFd], [read_fd],
    [write_fd], [fd_wait_readable], [fd_wait_writable], the module [socket]; and
    [connect_timeout] of [rust/src/legacy_tcp.rs]).

    The operating system is the class [Posix]: what each system call answers in a
    state of the system, and the state it leaves. The environment of a future
    ([env] of [Futures.Cx]) is that state and [POLL_REGISTER]. *)
From stdpp Require Import pretty gmap.
From S2P Require Import Prelude Futures Runtime.
Import Poller.

(** ** System calls *)

(** The error numbers the code tells apart. *)
Inductive Errno := EAGAIN | EINTR | EINPROGRESS | EALREADY | EISCONN | OtherErrno (code : Z).

(** [nix::Result]. *)
Inductive sys_result (T : Type) := Done (v : T) | Failed (e : Errno).
Arguments Done {_} _.
Arguments Failed {_} _.


Class Posix (Os : Type) := {
  O_NONBLOCK : Z;
  (** [nix::unistd::read] into a buffer of the given length: the bytes read. *)
  sys_read : nat → nat → Os → sys_result bytes * Os;
  (** [nix::unistd::write]: how many bytes were written. *)
  sys_write : nat → bytes → Os → sys_result nat * Os;
  (** [nix::poll::poll] of one descriptor for one direction, without waiting:
      [revents()], and whether it has the flag asked for. *)
  sys_poll : nat → PollType → Os → sys_result (option bool) * Os;
  fcntl_getfl : nat → Os → Z * Os;
  fcntl_setfl : nat → Z → Os → Z * Os;
  sys_dup : nat → Os → Z * Os;
  sys_socket : Os → Z * Os;
  sys_connect : nat → bytes → Os → Z * Os;
  last_errno : Os → Errno;
  set_tcp_nodelay : nat → Os → Z * Os;
  (** The texts of an error ([Display] of [nix::errno::Errno]) and its number. *)
  errno_text : Errno → string;
  errno_raw : Errno → Z;
}.

(** The flags of a descriptor can be read and have [O_NONBLOCK]. *)
Definition nonblocking {Os} `{!Posix Os} (fd : nat) (os : Os) : Prop :=
  let flags := (fcntl_getfl fd os).1 in flags ≠ -1 ∧ Z.land flags O_NONBLOCK ≠ 0.

(** What POSIX says of them: setting the flags sets them; only that changes
    whether an open descriptor blocks; a call transfers no more than it is asked
    to. *)
Class PosixLaws (Os : Type) {posix : Posix Os} : Prop := {
  nonblock_flag : 0 < O_NONBLOCK;
  getfl_range fd (os : Os) : -1 <= (fcntl_getfl fd os).1;
  setfl_sets fd flags (os : Os) :
    (fcntl_setfl fd flags os).1 ≠ -1 → 0 <= flags → Z.land flags O_NONBLOCK ≠ 0 → nonblocking fd (fcntl_setfl fd flags os).2;
  setfl_keeps fd fd' flags (os : Os) :
    0 <= flags → Z.land flags O_NONBLOCK ≠ 0 → nonblocking fd os → nonblocking fd (fcntl_setfl fd' flags os).2;
  dup_keeps fd fd' (os : Os) : nonblocking fd os → nonblocking fd (sys_dup fd' os).2;
  getfl_keeps fd fd' (os : Os) : nonblocking fd os → nonblocking fd (fcntl_getfl fd' os).2;
  read_keeps fd fd' n (os : Os) : nonblocking fd os → nonblocking fd (sys_read fd' n os).2;
  write_keeps fd fd' data (os : Os) : nonblocking fd os → nonblocking fd (sys_write fd' data os).2;
  poll_keeps fd fd' dir (os : Os) : nonblocking fd os → nonblocking fd (sys_poll fd' dir os).2;
  connect_keeps fd fd' addr (os : Os) : nonblocking fd os → nonblocking fd (sys_connect fd' addr os).2;
  read_bound fd n (os : Os) data : (sys_read fd n os).1 = Done data → (length data <= n)%nat;
  write_bound fd data (os : Os) n : (sys_write fd data os).1 = Done n → (n <= length data)%nat;
  connect_returns fd addr (os : Os) : (sys_connect fd addr os).1 = 0 ∨ (sys_connect fd addr os).1 = -1;
  nodelay_returns fd (os : Os) : (set_tcp_nodelay fd os).1 = 0 ∨ (set_tcp_nodelay fd os).1 = -1;
}.

(** The environment of a future on descriptors. *)
Record Io (Os : Type) := MkIo { POLL_REGISTER : list entry; os : Os }.
Arguments MkIo {_} _ _.
Arguments POLL_REGISTER {_} _.
Arguments os {_} _.

Section descriptors.
Context {Os : Type} `{!Posix Os}.
(** [cfg!(debug_assertions)]. *)
Context (debug_assertions : bool).

Abbreviation Context := (Cx nat (Io Os)).
Abbreviation FdFut X T := (Fut (Waker := nat) (E := Io Os) X T).

Definition with_env (io : Io Os) (cx : Context) : Context :=
  MkCx (waker cx) (clock cx) (reads cx) (sleep_register cx) (woken cx) io.

(** A system call made while a future is polled. *)
Definition syscall {A} (call : Os → A * Os) (cx : Context) : A * Context :=
  let '(a, o) := call (os (env cx)) in (a, with_env (MkIo (POLL_REGISTER (env cx)) o) cx).

(** [POLL_REGISTER.push((fd, dir, cx.waker().clone()))]. *)
Definition push_poll (fd : nat) (dir : PollType) (cx : Context) : Context :=
  with_env (MkIo (POLL_REGISTER (env cx) ++ [(fd, dir, waker cx)]) (os (env cx))) cx.

(** ** Non-blocking mode *)

Definition fd_make_nonblocking (fd : nat) (o : Os) : result unit * Os :=
  let '(flags, o) := fcntl_getfl fd o in
  if flags =? -1 then (Err "fcntl failed", o) else
  let '(res, o) := fcntl_setfl fd (Z.lor flags O_NONBLOCK) o in
  if res =? -1 then (Err "fcntl failed", o) else (Ok tt, o).

Definition fd_assert_nonblocking (fd : nat) (cx : Context) : outcome Context :=
  if negb debug_assertions then mret cx else
  let '(flags, cx) := syscall (fcntl_getfl fd) cx in
  if flags =? -1 then Panic "fcntl failed" else
  if Z.land flags O_NONBLOCK =? 0 then Panic "fd is not nonblocking" else mret cx.

(** ** [ArcFd] *)

(** [ArcFd::dup]. *)
Definition dup (fd : nat) (o : Os) : result nat * Os :=
  let '(res, o) := sys_dup fd o in (if res =? -1 then Err "dup failed" else Ok (Z.to_nat res), o).

(** [AsyncRead::poll_read]; the state is the buffer. *)
Definition poll_read (fd : nat) : FdFut bytes (sys_result nat) := λ buf cx,
  cx ← fd_assert_nonblocking fd cx;
  let '(r, cx) := syscall (sys_read fd (length buf)) cx in
  match r with
  | Done data => mret (Ready (Done (length data)), data ++ drop (length data) buf, cx)
  | Failed EAGAIN => mret (Pending, buf, push_poll fd Read cx)
  | Failed EINTR => mret (Pending, buf, wake_by_ref cx)
  | Failed e => mret (Ready (Failed e), buf, cx)
  end.

(** [AsyncWrite::poll_write]; the state is the data to write. *)
Definition poll_write (fd : nat) : FdFut bytes (sys_result nat) := λ buf cx,
  cx ← fd_assert_nonblocking fd cx;
  let '(r, cx) := syscall (sys_write fd buf) cx in
  match r with
  | Done n => mret (Ready (Done n), buf, cx)
  | Failed EAGAIN => mret (Pending, buf, push_poll fd Write cx)
  | Failed EINTR => mret (Pending, buf, wake_by_ref cx)
  | Failed e => mret (Ready (Failed e), buf, cx)
  end.

Definition poll_flush : FdFut unit (sys_result unit) := λ this cx, mret (Ready (Done tt), this, cx).
Definition poll_close : FdFut unit (sys_result unit) := λ this cx, mret (Ready (Done tt), this, cx).

(** ** [read_fd] and [write_fd]

    The call checks the descriptor; the future it returns does the work. *)
Definition read_fd (fd : nat) (buf : bytes) (cx : Context) : outcome (bytes * Context) :=
  cx ← fd_assert_nonblocking fd cx; mret (buf, cx).
Definition read_fd_poll (fd : nat) : FdFut bytes (result nat) := λ buf cx,
  let '(r, cx) := syscall (sys_read fd (length buf)) cx in
  match r with
  | Done data => mret (Ready (Ok (length data)), data ++ drop (length data) buf, cx)
  | Failed EAGAIN => mret (Pending, buf, push_poll fd Read cx)
  | Failed e => mret (Ready (Err (errno_text e)), buf, cx)
  end.

Definition write_fd (fd : nat) (buf : bytes) (cx : Context) : outcome (bytes * Context) :=
  cx ← fd_assert_nonblocking fd cx; mret (buf, cx).
Definition write_fd_poll (fd : nat) : FdFut bytes (result nat) := λ buf cx,
  let '(r, cx) := syscall (sys_write fd buf) cx in
  match r with
  | Done n => mret (Ready (Ok n), buf, cx)
  | Failed EAGAIN => mret (Pending, buf, push_poll fd Write cx)
  | Failed EINTR => mret (Pending, buf, wake_by_ref cx)
  | Failed e => mret (Ready (Err (errno_text e)), buf, cx)
  end.

(** ** Waiting for a descriptor *)

(** [fd_readable] and [fd_writable]. *)
Definition fd_is (dir : PollType) (fd : nat) (cx : Context) : result bool * Context :=
  let '(r, cx) := syscall (sys_poll fd dir) cx in
  (match r with
   | Failed e => Err (errno_text e)
   | Done None => Err ":("
   | Done (Some b) => Ok b
   end, cx).
Definition fd_readable : nat → Context → result bool * Context := fd_is Read.
Definition fd_writable : nat → Context → result bool * Context := fd_is Write.

Definition fd_wait_readable (fd : nat) : FdFut unit (result unit) := λ this cx,
  let '(r, cx) := fd_readable fd cx in
  match r with
  | Err why => mret (Ready (Err why), this, cx)
  | Ok true => mret (Ready (Ok tt), this, cx)
  | Ok false => mret (Pending, this, push_poll fd Read cx)
  end.
Definition fd_wait_writable (fd : nat) : FdFut unit (result unit) := λ this cx,
  let '(r, cx) := fd_writable fd cx in
  match r with
  | Err why => mret (Ready (Err why), this, cx)
  | Ok true => mret (Ready (Ok tt), this, cx)
  | Ok false => mret (Pending, this, push_poll fd Write cx)
  end.

(** ** The module [socket] *)

(** [std::net::SocketAddr]: address and port. *)
Inductive SocketAddr := SocketV4 (ip : Z) (port : Z) | SocketV6 (ip : Z) (port : Z).

(** A [w]-byte integer with the most significant byte first ([to_be]). *)
Fixpoint be_bytes (w : nat) (x : Z) : bytes :=
  match w with O => [] | S w => be_bytes w (Z.shiftr x 8) ++ [wrap 8 x] end.

(** [libc::sockaddr_in] on Linux: [AF_INET], the port, the address, the padding. *)
Definition sockaddr_in (ip port : Z) : bytes := [2; 0] ++ be_bytes 2 port ++ be_bytes 4 ip ++ replicate 8 0.

Definition socket (o : Os) : result nat * Os :=
  let '(fd, o) := sys_socket o in (if fd =? -1 then Err "socket failed" else Ok (Z.to_nat fd), o).

(** [connect], an async function: before the call, at its only [await], after. *)
Inductive Connect := Connecting | AwaitingWritable | ConnectDone.

Definition await_writable (sock : nat) (cx : Context) : outcome (Poll (result unit) * Connect * Context) :=
  '(r, _, cx) ← fd_wait_writable sock tt cx;
  match r with
  | Pending => mret (Pending, AwaitingWritable, cx)
  | Ready r => mret (Ready r, ConnectDone, cx)
  end.

Definition connect (sock : nat) (addr : SocketAddr) : FdFut Connect (result unit) := λ this cx,
  match this with
  | Connecting =>
      match addr with
      | SocketV6 _ _ => Panic "not implemented: Cannot connect to IPv6 addresses"
      | SocketV4 ip port =>
          let '(conn_res, cx) := syscall (sys_connect sock (sockaddr_in ip port)) cx in
          if conn_res =? 0 then mret (Ready (Ok tt), ConnectDone, cx) else
          if conn_res =? -1 then
            match last_errno (os (env cx)) with
            | EINPROGRESS | EALREADY => await_writable sock cx
            | EISCONN => mret (Ready (Ok tt), ConnectDone, cx)
            | e => mret (Ready (Err ("connect failed: " +:+ pretty (errno_raw e))), ConnectDone, cx)
            end
          else Panic "internal error: entered unreachable code"
      end
  | AwaitingWritable => await_writable sock cx
  | ConnectDone => Panic "`async fn` resumed after completion"
  end.

Definition set_nodelay (fd : nat) (o : Os) : outcome (result unit * Os) :=
  let '(res, o) := set_tcp_nodelay fd o in
  if res =? 0 then mret (Ok tt, o) else
  if res =? -1 then mret (Err "setsockopt failed", o) else Panic "internal error: entered unreachable code".

(** ** [connect_timeout] of [legacy_tcp.rs]

    An async function with one [await]: the socket and the connecting future with
    its deadline, while it waits. *)
Inductive ConnectTimeout :=
| CtStart
| CtConnecting (sock : nat) (conn_res : TimeoutFuture (Waker := nat) Connect)
| CtDone.

Definition ct_resume (addr : SocketAddr) (sock : nat) (conn_res : TimeoutFuture Connect) (cx : Context) :
    outcome (Poll (result nat) * ConnectTimeout * Context) :=
  '(r, conn_res, cx) ← timeout_poll (connect sock addr) conn_res cx;
  match r with
  | Pending => mret (Pending, CtConnecting sock conn_res, cx)
  | Ready (Err why) => mret (Ready (Err why), CtDone, cx)
  | Ready (Ok (Err why)) => mret (Ready (Err why), CtDone, cx)
  | Ready (Ok (Ok tt)) =>
      let '(r, cx) := syscall (fd_make_nonblocking sock) cx in
      match r with
      | Err why => mret (Ready (Err why), CtDone, cx)
      | Ok tt => mret (Ready (Ok sock), CtDone, cx)
      end
  end.

Definition connect_timeout (addr : SocketAddr) (timeout : Z) : FdFut ConnectTimeout (result nat) := λ this cx,
  match this with
  | CtStart =>
      let '(sock, cx) := syscall socket cx in
      match sock with
      | Err why => mret (Ready (Err why), CtDone, cx)
      | Ok sock =>
          let '(r, cx) := syscall (fd_make_nonblocking sock) cx in
          match r with
          | Err why => mret (Ready (Err why), CtDone, cx)
          | Ok tt =>
              let '(conn_res, cx) := timeout_future Connecting timeout cx in
              ct_resume addr sock conn_res cx
          end
      end
  | CtConnecting sock conn_res => ct_resume addr sock conn_res cx
  | CtDone => Panic "`async fn` resumed after completion"
  end.

(** ** Lemmas *)

(** Only the operating system may have changed. *)
Definition quiet (cx cx' : Context) : Prop :=
  waker cx' = waker cx ∧ clock cx' = clock cx ∧ reads cx' = reads cx ∧ sleep_register cx' = sleep_register cx
  ∧ woken cx' = woken cx ∧ POLL_REGISTER (env cx') = POLL_REGISTER (env cx).

#[export] Instance quiet_refl : Reflexive quiet.
Proof. by repeat split. Qed.
#[export] Instance quiet_trans : Transitive quiet.
Proof. intros a b c (?&?&?&?&?&?) (?&?&?&?&?&?). unfold quiet. split_and!; congruence. Qed.

Lemma syscall_spec {A} (call : Os → A * Os) cx a cx' :
  syscall call cx = (a, cx') → quiet cx cx' ∧ a = (call (os (env cx))).1 ∧ os (env cx') = (call (os (env cx))).2.
Proof. unfold syscall. destruct (call (os (env cx))) as [a0 o]. intros [= <- <-]. by repeat split. Qed.

Lemma fd_assert_quiet fd cx cx' : fd_assert_nonblocking fd cx = Ret cx' → quiet cx cx'.
Proof.
  unfold fd_assert_nonblocking. destruct (negb _); [by intros [= <-]|].
  destruct (syscall _ cx) as [flags cx1] eqn:Hs. apply syscall_spec in Hs as [Hq _].
  destruct (flags =? -1); [done|]. destruct (_ =? 0); [done|]. by intros [= <-].
Qed.

Lemma fd_is_quiet dir fd cx r cx' : fd_is dir fd cx = (r, cx') → quiet cx cx'.
Proof.
  unfold fd_is. destruct (syscall _ cx) as [a cx1] eqn:Hs. apply syscall_spec in Hs as [Hq _]. by intros [= _ <-].
Qed.

(** A pending future has left its waker with [POLL_REGISTER], for its descriptor
    and its direction, or woken its task; a completed one has done neither. *)
Definition waits_on {X T} (fd : nat) (dir : PollType) (poll : FdFut X T) : Prop :=
  ∀ x cx r x' cx', poll x cx = Ret (r, x', cx') →
    ∃ cx1, quiet cx cx1
      ∧ match r with Ready _ => cx' = cx1 | Pending => cx' = push_poll fd dir cx1 ∨ cx' = wake_by_ref cx1 end.

Ltac waits := match goal with
  | H : _ = Ret _ |- _ =>
      cbv [mret outcome_ret] in H;
      first [discriminate H | injection H as <- <- <-; eexists; split; [eassumption|]; auto]
  end.

(** The two that wait for readiness only ever register. *)
Definition registers {X T} (fd : nat) (dir : PollType) (poll : FdFut X T) : Prop :=
  ∀ x cx r x' cx', poll x cx = Ret (r, x', cx') →
    ∃ cx1, quiet cx cx1 ∧ cx' = match r with Ready _ => cx1 | Pending => push_poll fd dir cx1 end.

Lemma registers_waits {X T} fd dir (poll : FdFut X T) : registers fd dir poll → waits_on fd dir poll.
Proof. intros H x cx r x' cx' Hp. destruct (H _ _ _ _ _ Hp) as (cx1 & ? & ->). exists cx1. destruct r; auto. Qed.

Lemma fd_wait_registers fd :
  registers fd Read (fd_wait_readable fd) ∧ registers fd Write (fd_wait_writable fd).
Proof.
  split; intros x cx r x' cx' H; unfold fd_wait_readable, fd_wait_writable, fd_readable, fd_writable in H.
  all: destruct (fd_is _ fd cx) as [a cx1] eqn:Hs; apply fd_is_quiet in Hs; destruct a as [[]|]; waits.
Qed.

Lemma io_waits fd :
  waits_on fd Read (poll_read fd) ∧ waits_on fd Write (poll_write fd)
  ∧ waits_on fd Read (read_fd_poll fd) ∧ waits_on fd Write (write_fd_poll fd).
Proof.
  split_and!; intros x cx r x' cx' H.
  - apply bind_Ret_inv in H as (cx1 & Ha%fd_assert_quiet & H).
    destruct (syscall _ cx1) as [a cx2] eqn:Hs; apply syscall_spec in Hs as [Hs _]. assert (quiet cx cx2) by (by etransitivity).
    destruct a as [|[]]; waits.
  - apply bind_Ret_inv in H as (cx1 & Ha%fd_assert_quiet & H).
    destruct (syscall _ cx1) as [a cx2] eqn:Hs; apply syscall_spec in Hs as [Hs _]. assert (quiet cx cx2) by (by etransitivity).
    destruct a as [|[]]; waits.
  - unfold read_fd_poll in H. destruct (syscall _ cx) as [a cx2] eqn:Hs; apply syscall_spec in Hs as [Hs _]. destruct a as [|[]]; waits.
  - unfold write_fd_poll in H. destruct (syscall _ cx) as [a cx2] eqn:Hs; apply syscall_spec in Hs as [Hs _]. destruct a as [|[]]; waits.
Qed.

Lemma await_writable_registers sock cx r x' cx' :
  await_writable sock cx = Ret (r, x', cx') →
  ∃ cx1, quiet cx cx1
    ∧ match r with
      | Ready _ => cx' = cx1 ∧ x' = ConnectDone
      | Pending => cx' = push_poll sock Write cx1 ∧ x' = AwaitingWritable
      end.
Proof.
  intros H. apply bind_Ret_inv in H as ([[r0 u] cx0] & Hw & H).
  apply (proj2 (fd_wait_registers sock)) in Hw as (cx1 & Hq & Hr).
  exists cx1. split; [exact Hq|]. destruct r0; injection H as <- <- <-; auto.
Qed.

Lemma connect_registers sock addr : registers sock Write (connect sock addr).
Proof.
  assert (Haw : ∀ cx cx1 r x' cx', quiet cx cx1 → await_writable sock cx1 = Ret (r, x', cx') →
    ∃ cx2, quiet cx cx2 ∧ cx' = match r with Ready _ => cx2 | Pending => push_poll sock Write cx2 end).
  { intros cx cx1 r x' cx' Hq (cx2 & Hq2 & Hr)%await_writable_registers. exists cx2.
    split; [by etransitivity|]. destruct r; apply Hr. }
  intros x cx r x' cx' H. destruct x; cbn [connect] in H; [|by eapply Haw in H|done].
  destruct addr as [ip port|]; [|done]. destruct (syscall _ cx) as [a cx2] eqn:Hs. apply syscall_spec in Hs as [Hs _].
  destruct (a =? 0); [waits|]. destruct (a =? -1); [|done].
  destruct (last_errno _); first [by eapply Haw in H|waits].
Qed.

(** ** Descriptors that do not block *)

Context `{!PosixLaws Os}.

(** No descriptor starts to block. *)
Definition stays_nonblocking (o o' : Os) : Prop := ∀ fd, nonblocking fd o → nonblocking fd o'.

Lemma with_nonblock flags : Z.land (Z.lor flags O_NONBLOCK) O_NONBLOCK = O_NONBLOCK.
Proof.
  apply Z.bits_inj'. intros i Hi. rewrite Z.land_spec, Z.lor_spec. by destruct (Z.testbit flags i), (Z.testbit O_NONBLOCK i).
Qed.

Lemma make_nonblocking_ok fd o o' : fd_make_nonblocking fd o = (Ok tt, o') → nonblocking fd o'.
Proof.
  unfold fd_make_nonblocking. pose proof (getfl_range fd o) as Hrange. pose proof nonblock_flag as Hflag.
  destruct (fcntl_getfl fd o) as [flags o1]. cbn [fst] in Hrange. destruct (Z.eqb_spec flags (-1)); [done|].
  destruct (fcntl_setfl fd (Z.lor flags O_NONBLOCK) o1) as [res o2] eqn:Hs. destruct (Z.eqb_spec res (-1)); [done|].
  intros [= <-]. pose proof (setfl_sets fd (Z.lor flags O_NONBLOCK) o1) as H. rewrite Hs in H. apply H; [done|apply Z.lor_nonneg; lia|].
  rewrite with_nonblock. lia.
Qed.

Lemma make_nonblocking_keeps fd o : stays_nonblocking o (fd_make_nonblocking fd o).2.
Proof.
  intros fd' Hn. unfold fd_make_nonblocking. pose proof (getfl_keeps fd' fd o Hn) as Hn1. pose proof (getfl_range fd o) as Hr.
  pose proof nonblock_flag as Hflag. destruct (fcntl_getfl fd o) as [flags o1]. cbn [fst snd] in *.
  destruct (Z.eqb_spec flags (-1)); [done|].
  pose proof (setfl_keeps fd' fd (Z.lor flags O_NONBLOCK) o1) as H. rewrite with_nonblock in H.
  assert (Hn2 : nonblocking fd' (fcntl_setfl fd (Z.lor flags O_NONBLOCK) o1).2) by (apply H; [apply Z.lor_nonneg; lia|lia|done]).
  destruct (fcntl_setfl _ _ o1) as [res o2]. by destruct (res =? -1).
Qed.

Lemma make_nonblocking_stays fd o r o' : fd_make_nonblocking fd o = (r, o') → stays_nonblocking o o'.
Proof. intros H. pose proof (make_nonblocking_keeps fd o) as Hk. by rewrite H in Hk. Qed.

Lemma fd_assert_ok fd cx :
  nonblocking fd (os (env cx)) →
  ∃ cx', fd_assert_nonblocking fd cx = Ret cx' ∧ stays_nonblocking (os (env cx)) (os (env cx')).
Proof.
  intros [Hf Hn]. unfold fd_assert_nonblocking. destruct (negb _); [exists cx; by split; [|intros ?]|].
  destruct (syscall _ cx) as [flags cx1] eqn:Hs. apply syscall_spec in Hs as (_ & -> & E).
  rewrite (proj2 (Z.eqb_neq _ _) Hf), (proj2 (Z.eqb_neq _ _) Hn). exists cx1. split; [done|].
  intros fd' Hfd. rewrite E. by apply getfl_keeps.
Qed.

(** What a caller gets of a read into [buf] that leaves [buf']: the bytes after
    the first [n] are not touched. *)
Definition read_result (buf : bytes) (res : option (sys_result nat)) (buf' : bytes) : Prop :=
  length buf' = length buf
  ∧ match res with
    | Some (Done n) => (n <= length buf)%nat ∧ drop n buf' = drop n buf
    | Some (Failed e) => buf' = buf ∧ e ≠ EAGAIN ∧ e ≠ EINTR
    | None => buf' = buf
    end.
Definition write_result (data : bytes) (res : option (sys_result nat)) : Prop :=
  match res with
  | Some (Done n) => (n <= length data)%nat
  | Some (Failed e) => e ≠ EAGAIN ∧ e ≠ EINTR
  | None => True
  end.

Lemma poll_read_ok fd buf cx :
  nonblocking fd (os (env cx)) →
  ∃ r buf' cx', poll_read fd buf cx = Ret (r, buf', cx') ∧ nonblocking fd (os (env cx'))
    ∧ read_result buf (match r with Ready v => Some v | Pending => None end) buf'.
Proof.
  intros Hn. unfold poll_read. destruct (fd_assert_ok fd cx Hn) as (cx1 & -> & Hk). cbn [mbind outcome_bind].
  destruct (syscall _ cx1) as [a cx2] eqn:Hs. apply syscall_spec in Hs as (_ & Ha & E).
  assert (Hn2 : nonblocking fd (os (env cx2))) by (rewrite E; by apply read_keeps, Hk).
  destruct a as [data|[]]; eexists _, _, _; (split; [reflexivity|]); (split; [exact Hn2|]); try done.
  symmetry in Ha. apply read_bound in Ha. split.
  - rewrite length_app, length_drop. lia.
  - split; [done|]. by rewrite drop_app_length.
Qed.

Lemma poll_write_ok fd data cx :
  nonblocking fd (os (env cx)) →
  ∃ r cx', poll_write fd data cx = Ret (r, data, cx') ∧ nonblocking fd (os (env cx'))
    ∧ write_result data (match r with Ready v => Some v | Pending => None end).
Proof.
  intros Hn. unfold poll_write. destruct (fd_assert_ok fd cx Hn) as (cx1 & -> & Hk). cbn [mbind outcome_bind].
  destruct (syscall _ cx1) as [a cx2] eqn:Hs. apply syscall_spec in Hs as (_ & Ha & E).
  assert (Hn2 : nonblocking fd (os (env cx2))) by (rewrite E; by apply write_keeps, Hk).
  destruct a as [n|[]]; eexists _, _; (split; [reflexivity|]); (split; [exact Hn2|]); try done.
  symmetry in Ha. by apply write_bound in Ha.
Qed.

(** Reading and writing a descriptor that was made non-blocking. Whatever else
    happens to the system between the polls, short of making the descriptor
    block again, and in every build: a read or write polled until it is ready
    never panics; the system's [EAGAIN] and [EINTR] never reach the caller; a
    read fills no more than the buffer and leaves the rest as it was, a pending
    or failed one leaves all of it; a write reports no more than it was given.
    A debug build catches the descriptors that do block: nothing is read from
    them or written to them. *)
Theorem nonblocking_io fd o (cx : Context) ws buf :
  fd_make_nonblocking fd o = (Ok tt, os (env cx)) →
  (∀ w others io, (w, others) ∈ ws → nonblocking fd (os io) → nonblocking fd (os (others io))) →
  (∃ res buf' cx', drive (poll_read fd) ws buf cx = Ret (res, buf', cx') ∧ read_result buf res buf')
  ∧ (∃ res cx', drive (poll_write fd) ws buf cx = Ret (res, buf, cx') ∧ write_result buf res)
  ∧ (debug_assertions = true → ∀ cx0, ¬ nonblocking fd (os (env cx0)) →
       ∃ why, poll_read fd buf cx0 = Panic why ∧ poll_write fd buf cx0 = Panic why).
Proof.
  intros Hn%make_nonblocking_ok Hothers. split_and!.
  - destruct (drive_invariant (λ b (c : Context), b = buf ∧ nonblocking fd (os (env c)))
      (λ v b _, read_result buf (Some v) b) (poll_read fd) ws buf cx) as (res & b & c & E & H).
    + intros b c [-> Hc]. destruct (poll_read_ok fd buf c Hc) as (r & b & c' & E & H & Hr).
      eexists _, _, _. split; [exact E|]. destruct r; [exact Hr|]. split; [apply Hr|exact H].
    + intros w others b c Hin [-> Hc]. split; [done|]. by eapply Hothers.
    + done.
    + eexists _, _, _. split; [exact E|]. destruct res; [exact H|]. destruct H as [-> _]. by split.
  - destruct (drive_invariant (λ b (c : Context), b = buf ∧ nonblocking fd (os (env c)))
      (λ v b _, b = buf ∧ write_result buf (Some v)) (poll_write fd) ws buf cx) as (res & b & c & E & H).
    + intros b c [-> Hc]. destruct (poll_write_ok fd buf c Hc) as (r & c' & E & H & Hr).
      eexists _, _, _. split; [exact E|]. by destruct r.
    + intros w others b c Hin [-> Hc]. split; [done|]. by eapply Hothers.
    + done.
    + assert (b = buf) as -> by (destruct res; apply H). eexists _, _. split; [exact E|]. destruct res; [apply H|done].
  - intros Hd cx0 Hb. unfold poll_read, poll_write, fd_assert_nonblocking. rewrite Hd. cbn [negb].
    destruct (syscall _ cx0) as [flags cx1] eqn:Hs. apply syscall_spec in Hs as (_ & -> & _).
    destruct (Z.eqb_spec (fcntl_getfl fd (os (env cx0))).1 (-1)); [by eexists|].
    destruct (Z.eqb_spec (Z.land (fcntl_getfl fd (os (env cx0))).1 O_NONBLOCK) 0); [by eexists|].
    by destruct Hb.
Qed.

(** ** [connect_timeout] *)

Section connect_timeout.
Context (ip port timeout : Z).
Abbreviation addr := (SocketV4 ip port).

Lemma await_writable_ok sock cx :
  ∃ r x' cx', await_writable sock cx = Ret (r, x', cx') ∧ stays_nonblocking (os (env cx)) (os (env cx')).
Proof.
  unfold await_writable, fd_wait_writable, fd_writable, fd_is.
  destruct (syscall _ cx) as [a cx1] eqn:Hs. apply syscall_spec in Hs as (_ & _ & E).
  assert (Hk : stays_nonblocking (os (env cx)) (os (env cx1))) by (intros fd Hfd; rewrite E; by apply poll_keeps).
  destruct a as [[[]|]|]; by eexists _, _, _.
Qed.

Lemma connect_ok sock x cx :
  x ≠ ConnectDone →
  ∃ r x' cx', connect sock addr x cx = Ret (r, x', cx') ∧ stays_nonblocking (os (env cx)) (os (env cx'))
    ∧ (r = Pending → x' = AwaitingWritable).
Proof.
  assert (Haw : ∀ cx0, stays_nonblocking (os (env cx)) (os (env cx0)) →
    ∃ r x' cx', await_writable sock cx0 = Ret (r, x', cx') ∧ stays_nonblocking (os (env cx)) (os (env cx'))
      ∧ (r = Pending → x' = AwaitingWritable)).
  { intros cx0 Hk0. destruct (await_writable_ok sock cx0) as (r & x' & cx' & E & Hk). eexists _, _, _. split; [exact E|]. split.
    - intros fd Hfd. by apply Hk, Hk0.
    - intros ->. apply await_writable_registers in E as (_ & _ & _ & ->). done. }
  intros Hx. destruct x; [|by apply Haw; intros ?|done]. cbn [connect].
  destruct (syscall _ cx) as [a cx1] eqn:Hs. apply syscall_spec in Hs as (_ & Ha & E).
  assert (Hk : stays_nonblocking (os (env cx)) (os (env cx1))) by (intros fd Hfd; rewrite E; by apply connect_keeps).
  destruct (connect_returns sock (sockaddr_in ip port) (os (env cx))) as [H|H]; rewrite H in Ha; subst a; cbn [Z.eqb];
    [by eexists _, _, _|].
  destruct (last_errno _); first [by eexists _, _, _|by apply Haw].
Qed.

(** A connection attempt that waits: for its deadline, with its timer set, on a
    socket that does not block. *)
Definition ct_waits (deadline : Z) (this : ConnectTimeout) (cx : Context) : Prop :=
  match this with
  | CtConnecting sock tf =>
      timeout_at tf = deadline ∧ future tf = AwaitingWritable ∧ armed deadline (timeout_waker tf) cx
      ∧ nonblocking sock (os (env cx))
  | _ => False
  end.
(** Both wakers are registered. *)
Definition ct_registered (this : ConnectTimeout) (cx : Context) (w : nat) : Prop :=
  match this with
  | CtConnecting sock tf => (timeout_at tf, w) ∈ sleep_register cx ∧ (sock, Write, w) ∈ POLL_REGISTER (env cx)
  | _ => False
  end.
Definition ct_result (r : result nat) (cx : Context) : Prop :=
  match r with Ok sock => nonblocking sock (os (env cx)) | Err _ => True end.

Lemma ct_resume_ok sock tf cx :
  future tf ≠ ConnectDone → armed (timeout_at tf) (timeout_waker tf) cx → nonblocking sock (os (env cx)) →
  ∃ r this cx', ct_resume addr sock tf cx = Ret (r, this, cx')
    ∧ match r with
      | Pending => clock cx (reads cx) < timeout_at tf ∧ ct_waits (timeout_at tf) this cx'
          ∧ ct_registered this cx' (waker cx) ∧ clock cx' = clock cx ∧ reads cx' = S (reads cx)
      | Ready v => ct_result v cx'
      end
    ∧ (timeout_at tf <= clock cx (reads cx) → r = Ready (Err "Timeout")).
Proof.
  intros Hx Harm Hn. unfold ct_resume, timeout_poll, instant_now.
  destruct (Z.leb_spec (timeout_at tf) (clock cx (reads cx))) as [Hle|Hlt].
  { cbv [mbind outcome_bind mret outcome_ret]. by eexists _, _, _. }
  match goal with |- context [connect sock addr _ ?c] => set (cx0 := c) end.
  destruct (connect_ok sock (future tf) cx0 Hx) as (r & x' & cx1 & E & Hk & Hp). rewrite E.
  destruct (connect_registers sock addr _ _ _ _ _ E) as (cx2 & (Hw & Hc & Hr & Hsl & _ & Hpr) & Hcx).
  destruct r as [v|]; subst cx1; cbv [mbind outcome_bind mret outcome_ret].
  - destruct v as [[]|why]; [|by eexists _, _, _; split_and!; [reflexivity|done|lia]].
    destruct (syscall (fd_make_nonblocking sock) cx2) as [a cx3] eqn:Hs; apply syscall_spec in Hs as (_ & Ha & Hos).
    destruct a as [[]|]; eexists _, _, _; (split; [reflexivity|]); (split; [|lia]); [|done].
    cbn. apply (make_nonblocking_ok sock (os (env cx2))). rewrite Hos, Ha. by destruct (fd_make_nonblocking _ _).
  - rewrite (Hp eq_refl) in *.
    assert (Hn2 : nonblocking sock (os (env cx2))) by (by apply Hk).
    assert (Hreg : (sock, Write, waker cx) ∈ POLL_REGISTER (env (push_poll sock Write cx2))).
    { cbn. apply elem_of_app. right. rewrite Hw. by apply list_elem_of_here. }
    case_bool_decide as Hb; eexists _, _, _; (split; [reflexivity|]); (split; [|lia]);
      (split; [exact Hlt|]); (split; [|split; [split; [|exact Hreg]|by cbn; rewrite Hc, Hr]]).
    + split_and!; [done|done| |exact Hn2]. intros w Hw'. cbn in *. rewrite Hsl. by apply Harm.
    + cbn in *. rewrite Hsl. apply Harm. by rewrite Hb, Hw.
    + split_and!; [done|done| |exact Hn2]. cbn. intros w [= <-]. apply elem_of_app. right. by apply list_elem_of_here.
    + cbn. rewrite Hw. apply elem_of_app. right. by apply list_elem_of_here.
Qed.

(** The first poll, and each one that follows. *)
Lemma ct_start_ok cx :
  ∃ r this cx', connect_timeout addr timeout CtStart cx = Ret (r, this, cx')
    ∧ match r with
      | Pending => ct_waits (clock cx (reads cx) + timeout) this cx' ∧ ct_registered this cx' (waker cx)
          ∧ clock cx' = clock cx ∧ reads cx' = S (S (reads cx))
      | Ready v => ct_result v cx'
      end.
Proof.
  cbn [connect_timeout]. destruct (syscall _ cx) as [a cx1] eqn:Hs. apply syscall_spec in Hs as ((Hw & Hc & Hr & _) & _).
  destruct a as [sock|why]; [|by eexists _, _, _].
  destruct (syscall _ cx1) as [a cx2] eqn:Hs. apply syscall_spec in Hs as ((Hw2 & Hc2 & Hr2 & _) & Ha & Hos).
  destruct a as [[]|why]; [|by eexists _, _, _].
  assert (Hn : nonblocking sock (os (env cx2))).
  { apply (make_nonblocking_ok sock (os (env cx1))). rewrite Hos, Ha. by destruct (fd_make_nonblocking _ _). }
  unfold timeout_future, instant_now.
  match goal with |- context [ct_resume addr sock ?t ?c] =>
    destruct (ct_resume_ok sock t c) as (r & this & cx' & E & H & _) end; [done|by intros ? ?|exact Hn|].
  eexists _, _, _. split; [exact E|]. destruct r; [exact H|]. cbn in H. rewrite Hc2, Hr2, Hc, Hr, Hw2, Hw in H. by apply H.
Qed.

Lemma ct_again_ok deadline this cx :
  ct_waits deadline this cx →
  ∃ r this' cx', connect_timeout addr timeout this cx = Ret (r, this', cx')
    ∧ match r with
      | Pending => clock cx (reads cx) < deadline ∧ ct_waits deadline this' cx' ∧ ct_registered this' cx' (waker cx)
          ∧ clock cx' = clock cx ∧ reads cx' = S (reads cx)
      | Ready v => ct_result v cx'
      end.
Proof.
  destruct this as [|sock tf|]; [done| |done]. intros (<- & Hf & Harm & Hn). cbn [connect_timeout].
  destruct (ct_resume_ok sock tf cx) as (r & this & cx' & E & H & _); [by rewrite Hf|done..|]. by eexists _, _, _.
Qed.

(** Neither the waker nor the clock changes. *)
Lemma ct_polled this cx r this' cx' :
  connect_timeout addr timeout this cx = Ret (r, this', cx') → waker cx' = waker cx ∧ clock cx' = clock cx.
Proof.
  assert (Hresume : ∀ sock tf cx0, waker cx0 = waker cx ∧ clock cx0 = clock cx → ct_resume addr sock tf cx0 = Ret (r, this', cx') →
    waker cx' = waker cx ∧ clock cx' = clock cx).
  { intros sock tf cx0 [<- <-]. unfold ct_resume, timeout_poll, instant_now. destruct (_ <=? _); [by intros [= <- <- <-]|].
    destruct (connect sock addr _ _) as [[[c x'] cx1]|] eqn:E; [|done]. apply connect_registers in E as (cx2 & (Hw & Hc & _) & Hcx).
    cbn [waker clock] in Hw, Hc. destruct c as [v|]; subst cx1; cbv [mbind outcome_bind mret outcome_ret].
    - destruct v as [[]|why]; [|by intros [= <- <- <-]]. destruct (syscall _ cx2) as [a cx3] eqn:Hs. apply syscall_spec in Hs as ((Hw3 & Hc3 & _) & _).
      destruct a as [[]|]; intros [= <- <- <-]; split; congruence.
    - case_bool_decide; intros [= <- <- <-]; by split. }
  destruct this as [|sock tf|]; cbn [connect_timeout]; [|by apply Hresume|done].
  destruct (syscall socket cx) as [a cx1] eqn:Hs. apply syscall_spec in Hs as ((Hw1 & Hc1 & _) & _). destruct a as [sock|why]; [|by intros [= <- <- <-]].
  destruct (syscall _ cx1) as [a cx2] eqn:Hs. apply syscall_spec in Hs as ((Hw2 & Hc2 & _) & _).
  destruct a as [[]|why]; [|intros [= <- <- <-]; split; congruence].
  unfold timeout_future, instant_now. apply Hresume. cbn. split; congruence.
Qed.

(** The state between two polls: the deadline stands from the first poll on, and
    every poll reads the clock. *)
Lemma ct_drive cx ws :
  (∀ w others io fd, (w, others) ∈ ws → nonblocking fd (os io) → nonblocking fd (os (others io))) →
  ∃ res this cx', drive (connect_timeout addr timeout) ws CtStart cx = Ret (res, this, cx')
    ∧ match res with
      | Some r => ct_result r cx'
      | None => match list.last ws with
          | None => this = CtStart ∧ cx' = cx
          | Some (w, _) => ct_waits (clock cx (reads cx) + timeout) this cx' ∧ ct_registered this cx' w
              ∧ clock cx' = clock cx ∧ reads cx' = (reads cx + S (length ws))%nat
              ∧ ((2 <= length ws)%nat → clock cx (reads cx + length ws)%nat < clock cx (reads cx) + timeout)
          end
      end.
Proof.
  induction ws as [|[w others] ws IH] using rev_ind; intros Ho.
  { by eexists _, _, _. }
  destruct IH as (res & this & cx1 & E & H).
  { intros w0 o0 io fd Hin. eapply Ho. apply elem_of_app. left. exact Hin. }
  rewrite drive_snoc, E. cbn [mbind outcome_bind]. destruct res as [r|]; [by eexists _, _, _|].
  rewrite last_snoc, length_app. cbn [length].
  destruct (list.last ws) as [[w0 o0]|] eqn:Hl.
  - destruct H as (Hw & _ & Hc & Hr & _).
    assert (Hw' : ct_waits (clock cx (reads cx) + timeout) this (at_poll w others cx1)).
    { destruct this; [done| |done]. destruct Hw as (H1 & H2 & H3 & H4). split_and!; [done|done|exact H3|].
      eapply (Ho w others); [|exact H4]. apply elem_of_app. right. by apply list_elem_of_here. }
    destruct (ct_again_ok _ _ _ Hw') as (r & this' & cx' & -> & H'). cbn [mbind outcome_bind mret outcome_ret].
    eexists _, _, _. split; [reflexivity|]. destruct r as [v|]; [exact H'|].
    cbn [at_poll clock reads waker] in H'. rewrite Hc, Hr in H'. destruct H' as (Hlt & H1 & H2 & H3 & H4).
    split_and!; [exact H1|exact H2|exact H3|lia|]. intros _. by replace (length ws + 1)%nat with (S (length ws)) by lia.
  - apply last_None in Hl as ->. destruct H as [-> ->].
    destruct (ct_start_ok (at_poll w others cx)) as (r & this' & cx' & -> & H'). cbn [mbind outcome_bind mret outcome_ret].
    eexists _, _, _. split; [reflexivity|]. destruct r as [v|]; [exact H'|].
    cbn [at_poll clock reads waker] in H'. destruct H' as (H1 & H2 & H3 & H4).
    split_and!; [exact H1|exact H2|exact H3|cbn; lia|cbn; lia].
Qed.

(** C30. Connecting never hangs and never panics. Polled with any wakers, whatever
    the system answers and does in between, an attempt to connect to an IPv4
    address ends, at the latest at the first poll after the first that finds its
    deadline passed; as long as it is pending, the waker of its last poll is
    registered both for the deadline and for the socket, so that one of the two
    makes the executor poll it; and the socket it returns does not block. *)
Theorem connect_timeout_correct (cx : Context) ws :
  (∀ w others io fd, (w, others) ∈ ws → nonblocking fd (os io) → nonblocking fd (os (others io))) →
  ∃ res this cx', drive (connect_timeout addr timeout) ws CtStart cx = Ret (res, this, cx')
    ∧ (∀ sock, res = Some (Ok sock) → nonblocking sock (os (env cx')))
    ∧ (∀ w, res = None → list.last (fst <$> ws) = Some w →
         ∃ sock, (clock cx (reads cx) + timeout, w) ∈ sleep_register cx' ∧ (sock, Write, w) ∈ POLL_REGISTER (env cx'))
    ∧ ((2 <= length ws)%nat → clock cx (reads cx) + timeout <= clock cx (reads cx + length ws)%nat → res ≠ None).
Proof.
  intros Ho. destruct (ct_drive cx ws Ho) as (res & this & cx' & E & H).
  exists res, this, cx'. split; [exact E|]. split_and!.
  - by intros sock ->.
  - intros w -> Hl. rewrite fmap_last in Hl. destruct (list.last ws) as [[w0 o0]|]; [|done]. injection Hl as <-.
    destruct H as (Hw & Hr & _). destruct this as [|sock tf|]; [done| |done]. exists sock.
    destruct Hw as (<- & _), Hr as [H1 H2]. by split.
  - intros Hlen Hle ->. destruct (list.last ws) as [[w0 o0]|] eqn:Hl.
    + destruct H as (_ & _ & _ & _ & Hlt). specialize (Hlt Hlen). lia.
    + apply last_None in Hl as ->. cbn in Hlen. lia.
Qed.
End connect_timeout.

(** ** A task that waits for a descriptor

    What polling a future in a task of the executor does to the runtime. *)

Definition task_context (t : nat) (clk : nat → Z) (o : Os) : Context := MkCx t clk 0 [] [] (MkIo [] o).
Definition actions_of (cx : Context) : list Executor.action :=
  (Executor.Wake <$> woken cx) ++ ((λ e, Executor.Sleep e.1 e.2) <$> sleep_register cx)
  ++ (Executor.PollFd <$> POLL_REGISTER (env cx)).

(** The futures above, each with the descriptor and the direction it waits for. *)
Inductive descriptor_future (fd : nat) : ∀ X T, PollType → FdFut X T → Prop :=
| reading : descriptor_future fd bytes (sys_result nat) Read (poll_read fd)
| writing : descriptor_future fd bytes (sys_result nat) Write (poll_write fd)
| reading_fd : descriptor_future fd bytes (result nat) Read (read_fd_poll fd)
| writing_fd : descriptor_future fd bytes (result nat) Write (write_fd_poll fd)
| waiting_readable : descriptor_future fd unit (result unit) Read (fd_wait_readable fd)
| waiting_writable : descriptor_future fd unit (result unit) Write (fd_wait_writable fd)
| connecting addr : descriptor_future fd Connect (result unit) Write (connect fd addr).

Lemma descriptor_future_waits fd X T dir (poll : FdFut X T) : descriptor_future fd X T dir poll → waits_on fd dir poll.
Proof.
  intros [| | | | | |addr]; [apply io_waits..|apply registers_waits, fd_wait_registers|apply registers_waits, fd_wait_registers|].
  apply registers_waits, connect_registers.
Qed.

Lemma pending_actions {X T} fd dir (poll : FdFut X T) x x' t clk o cx' :
  waits_on fd dir poll → poll x (task_context t clk o) = Ret (Pending, x', cx') →
  Executor.Wake t ∈ actions_of cx' ∨ Executor.PollFd (fd, dir, t) ∈ actions_of cx'.
Proof.
  intros Hw Hp. destruct (Hw _ _ _ _ _ Hp) as (cx1 & (Ewk & _ & _ & _ & Ew & Ep) & Hr). cbn in Ewk, Ew, Ep.
  unfold actions_of. destruct Hr as [->| ->]; cbn [woken sleep_register env push_poll with_env POLL_REGISTER wake_by_ref].
  - right. rewrite Ep, Ewk. apply elem_of_app. right. apply elem_of_app. right. by apply list_elem_of_here.
  - left. rewrite Ew, Ewk. apply elem_of_app. left. by apply list_elem_of_here.
Qed.

(** C25. A task that waits for a descriptor is resumed. When a queued task polls one
    of the futures above and it is pending, then the task is polled again after
    any of the following iterations of the executor (this one included) in which
    [poll] reports the descriptor, at the latest by the next one, for which it is
    in the queue. Nothing else that happens in the iterations can prevent it. *)
Theorem pending_task_resumed {X T} fd dir (poll : FdFut X T) x x' t clk o cx' env rt s rt1 s1 envs rt2 s2 :
  descriptor_future fd X T dir poll →
  Executor.runtime_ok rt s → t ∈ Executor.TASK_SENDER rt → t ∈ Executor.futures rt →
  poll x (task_context t clk o) = Ret (Pending, x', cx') → Executor.task_poll env t = (actions_of cx', false) →
  Executor.iteration env rt s rt1 s1 → Executor.iterations envs rt1 s1 rt2 s2 →
  Exists (λ env, Executor.answers env fd = true) (env :: envs) →
  ∃ l, Executor.polls (Executor.log rt2) = Executor.polls (Executor.log rt1) ++ l
    ∧ (t ∈ l ∨ t ∈ Executor.TASK_SENDER rt2).
Proof.
  intros Hfut%descriptor_future_waits Hok Ht Hf Hp Hact Hit Hits Hready.
  destruct (Executor.iteration_spec env rt s rt1 s1 Hok Hit) as (Hok1 & _ & _ & Hacts).
  destruct (Hacts t Ht Hf) as [Hreg Hwake]. rewrite Hact in Hreg, Hwake. cbn [fst] in Hreg, Hwake.
  destruct (pending_actions fd dir poll x x' t clk o cx' Hfut Hp) as [Ha|Ha].
  - apply (Executor.queued_resumed envs rt1 s1 rt2 s2); [exact Hok1|exact Hits|by apply Hwake].
  - specialize (Hreg _ Ha). cbn [fd_of waker_of fst snd] in Hreg.
    destruct (Executor.answers env fd) eqn:Hr.
    { apply (Executor.queued_resumed envs rt1 s1 rt2 s2); [exact Hok1|exact Hits|exact Hreg]. }
    destruct (Executor.waiter_resumed envs rt1 s1 rt2 s2 _ Hok1 Hits Hreg) as (l & Hl & Hcase).
    exists l. split; [exact Hl|]. destruct Hcase as [?|[?|[_ Hnone]]]; [by left|by right|].
    apply Exists_cons in Hready as [Hr'|(env0 & Hin & Hr')%list.Exists_exists]; [congruence|].
    rewrite list.Forall_forall in Hnone. specialize (Hnone env0 Hin). cbn in Hnone. congruence.
Qed.
End descriptors.

(** ** Witnesses

    A machine: the flags of its descriptors, what can be read from each, how many
    bytes can be written before writers must wait, and what was written. *)
Module Machine.
Record Machine := MkMachine {
  flags : gmap nat Z;
  input : gmap nat bytes;
  room : nat;
  output : bytes;
}.

#[export] Instance machine_posix : Posix Machine := {
  O_NONBLOCK := 2048;
  sys_read fd n m :=
    match input m !!! fd with
    | [] => (Failed EAGAIN, m)
    | data => (Done (take n data), MkMachine (flags m) (<[fd := drop n data]> (input m)) (room m) (output m))
    end;
  sys_write fd data m :=
    match room m with
    | O => (Failed EAGAIN, m)
    | r => let n := min r (length data) in
           (Done n, MkMachine (flags m) (input m) (r - n) (output m ++ take n data))
    end;
  sys_poll fd dir m :=
    (Done (Some match dir with Read => negb (bool_decide (input m !!! fd = [])) | Write => negb (room m =? 0)%nat end), m);
  fcntl_getfl fd m := (match flags m !! fd with Some f => Z.max 0 f | None => -1 end, m);
  fcntl_setfl fd f m :=
    if f <? 0 then (-1, m) else (0, MkMachine (<[fd := f]> (flags m)) (input m) (room m) (output m));
  sys_dup fd m :=
    let new := fresh (dom (flags m)) in
    (Z.of_nat new, MkMachine (<[new := default 0 (flags m !! fd)]> (flags m)) (input m) (room m) (output m));
  sys_socket m :=
    let new := fresh (dom (flags m)) in
    (Z.of_nat new, MkMachine (<[new := 2]> (flags m)) (input m) (room m) (output m));
  sys_connect fd addr m := (-1, m);
  last_errno m := EINPROGRESS;
  set_tcp_nodelay fd m := (0, m);
  errno_text e := "error";
  errno_raw e := 115;
}.

#[export] Instance machine_laws : PosixLaws Machine.
Proof.
  split; unfold nonblocking; cbn -[fresh]; try done.
  - intros fd m. destruct (flags m !! fd); lia.
  - intros fd f m. destruct (Z.ltb_spec f 0); [done|]. cbn. intros _ _ Hf. rewrite lookup_insert_eq.
    rewrite Z.max_r by lia. split; [lia|done].
  - intros fd fd' f m. destruct (Z.ltb_spec f 0); [done|]. cbn. intros _ Hf Hn.
    destruct (decide (fd' = fd)) as [->|]; [rewrite lookup_insert_eq, Z.max_r by lia; split; [lia|done]|by rewrite lookup_insert_ne].
  - intros fd fd' m. cbn -[fresh]. intros Hn. rewrite lookup_insert_ne; [done|]. intros E.
    pose proof (is_fresh (dom (flags m))) as Hf. rewrite E in Hf. apply not_elem_of_dom in Hf. rewrite Hf in Hn. by destruct Hn.
  - intros fd fd' n m. destruct (input m !!! fd'); done.
  - intros fd fd' data m. destruct (room m); done.
  - intros fd n m data. destruct (input m !!! fd) as [|b l]; [done|]. cbn -[take]. intros [= <-]. rewrite length_take. lia.
  - intros fd data m n. cbn zeta. destruct (room m) as [|k]; [done|]. intros [= <-]. exact (Nat.le_min_r (S k) (length data)).
  - intros. by right.
  - intros. by left.
Qed.

(** Descriptor 5 can be read and written, up to four bytes; it blocks at first. *)
Definition example : Machine := MkMachine {[5%nat := 2]} {[5%nat := [1; 2; 3]]} 4 [].
Definition quiet_machine : Machine := MkMachine {[5%nat := 2050]} ∅ 4 [].
End Machine.
Import Machine.

(** Between the polls, two more bytes arrive. *)
Lemma nonblocking_io_witness :
  let others (io : Io Machine) :=
    MkIo (POLL_REGISTER io) (MkMachine (flags (os io)) (<[5%nat := [8; 9]]> (input (os io))) (room (os io)) (output (os io))) in
  let cx := MkCx 0%nat (λ _, 0) 0 [] [] (MkIo [] (fd_make_nonblocking 5 example).2) in
  ∃ res buf' cx', drive (poll_read true 5) [(0%nat, others)] [0; 0; 0; 0] cx = Ret (res, buf', cx')
    ∧ read_result [0; 0; 0; 0] res buf' ∧ buf' = [8; 9; 0; 0].
Proof.
  intros others cx.
  assert (H : fd_make_nonblocking 5 example = (Ok tt, os (env cx))) by reflexivity.
  destruct (nonblocking_io true 5 example cx [(0%nat, others)] [0; 0; 0; 0] H) as [(res & buf' & cx' & E & Hr) _].
  { intros w o io Hin Hn. apply list_elem_of_singleton in Hin. injection Hin as _ ->. exact Hn. }
  exists res, buf', cx'. split; [exact E|]. split; [exact Hr|]. vm_compute in E. injection E as _ <- _. reflexivity.
Defined.

(** The socket is never writable: the attempt ends at its deadline. *)
Lemma connect_timeout_correct_witness :
  let full := MkMachine ∅ ∅ 0 [] in
  let cx := MkCx 0%nat (λ n, 10 * Z.of_nat n) 0 [] [] (MkIo [] full) in
  ∃ res this cx', drive (connect_timeout (SocketV4 2130706433 8080) 15) [(0, id); (1, id); (2, id)]%nat CtStart cx
      = Ret (res, this, cx')
    ∧ res ≠ None ∧ ∀ sock, res = Some (Ok sock) → nonblocking sock (os (env cx')).
Proof.
  intros full cx. destruct (connect_timeout_correct 2130706433 8080 15 cx [(0, id); (1, id); (2, id)]%nat)
    as (res & this & cx' & E & H1 & _ & H2).
  { intros w others io fd Hin Hn. repeat (apply elem_of_cons in Hin as [[= -> ->]|Hin]; [exact Hn|]). by apply elem_of_nil in Hin. }
  exists res, this, cx'. split; [exact E|]. split; [|exact H1]. apply H2; [cbn; lia|]. vm_compute. discriminate.
Defined.

(** Task 0 reads descriptor 5, on which nothing has arrived; the next iteration
    finds it readable. *)
Definition reader : Executor.Runtime := Executor.MkRuntime 1 {[0%nat]} [0%nat] {[0%nat]} [] [] [Executor.Woken 0].
Definition reader_env (ready : nat → bool) (acts : list Executor.action) : Executor.Env :=
  Executor.MkEnv 1000000 1100000 (λ t, (acts, false)) [5%nat] [5%nat] (Ok ready).

Lemma reader_iterates : iterates [5%nat] [(5%nat, Read, 0%nat)].
Proof. split; [apply (bool_decide_unpack _); vm_compute; reflexivity|]. intros fd. cbn. tauto. Qed.

Lemma reader_ok : Executor.runtime_ok reader SleepStore.new.
Proof.
  split_and!; [split_and!| | |].
  - apply (bool_decide_unpack _). vm_compute. reflexivity.
  - intros t. cbn. rewrite elem_of_singleton, list_elem_of_singleton. done.
  - intros t. cbn. rewrite !elem_of_singleton. lia.
  - intros t. cbn. destruct (decide (0 = t)%nat) as [<-|]; [by intros _; apply elem_of_singleton|done].
  - constructor.
  - split; constructor.
  - constructor.
Qed.

Lemma pending_task_resumed_witness :
  ∃ x' cx' rt1 s1 rt2 s2, read_fd_poll 5 [0; 0] (task_context 0 (λ _, 0) quiet_machine) = Ret (Pending, x', cx')
    ∧ Executor.iteration (reader_env (λ _, false) (actions_of cx')) reader SleepStore.new rt1 s1
    ∧ Executor.iteration (reader_env (λ _, true) []) rt1 s1 rt2 s2
    ∧ ∃ l, Executor.polls (Executor.log rt2) = Executor.polls (Executor.log rt1) ++ l
        ∧ (0%nat ∈ l ∨ 0%nat ∈ Executor.TASK_SENDER rt2).
Proof.
  eexists _, _. set (cx' := task_context _ _ _).
  assert (Hp : read_fd_poll 5 [0; 0] cx' = Ret (Pending, [0; 0], push_poll 5 Read cx')) by reflexivity.
  set (env1 := reader_env (λ _, false) (actions_of (push_poll 5 Read cx'))).
  set (env2 := reader_env (λ _, true) []).
  assert (H1 : ∃ rt1 s1, Executor.iteration env1 reader SleepStore.new rt1 s1
    ∧ Executor.iteration env2 rt1 s1 (default rt1 (match Executor.run_forever_step env2 rt1 s1 with Ret (_, rt2, _) => Some rt2 | Panic _ => None end)) s1).
  { eexists _, _. split.
    - eapply (Executor.Iteration _ _ _ _ _ _ _ (λ _, false)); [|constructor| | | |reflexivity|].
      + intros t. repeat constructor.
      + vm_compute. reflexivity.
      + exact reader_iterates.
      + exact reader_iterates.
      + vm_compute. reflexivity.
    - eapply (Executor.Iteration _ _ _ _ _ _ _ (λ _, true)); [|constructor| | | |reflexivity|].
      + intros t. constructor.
      + vm_compute. reflexivity.
      + exact reader_iterates.
      + exact reader_iterates.
      + vm_compute. reflexivity. }
  destruct H1 as (rt1 & s1 & I1 & I2). set (rt2 := default rt1 _) in I2.
  exists rt1, s1, rt2, s1. split; [exact Hp|]. split; [exact I1|]. split; [exact I2|].
  apply (pending_task_resumed false 5 Read (read_fd_poll 5) [0; 0] [0; 0] 0 (λ _, 0) quiet_machine
    (push_poll 5 Read cx') env1 reader SleepStore.new rt1 s1 [env2] rt2 s1).
  - apply (reading_fd false).
  - exact reader_ok.
  - by apply list_elem_of_here.
  - cbn. by apply elem_of_singleton.
  - exact Hp.
  - reflexivity.
  - exact I1.
  - eapply Executor.iterations_cons; [exact I2|apply Executor.iterations_nil].
  - apply Exists_cons_tl, Exists_cons_hd. reflexivity.
Defined.
