(* ===== verification/Devices.v ===== *)
(** The TUN devices on the executor ([rust/src/linux_tuntap.rs],
    [rust/src/mac_tuntap.rs]): opening a device, making its descriptors
    non-blocking, and the tasks of [run] poll by poll.

    [Tun] has the tasks as functions of what the reads gave and the writes answered.
    Here a step of a task is what it does from one [await] on a descriptor to the
    next, with the futures of [Descriptors]; the theorems relate the two. *)
From stdpp Require Import gmap.
From S2P Require Import Prelude IpAddr Channel AllSenders World MeshNode Tun Futures Runtime Descriptors.
Import Poller.

(** What the devices need of the system beyond [Posix]. *)
Class TunOs (Os : Type) := {
  O_RDWR : Z;
  (** [libc::open] of a path; [libc::ioctl] with [TUNSETIFF]. *)
  sys_open : string → Z → Os → Z * Os;
  tunsetiff : Z → bytes → Os → Z * Os;
  (** [tun_rs]: creating the device of a name; its descriptor and its own name. *)
  build_sync : string → Os → result (nat * result string) * Os;
}.

(** [Result::unwrap]. *)
Definition unwrap_result {A} (r : result A) : outcome A :=
  match r with Ok a => mret a | Err _ => Panic "called `Result::unwrap()` on an `Err` value" end.

(** How far a task gets in one step: to an [await] that is pending, round its loop,
    or out of it. *)
Inductive Progress := Suspended | Continues | Ended.

(** [future.await]: the future is created when there is none yet, then polled. *)
Definition await_fd {Os T} (create : Cx nat (Io Os) → outcome (bytes * Cx nat (Io Os)))
    (poll : Fut (Waker := nat) (E := Io Os) bytes T) (awaiting : option bytes) (cx : Cx nat (Io Os)) :
    outcome (Futures.Poll T * bytes * Cx nat (Io Os)) :=
  '(f, cx) ← match awaiting with Some f => mret (f, cx) | None => create cx end;
  poll f cx.

(** The buffer of a read: [[0; 2048]]. *)
Definition read_buffer : bytes := replicate 2048 0.

(** ** Linux *)
Module Linux.
Section device.
Context {Os : Type} `{!Posix Os, !TunOs Os} (debug_assertions : bool).
Abbreviation Context := (Cx nat (Io Os)).

Definition fd_make_nonblocking (fd : nat) (o : Os) : result unit * Os :=
  let '(flags, o) := fcntl_getfl fd o in
  if flags =? -1 then (Err "fcntl failed", o) else
  let '(res, o) := fcntl_setfl fd (Z.lor flags O_NONBLOCK) o in
  if res =? -1 then (Err "fcntl failed", o) else (Ok tt, o).

Definition nix_libc_open (path : string) (o : Os) : Z * Os := sys_open path (Z.lor O_RDWR O_NONBLOCK) o.

(** [IFF_TUN | IFF_NO_PI], and the request with the name of the interface. *)
Definition IFF_FLAGS : Z := Z.lor 0x0001 0x1000.
Definition ifr (ifname : bytes) : outcome bytes :=
  if decide (18 < length ifname)%nat then Panic "range end index out of range for slice of length 18" else
  let flags_encoded := to_le_bytes 4 IFF_FLAGS in
  let ifr := ifname ++ replicate (18 - length ifname) 0 in
  mret (<[17%nat := flags_encoded !!! 1%nat]> (<[16%nat := flags_encoded !!! 0%nat]> ifr)).

Definition open (ifname : string) (o : Os) : outcome (nat * Os) :=
  let '(fd, o) := nix_libc_open "/dev/net/tun" o in
  request ← ifr (str_bytes ifname);
  let '(_, o) := tunsetiff fd request o in
  if fd =? -1 then Panic "fd != -1" else mret (Z.to_nat fd, o).

(** The command of [bring_interface_up]. *)
Definition bring_interface_up_args : list string := ["ip"; "link"; "set"; "dev"; "smolmesh1"; "up"]%string.

(** The descriptors of the two tasks of [run]. *)
Definition run_fds (fd : nat) (o : Os) : outcome (nat * nat * Os) :=
  let '(read_fd, o) := dup fd o in read_fd ← unwrap_result read_fd;
  let '(write_fd, o) := dup fd o in write_fd ← unwrap_result write_fd;
  let '(r, o) := fd_make_nonblocking read_fd o in _ ← unwrap_result r;
  let '(r, o) := fd_make_nonblocking write_fd o in _ ← unwrap_result r;
  mret (read_fd, write_fd, o).

Section tasks.
Context {W C S : Type} `{mpsc_s : Mpsc W S (AllSendersMessage C)} (all_senders : AllSenders S).

(** The task from the interface to the network, from one [await] to the next. *)
Definition reader_step (millis : Z) (fd : nat) (awaiting : option bytes) (w : W) (cx : Context) :
    outcome (Progress * option bytes * W * Context) :=
  '(r, packet, cx) ← await_fd (read_fd debug_assertions fd read_buffer) (read_fd_poll fd) awaiting cx;
  match r with
  | Pending => mret (Suspended, Some packet, w, cx)
  | Ready (Ok O) => mret (Ended, None, w, cx)
  | Ready (Ok amount) =>
      packet ← slice packet 0 amount;
      w ← forward all_senders millis packet w;
      mret (Continues, None, w, cx)
  | Ready (Err _) => mret (Continues, None, w, cx)
  end.
End tasks.

(** The task from the network to the interface, with the packet received. *)
Definition writer_step (fd : nat) (packet : bytes) (awaiting : option bytes) (cx : Context) :
    outcome (Progress * option bytes * Context) :=
  '(r, f, cx) ← await_fd (write_fd debug_assertions fd packet) (write_fd_poll fd) awaiting cx;
  match r with
  | Pending => mret (Suspended, Some f, cx)
  | Ready r => _ ← unwrap_result r; mret (Continues, None, cx)
  end.
End device.
End Linux.

(** ** macOS *)
Module Mac.
Section device.
Context {Os : Type} `{!Posix Os, !TunOs Os} (debug_assertions : bool).
Abbreviation Context := (Cx nat (Io Os)).

Definition make_nonblocking (raw_fd : nat) (o : Os) : Os :=
  let '(flags, o) := fcntl_getfl raw_fd o in
  if flags =? -1 then o else (fcntl_setfl raw_fd (Z.lor flags O_NONBLOCK) o).2.

(** [for i in 0..100]: the first name that works. *)
Fixpoint try_names (names : list string) (o : Os) : result (nat * result string) * Os :=
  match names with
  | [] => (Err "Failed to create TUN device after 100 attempts", o)
  | name :: names =>
      let '(device, o) := build_sync name o in
      match device with Ok device => (Ok device, o) | Err _ => try_names names o end
  end.
Definition open_sync_device (o : Os) : result (nat * result string) * Os :=
  try_names ((λ i, "utun" +:+ dec_u8 (Z.of_nat i))%string <$> seq 0 100) o.

(** [TunInterface::open]: the descriptor and the name. *)
Definition open (o : Os) : outcome (nat * string * Os) :=
  let '(device, o) := open_sync_device o in
  '(raw_fd, ifname) ← unwrap_result device;
  ifname ← unwrap_result ifname;
  mret (raw_fd, ifname, make_nonblocking raw_fd o).

Definition set_ip6_cmd (name : string) (addr : IpAddr) (prefix_len : Z) : string :=
  foldr String.append ""%string ["ifconfig "; name; " inet6 "; fmt addr; "/"; dec_u8 prefix_len; " alias"]%string.

Definition run_fds (fd : nat) (o : Os) : outcome (nat * nat * Os) :=
  let '(read_fd, o) := dup fd o in read_fd ← unwrap_result read_fd;
  let '(write_fd, o) := dup fd o in write_fd ← unwrap_result write_fd;
  mret (read_fd, write_fd, make_nonblocking write_fd (make_nonblocking read_fd o)).

Section tasks.
Context {W C S : Type} `{mpsc_s : Mpsc W S (AllSendersMessage C)} (all_senders : AllSenders S).

Definition reader_step (millis : Z) (fd : nat) (awaiting : option bytes) (w : W) (cx : Context) :
    outcome (Progress * option bytes * W * Context) :=
  '(r, buf, cx) ← await_fd (read_fd debug_assertions fd read_buffer) (read_fd_poll fd) awaiting cx;
  match r with
  | Pending => mret (Suspended, Some buf, w, cx)
  | Ready (Ok O) => mret (Ended, None, w, cx)
  | Ready (Ok amount) =>
      if decide (amount < 4)%nat then mret (Continues, None, w, cx) else
      packet ← slice buf 4 amount;
      if decide (packet = []) then mret (Continues, None, w, cx) else
      w ← forward all_senders millis packet w;
      mret (Continues, None, w, cx)
  | Ready (Err _) => mret (Continues, None, w, cx)
  end.
End tasks.

Definition writer_step (fd : nat) (packet : bytes) (awaiting : option bytes) (cx : Context) :
    outcome (Progress * option bytes * Context) :=
  match awaiting with
  | None =>
      frame ← Tun.Mac.write_buf packet;
      match frame with
      | None => mret (Continues, None, cx)
      | Some write_buf =>
          '(r, f, cx) ← await_fd (write_fd debug_assertions fd write_buf) (write_fd_poll fd) None cx;
          match r with
          | Pending => mret (Suspended, Some f, cx)
          | Ready _ => mret (Continues, None, cx)
          end
      end
  | Some f =>
      '(r, f, cx) ← write_fd_poll fd f cx;
      match r with
      | Pending => mret (Suspended, Some f, cx)
      | Ready _ => mret (Continues, None, cx)
      end
  end.
End device.
End Mac.

(** ** The tasks of [run] are those of [Tun] *)

Section refinement.
Context {Os : Type} `{!Posix Os, !PosixLaws Os, !TunOs Os} (debug_assertions : bool).
Context {W C S : Type} `{mpsc_s : Mpsc W S (AllSendersMessage C)} (all_senders : AllSenders S).
Implicit Types (cx : Cx nat (Io Os)) (fd : nat) (o : Os) (w : W).

(** The system when the read or write of a step is made: a new future checks the
    descriptor first. *)
Definition at_call (fd : nat) (awaiting : option bytes) (o : Os) : Os :=
  if negb debug_assertions then o else match awaiting with Some _ => o | None => (fcntl_getfl fd o).2 end.

(** What a read of the interface means to [Tun]; nothing yet for [EAGAIN]. *)
Definition read_of (r : sys_result bytes) : option Tun.Read :=
  match r with
  | Done data => Some (ReadOk data)
  | Failed EAGAIN => None
  | Failed _ => Some ReadErr
  end.
(** What a write means; it is tried again after [EAGAIN] and [EINTR]. *)
Definition write_of (r : sys_result nat) : option (result nat) :=
  match r with
  | Done n => Some (Ok n)
  | Failed (EAGAIN | EINTR) => None
  | Failed e => Some (Err (errno_text e))
  end.

Lemma assert_at_call fd cx :
  nonblocking fd (os (env cx)) →
  ∃ cx', fd_assert_nonblocking debug_assertions fd cx = Ret cx' ∧ quiet cx cx' ∧ os (env cx') = at_call fd None (os (env cx)).
Proof.
  intros [Hf Hn]. unfold fd_assert_nonblocking, at_call. destruct (negb _); [by exists cx|].
  destruct (syscall _ cx) as [flags cx1] eqn:Hs. apply syscall_spec in Hs as (Hq & -> & E).
  rewrite (proj2 (Z.eqb_neq _ _) Hf), (proj2 (Z.eqb_neq _ _) Hn). by exists cx1.
Qed.

(** Awaiting a read: the one system call, and what becomes of its answer. *)
Lemma await_read fd awaiting cx :
  nonblocking fd (os (env cx)) → (∀ f, awaiting = Some f → length f = 2048%nat) →
  let '(answer, o') := sys_read fd 2048 (at_call fd awaiting (os (env cx))) in
  ∃ cx' buf, quiet cx cx' ∧ os (env cx') = o' ∧ length buf = 2048%nat
    ∧ await_fd (read_fd debug_assertions fd read_buffer) (read_fd_poll fd) awaiting cx =
      match answer with
      | Done data => Ret (Ready (Ok (length data)), data ++ drop (length data) buf, cx')
      | Failed EAGAIN => Ret (Pending, buf, push_poll fd Read cx')
      | Failed e => Ret (Ready (Err (errno_text e)), buf, cx')
      end.
Proof.
  intros Hn Hlen. unfold await_fd.
  assert (H : ∃ cx1 buf, (match awaiting with Some f => mret (f, cx) | None => read_fd debug_assertions fd read_buffer cx end) = Ret (buf, cx1)
    ∧ quiet cx cx1 ∧ os (env cx1) = at_call fd awaiting (os (env cx)) ∧ length buf = 2048%nat).
  { destruct awaiting as [f|].
    - exists cx, f. split_and!; [done|done| |by apply Hlen]. unfold at_call. by destruct (negb _).
    - destruct (assert_at_call fd cx Hn) as (cx1 & E & Hq & Ho). exists cx1, read_buffer. unfold read_fd. rewrite E.
      split_and!; [done|done|done|by unfold read_buffer; rewrite length_replicate]. }
  destruct H as (cx1 & buf & -> & Hq1 & <- & Hb). cbn [mbind outcome_bind]. unfold read_fd_poll. rewrite Hb.
  destruct (syscall _ cx1) as [a cx2] eqn:Hs. apply syscall_spec in Hs as (Hq2 & -> & Ho).
  destruct (sys_read fd 2048 (os (env cx1))) as [answer o']. cbn [fst snd] in Ho. exists cx2, buf.
  split_and!; [by etransitivity|done|done|]. by destruct answer as [|[]].
Qed.

Lemma await_write fd packet awaiting cx :
  nonblocking fd (os (env cx)) → (∀ f, awaiting = Some f → f = packet) →
  let '(answer, o') := sys_write fd packet (at_call fd awaiting (os (env cx))) in
  ∃ cx', quiet cx cx' ∧ os (env cx') = o'
    ∧ await_fd (write_fd debug_assertions fd packet) (write_fd_poll fd) awaiting cx =
      match answer with
      | Done n => Ret (Ready (Ok n), packet, cx')
      | Failed EAGAIN => Ret (Pending, packet, push_poll fd Write cx')
      | Failed EINTR => Ret (Pending, packet, wake_by_ref cx')
      | Failed e => Ret (Ready (Err (errno_text e)), packet, cx')
      end.
Proof.
  intros Hn Hf. unfold await_fd.
  assert (H : ∃ cx1, (match awaiting with Some f => mret (f, cx) | None => write_fd debug_assertions fd packet cx end) = Ret (packet, cx1)
    ∧ quiet cx cx1 ∧ os (env cx1) = at_call fd awaiting (os (env cx))).
  { destruct awaiting as [f|].
    - exists cx. rewrite (Hf f eq_refl). split_and!; [done|done|]. unfold at_call. by destruct (negb _).
    - destruct (assert_at_call fd cx Hn) as (cx1 & E & Hq & Ho). exists cx1. unfold write_fd. by rewrite E. }
  destruct H as (cx1 & -> & Hq1 & <-). cbn [mbind outcome_bind]. unfold write_fd_poll.
  destruct (syscall _ cx1) as [a cx2] eqn:Hs. apply syscall_spec in Hs as (Hq2 & -> & Ho).
  destruct (sys_write fd packet (os (env cx1))) as [answer o']. cbn [fst snd] in Ho. exists cx2.
  split_and!; [by etransitivity|done|]. by destruct answer as [|[]].
Qed.

(** What a step of a reader must be, given the task of [Tun] on the answer. *)
Definition reads_as (tun_to_network : list (Z * Tun.Read) → W → outcome (bool * W))
    (step : option bytes → W → Cx nat (Io Os) → outcome (Progress * option bytes * W * Cx nat (Io Os)))
    (millis : Z) (fd : nat) : Prop :=
  ∀ awaiting w cx,
    nonblocking fd (os (env cx)) → (∀ f, awaiting = Some f → length f = 2048%nat) →
    let '(answer, o') := sys_read fd 2048 (at_call fd awaiting (os (env cx))) in
    ∃ cx', quiet cx cx' ∧ os (env cx') = o'
      ∧ match read_of answer with
        | None => ∃ buf, step awaiting w cx = Ret (Suspended, Some buf, w, push_poll fd Read cx') ∧ length buf = 2048%nat
        | Some read =>
            step awaiting w cx = match tun_to_network [(millis, read)] w with
                                 | Ret (ended, w') => Ret (if (ended : bool) then Ended else Continues, None, w', cx')
                                 | Panic why => Panic why
                                 end
        end.
(** And of a writer. *)
Definition writes_as (network_to_tun : (nat → result nat) → list bytes → outcome (list bytes))
    (step : option bytes → Cx nat (Io Os) → outcome (Progress * option bytes * Cx nat (Io Os)))
    (frame : bytes) (packet : bytes) (fd : nat) : Prop :=
  ∀ awaiting cx,
    nonblocking fd (os (env cx)) → (∀ f, awaiting = Some f → f = frame) →
    let '(answer, o') := sys_write fd frame (at_call fd awaiting (os (env cx))) in
    ∃ cx', quiet cx cx' ∧ os (env cx') = o'
      ∧ match write_of answer with
        | None => step awaiting cx =
            Ret (Suspended, Some frame, match answer with Failed EINTR => wake_by_ref cx' | _ => push_poll fd Write cx' end)
        | Some r => step awaiting cx = match network_to_tun (λ _, r) [packet] with
                                       | Ret _ => Ret (Continues, None, cx')
                                       | Panic why => Panic why
                                       end
        end.

(** A read that fills at most the buffer is seen as it was. *)
Lemma slice_read (data buf : bytes) i :
  (i <= length data)%nat → (length data <= length buf)%nat →
  slice (data ++ drop (length data) buf) i (length data) = Ret (drop i data).
Proof.
  intros Hi Hl. rewrite slice_ok; [|done|rewrite length_app, length_drop; lia].
  f_equal. rewrite drop_app_le by done. rewrite take_app_le by (rewrite length_drop; lia).
  rewrite take_ge; [done|]. rewrite length_drop. lia.
Qed.

Lemma linux_reader millis fd :
  reads_as (Tun.Linux.tun_to_network all_senders) (Linux.reader_step debug_assertions all_senders millis fd) millis fd.
Proof.
  intros awaiting w cx Hn Hf. pose proof (await_read fd awaiting cx Hn Hf) as H.
  pose proof (read_bound fd 2048 (at_call fd awaiting (os (env cx)))) as Hbound.
  destruct (sys_read _ _ _) as [answer o']. destruct H as (cx' & buf & Hq & Ho & Hlen & E). exists cx'. split; [exact Hq|]. split; [exact Ho|].
  unfold Linux.reader_step. rewrite E. destruct answer as [data|[]]; cbn [read_of]; [|by exists buf|reflexivity..].
  specialize (Hbound data eq_refl). destruct data as [|b data]; [reflexivity|]. cbn [mbind outcome_bind].
  change (length (b :: data)) with (Datatypes.S (length data)) at 1. cbv iota.
  rewrite (slice_read (b :: data) buf 0) by (cbn in *; lia). cbn [mbind outcome_bind Tun.Linux.tun_to_network drop].
  by destruct (forward all_senders millis (b :: data) w).
Qed.

Lemma mac_reader millis fd :
  reads_as (Tun.Mac.tun_to_network all_senders) (Mac.reader_step debug_assertions all_senders millis fd) millis fd.
Proof.
  intros awaiting w cx Hn Hf. pose proof (await_read fd awaiting cx Hn Hf) as H.
  pose proof (read_bound fd 2048 (at_call fd awaiting (os (env cx)))) as Hbound.
  destruct (sys_read _ _ _) as [answer o']. destruct H as (cx' & buf & Hq & Ho & Hlen & E). exists cx'. split; [exact Hq|]. split; [exact Ho|].
  unfold Mac.reader_step. rewrite E. destruct answer as [data|[]]; cbn [read_of]; [|by exists buf|reflexivity..].
  specialize (Hbound data eq_refl). destruct data as [|b data]; [reflexivity|]. cbn [mbind outcome_bind].
  change (length (b :: data)) with (Datatypes.S (length data)) at 1. cbv iota. cbn [Tun.Mac.tun_to_network].
  change (Datatypes.S (length data)) with (length (b :: data)). destruct (decide (length (b :: data) < 4)%nat); [reflexivity|].
  rewrite (slice_read (b :: data) buf 4) by lia. cbn [mbind outcome_bind].
  destruct (decide (drop 4 (b :: data) = [])); [reflexivity|].
  by destruct (forward all_senders millis (drop 4 (b :: data)) w).
Qed.

Lemma linux_writer fd packet :
  writes_as (λ write, Tun.Linux.network_to_tun write 0) (Linux.writer_step debug_assertions fd packet) packet packet fd.
Proof.
  intros awaiting cx Hn Hf. pose proof (await_write fd packet awaiting cx Hn Hf) as H.
  destruct (sys_write _ _ _) as [answer o']. destruct H as (cx' & Hq & Ho & E). exists cx'. split; [exact Hq|]. split; [exact Ho|].
  unfold Linux.writer_step. rewrite E. by destruct answer as [n|[]].
Qed.

(** On macOS the frame is written, and an error only logged. *)
Lemma mac_writer fd packet frame :
  Tun.Mac.write_buf packet = Ret (Some frame) →
  writes_as (λ _, Tun.Mac.network_to_tun) (Mac.writer_step debug_assertions fd packet) frame packet fd.
Proof.
  intros Hw awaiting cx Hn Hf. pose proof (await_write fd frame awaiting cx Hn Hf) as H.
  destruct (sys_write _ _ _) as [answer o']. destruct H as (cx' & Hq & Ho & E). exists cx'. split; [exact Hq|]. split; [exact Ho|].
  unfold Mac.writer_step. cbn [Tun.Mac.network_to_tun]. rewrite Hw. cbn [mbind outcome_bind mret outcome_ret].
  destruct awaiting as [f|].
  - pose proof (Hf f eq_refl) as ->. cbn [await_fd mbind outcome_bind mret outcome_ret] in E. rewrite E. by destruct answer as [n|[]].
  - rewrite E. by destruct answer as [n|[]].
Qed.

(** C28. The TUN tasks, poll by poll, are the tasks of [Tun] on the sequences of
    what the reads gave and the writes answered. On a descriptor that does not
    block, a step that starts or resumes at an [await] makes one system call. If
    the call would have to wait, the task is suspended with its waker registered
    for the descriptor (or woken, when a write is interrupted), its packet and
    the channels as they were; if not, it does exactly what [Tun] says of this
    read or this write: forwards the packet, skips it, ends, or panics. *)
Theorem tun_tasks_refine millis fd packet :
  reads_as (Tun.Linux.tun_to_network all_senders) (Linux.reader_step debug_assertions all_senders millis fd) millis fd
  ∧ reads_as (Tun.Mac.tun_to_network all_senders) (Mac.reader_step debug_assertions all_senders millis fd) millis fd
  ∧ writes_as (λ write, Tun.Linux.network_to_tun write 0) (Linux.writer_step debug_assertions fd packet) packet packet fd
  ∧ (∀ frame, Tun.Mac.write_buf packet = Ret (Some frame) →
       writes_as (λ _, Tun.Mac.network_to_tun) (Mac.writer_step debug_assertions fd packet) frame packet fd).
Proof. split_and!; [apply linux_reader|apply mac_reader|apply linux_writer|apply mac_writer]. Qed.

(** ** Opening *)

(** The descriptors of the tasks do not block. *)
Lemma linux_run_fds fd o read_fd write_fd o' :
  Linux.run_fds fd o = Ret (read_fd, write_fd, o') → nonblocking read_fd o' ∧ nonblocking write_fd o'.
Proof.
  unfold Linux.run_fds. destruct (dup fd o) as [[r|] o1]; [|done]. cbn [unwrap_result mbind outcome_bind mret outcome_ret].
  destruct (dup fd o1) as [[w|] o2]; [|done]. cbn [unwrap_result mbind outcome_bind mret outcome_ret].
  change (@Linux.fd_make_nonblocking Os _) with (@fd_make_nonblocking Os _).
  destruct (fd_make_nonblocking r o2) as [[[]|] o3] eqn:Hr; [|done]. cbn [unwrap_result mbind outcome_bind mret outcome_ret].
  pose proof (make_nonblocking_keeps w o3) as Hk.
  destruct (fd_make_nonblocking w o3) as [[[]|] o4] eqn:Hw; [|done]. cbn [unwrap_result mbind outcome_bind mret outcome_ret].
  intros [= <- <- <-]. split; [|by eapply make_nonblocking_ok]. apply Hk. by eapply make_nonblocking_ok.
Qed.
End refinement.

(** ** Witnesses *)

Import Machine.

(** An IP packet has arrived on descriptor 5. *)
Definition packet_machine : Machine := MkMachine {[5%nat := 2050]} {[5%nat := example_ip]} 4 [].

Lemma tun_tasks_refine_witness :
  let cx := MkCx 0%nat (λ _, 0) 0 [] [] (MkIo [] packet_machine) in
  ∃ cx' w', Linux.reader_step true example_switch 1001 5 None example_world cx = Ret (Continues, None, w', cx')
    ∧ Tun.Linux.tun_to_network example_switch [(1001, ReadOk example_ip)] example_world = Ret (false, w')
    ∧ queued w' (Switch 0) ≠ queued example_world (Switch 0).
Proof.
  intros cx. destruct (tun_tasks_refine true example_switch (W := world) (C := byte_tx) (S := switch_tx) (Os := Machine) 1001 5 []) as [H _].
  specialize (H None example_world cx ltac:(split; [vm_compute; discriminate|vm_compute; discriminate]) ltac:(discriminate)).
  assert (E : (sys_read 5 2048 (at_call true 5 None (os (env cx)))).1 = Done example_ip) by (vm_compute; reflexivity).
  destruct (sys_read 5 2048 (at_call true 5 None (os (env cx)))) as [answer o']. cbn [fst] in E. rewrite E in H.
  destruct H as (cx' & _ & _ & H). cbn [read_of] in H.
  assert (Ht : ∃ w', Tun.Linux.tun_to_network example_switch [(1001, ReadOk example_ip)] example_world = Ret (false, w')
    ∧ queued w' (Switch 0) ≠ queued example_world (Switch 0)) by (eexists; split; [vm_compute; reflexivity|vm_compute; discriminate]).
  destruct Ht as (w' & Ht & Hq). rewrite Ht in H. exists cx', w'. split; [exact H|]. split; [exact Ht|exact Hq].
Defined.
