(* ===== verification/AsyncIo.v ===== *)
(** Reading, writing and receiving inside a task: what the links use of the
    [futures] crate.

    [AsyncReadExt::read_exact], [AsyncWriteExt::write_all] and [flush],
    [BufReader], [BufWriter] and [StreamExt::next] are third-party code. They are
    operations of the classes below, and the laws are their documented
    behaviour. A reader or a writer stands for the half of a socket and for the
    future that is using it: between two polls of a [read_exact] it holds what the
    future has gathered. The laws speak of the stream of the socket: the bytes
    that have [arrived] since it was opened, of which the first [position] have
    been handed out; the bytes [transmitted], and those of the completed writes
    ([accepted]). The bounds of time around the reads and writes
    ([asyncread_readexact_timeout] and [asyncwrite_writeall_timeout] of
    [rust/src/legacy_tcp.rs]) are the code of the repository. *)
From S2P Require Import Prelude Futures Channel.

(** What no future of this file does: change its waker or the clock, read the
    clock, or set timers. *)
Definition task_kept {Waker E} (cx cx' : Cx Waker E) : Prop :=
  waker cx' = waker cx ∧ clock cx' = clock cx ∧ reads cx' = reads cx ∧ sleep_register cx' = sleep_register cx
  ∧ woken cx `prefix_of` woken cx'.

(** The task has been woken between [cx] and [cx']: it is polled again. *)
Definition woke {Waker E} (cx cx' : Cx Waker E) : Prop := ∃ l, woken cx' = woken cx ++ l ∧ waker cx ∈ l.

Lemma woke_mono {Waker E} (a b c : Cx Waker E) :
  waker b = waker a → woken a `prefix_of` woken b → woke b c → woke a c.
Proof.
  intros Hw [l Hl] (m & Hm & Hin). exists (l ++ m). rewrite Hm, Hl, app_assoc, <- Hw. split; [done|].
  apply elem_of_app. by right.
Qed.

(** ** Reading *)

Class AsyncRead (Waker E R S : Type) := {
  read_exact_poll : nat → Fut (Waker := Waker) (E := E) R (result bytes);
  BufReader_new : R → R;
  source : R → S;
  position : R → nat;
  arrived : S → E → bytes;
  (** The task of the waker is polled again when something arrives. *)
  input_waits : S → Waker → E → Prop;
}.

(** More may have arrived, and nothing that had is changed. *)
Definition stream_grows {Waker E R S} `{!AsyncRead Waker E R S} (s : S) (e e' : E) : Prop :=
  ∃ more, arrived s e' = arrived s e ++ more ∧ is_bytes more.

(** A read returns exactly the next bytes of the stream; it waits only while they
    have not all arrived (or it was interrupted and has woken its task). *)
Class AsyncReadLaws (Waker E R S : Type) `{!AsyncRead Waker E R S} : Prop := {
  read_exact_returns n r (cx : Cx Waker E) :
    (position r <= length (arrived (source r) (env cx)))%nat →
    ∃ res r' cx', read_exact_poll n r cx = Ret (res, r', cx')
      ∧ task_kept cx cx' ∧ source r' = source r ∧ stream_grows (source r) (env cx) (env cx')
      ∧ match res with
        | Ready (Ok data) =>
            position r' = (position r + n)%nat ∧ (position r + n <= length (arrived (source r) (env cx')))%nat
            ∧ data = take n (drop (position r) (arrived (source r) (env cx')))
        | Ready (Err _) => True
        | Pending =>
            position r' = position r
            ∧ (woke cx cx'
               ∨ (length (arrived (source r) (env cx')) < position r + n)%nat ∧ input_waits (source r) (waker cx) (env cx'))
        end;
  buf_reader r : source (BufReader_new r) = source r ∧ position (BufReader_new r) = position r;
}.

(** Reading and sending on a channel do not interfere. *)
Class ReadFrame (Waker E R S I A : Type) `{!AsyncRead Waker E R S} `{!Mpsc E I A} : Prop := {
  read_queued n r (cx : Cx Waker E) res r' cx' (c : I) :
    read_exact_poll n r cx = Ret (res, r', cx') →
    queued (env cx') c = queued (env cx) c ∧ is_open (env cx') c = is_open (env cx) c;
  send_arrived (s : S) (c : I) (a : A) (e : E) : arrived s (unbounded_send c a e).2 = arrived s e;
}.

(** ** Writing *)

Class AsyncWrite (Waker E Wr S : Type) := {
  write_all_poll : bytes → Fut (Waker := Waker) (E := E) Wr (result unit);
  flush_poll : Fut (Waker := Waker) (E := E) Wr (result unit);
  BufWriter_new : Wr → Wr;
  sink : Wr → S;
  accepted : Wr → bytes;
  transmitted : S → E → bytes;
  (** The writer is in the middle of writing these bytes ([[]] between calls). *)
  writing : bytes → Wr → E → Prop;
  output_waits : S → Waker → E → Prop;
}.

(** Only what was written is transmitted, in order; a completed flush leaves nothing
    behind. *)
Class AsyncWriteLaws (Waker E Wr S : Type) `{!AsyncWrite Waker E Wr S} : Prop := {
  writing_prefix data (wr : Wr) (e : E) : writing data wr e → transmitted (sink wr) e `prefix_of` accepted wr ++ data;
  writing_starts data (wr : Wr) (e : E) : writing [] wr e → writing data wr e;
  writing_kept data (wr : Wr) (e e' : E) :
    transmitted (sink wr) e' = transmitted (sink wr) e → writing data wr e → writing data wr e';
  write_all_returns data wr (cx : Cx Waker E) :
    writing data wr (env cx) →
    ∃ res wr' cx', write_all_poll data wr cx = Ret (res, wr', cx')
      ∧ task_kept cx cx' ∧ sink wr' = sink wr
      ∧ transmitted (sink wr) (env cx) `prefix_of` transmitted (sink wr) (env cx')
      ∧ transmitted (sink wr) (env cx') `prefix_of` accepted wr ++ data
      ∧ match res with
        | Ready (Ok _) => accepted wr' = accepted wr ++ data ∧ writing [] wr' (env cx')
        | Ready (Err _) => True
        | Pending => accepted wr' = accepted wr ∧ writing data wr' (env cx')
            ∧ (woke cx cx' ∨ output_waits (sink wr) (waker cx) (env cx'))
        end;
  flush_returns wr (cx : Cx Waker E) :
    writing [] wr (env cx) →
    ∃ res wr' cx', flush_poll wr cx = Ret (res, wr', cx')
      ∧ task_kept cx cx' ∧ sink wr' = sink wr
      ∧ transmitted (sink wr) (env cx) `prefix_of` transmitted (sink wr) (env cx')
      ∧ transmitted (sink wr) (env cx') `prefix_of` accepted wr
      ∧ match res with
        | Ready (Ok _) => accepted wr' = accepted wr ∧ writing [] wr' (env cx') ∧ transmitted (sink wr) (env cx') = accepted wr
        | Ready (Err _) => True
        | Pending => accepted wr' = accepted wr ∧ writing [] wr' (env cx')
            ∧ (woke cx cx' ∨ output_waits (sink wr) (waker cx) (env cx'))
        end;
  buf_writer wr (e : E) :
    writing [] wr e →
    sink (BufWriter_new wr) = sink wr ∧ accepted (BufWriter_new wr) = accepted wr ∧ writing [] (BufWriter_new wr) e;
}.

(** Writing and the channels do not interfere. *)
Class WriteFrame (Waker E Wr S C A : Type) `{!AsyncWrite Waker E Wr S} `{!Mpsc E C A} : Prop := {
  write_queued data wr (cx : Cx Waker E) res wr' cx' (c : C) :
    write_all_poll data wr cx = Ret (res, wr', cx') →
    queued (env cx') c = queued (env cx) c ∧ is_open (env cx') c = is_open (env cx) c;
  flush_queued wr (cx : Cx Waker E) res wr' cx' (c : C) :
    flush_poll wr cx = Ret (res, wr', cx') →
    queued (env cx') c = queued (env cx) c ∧ is_open (env cx') c = is_open (env cx) c;
  send_transmitted (s : S) (c : C) (a : A) (e : E) : transmitted s (unbounded_send c a e).2 = transmitted s e;
}.

(** ** Receiving

    [receiver.next()]: the oldest value, or the end once all senders are gone and
    nothing is left. *)
Class Receive (Waker E C A : Type) `{!Mpsc E C A} := {
  next_poll : C → Cx Waker E → Poll (option A) * Cx Waker E;
  value_waits : C → Waker → E → Prop;
}.

Class ReceiveLaws (Waker E C A : Type) `{!Mpsc E C A, !Receive Waker E C A} : Prop := {
  next_value_laws c (cx cx' : Cx Waker E) r :
    next_poll c cx = (r, cx') →
    task_kept cx cx'
    ∧ (∀ c', c' ≠ c → queued (env cx') c' = queued (env cx) c') ∧ (∀ c', is_open (env cx') c' = is_open (env cx) c')
    ∧ match r with
      | Ready (Some a) => queued (env cx) c = a :: queued (env cx') c
      | Ready None => queued (env cx) c = [] ∧ queued (env cx') c = []
      | Pending => queued (env cx) c = [] ∧ queued (env cx') c = [] ∧ value_waits c (waker cx) (env cx')
      end;
}.

Class ReceiveFrame (Waker E Wr S C A : Type) `{!AsyncWrite Waker E Wr S} `{!Mpsc E C A, !Receive Waker E C A} : Prop := {
  next_transmitted (s : S) c (cx cx' : Cx Waker E) r :
    next_poll c cx = (r, cx') → transmitted s (env cx') = transmitted s (env cx);
}.

(** Receiving from a channel of one kind leaves the channels of another alone. *)
Class NextFrame (Waker E C A C' A' : Type) `{!Mpsc E C A, !Receive Waker E C A, !Mpsc E C' A'} : Prop := {
  next_frame c (cx cx' : Cx Waker E) r (c' : C') :
    next_poll c cx = (r, cx') → queued (env cx') c' = queued (env cx) c' ∧ is_open (env cx') c' = is_open (env cx) c';
}.

(** ** Within a bound of time *)

Section timeouts.
Context {Waker E : Type} `{!EqDecision Waker}.

(** [leo_async::timeout_future(task, ..).await??]: the task's result, or that the
    time is over. *)
Definition within {X T} (poll : Fut (Waker := Waker) (E := E) X (result T)) :
    Fut (TimeoutFuture (Waker := Waker) X) (result T) := λ this cx,
  '(r, this, cx) ← timeout_poll poll this cx;
  mret (match r with
        | Pending => Pending
        | Ready (Err why) => Ready (Err why)
        | Ready (Ok res) => Ready res
        end, this, cx).

Definition asyncread_readexact_timeout {R S} `{!AsyncRead Waker E R S} (len : nat) :
    Fut (TimeoutFuture (Waker := Waker) R) (result bytes) := within (read_exact_poll len).
Definition asyncwrite_writeall_timeout {Wr S} `{!AsyncWrite Waker E Wr S} (data : bytes) :
    Fut (TimeoutFuture (Waker := Waker) Wr) (result unit) := within (write_all_poll data).

(** A poll in time is one of the inner future, and the task is registered for the
    deadline while that is pending. *)
Definition deadline_armed {X} (this : TimeoutFuture X) (cx : Cx Waker E) : Prop :=
  armed (timeout_at this) (timeout_waker this) cx.

Lemma within_late {X T} (poll : Fut X (result T)) (this : TimeoutFuture X) cx :
  timeout_at this <= clock cx (reads cx) →
  within poll this cx = Ret (Ready (Err "Timeout"), this, (instant_now cx).2).
Proof. intros Hle. unfold within. by rewrite timeout_poll_late. Qed.

Lemma within_inner {X T} (poll : Fut X (result T)) (this : TimeoutFuture X) cx r f cx1 :
  clock cx (reads cx) < timeout_at this → poll (future this) (instant_now cx).2 = Ret (r, f, cx1) →
  task_kept (instant_now cx).2 cx1 →
  ∃ this' cx', within poll this cx = Ret (r, this', cx')
    ∧ future this' = f ∧ timeout_at this' = timeout_at this
    ∧ waker cx' = waker cx ∧ clock cx' = clock cx ∧ reads cx' = Datatypes.S (reads cx)
    ∧ woken cx' = woken cx1 ∧ env cx' = env cx1 ∧ sleep_register cx `prefix_of` sleep_register cx'
    ∧ (deadline_armed this cx →
       deadline_armed this' cx' ∧ (r = Pending → (timeout_at this, waker cx) ∈ sleep_register cx')).
Proof.
  intros Hlt Hp (Hw & Hc & Hr & Hs & _). cbn in Hw, Hc, Hr, Hs.
  destruct (timeout_poll_inner poll this cx r f cx1 Hlt Hp) as (tw & regs & Ht & H).
  unfold within. rewrite Ht. cbn [mbind outcome_bind mret outcome_ret].
  exists (MkTimeoutFuture f (timeout_at this) tw), (MkCx (waker cx1) (clock cx1) (reads cx1) (sleep_register cx1 ++ regs) (woken cx1) (env cx1)).
  split; [by destruct r|]. cbn. rewrite Hw, Hc, Hr, Hs. split_and!; try done; [by apply prefix_app_r|].
  intros Ha. rewrite Hw, Hs in H. by apply H.
Qed.
End timeouts.
