(* ===== verification/LinkEnv.v ===== *)
(** The environment of the tasks of a link: the operating system with
    [POLL_REGISTER], the channels of the node, and the random number generator.

    What acts on one of the three leaves the other two alone; this file lifts the
    futures and the classes of one component to the whole, once for all. Its last
    part is a concrete environment, for witnesses. *)
From stdpp Require Import gmap.
From S2P Require Import Prelude Futures Channel Rng IpAddr AllSenders World Runtime Descriptors AsyncIo.

(** ** A part of an environment *)

Section focus.
Context {Waker A E : Type} (get : E → A) (set : A → E → E).

(** A future that acts on a part only. *)
Definition focus {X T} (poll : Fut (Waker := Waker) (E := A) X T) : Fut (Waker := Waker) (E := E) X T := λ this cx,
  '(r, this, cx') ← poll this (MkCx (waker cx) (clock cx) (reads cx) (sleep_register cx) (woken cx) (get (env cx)));
  mret (r, this, MkCx (waker cx') (clock cx') (reads cx') (sleep_register cx') (woken cx') (set (env cx') (env cx))).

(** A function of the part, called from a task. *)
Definition on_part {T} (f : A → T * A) (cx : Cx Waker E) : T * Cx Waker E :=
  let '(v, a) := f (get (env cx)) in
  (v, MkCx (waker cx) (clock cx) (reads cx) (sleep_register cx) (woken cx) (set a (env cx))).

Lemma focus_inv {X T} (poll : Fut X T) this cx r this' cx' :
  focus poll this cx = Ret (r, this', cx') →
  ∃ cx1, poll this (MkCx (waker cx) (clock cx) (reads cx) (sleep_register cx) (woken cx) (get (env cx))) = Ret (r, this', cx1)
    ∧ cx' = MkCx (waker cx1) (clock cx1) (reads cx1) (sleep_register cx1) (woken cx1) (set (env cx1) (env cx)).
Proof.
  unfold focus. destruct (poll _ _) as [[[r0 this0] cx0]|]; cbn [mbind outcome_bind mret outcome_ret]; [|done].
  intros [= -> -> <-]. by exists cx0.
Qed.

(** *** Channels in a part *)

Context {C V : Type} `{chan : !Mpsc A C V}.

Definition part_mpsc : Mpsc E C V := {|
  unbounded_send c a e := let '(ok, x) := unbounded_send c a (get e) in (ok, set x e);
  queued e c := queued (get e) c;
  is_open e c := is_open (get e) c;
|}.

Context (get_set : ∀ a e, get (set a e) = a) (set_get : ∀ e, set (get e) e = e).

Lemma part_mpsc_laws : MpscLaws A C V → MpscLaws E C V (mpsc := part_mpsc).
Proof.
  intros laws. split; intros e c a; cbn; intros Ho.
  - pose proof (send_open (get e) c a Ho) as H. destruct (unbounded_send c a (get e)) as [ok x]. cbn in *. by rewrite get_set.
  - rewrite (send_closed (get e) c a Ho). by rewrite set_get.
Qed.

Definition part_new `{!MpscNew A C V} : MpscNew E C V (mpsc := part_mpsc) := {|
  unbounded e := let '(c, x) := unbounded (get e) in (c, set x e);
|}.

Lemma part_new_laws `{!MpscNew A C V} : MpscNewLaws A C V → MpscNewLaws E C V (mpsc := part_mpsc) (mpsc_new := part_new).
Proof.
  intros laws. split; intros e; cbn.
  - pose proof (new_open (get e)) as H. destruct (unbounded (get e)). cbn in *. by rewrite get_set.
  - pose proof (new_queued (get e)) as H. destruct (unbounded (get e)). cbn in *. by rewrite get_set.
  - intros c Hc. pose proof (new_others (get e) c) as H. destruct (unbounded (get e)). cbn in *. rewrite get_set. by apply H.
Qed.

Definition part_receive `{!Receive Waker A C V} : Receive Waker E C V (Mpsc0 := part_mpsc) := {|
  next_poll c cx :=
    let '(r, cx') := next_poll c (MkCx (waker cx) (clock cx) (reads cx) (sleep_register cx) (woken cx) (get (env cx))) in
    (r, MkCx (waker cx') (clock cx') (reads cx') (sleep_register cx') (woken cx') (set (env cx') (env cx)));
  value_waits c w e := value_waits c w (get e);
|}.

Lemma part_receive_laws `{!Receive Waker A C V} :
  ReceiveLaws Waker A C V → ReceiveLaws Waker E C V (Mpsc0 := part_mpsc) (Receive0 := part_receive).
Proof.
  intros laws. split. intros c cx cx' r. cbn.
  destruct (next_poll c _) as [r0 cx1] eqn:Hn. intros [= <- <-]. apply next_value_laws in Hn. cbn in *. by rewrite get_set.
Qed.
End focus.

(** Channels of two kinds in one part. *)
Section frames.
Context {A E C C' V V' : Type} (get : E → A) (set : A → E → E) (get_set : ∀ a e, get (set a e) = a).
Context `{chan : !Mpsc A C V, chan' : !Mpsc A C' V'}.

Lemma part_frame : MpscFrame A C V C' V' → MpscFrame E C V C' V' (mpsc := part_mpsc get set) (mpsc' := part_mpsc get set).
Proof.
  intros frame. split; intros e c a c'; cbn.
  - pose proof (frame_queued (get e) c a c') as H. destruct (unbounded_send c a (get e)). cbn in *. by rewrite get_set.
  - pose proof (frame_open (get e) c a c') as H. destruct (unbounded_send c a (get e)). cbn in *. by rewrite get_set.
Qed.

Lemma part_new_frame `{!MpscNew A C V} :
  MpscNewFrame A C V C' V' →
  MpscNewFrame E C V C' V' (mpsc := part_mpsc get set) (mpsc_new := part_new get set) (mpsc' := part_mpsc get set).
Proof.
  intros frame. split; intros e c'; cbn.
  - pose proof (new_frame_queued (get e) c') as H. destruct (unbounded (get e)). cbn in *. by rewrite get_set.
  - pose proof (new_frame_open (get e) c') as H. destruct (unbounded (get e)). cbn in *. by rewrite get_set.
Qed.
End frames.

(** ** The environment *)

Record LinkEnv (Os W : Type) := MkLinkEnv { io : Io Os; channels : W; RNG : Rng }.
Arguments MkLinkEnv {_ _} _ _ _.
Arguments io {_ _} _. Arguments channels {_ _} _. Arguments RNG {_ _} _.

Section env.
Context {Os W : Type}.
Abbreviation E := (LinkEnv Os W).

Definition set_io (i : Io Os) (e : E) : E := MkLinkEnv i (channels e) (RNG e).
Definition set_channels (w : W) (e : E) : E := MkLinkEnv (io e) w (RNG e).
Definition set_RNG (r : Rng) (e : E) : E := MkLinkEnv (io e) (channels e) r.

#[export] Instance env_mpsc {C V} `{!Mpsc W C V} : Mpsc E C V := part_mpsc channels set_channels.
#[export] Instance env_mpsc_laws {C V} `{!Mpsc W C V, laws : !MpscLaws W C V} : MpscLaws E C V.
Proof. by apply part_mpsc_laws; [|intros []|]. Qed.
#[export] Instance env_new {C V} `{!Mpsc W C V, !MpscNew W C V} : MpscNew E C V := part_new channels set_channels.
#[export] Instance env_new_laws {C V} `{!Mpsc W C V, !MpscNew W C V, laws : !MpscNewLaws W C V} : MpscNewLaws E C V.
Proof. by apply part_new_laws. Qed.
#[export] Instance env_frame {C V C' V'} `{!Mpsc W C V, !Mpsc W C' V', frame : !MpscFrame W C V C' V'} : MpscFrame E C V C' V'.
Proof. by apply part_frame. Qed.
#[export] Instance env_new_frame {C V C' V'} `{!Mpsc W C V, !MpscNew W C V, !Mpsc W C' V', frame : !MpscNewFrame W C V C' V'} :
  MpscNewFrame E C V C' V'.
Proof. by apply part_new_frame. Qed.

#[export] Instance env_receive {C V} `{!Mpsc W C V, !Receive nat W C V} : Receive nat E C V := part_receive channels set_channels.
#[export] Instance env_receive_laws {C V} `{!Mpsc W C V, !Receive nat W C V, laws : !ReceiveLaws nat W C V} : ReceiveLaws nat E C V.
Proof. by apply part_receive_laws. Qed.

#[export] Instance env_next_frame {C V C' V'} `{!Mpsc W C V, !Receive nat W C V, !Mpsc W C' V', frame : !NextFrame nat W C V C' V'} :
  NextFrame nat E C V C' V'.
Proof.
  split. intros c cx cx' r c'. cbn. destruct (next_poll c _) as [r0 cx1] eqn:Hn. intros [= _ <-]. cbn.
  by apply (next_frame _ _ _ _ c') in Hn.
Qed.

(** *** Sockets *)

Context {R Wr S : Type}.

#[export] Instance env_read `{!AsyncRead nat (Io Os) R S} : AsyncRead nat E R S := {
  read_exact_poll n := focus io set_io (read_exact_poll n);
  BufReader_new := BufReader_new (Waker := nat) (E := Io Os);
  source := source (Waker := nat) (E := Io Os);
  position := position (Waker := nat) (E := Io Os);
  arrived s e := arrived s (io e);
  input_waits s w e := input_waits s w (io e);
}.

#[export] Instance env_read_laws `{!AsyncRead nat (Io Os) R S, laws : !AsyncReadLaws nat (Io Os) R S} : AsyncReadLaws nat E R S.
Proof.
  split; [|intros r; exact (buf_reader (Waker := nat) (E := Io Os) r)]. intros n r cx Hp. cbn in *. unfold focus.
  match goal with |- context [read_exact_poll n r ?c] =>
    destruct (read_exact_returns n r c Hp) as (res & r' & cx' & -> & Hk & Hs & Hg & Hres) end.
  cbn [mbind outcome_bind mret outcome_ret]. eexists _, _, _. split; [reflexivity|]. cbn in *. by split_and!.
Qed.

#[export] Instance env_write `{!AsyncWrite nat (Io Os) Wr S} : AsyncWrite nat E Wr S := {
  write_all_poll data := focus io set_io (write_all_poll data);
  flush_poll := focus io set_io flush_poll;
  BufWriter_new := BufWriter_new (Waker := nat) (E := Io Os);
  sink := sink (Waker := nat) (E := Io Os);
  accepted := accepted (Waker := nat) (E := Io Os);
  transmitted s e := transmitted s (io e);
  writing data wr e := writing data wr (io e);
  output_waits s w e := output_waits s w (io e);
}.

#[export] Instance env_write_laws `{!AsyncWrite nat (Io Os) Wr S, laws : !AsyncWriteLaws nat (Io Os) Wr S} : AsyncWriteLaws nat E Wr S.
Proof.
  split; cbn.
  - intros data wr e. exact (writing_prefix (Waker := nat) (E := Io Os) data wr (io e)).
  - intros data wr e. exact (writing_starts (Waker := nat) (E := Io Os) data wr (io e)).
  - intros data wr e e'. exact (writing_kept (Waker := nat) (E := Io Os) data wr (io e) (io e')).
  - intros data wr cx Hw. unfold focus.
    match goal with |- context [write_all_poll data wr ?c] =>
      destruct (write_all_returns data wr c Hw) as (res & wr' & cx' & -> & Hk & H) end.
    cbn [mbind outcome_bind mret outcome_ret]. eexists _, _, _. split; [reflexivity|]. cbn in *. by split.
  - intros wr cx Hw. unfold focus.
    match goal with |- context [flush_poll wr ?c] =>
      destruct (flush_returns wr c Hw) as (res & wr' & cx' & -> & Hk & H) end.
    cbn [mbind outcome_bind mret outcome_ret]. eexists _, _, _. split; [reflexivity|]. cbn in *. by split.
  - intros wr e. exact (buf_writer (Waker := nat) (E := Io Os) wr (io e)).
Qed.

#[export] Instance env_read_frame {C V} `{!AsyncRead nat (Io Os) R S, !Mpsc W C V} : ReadFrame nat E R S C V.
Proof.
  split; cbn.
  - intros n r cx res r' cx' c (cx1 & _ & ->)%focus_inv. done.
  - intros s c a e. by destruct (unbounded_send c a (channels e)).
Qed.
#[export] Instance env_write_frame {C V} `{!AsyncWrite nat (Io Os) Wr S, !Mpsc W C V} : WriteFrame nat E Wr S C V.
Proof.
  split; cbn.
  - intros data wr cx res r' cx' c (cx1 & _ & ->)%focus_inv. done.
  - intros wr cx res r' cx' c (cx1 & _ & ->)%focus_inv. done.
  - intros s c a e. by destruct (unbounded_send c a (channels e)).
Qed.
#[export] Instance env_receive_frame {C V} `{!AsyncWrite nat (Io Os) Wr S, !Mpsc W C V, !Receive nat W C V} :
  ReceiveFrame nat E Wr S C V.
Proof. split. intros s c cx cx' r. cbn. destruct (next_poll c _). by intros [= _ <-]. Qed.
End env.

(** ** Sockets as readers and writers

    [ArcFd] as [AsyncRead] and [AsyncWrite]: the reader and the writer of a
    descriptor. A new writer has nothing left to transmit; a new reader stands
    somewhere in the bytes that have arrived. Reading does not transmit, and while
    something is written more may arrive. *)
Class Sockets (Os R Wr : Type) := {
  read_half : nat → Io Os → R;
  write_half : nat → Io Os → Wr;
}.

Class SocketsLaws (Os R Wr S : Type) `{!AsyncRead nat (Io Os) R S, !AsyncWrite nat (Io Os) Wr S, !Sockets Os R Wr} : Prop := {
  arrived_bytes (s : S) (i : Io Os) : is_bytes (arrived s i);
  read_half_position fd (i : Io Os) : (position (read_half fd i) <= length (arrived (source (read_half fd i)) i))%nat;
  write_half_settled fd (i : Io Os) :
    writing [] (write_half fd i) i ∧ accepted (write_half fd i) = transmitted (sink (write_half fd i)) i;
  read_transmitted n r (cx : Cx nat (Io Os)) res r' cx' (s : S) :
    read_exact_poll n r cx = Ret (res, r', cx') → transmitted s (env cx') = transmitted s (env cx);
  write_arrived data wr (cx : Cx nat (Io Os)) res wr' cx' (s : S) :
    write_all_poll data wr cx = Ret (res, wr', cx') → stream_grows s (env cx) (env cx');
  flush_arrived wr (cx : Cx nat (Io Os)) res wr' cx' (s : S) :
    flush_poll wr cx = Ret (res, wr', cx') → stream_grows s (env cx) (env cx');
}.

(** ** A concrete environment

    A machine of [Descriptors] with, for each socket, the bytes that have arrived,
    whether the peer has closed it, those that were written, how many more can be,
    and the tasks that wait; and the channels of [World] with the tasks that wait
    for a packet. *)
Module Example.
Import Descriptors.Machine.

Record Stream := MkStream {
  history : bytes;
  ended : bool;
  out : bytes;
  free : nat;
  readers : list nat;
  writers : list nat;
}.
Definition no_stream : Stream := MkStream [] true [] 0 [] [].

Record Net := MkNet { machine : Machine; streams : gmap nat Stream }.
Definition stream_of (fd : nat) (i : Io Net) : Stream := default no_stream (streams (os i) !! fd).
Definition set_stream (fd : nat) (st : Stream) (i : Io Net) : Io Net :=
  MkIo (POLL_REGISTER i) (MkNet (machine (os i)) (<[fd := st]> (streams (os i)))).

Definition with_stream (fd : nat) (st : Stream) (cx : Cx nat (Io Net)) : Cx nat (Io Net) :=
  with_env (set_stream fd st (env cx)) cx.

Lemma stream_of_set fd st i : stream_of fd (set_stream fd st i) = st.
Proof. unfold stream_of, set_stream. cbn. by rewrite lookup_insert_eq. Qed.

(** What is read are octets. *)
Definition octets (l : list Z) : bytes := wrap 8 <$> l.
Lemma octets_bytes l : is_bytes (octets l).
Proof. unfold octets. apply Forall_fmap, Forall_true. intros x. apply uint_wrap. lia. Qed.
Lemma length_octets l : length (octets l) = length l.
Proof. apply length_fmap. Qed.

(** A reader is a socket and how far it has read. *)
#[export] Instance net_read : AsyncRead nat (Io Net) (nat * nat) nat := {
  read_exact_poll n := λ '(fd, pos) cx,
    let st := stream_of fd (env cx) in
    if decide (pos + n <= length (history st))%nat then
      mret (Ready (Ok (take n (drop pos (octets (history st))))), (fd, (pos + n)%nat), cx)
    else if ended st then mret (Ready (Err "unexpected end of file"), (fd, pos), cx)
    else mret (Pending, (fd, pos), with_stream fd (MkStream (history st) (ended st) (out st) (free st) (readers st ++ [waker cx]) (writers st)) cx);
  BufReader_new r := r;
  source := fst;
  position := snd;
  arrived fd i := octets (history (stream_of fd i));
  input_waits fd w i := w ∈ readers (stream_of fd i);
}.

#[export] Instance net_read_laws : AsyncReadLaws nat (Io Net) (nat * nat) nat.
Proof.
  split; [|done]. intros n [fd pos] cx Hp. cbn -[take drop octets] in *. rewrite length_octets in Hp.
  destruct (decide (pos + n <= length (history (stream_of fd (env cx))))%nat) as [Hle|Hle]; [|destruct (ended _)].
  - eexists _, _, _. split; [reflexivity|]. split; [by split_and!|]. split; [done|]. split; [exists []; by rewrite app_nil_r|].
    split_and!; [done|by rewrite length_octets|done].
  - eexists _, _, _. split; [reflexivity|]. split; [by split_and!|]. split; [done|]. split; [exists []; by rewrite app_nil_r|done].
  - eexists _, _, _. split; [reflexivity|]. split; [by split_and!|]. split; [done|].
    cbn -[octets]. rewrite stream_of_set. cbn -[octets]. rewrite length_octets. split; [exists []; cbn -[octets]; by rewrite stream_of_set, app_nil_r|].
    split; [done|]. right. split; [lia|]. apply elem_of_app. right. by apply list_elem_of_here.
Qed.

(** A writer is a socket and what was written to it. *)
#[export] Instance net_write : AsyncWrite nat (Io Net) (nat * bytes) nat := {
  write_all_poll data := λ '(fd, done) cx,
    let st := stream_of fd (env cx) in
    if decide (length data <= free st)%nat then
      mret (Ready (Ok tt), (fd, done ++ data),
        with_stream fd (MkStream (history st) (ended st) (out st ++ data) (free st - length data) (readers st) (writers st)) cx)
    else mret (Pending, (fd, done), with_stream fd (MkStream (history st) (ended st) (out st) (free st) (readers st) (writers st ++ [waker cx])) cx);
  flush_poll wr cx := mret (Ready (Ok tt), wr, cx);
  BufWriter_new wr := wr;
  sink := fst;
  accepted := snd;
  transmitted fd i := out (stream_of fd i);
  writing _ wr i := out (stream_of (fst wr) i) = snd wr;
  output_waits fd w i := w ∈ writers (stream_of fd i);
}.

#[export] Instance net_write_laws : AsyncWriteLaws nat (Io Net) (nat * bytes) nat.
Proof.
  split; cbn.
  - intros data [fd done] i ->. by apply prefix_app_r.
  - done.
  - intros _ [fd done] i i' ->. done.
  - intros data [fd done] cx Hw. cbn in *. destruct (decide (length data <= _)%nat) as [Hle|Hle].
    + eexists _, _, _. split; [reflexivity|]. cbn. rewrite stream_of_set. cbn. rewrite Hw. split_and!; try done. by apply prefix_app_r.
    + eexists _, _, _. split; [reflexivity|]. cbn. rewrite stream_of_set. cbn. rewrite Hw. split_and!; try done; [by apply prefix_app_r|].
      right. apply elem_of_app. right. by apply list_elem_of_here.
  - intros [fd done] cx Hw. eexists _, _, _. split; [reflexivity|]. cbn in *. rewrite Hw. by split_and!.
  - done.
Qed.

Record Chans := MkChans { world_of : world; waiting : list (byte_tx * nat) }.
Definition set_world (w : world) (c : Chans) : Chans := MkChans w (waiting c).

#[export] Instance chans_links : Mpsc Chans byte_tx bytes := part_mpsc world_of set_world.
#[export] Instance chans_incomings : Mpsc Chans incoming_tx (bytes * byte_tx) := part_mpsc world_of set_world.
#[export] Instance chans_switches : Mpsc Chans switch_tx (AllSendersMessage byte_tx) := part_mpsc world_of set_world.
#[export] Instance chans_links_laws : MpscLaws Chans byte_tx bytes.
Proof. apply part_mpsc_laws; [done|by intros []|apply _]. Qed.
#[export] Instance chans_incomings_laws : MpscLaws Chans incoming_tx (bytes * byte_tx).
Proof. apply part_mpsc_laws; [done|by intros []|apply _]. Qed.
#[export] Instance chans_switches_laws : MpscLaws Chans switch_tx (AllSendersMessage byte_tx).
Proof. apply part_mpsc_laws; [done|by intros []|apply _]. Qed.
#[export] Instance chans_new : MpscNew Chans byte_tx bytes := part_new world_of set_world.
#[export] Instance chans_new_laws : MpscNewLaws Chans byte_tx bytes.
Proof. apply part_new_laws; [done|apply _]. Qed.

#[export] Instance chans_receive : Receive nat Chans byte_tx bytes := {
  next_poll := λ '(Tx n) cx,
    match next_link n (world_of (env cx)) with
    | Some (a, w) => (Ready (Some a), MkCx (waker cx) (clock cx) (reads cx) (sleep_register cx) (woken cx) (set_world w (env cx)))
    | None => (Pending, MkCx (waker cx) (clock cx) (reads cx) (sleep_register cx) (woken cx)
                          (MkChans (world_of (env cx)) (waiting (env cx) ++ [(Tx n, waker cx)])))
    end;
  value_waits c w e := (c, w) ∈ waiting e;
}.

#[export] Instance chans_receive_laws : ReceiveLaws nat Chans byte_tx bytes.
Proof.
  split. intros [n] cx cx' r. cbn -[next_link]. destruct (next_link n (world_of (env cx))) as [[a w]|] eqn:Hn.
  - intros [= <- <-]. unfold next_link in Hn. destruct (next_value n (links (world_of (env cx)))) as [[a0 s]|] eqn:Hv; [|done].
    injection Hn as -> <-. apply next_value_spec in Hv as (H1 & H2 & H3). split; [by split_and!|].
    split; [intros [m] Hm; cbn; apply H2; congruence|]. split; [intros [m]; apply H3|exact H1].
  - intros [= <- <-]. assert (Hq : queued (env cx) (Tx n) = []).
    { destruct (queued (links (world_of (env cx))) n) as [|a q] eqn:Hq; [exact Hq|].
      destruct (next_value_some n _ a q Hq) as [s' Hs]. unfold next_link in Hn. by rewrite Hs in Hn. }
    split; [by split_and!|]. split; [done|]. split; [done|]. split; [exact Hq|]. split; [exact Hq|]. cbn. apply elem_of_app. right. by apply list_elem_of_here.
Qed.

Lemma next_link_frame n w a w' :
  next_link n w = Some (a, w') → incomings w' = incomings w ∧ switches w' = switches w.
Proof. unfold next_link. destruct (next_value n (links w)) as [[a0 s]|]; [|done]. by intros [= _ <-]. Qed.

#[export] Instance chans_next_incomings : NextFrame nat Chans byte_tx bytes incoming_tx (bytes * byte_tx).
Proof.
  split. intros [n] cx cx' r [m]. cbn -[next_link]. destruct (next_link n _) as [[a w]|] eqn:Hn; intros [= _ <-]; [|done].
  apply next_link_frame in Hn as [Hi _]. cbn. by rewrite Hi.
Qed.
#[export] Instance chans_next_switches : NextFrame nat Chans byte_tx bytes switch_tx (AllSendersMessage byte_tx).
Proof.
  split. intros [n] cx cx' r [m]. cbn -[next_link]. destruct (next_link n _) as [[a w]|] eqn:Hn; intros [= _ <-]; [|done].
  apply next_link_frame in Hn as [_ Hs]. cbn. by rewrite Hs.
Qed.

(** Channels of different kinds. *)
#[export] Instance chans_switches_incomings : MpscFrame Chans switch_tx (AllSendersMessage byte_tx) incoming_tx (bytes * byte_tx).
Proof. apply part_frame; [done|apply _]. Qed.
#[export] Instance chans_incomings_switches : MpscFrame Chans incoming_tx (bytes * byte_tx) switch_tx (AllSendersMessage byte_tx).
Proof. apply part_frame; [done|apply _]. Qed.
#[export] Instance chans_switches_links : MpscFrame Chans switch_tx (AllSendersMessage byte_tx) byte_tx bytes.
Proof. apply part_frame; [done|apply _]. Qed.
#[export] Instance chans_incomings_links : MpscFrame Chans incoming_tx (bytes * byte_tx) byte_tx bytes.
Proof. apply part_frame; [done|]. split; intros w [c] a [c']; cbn; by destruct (_ !! c) as [[[] q]|]. Qed.
#[export] Instance chans_new_incomings : MpscNewFrame Chans byte_tx bytes incoming_tx (bytes * byte_tx).
Proof. apply part_new_frame; [done|apply _]. Qed.
#[export] Instance chans_new_switches : MpscNewFrame Chans byte_tx bytes switch_tx (AllSendersMessage byte_tx).
Proof. apply part_new_frame; [done|apply _]. Qed.

#[export] Instance net_sockets : Sockets Net (nat * nat) (nat * bytes) := {
  read_half fd i := (fd, 0%nat);
  write_half fd i := (fd, out (stream_of fd i));
}.

#[export] Instance net_sockets_laws : SocketsLaws Net (nat * nat) (nat * bytes) nat.
Proof.
  split; cbn -[take drop].
  - intros. apply octets_bytes.
  - intros. apply Nat.le_0_l.
  - done.
  - intros n [fd pos] cx res r' cx' s. destruct (decide _); [|destruct (ended _)]; intros [= <- <- <-]; try done. cbn.
    destruct (decide (s = fd)) as [->|Hne]; [by rewrite stream_of_set|]. unfold stream_of, set_stream. cbn. by rewrite lookup_insert_ne.
  - intros data [fd written] cx res wr' cx' s. destruct (decide _); intros [= <- <- <-]; exists []; cbn; rewrite app_nil_r; (split; [|done]);
      (destruct (decide (s = fd)) as [->|Hne]; [by rewrite stream_of_set|]); unfold stream_of, set_stream; cbn; by rewrite lookup_insert_ne.
  - intros wr cx res wr' cx' s [= <- <- <-]. exists []. by rewrite app_nil_r.
Qed.

(** The calls of the machine. *)
Definition via {T} (call : Machine → T * Machine) (n : Net) : T * Net :=
  let '(v, m) := call (machine n) in (v, MkNet m (streams n)).
#[export] Instance net_posix : Posix Net := {
  O_NONBLOCK := O_NONBLOCK (Os := Machine);
  sys_read fd n := via (sys_read fd n);
  sys_write fd data := via (sys_write fd data);
  sys_poll fd dir := via (sys_poll fd dir);
  fcntl_getfl fd := via (fcntl_getfl fd);
  fcntl_setfl fd flags := via (fcntl_setfl fd flags);
  sys_dup fd := via (sys_dup fd);
  sys_socket := via sys_socket;
  sys_connect fd addr := via (sys_connect fd addr);
  last_errno n := last_errno (machine n);
  set_tcp_nodelay fd := via (set_tcp_nodelay fd);
  errno_text := errno_text (Os := Machine);
  errno_raw := errno_raw (Os := Machine);
}.

Lemma via_spec {T} (call : Machine → T * Machine) (n : Net) :
  (via call n).1 = (call (machine n)).1 ∧ machine (via call n).2 = (call (machine n)).2.
Proof. unfold via. by destruct (call (machine n)). Qed.

Lemma net_nonblocking fd (n : Net) : nonblocking fd n ↔ nonblocking fd (machine n).
Proof. unfold nonblocking. cbn. unfold via. cbn. done. Qed.

#[export] Instance net_laws : PosixLaws Net.
Proof.
  split; cbn -[via fcntl_getfl fcntl_setfl sys_dup sys_read sys_write sys_poll sys_connect set_tcp_nodelay]; intros *; rewrite ?net_nonblocking;
    change (fcntl_getfl (Os := Net)) with (λ fd, via (fcntl_getfl (Os := Machine) fd));
    change (fcntl_setfl (Os := Net)) with (λ fd flags, via (fcntl_setfl (Os := Machine) fd flags));
    change (sys_dup (Os := Net)) with (λ fd, via (sys_dup (Os := Machine) fd));
    change (sys_read (Os := Net)) with (λ fd n, via (sys_read (Os := Machine) fd n));
    change (sys_write (Os := Net)) with (λ fd data, via (sys_write (Os := Machine) fd data));
    change (sys_poll (Os := Net)) with (λ fd dir, via (sys_poll (Os := Machine) fd dir));
    change (sys_connect (Os := Net)) with (λ fd addr, via (sys_connect (Os := Machine) fd addr));
    change (set_tcp_nodelay (Os := Net)) with (λ fd, via (set_tcp_nodelay (Os := Machine) fd)); cbv beta;
    rewrite ?(proj1 (via_spec _ _)), ?(proj2 (via_spec _ _)).
  - done.
  - apply (@getfl_range Machine _ machine_laws).
  - apply (@setfl_sets Machine _ machine_laws).
  - apply (@setfl_keeps Machine _ machine_laws).
  - apply (@dup_keeps Machine _ machine_laws).
  - apply (@getfl_keeps Machine _ machine_laws).
  - apply (@read_keeps Machine _ machine_laws).
  - apply (@write_keeps Machine _ machine_laws).
  - apply (@poll_keeps Machine _ machine_laws).
  - apply (@connect_keeps Machine _ machine_laws).
  - apply (@read_bound Machine _ machine_laws).
  - apply (@write_bound Machine _ machine_laws).
  - apply (@connect_returns Machine _ machine_laws).
  - apply (@nodelay_returns Machine _ machine_laws).
Qed.

Definition Env : Type := LinkEnv Net Chans.
End Example.
