(* ===== verification/LinkRecv.v ===== *)
(** The receiving task of a link, poll by poll ([rust/src/legacy_tcp.rs]).

    [Framing.recv_task] says what the receiving loop makes of a stream of bytes.
    Here the loop is the state machine it is compiled to: the state is where it
    awaits, and a poll goes from one [await] to the next pending one. Between two
    polls anything may happen to the rest of the program; more bytes arrive.
    The theorem is that each poll delivers what [Framing] says the bytes of the
    stream so far contain, at most one packet, and for which reasons it can be
    pending or end. *)
From S2P Require Import Prelude Gimli Futures Channel AsyncIo Framing.

(** ** The states of the loop *)

Section task.
Context {Waker E R S I C : Type} `{!EqDecision Waker}.
Context `{!AsyncRead Waker E R S, !Mpsc E I (bytes * C)}.
Context (incoming : I) (sender_tx : C) (mac_key : bytes).

(** The bound on each piece of a frame: 30 seconds. *)
Definition read_timeout : Z := from_millis 30000.

Inductive RecvTask :=
| RvYield (ks : KeystreamGen) (reader : R) (yielded : bool)
| RvLen (ks : KeystreamGen) (read : TimeoutFuture (Waker := Waker) R)
| RvData (len : nat) (ks : KeystreamGen) (read : TimeoutFuture (Waker := Waker) R)
| RvMac (data : bytes) (ks : KeystreamGen) (read : TimeoutFuture (Waker := Waker) R)
| RvDone.

Abbreviation Polled := (outcome (Poll (result unit) * RecvTask * Cx Waker E)).

(** [incoming.unbounded_send(..)], from a task. *)
Definition send_on {J A} `{!Mpsc E J A} (c : J) (a : A) (cx : Cx Waker E) : bool * Cx Waker E :=
  let '(ok, e) := unbounded_send c a (env cx) in
  (ok, MkCx (waker cx) (clock cx) (reads cx) (sleep_register cx) (woken cx) e).

(** The loop starts over with [yield_now().await], which is pending the first time
    it is polled. *)
Definition recv_again (ks : KeystreamGen) (reader : R) (cx : Cx Waker E) : Polled :=
  '(_, yielded, cx) ← yield_poll false cx;
  mret (Pending, RvYield ks reader yielded, cx).

(** From the MAC on. *)
Definition poll_mac (data : bytes) (ks : KeystreamGen) (read : TimeoutFuture R) (cx : Cx Waker E) : Polled :=
  '(r, read, cx) ← asyncread_readexact_timeout 16 read cx;
  match r with
  | Pending => mret (Pending, RvMac data ks read, cx)
  | Ready (Err why) => mret (Ready (Err why), RvDone, cx)
  | Ready (Ok mac) =>
      let '(mac, ks) := xor_stream ks mac in
      let expected_mac := multigimli2 mac_key data in
      if decide (expected_mac ≠ mac) then mret (Ready (Err "MAC verification failed"), RvDone, cx) else
      let '(ok, cx) := send_on incoming (data, sender_tx) cx in
      if ok then recv_again ks (future read) cx else mret (Ready (Ok tt), RvDone, cx)
  end.

(** From the data on. *)
Definition poll_data (len : nat) (ks : KeystreamGen) (read : TimeoutFuture R) (cx : Cx Waker E) : Polled :=
  '(r, read, cx) ← asyncread_readexact_timeout len read cx;
  match r with
  | Pending => mret (Pending, RvData len ks read, cx)
  | Ready (Err why) => mret (Ready (Err why), RvDone, cx)
  | Ready (Ok data) =>
      let '(data, ks) := xor_stream ks data in
      let '(read, cx) := timeout_future (future read) read_timeout cx in
      poll_mac data ks read cx
  end.

(** From the length on. *)
Definition poll_len (ks : KeystreamGen) (read : TimeoutFuture R) (cx : Cx Waker E) : Polled :=
  '(r, read, cx) ← asyncread_readexact_timeout 2 read cx;
  match r with
  | Pending => mret (Pending, RvLen ks read, cx)
  | Ready (Err why) => mret (Ready (Err why), RvDone, cx)
  | Ready (Ok len_buf) =>
      let '(len_buf, ks) := xor_stream ks len_buf in
      let len := from_le_bytes len_buf in
      let '(read, cx) := timeout_future (future read) read_timeout cx in
      poll_data (Z.to_nat len) ks read cx
  end.

Definition recv_poll : Fut (Waker := Waker) (E := E) RecvTask (result unit) := λ this cx,
  match this with
  | RvYield ks reader yielded =>
      '(r, yielded, cx) ← yield_poll yielded cx;
      match r with
      | Pending => mret (Pending, RvYield ks reader yielded, cx)
      | Ready _ =>
          let '(read, cx) := timeout_future reader read_timeout cx in
          poll_len ks read cx
      end
  | RvLen ks read => poll_len ks read cx
  | RvData len ks read => poll_data len ks read cx
  | RvMac data ks read => poll_mac data ks read cx
  | RvDone => Panic "`async fn` resumed after completion"
  end.

(** The task before its first poll. *)
Definition recv_start (ks : KeystreamGen) (reader : R) : RecvTask := RvYield ks reader false.

(** ** What is left of a frame *)

Definition reader_of (this : RecvTask) : option R :=
  match this with
  | RvYield _ reader _ => Some reader
  | RvLen _ read | RvData _ _ read | RvMac _ _ read => Some (future read)
  | RvDone => None
  end.

Definition deadline_of (this : RecvTask) : option (TimeoutFuture R) :=
  match this with RvLen _ read | RvData _ _ read | RvMac _ _ read => Some read | _ => None end.

Definition rest_mac (data : bytes) (ks : KeystreamGen) (input : bytes) : result (bytes * KeystreamGen * bytes) :=
  '(mac, input) ← read_exact 16 input;
  let '(mac, ks) := xor_stream ks mac in
  let expected_mac := multigimli2 mac_key data in
  if decide (expected_mac ≠ mac) then Err "MAC verification failed" else mret (data, ks, input).
Definition rest_data (len : nat) (ks : KeystreamGen) (input : bytes) : result (bytes * KeystreamGen * bytes) :=
  '(data, input) ← read_exact len input;
  let '(data, ks) := xor_stream ks data in rest_mac data ks input.

(** [Framing.recv_frame] from the point where the task stands. *)
Definition rest_of (this : RecvTask) (input : bytes) : result (bytes * KeystreamGen * bytes) :=
  match this with
  | RvYield ks _ _ | RvLen ks _ => recv_frame mac_key ks input
  | RvData len ks _ => rest_data len ks input
  | RvMac data ks _ => rest_mac data ks input
  | RvDone => Err "done"
  end.

Lemma rest_len ks len_buf input :
  length len_buf = 2%nat →
  recv_frame mac_key ks (len_buf ++ input) =
    let '(p, ks) := xor_stream ks len_buf in rest_data (Z.to_nat (from_le_bytes p)) ks input.
Proof.
  intros Hl. unfold recv_frame. rewrite read_exact_app by done. cbn [mbind result_bind].
  by destruct (xor_stream ks len_buf) as [p ks'].
Qed.

Lemma rest_data_app len ks data input :
  length data = len →
  rest_data len ks (data ++ input) = let '(p, ks) := xor_stream ks data in rest_mac p ks input.
Proof. intros Hl. unfold rest_data. by rewrite read_exact_app. Qed.

Lemma rest_mac_app data ks mac input :
  length mac = 16%nat →
  rest_mac data ks (mac ++ input) =
    let '(p, ks) := xor_stream ks mac in
    if decide (multigimli2 mac_key data ≠ p) then Err "MAC verification failed" else mret (data, ks, input).
Proof. intros Hl. unfold rest_mac. by rewrite read_exact_app. Qed.
End task.
Arguments RecvTask : clear implicits.

(** ** Every poll *)

Section proof.
Context {Waker E R S I C : Type} `{!EqDecision Waker, !EqDecision I}.
Context `{read : !AsyncRead Waker E R S, read_laws : !AsyncReadLaws Waker E R S}.
Context `{mpsc : !Mpsc E I (bytes * C), mpsc_laws : !MpscLaws E I (bytes * C), read_frame : !ReadFrame Waker E R S I (bytes * C)}.
Context (incoming : I) (sender_tx : C) (mac_key : bytes) (s : S).
Implicit Types (cx : Cx Waker E) (this : RecvTask Waker R) (ds : list bytes).

(** What a poll leaves as it is when it delivers nothing. *)
Definition quietly (cx cx' : Cx Waker E) : Prop :=
  waker cx' = waker cx ∧ clock cx' = clock cx ∧ (reads cx <= reads cx')%nat
  ∧ sleep_register cx `prefix_of` sleep_register cx' ∧ woken cx `prefix_of` woken cx'
  ∧ stream_grows s (env cx) (env cx')
  ∧ (∀ c : I, queued (env cx') c = queued (env cx) c ∧ is_open (env cx') c = is_open (env cx) c).

#[export] Instance stream_grows_trans : Transitive (stream_grows s).
Proof.
  intros a b c (m1 & H1 & B1) (m2 & H2 & B2). exists (m1 ++ m2). split; [by rewrite H2, H1, app_assoc|].
  apply list.Forall_app. by split.
Qed.
#[export] Instance stream_grows_refl : Reflexive (stream_grows s).
Proof. intros a. exists []. by rewrite app_nil_r. Qed.
#[export] Instance quietly_trans : Transitive quietly.
Proof.
  intros a b c (?&?&?&?&?&?&HA) (?&?&?&?&?&?&HB). unfold quietly.
  split_and!; [congruence|congruence|lia|by etransitivity|by etransitivity|by etransitivity|].
  intros x. destruct (HA x), (HB x). split; congruence.
Qed.
#[export] Instance quietly_refl : Reflexive quietly.
Proof. intros a. by split_and!. Qed.

Lemma instant_now_quietly cx : quietly cx (instant_now cx).2.
Proof. unfold quietly. cbn. split_and!; [done|done|lia|done|done|reflexivity|done]. Qed.

Lemma wake_quietly cx : quietly cx (wake_by_ref cx).
Proof. unfold quietly. cbn. split_and!; [done|done|lia|done|by apply prefix_app_r|reflexivity|done]. Qed.

Lemma wake_woke cx : woke cx (wake_by_ref cx).
Proof. exists [waker cx]. split; [done|by apply list_elem_of_here]. Qed.

(** What a read of the socket gave in this poll: it was polled in [cxa], which the
    poll has come to from [cx], and left [cxb]. *)
Definition read_gave (v : Poll (result bytes)) cx cxa cxb cx' : Prop :=
  ∃ n rd rd', source rd = s ∧ quietly cx cxa ∧ read_exact_poll n rd cxa = Ret (v, rd', cxb) ∧ env cx' = env cxb.
(** The socket's own error; and a read that is pending though it has woken its task. *)
Definition read_failed (why : string) cx cx' : Prop := ∃ cxa cxb, read_gave (Ready (Err why)) cx cxa cxb cx'.
Definition read_interrupted cx cx' : Prop := ∃ cxa cxb, read_gave Pending cx cxa cxb cx' ∧ woke cxa cxb ∧ woke cx cx'.

Lemma read_gave_later v cx cx1 cxa cxb cx' : quietly cx cx1 → read_gave v cx1 cxa cxb cx' → read_gave v cx cxa cxb cx'.
Proof. intros Hq (n & rd & rd' & Hs & Hqa & Hr & He). exists n, rd, rd'. split_and!; [done|by etransitivity|done|done]. Qed.
Lemma read_failed_later why cx cx1 cx' : quietly cx cx1 → read_failed why cx1 cx' → read_failed why cx cx'.
Proof. intros Hq (cxa & cxb & H). exists cxa, cxb. by eapply read_gave_later. Qed.
Lemma read_interrupted_later cx cx1 cx' : quietly cx cx1 → read_interrupted cx1 cx' → read_interrupted cx cx'.
Proof.
  intros Hq (cxa & cxb & H & Hw & Hw'). exists cxa, cxb. split; [by eapply read_gave_later|]. split; [done|].
  destruct Hq as (H1 & _ & _ & _ & H2 & _). by eapply woke_mono.
Qed.

(** One piece of a frame. *)
Lemma read_piece n (f : TimeoutFuture R) cx :
  source (future f) = s → (position (future f) <= length (arrived s (env cx)))%nat → deadline_armed f cx →
  ∃ r f' cx', asyncread_readexact_timeout n f cx = Ret (r, f', cx') ∧ quietly cx cx'
    ∧ match r with
      | Ready (Ok data) => source (future f') = s ∧ position (future f') = (position (future f) + n)%nat
          ∧ (position (future f) + n <= length (arrived s (env cx')))%nat
          ∧ data = take n (drop (position (future f)) (arrived s (env cx')))
      | Ready (Err why) => why = "Timeout" ∧ timeout_at f <= clock cx (reads cx) ∧ (reads cx < reads cx')%nat
          ∨ read_failed why cx cx'
      | Pending => source (future f') = s ∧ position (future f') = position (future f) ∧ timeout_at f' = timeout_at f
          ∧ deadline_armed f' cx' ∧ (timeout_at f, waker cx) ∈ sleep_register cx'
          ∧ (read_interrupted cx cx'
             ∨ (length (arrived s (env cx')) < position (future f) + n)%nat ∧ input_waits s (waker cx) (env cx'))
      end.
Proof.
  intros Hs Hpos Harm. destruct (decide (timeout_at f <= clock cx (reads cx))) as [Hle|Hlt].
  { eexists _, _, _. split; [by apply within_late|]. split; [apply instant_now_quietly|]. left. cbn. split_and!; [done|done|lia]. }
  destruct (read_exact_returns n (future f) (instant_now cx).2) as (r & rd & cx1 & Hr & Hk & Hsrc & Hg & Hres); [by rewrite Hs|].
  pose proof (λ c, read_queued _ _ _ _ _ _ c Hr) as Hq.
  destruct (within_inner (read_exact_poll n) f cx r rd cx1 ltac:(lia) Hr Hk)
    as (f' & cx' & Hw & Hf & Hat & Hwk & Hclk & Hrds & Hwo & Henv & Hsl & Ha).
  rewrite Hs in Hsrc, Hg, Hres. exists r, f', cx'. split; [exact Hw|].
  assert (Hgave : read_gave r cx (instant_now cx).2 cx1 cx') by (exists n, (future f), rd; split_and!; [done|apply instant_now_quietly|done|done]).
  cbn [instant_now snd env waker clock reads sleep_register] in *. split.
  { unfold quietly. rewrite Hwk, Hclk, Hrds, Henv. split_and!; [done|done|lia|done|rewrite Hwo; apply Hk|done|done]. }
  destruct (Ha Harm) as [Harm' Htimer]. rewrite Hf, Henv, Hat. destruct r as [[data|why]|].
  - destruct Hres as (H1 & H2 & H3). by rewrite H1.
  - right. by exists (instant_now cx).2, cx1.
  - destruct Hres as (H1 & H2). split_and!; [done|done|done|done|by apply Htimer|].
    destruct H2 as [(l & Hl & Hin)|?]; [left|by right]. exists (instant_now cx).2, cx1. split; [done|].
    split; exists l; [done|by rewrite Hwo].
Qed.

(** ** The invariant

    [ds] have been delivered since the loop started, at position [p0] of the stream
    with keystream [ks0]; what was taken of the stream beyond them is part of a
    frame, of which [rest_of] is left. *)
Definition taken (p0 : nat) (rd : R) (e : E) : bytes := drop p0 (take (position rd) (arrived s e)).

Definition receiving (p0 : nat) (ks0 : KeystreamGen) ds this (e : E) : Prop :=
  ∃ rd c, reader_of this = Some rd ∧ source rd = s ∧ (p0 <= position rd <= length (arrived s e))%nat
    ∧ is_bytes (arrived s e) ∧ Forall packet_ok ds
    ∧ taken p0 rd e = (seal_all mac_key ks0 ds).1 ++ c
    ∧ ∀ input, recv_frame mac_key (seal_all mac_key ks0 ds).2 (c ++ input) = rest_of mac_key this input.

Definition timer_armed this cx : Prop := ∀ f, deadline_of this = Some f → deadline_armed f cx.

(** A deadline this poll looks at: that of the piece it found awaited, or one 30
    seconds after a reading of the clock. *)
Definition deadline_in this cx (t : Z) : Prop :=
  (∃ f, deadline_of this = Some f ∧ t = timeout_at f) ∨ ∃ k, (reads cx <= k)%nat ∧ t = clock cx k + from_millis 30000.
Definition deadline_kept this cx this' : Prop := ∀ f', deadline_of this' = Some f' → deadline_in this cx (timeout_at f').

(** Such a deadline had passed at a reading of the clock in this poll. *)
Definition timed_out this cx cx' : Prop :=
  ∃ t k, deadline_in this cx t ∧ (reads cx <= k < reads cx')%nat ∧ t <= clock cx k.

Definition timer_set this' cx cx' : Prop := ∃ f, deadline_of this' = Some f ∧ (timeout_at f, waker cx) ∈ sleep_register cx'.

(** Why a task is pending. It yields after it has delivered a packet, and in its
    first poll; a read was interrupted; or it waits for bytes that have not arrived,
    with everything in those that have delivered. *)
Definition yields (sent : list bytes) this cx this' cx' : Prop :=
  ∃ ks rd, this' = RvYield ks rd true ∧ woke cx cx' ∧ (this = RvYield ks rd false ∨ sent ≠ []).
Definition awaiting (p0 : nat) (ks0 : KeystreamGen) ds (sent : list bytes) this cx this' cx' : Prop :=
  yields sent this cx this' cx'
  ∨ sent = [] ∧ timer_set this' cx cx'
    ∧ (read_interrupted cx cx'
       ∨ input_waits s (waker cx) (env cx') ∧ authentic mac_key ks0 (drop p0 (arrived s (env cx'))) ds (Err "read_exact")).

(** Why it has ended: the node's queue is closed, and the packet of the next frame
    could not be delivered; the next frame is forged; a deadline has passed; the
    socket has failed. *)
Definition queue_closed (p0 : nat) (ks0 : KeystreamGen) ds (e : E) : Prop :=
  is_open e incoming = false
  ∧ ∃ data, packet_ok data ∧ (seal_all mac_key ks0 (ds ++ [data])).1 `prefix_of` drop p0 (arrived s e).
Definition ends_with (forged : Prop) (why : string) this cx cx' : Prop :=
  why = "MAC verification failed" ∧ forged ∨ why = "Timeout" ∧ timed_out this cx cx' ∨ read_failed why cx cx'.

Definition polled_to (p0 : nat) (ks0 : KeystreamGen) ds this cx (r : Poll (result unit)) this' cx' : Prop :=
  waker cx' = waker cx ∧ clock cx' = clock cx ∧ sleep_register cx `prefix_of` sleep_register cx'
  ∧ stream_grows s (env cx) (env cx')
  ∧ ∃ sent, (length sent <= 1)%nat ∧ received incoming sender_tx sent (env cx) (env cx')
    ∧ match r with
      | Pending => receiving p0 ks0 (ds ++ sent) this' (env cx') ∧ timer_armed this' cx'
          ∧ deadline_kept this cx this' ∧ awaiting p0 ks0 ds sent this cx this' cx'
      | Ready (Ok _) => queue_closed p0 ks0 ds (env cx') ∧ sent = []
      | Ready (Err why) => sent = []
          ∧ ends_with (authentic mac_key ks0 (drop p0 (arrived s (env cx'))) ds (Err why)) why this cx cx'
      end.

Lemma quietly_received cx cx' : quietly cx cx' → received incoming sender_tx [] (env cx) (env cx').
Proof.
  intros (_ & _ & _ & _ & _ & _ & Hq). split_and!; [rewrite app_nil_r; apply Hq|intros c _; apply Hq|intros c; apply Hq].
Qed.

Lemma deadline_in_later this this1 cx cx1 t :
  quietly cx cx1 → deadline_kept this cx this1 → deadline_in this1 cx1 t → deadline_in this cx t.
Proof.
  intros (_ & Hc & Hr & _) Hdk [(f & Hf & ->)|(k & Hk & ->)]; [by apply Hdk|].
  right. exists k. rewrite <- Hc. split; [lia|done].
Qed.

Lemma ends_with_later forged why this this1 cx cx1 cx' :
  quietly cx cx1 → deadline_kept this cx this1 → ends_with forged why this1 cx1 cx' → ends_with forged why this cx cx'.
Proof.
  intros Hq Hdk [?|[(-> & t & k & Ht & Hk & Hle)|?]]; [by left| |right; right; by eapply read_failed_later].
  right. left. split; [done|]. exists t, k. split; [by eapply deadline_in_later|]. destruct Hq as (_ & Hc & Hr & _).
  rewrite <- Hc. split; [lia|done].
Qed.

Lemma polled_to_quietly p0 ks0 ds this this1 cx cx1 r this' cx' :
  quietly cx cx1 → deadline_kept this cx this1 → is_Some (deadline_of this1) →
  polled_to p0 ks0 ds this1 cx1 r this' cx' → polled_to p0 ks0 ds this cx r this' cx'.
Proof.
  intros Hqu Hdk [f1 Hf1] (Hw' & Hc' & Hs' & Hg' & sent & Hl & (Hr1 & Hr2 & Hr3) & Hres).
  pose proof Hqu as (Hw & Hc & Hr & Hs & Hwo & Hg & Hq).
  split_and!; [congruence|congruence|by etransitivity|by etransitivity|].
  exists sent. split; [done|]. split.
  { split_and!; [rewrite Hr1; f_equal; apply Hq|intros c Hne; rewrite Hr2 by done; apply Hq|intros c; rewrite Hr3; apply Hq]. }
  destruct r as [[[]|why]|]; [done|destruct Hres; split; [done|by eapply ends_with_later]|].
  destruct Hres as (H1 & H2 & H3 & H4). split; [done|]. split; [done|].
  split; [intros f' Hf'; by eapply deadline_in_later; [..|apply H3]|].
  destruct H4 as [(ks & rd & -> & Hwoke & Hyield)|(-> & Ht & H4)].
  - left. exists ks, rd. split; [done|]. split; [by eapply woke_mono|]. destruct Hyield as [->|?]; [done|by right].
  - right. split; [done|]. unfold timer_set. rewrite <- Hw. split; [done|].
    destruct H4 as [?|?]; [left; by eapply read_interrupted_later|by right].
Qed.

Lemma receiving_grows p0 ks0 ds this e e' :
  stream_grows s e e' → receiving p0 ks0 ds this e → receiving p0 ks0 ds this e'.
Proof.
  intros (more & Hm & Hb) (rd & c & Hr & Hs & Hp & Hi & Hd & Ht & Hrest). exists rd, c. unfold taken in *. rewrite Hm.
  split_and!; [done|done|lia|rewrite length_app; lia|by apply list.Forall_app|done| |done].
  by rewrite take_app_le by lia.
Qed.

(** A piece that was not read ends the task. *)
Lemma receiving_stopped p0 ks0 ds this f cx why this' cx' :
  deadline_of this = Some f → quietly cx cx' →
  why = "Timeout" ∧ timeout_at f <= clock cx (reads cx) ∧ (reads cx < reads cx')%nat ∨ read_failed why cx cx' →
  polled_to p0 ks0 ds this cx (Ready (Err why)) this' cx'.
Proof.
  intros Hf Hq Hend. pose proof (quietly_received cx cx' Hq) as Hrec.
  destruct Hq as (Hw & Hc & _ & Hsl & _ & Hg & _). split_and!; [done|done|done|done|]. exists []. split_and!; [cbn; lia|done|done|].
  right. destruct Hend as [(-> & Hle & Hlt)|?]; [left|by right]. split; [done|]. exists (timeout_at f), (reads cx).
  split_and!; [left; by exists f|lia|lia|done].
Qed.

Lemma deadline_reader this f : deadline_of this = Some f → reader_of this = Some (future f).
Proof. by destruct this; intros [= ->]. Qed.

(** The stream beyond [p0], as it was taken and is still to be taken. *)
Lemma taken_app p0 rd (e : E) :
  (p0 <= position rd <= length (arrived s e))%nat →
  drop p0 (arrived s e) = taken p0 rd e ++ drop (position rd) (arrived s e).
Proof.
  intros Hp. unfold taken. rewrite <- (take_drop (position rd) (arrived s e)) at 1.
  rewrite drop_app_le; [done|]. rewrite length_take. lia.
Qed.

(** A piece that has not arrived yet. *)
Lemma piece_pending p0 ks0 ds this this' f f' n cx cx' :
  deadline_of this = Some f → deadline_of this' = Some f' →
  (∀ input, rest_of mac_key this' input = rest_of mac_key this input) →
  (∀ u, (length u < n)%nat → rest_of mac_key this u = Err "read_exact") →
  receiving p0 ks0 ds this (env cx) → quietly cx cx' →
  source (future f') = s → position (future f') = position (future f) → timeout_at f' = timeout_at f →
  deadline_armed f' cx' → (timeout_at f, waker cx) ∈ sleep_register cx' →
  read_interrupted cx cx' ∨ (length (arrived s (env cx')) < position (future f) + n)%nat ∧ input_waits s (waker cx) (env cx') →
  polled_to p0 ks0 ds this cx Pending this' cx'.
Proof.
  intros Hf Hf' Hrest Hshort Hrec Hq Hsrc Hpos Hat Harm Htimer Hwait.
  pose proof (quietly_received cx cx' Hq) as Hr0. destruct Hq as (Hw & Hc & _ & Hsl & _ & Hg & _).
  apply (receiving_grows _ _ _ _ _ _ Hg) in Hrec.
  destruct Hrec as (rd & c & Hr & Hs & Hp & Hi & Hd & Ht & Hrst).
  rewrite (deadline_reader this f Hf) in Hr. injection Hr as <-.
  split_and!; [done|done|done|done|]. exists []. rewrite app_nil_r. split; [cbn; lia|]. split; [done|]. split_and!.
  - exists (future f'), c. unfold taken in *. rewrite Hpos. split_and!; [by apply deadline_reader|done|lia|lia|done|done|done|].
    intros input. by rewrite Hrest.
  - intros f0 Hf0. rewrite Hf' in Hf0. by injection Hf0 as <-.
  - intros f0 Hf0. rewrite Hf' in Hf0. injection Hf0 as <-. left. by exists f.
  - right. split; [done|]. split; [exists f'; by rewrite Hat|]. destruct Hwait as [Hwait|[Hlt Hwait]]; [by left|right]. split; [done|].
    rewrite (taken_app p0 (future f)) by lia. exists (c ++ drop (position (future f)) (arrived s (env cx'))), "read_exact".
    split_and!; [by rewrite Ht, app_assoc| |done]. rewrite Hrst. apply Hshort. rewrite length_drop. lia.
Qed.

(** A piece that has been read. *)
Lemma piece_read p0 ks0 ds this this' f rd' n data cx cx' :
  deadline_of this = Some f → reader_of this' = Some rd' →
  receiving p0 ks0 ds this (env cx) → quietly cx cx' →
  source rd' = s → position rd' = (position (future f) + n)%nat →
  (position (future f) + n <= length (arrived s (env cx')))%nat →
  data = take n (drop (position (future f)) (arrived s (env cx'))) →
  (∀ input, rest_of mac_key this (data ++ input) = rest_of mac_key this' input) →
  receiving p0 ks0 ds this' (env cx').
Proof.
  intros Hf Hf' Hrec Hq Hsrc Hpos Hle Hdata Hrest. destruct Hq as (_ & _ & _ & _ & _ & Hg & _).
  apply (receiving_grows _ _ _ _ _ _ Hg) in Hrec. destruct Hrec as (rd & c & Hr & Hs & Hp & Hi & Hd & Ht & Hrst).
  rewrite (deadline_reader this f Hf) in Hr. injection Hr as <-. exists rd', (c ++ data).
  split_and!; [done|done|lia|lia|done|done| |].
  - unfold taken in *. rewrite Hpos, <- take_take_drop, drop_app_le by (rewrite length_take; lia). rewrite Ht, Hdata. by rewrite app_assoc.
  - intros input. by rewrite <- app_assoc, Hrst.
Qed.

(** *** The polls *)

Context (mac_key_ok : is_bytes mac_key).

Definition new_read (rd : R) cx : TimeoutFuture R := (timeout_future rd read_timeout cx).1.

Lemma new_read_armed (rd : R) cx : deadline_armed (new_read rd cx) (instant_now cx).2.
Proof. by intros w [=]. Qed.

Lemma new_deadline this this1 rd cx cx1 :
  quietly cx cx1 → deadline_of this1 = Some (new_read rd cx1) → deadline_kept this cx this1.
Proof.
  intros (_ & Hc & Hr & _) Hd f' Hf'. rewrite Hd in Hf'. injection Hf' as <-. right. exists (reads cx1).
  split; [done|]. cbn. by rewrite Hc.
Qed.

(** Delivering a packet. *)
Lemma deliver_spec data cx cx1 ok cx' :
  quietly cx cx1 → send_on incoming (data, sender_tx) cx1 = (ok, cx') →
  waker cx' = waker cx ∧ clock cx' = clock cx ∧ sleep_register cx `prefix_of` sleep_register cx'
  ∧ woken cx' = woken cx1 ∧ arrived s (env cx') = arrived s (env cx1)
  ∧ stream_grows s (env cx) (env cx') ∧ is_open (env cx') incoming = ok
  ∧ received incoming sender_tx (if ok then [data] else []) (env cx) (env cx').
Proof.
  intros (Hw & Hc & _ & Hsl & _ & (more & Hm & Hb) & Hch). unfold send_on.
  destruct (unbounded_send incoming (data, sender_tx) (env cx1)) as [ok0 e] eqn:Hsend. intros [= -> <-]. cbn.
  pose proof (send_result (env cx1) incoming (data, sender_tx)) as Hok.
  pose proof (λ c0, send_queued (env cx1) incoming (data, sender_tx) c0) as Hqd.
  pose proof (λ c0, send_is_open (env cx1) incoming (data, sender_tx) c0) as Hop.
  pose proof (send_arrived s incoming (data, sender_tx) (env cx1)) as Harr.
  rewrite Hsend in Hok, Hqd, Hop, Harr. cbn [fst snd] in Hok, Hqd, Hop, Harr.
  split_and!; [done|done|done|done|done|by exists more; rewrite Harr|by rewrite Hop|].
  split_and!.
  - rewrite Hqd, decide_True, <- Hok, (proj1 (Hch incoming)) by done. by destruct ok.
  - intros c0 Hc0. rewrite Hqd, decide_False, app_nil_r by done. apply Hch.
  - intros c0. rewrite Hop. apply Hch.
Qed.

(** Bytes that open as a frame, whatever follows, are the frame of their packet. *)
Lemma frame_opened ks frame data ks' :
  ks_wf ks → is_bytes frame → (∀ input, recv_frame mac_key ks (frame ++ input) = Ok (data, ks', input)) →
  packet_ok data ∧ seal mac_key ks data = (frame, ks').
Proof.
  intros Hk Hb Hf. specialize (Hf []).
  apply recv_frame_inv in Hf as (Hd & Hl & Hs & Hin); [|done|done|by rewrite app_nil_r].
  rewrite !app_nil_r in Hin. split; [done|]. by rewrite Hs, <- Hin.
Qed.

Lemma poll_mac_ok p0 ks0 ds data ks f cx :
  ks_wf ks0 → receiving p0 ks0 ds (RvMac data ks f) (env cx) → deadline_armed f cx →
  ∃ r this' cx', poll_mac incoming sender_tx mac_key data ks f cx = Ret (r, this', cx')
    ∧ polled_to p0 ks0 ds (RvMac data ks f) cx r this' cx'.
Proof.
  intros Hk Hrec Harm. pose proof Hrec as (rd & c & Hr & Hs & Hp & Hi & Hd & Ht & Hrst). injection Hr as <-.
  destruct (read_piece 16 f cx Hs ltac:(lia) Harm) as (r & f' & cx1 & Hread & Hq & Hres).
  unfold poll_mac. rewrite Hread. cbn [mbind outcome_bind]. destruct r as [[mac|why]|].
  - destruct Hres as (Hs' & Hpos & Hle & Hmac). pose proof Hq as (Hw & Hc & _ & Hsl & Hwok & Hg & Hch).
    assert (Hl : length mac = 16%nat) by (rewrite Hmac, length_take, length_drop; lia).
    pose proof (λ input, rest_mac_app mac_key data ks mac input Hl) as Happ. destruct (xor_stream ks mac) as [p ks'] eqn:Hx.
    assert (Htk : taken p0 (future f') (env cx1) = (seal_all mac_key ks0 ds).1 ++ c ++ mac).
    { destruct Hg as (more & Hm & _). rewrite app_assoc, <- Ht, Hmac. unfold taken. rewrite Hpos, <- take_take_drop, Hm.
      rewrite (take_app_le (arrived s (env cx))) by lia. rewrite drop_app_le by (rewrite length_take; lia). done. }
    assert (Hb : is_bytes (arrived s (env cx1))) by (destruct Hg as (more & -> & ?); by apply list.Forall_app).
    assert (Hbytes : is_bytes (c ++ mac)).
    { assert (Hb' : is_bytes (taken p0 (future f') (env cx1))) by (unfold taken; by apply Forall_drop, Forall_take).
      rewrite Htk in Hb'. by apply list.Forall_app in Hb' as [_ ?]. }
    destruct (decide (multigimli2 mac_key data ≠ p)) as [Hne|Heq].
    + eexists _, _, _. split; [reflexivity|]. split_and!; [done|done|done|done|]. exists [].
      split_and!; [cbn; lia|by apply quietly_received|done|]. left. split; [done|].
      rewrite (taken_app p0 (future f')) by lia. rewrite Htk, <- !app_assoc.
      eexists _, "MAC verification failed". split_and!; [reflexivity| |done]. rewrite Hrst. apply Happ.
    + destruct (frame_opened (seal_all mac_key ks0 ds).2 (c ++ mac) data ks') as [Hpk Hseal];
        [by apply seal_all_wf|done|intros input; rewrite <- app_assoc, Hrst; apply Happ|].
      destruct (send_on incoming (data, sender_tx) cx1) as [ok cx2] eqn:Hsend.
      destruct (deliver_spec data cx cx1 ok cx2 Hq Hsend) as (Hw2 & Hc2 & Hs2 & Hwo2 & Ha2 & Hg2 & Ho2 & Hrcv).
      destruct ok; eexists _, _, _; (split; [reflexivity|]); (split_and!; [done|done|done|done|]).
      * exists [data]. split; [done|]. split; [done|]. split; [|split; [done|split; [done|]]].
        2:{ left. exists ks', (future f'). split; [done|]. split; [|by right]. apply (woke_mono cx cx1); [done|done|]. exists [waker cx2]. cbn. rewrite Hwo2, Hw2, Hw. split; [done|by apply list_elem_of_here]. }
        exists (future f'), []. unfold taken in *. cbn. rewrite Ha2, seal_all_snoc, Hseal. cbn [fst snd].
        split_and!; [done|done|lia|lia|done|apply list.Forall_app; split; [done|constructor; [exact Hpk|constructor]]|by rewrite Htk, app_nil_r|done].
      * exists []. split; [cbn; lia|]. split; [done|]. split; [|done]. split; [done|]. exists data. split; [done|].
        rewrite (taken_app p0 (future f')) by (rewrite Ha2; lia). unfold taken in *.
        rewrite Ha2, Htk, seal_all_snoc, Hseal. by apply prefix_app_r.
  - eexists _, _, _. split; [reflexivity|]. by eapply receiving_stopped.
  - destruct Hres as (H1 & H2 & H3 & H4 & H5 & H6). eexists _, _, _. split; [reflexivity|].
    apply (piece_pending _ _ _ _ _ f f' 16); try done. intros u Hu. cbn [rest_of]. unfold rest_mac. by rewrite read_exact_short.
Qed.

(** A piece, then the rest of the frame from where that leaves the task. *)
Lemma piece_then p0 ks0 ds this this1 (f f' : TimeoutFuture (Waker := Waker) R) n data cx cx1 r this' cx' :
  deadline_of this = Some f → receiving p0 ks0 ds this (env cx) → quietly cx cx1 →
  source (future f') = s → position (future f') = (position (future f) + n)%nat →
  (position (future f) + n <= length (arrived s (env cx1)))%nat →
  data = take n (drop (position (future f)) (arrived s (env cx1))) →
  deadline_of this1 = Some (new_read (future f') cx1) →
  (∀ input, rest_of mac_key this (data ++ input) = rest_of mac_key this1 input) →
  receiving p0 ks0 ds this1 (env (instant_now cx1).2)
  ∧ (polled_to p0 ks0 ds this1 (instant_now cx1).2 r this' cx' → polled_to p0 ks0 ds this cx r this' cx').
Proof.
  intros Hf Hrec Hq Hs' Hpos Hle Hdata Hd1 Hrest. split.
  - apply (piece_read p0 ks0 ds this this1 f (future f') n data cx cx1); try done. by rewrite (deadline_reader _ _ Hd1).
  - apply polled_to_quietly; [etransitivity; [exact Hq|apply instant_now_quietly]|by eapply new_deadline|by eexists].
Qed.

Lemma poll_data_ok p0 ks0 ds len ks f cx :
  ks_wf ks0 → receiving p0 ks0 ds (RvData len ks f) (env cx) → deadline_armed f cx →
  ∃ r this' cx', poll_data incoming sender_tx mac_key len ks f cx = Ret (r, this', cx')
    ∧ polled_to p0 ks0 ds (RvData len ks f) cx r this' cx'.
Proof.
  intros Hk Hrec Harm. pose proof Hrec as (rd & c & Hr & Hs & Hp & _). injection Hr as <-.
  destruct (read_piece len f cx Hs ltac:(lia) Harm) as (r & f' & cx1 & Hread & Hq & Hres).
  unfold poll_data. rewrite Hread. cbn [mbind outcome_bind]. destruct r as [[data|why]|].
  - destruct Hres as (Hs' & Hpos & Hle & Hdata).
    assert (Hl : length data = len) by (rewrite Hdata, length_take, length_drop; lia).
    pose proof (λ input, rest_data_app mac_key len ks data input Hl) as Happ. destruct (xor_stream ks data) as [p ks'].
    destruct (piece_then p0 ks0 ds (RvData len ks f) (RvMac p ks' (new_read (future f') cx1)) f f' len data cx cx1
      Pending RvDone cx1) as [Hrec1 _]; try done.
    destruct (poll_mac_ok p0 ks0 ds p ks' _ _ Hk Hrec1 (new_read_armed _ _)) as (r & this' & cx' & Hpoll & Hto).
    exists r, this', cx'. split; [exact Hpoll|]. revert Hto. by apply (piece_then p0 ks0 ds _ _ f f' len data).
  - eexists _, _, _. split; [reflexivity|]. by eapply receiving_stopped.
  - destruct Hres as (H1 & H2 & H3 & H4 & H5 & H6). eexists _, _, _. split; [reflexivity|].
    apply (piece_pending _ _ _ _ _ f f' len); try done. intros u Hu. cbn [rest_of]. unfold rest_data. by rewrite read_exact_short.
Qed.

Lemma poll_len_ok p0 ks0 ds ks f cx :
  ks_wf ks0 → receiving p0 ks0 ds (RvLen ks f) (env cx) → deadline_armed f cx →
  ∃ r this' cx', poll_len incoming sender_tx mac_key ks f cx = Ret (r, this', cx')
    ∧ polled_to p0 ks0 ds (RvLen ks f) cx r this' cx'.
Proof.
  intros Hk Hrec Harm. pose proof Hrec as (rd & c & Hr & Hs & Hp & _). injection Hr as <-.
  destruct (read_piece 2 f cx Hs ltac:(lia) Harm) as (r & f' & cx1 & Hread & Hq & Hres).
  unfold poll_len. rewrite Hread. cbn [mbind outcome_bind]. destruct r as [[len_buf|why]|].
  - destruct Hres as (Hs' & Hpos & Hle & Hdata).
    assert (Hl : length len_buf = 2%nat) by (rewrite Hdata, length_take, length_drop; lia).
    pose proof (λ input, rest_len mac_key ks len_buf input Hl) as Happ. destruct (xor_stream ks len_buf) as [p ks'].
    destruct (piece_then p0 ks0 ds (RvLen ks f) (RvData (Z.to_nat (from_le_bytes p)) ks' (new_read (future f') cx1)) f f' 2 len_buf cx cx1
      Pending RvDone cx1) as [Hrec1 _]; try done.
    destruct (poll_data_ok p0 ks0 ds _ ks' _ _ Hk Hrec1 (new_read_armed _ _)) as (r & this' & cx' & Hpoll & Hto).
    exists r, this', cx'. split; [exact Hpoll|]. revert Hto. by apply (piece_then p0 ks0 ds _ _ f f' 2 len_buf).
  - eexists _, _, _. split; [reflexivity|]. by eapply receiving_stopped.
  - destruct Hres as (H1 & H2 & H3 & H4 & H5 & H6). eexists _, _, _. split; [reflexivity|].
    apply (piece_pending _ _ _ _ _ f f' 2); try done. intros u Hu. cbn [rest_of]. unfold recv_frame. by rewrite read_exact_short.
Qed.

Lemma recv_poll_ok p0 ks0 ds this cx :
  ks_wf ks0 → receiving p0 ks0 ds this (env cx) → timer_armed this cx →
  ∃ r this' cx', recv_poll incoming sender_tx mac_key this cx = Ret (r, this', cx')
    ∧ polled_to p0 ks0 ds this cx r this' cx'.
Proof.
  intros Hk Hrec Harm. destruct this as [ks rd y|ks f|len ks f|data ks f|]; cbn [recv_poll].
  - destruct y; cbn [yield_poll mbind outcome_bind mret outcome_ret].
    + assert (Hrec1 : receiving p0 ks0 ds (RvLen ks (new_read rd cx)) (env (instant_now cx).2)) by exact Hrec.
      destruct (poll_len_ok p0 ks0 ds ks _ _ Hk Hrec1 (new_read_armed _ _)) as (r & this' & cx' & Hpoll & Hto).
      exists r, this', cx'. split; [exact Hpoll|]. revert Hto. apply polled_to_quietly; [apply instant_now_quietly| |by eexists].
      eapply new_deadline; [reflexivity|done].
    + eexists _, _, _. split; [reflexivity|]. split_and!; [done|done|done|reflexivity|]. exists []. rewrite app_nil_r.
      split; [cbn; lia|]. split; [apply (quietly_received cx), wake_quietly|]. split; [exact Hrec|]. split; [done|]. split; [done|]. left. exists ks, rd.
      split; [done|]. split; [apply wake_woke|by left].
  - apply poll_len_ok; [done|done|by apply Harm].
  - apply poll_data_ok; [done|done|by apply Harm].
  - apply poll_mac_ok; [done|done|by apply Harm].
  - by destruct Hrec as (rd & c & Hr & _).
Qed.

(** ** Runs

    Polls one after the other, with any waker, each pending; between them anything
    happens to the rest of the program, more bytes may arrive, and nobody else
    reads from the socket. [ds] are the packets delivered so far. *)
Inductive recv_run (this0 : RecvTask Waker R) (cx0 : Cx Waker E) : list bytes → RecvTask Waker R → Cx Waker E → Prop :=
| run_start : recv_run this0 cx0 [] this0 cx0
| run_poll ds this cx w others this' cx' sent :
    recv_run this0 cx0 ds this cx → stream_grows s (env cx) (others (env cx)) →
    recv_poll incoming sender_tx mac_key this (at_poll w others cx) = Ret (Pending, this', cx') →
    received incoming sender_tx sent (others (env cx)) (env cx') →
    recv_run this0 cx0 (ds ++ sent) this' cx'.

Lemma received_unique ds ds' (e e' : E) :
  received incoming sender_tx ds e e' → received incoming sender_tx ds' e e' → ds = ds'.
Proof.
  intros (H1 & _) (H2 & _). rewrite H1 in H2. apply app_inv_head in H2. clear H1.
  revert ds' H2. induction ds as [|d ds IH]; intros [|d' ds']; cbn; try done. intros [= -> H]. by rewrite (IH ds').
Qed.

Lemma recv_run_invariant ks0 rd cx0 ds this cx :
  ks_wf ks0 → source rd = s → (position rd <= length (arrived s (env cx0)))%nat → is_bytes (arrived s (env cx0)) →
  recv_run (recv_start ks0 rd) cx0 ds this cx →
  receiving (position rd) ks0 ds this (env cx) ∧ timer_armed this cx ∧ stream_grows s (env cx0) (env cx).
Proof.
  intros Hk Hs Hp Hb. induction 1 as [|ds this cx w others this' cx' sent Hrun (Hrec & Harm & Hg) Hgrow Hpoll Hsent].
  - split_and!; [|by intros f [=]|reflexivity]. exists rd, []. unfold taken. cbn [seal_all fst app rest_of recv_start].
    split_and!; try done. rewrite drop_ge; [done|]. rewrite length_take. lia.
  - destruct (recv_poll_ok (position rd) ks0 ds this (at_poll w others cx) Hk) as (r & this1 & cx1 & Hpoll1 & Hto);
      [by eapply receiving_grows|exact Harm|]. rewrite Hpoll in Hpoll1. injection Hpoll1 as <- <- <-.
    destruct Hto as (_ & _ & _ & Hg1 & sent1 & _ & Hsent1 & Hrec1 & Harm1 & _).
    rewrite (received_unique _ _ _ _ Hsent Hsent1). split_and!; [done|done|].
    etransitivity; [exact Hg|]. by etransitivity.
Qed.

(** What [Framing.recv_task] says of a stream. *)
Definition framing_says (ks0 : KeystreamGen) (input : bytes) ds (r : result unit) : Prop :=
  ∀ e : E, is_open e incoming = true →
    ∃ e', recv_task incoming sender_tx (Datatypes.S (length input)) mac_key ks0 input e = Some (r, e')
        ∧ received incoming sender_tx ds e e'.

Lemma authentic_says ks0 input ds r :
  Forall packet_ok ds → authentic mac_key ks0 input ds r → framing_says ks0 input ds r.
Proof. intros Hds Ha e He. apply (authentic_recv_task mac_key ks0 input ds r); [done|done|done|lia|done]. Qed.

Lemma receiving_prefix p0 ks0 ds this (e e' : E) :
  receiving p0 ks0 ds this e → stream_grows s e e' → (seal_all mac_key ks0 ds).1 `prefix_of` drop p0 (arrived s e') ∧ Forall packet_ok ds.
Proof.
  intros Hrec Hg. apply (receiving_grows _ _ _ _ _ _ Hg) in Hrec as (rd & c & _ & Hs & Hp & _ & Hd & Ht & _).
  split; [|done]. rewrite (taken_app p0 rd) by done. rewrite Ht. exists (c ++ drop (position rd) (arrived s e')). by rewrite app_assoc.
Qed.

(** A poll after the deadline of the piece that is awaited is the last. *)
Lemma recv_late this f cx :
  deadline_of this = Some f → timeout_at f <= clock cx (reads cx) →
  recv_poll incoming sender_tx mac_key this cx = Ret (Ready (Err "Timeout"), RvDone, (instant_now cx).2).
Proof.
  destruct this as [|ks f'|len ks f'|data ks f'|]; intros [= ->] Hle; cbn [recv_poll]; unfold poll_len, poll_data, poll_mac, asyncread_readexact_timeout;
    by rewrite within_late.
Qed.

(** C17. The receiving task of a link does, poll by poll, what [Framing.recv_task] says
    of the bytes that have arrived. Started anywhere in the stream, after any run
    of polls in which it has delivered [ds], the next poll does not panic; it
    delivers at most one more packet to the node's queue, with the link's own
    sender, and touches no other channel; the frames of all it has delivered are
    what the stream begins with. Pending, it has yielded, which it does only when it
    has just delivered a packet and in its first poll; or it has a timer for its
    deadline (one it had, or 30 seconds from a reading of the clock) and a read was interrupted, or it is registered for more bytes and has
    delivered everything there is in those that have arrived. It ends only because the
    queue of the node is closed and a good packet has come for it; with a verification
    error, the next frame being forged; with a timeout, a deadline it had having
    passed; or with an error the socket itself has given. The poll at or after
    the deadline of the awaited piece is the last, also when that piece has arrived
    in the meantime: the packet is then lost with the link. *)
Theorem recv_task_polls ks0 rd cx0 ds this cx w others :
  ks_wf ks0 → source rd = s → (position rd <= length (arrived s (env cx0)))%nat → is_bytes (arrived s (env cx0)) →
  recv_run (recv_start ks0 rd) cx0 ds this cx → stream_grows s (env cx) (others (env cx)) →
  let cx1 := at_poll w others cx in
  ∃ r this' cx', recv_poll incoming sender_tx mac_key this cx1 = Ret (r, this', cx')
    ∧ (∀ f, deadline_of this = Some f → timeout_at f <= clock cx1 (reads cx1) → r = Ready (Err "Timeout"))
    ∧ ∃ sent, (length sent <= 1)%nat ∧ received incoming sender_tx sent (env cx1) (env cx')
    ∧ let input := drop (position rd) (arrived s (env cx')) in
      (seal_all mac_key ks0 (ds ++ sent)).1 `prefix_of` input
    ∧ match r with
      | Pending =>
          yields sent this cx1 this' cx'
          ∨ sent = [] ∧ timer_set this' cx1 cx' ∧ deadline_kept this cx1 this'
            ∧ (read_interrupted cx1 cx' ∨ input_waits s w (env cx') ∧ framing_says ks0 input ds (Err "read_exact"))
      | Ready (Ok _) => sent = [] ∧ queue_closed (position rd) ks0 ds (env cx')
      | Ready (Err why) => sent = [] ∧ ends_with (framing_says ks0 input ds (Err why)) why this cx1 cx'
      end.
Proof.
  intros Hk Hs Hp Hb Hrun Hg cx1. destruct (recv_run_invariant ks0 rd cx0 ds this cx Hk Hs Hp Hb Hrun) as (Hrec & Harm & _).
  pose proof (receiving_grows _ _ _ _ _ _ Hg Hrec) as Hrec1.
  destruct (recv_poll_ok (position rd) ks0 ds this cx1 Hk Hrec1 Harm) as (r & this' & cx' & Hpoll & Hto).
  exists r, this', cx'. split; [exact Hpoll|]. split.
  { intros f Hf Hle. rewrite (recv_late this f cx1 Hf Hle) in Hpoll. by injection Hpoll as <-. }
  destruct Hto as (_ & _ & _ & Hg1 & sent & Hl & Hsent & Hres). exists sent. split; [done|]. split; [done|]. cbv zeta.
  destruct (receiving_prefix _ _ _ _ _ _ Hrec1 Hg1) as [Hpre Hds]. destruct r as [[[]|why]|].
  - destruct Hres as [Hop ->]. by rewrite app_nil_r.
  - destruct Hres as [-> Hres]. rewrite app_nil_r. split; [done|]. split; [done|].
    destruct Hres as [[-> Ha]|?]; [left; split; [done|]; by apply authentic_says|by right].
  - destruct Hres as (Hrec' & _ & Hdk & Hawait). destruct (receiving_prefix _ _ _ _ _ (env cx') Hrec' ltac:(reflexivity)) as [Hpre' Hds'].
    split; [done|]. destruct Hawait as [?|(-> & Ht & Hwait)]; [by left|right]. split; [done|]. split; [done|]. split; [done|].
    destruct Hwait as [?|[Hin Ha]]; [by left|right]. split; [done|]. by apply authentic_says.
Qed.
End proof.
