(* ===== verification/LinkSend.v ===== *)
(** The sending task of a link, poll by poll ([rust/src/legacy_tcp.rs]).

    [Framing.send_task] says what is put on the wire for a list of packets. Here
    the two sending loops are the state machines they are compiled to: that of
    [connect_impl] yields after it has received a packet, that of
    [handle_connection] before ([yield_first]). The theorem is that the bytes on
    the wire are always a prefix of what [Framing] says of the packets taken from
    the link's channel, all of it whenever the task waits for a packet, and for
    which reasons a poll can be pending or the task end. *)
From S2P Require Import Prelude Gimli Futures Channel AsyncIo Framing LinkRecv.

Section task.
Context {Waker E Wr S C : Type} `{!EqDecision Waker}.
Context `{!AsyncWrite Waker E Wr S, !Mpsc E C bytes, !Receive Waker E C bytes}.
Context (yield_first : bool) (sender_rx : C) (mac_key : bytes).

Definition write_timeout : Z := from_millis 30000.

Inductive SendTask :=
| SdYield (packet : option bytes) (ks : KeystreamGen) (writer : Wr) (yielded : bool)
| SdNext (ks : KeystreamGen) (writer : Wr)
| SdWrite (to_send : bytes) (ks : KeystreamGen) (write : TimeoutFuture (Waker := Waker) Wr)
| SdFlush (ks : KeystreamGen) (writer : Wr)
| SdDone.

Abbreviation Polled := (outcome (Poll unit * SendTask * Cx Waker E)).

(** [yield_now().await], which is pending the first time. *)
Definition send_yield (packet : option bytes) (ks : KeystreamGen) (writer : Wr) (cx : Cx Waker E) : Polled :=
  '(_, yielded, cx) ← yield_poll false cx;
  mret (Pending, SdYield packet ks writer yielded, cx).

(** [sender_rx.next().await], then [got] for the packet. *)
Definition receive_then (got : bytes → KeystreamGen → Wr → Cx Waker E → Polled)
    (ks : KeystreamGen) (writer : Wr) (cx : Cx Waker E) : Polled :=
  let '(r, cx) := next_poll sender_rx cx in
  match r with
  | Pending => mret (Pending, SdNext ks writer, cx)
  | Ready None => mret (Ready tt, SdDone, cx)
  | Ready (Some data) => got data ks writer cx
  end.

Definition connect_next : KeystreamGen → Wr → Cx Waker E → Polled :=
  receive_then (λ data, send_yield (Some data)).

(** The next iteration of the loop. *)
Definition send_again (ks : KeystreamGen) (writer : Wr) (cx : Cx Waker E) : Polled :=
  if yield_first then send_yield None ks writer cx else connect_next ks writer cx.

Definition poll_flush (ks : KeystreamGen) (writer : Wr) (cx : Cx Waker E) : Polled :=
  '(r, writer, cx) ← flush_poll writer cx;
  match r with
  | Pending => mret (Pending, SdFlush ks writer, cx)
  | Ready (Err _) => mret (Ready tt, SdDone, cx)
  | Ready (Ok _) => send_again ks writer cx
  end.

Definition poll_write (to_send : bytes) (ks : KeystreamGen) (write : TimeoutFuture Wr) (cx : Cx Waker E) : Polled :=
  '(r, write, cx) ← asyncwrite_writeall_timeout to_send write cx;
  match r with
  | Pending => mret (Pending, SdWrite to_send ks write, cx)
  | Ready (Err _) => mret (Ready tt, SdDone, cx)
  | Ready (Ok _) => poll_flush ks (future write) cx
  end.

(** What is done with a packet. *)
Definition process (data : bytes) (ks : KeystreamGen) (writer : Wr) (cx : Cx Waker E) : Polled :=
  if decide (data = []) then send_again ks writer cx else
  let '(to_send, ks) := seal mac_key ks data in
  let '(write, cx) := timeout_future writer write_timeout cx in
  poll_write to_send ks write cx.

Definition handle_next : KeystreamGen → Wr → Cx Waker E → Polled := receive_then process.

Definition send_poll : Fut (Waker := Waker) (E := E) SendTask unit := λ this cx,
  match this with
  | SdYield packet ks writer yielded =>
      '(r, yielded, cx) ← yield_poll yielded cx;
      match r with
      | Pending => mret (Pending, SdYield packet ks writer yielded, cx)
      | Ready _ =>
          match packet with
          | None => handle_next ks writer cx
          | Some data => process data ks writer cx
          end
      end
  | SdNext ks writer => if yield_first then handle_next ks writer cx else connect_next ks writer cx
  | SdWrite to_send ks write => poll_write to_send ks write cx
  | SdFlush ks writer => poll_flush ks writer cx
  | SdDone => Panic "`async fn` resumed after completion"
  end.

(** The task before its first poll. *)
Definition send_start (ks : KeystreamGen) (writer : Wr) : SendTask :=
  if yield_first then SdYield None ks writer false else SdNext ks writer.

Definition write_deadline (this : SendTask) : option (TimeoutFuture (Waker := Waker) Wr) :=
  match this with SdWrite _ _ write => Some write | _ => None end.
End task.
Arguments SendTask : clear implicits.

(** ** Every poll *)

Section proof.
Context {Waker E Wr S C : Type} `{!EqDecision Waker, !EqDecision C}.
Context `{write : !AsyncWrite Waker E Wr S, write_laws : !AsyncWriteLaws Waker E Wr S}.
Context `{mpsc : !Mpsc E C bytes, receive : !Receive Waker E C bytes, receive_laws : !ReceiveLaws Waker E C bytes}.
Context `{write_frame : !WriteFrame Waker E Wr S C bytes, receive_frame : !ReceiveFrame Waker E Wr S C bytes}.
Context (yield_first : bool) (sender_rx : C) (mac_key : bytes) (s : S).
Implicit Types (cx : Cx Waker E) (this : SendTask Waker Wr) (ps : list bytes).

(** The frames of the packets among [ps] (the values of the cleaner are not sent),
    and the keystream after them. *)
Definition sealed (ks0 : KeystreamGen) ps : bytes := (seal_all mac_key ks0 (filter (.≠ []) ps)).1.
Definition keystream_after (ks0 : KeystreamGen) ps : KeystreamGen := (seal_all mac_key ks0 (filter (.≠ []) ps)).2.

(** A writer between two writes, with [out] accepted and transmitted. *)
Definition settled (out : bytes) (wr : Wr) (e : E) : Prop :=
  sink wr = s ∧ accepted wr = out ∧ writing [] wr e ∧ transmitted s e = out.

(** [ps] have been taken from the channel since the loop started, with keystream
    [ks0], when [base] had been transmitted. *)
Definition sending (base : bytes) (ks0 : KeystreamGen) ps this (e : E) : Prop :=
  match this with
  | SdNext ks wr => settled (base ++ sealed ks0 ps) wr e ∧ ks = keystream_after ks0 ps
  | SdYield None ks wr _ => settled (base ++ sealed ks0 ps) wr e ∧ ks = keystream_after ks0 ps ∧ yield_first = true
  | SdYield (Some data) ks wr _ =>
      ∃ ps', ps = ps' ++ [data] ∧ settled (base ++ sealed ks0 ps') wr e ∧ ks = keystream_after ks0 ps' ∧ yield_first = false
  | SdWrite to_send ks f =>
      sink (future f) = s ∧ accepted (future f) ++ to_send = base ++ sealed ks0 ps ∧ writing to_send (future f) e
      ∧ ks = keystream_after ks0 ps
  | SdFlush ks wr =>
      sink wr = s ∧ accepted wr = base ++ sealed ks0 ps ∧ writing [] wr e ∧ ks = keystream_after ks0 ps
  | SdDone => False
  end.

Definition write_armed this cx : Prop := ∀ f, write_deadline this = Some f → deadline_armed f cx.

(** *** What a poll did

    The point [cxa] of a poll that began at [cx]. *)
Definition reached (cx cxa : Cx Waker E) : Prop :=
  waker cxa = waker cx ∧ clock cxa = clock cx ∧ (reads cx <= reads cxa)%nat ∧ woken cx `prefix_of` woken cxa.

(** What a write or a flush of the socket gave in this poll: the socket's own error;
    or it is pending though it has woken its task. *)
Definition socket_gave (v : Poll (result unit)) cx cxa cxb cx' : Prop :=
  ∃ wr wr', sink wr = s ∧ reached cx cxa ∧ env cx' = env cxb
    ∧ ((∃ data, write_all_poll data wr cxa = Ret (v, wr', cxb)) ∨ flush_poll wr cxa = Ret (v, wr', cxb)).
Definition socket_failed cx cx' : Prop := ∃ why cxa cxb, socket_gave (Ready (Err why)) cx cxa cxb cx'.
Definition socket_interrupted cx cx' : Prop := ∃ cxa cxb, socket_gave Pending cx cxa cxb cx' ∧ woke cxa cxb ∧ woke cx cx'.

(** The channel said in this poll that it has ended. *)
Definition channel_ended cx cx' : Prop :=
  ∃ cxa cxb, reached cx cxa ∧ next_poll sender_rx cxa = (Ready None, cxb) ∧ env cx' = env cxb.

(** A deadline the poll looks at: one of those it found ([dl]), or 30 seconds after a
    reading of the clock; and that one had passed at a reading in this poll. *)
Definition deadline_from (dl : Z → Prop) cx (t : Z) : Prop :=
  dl t ∨ ∃ k, (reads cx <= k)%nat ∧ t = clock cx k + from_millis 30000.
Definition passed (dl : Z → Prop) cx cx' : Prop :=
  ∃ t k, deadline_from dl cx t ∧ (reads cx <= k < reads cx')%nat ∧ t <= clock cx k.

(** The task has yielded, with everything transmitted except the packet it holds; it
    has taken a packet, or has made progress before. *)
Definition send_yields (progress : Prop) (base : bytes) (ks0 : KeystreamGen) ps (took : list bytes) cx this' cx' : Prop :=
  ∃ packet ks wr before, this' = SdYield packet ks wr true ∧ woke cx cx' ∧ ps ++ took = before ++ option_list packet
    ∧ transmitted s (env cx') = base ++ sealed ks0 before ∧ (took ≠ [] ∨ progress).

(** Why a task is pending: it has yielded; it waits for a packet, everything before
    having been transmitted; or a write or flush was interrupted or waits for the
    socket, and then, except in a flush, for its deadline. *)
Definition send_awaits (progress : Prop) (base : bytes) (ks0 : KeystreamGen) ps (took : list bytes) cx this' cx' : Prop :=
  let w := waker cx in
  send_yields progress base ks0 ps took cx this' cx'
  ∨ (queued (env cx') sender_rx = [] ∧ value_waits sender_rx w (env cx') ∧ transmitted s (env cx') = base ++ sealed ks0 (ps ++ took))
  ∨ (((∃ f, write_deadline this' = Some f ∧ (timeout_at f, w) ∈ sleep_register cx') ∨ ∃ ks wr, this' = SdFlush ks wr)
     ∧ (socket_interrupted cx cx' ∨ output_waits s w (env cx'))).

(** Why it has ended: so has the channel, and all it gave has been transmitted; a
    write was not done in time; or the socket has failed. *)
Definition send_ends (dl : Z → Prop) (base : bytes) (ks0 : KeystreamGen) ps (took : list bytes) cx cx' : Prop :=
  channel_ended cx cx' ∧ queued (env cx') sender_rx = [] ∧ transmitted s (env cx') = base ++ sealed ks0 (ps ++ took)
  ∨ passed dl cx cx' ∨ socket_failed cx cx'.

(** What (a part of) a poll does besides its result: it takes at most [k] packets
    from the channel, and transmits nothing but the frames of what was taken. *)
Definition send_polled_to (k : nat) (dl : Z → Prop) (progress : Prop) (base : bytes) (ks0 : KeystreamGen) ps cx (r : Poll unit) this' cx' : Prop :=
  waker cx' = waker cx ∧ clock cx' = clock cx ∧ sleep_register cx `prefix_of` sleep_register cx'
  ∧ (∀ c : C, is_open (env cx') c = is_open (env cx) c) ∧ (∀ c : C, c ≠ sender_rx → queued (env cx') c = queued (env cx) c)
  ∧ ∃ took, (length took <= k)%nat ∧ queued (env cx) sender_rx = took ++ queued (env cx') sender_rx
    ∧ transmitted s (env cx) `prefix_of` transmitted s (env cx')
    ∧ transmitted s (env cx') `prefix_of` base ++ sealed ks0 (ps ++ took)
    ∧ match r with
      | Pending => sending base ks0 (ps ++ took) this' (env cx') ∧ write_armed this' cx'
          ∧ (∀ f', write_deadline this' = Some f' → deadline_from dl cx (timeout_at f'))
          ∧ send_awaits progress base ks0 ps took cx this' cx'
      | Ready _ => send_ends dl base ks0 ps took cx cx'
      end.

(** What the polls of the writer leave as it is. *)
Definition unseen (cx cx' : Cx Waker E) : Prop :=
  reached cx cx' ∧ sleep_register cx `prefix_of` sleep_register cx'
  ∧ (∀ c : C, queued (env cx') c = queued (env cx) c ∧ is_open (env cx') c = is_open (env cx) c)
  ∧ transmitted s (env cx) `prefix_of` transmitted s (env cx').

#[export] Instance reached_refl : Reflexive reached.
Proof. intros a. by split_and!. Qed.
#[export] Instance reached_trans : Transitive reached.
Proof. intros a b c (?&?&?&?) (?&?&?&?). split_and!; [congruence|congruence|lia|by etransitivity]. Qed.
#[export] Instance unseen_refl : Reflexive unseen.
Proof. intros a. by split. Qed.
#[export] Instance unseen_trans : Transitive unseen.
Proof.
  intros a b c (?&?&HA&?) (?&?&HB&?). split; [by etransitivity|]. split; [by etransitivity|]. split; [|by etransitivity].
  intros x. destruct (HA x), (HB x). split; congruence.
Qed.
Lemma instant_now_unseen cx : unseen cx (instant_now cx).2.
Proof. split; [split_and!; cbn; [done|done|lia|done]|done]. Qed.

Lemma wake_unseen cx : unseen cx (wake_by_ref cx).
Proof. split; [split_and!; cbn; [done|done|lia|by apply prefix_app_r]|done]. Qed.

(** What happened in the rest of a poll happened in the poll. *)
Lemma woke_reached cx cx1 cx' : reached cx cx1 → woke cx1 cx' → woke cx cx'.
Proof. intros (H1 & _ & _ & H2). by apply woke_mono. Qed.
Lemma socket_gave_later v cx cx1 cxa cxb cx' : reached cx cx1 → socket_gave v cx1 cxa cxb cx' → socket_gave v cx cxa cxb cx'.
Proof. intros Hr (wr & wr' & Hs & Ha & H). exists wr, wr'. split; [done|]. split; [by etransitivity|done]. Qed.
Lemma socket_failed_later cx cx1 cx' : reached cx cx1 → socket_failed cx1 cx' → socket_failed cx cx'.
Proof. intros Hr (why & cxa & cxb & H). exists why, cxa, cxb. by eapply socket_gave_later. Qed.
Lemma socket_interrupted_later cx cx1 cx' : reached cx cx1 → socket_interrupted cx1 cx' → socket_interrupted cx cx'.
Proof.
  intros Hr (cxa & cxb & H & Hw & Hw'). exists cxa, cxb. split; [by eapply socket_gave_later|]. split; [done|by eapply woke_reached].
Qed.
Lemma deadline_from_later (dl dl1 : Z → Prop) cx cx1 t :
  reached cx cx1 → (∀ t, dl1 t → deadline_from dl cx t) → deadline_from dl1 cx1 t → deadline_from dl cx t.
Proof.
  intros (_ & Hc & Hr & _) Hdl [?|(k & Hk & ->)]; [by apply Hdl|]. right. exists k. rewrite Hc. split; [lia|done].
Qed.
Lemma passed_later (dl dl1 : Z → Prop) cx cx1 cx' :
  reached cx cx1 → (∀ t, dl1 t → deadline_from dl cx t) → passed dl1 cx1 cx' → passed dl cx cx'.
Proof.
  intros Hre Hdl (t & k & Ht & Hk & Hle). exists t, k. split; [by eapply deadline_from_later|].
  destruct Hre as (_ & Hc & Hr & _). rewrite Hc in Hle. split; [lia|done].
Qed.
Lemma channel_ended_later cx cx1 cx' : reached cx cx1 → channel_ended cx1 cx' → channel_ended cx cx'.
Proof. intros Hr (cxa & cxb & Ha & H). exists cxa, cxb. split; [by etransitivity|done]. Qed.

Lemma sealed_snoc ks0 ps data :
  sealed ks0 (ps ++ [data]) =
    sealed ks0 ps ++ (if decide (data = []) then [] else (seal mac_key (keystream_after ks0 ps) data).1)
  ∧ keystream_after ks0 (ps ++ [data]) =
      (if decide (data = []) then keystream_after ks0 ps else (seal mac_key (keystream_after ks0 ps) data).2).
Proof.
  unfold sealed, keystream_after. rewrite list.filter_app, filter_cons, filter_nil. destruct (decide (data = [])) as [->|Hd].
  - rewrite (decide_False (P := [] ≠ [])) by tauto. by rewrite !app_nil_r.
  - rewrite (decide_True (P := data ≠ [])) by done. by rewrite seal_all_snoc.
Qed.

Lemma settled_kept out wr (e e' : E) : transmitted s e' = transmitted s e → settled out wr e → settled out wr e'.
Proof. intros He (Hs & Ha & Hw & Ht). split_and!; [done|done|eapply writing_kept; [|done]; by rewrite Hs|congruence]. Qed.

Lemma sending_kept base ks0 ps this (e e' : E) :
  transmitted s e' = transmitted s e → sending base ks0 ps this e → sending base ks0 ps this e'.
Proof.
  intros He. destruct this as [[data|] ks wr y|ks wr|to_send ks f|ks wr|]; cbn [sending]; [..|done].
  - intros (ps' & -> & H & -> & Hy). exists ps'. split; [done|]. split; [by eapply settled_kept|done].
  - intros (H & -> & Hy). split; [by eapply settled_kept|done].
  - intros [H ->]. split; [by eapply settled_kept|done].
  - intros (Hs & Ha & Hw & ->). split_and!; [done|done|eapply writing_kept; [|done]; by rewrite Hs|done].
  - intros (Hs & Ha & Hw & ->). split_and!; [done|done|eapply writing_kept; [|done]; by rewrite Hs|done].
Qed.

(** The result of the rest of a poll, [a] having been taken before. *)
Lemma send_awaits_later (progress progress1 : Prop) base ks0 ps a took cx cx1 this' cx' :
  reached cx cx1 → (progress1 → a ≠ [] ∨ progress) →
  send_awaits progress1 base ks0 (ps ++ a) took cx1 this' cx' → send_awaits progress base ks0 ps (a ++ took) cx this' cx'.
Proof.
  intros Hre Hpr. pose proof Hre as (Hw & _). unfold send_awaits. rewrite Hw, (assoc_L (++)).
  intros [(packet & ks & wr & before & -> & Hwo & Hb & Ht & Hp)|[?|[Hd Hs]]]; [left|by right; left|right; right].
  - exists packet, ks, wr, before. rewrite (assoc_L (++)). split_and!; [done|by eapply woke_reached|done|done|].
    destruct a as [|x a]; [|by left]. destruct Hp as [?|?]; [by left|]. by destruct (Hpr ltac:(done)); [|right].
  - split; [done|]. destruct Hs as [?|?]; [left; by eapply socket_interrupted_later|by right].
Qed.

Lemma send_ends_later (dl dl1 : Z → Prop) base ks0 ps a took cx cx1 cx' :
  reached cx cx1 → (∀ t, dl1 t → deadline_from dl cx t) →
  send_ends dl1 base ks0 (ps ++ a) took cx1 cx' → send_ends dl base ks0 ps (a ++ took) cx cx'.
Proof.
  intros Hre Hdl. unfold send_ends. rewrite (assoc_L (++)). intros [(? & ? & ?)|[?|?]];
    [left; split; [by eapply channel_ended_later|done]|right; left; by eapply passed_later|right; right; by eapply socket_failed_later].
Qed.

Lemma send_polled_later k (dl dl1 : Z → Prop) (progress progress1 : Prop) base ks0 ps cx cx1 r this' cx' :
  unseen cx cx1 → (∀ t, dl1 t → deadline_from dl cx t) → (progress1 → progress) →
  send_polled_to k dl1 progress1 base ks0 ps cx1 r this' cx' → send_polled_to k dl progress base ks0 ps cx r this' cx'.
Proof.
  intros (Hre & Hs & Hq & Ht) Hdl Hpr (Hw' & Hc' & Hs' & Ho' & Hq' & took & Hl & Htook & Ht' & Hp & Hr).
  pose proof Hre as (Hw & Hc & _).
  split_and!; [congruence|congruence|by etransitivity|intros c; rewrite Ho'; apply Hq|intros c Hne; rewrite Hq' by done; apply Hq|].
  exists took. split; [done|]. split; [rewrite <- Htook; symmetry; apply Hq|]. split; [by etransitivity|]. split; [done|].
  rewrite <- (app_nil_r ps) in Hr. destruct r; [by eapply (send_ends_later dl dl1 base ks0 ps [])|].
  rewrite (app_nil_r ps) in Hr at 1. destruct Hr as (H1 & H2 & H3 & H4). split; [done|]. split; [done|].
  split; [intros f Hf; by eapply deadline_from_later; [..|apply H3]|].
  apply (send_awaits_later progress progress1 base ks0 ps [] took cx cx1); [done|by right; auto|done].
Qed.

Lemma send_polled_unseen k dl progress base ks0 ps cx cx1 r this' cx' :
  unseen cx cx1 → send_polled_to k dl progress base ks0 ps cx1 r this' cx' → send_polled_to k dl progress base ks0 ps cx r this' cx'.
Proof. intros Hu. apply send_polled_later; [done|by left|done]. Qed.

(** A part that takes nothing and stays pending, or ends the task. *)
Lemma send_polled_nothing k dl progress base ks0 ps cx r this' cx' :
  unseen cx cx' → transmitted s (env cx') `prefix_of` base ++ sealed ks0 ps →
  match r with
  | Pending => sending base ks0 ps this' (env cx') ∧ write_armed this' cx'
      ∧ (∀ f', write_deadline this' = Some f' → deadline_from dl cx (timeout_at f'))
      ∧ send_awaits progress base ks0 ps [] cx this' cx'
  | Ready _ => send_ends dl base ks0 ps [] cx cx'
  end → send_polled_to k dl progress base ks0 ps cx r this' cx'.
Proof.
  intros ((Hw & Hc & _) & Hs & Hq & Ht) Hp Hr. split_and!; [done|done|done|intros c; apply Hq|intros c _; apply Hq|].
  exists []. rewrite app_nil_r. split_and!; [cbn; lia|symmetry; apply Hq|done|done|done].
Qed.

(** Taking a packet first. *)
Lemma took_then k dl progress base ks0 ps a cx cx1 r this' cx' :
  next_poll sender_rx cx = (Ready (Some a), cx1) →
  send_polled_to k dl True base ks0 (ps ++ [a]) cx1 r this' cx' → send_polled_to (Datatypes.S k) dl progress base ks0 ps cx r this' cx'.
Proof.
  intros Hn (Hw' & Hc' & Hs' & Ho' & Hq' & took & Hl & Htook & Ht' & Hp & Hr).
  pose proof (next_transmitted s _ _ _ _ Hn) as Ht.
  apply next_value_laws in Hn as ((Hw & Hc & Hrd & Hs & Hwo) & Hq & Ho & Hv).
  assert (Hre : reached cx cx1) by (split_and!; [done|done|lia|done]).
  split_and!; [congruence|congruence|by rewrite <- Hs|intros c; by rewrite Ho', Ho|intros c Hne; by rewrite Hq', Hq|].
  exists (a :: took). rewrite <- Ht. assert (E0 : ps ++ a :: took = (ps ++ [a]) ++ took) by by rewrite <- app_assoc.
  rewrite E0. split_and!; [cbn; lia|by rewrite Hv, Htook|done|done|].
  assert (Hdl : ∀ t, dl t → deadline_from dl cx t) by by left.
  destruct r; [by apply (send_ends_later dl dl base ks0 ps [a] took cx cx1)|]. destruct Hr as (H1 & H2 & H3 & H4).
  split; [done|]. split; [done|]. split; [intros f Hf; eapply deadline_from_later; [done|done|by apply H3]|].
  by apply (send_awaits_later progress True base ks0 ps [a] took cx cx1); [|left|].
Qed.

Lemma receive_then_ok got k dl progress base ks0 ps wr cx :
  settled (base ++ sealed ks0 ps) wr (env cx) →
  (∀ data cx1, settled (base ++ sealed ks0 ps) wr (env cx1) →
     ∃ r this' cx', got data (keystream_after ks0 ps) wr cx1 = Ret (r, this', cx')
       ∧ send_polled_to k dl True base ks0 (ps ++ [data]) cx1 r this' cx') →
  ∃ r this' cx', receive_then sender_rx got (keystream_after ks0 ps) wr cx = Ret (r, this', cx')
    ∧ send_polled_to (Datatypes.S k) dl progress base ks0 ps cx r this' cx'.
Proof.
  intros Hset Hgot. unfold receive_then. destruct (next_poll sender_rx cx) as [r cx1] eqn:Hn.
  pose proof (next_transmitted s _ _ _ _ Hn) as Ht. pose proof (settled_kept _ _ _ _ Ht Hset) as Hset1.
  destruct r as [[data|]|].
  - destruct (Hgot data cx1 Hset1) as (r & this' & cx' & Hp & Hto). exists r, this', cx'. split; [done|]. by eapply took_then.
  - pose proof Hn as ((Hw & Hc & Hrd & Hs & Hwo) & Hq & Ho & Hv1 & Hv2)%next_value_laws. eexists _, _, _. split; [reflexivity|].
    pose proof Hset1 as (_ & _ & _ & Htr). apply send_polled_nothing; [|by rewrite Htr|].
    + split; [by split_and!; [..|lia|]|]. split; [by rewrite Hs|]. split; [|by rewrite Ht].
      intros c. split; [|done]. destruct (decide (c = sender_rx)) as [->|]; [congruence|by apply Hq].
    + left. rewrite app_nil_r. split_and!; [|done|done]. exists cx, cx1. by split_and!.
  - apply next_value_laws in Hn as ((Hw & Hc & Hrd & Hs & Hwo) & Hq & Ho & Hv1 & Hv2 & Hv3). eexists _, _, _. split; [reflexivity|].
    pose proof Hset1 as (_ & _ & _ & Htr). apply send_polled_nothing; [|by rewrite Htr|].
    + split; [by split_and!; [..|lia|]|]. split; [by rewrite Hs|]. split; [|by rewrite Ht].
      intros c. split; [|done]. destruct (decide (c = sender_rx)) as [->|]; [congruence|by apply Hq].
    + split; [by split|]. split; [by intros f [=]|]. split; [by intros f [=]|]. right. left. by rewrite app_nil_r.
Qed.

Lemma sealed_prefix ks0 ps data : sealed ks0 ps `prefix_of` sealed ks0 (ps ++ [data]).
Proof. rewrite (proj1 (sealed_snoc ks0 ps data)). by apply prefix_app_r. Qed.

Lemma send_yield_ok k dl (progress : Prop) base ks0 ps packet ks wr cx :
  sending base ks0 ps (SdYield packet ks wr true) (env cx) → progress →
  ∃ r this' cx', send_yield packet ks wr cx = Ret (r, this', cx') ∧ send_polled_to k dl progress base ks0 ps cx r this' cx'.
Proof.
  intros Hs Hpr. eexists _, _, _. split; [reflexivity|].
  assert (Hb : ∃ before, ps = before ++ option_list packet ∧ transmitted s (env cx) = base ++ sealed ks0 before
    ∧ sealed ks0 before `prefix_of` sealed ks0 ps).
  { destruct packet as [data|]; cbn [sending option_list] in *.
    - destruct Hs as (ps' & -> & (_ & _ & _ & ->) & _). exists ps'. split_and!; [done|done|apply sealed_prefix].
    - destruct Hs as ((_ & _ & _ & ->) & _). exists ps. by rewrite app_nil_r. }
  destruct Hb as (before & Hb & Ht & Hp). apply send_polled_nothing; [apply wake_unseen| |].
  - cbn [wake_by_ref env]. rewrite Ht. by apply prefix_app.
  - split; [exact Hs|]. split; [by intros f [=]|]. split; [by intros f [=]|]. left. exists packet, ks, wr, before.
    rewrite app_nil_r. split_and!; [done| |done|done|by right]. exists [waker cx]. split; [done|by apply list_elem_of_here].
Qed.

Lemma connect_next_ok dl progress base ks0 ps wr cx :
  yield_first = false → settled (base ++ sealed ks0 ps) wr (env cx) →
  ∃ r this' cx', connect_next sender_rx (keystream_after ks0 ps) wr cx = Ret (r, this', cx')
    ∧ send_polled_to 1 dl progress base ks0 ps cx r this' cx'.
Proof.
  intros Hy Hset. apply (receive_then_ok _ 0); [done|]. intros data cx1 Hset1. apply send_yield_ok; [|done].
  exists ps. by split_and!.
Qed.

Definition spare : nat := if yield_first then 0 else 1.

Lemma send_again_ok dl (progress : Prop) base ks0 ps wr cx :
  (yield_first = true → progress) → settled (base ++ sealed ks0 ps) wr (env cx) →
  ∃ r this' cx', send_again yield_first sender_rx (keystream_after ks0 ps) wr cx = Ret (r, this', cx')
    ∧ send_polled_to spare dl progress base ks0 ps cx r this' cx'.
Proof.
  intros Hpr Hset. unfold send_again, spare. destruct yield_first eqn:Hy; [|by apply connect_next_ok].
  apply send_yield_ok; [by split|by apply Hpr].
Qed.

Lemma poll_flush_ok dl (progress : Prop) base ks0 ps wr cx :
  (yield_first = true → progress) → sending base ks0 ps (SdFlush (keystream_after ks0 ps) wr) (env cx) →
  ∃ r this' cx', poll_flush yield_first sender_rx (keystream_after ks0 ps) wr cx = Ret (r, this', cx')
    ∧ send_polled_to spare dl progress base ks0 ps cx r this' cx'.
Proof.
  intros Hpr (Hs & Ha & Hwr & _). unfold poll_flush.
  destruct (flush_returns wr cx Hwr) as (r & wr' & cx1 & Hf & (Hw & Hc & Hrd & Hsl & Hwo) & Hsink & Ht & Hp & Hres).
  rewrite Hf. cbn [mbind outcome_bind]. rewrite Hs in Hsink, Ht, Hp, Hres.
  assert (Hu : unseen cx cx1).
  { split; [split_and!; [done|done|lia|done]|]. split; [by rewrite Hsl|]. split; [intros c; by eapply flush_queued|done]. }
  assert (Hgave : socket_gave r cx cx cx1 cx1) by (exists wr, wr'; split_and!; [done|done|done|by right]).
  destruct r as [[[]|why]|].
  - destruct Hres as (Ha' & Hwr' & Htr).
    destruct (send_again_ok dl progress base ks0 ps wr' cx1) as (r & this' & cx' & Hagain & Hto); [done|by split_and!; congruence|].
    exists r, this', cx'. split; [exact Hagain|]. by eapply send_polled_unseen.
  - eexists _, _, _. split; [reflexivity|]. apply send_polled_nothing; [done|by rewrite <- Ha|].
    right. right. by exists why, cx, cx1.
  - destruct Hres as (Ha' & Hwr' & Hwait). eexists _, _, _. split; [reflexivity|].
    apply send_polled_nothing; [done|by rewrite <- Ha|]. split; [by split_and!; congruence|]. split; [by intros f [=]|].
    split; [by intros f [=]|]. right. right. split; [right; eauto|]. destruct Hwait as [?|?]; [left|by right]. by exists cx, cx1.
Qed.

(** A write with its deadline. *)
Lemma timed_write data (f : TimeoutFuture (Waker := Waker) Wr) cx :
  sink (future f) = s → writing data (future f) (env cx) → deadline_armed f cx →
  ∃ r f' cx', asyncwrite_writeall_timeout data f cx = Ret (r, f', cx') ∧ unseen cx cx'
    ∧ transmitted s (env cx') `prefix_of` accepted (future f) ++ data
    ∧ match r with
      | Ready (Ok _) => sink (future f') = s ∧ accepted (future f') = accepted (future f) ++ data ∧ writing [] (future f') (env cx')
      | Ready (Err _) => timeout_at f <= clock cx (reads cx) ∧ (reads cx < reads cx')%nat ∨ socket_failed cx cx'
      | Pending => sink (future f') = s ∧ accepted (future f') = accepted (future f) ∧ writing data (future f') (env cx')
          ∧ timeout_at f' = timeout_at f ∧ deadline_armed f' cx' ∧ (timeout_at f', waker cx) ∈ sleep_register cx'
          ∧ (socket_interrupted cx cx' ∨ output_waits s (waker cx) (env cx'))
      end.
Proof.
  intros Hs Hw Harm. destruct (decide (timeout_at f <= clock cx (reads cx))) as [Hle|Hlt].
  { eexists _, _, _. split; [by apply within_late|]. split; [apply instant_now_unseen|]. split; [|left; split; [done|cbn; lia]].
    rewrite <- Hs. by apply writing_prefix. }
  destruct (write_all_returns data (future f) (instant_now cx).2 Hw) as (r & wr' & cx1 & Hf & Hk & Hsink & Ht & Hp & Hres).
  destruct (within_inner (write_all_poll data) f cx r wr' cx1 ltac:(lia) Hf Hk)
    as (f' & cx2 & Hwith & Hfut & Hat & Hwk & Hc & Hr & Hwo & Henv & Hsl & Harm').
  assert (Hgave : socket_gave r cx (instant_now cx).2 cx1 cx2).
  { exists (future f), wr'. split_and!; [done|apply instant_now_unseen|done|left; by exists data]. }
  rewrite Hs in Hsink, Ht, Hp, Hres. rewrite <- Henv in Ht, Hp, Hres. rewrite <- Hfut in Hsink, Hres.
  exists r, f', cx2. split; [exact Hwith|]. split; [|split; [done|]].
  { split; [split_and!; [done|done|lia|rewrite Hwo; apply Hk]|]. split; [done|]. split; [|done].
    intros c. rewrite Henv. by apply (write_queued _ _ _ _ _ _ c Hf). }
  destruct (Harm' Harm) as [Harm2 Htimer]. destruct r as [[[]|why]|];
    [by destruct Hres; split_and!|right; by exists why, (instant_now cx).2, cx1|].
  destruct Hres as (Ha & Hwr & Hwait). split_and!; [done|done|done|done|done|rewrite Hat; by apply Htimer|].
  destruct Hwait as [(l & Hl & Hin)|?]; [left|by right]. exists (instant_now cx).2, cx1. split; [done|].
  split; exists l; [done|by rewrite Hwo].
Qed.

Lemma sd_write_ok (dl : Z → Prop) (progress : Prop) base ks0 ps to_send f cx :
  (yield_first = true → progress) → dl (timeout_at f) →
  sending base ks0 ps (SdWrite to_send (keystream_after ks0 ps) f) (env cx) → deadline_armed f cx →
  ∃ r this' cx', poll_write yield_first sender_rx to_send (keystream_after ks0 ps) f cx = Ret (r, this', cx')
    ∧ send_polled_to spare dl progress base ks0 ps cx r this' cx'.
Proof.
  intros Hpr Hdl (Hs & Ha & Hwr & _) Harm.
  destruct (timed_write to_send f cx Hs Hwr Harm) as (r & f' & cx1 & Hf & Hu & Hp & Hres). rewrite Ha in Hp.
  unfold poll_write. rewrite Hf. cbn [mbind outcome_bind]. destruct r as [[[]|why]|].
  - destruct Hres as (H1 & H2 & H3). destruct (poll_flush_ok dl progress base ks0 ps (future f') cx1 Hpr) as (r & this' & cx' & Hfl & Hto).
    { split_and!; [done|congruence|done|done]. }
    exists r, this', cx'. split; [exact Hfl|]. by eapply send_polled_unseen.
  - eexists _, _, _. split; [reflexivity|]. apply send_polled_nothing; [done|done|]. right.
    destruct Hres as [[Hle Hlt]|?]; [left|by right]. exists (timeout_at f), (reads cx). split_and!; [by left|lia|lia|done].
  - destruct Hres as (H1 & H2 & H3 & H4 & H5 & H6 & H7). eexists _, _, _. split; [reflexivity|].
    apply send_polled_nothing; [done|done|]. split; [by split_and!; congruence|]. split; [by intros f0 [= <-]|].
    split; [intros f0 [= <-]; left; by rewrite H4|]. right. right. split; [left; by exists f'|exact H7].
Qed.

Lemma process_ok dl (progress : Prop) base ks0 ps data wr cx :
  (yield_first = true → progress) → settled (base ++ sealed ks0 ps) wr (env cx) →
  ∃ r this' cx', process yield_first sender_rx mac_key data (keystream_after ks0 ps) wr cx = Ret (r, this', cx')
    ∧ send_polled_to spare dl progress base ks0 (ps ++ [data]) cx r this' cx'.
Proof.
  intros Hpr Hset. pose proof (sealed_snoc ks0 ps data) as [Hsn Hkn]. unfold process. destruct (decide (data = [])) as [->|Hd].
  - rewrite app_nil_r in Hsn. rewrite <- Hkn. apply send_again_ok; [done|]. by rewrite Hsn.
  - destruct (seal mac_key (keystream_after ks0 ps) data) as [to_send ks]. cbn [fst snd] in Hsn, Hkn. subst ks.
    unfold timeout_future, instant_now. destruct Hset as (Hs & Ha & Hwr & Ht).
    match goal with |- context [poll_write _ _ _ _ ?f ?c] =>
      destruct (sd_write_ok (λ t, t = timeout_at f) progress base ks0 (ps ++ [data]) to_send f c Hpr eq_refl) as (r & this' & cx' & Hp & Hto) end.
    { split_and!; [done|cbn; by rewrite Ha, Hsn, app_assoc|by apply writing_starts|done]. }
    { by intros w [=]. }
    exists r, this', cx'. split; [exact Hp|]. revert Hto. apply send_polled_later; [apply instant_now_unseen| |done]. intros t ->.
    right. by exists (reads cx).
Qed.

Lemma send_polled_more k k' dl progress base ks0 ps cx r this' cx' :
  (k <= k')%nat → send_polled_to k dl progress base ks0 ps cx r this' cx' → send_polled_to k' dl progress base ks0 ps cx r this' cx'.
Proof.
  intros Hk (Hw & Hc & Hs & Ho & Hq & took & Hl & H). split_and!; [done|done|done|done|done|]. exists took. split; [lia|done].
Qed.

(** What a whole poll starts with: the deadline of its write; and it is progress
    that a frame is being written, or that the task has not yielded yet. *)
Definition found this (t : Z) : Prop := ∃ f, write_deadline this = Some f ∧ t = timeout_at f.
Definition under_way this : Prop :=
  match this with SdWrite _ _ _ | SdFlush _ _ | SdYield _ _ _ false => True | _ => False end.

Lemma send_poll_ok base ks0 ps this cx :
  sending base ks0 ps this (env cx) → write_armed this cx →
  ∃ r this' cx', send_poll yield_first sender_rx mac_key this cx = Ret (r, this', cx')
    ∧ send_polled_to 1 (found this) (under_way this) base ks0 ps cx r this' cx'.
Proof.
  intros Hsend Harm. set (dl := found this). set (progress := under_way this).
  assert (Hmore : ∀ poll : outcome (Poll unit * SendTask Waker Wr * Cx Waker E),
    (∃ r this' cx', poll = Ret (r, this', cx') ∧ send_polled_to spare dl progress base ks0 ps cx r this' cx') →
    ∃ r this' cx', poll = Ret (r, this', cx') ∧ send_polled_to 1 dl progress base ks0 ps cx r this' cx').
  { intros poll (r & this' & cx' & Hp & Hto). exists r, this', cx'. split; [done|]. eapply send_polled_more; [|exact Hto].
    unfold spare. destruct yield_first; lia. }
  assert (Hhandle : ∀ wr cx, yield_first = true → settled (base ++ sealed ks0 ps) wr (env cx) →
    ∃ r this' cx', handle_next yield_first sender_rx mac_key (keystream_after ks0 ps) wr cx = Ret (r, this', cx')
      ∧ send_polled_to 1 dl progress base ks0 ps cx r this' cx').
  { intros wr cx0 Hy Hset. apply (receive_then_ok _ 0); [done|]. intros data cx1 Hset1.
    pose proof (process_ok dl True base ks0 ps data wr cx1 (λ _, I) Hset1) as H. unfold spare in H. by rewrite Hy in H |- *. }
  destruct this as [packet ks wr y|ks wr|to_send ks f|ks wr|]; cbn [send_poll]; [..|done].
  - destruct y; cbn [yield_poll mbind outcome_bind mret outcome_ret].
    + destruct packet as [data|].
      * destruct Hsend as (ps' & -> & Hset & -> & Hy). apply Hmore, process_ok; [by rewrite Hy|done].
      * destruct Hsend as (Hset & -> & Hy). by apply Hhandle.
    + by apply (send_yield_ok 1 dl progress base ks0 ps packet ks wr cx).
  - destruct Hsend as [Hset ->]. destruct (bool_decide_reflect (yield_first = true)) as [Hy|Hy]; [|apply not_true_is_false in Hy].
    + pose proof (Hhandle wr cx Hy Hset) as H. by rewrite Hy in H |- *.
    + pose proof (connect_next_ok dl progress base ks0 ps wr cx Hy Hset) as H. by rewrite Hy.
  - pose proof Hsend as (_ & _ & _ & ->). apply Hmore, sd_write_ok; [done|by exists f|done|by apply Harm].
  - pose proof Hsend as (_ & _ & _ & ->). by apply Hmore, poll_flush_ok.
Qed.

(** ** Runs

    Polls one after the other, each pending. Between them nobody else writes to the
    socket, and others may put packets in the channel: [offered] are all that have
    been in it since the start, of which [ps] have been taken. *)
Inductive send_run (this0 : SendTask Waker Wr) (cx0 : Cx Waker E) :
    list bytes → list bytes → SendTask Waker Wr → Cx Waker E → Prop :=
| send_run_start : send_run this0 cx0 (queued (env cx0) sender_rx) [] this0 cx0
| send_run_poll offered more ps took this cx w others this' cx' :
    send_run this0 cx0 offered ps this cx →
    transmitted s (others (env cx)) = transmitted s (env cx) →
    queued (others (env cx)) sender_rx = queued (env cx) sender_rx ++ more →
    send_poll yield_first sender_rx mac_key this (at_poll w others cx) = Ret (Pending, this', cx') →
    queued (others (env cx)) sender_rx = took ++ queued (env cx') sender_rx →
    send_run this0 cx0 (offered ++ more) (ps ++ took) this' cx'.

Lemma send_run_invariant ks0 wr cx0 offered ps this cx :
  settled (accepted wr) wr (env cx0) →
  send_run (send_start yield_first ks0 wr) cx0 offered ps this cx →
  sending (accepted wr) ks0 ps this (env cx) ∧ write_armed this cx ∧ offered = ps ++ queued (env cx) sender_rx.
Proof.
  intros Hset. induction 1 as [|offered more ps took this cx w others this' cx' Hrun (Hsend & Harm & Hoff) Htr Hmore Hpoll Htook].
  - unfold send_start. assert (E0 : accepted wr ++ sealed ks0 [] = accepted wr) by apply app_nil_r.
    destruct yield_first eqn:Hy; (split; [|by split; [intros f [=]|]]); cbn [sending]; by rewrite E0.
  - destruct (send_poll_ok (accepted wr) ks0 ps this (at_poll w others cx)) as (r & this1 & cx1 & Hpoll1 & Hto);
      [by eapply sending_kept|done|]. rewrite Hpoll in Hpoll1. injection Hpoll1 as <- <- <-.
    destruct Hto as (_ & _ & _ & _ & _ & took1 & _ & Htook1 & _ & _ & Hsend1 & Harm1 & _).
    cbn in Htook1. rewrite Htook in Htook1. apply app_inv_tail in Htook1 as <-. split_and!; [done|done|].
    by rewrite Hoff, <- !app_assoc, <- Hmore, Htook.
Qed.

Lemma sealed_frames ks0 ps : concat (send_task (λ _, true) 0 mac_key ks0 ps) = sealed ks0 ps.
Proof.
  revert ks0. induction ps as [|p ps IH]; intros ks0; [done|]. unfold sealed in *. rewrite filter_cons.
  destruct (decide (p = [])) as [->|Hp].
  - rewrite (decide_False (P := [] ≠ [])) by tauto. by rewrite send_task_cons_empty.
  - rewrite (decide_True (P := p ≠ [])) by done. rewrite send_task_cons by done. cbn [concat seal_all].
    rewrite (send_task_index 1 0), IH. destruct (seal mac_key ks0 p) as [f ks]. cbn. by destruct (seal_all mac_key ks (filter _ ps)).
Qed.

(** C18. The sending task of a link puts on the wire, poll by poll, what
    [Framing.send_task] says. After any run of polls, the packets taken from the
    link's channel are the first of those ever offered, in order; the next poll
    does not panic, takes at most one more and touches no other channel; what has
    been transmitted since the start is a prefix of the frames of the packets
    taken, and only grows. Pending, the task has yielded, with everything but the
    packet it holds on the wire, and having taken a packet or finished a frame in
    this poll (or in its first poll); or it is registered with the empty channel
    and all it has taken is on the wire; or its write or flush waits for the socket
    or was interrupted, and a write has a timer for its deadline, the one it had or
    30 seconds from a reading of the clock. It ends only when the channel has ended,
    with all it gave on the wire, when the deadline of a write has passed, or when a
    write or a flush of the socket fails; and a write still waiting at its deadline
    does end it. *)
Theorem send_task_polls ks0 wr cx0 offered ps this cx w others more :
  settled (accepted wr) wr (env cx0) →
  send_run (send_start yield_first ks0 wr) cx0 offered ps this cx →
  transmitted s (others (env cx)) = transmitted s (env cx) →
  queued (others (env cx)) sender_rx = queued (env cx) sender_rx ++ more →
  let cx1 := at_poll w others cx in
  let wire ps := accepted wr ++ concat (send_task (λ _, true) 0 mac_key ks0 ps) in
  let deadline := deadline_from (found this) cx1 in
  ∃ r this' cx' took, send_poll yield_first sender_rx mac_key this cx1 = Ret (r, this', cx')
    ∧ (length took <= 1)%nat ∧ offered ++ more = (ps ++ took) ++ queued (env cx') sender_rx
    ∧ (∀ c, c ≠ sender_rx → queued (env cx') c = queued (env cx1) c)
    ∧ transmitted s (env cx) `prefix_of` transmitted s (env cx')
    ∧ transmitted s (env cx') `prefix_of` wire (ps ++ took)
    ∧ (∀ f, write_deadline this = Some f → timeout_at f <= clock cx1 (reads cx1) → r = Ready tt)
    ∧ match r with
      | Pending =>
          (∃ packet ks wr before, this' = SdYield packet ks wr true ∧ woke cx1 cx' ∧ ps ++ took = before ++ option_list packet
             ∧ transmitted s (env cx') = wire before ∧ (took ≠ [] ∨ under_way this))
          ∨ (queued (env cx') sender_rx = [] ∧ value_waits sender_rx w (env cx') ∧ transmitted s (env cx') = wire (ps ++ took))
          ∨ ((∃ f, write_deadline this' = Some f ∧ deadline (timeout_at f) ∧ (timeout_at f, w) ∈ sleep_register cx')
             ∨ ∃ ks wr, this' = SdFlush ks wr)
            ∧ (socket_interrupted cx1 cx' ∨ output_waits s w (env cx'))
      | Ready _ =>
          (channel_ended cx1 cx' ∧ queued (env cx') sender_rx = [] ∧ transmitted s (env cx') = wire (ps ++ took))
          ∨ (∃ t k, deadline t ∧ (reads cx1 <= k < reads cx')%nat ∧ t <= clock cx1 k)
          ∨ socket_failed cx1 cx'
      end.
Proof.
  intros Hset Hrun Htr Hmore cx1 wire deadline.
  destruct (send_run_invariant ks0 wr cx0 offered ps this cx Hset Hrun) as (Hsend & Harm & Hoff).
  destruct (send_poll_ok (accepted wr) ks0 ps this cx1) as (r & this' & cx' & Hpoll & Hto); [by eapply sending_kept|done|].
  destruct Hto as (_ & _ & _ & Ho & Hq & took & Hl & Htook & Hgrow & Hpre & Hres). exists r, this', cx', took.
  assert (Hwire : ∀ ps, wire ps = accepted wr ++ sealed ks0 ps) by (intros ps0; unfold wire; by rewrite sealed_frames).
  rewrite Hwire. split; [done|]. split; [done|]. split; [|split; [done|split; [by rewrite <- Htr|split; [done|split]]]].
  - rewrite Hoff, <- !app_assoc, <- Hmore. f_equal. exact Htook.
  - intros f Hf Hle. destruct this as [| |to_send ks f'| |]; try done. injection Hf as ->. cbn [send_poll] in Hpoll.
    unfold poll_write, asyncwrite_writeall_timeout in Hpoll. rewrite within_late in Hpoll by done. by injection Hpoll as <-.
  - destruct r; [exact Hres|]. destruct Hres as (_ & _ & Hdl & [(packet & ks & wr0 & before & Hy)|[?|[Hd Hs]]]); [left|by right; left|right; right].
    + exists packet, ks, wr0, before. by rewrite Hwire.
    + split; [|exact Hs]. destruct Hd as [(f & Hf & Hin)|?]; [left|by right]. exists f. split; [done|]. split; [by apply Hdl|done].
Qed.

(** A flush, unlike a write, has no deadline: whatever the time, the task waits on
    for as long as the socket takes nothing more. *)
Lemma flush_has_no_deadline ks wr cx wr' cx' :
  flush_poll wr cx = Ret (Pending, wr', cx') →
  send_poll yield_first sender_rx mac_key (SdFlush ks wr) cx = Ret (Pending, SdFlush ks wr', cx').
Proof. intros Hf. cbn [send_poll]. unfold poll_flush. by rewrite Hf. Qed.
End proof.
