(* ===== verification/LinkPolls.v ===== *)
(** Both ends of a link, poll by poll: what the sending task of one end and the
    receiving task of the other do together.

    The two tasks run on different machines, each polled by its own executor at
    its own times; the network has carried some of the bytes that were
    transmitted. *)
From S2P Require Import Prelude Gimli Futures Channel AllSenders World Rng Descriptors AsyncIo Framing LinkEnv LinkRecv LinkSend.

(** ** Frames in a stream *)

Lemma seal_all_app mac_key ks ps qs :
  seal_all mac_key ks (ps ++ qs) =
    ((seal_all mac_key ks ps).1 ++ (seal_all mac_key (seal_all mac_key ks ps).2 qs).1,
     (seal_all mac_key (seal_all mac_key ks ps).2 qs).2).
Proof.
  revert ks. induction ps as [|p ps IH]; intros ks; cbn [app seal_all fst snd].
  - by destruct (seal_all mac_key ks qs).
  - destruct (seal mac_key ks p) as [f ks']. rewrite IH. destruct (seal_all mac_key ks' ps). cbn. by rewrite app_assoc.
Qed.

Lemma seal_all_cons mac_key ks p ps :
  seal_all mac_key ks (p :: ps) =
    ((seal mac_key ks p).1 ++ (seal_all mac_key (seal mac_key ks p).2 ps).1, (seal_all mac_key (seal mac_key ks p).2 ps).2).
Proof. cbn [seal_all]. destruct (seal mac_key ks p) as [f ks']. cbn [fst snd]. by destruct (seal_all mac_key ks' ps). Qed.

(** Frames say which packets they are. *)
Lemma seal_all_prefix mac_key ks ds qs :
  is_bytes mac_key → Forall packet_ok ds → Forall packet_ok qs →
  (seal_all mac_key ks ds).1 `prefix_of` (seal_all mac_key ks qs).1 → ds `prefix_of` qs.
Proof.
  intros Hm Hds. revert ks qs. induction Hds as [|d ds [Hd Hl] Hds IH]; intros ks qs Hqs; [intros _; apply prefix_nil|].
  rewrite seal_all_cons. cbn [fst]. intros [rest Hrest]. destruct Hqs as [|q qs [Hq Hlq] Hqs].
  - exfalso. apply (f_equal length) in Hrest. rewrite !length_app, length_seal in Hrest by done. cbn in Hrest. lia.
  - rewrite seal_all_cons, <- app_assoc in Hrest. cbn [fst] in Hrest.
    pose proof (recv_frame_seal mac_key ks q (seal_all mac_key (seal mac_key ks q).2 qs).1 Hm Hq Hlq) as Hr.
    rewrite Hrest, recv_frame_seal in Hr by done. injection Hr as -> Hks Hin.
    apply prefix_cons. eapply (IH _ qs Hqs). rewrite <- Hin. by apply prefix_app_r.
Qed.

(** What a receiver makes of the beginning of a stream of frames: those that are
    complete, and then too few bytes, never a forgery. *)
Lemma authentic_frames mac_key ks input ds r qs :
  is_bytes mac_key → Forall packet_ok ds → Forall packet_ok qs →
  input `prefix_of` (seal_all mac_key ks qs).1 → authentic mac_key ks input ds r →
  r = Err "read_exact" ∧ ds `prefix_of` qs ∧ (input = (seal_all mac_key ks qs).1 → ds = qs).
Proof.
  intros Hm Hds Hqs Hpre (rest & why & -> & Herr & ->).
  assert (Hp : ds `prefix_of` qs).
  { eapply seal_all_prefix; [done..|]. etransitivity; [|exact Hpre]. by apply prefix_app_r. }
  pose proof Hp as [more ->]. apply list.Forall_app in Hqs as [_ Hmore]. rewrite seal_all_app in Hpre. cbn [fst] in Hpre.
  apply prefix_app_inv in Hpre as [tail Htail]. rewrite seal_all_app. cbn [fst].
  destruct Hmore as [|q more [Hq Hl] Hmore]; [|rewrite seal_all_cons in Htail; cbn [fst] in Htail].
  - cbn [seal_all fst] in Htail. symmetry in Htail. apply app_nil in Htail as [-> ->]. rewrite app_nil_r.
    unfold recv_frame in Herr. rewrite read_exact_short in Herr by (cbn; lia). injection Herr as <-. by split_and!.
  - set (frame := (seal mac_key (seal_all mac_key ks ds).2 q).1) in *.
    pose proof (length_seal mac_key (seal_all mac_key ks ds).2 q Hm Hq) as Hlen. fold frame in Hlen.
    destruct (decide (length frame <= length rest)%nat) as [Hle|Hlt].
    + exfalso. assert (Hr : ∃ rest', rest = frame ++ rest').
      { exists (drop (length frame) rest). apply (f_equal (take (length frame))) in Htail.
        rewrite take_app_le, take_ge, take_app_le in Htail by lia. rewrite Htail at 1. by rewrite take_drop. }
      destruct Hr as [rest' ->]. unfold frame in Herr. by rewrite recv_frame_seal in Herr.
    + assert (Hr : rest = take (length rest) frame).
      { apply (f_equal (take (length rest))) in Htail. rewrite take_app_le, take_app_le, (take_ge rest) in Htail by lia. done. }
      rewrite Hr in Herr. unfold frame in Herr. rewrite recv_frame_cut in Herr by (done || lia). injection Herr as <-.
      split_and!; [done|done|]. intros Hin. apply app_inv_head in Hin. apply (f_equal length) in Hin.
      rewrite seal_all_cons in Hin. cbn [fst] in Hin. rewrite length_app in Hin. fold frame in Hin. lia.
Qed.

(** Where the complete frames are those of [ds], no frame of a further packet is. *)
Lemma authentic_complete mac_key ks input ds r qs offered :
  is_bytes mac_key → Forall packet_ok offered → ds `prefix_of` offered → qs `prefix_of` offered →
  authentic mac_key ks input ds r → (seal_all mac_key ks qs).1 `prefix_of` input → qs `prefix_of` ds.
Proof.
  intros Hm Hoff Hds Hqs (rest & why & -> & Herr & _) Hpre.
  destruct (prefix_weak_total qs ds offered Hqs Hds) as [?|[[|q more] ->]]; [done|by rewrite app_nil_r|exfalso].
  destruct Hqs as [l ->]. apply list.Forall_app in Hoff as [[_ [[Hq Hl] _]%list.Forall_cons]%list.Forall_app _].
  rewrite seal_all_app, seal_all_cons in Hpre. cbn [fst] in Hpre. apply prefix_app_inv in Hpre as [tail ->].
  by rewrite <- app_assoc, recv_frame_seal in Herr.
Qed.

(** ** The two tasks *)

Section link.
Context {Waker1 E1 Wr S1 C1 : Type} `{!EqDecision Waker1, !EqDecision C1}.
Context `{write : !AsyncWrite Waker1 E1 Wr S1, write_laws : !AsyncWriteLaws Waker1 E1 Wr S1}.
Context `{mpsc1 : !Mpsc E1 C1 bytes, receive : !Receive Waker1 E1 C1 bytes, receive_laws : !ReceiveLaws Waker1 E1 C1 bytes}.
Context `{write_frame : !WriteFrame Waker1 E1 Wr S1 C1 bytes, receive_frame : !ReceiveFrame Waker1 E1 Wr S1 C1 bytes}.
Context {Waker2 E2 R S2 I C2 : Type} `{!EqDecision Waker2, !EqDecision I}.
Context `{read : !AsyncRead Waker2 E2 R S2, read_laws : !AsyncReadLaws Waker2 E2 R S2}.
Context `{mpsc2 : !Mpsc E2 I (bytes * C2), mpsc_laws : !MpscLaws E2 I (bytes * C2), read_frame : !ReadFrame Waker2 E2 R S2 I (bytes * C2)}.
Context (mac_key : bytes) (ks0 : KeystreamGen).
(** The sending end: its order of yielding, the link's channel, the socket. *)
Context (yield_first : bool) (sender_rx : C1) (out : S1).
(** The receiving end: the node's queue, the link's sender, the socket. *)
Context (incoming : I) (sender_tx : C2) (inp : S2).

(** What was transmitted since the sending loop started at [base], what arrived
    since the receiving loop started at [p0], and that the network has invented
    nothing. *)
Definition carried (base : bytes) (p0 : nat) (e1 : E1) (e2 : E2) : Prop :=
  drop p0 (arrived inp e2) `prefix_of` drop (length base) (transmitted out e1).

Lemma transmitted_frames base ps this (e : E1) :
  sending yield_first mac_key out base ks0 ps this e →
  drop (length base) (transmitted out e) `prefix_of` (seal_all mac_key ks0 (filter (.≠ []) ps)).1.
Proof.
  intros H. assert (Hp : transmitted out e `prefix_of` base ++ sealed mac_key ks0 ps).
  { destruct this as [[data|] ks wr y|ks wr|to_send ks f|ks wr|]; cbn [sending] in H; [..|done].
    - destruct H as (ps' & -> & (_ & _ & _ & ->) & _). apply prefix_app, sealed_prefix.
    - by destruct H as ((_ & _ & _ & ->) & _).
    - by destruct H as ((_ & _ & _ & ->) & _).
    - destruct H as (<- & <- & Hw & _). by apply writing_prefix.
    - destruct H as (<- & <- & Hw & _). rewrite <- (app_nil_r (accepted wr)). by apply writing_prefix. }
  destruct Hp as [l Hl]. unfold sealed in Hl. apply (f_equal (drop (length base))) in Hl. rewrite drop_app_length in Hl.
  rewrite Hl. destruct (decide (length base <= length (transmitted out e))%nat) as [Hle|Hlt].
  - rewrite drop_app_le by done. by apply prefix_app_r.
  - rewrite (drop_ge (transmitted out e)) by lia. apply prefix_nil.
Qed.

(** C7. Two tasks at the two ends of a connection, started at the same point of the
    same keys, deliver what is put in the channel of the link. After any run of
    polls of each, whatever the schedules, with any part of the transmitted bytes
    carried over: the packets delivered to the receiving node are a prefix of those
    ever offered to the sending end (without the empty ones of the cleaner), in
    order, unmodified, none twice. The next poll of the receiver keeps it so, and
    makes progress: pending, it has delivered the next packet (or was the first
    poll, which only yields), unless a read was interrupted or every packet whose
    frame has been carried completely has been delivered. It ends only because its
    node's queue is closed, because a deadline has passed, or because its socket has
    failed: an honest frame is never taken for a forgery. When it ends with a
    deadline, a packet that arrived too late is lost with the link. *)
Theorem link_delivers_polls wr cx1_0 offered ps this1 cx1 rd cx2_0 ds this2 cx2 w others :
  is_bytes mac_key → ks_wf ks0 →
  settled out (accepted wr) wr (env cx1_0) →
  send_run yield_first sender_rx mac_key out (send_start yield_first ks0 wr) cx1_0 offered ps this1 cx1 →
  Forall packet_ok offered →
  source rd = inp → (position rd <= length (arrived inp (env cx2_0)))%nat → is_bytes (arrived inp (env cx2_0)) →
  recv_run incoming sender_tx mac_key inp (recv_start ks0 rd) cx2_0 ds this2 cx2 → stream_grows inp (env cx2) (others (env cx2)) →
  let cx := at_poll w others cx2 in
  ∃ r this' cx' sent, recv_poll incoming sender_tx mac_key this2 cx = Ret (r, this', cx')
    ∧ received incoming sender_tx sent (others (env cx2)) (env cx')
    ∧ (carried (accepted wr) (position rd) (env cx1) (env cx') →
       ds ++ sent `prefix_of` filter (.≠ []) offered
       ∧ match r with
         | Pending =>
             yields sent this2 cx this' cx'
             ∨ read_interrupted inp cx cx'
             ∨ (∀ qs, qs `prefix_of` filter (.≠ []) offered →
                  (seal_all mac_key ks0 qs).1 `prefix_of` drop (position rd) (arrived inp (env cx')) → qs `prefix_of` ds)
         | Ready (Ok _) => is_open (env cx') incoming = false
         | Ready (Err why) => why = "Timeout" ∧ timed_out this2 cx cx' ∨ read_failed inp why cx cx'
         end).
Proof.
  intros Hm Hk Hset Hsrun Hoff Hsrc Hpos Hb Hrrun Hg cx.
  destruct (send_run_invariant yield_first sender_rx mac_key out ks0 wr cx1_0 offered ps this1 cx1 Hset Hsrun) as (Hsend & _ & Hps).
  destruct (recv_run_invariant incoming sender_tx mac_key inp Hm ks0 rd cx2_0 ds this2 cx2 Hk Hsrc Hpos Hb Hrrun) as (Hrec & Harm & _).
  pose proof (receiving_grows _ _ _ _ _ _ _ _ Hg Hrec) as Hrec1.
  destruct (recv_poll_ok incoming sender_tx mac_key inp Hm (position rd) ks0 ds this2 cx Hk Hrec1 Harm)
    as (r & this' & cx' & Hpoll & _ & _ & _ & Hg1 & sent & _ & Hsent & Hres).
  exists r, this', cx', sent. split; [exact Hpoll|]. split; [exact Hsent|]. intros Hcar.
  assert (Hqs : Forall packet_ok (filter (.≠ []) offered)).
  { rewrite list.Forall_forall in Hoff |- *. intros p [_ Hp]%list_elem_of_filter. by apply Hoff. }
  assert (Hall : drop (position rd) (arrived inp (env cx')) `prefix_of` (seal_all mac_key ks0 (filter (.≠ []) offered)).1).
  { etransitivity; [exact Hcar|]. etransitivity; [by eapply transmitted_frames|]. rewrite Hps, list.filter_app, seal_all_app.
    by apply prefix_app_r. }
  assert (Hds : (seal_all mac_key ks0 (ds ++ sent)).1 `prefix_of` drop (position rd) (arrived inp (env cx')) ∧ Forall packet_ok (ds ++ sent)).
  { destruct r as [[[]|why]|].
    - destruct Hres as [_ ->]. rewrite app_nil_r. by eapply receiving_prefix.
    - destruct Hres as [-> _]. rewrite app_nil_r. by eapply receiving_prefix.
    - destruct Hres as (Hrec' & _). eapply receiving_prefix; [exact Hrec'|reflexivity]. }
  destruct Hds as [Hdpre Hdok].
  assert (Hprefix : ds ++ sent `prefix_of` filter (.≠ []) offered).
  { apply (seal_all_prefix mac_key ks0); [exact Hm|exact Hdok|exact Hqs|]. by etransitivity. }
  split; [exact Hprefix|]. destruct r as [[[]|why]|].
  - by destruct Hres as [[? _] _].
  - destruct Hres as [-> [[-> Ha]|?]]; [exfalso|done]. rewrite app_nil_r in Hdok.
    destruct (authentic_frames mac_key ks0 _ ds _ _ Hm Hdok Hqs Hall Ha) as ([=] & _).
  - destruct Hres as (_ & _ & _ & [?|(-> & _ & [?|[_ Ha]])]); [by left|by right; left|right; right].
    rewrite app_nil_r in Hprefix. intros qs Hq Hc. exact (authentic_complete mac_key ks0 _ ds _ qs _ Hm Hqs Hprefix Hq Ha Hc).
Qed.
End link.

(** ** Witnesses

    A sending end with three packets in the channel of its link, one of them from
    the cleaner, and a receiving end, with the environment of [LinkEnv.Example]. *)
Module Run.
Import LinkEnv.Example.

Definition key : bytes := str_bytes "mac".
Definition ks0 : KeystreamGen := Framing.new (str_bytes "key").
Definition packets : list bytes := [[1; 2; 3]; []; [4; 5]].

Definition env_of (st : Stream) (w : world) : Env :=
  MkLinkEnv (MkIo [] (MkNet Machine.quiet_machine {[5%nat := st]})) (MkChans w []) Rng.new.
Definition start (e : Env) : Cx nat Env := MkCx 0%nat (λ n, Z.of_nat n) 0 [] [] e.

Abbreviation Sender := (SendTask nat (nat * bytes)).
Abbreviation Receiver := (RecvTask nat (nat * nat)).
Definition sends : Sender → Cx nat Env → outcome (Poll unit * Sender * Cx nat Env) := send_poll false (Tx 0) key.
Definition receives : Receiver → Cx nat Env → outcome (Poll (result unit) * Receiver * Cx nat Env) :=
  recv_poll (Incoming 0) (Tx 7) key.

(** [n] polls by the same executor, with nothing in between, and what they took or
    delivered. *)
Fixpoint send_exec (n : nat) (this : Sender) (cx : Cx nat Env) : option (list bytes * Sender * Cx nat Env) :=
  match n with
  | O => Some ([], this, cx)
  | S n =>
      '(ps, this, cx) ← send_exec n this cx;
      match sends this (at_poll 0%nat id cx) with
      | Ret (Pending, this', cx') =>
          let q := queued (env cx) (Tx 0) in
          let took := take (length q - length (queued (env cx') (Tx 0))) q in
          if decide (q = took ++ queued (env cx') (Tx 0)) then Some (ps ++ took, this', cx') else None
      | _ => None
      end
  end.

Fixpoint recv_exec (n : nat) (this : Receiver) (cx : Cx nat Env) : option (list bytes * Receiver * Cx nat Env) :=
  match n with
  | O => Some ([], this, cx)
  | S n =>
      '(ds, this, cx) ← recv_exec n this cx;
      match receives this (at_poll 0%nat id cx) with
      | Ret (Pending, this', cx') =>
          Some (ds ++ (fst <$> drop (length (queued (env cx) (Incoming 0))) (queued (env cx') (Incoming 0))), this', cx')
      | _ => None
      end
  end.

Lemma send_exec_run n this0 cx0 ps this cx :
  send_exec n this0 cx0 = Some (ps, this, cx) →
  send_run false (Tx 0) key 5%nat this0 cx0 (queued (env cx0) (Tx 0)) ps this cx.
Proof.
  revert ps this cx. induction n as [|n IH]; intros ps this cx; cbn [send_exec]; [intros [= <- <- <-]; constructor|].
  destruct (send_exec n this0 cx0) as [[[ps0 this1] cx1]|]; cbn [mbind option_bind]; [|done].
  destruct (sends this1 _) as [[[[]  this2] cx2]|] eqn:Hp; [done| |done]. cbv zeta. case_decide as Hq; [|done].
  intros [= <- <- <-]. rewrite <- (app_nil_r (queued (env cx0) (Tx 0))).
  eapply (send_run_poll false (Tx 0) key 5%nat this0 cx0 _ [] ps0 _ this1 cx1 0%nat id); [by apply IH|reflexivity|by rewrite app_nil_r|exact Hp|exact Hq].
Qed.

Lemma recv_exec_run n rd cx0 ds this cx :
  source (Waker := nat) (E := Env) rd = 5%nat → (position (Waker := nat) (E := Env) rd <= length (arrived (Waker := nat) (E := Env) 5%nat (env cx0)))%nat →
  is_bytes (arrived (Waker := nat) (E := Env) 5%nat (env cx0)) →
  recv_exec n (recv_start ks0 rd) cx0 = Some (ds, this, cx) →
  recv_run (Incoming 0) (Tx 7) key 5%nat (recv_start ks0 rd) cx0 ds this cx.
Proof.
  intros Hs Hp Hb. revert ds this cx. induction n as [|n IH]; intros ds this cx; cbn [recv_exec]; [intros [= <- <- <-]; constructor|].
  destruct (recv_exec n _ cx0) as [[[ds0 this1] cx1]|]; cbn [mbind option_bind]; [|done].
  destruct (receives this1 _) as [[[[] this2] cx2]|] eqn:Hpoll; [done| |done]. intros [= <- <- <-].
  specialize (IH _ _ _ eq_refl). eapply (run_poll (Incoming 0) (Tx 7) key 5%nat _ cx0 ds0 this1 cx1 0%nat id); [exact IH|reflexivity|exact Hpoll|].
  assert (Hm : is_bytes key) by (by repeat constructor).
  assert (Hk : ks_wf ks0) by (apply ks_new_wf; by repeat constructor).
  destruct (recv_run_invariant (Incoming 0) (Tx 7) key 5%nat Hm ks0 rd cx0 ds0 this1 cx1 Hk Hs Hp Hb IH) as (Hrec & Harm & _).
  destruct (recv_poll_ok (Incoming 0) (Tx 7) key 5%nat Hm (position rd) ks0 ds0 this1 (at_poll 0%nat id cx1) Hk Hrec Harm)
    as (r & this3 & cx3 & Hpoll3 & _ & _ & _ & _ & sent & _ & Hsent & _).
  unfold receives in Hpoll. rewrite Hpoll in Hpoll3. injection Hpoll3 as <- <- <-.
  assert (Hds : fst <$> drop (length (queued (env cx1) (Incoming 0))) (queued (env cx2) (Incoming 0)) = sent);
    [|exact (eq_ind_r (λ l, received (Incoming 0) (Tx 7) l (id (env cx1)) (env cx2)) Hsent Hds)].
  etransitivity; [apply (f_equal (λ q, fst <$> drop (length (queued (env cx1) (Incoming 0))) q)); exact (proj1 Hsent)|].
  etransitivity; [apply (f_equal (fmap fst)), drop_app_length|]. rewrite <- list_fmap_compose. apply list_fmap_id.
Qed.

Definition sender_start : Cx nat Env :=
  start (env_of (MkStream [] false [] 1000 [] []) (MkWorld {[0%nat := (true, packets)]} ∅ ∅ ∅)).
Definition writer : nat * bytes := (5%nat, []).
Definition wire : bytes := concat (send_task (λ _, true) 0 key ks0 packets).
(** The receiving end when [carried] bytes have arrived. *)
Definition receiver_start (carried : nat) : Cx nat Env :=
  start (env_of (MkStream (take carried wire) false [] 0 [] []) (MkWorld ∅ {[0%nat := (true, [])]} ∅ ∅)).
Definition socket_reader : nat * nat := (5%nat, 0%nat).

(** Four polls send everything. *)
Lemma sender_run : ∃ this cx,
  send_run false (Tx 0) key 5%nat (send_start false ks0 writer) sender_start packets packets this cx
  ∧ transmitted (Waker := nat) 5%nat (env cx) = wire ∧ queued (env cx) (Tx 0) = [].
Proof.
  assert (H : ∃ this cx, send_exec 4 (send_start false ks0 writer) sender_start = Some (packets, this, cx)
    ∧ transmitted (Waker := nat) 5%nat (env cx) = wire ∧ queued (env cx) (Tx 0) = []).
  { eexists _, _. split; [vm_compute; reflexivity|]. split; vm_compute; reflexivity. }
  destruct H as (this & cx & He & Hw & Hq). exists this, cx. split; [exact (send_exec_run 4 _ _ _ _ _ He)|by split].
Qed.

(** Three polls deliver two packets. *)
Lemma receiver_run : ∃ this cx,
  recv_run (Incoming 0) (Tx 7) key 5%nat (recv_start ks0 socket_reader) (receiver_start 1000) [[1; 2; 3]; [4; 5]] this cx
  ∧ arrived (Waker := nat) 5%nat (env cx) = wire
  ∧ ∃ this' cx', receives this (at_poll 0%nat id cx) = Ret (Pending, this', cx') ∧ woken cx' = woken cx
      ∧ arrived (Waker := nat) 5%nat (env cx') = wire.
Proof.
  assert (H : ∃ this cx, recv_exec 3 (recv_start ks0 socket_reader) (receiver_start 1000) = Some ([[1; 2; 3]; [4; 5]], this, cx)
    ∧ arrived (Waker := nat) 5%nat (env cx) = wire
    ∧ ∃ this' cx', receives this (at_poll 0%nat id cx) = Ret (Pending, this', cx') ∧ woken cx' = woken cx
      ∧ arrived (Waker := nat) 5%nat (env cx') = wire).
  { eexists _, _. split; [vm_compute; reflexivity|]. split; [vm_compute; reflexivity|].
    eexists _, _. split; [vm_compute; reflexivity|]. split; vm_compute; reflexivity. }
  destruct H as (this & cx & He & Hw & Hp). exists this, cx.
  assert (Hb : is_bytes (arrived (Waker := nat) 5%nat (env (receiver_start 1000)))) by (apply (bool_decide_unpack _); vm_compute; reflexivity).
  split; [|by split]. apply (recv_exec_run 3 socket_reader); [exact eq_refl|apply Nat.le_0_l|exact Hb|exact He].
Qed.

Lemma key_ok : is_bytes key.
Proof. by repeat constructor. Qed.
Lemma ks0_ok : ks_wf ks0.
Proof. apply ks_new_wf. by repeat constructor. Qed.
Lemma writer_settled : settled (Waker := nat) (E := Env) 5%nat (accepted (Waker := nat) (E := Env) writer) writer (env sender_start).
Proof. by split_and!. Qed.
Lemma packets_ok : Forall packet_ok packets.
Proof. apply (bool_decide_unpack _). vm_compute. reflexivity. Qed.
Lemma receiver_bytes n : n = 1000%nat → is_bytes (arrived (Waker := nat) (E := Env) 5%nat (env (receiver_start n))).
Proof. intros ->. apply (bool_decide_unpack _). vm_compute. reflexivity. Qed.
Lemma reader_source : source (Waker := nat) (E := Env) socket_reader = 5%nat.
Proof. reflexivity. Qed.
Lemma reader_position n :
  (position (Waker := nat) (E := Env) socket_reader <= length (arrived (Waker := nat) (E := Env) 5%nat (env (receiver_start n))))%nat.
Proof. apply Nat.le_0_l. Qed.
Lemma nothing_accepted : accepted (Waker := nat) (E := Env) writer = [].
Proof. reflexivity. Qed.
Lemma carried_wire : drop 0 wire `prefix_of` drop (length (accepted (Waker := nat) (E := Env) writer)) wire.
Proof. by rewrite nothing_accepted. Qed.
Lemma frames_carried : (seal_all key ks0 (filter (.≠ []) packets)).1 `prefix_of` drop 0 wire.
Proof. unfold wire. rewrite sealed_frames, drop_0. unfold sealed. apply reflexivity. Qed.
Lemma not_woke (cx cx' : Cx nat Env) : woken cx' = woken cx → ¬ woke cx cx'.
Proof. intros Hw (l & Hl & Hin). rewrite Hw in Hl. apply (f_equal length) in Hl. rewrite length_app in Hl. destruct l; [by apply elem_of_nil in Hin|cbn in Hl; lia]. Qed.
End Run.
Import LinkEnv.Example Run.

(** Everything has been carried, and the receiver waits: it has delivered both packets. *)
Lemma link_delivers_polls_witness : ∃ this2 cx2 this' cx',
  recv_run (Incoming 0) (Tx 7) key 5%nat (recv_start ks0 socket_reader) (receiver_start 1000) [[1; 2; 3]; [4; 5]] this2 cx2
  ∧ recv_poll (Incoming 0) (Tx 7) key this2 (at_poll 0%nat id cx2) = Ret (Pending, this', cx')
  ∧ filter (.≠ []) packets `prefix_of` [[1; 2; 3]; [4; 5]].
Proof.
  destruct sender_run as (this1 & cx1 & Hs & Hw & _). destruct receiver_run as (this2 & cx2 & Hr & Ha & this3 & cx3 & Hp & Hwo & Ha3).
  destruct (link_delivers_polls key ks0 false (Tx 0) 5%nat (Incoming 0) (Tx 7) 5%nat writer sender_start packets packets this1 cx1
    socket_reader (receiver_start 1000) [[1; 2; 3]; [4; 5]] this2 cx2 0%nat id key_ok ks0_ok writer_settled Hs packets_ok
    reader_source (reader_position 1000) (receiver_bytes 1000 eq_refl) Hr ltac:(reflexivity)) as (r & this' & cx' & sent & H1 & _ & H3).
  exists this2, cx2, this3, cx3. split; [exact Hr|]. split; [exact Hp|].
  unfold receives in Hp. rewrite Hp in H1. injection H1 as <- <- <-.
  destruct H3 as (_ & [H3|[H3|H3]]).
  - unfold carried. rewrite Ha3, Hw. apply carried_wire.
  - destruct H3 as (ks & rd & _ & Hwoke & _). destruct (not_woke (at_poll 0%nat id cx2) cx3 Hwo Hwoke).
  - destruct H3 as (cxa & cxb & _ & _ & Hwoke). destruct (not_woke (at_poll 0%nat id cx2) cx3 Hwo Hwoke).
  - apply H3; [reflexivity|]. rewrite Ha3. exact frames_carried.
Defined.

(** The receiver waits for a third packet: it has delivered what [Framing] says. *)
Lemma recv_task_polls_witness : ∃ this2 cx2 this' cx',
  recv_run (Incoming 0) (Tx 7) key 5%nat (recv_start ks0 socket_reader) (receiver_start 1000) [[1; 2; 3]; [4; 5]] this2 cx2
  ∧ recv_poll (Incoming 0) (Tx 7) key this2 (at_poll 0%nat id cx2) = Ret (Pending, this', cx')
  ∧ framing_says (E := Env) (Incoming 0) (Tx 7) key ks0 (drop 0 (arrived (Waker := nat) 5%nat (env cx'))) [[1; 2; 3]; [4; 5]] (Err "read_exact").
Proof.
  destruct receiver_run as (this2 & cx2 & Hr & Ha & this3 & cx3 & Hp & Hwo & Ha3).
  destruct (recv_task_polls (Incoming 0) (Tx 7) key 5%nat key_ok ks0 socket_reader (receiver_start 1000) [[1; 2; 3]; [4; 5]] this2 cx2 0%nat id
    ks0_ok reader_source (reader_position 1000) (receiver_bytes 1000 eq_refl) Hr ltac:(reflexivity))
    as (r & this' & cx' & H1 & _ & sent & _ & _ & _ & H2).
  unfold receives in Hp. rewrite Hp in H1. injection H1 as <- <- <-. exists this2, cx2, this3, cx3.
  split; [exact Hr|]. split; [exact Hp|]. destruct H2 as [H2|(_ & _ & _ & [H2|[_ H2]])]; [| |exact H2].
  - destruct H2 as (ks & rd & _ & Hwoke & _). destruct (not_woke (at_poll 0%nat id cx2) cx3 Hwo Hwoke).
  - destruct H2 as (cxa & cxb & _ & _ & Hwoke). destruct (not_woke (at_poll 0%nat id cx2) cx3 Hwo Hwoke).
Defined.

(** The sender has sent everything. *)
Lemma send_task_polls_witness : ∃ this1 cx1 r this' cx' took,
  send_run false (Tx 0) key 5%nat (send_start false ks0 writer) sender_start packets packets this1 cx1
  ∧ send_poll false (Tx 0) key this1 (at_poll 0%nat id cx1) = Ret (r, this', cx')
  ∧ packets ++ [] = (packets ++ took) ++ queued (env cx') (Tx 0).
Proof.
  destruct sender_run as (this1 & cx1 & Hs & Hw & Hq).
  destruct (send_task_polls false (Tx 0) key 5%nat ks0 writer sender_start packets packets this1 cx1 0%nat id [] writer_settled Hs eq_refl
    (eq_sym (app_nil_r _))) as (r & this' & cx' & took & H1 & _ & H2 & _).
  exists this1, cx1, r, this', cx', took. split; [exact Hs|]. split; [exact H1|exact H2].
Defined.
