(* ===== verification/LinkHello.v ===== *)
(** The handshake of a link, poll by poll ([rust/src/legacy_tcp.rs]).

    Both ends send an initialisation vector and the proof that they know the key,
    and read those of the other end. In [connect_impl] the two halves are at
    different places of the code, in [handle_connection] one follows the other;
    here each half is a future of its own. Also what the polls of this file and of
    [LinkRecv] and [LinkSend] leave alone ([recv_poll_frame] and the like). *)
From S2P Require Import Prelude Gimli Futures Channel AsyncIo Framing LegacyTcp LinkRecv LinkSend.

(** ** Reading the other end's half *)

Section greet.
Context {Waker E R S : Type} `{!EqDecision Waker, !AsyncRead Waker E R S}.

Inductive Greet :=
| GrIv (read : TimeoutFuture (Waker := Waker) R)
| GrKeyfinder (iv : bytes) (read : TimeoutFuture (Waker := Waker) R)
| GrDone.

Abbreviation Greeted := (outcome (Poll (result (bytes * bytes * R)) * Greet * Cx Waker E)).

Definition poll_keyfinder (iv : bytes) (read : TimeoutFuture R) (cx : Cx Waker E) : Greeted :=
  '(r, read, cx) ← asyncread_readexact_timeout 16 read cx;
  match r with
  | Pending => mret (Pending, GrKeyfinder iv read, cx)
  | Ready (Err why) => mret (Ready (Err why), GrDone, cx)
  | Ready (Ok keyfinder) => mret (Ready (Ok (iv, keyfinder, future read)), GrDone, cx)
  end.

Definition poll_iv (read : TimeoutFuture R) (cx : Cx Waker E) : Greeted :=
  '(r, read, cx) ← asyncread_readexact_timeout 16 read cx;
  match r with
  | Pending => mret (Pending, GrIv read, cx)
  | Ready (Err why) => mret (Ready (Err why), GrDone, cx)
  | Ready (Ok iv) =>
      let '(read, cx) := timeout_future (future read) read_timeout cx in
      poll_keyfinder iv read cx
  end.

Definition greet_poll : Fut (Waker := Waker) (E := E) Greet (result (bytes * bytes * R)) := λ this cx,
  match this with
  | GrIv read => poll_iv read cx
  | GrKeyfinder iv read => poll_keyfinder iv read cx
  | GrDone => Panic "`async fn` resumed after completion"
  end.

(** Its first poll starts the first read. *)
Definition greet_first (reader : R) (cx : Cx Waker E) : Greeted :=
  let '(read, cx) := timeout_future reader read_timeout cx in poll_iv read cx.
End greet.
Arguments Greet : clear implicits.

(** ** Sending one's own half *)

Section hello.
Context {Waker E Wr S : Type} `{!EqDecision Waker, !AsyncWrite Waker E Wr S}.
Context (iv keyfinder : bytes).

Inductive Hello :=
| HlIv (write : TimeoutFuture (Waker := Waker) Wr)
| HlKeyfinder (write : TimeoutFuture (Waker := Waker) Wr)
| HlFlush (writer : Wr)
| HlDone.

Abbreviation Said := (outcome (Poll (result Wr) * Hello * Cx Waker E)).

Definition poll_hello_flush (writer : Wr) (cx : Cx Waker E) : Said :=
  '(r, writer, cx) ← flush_poll writer cx;
  match r with
  | Pending => mret (Pending, HlFlush writer, cx)
  | Ready (Err why) => mret (Ready (Err why), HlDone, cx)
  | Ready (Ok _) => mret (Ready (Ok writer), HlDone, cx)
  end.

Definition poll_hello_keyfinder (write : TimeoutFuture Wr) (cx : Cx Waker E) : Said :=
  '(r, write, cx) ← asyncwrite_writeall_timeout keyfinder write cx;
  match r with
  | Pending => mret (Pending, HlKeyfinder write, cx)
  | Ready (Err why) => mret (Ready (Err why), HlDone, cx)
  | Ready (Ok _) => poll_hello_flush (future write) cx
  end.

Definition poll_hello_iv (write : TimeoutFuture Wr) (cx : Cx Waker E) : Said :=
  '(r, write, cx) ← asyncwrite_writeall_timeout iv write cx;
  match r with
  | Pending => mret (Pending, HlIv write, cx)
  | Ready (Err why) => mret (Ready (Err why), HlDone, cx)
  | Ready (Ok _) =>
      let '(write, cx) := timeout_future (future write) write_timeout cx in
      poll_hello_keyfinder write cx
  end.

Definition hello_poll : Fut (Waker := Waker) (E := E) Hello (result Wr) := λ this cx,
  match this with
  | HlIv write => poll_hello_iv write cx
  | HlKeyfinder write => poll_hello_keyfinder write cx
  | HlFlush writer => poll_hello_flush writer cx
  | HlDone => Panic "`async fn` resumed after completion"
  end.

Definition hello_first (writer : Wr) (cx : Cx Waker E) : Said :=
  let '(write, cx) := timeout_future writer write_timeout cx in poll_hello_iv write cx.
End hello.
Arguments Hello : clear implicits.

(** ** What polls leave alone

    A preorder on environments that the operations keep is kept by the polls. *)

Lemma within_env {Waker E X T} `{!EqDecision Waker} (poll : Fut (Waker := Waker) (E := E) X (result T)) this cx r this' cx' (P : E → E → Prop) `{!Reflexive P} :
  (∀ x cx r x' cx', poll x cx = Ret (r, x', cx') → P (env cx) (env cx')) →
  within poll this cx = Ret (r, this', cx') → P (env cx) (env cx').
Proof.
  intros HP. unfold within, timeout_poll, instant_now. destruct (_ <=? _); [by intros [= <- <- <-]|].
  destruct (poll (future this) _) as [[[r0 f] cx1]|] eqn:Hp; cbn [mbind outcome_bind]; [|done].
  apply HP in Hp. destruct r0 as [v|]; [|case_bool_decide]; intros [= <- <- <-]; exact Hp.
Qed.

Section frames.
Context {Waker E : Type} `{!EqDecision Waker} (P : E → E → Prop) `{!PreOrder P}.

Section reading.
Context {R S : Type} `{!AsyncRead Waker E R S}.
Context (P_read : ∀ n r (cx : Cx Waker E) res r' cx', read_exact_poll n r cx = Ret (res, r', cx') → P (env cx) (env cx')).

Lemma read_env n f (cx : Cx Waker E) r f' cx' :
  asyncread_readexact_timeout n f cx = Ret (r, f', cx') → P (env cx) (env cx').
Proof. apply within_env; [apply _|]. apply P_read. Qed.

Lemma poll_keyfinder_frame iv f (cx : Cx Waker E) r this' cx' :
  poll_keyfinder iv f cx = Ret (r, this', cx') → P (env cx) (env cx').
Proof.
  unfold poll_keyfinder. destruct (asyncread_readexact_timeout 16 f cx) as [[[r0 f0] cx0]|] eqn:Hr; cbn [mbind outcome_bind]; [|done].
  apply read_env in Hr. by destruct r0 as [[]|]; intros [= <- <- <-].
Qed.

Lemma greet_poll_frame this (cx : Cx Waker E) r this' cx' :
  greet_poll this cx = Ret (r, this', cx') → P (env cx) (env cx').
Proof.
  destruct this as [f|iv f|]; cbn [greet_poll]; [|by apply poll_keyfinder_frame|done].
  unfold poll_iv. destruct (asyncread_readexact_timeout 16 f cx) as [[[r0 f0] cx0]|] eqn:Hr; cbn [mbind outcome_bind]; [|done].
  apply read_env in Hr. destruct r0 as [[iv|]|]; [|by intros [= <- <- <-]..].
  intros Hk%poll_keyfinder_frame. by etransitivity.
Qed.

Context {I C : Type} `{!Mpsc E I (bytes * C)} (incoming : I) (sender_tx : C) (mac_key : bytes).
Context (P_send : ∀ a e, P e (unbounded_send incoming a e).2).

Lemma poll_mac_frame data ks f (cx : Cx Waker E) r this' cx' :
  poll_mac incoming sender_tx mac_key data ks f cx = Ret (r, this', cx') → P (env cx) (env cx').
Proof.
  unfold poll_mac. destruct (asyncread_readexact_timeout 16 f cx) as [[[r0 f0] cx0]|] eqn:Hr; cbn [mbind outcome_bind]; [|done].
  apply read_env in Hr. destruct r0 as [[mac|]|]; [|by intros [= <- <- <-]..].
  destruct (xor_stream ks mac). destruct (decide _); [by intros [= <- <- <-]|]. unfold send_on.
  pose proof (P_send (data, sender_tx) (env cx0)) as Hs. destruct (unbounded_send incoming _ _) as [ok e]. cbn [snd] in Hs.
  destruct ok; intros [= <- <- <-]; cbn; by etransitivity.
Qed.

Lemma poll_data_frame len ks f (cx : Cx Waker E) r this' cx' :
  poll_data incoming sender_tx mac_key len ks f cx = Ret (r, this', cx') → P (env cx) (env cx').
Proof.
  unfold poll_data. destruct (asyncread_readexact_timeout len f cx) as [[[r0 f0] cx0]|] eqn:Hr; cbn [mbind outcome_bind]; [|done].
  apply read_env in Hr. destruct r0 as [[data|]|]; [|by intros [= <- <- <-]..].
  destruct (xor_stream ks data). intros Hk%poll_mac_frame. by etransitivity.
Qed.

Lemma poll_len_frame ks f (cx : Cx Waker E) r this' cx' :
  poll_len incoming sender_tx mac_key ks f cx = Ret (r, this', cx') → P (env cx) (env cx').
Proof.
  unfold poll_len. destruct (asyncread_readexact_timeout 2 f cx) as [[[r0 f0] cx0]|] eqn:Hr; cbn [mbind outcome_bind]; [|done].
  apply read_env in Hr. destruct r0 as [[data|]|]; [|by intros [= <- <- <-]..].
  destruct (xor_stream ks data). intros Hk%poll_data_frame. by etransitivity.
Qed.

Lemma recv_poll_frame (this : RecvTask Waker R) (cx : Cx Waker E) r this' cx' :
  recv_poll incoming sender_tx mac_key this cx = Ret (r, this', cx') → P (env cx) (env cx').
Proof.
  destruct this as [ks rd []|ks f|len ks f|data ks f|]; cbn [recv_poll yield_poll mbind outcome_bind mret outcome_ret].
  - intros Hk%poll_len_frame. exact Hk.
  - by intros [= <- <- <-].
  - apply poll_len_frame.
  - apply poll_data_frame.
  - apply poll_mac_frame.
  - done.
Qed.
End reading.

Section writing.
Context {Wr S : Type} `{!AsyncWrite Waker E Wr S}.
Context (P_write : ∀ data wr (cx : Cx Waker E) res wr' cx', write_all_poll data wr cx = Ret (res, wr', cx') → P (env cx) (env cx')).
Context (P_flush : ∀ wr (cx : Cx Waker E) res wr' cx', flush_poll wr cx = Ret (res, wr', cx') → P (env cx) (env cx')).

Lemma write_env data f (cx : Cx Waker E) r f' cx' :
  asyncwrite_writeall_timeout data f cx = Ret (r, f', cx') → P (env cx) (env cx').
Proof. apply within_env; [apply _|]. apply P_write. Qed.

Lemma hello_flush_frame wr (cx : Cx Waker E) r this' cx' :
  poll_hello_flush wr cx = Ret (r, this', cx') → P (env cx) (env cx').
Proof.
  unfold poll_hello_flush. destruct (flush_poll wr cx) as [[[r0 wr0] cx0]|] eqn:Hr; cbn [mbind outcome_bind]; [|done].
  apply P_flush in Hr. by destruct r0 as [[]|]; intros [= <- <- <-].
Qed.

Lemma hello_keyfinder_frame kf f (cx : Cx Waker E) r this' cx' :
  poll_hello_keyfinder kf f cx = Ret (r, this', cx') → P (env cx) (env cx').
Proof.
  unfold poll_hello_keyfinder. destruct (asyncwrite_writeall_timeout kf f cx) as [[[r0 f0] cx0]|] eqn:Hr; cbn [mbind outcome_bind]; [|done].
  apply write_env in Hr. destruct r0 as [[]|]; [|by intros [= <- <- <-]..]. intros Hk%hello_flush_frame. by etransitivity.
Qed.

Lemma hello_poll_frame iv kf this (cx : Cx Waker E) r this' cx' :
  hello_poll iv kf this cx = Ret (r, this', cx') → P (env cx) (env cx').
Proof.
  destruct this as [f|f|wr|]; cbn [hello_poll]; [|apply hello_keyfinder_frame|apply hello_flush_frame|done].
  unfold poll_hello_iv. destruct (asyncwrite_writeall_timeout iv f cx) as [[[r0 f0] cx0]|] eqn:Hr; cbn [mbind outcome_bind]; [|done].
  apply write_env in Hr. destruct r0 as [[]|]; [|by intros [= <- <- <-]..]. intros Hk%hello_keyfinder_frame. by etransitivity.
Qed.

Context {C : Type} `{!Mpsc E C bytes, !Receive Waker E C bytes} (yield_first : bool) (sender_rx : C) (mac_key : bytes).
Context (P_next : ∀ (cx cx' : Cx Waker E) r, next_poll sender_rx cx = (r, cx') → P (env cx) (env cx')).

Lemma receive_then_frame (got : bytes → KeystreamGen → Wr → Cx Waker E → outcome (Poll unit * SendTask Waker Wr * Cx Waker E)) ks wr (cx : Cx Waker E) r this' cx' :
  (∀ data ks wr cx r this' cx', got data ks wr cx = Ret (r, this', cx') → P (env cx) (env cx')) →
  receive_then sender_rx got ks wr cx = Ret (r, this', cx') → P (env cx) (env cx').
Proof.
  intros Hgot. unfold receive_then. destruct (next_poll sender_rx cx) as [r0 cx0] eqn:Hn. apply P_next in Hn.
  destruct r0 as [[data|]|]; [|by intros [= <- <- <-]..]. intros Hk%Hgot. by etransitivity.
Qed.

Lemma send_yield_frame packet ks (wr : Wr) (cx : Cx Waker E) r this' cx' :
  send_yield packet ks wr cx = Ret (r, this', cx') → P (env cx) (env cx').
Proof. by intros [= <- <- <-]. Qed.

Lemma connect_next_frame ks (wr : Wr) (cx : Cx Waker E) r this' cx' :
  connect_next sender_rx ks wr cx = Ret (r, this', cx') → P (env cx) (env cx').
Proof. apply receive_then_frame. intros data. apply send_yield_frame. Qed.

Lemma send_again_frame ks (wr : Wr) (cx : Cx Waker E) r this' cx' :
  send_again yield_first sender_rx ks wr cx = Ret (r, this', cx') → P (env cx) (env cx').
Proof. unfold send_again. destruct yield_first; [apply send_yield_frame|apply connect_next_frame]. Qed.

Lemma poll_flush_frame ks (wr : Wr) (cx : Cx Waker E) r this' cx' :
  LinkSend.poll_flush yield_first sender_rx ks wr cx = Ret (r, this', cx') → P (env cx) (env cx').
Proof.
  unfold LinkSend.poll_flush. destruct (flush_poll wr cx) as [[[r0 wr0] cx0]|] eqn:Hr; cbn [mbind outcome_bind]; [|done].
  apply P_flush in Hr. destruct r0 as [[]|]; [|by intros [= <- <- <-]..]. intros Hk%send_again_frame. by etransitivity.
Qed.

Lemma poll_write_frame to_send ks (f : TimeoutFuture (Waker := Waker) Wr) (cx : Cx Waker E) r this' cx' :
  LinkSend.poll_write yield_first sender_rx to_send ks f cx = Ret (r, this', cx') → P (env cx) (env cx').
Proof.
  unfold LinkSend.poll_write. destruct (asyncwrite_writeall_timeout to_send f cx) as [[[r0 f0] cx0]|] eqn:Hr; cbn [mbind outcome_bind]; [|done].
  apply write_env in Hr. destruct r0 as [[]|]; [|by intros [= <- <- <-]..]. intros Hk%poll_flush_frame. by etransitivity.
Qed.

Lemma process_frame data ks (wr : Wr) (cx : Cx Waker E) r this' cx' :
  process yield_first sender_rx mac_key data ks wr cx = Ret (r, this', cx') → P (env cx) (env cx').
Proof.
  unfold process. destruct (decide (data = [])); [apply send_again_frame|]. destruct (seal mac_key ks data) as [to_send ks'].
  intros Hk%poll_write_frame. exact Hk.
Qed.

Lemma handle_next_frame ks (wr : Wr) (cx : Cx Waker E) r this' cx' :
  handle_next yield_first sender_rx mac_key ks wr cx = Ret (r, this', cx') → P (env cx) (env cx').
Proof. apply receive_then_frame. intros data. apply process_frame. Qed.

Lemma send_poll_frame (this : SendTask Waker Wr) (cx : Cx Waker E) r this' cx' :
  send_poll yield_first sender_rx mac_key this cx = Ret (r, this', cx') → P (env cx) (env cx').
Proof.
  destruct this as [packet ks wr []|ks wr|to_send ks f|ks wr|]; cbn [send_poll yield_poll mbind outcome_bind mret outcome_ret].
  - destruct packet; [apply process_frame|apply handle_next_frame].
  - by intros [= <- <- <-].
  - pose proof handle_next_frame as H. pose proof connect_next_frame as H'. destruct yield_first; [apply H|apply H'].
  - apply poll_write_frame.
  - apply poll_flush_frame.
  - done.
Qed.
End writing.
End frames.

(** ** Every poll of a half *)

Section greet_proof.
Context {Waker E R S I A : Type} `{!EqDecision Waker}.
Context `{read : !AsyncRead Waker E R S, read_laws : !AsyncReadLaws Waker E R S}.
Context {C : Type} `{mpsc : !Mpsc E I (bytes * C), read_frame : !ReadFrame Waker E R S I (bytes * C)}.
Context (s : S).
Implicit Types (cx : Cx Waker E) (g : Greet Waker R).

Definition greeting (p0 : nat) g (e : E) : Prop :=
  match g with
  | GrIv f => source (future f) = s ∧ position (future f) = p0 ∧ (p0 <= length (arrived s e))%nat
  | GrKeyfinder iv f =>
      source (future f) = s ∧ position (future f) = (p0 + 16)%nat ∧ (p0 + 16 <= length (arrived s e))%nat
      ∧ iv = take 16 (drop p0 (arrived s e))
  | GrDone => False
  end.

Definition greet_deadline g : option (TimeoutFuture (Waker := Waker) R) :=
  match g with GrIv f | GrKeyfinder _ f => Some f | GrDone => None end.
Definition greet_armed g cx : Prop := ∀ f, greet_deadline g = Some f → deadline_armed f cx.

(** Pending: woken, or registered for the deadline and for more bytes. *)
Definition greet_awaits g' cx cx' : Prop :=
  woke cx cx'
  ∨ (∃ f, greet_deadline g' = Some f ∧ (timeout_at f, waker cx) ∈ sleep_register cx') ∧ input_waits s (waker cx) (env cx').

Definition greeted (p0 : nat) cx (r : Poll (result (bytes * bytes * R))) g' cx' : Prop :=
  match r with
  | Pending => greeting p0 g' (env cx') ∧ greet_armed g' cx' ∧ greet_awaits g' cx cx'
  | Ready (Ok (iv, kf, rd)) =>
      source rd = s ∧ position rd = (p0 + 32)%nat ∧ (p0 + 32 <= length (arrived s (env cx')))%nat
      ∧ take 32 (drop p0 (arrived s (env cx'))) = iv ++ kf ∧ length iv = 16%nat ∧ length kf = 16%nat
  | Ready (Err _) => True
  end.

Lemma take_grows (p n : nat) (e e' : E) :
  stream_grows s e e' → (p + n <= length (arrived s e))%nat →
  take n (drop p (arrived s e')) = take n (drop p (arrived s e)) ∧ (p + n <= length (arrived s e'))%nat.
Proof.
  intros (more & -> & _) Hle. rewrite drop_app_le, take_app_le by (rewrite ?length_drop; lia).
  split; [done|]. rewrite length_app. lia.
Qed.

Lemma greeting_grows p0 g (e e' : E) : stream_grows s e e' → greeting p0 g e → greeting p0 g e'.
Proof.
  intros Hg. destruct g as [f|iv f|]; cbn [greeting]; [| |done].
  - intros (H1 & H2 & H3). split_and!; [done|done|]. destruct Hg as (more & -> & _). rewrite length_app. lia.
  - intros (H1 & H2 & H3 & ->). destruct (take_grows p0 16 e e' Hg H3) as [-> ?]. by split_and!.
Qed.

Lemma poll_keyfinder_ok p0 iv f cx :
  greeting p0 (GrKeyfinder iv f) (env cx) → deadline_armed f cx →
  ∃ r g' cx', poll_keyfinder iv f cx = Ret (r, g', cx') ∧ quietly s cx cx' ∧ greeted p0 cx r g' cx'.
Proof.
  intros (Hs & Hp & Hle & Hiv) Harm. destruct (read_piece s 16 f cx Hs ltac:(lia) Harm) as (r & f' & cx' & Hr & Hq & Hres).
  unfold poll_keyfinder. rewrite Hr. cbn [mbind outcome_bind].
  pose proof Hq as (_ & _ & _ & _ & _ & Hg & _). destruct (take_grows p0 16 _ _ Hg Hle) as [Hiv' _].
  destruct r as [[kf|why]|]; eexists _, _, _; (split; [reflexivity|]); (split; [exact Hq|]); cbn [greeted]; [|done|].
  - destruct Hres as (Hs' & Hp' & Hle' & Hkf). assert (Hlk : length kf = 16%nat) by (rewrite Hkf, length_take, length_drop; lia).
    assert (Hli : length iv = 16%nat) by (rewrite Hiv, length_take, length_drop; lia).
    split_and!; [done|lia|lia| |done|done]. change 32%nat with (16 + 16)%nat. rewrite <- take_take_drop.
    rewrite Hiv', <- Hiv, drop_drop, <- Hp, <- Hkf. done.
  - destruct Hres as (H1 & H2 & H3 & H4 & H5 & H6). split; [|split].
    + split_and!; [done|lia| |by rewrite Hiv']. destruct Hg as (more & -> & _). rewrite length_app. lia.
    + by intros f0 [= <-].
    + destruct H6 as [(cxa & cxb & _ & _ & ?)|[_ ?]]; [by left|right]. split; [exists f'; by rewrite H3|done].
Qed.

Lemma greet_poll_ok p0 g cx :
  greeting p0 g (env cx) → greet_armed g cx →
  ∃ r g' cx', greet_poll g cx = Ret (r, g', cx') ∧ quietly s cx cx' ∧ greeted p0 cx r g' cx'.
Proof.
  intros Hgr Harm. destruct g as [f|iv f|]; cbn [greet_poll]; [|by apply poll_keyfinder_ok; [|apply Harm]|done].
  destruct Hgr as (Hs & Hp & Hle). destruct (read_piece s 16 f cx Hs ltac:(lia) (Harm f eq_refl)) as (r & f' & cx1 & Hr & Hq & Hres).
  unfold poll_iv. rewrite Hr. cbn [mbind outcome_bind]. pose proof Hq as (Hw & Hc & _ & Hsl & Hwo & Hg & _).
  destruct r as [[iv|why]|].
  - destruct Hres as (Hs' & Hp' & Hle' & Hiv). unfold timeout_future, instant_now.
    match goal with |- context [poll_keyfinder iv ?f ?c] =>
      destruct (poll_keyfinder_ok p0 iv f c) as (r & g' & cx' & Hk & Hq' & Hgreet) end.
    { split_and!; [done|cbn; lia|cbn; lia|cbn; by rewrite Hiv, Hp]. }
    { by intros w [=]. }
    exists r, g', cx'. split; [exact Hk|].
    assert (Hq2 : quietly s cx1 cx') by (etransitivity; [|exact Hq']; apply instant_now_quietly).
    split; [by etransitivity|]. destruct r as [[[[? ?] ?]|]|]; [done|done|]. destruct Hgreet as (H1 & H2 & H3). split_and!; [done|done|].
    unfold greet_awaits in *. cbn [waker] in H3. rewrite Hw in H3. destruct H3 as [(l & Hl & Hin)|?]; [left|by right].
    apply (woke_mono cx cx1); [done|done|]. exists l. split; [exact Hl|]. by rewrite Hw.
  - eexists _, _, _. by split.
  - destruct Hres as (H1 & H2 & H3 & H4 & H5 & H6). eexists _, _, _. split; [reflexivity|]. split; [exact Hq|]. split; [|split].
    + split_and!; [done|lia|]. destruct Hg as (more & -> & _). rewrite length_app. lia.
    + by intros f0 [= <-].
    + destruct H6 as [(cxa & cxb & _ & _ & ?)|[_ ?]]; [by left|right]. split; [exists f'; by rewrite H3|done].
Qed.
End greet_proof.

Section hello_proof.
Context {Waker E Wr S C : Type} `{!EqDecision Waker}.
Context `{write : !AsyncWrite Waker E Wr S, write_laws : !AsyncWriteLaws Waker E Wr S}.
Context `{mpsc : !Mpsc E C bytes, write_frame : !WriteFrame Waker E Wr S C bytes}.
Context (s : S) (base iv keyfinder : bytes).
Implicit Types (cx : Cx Waker E) (h : Hello Waker Wr).

Definition helloing h (e : E) : Prop :=
  match h with
  | HlIv f => sink (future f) = s ∧ accepted (future f) = base ∧ writing iv (future f) e
  | HlKeyfinder f => sink (future f) = s ∧ accepted (future f) = base ++ iv ∧ writing keyfinder (future f) e
  | HlFlush wr => sink wr = s ∧ accepted wr = base ++ iv ++ keyfinder ∧ writing [] wr e
  | HlDone => False
  end.

Definition hello_deadline h : option (TimeoutFuture (Waker := Waker) Wr) :=
  match h with HlIv f | HlKeyfinder f => Some f | _ => None end.
Definition hello_armed h cx : Prop := ∀ f, hello_deadline h = Some f → deadline_armed f cx.

Definition hello_awaits h' cx cx' : Prop :=
  woke cx cx'
  ∨ output_waits s (waker cx) (env cx')
    ∧ ((∃ f, hello_deadline h' = Some f ∧ (timeout_at f, waker cx) ∈ sleep_register cx') ∨ ∃ wr, h' = HlFlush wr).

Definition said cx (r : Poll (result Wr)) h' cx' : Prop :=
  unseen (C := C) s cx cx' ∧ transmitted s (env cx') `prefix_of` base ++ iv ++ keyfinder
  ∧ match r with
    | Pending => helloing h' (env cx') ∧ hello_armed h' cx' ∧ hello_awaits h' cx cx'
    | Ready (Ok wr) => settled s (base ++ iv ++ keyfinder) wr (env cx')
    | Ready (Err _) => True
    end.

Lemma said_unseen cx cx1 r h' cx' : unseen (C := C) s cx cx1 → said cx1 r h' cx' → said cx r h' cx'.
Proof.
  intros Hu (Hu' & Hp & Hr). split; [by etransitivity|]. split; [done|]. destruct r as [[wr|]|]; [done|done|].
  destruct Hr as (H1 & H2 & H3). split; [done|]. split; [done|]. destruct Hu as ((Hw & _ & _ & Hwo) & _).
  unfold hello_awaits in *. rewrite <- Hw. destruct H3; [left; by eapply woke_mono|by right].
Qed.

Lemma hello_flush_ok wr cx :
  helloing (HlFlush wr) (env cx) →
  ∃ r h' cx', poll_hello_flush wr cx = Ret (r, h', cx') ∧ said cx r h' cx'.
Proof.
  intros (Hs & Ha & Hw). unfold poll_hello_flush.
  destruct (flush_returns wr cx Hw) as (r & wr' & cx' & Hf & (Hwk & Hc & Hrd & Hsl & Hwo) & Hsink & Ht & Hp & Hres).
  rewrite Hf. cbn [mbind outcome_bind]. rewrite Hs in Hsink, Ht, Hp, Hres.
  assert (Hu : unseen (C := C) s cx cx').
  { split; [by split_and!; [..|lia|]|]. split; [by rewrite Hsl|]. split; [intros c; by eapply flush_queued|done]. }
  destruct r as [[[]|why]|]; eexists _, _, _; (split; [reflexivity|]); (split; [exact Hu|]); (split; [by rewrite <- Ha|]).
  - destruct Hres as (H1 & H2 & H3). split_and!; [done|congruence|done|congruence].
  - done.
  - destruct Hres as (H1 & H2 & H3). split; [by split_and!; congruence|]. split; [by intros f [=]|].
    destruct H3; [by left|right]. split; [done|]. right. eauto.
Qed.

Lemma hello_keyfinder_ok f cx :
  helloing (HlKeyfinder f) (env cx) → deadline_armed f cx →
  ∃ r h' cx', poll_hello_keyfinder keyfinder f cx = Ret (r, h', cx') ∧ said cx r h' cx'.
Proof.
  intros (Hs & Ha & Hw) Harm.
  destruct (timed_write (C := C) s keyfinder f cx Hs Hw Harm) as (r & f' & cx1 & Hf & Hu & Hp & Hres).
  rewrite Ha, <- app_assoc in Hp.
  unfold poll_hello_keyfinder. rewrite Hf. cbn [mbind outcome_bind]. destruct r as [[[]|why]|].
  - destruct Hres as (H1 & H2 & H3). destruct (hello_flush_ok (future f') cx1) as (r & h' & cx' & Hfl & Hsaid).
    { split_and!; [done|by rewrite H2, Ha, app_assoc|done]. }
    exists r, h', cx'. split; [exact Hfl|]. by eapply said_unseen.
  - eexists _, _, _. by split.
  - destruct Hres as (H1 & H2 & H3 & _ & H4 & Htimer & H5). eexists _, _, _. split; [reflexivity|]. split; [exact Hu|]. split; [done|].
    split; [by split_and!; congruence|]. split; [by intros f0 [= <-]|].
    destruct H5 as [(cxa & cxb & _ & _ & ?)|?]; [by left|right]. split; [done|left]. by exists f'.
Qed.

Lemma hello_poll_ok h cx :
  helloing h (env cx) → hello_armed h cx →
  ∃ r h' cx', hello_poll iv keyfinder h cx = Ret (r, h', cx') ∧ said cx r h' cx'.
Proof.
  intros Hh Harm. destruct h as [f|f|wr|]; cbn [hello_poll]; [|by apply hello_keyfinder_ok; [|apply Harm]|by apply hello_flush_ok|done].
  destruct Hh as (Hs & Ha & Hw).
  destruct (timed_write (C := C) s iv f cx Hs Hw (Harm f eq_refl)) as (r & f' & cx1 & Hf & Hu & Hp & Hres).
  assert (Hp' : transmitted s (env cx1) `prefix_of` base ++ iv ++ keyfinder).
  { rewrite Ha in Hp. etransitivity; [exact Hp|]. rewrite (app_assoc base). by apply prefix_app_r. }
  unfold poll_hello_iv. rewrite Hf. cbn [mbind outcome_bind]. destruct r as [[[]|why]|].
  - destruct Hres as (H1 & H2 & H3). unfold timeout_future, instant_now.
    match goal with |- context [poll_hello_keyfinder _ ?f ?c] => destruct (hello_keyfinder_ok f c) as (r & h' & cx' & Hfl & Hsaid) end.
    { split_and!; [done|by cbn; rewrite H2, Ha|by apply writing_starts]. }
    { by intros w [=]. }
    exists r, h', cx'. split; [exact Hfl|]. eapply said_unseen; [|exact Hsaid]. etransitivity; [exact Hu|apply instant_now_unseen].
  - eexists _, _, _. by split.
  - destruct Hres as (H1 & H2 & H3 & _ & H4 & Htimer & H5). eexists _, _, _. split; [reflexivity|]. split; [exact Hu|]. split; [done|].
    split; [by split_and!; congruence|]. split; [by intros f0 [= <-]|].
    destruct H5 as [(cxa & cxb & _ & _ & ?)|?]; [by left|right]. split; [done|left]. by exists f'.
Qed.
End hello_proof.
