(* ===== verification/LinkTasks.v ===== *)
(** [connect_impl] and [handle_connection] as the futures they are
    ([rust/src/legacy_tcp.rs]): the socket, the handshake, the two tasks.

    The environment is that of [LinkEnv]. A state says at which [await] the
    function stands; the parts are the futures of [Descriptors], [LinkHello],
    [LinkSend] and [LinkRecv], and the two tasks run in [select2_noresult]. *)
From S2P Require Import Prelude Gimli Rng IpAddr Futures Channel AllSenders Runtime Descriptors AsyncIo Framing LegacyTcp.
From S2P Require Import LinkEnv LinkRecv LinkSend LinkHello.

Section tasks.
Context {Os W R Wr S I Sw C : Type}.
Context `{posix : !Posix Os, read : !AsyncRead nat (Io Os) R S, write : !AsyncWrite nat (Io Os) Wr S, sockets : !Sockets Os R Wr}.
Context `{mpsc_in : !Mpsc W I (bytes * C), mpsc_sw : !Mpsc W Sw (AllSendersMessage C)}.
Context `{mpsc_c : !Mpsc W C bytes, mpsc_new : !MpscNew W C bytes, receive : !Receive nat W C bytes}.
Context (all_senders : AllSenders Sw) (incoming : I).

Abbreviation E := (LinkEnv Os W).
Abbreviation Context := (Cx nat E).

(** A function of the environment, called from a task. *)
Definition call {T} (f : E → T * E) (cx : Context) : T * Context :=
  let '(v, e) := f (env cx) in (v, MkCx (waker cx) (clock cx) (reads cx) (sleep_register cx) (woken cx) e).

(** From [set_nodelay] to the second [fd_make_nonblocking]: the reading and the
    writing copy of the socket. *)
Definition open_halves (sock : nat) (o : Os) : outcome (result (nat * nat) * Os) :=
  '(r, o) ← set_nodelay sock o;
  match r with
  | Err why => mret (Err why, o)
  | Ok _ =>
      match dup sock o with
      | (Err why, o) => mret (Err why, o)
      | (Ok read_sock, o) =>
          match dup sock o with
          | (Err why, o) => mret (Err why, o)
          | (Ok write_sock, o) =>
              match fd_make_nonblocking read_sock o with
              | (Err why, o) => mret (Err why, o)
              | (Ok _, o) =>
                  match fd_make_nonblocking write_sock o with
                  | (Err why, o) => mret (Err why, o)
                  | (Ok _, o) => mret (Ok (read_sock, write_sock), o)
                  end
              end
          end
      end
  end.

Definition halves (sock : nat) (cx : Context) : outcome (result (R * Wr) * Context) :=
  '(r, o) ← open_halves sock (os (io (env cx)));
  let i := MkIo (POLL_REGISTER (io (env cx))) o in
  let '(_, cx) := call (λ e, (tt, set_io i e)) cx in
  mret (match r with Err why => Err why | Ok (r, w) => Ok (read_half r i, write_half w i) end, cx).

(** [let iv = ..], from the generator of the program. *)
Definition draw (cx : Context) : bytes * Context :=
  call (λ e, let '(iv, r) := draw_iv (RNG e) in (iv, set_RNG r e)) cx.

(** [unbounded()], and the new sender made known to the switchboard. *)
Definition register (cx : Context) : C * Context :=
  call (λ e, let '(tx, e) := unbounded e in (tx, AllSenders.add all_senders tx e)) cx.

(** ** [handle_connection] *)

Section server.
Context (keys : list bytes).

Inductive Server :=
| SvStart (conn : nat)
| SvGreet (writer : Wr) (greet : Greet nat R)
| SvHello (key incoming_iv send_iv : bytes) (reader : R) (hello : Hello nat Wr)
| SvTasks (key incoming_iv send_iv : bytes) (sender_tx : C) (tasks : SendTask nat Wr * RecvTask nat R)
| SvDone.

Abbreviation Served := (outcome (Poll (result unit) * Server * Context)).

Definition poll_tasks (key incoming_iv send_iv : bytes) (sender_tx : C) (tasks : SendTask nat Wr * RecvTask nat R)
    (cx : Context) : Served :=
  '(r, tasks, cx) ← select2_poll (send_poll true sender_tx (mac_key key send_iv))
                      (recv_poll incoming sender_tx (mac_key key incoming_iv)) tasks cx;
  match r with
  | Pending => mret (Pending, SvTasks key incoming_iv send_iv sender_tx tasks, cx)
  | Ready _ => mret (Ready (Ok tt), SvDone, cx)
  end.

Definition after_hello (key incoming_iv send_iv : bytes) (reader : R)
    (hello : Poll (result Wr) * Hello nat Wr * Context) : Served :=
  let '(r, hello, cx) := hello in
  match r with
  | Pending => mret (Pending, SvHello key incoming_iv send_iv reader hello, cx)
  | Ready (Err why) => mret (Ready (Err why), SvDone, cx)
  | Ready (Ok writer) =>
      let '(sender_tx, cx) := register cx in
      poll_tasks key incoming_iv send_iv sender_tx
        (send_start true (Framing.new (enc_key key send_iv)) (BufWriter_new (Waker := nat) (E := E) writer),
         recv_start (Framing.new (enc_key key incoming_iv)) (BufReader_new (Waker := nat) (E := E) reader)) cx
  end.

Definition after_greet (writer : Wr) (greet : Poll (result (bytes * bytes * R)) * Greet nat R * Context) : Served :=
  let '(r, greet, cx) := greet in
  match r with
  | Pending => mret (Pending, SvGreet writer greet, cx)
  | Ready (Err why) => mret (Ready (Err why), SvDone, cx)
  | Ready (Ok (incoming_iv, incoming_keyfinder, reader)) =>
      match find_key keys incoming_iv incoming_keyfinder with
      | None => mret (Ready (Err "Got incorrect keyfinder"), SvDone, cx)
      | Some key =>
          let '(send_iv, cx) := draw cx in
          h ← hello_first send_iv (keyfinder key send_iv) writer cx;
          after_hello key incoming_iv send_iv reader h
      end
  end.

Definition handle_connection_poll : Fut (Waker := nat) (E := E) Server (result unit) := λ this cx,
  match this with
  | SvStart conn =>
      '(r, cx) ← halves conn cx;
      match r with
      | Err why => mret (Ready (Err why), SvDone, cx)
      | Ok (reader, writer) => g ← greet_first reader cx; after_greet writer g
      end
  | SvGreet writer greet => g ← greet_poll greet cx; after_greet writer g
  | SvHello key incoming_iv send_iv reader hello =>
      h ← hello_poll send_iv (keyfinder key send_iv) hello cx;
      after_hello key incoming_iv send_iv reader h
  | SvTasks key incoming_iv send_iv sender_tx tasks => poll_tasks key incoming_iv send_iv sender_tx tasks cx
  | SvDone => Panic "`async fn` resumed after completion"
  end.
End server.

(** ** [connect_impl] *)

Section client.
Context (key : bytes).

(** Its receiving task: the peer's half of the handshake, then the loop. *)
Inductive ClientRecv :=
| CrStart (reader : R)
| CrGreet (greet : Greet nat R)
| CrLoop (recv_iv : bytes) (task : RecvTask nat R)
| CrDone.

Abbreviation Received := (outcome (Poll (result unit) * ClientRecv * Context)).

Definition poll_loop (sender_tx : C) (recv_iv : bytes) (task : RecvTask nat R) (cx : Context) : Received :=
  '(r, task, cx) ← recv_poll incoming sender_tx (mac_key key recv_iv) task cx;
  match r with
  | Pending => mret (Pending, CrLoop recv_iv task, cx)
  | Ready v => mret (Ready v, CrDone, cx)
  end.

Definition check_greet (sender_tx : C) (greet : Poll (result (bytes * bytes * R)) * Greet nat R * Context) : Received :=
  let '(r, greet, cx) := greet in
  match r with
  | Pending => mret (Pending, CrGreet greet, cx)
  | Ready (Err why) => mret (Ready (Err why), CrDone, cx)
  | Ready (Ok (recv_iv, recv_keyfinder, reader)) =>
      let expected_keyfinder := keyfinder key recv_iv in
      if decide (expected_keyfinder ≠ recv_keyfinder) then mret (Ready (Err "Got incorrect keyfinder"), CrDone, cx)
      else poll_loop sender_tx recv_iv (recv_start (Framing.new (enc_key key recv_iv)) reader) cx
  end.

Definition connect_recv_poll (sender_tx : C) : Fut (Waker := nat) (E := E) ClientRecv (result unit) := λ this cx,
  match this with
  | CrStart reader => g ← greet_first (BufReader_new (Waker := nat) (E := E) reader) cx; check_greet sender_tx g
  | CrGreet greet => g ← greet_poll greet cx; check_greet sender_tx g
  | CrLoop recv_iv task => poll_loop sender_tx recv_iv task cx
  | CrDone => Panic "`async fn` resumed after completion"
  end.

Inductive Client :=
| ClConnect (ct : ConnectTimeout)
| ClHello (sender_iv : bytes) (reader : R) (hello : Hello nat Wr)
| ClTasks (sender_iv : bytes) (sender_tx : C) (tasks : SendTask nat Wr * ClientRecv)
| ClDone.

Abbreviation Connected := (outcome (Poll (result unit) * Client * Context)).

Definition client_tasks (sender_iv : bytes) (sender_tx : C) (tasks : SendTask nat Wr * ClientRecv) (cx : Context) : Connected :=
  '(r, tasks, cx) ← select2_poll (send_poll false sender_tx (mac_key key sender_iv)) (connect_recv_poll sender_tx) tasks cx;
  match r with
  | Pending => mret (Pending, ClTasks sender_iv sender_tx tasks, cx)
  | Ready _ => mret (Ready (Ok tt), ClDone, cx)
  end.

Definition client_after_hello (sender_iv : bytes) (reader : R) (hello : Poll (result Wr) * Hello nat Wr * Context) : Connected :=
  let '(r, hello, cx) := hello in
  match r with
  | Pending => mret (Pending, ClHello sender_iv reader hello, cx)
  | Ready (Err why) => mret (Ready (Err why), ClDone, cx)
  | Ready (Ok writer) =>
      let '(sender_tx, cx) := register cx in
      client_tasks sender_iv sender_tx
        (send_start false (Framing.new (enc_key key sender_iv)) (BufWriter_new (Waker := nat) (E := E) writer), CrStart reader) cx
  end.

(** [addr] is what [format!("{}:{}", host, port).parse()] gives. *)
Definition connect_impl_poll (addr : result SocketAddr) : Fut (Waker := nat) (E := E) Client (result unit) := λ this cx,
  match this with
  | ClConnect ct =>
      match addr with
      | Err why => mret (Ready (Err why), ClDone, cx)
      | Ok addr =>
          '(r, ct, cx) ← focus io set_io (connect_timeout addr (from_secs 5)) ct cx;
          match r with
          | Pending => mret (Pending, ClConnect ct, cx)
          | Ready (Err why) => mret (Ready (Err why), ClDone, cx)
          | Ready (Ok sock) =>
              '(r, cx) ← halves sock cx;
              match r with
              | Err why => mret (Ready (Err why), ClDone, cx)
              | Ok (reader, writer) =>
                  let '(sender_iv, cx) := draw cx in
                  h ← hello_first sender_iv (keyfinder key sender_iv) writer cx;
                  client_after_hello sender_iv reader h
              end
          end
      end
  | ClHello sender_iv reader hello =>
      h ← hello_poll sender_iv (keyfinder key sender_iv) hello cx;
      client_after_hello sender_iv reader h
  | ClTasks sender_iv sender_tx tasks => client_tasks sender_iv sender_tx tasks cx
  | ClDone => Panic "`async fn` resumed after completion"
  end.
End client.
End tasks.
Arguments Server : clear implicits.
Arguments Client : clear implicits.
Arguments ClientRecv : clear implicits.

#[local] Opaque keyfinder enc_key mac_key.

(** ** Every poll *)

Section proof.
Context {Os W R Wr S I Sw C : Type} `{!EqDecision I, !EqDecision Sw, !EqDecision C}.
Context `{posix : !Posix Os, posix_laws : !PosixLaws Os}.
Context `{read : !AsyncRead nat (Io Os) R S, read_laws : !AsyncReadLaws nat (Io Os) R S}.
Context `{write : !AsyncWrite nat (Io Os) Wr S, write_laws : !AsyncWriteLaws nat (Io Os) Wr S}.
Context `{sockets : !Sockets Os R Wr, sockets_laws : !SocketsLaws Os R Wr S}.
Context `{mpsc_in : !Mpsc W I (bytes * C), laws_in : !MpscLaws W I (bytes * C)}.
Context `{mpsc_sw : !Mpsc W Sw (AllSendersMessage C), laws_sw : !MpscLaws W Sw (AllSendersMessage C)}.
Context `{mpsc_c : !Mpsc W C bytes, mpsc_new : !MpscNew W C bytes, new_laws : !MpscNewLaws W C bytes}.
Context `{receive : !Receive nat W C bytes, receive_laws : !ReceiveLaws nat W C bytes}.
Context `{frame_sw_in : !MpscFrame W Sw (AllSendersMessage C) I (bytes * C), frame_in_sw : !MpscFrame W I (bytes * C) Sw (AllSendersMessage C)}.
Context `{frame_sw_c : !MpscFrame W Sw (AllSendersMessage C) C bytes, frame_in_c : !MpscFrame W I (bytes * C) C bytes}.
Context `{new_in : !MpscNewFrame W C bytes I (bytes * C), new_sw : !MpscNewFrame W C bytes Sw (AllSendersMessage C)}.
Context `{next_in : !NextFrame nat W C bytes I (bytes * C), next_sw : !NextFrame nat W C bytes Sw (AllSendersMessage C)}.
Context (all_senders : AllSenders Sw) (incoming : I).
(** The socket, as it is read from and as it is written to. *)
Context (s_in s_out : S).

Abbreviation E := (LinkEnv Os W).
Implicit Types (cx : Cx nat E) (e : E).

(** What reading leaves alone, and what writing does. *)
Definition reading_keeps (e e' : E) : Prop :=
  (transmitted (Waker := nat) s_out e' = transmitted (Waker := nat) s_out e ∧ RNG e' = RNG e)
  ∧ (∀ c : C, queued e' c = queued e c) ∧ (∀ c : Sw, queued e' c = queued e c).
Definition writing_keeps (e e' : E) : Prop :=
  (stream_grows (Waker := nat) s_in e e' ∧ RNG e' = RNG e)
  ∧ (∀ c : I, queued e' c = queued e c ∧ is_open e' c = is_open e c) ∧ (∀ c : Sw, queued e' c = queued e c).

#[export] Instance reading_keeps_preorder : PreOrder reading_keeps.
Proof.
  split; [intros a; by split_and!|]. intros a b c ([H1 R1] & H2 & H3) ([H4 R2] & H5 & H6).
  split_and!; [congruence|congruence|intros; by rewrite H5|intros; by rewrite H6].
Qed.
#[export] Instance writing_keeps_preorder : PreOrder writing_keeps.
Proof.
  split; [intros a; split_and!; [reflexivity|done|done|done]|]. intros a b c ([H1 R1] & H2 & H3) ([H4 R2] & H5 & H6).
  split_and!; [by etransitivity|congruence|intros x; destruct (H2 x), (H5 x); split; congruence|intros; by rewrite H6].
Qed.

Lemma recv_keeps sender_tx mk (this : RecvTask nat R) cx r this' cx' :
  recv_poll incoming sender_tx mk this cx = Ret (r, this', cx') → reading_keeps (env cx) (env cx').
Proof.
  apply (recv_poll_frame reading_keeps).
  - intros n rd cx0 res rd' cx0' (cx1 & Hr & ->)%focus_inv. split_and!; [|done|done|done]. exact (read_transmitted n rd _ _ _ _ s_out Hr).
  - intros a e. split_and!; [apply send_transmitted| |intros c; apply frame_queued|intros c; apply frame_queued].
    cbn. by destruct (unbounded_send incoming a (channels e)).
Qed.

Lemma greet_keeps (g : Greet nat R) cx r g' cx' :
  greet_poll g cx = Ret (r, g', cx') → reading_keeps (env cx) (env cx').
Proof.
  apply (greet_poll_frame reading_keeps). intros n rd cx0 res rd' cx0' (cx1 & Hr & ->)%focus_inv. split_and!; [|done|done|done].
  exact (read_transmitted n rd _ _ _ _ s_out Hr).
Qed.

Lemma write_all_keeps data (wr : Wr) cx res wr' cx' :
  write_all_poll data wr cx = Ret (res, wr', cx') → writing_keeps (env cx) (env cx').
Proof. intros (cx1 & Hr & ->)%focus_inv. split_and!; [|done|done|done]. exact (write_arrived data wr _ _ _ _ s_in Hr). Qed.
Lemma flush_keeps (wr : Wr) cx res wr' cx' :
  flush_poll wr cx = Ret (res, wr', cx') → writing_keeps (env cx) (env cx').
Proof. intros (cx1 & Hr & ->)%focus_inv. split_and!; [|done|done|done]. exact (flush_arrived wr _ _ _ _ s_in Hr). Qed.

Lemma hello_keeps iv kf (h : Hello nat Wr) cx r h' cx' :
  hello_poll iv kf h cx = Ret (r, h', cx') → writing_keeps (env cx) (env cx').
Proof. apply (hello_poll_frame writing_keeps); [apply write_all_keeps|apply flush_keeps]. Qed.

Lemma send_keeps yield_first sender_rx mk (this : SendTask nat Wr) cx r this' cx' :
  send_poll yield_first sender_rx mk this cx = Ret (r, this', cx') → writing_keeps (env cx) (env cx').
Proof.
  apply (send_poll_frame writing_keeps); [apply write_all_keeps|apply flush_keeps|]. intros cx0 cx1 r0 Hn.
  split_and!; [| |intros c; exact (next_frame _ _ _ _ c Hn)|intros c; exact (proj1 (next_frame _ _ _ _ c Hn))];
    cbn in Hn; destruct (next_poll sender_rx _); injection Hn as _ <-; [|done]. exists []. by rewrite app_nil_r.
Qed.

(** *** The socket *)

Lemma open_halves_returns sock o : ∃ r o', open_halves sock o = Ret (r, o').
Proof.
  unfold open_halves, set_nodelay. pose proof (nodelay_returns sock o) as Hn. destruct (set_tcp_nodelay sock o) as [res o1]. cbn [fst] in Hn.
  destruct Hn as [->| ->]; cbn [Z.eqb mbind outcome_bind mret outcome_ret]; [|by eexists _, _].
  destruct (dup sock o1) as [[rd|] o2]; [|by eexists _, _]. destruct (dup sock o2) as [[wr|] o3]; [|by eexists _, _].
  destruct (fd_make_nonblocking rd o3) as [[|] o4]; [|by eexists _, _].
  destruct (fd_make_nonblocking wr o4) as [[|] o5]; by eexists _, _.
Qed.

(** Both copies are left non-blocking. *)
Lemma open_halves_nonblocking sock o rd wr o' :
  open_halves sock o = Ret (Ok (rd, wr), o') → nonblocking rd o' ∧ nonblocking wr o'.
Proof.
  unfold open_halves. destruct (set_nodelay sock o) as [[[|] o1]|]; cbn [mbind outcome_bind mret outcome_ret]; [|done|done].
  destruct (dup sock o1) as [[rd0|] o2]; [|done]. destruct (dup sock o2) as [[wr0|] o3]; [|done].
  destruct (fd_make_nonblocking rd0 o3) as [[[]|] o4] eqn:Hr; [|done].
  destruct (fd_make_nonblocking wr0 o4) as [[[]|] o5] eqn:Hw; [|done]. intros [= <- <- <-]. split.
  - eapply make_nonblocking_stays; [exact Hw|]. by eapply make_nonblocking_ok.
  - by eapply make_nonblocking_ok.
Qed.

(** *** The two tasks together

    The receiving side is a future [recv] with an invariant [J]; [D] is what can be
    said of the packets it has delivered, also when it ends. *)
Definition went (cx cx' : Cx nat E) : Prop := clock cx' = clock cx ∧ sleep_register cx `prefix_of` sleep_register cx'.
#[export] Instance went_preorder : PreOrder went.
Proof. split; [intros a; split; reflexivity|]. intros a b c [H1 H2] [H3 H4]. split; [congruence|by etransitivity]. Qed.

Lemma went_poll w others cx : went cx (at_poll w others cx).
Proof. split; reflexivity. Qed.
(** In a poll the waker is the same. *)
Definition polled (cx cx' : Cx nat E) : Prop := waker cx' = waker cx ∧ went cx cx'.
#[export] Instance polled_preorder : PreOrder polled.
Proof. split; [by intros a|]. intros a b c [H1 H2] [H3 H4]. split; [congruence|by etransitivity]. Qed.
Lemma polled_went cx cx' : polled cx cx' → went cx cx'.
Proof. by intros [_ H]. Qed.
#[local] Hint Resolve polled_went : core.
Lemma unseen_polled s (cx cx' : Cx nat E) : unseen (C := C) s cx cx' → polled cx cx'.
Proof. intros ((Hw & Hc & _) & Hs & _). by split_and!. Qed.
Lemma quietly_polled s (cx cx' : Cx nat E) : quietly (I := I) (C := C) s cx cx' → polled cx cx'.
Proof. intros (Hw & Hc & _ & Hs & _). by split_and!. Qed.

Lemma armed_went {X} (f : TimeoutFuture X) cx cx' : went cx cx' → deadline_armed f cx → deadline_armed f cx'.
Proof. intros [_ [l Hl]] Ha w Hw. rewrite Hl. apply elem_of_app. left. by apply Ha. Qed.

Section select.
Context (yield_first : bool) (tx : C) (send_mac : bytes) (base : bytes) (ks0 : KeystreamGen).
Context {X : Type} (recv : Fut (Waker := nat) (E := E) X (result unit)) (J : list bytes → X → Cx nat E → Prop) (D : list bytes → E → Prop).

Definition recv_step ds cx (r : Poll (result unit)) (x' : X) cx' : Prop :=
  polled cx cx' ∧ reading_keeps (env cx) (env cx') ∧ stream_grows (Waker := nat) s_in (env cx) (env cx')
  ∧ ∃ sent, (length sent <= 1)%nat ∧ received incoming tx sent (env cx) (env cx')
    ∧ D (ds ++ sent) (env cx') ∧ (r = Pending → J (ds ++ sent) x' cx').

Context (recv_ok : ∀ ds x cx, J ds x cx → ∃ r x' cx', recv x cx = Ret (r, x', cx') ∧ recv_step ds cx r x' cx').
Context (J_kept : ∀ ds x cx cx', went cx cx' → stream_grows (Waker := nat) s_in (env cx) (env cx') → J ds x cx → J ds x cx').

(** What both have done in a poll. *)
Definition both_step ps ds cx (r : Poll unit) (st' : SendTask nat Wr) (x' : X) cx' : Prop :=
  polled cx cx' ∧ stream_grows (Waker := nat) s_in (env cx) (env cx')
  ∧ (∀ c : Sw, queued (env cx') c = queued (env cx) c) ∧ RNG (env cx') = RNG (env cx)
  ∧ ∃ took sent, (length took <= 1)%nat ∧ (length sent <= 1)%nat
    ∧ queued (env cx) tx = took ++ queued (env cx') tx ∧ received incoming tx sent (env cx) (env cx')
    ∧ transmitted (Waker := nat) s_out (env cx') `prefix_of` base ++ sealed send_mac ks0 (ps ++ took)
    ∧ D (ds ++ sent) (env cx')
    ∧ (r = Pending → sending yield_first send_mac s_out base ks0 (ps ++ took) st' (env cx') ∧ write_armed st' cx' ∧ J (ds ++ sent) x' cx').

Lemma select_ok ps ds (st : SendTask nat Wr) x cx :
  sending yield_first send_mac s_out base ks0 ps st (env cx) → write_armed st cx → J ds x cx →
  ∃ r st' x' cx', select2_poll (send_poll yield_first tx send_mac) recv (st, x) cx = Ret (r, (st', x'), cx')
    ∧ both_step ps ds cx r st' x' cx'.
Proof.
  intros Hsend Harm HJ.
  destruct (send_poll_ok yield_first tx send_mac s_out base ks0 ps st cx Hsend Harm)
    as (r1 & st' & cx1 & Hs & Hw & Hc & Hsl & _ & _ & took & Hl & Htook & Hgrow & Hpre & Hres).
  pose proof (send_keeps _ _ _ _ _ _ _ _ Hs) as ([Hk1 Hr1] & Hk2 & Hk3). assert (Hw1 : polled cx cx1) by by split.
  destruct (recv_ok ds x cx1) as (r2 & x' & cx2 & Hr & Hw2 & ([Ht Hr2] & Hqc & Hqs) & Hg & sent & Hl2 & Hsent & HD & HJ').
  { eapply J_kept; [by apply polled_went|done|done]. }
  unfold select2_poll. rewrite Hs. cbn [mbind outcome_bind]. rewrite Hr. cbn [mbind outcome_bind mret outcome_ret].
  assert (Hboth : ∀ r, (r = Pending → r1 = Pending ∧ r2 = Pending) → both_step ps ds cx r st' x' cx2).
  { intros r Hpend. split; [by etransitivity|]. split; [by etransitivity|]. split; [intros c; by rewrite Hqs|]. split; [congruence|].
    exists took, sent. split_and!; [done|done|by rewrite Hqc| |by rewrite Ht|done|].
    - destruct Hsent as (H1 & H2 & H3). split_and!.
      + rewrite H1. f_equal. apply Hk2.
      + intros c Hne. rewrite H2 by done. apply Hk2.
      + intros c. rewrite H3. apply Hk2.
    - intros [-> ->]%Hpend. destruct Hres as (H1 & H2 & _). split_and!; [by eapply sending_kept| |by apply HJ'].
      intros f Hf. eapply armed_went; [by apply polled_went|]. by apply H2. }
  destruct r1 as [[]|], r2 as [v|]; eexists _, st', x', cx2; (split; [reflexivity|]); by apply Hboth.
Qed.
End select.

(** The loop of [LinkRecv] as that receiving side. *)
Definition looping (mk : bytes) (p : nat) (ks0 : KeystreamGen) ds (x : RecvTask nat R) cx : Prop :=
  receiving mk s_in p ks0 ds x (env cx) ∧ timer_armed x cx.
Definition frames_delivered (mk : bytes) (p : nat) (ks0 : KeystreamGen) ds e : Prop :=
  (seal_all mk ks0 ds).1 `prefix_of` drop p (arrived (Waker := nat) s_in e).

Lemma looping_kept mk p ks0 ds x cx cx' :
  went cx cx' → stream_grows (Waker := nat) s_in (env cx) (env cx') → looping mk p ks0 ds x cx → looping mk p ks0 ds x cx'.
Proof.
  intros Hw Hg [Hr Ha]. split; [by eapply receiving_grows|]. intros f Hf. eapply armed_went; [exact Hw|]. by apply Ha.
Qed.

Lemma looping_ok tx mk p ks0 ds x cx :
  is_bytes mk → ks_wf ks0 → looping mk p ks0 ds x cx →
  ∃ r x' cx', recv_poll incoming tx mk x cx = Ret (r, x', cx')
    ∧ recv_step tx (looping mk p ks0) (frames_delivered mk p ks0) ds cx r x' cx'.
Proof.
  intros Hm Hk [Hrec Harm]. destruct (recv_poll_ok incoming tx mk s_in Hm p ks0 ds x cx Hk Hrec Harm)
    as (r & x' & cx' & Hp & Hw & Hc & Hsl & Hg & sent & Hl & Hsent & Hres).
  exists r, x', cx'. split; [exact Hp|]. split; [done|]. split; [by eapply recv_keeps|]. split; [done|].
  exists sent. split; [done|]. split; [done|]. destruct r as [[[]|why]|].
  - destruct Hres as [_ ->]. rewrite app_nil_r. split; [by eapply receiving_prefix|done].
  - destruct Hres as [-> _]. rewrite app_nil_r. split; [by eapply receiving_prefix|done].
  - destruct Hres as (H1 & H2 & _). split; [eapply receiving_prefix; [exact H1|reflexivity]|]. by split.
Qed.

(** *** The generator and the switchboard *)

Lemma draw_spec cx iv cx' :
  draw cx = (iv, cx') →
  iv = (draw_iv (RNG (env cx))).1 ∧ io (env cx') = io (env cx) ∧ channels (env cx') = channels (env cx)
  ∧ polled cx cx' ∧ RNG (env cx') = (draw_iv (RNG (env cx))).2.
Proof. unfold draw, call. destruct (draw_iv (RNG (env cx))) as [iv0 rng]. intros [= <- <-]. by split_and!. Qed.

(** The switchboard is told of the new sender, and nothing else is sent. *)
Definition told (e e' : E) (tx : C) : Prop :=
  ∀ c : Sw, queued e' c = queued e c ++ (if decide (c = sender all_senders) then if is_open e (sender all_senders) then [AddSender tx] else [] else []).

Lemma register_spec cx tx cx' :
  register all_senders cx = (tx, cx') →
  io (env cx') = io (env cx) ∧ polled cx cx' ∧ RNG (env cx') = RNG (env cx) ∧ queued (env cx') tx = []
  ∧ (∀ c : I, queued (env cx') c = queued (env cx) c) ∧ told (env cx) (env cx') tx.
Proof.
  unfold register, call. pose proof (new_queued (env cx)) as Hq.
  pose proof (λ c : I, new_frame_queued (C := C) (A := bytes) (env cx) c) as Hi.
  pose proof (λ c : Sw, new_frame_queued (C := C) (A := bytes) (env cx) c) as Hs.
  pose proof (λ c : Sw, new_frame_open (C := C) (A := bytes) (env cx) c) as Ho.
  assert (Hio : io (unbounded (env cx)).2 = io (env cx) ∧ RNG (unbounded (env cx)).2 = RNG (env cx))
    by (cbn; by destruct (unbounded (channels (env cx)))).
  destruct (unbounded (env cx)) as [tx0 e1]. cbn [fst snd] in *. intros [= <- <-]. cbn [env sleep_register]. unfold AllSenders.add.
  split; [|split; [done|split; [|split; [by rewrite frame_queued|split; [intros c; by rewrite frame_queued, Hi|intros c; by rewrite send_queued, Hs, Ho]]]]];
    cbn; destruct (unbounded_send _ _ (channels e1)); apply Hio.
Qed.

(** ** [handle_connection] *)

Section server_proof.
Context (keys : list bytes) (keys_ok : Forall is_bytes keys) (p0 : nat) (b0 : bytes).

(** The first bytes of the peer prove that it knows [key]. *)
Definition proved (key iv_in : bytes) e : Prop :=
  ∃ kf, take 32 (drop p0 (arrived (Waker := nat) s_in e)) = iv_in ++ kf ∧ length iv_in = 16%nat
    ∧ (p0 + 32 <= length (arrived (Waker := nat) s_in e))%nat ∧ find_key keys iv_in kf = Some key.

Lemma proved_grows key iv_in e e' : stream_grows (Waker := nat) s_in e e' → proved key iv_in e → proved key iv_in e'.
Proof.
  intros Hg (kf & Ht & Hl & Hle & Hf). destruct (take_grows s_in p0 32 e e' Hg Hle) as [Ht' Hle']. exists kf. by rewrite Ht'.
Qed.

Lemma proved_bytes key iv_in e : proved key iv_in e → is_bytes key ∧ is_bytes iv_in.
Proof.
  intros (kf & Ht & Hl & _ & (before & after & Hk & _)%find_key_Some). split.
  - rewrite Hk in keys_ok. by apply list.Forall_app in keys_ok as [_ [? _]%list.Forall_cons].
  - assert (Hb : is_bytes (iv_in ++ kf)) by (rewrite <- Ht; apply Forall_take, Forall_drop, arrived_bytes).
    by apply list.Forall_app in Hb as [? _].
Qed.

Definition own_iv (iv : bytes) : Prop := ∃ rng, iv = (draw_iv rng).1.
Definition out_base (key iv : bytes) : bytes := b0 ++ iv ++ keyfinder key iv.

Abbreviation server_loop key iv_in := (looping (mac_key key iv_in) (p0 + 32) (Framing.new (enc_key key iv_in))).
Abbreviation server_frames key iv_in := (frames_delivered (mac_key key iv_in) (p0 + 32) (Framing.new (enc_key key iv_in))).

Definition serving ps ds (this : Server R Wr C) cx : Prop :=
  match this with
  | SvGreet wr g =>
      ps = [] ∧ ds = [] ∧ settled s_out b0 wr (env cx) ∧ greeting s_in p0 g (env cx) ∧ greet_armed g cx
  | SvHello key iv_in iv rd h =>
      ps = [] ∧ ds = [] ∧ proved key iv_in (env cx) ∧ own_iv iv ∧ source (Waker := nat) (E := E) rd = s_in
      ∧ position (Waker := nat) (E := E) rd = (p0 + 32)%nat
      ∧ helloing s_out b0 iv (keyfinder key iv) h (env cx) ∧ hello_armed h cx
  | SvTasks key iv_in iv tx (st, rt) =>
      proved key iv_in (env cx) ∧ own_iv iv
      ∧ sending true (mac_key key iv) s_out (out_base key iv) (Framing.new (enc_key key iv)) ps st (env cx) ∧ write_armed st cx
      ∧ server_loop key iv_in ds rt cx
  | _ => False
  end.

(** The effects of a poll on the channels: packets taken from the link's own and
    delivered to the node's queue. *)
Definition effects (this : Server R Wr C) e e' (took sent : list bytes) : Prop :=
  match this with
  | SvTasks _ _ _ tx _ => queued e tx = took ++ queued e' tx ∧ received incoming tx sent e e'
  | _ => took = [] ∧ sent = [] ∧ ∀ c : I, queued e' c = queued e c
  end.

(** While the peer has not proved that it knows a key, nothing has been done. *)
Definition nothing_done (r : Poll (result unit)) e e' : Prop :=
  transmitted (Waker := nat) s_out e' = b0 ∧ (∀ c : I, queued e' c = queued e c) ∧ (∀ c : Sw, queued e' c = queued e c)
  ∧ ∀ v, r = Ready v → ∃ why, v = Err why.
(** Afterwards: what is on the wire, and what was delivered, are those of a link. *)
Definition link_done ps ds e' : Prop :=
  ∃ key iv_in rng, proved key iv_in e' ∧ transmitted (Waker := nat) s_out e' `prefix_of` b0 ++ wire key rng ps
    ∧ server_frames key iv_in ds e'.

Definition server_step ps ds this cx r (this' : Server R Wr C) cx' : Prop :=
  polled cx cx' ∧ stream_grows (Waker := nat) s_in (env cx) (env cx')
  ∧ ∃ took sent, (length took <= 1)%nat ∧ (length sent <= 1)%nat ∧ effects this (env cx) (env cx') took sent
    ∧ (r = Pending → serving (ps ++ took) (ds ++ sent) this' cx')
    ∧ (nothing_done r (env cx) (env cx') ∨ link_done (ps ++ took) (ds ++ sent) (env cx')).

Lemma serving_kept ps ds this cx cx' :
  went cx cx' → stream_grows (Waker := nat) s_in (env cx) (env cx') →
  transmitted (Waker := nat) s_out (env cx') = transmitted (Waker := nat) s_out (env cx) →
  serving ps ds this cx → serving ps ds this cx'.
Proof.
  intros Hw Hg Ht. destruct this as [conn|wr g|key iv_in iv rd h|key iv_in iv tx [st rt]|]; cbn [serving]; [done| | | |done].
  - intros (-> & -> & H1 & H2 & H3). split_and!; [done|done|by eapply settled_kept|by eapply greeting_grows|].
    intros f Hf. eapply armed_went; [exact Hw|]. by apply H3.
  - intros (-> & -> & H1 & H2 & H3 & H4 & H5 & H6). split_and!; try done; [by eapply proved_grows| |].
    + destruct h as [f|f|wr|]; cbn [helloing] in *; [..|done]; destruct H5 as (Hs & Ha & Hwr); (split_and!; [done|done|]);
        (eapply writing_kept; [|exact Hwr]; by rewrite Hs).
    + intros f Hf. eapply armed_went; [exact Hw|]. by apply H6.
  - intros (H1 & H2 & H3 & H4 & H5). split_and!; [by eapply proved_grows|done|by eapply sending_kept| |by eapply looping_kept].
    intros f Hf. eapply armed_went; [exact Hw|]. by apply H4.
Qed.

Lemma wire_base key iv rng ps :
  iv = (draw_iv rng).1 →
  b0 ++ wire key rng ps = out_base key iv ++ sealed (mac_key key iv) (Framing.new (enc_key key iv)) ps.
Proof. intros ->. unfold wire, out_base. rewrite <- sealed_frames, <- !app_assoc. done. Qed.

Lemma link_done_nothing_sent key iv_in e : proved key iv_in e → server_frames key iv_in [] e.
Proof. intros _. apply prefix_nil. Qed.

Lemma tasks_ok ps ds key iv_in iv tx st rt cx :
  serving ps ds (SvTasks key iv_in iv tx (st, rt)) cx →
  ∃ r this' cx', poll_tasks incoming key iv_in iv tx (st, rt) cx = Ret (r, this', cx')
    ∧ server_step ps ds (SvTasks key iv_in iv tx (st, rt)) cx r this' cx'.
Proof.
  intros (Hproved & [rng Hiv] & Hsend & Harm & Hloop). destruct (proved_bytes _ _ _ Hproved) as [Hk Hi].
  assert (Hm : is_bytes (mac_key key iv_in)) by by apply mac_key_ok.
  assert (Hks : ks_wf (Framing.new (enc_key key iv_in))) by by apply ks_new_wf, enc_key_ok.
  destruct (select_ok true tx (mac_key key iv) (out_base key iv) (Framing.new (enc_key key iv))
    (recv_poll incoming tx (mac_key key iv_in)) (server_loop key iv_in) (server_frames key iv_in)
    (λ ds x cx, looping_ok tx _ _ _ ds x cx Hm Hks) (looping_kept _ _ _) ps ds st rt cx Hsend Harm Hloop)
    as (r & st' & rt' & cx' & Hp & Hw & Hg & Hsw & _ & took & sent & Hl1 & Hl2 & Htook & Hsent & Ht & HD & Hpend).
  unfold poll_tasks. rewrite Hp. cbn [mbind outcome_bind].
  assert (Hproved' : proved key iv_in (env cx')) by by eapply proved_grows.
  assert (Hlink : link_done (ps ++ took) (ds ++ sent) (env cx')).
  { exists key, iv_in, rng. split_and!; [done| |done]. by rewrite (wire_base key iv rng). }
  destruct r as [[]|]; eexists _, _, _; (split; [reflexivity|]); (split; [done|]); (split; [done|]); exists took, sent;
    (split; [done|]); (split; [done|]); (split; [by split|]); (split; [|by right]); [done|].
  intros _. destruct (Hpend eq_refl) as (H1 & H2 & H3). split; [done|]. split; [by exists rng|]. by split.
Qed.

(** What follows the handshake: relative to [cx], where the hello was polled. *)
Definition hello_step cx (r : Poll (result unit)) (this' : Server R Wr C) cx' : Prop :=
  polled cx cx' ∧ stream_grows (Waker := nat) s_in (env cx) (env cx') ∧ (∀ c : I, queued (env cx') c = queued (env cx) c)
  ∧ (r = Pending → serving [] [] this' cx') ∧ link_done [] [] (env cx').

Lemma after_hello_ok key iv_in iv (rd : R) (r : Poll (result Wr)) h' cx cx1 :
  proved key iv_in (env cx) → own_iv iv → source (Waker := nat) (E := E) rd = s_in →
  position (Waker := nat) (E := E) rd = (p0 + 32)%nat →
  said (C := C) s_out b0 iv (keyfinder key iv) cx r h' cx1 → writing_keeps (env cx) (env cx1) →
  ∃ r' this' cx', after_hello all_senders incoming key iv_in iv rd (r, h', cx1) = Ret (r', this', cx') ∧ hello_step cx r' this' cx'.
Proof.
  intros Hproved Hown Hsrc Hpos (Hu & Hp & Hres) ([Hg _] & Hi & _).
  assert (Hproved1 : proved key iv_in (env cx1)) by by eapply proved_grows. pose proof (unseen_polled _ _ _ Hu) as Hsl.
  assert (Hbase : b0 ++ iv ++ keyfinder key iv = out_base key iv) by done.
  pose proof Hown as [rng Hiv].
  assert (Hlink : ∀ e, proved key iv_in e → transmitted (Waker := nat) s_out e `prefix_of` out_base key iv → link_done [] [] e).
  { intros e He Ht. exists key, iv_in, rng. split_and!; [done| |apply prefix_nil]. rewrite (wire_base key iv rng [] Hiv).
    etransitivity; [exact Ht|]. by apply prefix_app_r. }
  unfold after_hello. destruct r as [[wr|why]|].
  - destruct (register all_senders cx1) as [tx cx2] eqn:Hreg. destruct (register_spec cx1 tx cx2 Hreg) as (Hio & Hsl2 & Hrng & Hq & Hi2 & _).
    assert (Hg2 : stream_grows (Waker := nat) s_in (env cx) (env cx2)) by (destruct Hg as (more & Hm & Hb); exists more; cbn in *; by rewrite Hio).
    assert (Ht2 : transmitted (Waker := nat) s_out (env cx2) = transmitted (Waker := nat) s_out (env cx1)) by (cbn; by rewrite Hio).
    assert (Hset : settled s_out (out_base key iv) (BufWriter_new (Waker := nat) (E := E) wr) (env cx2)).
    { apply (settled_kept s_out _ wr _ _ Ht2) in Hres as (H1 & H2 & H3 & H4).
      destruct (buf_writer (Waker := nat) (E := E) wr (env cx2) H3) as (H5 & H6 & H7). split_and!; congruence || done. }
    destruct (buf_reader (Waker := nat) (E := E) rd) as [Hbs Hbp].
    assert (Hproved2 : proved key iv_in (env cx2)) by by eapply proved_grows.
    eexists _, _, _. split; [reflexivity|]. split; [etransitivity; [exact Hsl|exact Hsl2]|]. split; [exact Hg2|].
    split; [intros c; cbn [wake_by_ref env]; rewrite Hi2; apply Hi|]. split.
    + intros _. split; [done|]. split; [done|]. split; [|split; [by intros f [=]|split; [|by intros f [=]]]].
      * cbn [sending]. unfold keystream_after, sealed. cbn [filter list_filter seal_all fst snd]. rewrite app_nil_r. split_and!; try done; apply Hset.
      * destruct Hproved2 as (kf & _ & _ & Hle & _). exists (BufReader_new (Waker := nat) (E := E) rd), [].
        split_and!; [done|by rewrite Hbs|by rewrite Hbp, Hpos|rewrite Hbp, Hpos; exact Hle|apply arrived_bytes|done| |done].
        unfold taken. rewrite Hbp, Hpos. cbn [seal_all fst app]. apply drop_ge. rewrite length_take. lia.
    + apply Hlink; [done|]. destruct Hset as (_ & _ & _ & H4). cbn [wake_by_ref env]. rewrite H4. done.
  - eexists _, _, _. split; [reflexivity|]. split; [done|]. split; [done|]. split; [intros c; apply Hi|]. split; [done|].
    by apply Hlink; [|rewrite <- Hbase].
  - destruct Hres as (H1 & H2 & _). eexists _, _, _. split; [reflexivity|]. split; [done|]. split; [done|]. split; [intros c; apply Hi|].
    split; [intros _; by split_and!|]. by apply Hlink; [|rewrite <- Hbase].
Qed.

(** The first poll of a half is a poll of its first state. *)
Lemma hello_first_poll iv kf (wr : Wr) cx :
  hello_first iv kf wr cx = hello_poll iv kf (HlIv (timeout_future wr write_timeout cx).1) (instant_now cx).2.
Proof. reflexivity. Qed.
Lemma greet_first_poll (rd : R) cx :
  greet_first rd cx = greet_poll (GrIv (timeout_future rd read_timeout cx).1) (instant_now cx).2.
Proof. reflexivity. Qed.

(** Saying hello for the first time, from a settled writer. *)
Lemma hello_first_ok (iv kf : bytes) (wr : Wr) cx :
  settled s_out b0 wr (env cx) →
  ∃ r h' cx', hello_first iv kf wr cx = Ret (r, h', cx') ∧ said (C := C) s_out b0 iv kf cx r h' cx' ∧ writing_keeps (env cx) (env cx').
Proof.
  intros (Hs & Ha & Hw & _). rewrite hello_first_poll.
  destruct (hello_poll_ok (C := C) s_out b0 iv kf (HlIv (timeout_future wr write_timeout cx).1) (instant_now cx).2)
    as (r & h' & cx' & Hp & Hsaid).
  { split_and!; [done|done|by apply writing_starts]. }
  { intros f [= <-]. by intros w [=]. }
  exists r, h', cx'. split; [exact Hp|]. split; [eapply said_unseen; [apply instant_now_unseen|exact Hsaid]|].
  apply hello_keeps in Hp. exact Hp.
Qed.

Lemma nothing_here e e' (r : Poll (result unit)) wr :
  settled s_out b0 wr e → transmitted (Waker := nat) s_out e' = transmitted (Waker := nat) s_out e →
  (∀ c : I, queued e' c = queued e c) → (∀ c : Sw, queued e' c = queued e c) → (∀ v, r = Ready v → ∃ why, v = Err why) →
  nothing_done r e e'.
Proof. intros (_ & _ & _ & Ht) Ht' Hi Hs Hr. split_and!; [congruence|done|done|done]. Qed.

Lemma after_greet_ok wr r g' cx cx1 this :
  settled s_out b0 wr (env cx) → quietly (I := I) (C := C) s_in cx cx1 → reading_keeps (env cx) (env cx1) →
  greeted s_in p0 cx r g' cx1 →
  (∀ e', (∀ c : I, queued e' c = queued (env cx) c) → effects this (env cx) e' [] []) →
  ∃ r' this' cx', after_greet all_senders incoming keys wr (r, g', cx1) = Ret (r', this', cx')
    ∧ server_step [] [] this cx r' this' cx'.
Proof.
  intros Hset Hq ([Ht _] & Hqc & Hqs) Hgr Heff. pose proof (quietly_polled _ _ _ Hq) as Hsl. destruct Hq as (_ & _ & _ & _ & _ & Hg & Hi).
  assert (Hset1 : settled s_out b0 wr (env cx1)) by by eapply settled_kept.
  assert (Hnone : ∀ r, (∀ v, r = Ready v → ∃ why, v = Err why) → nothing_done r (env cx) (env cx1)).
  { intros r0 Hr0. eapply nothing_here; [exact Hset|done|intros c; apply Hi|done|done]. }
  assert (Hstay : ∀ r this', (r = Pending → serving [] [] this' cx1) → (∀ v, r = Ready v → ∃ why, v = Err why) →
    server_step [] [] this cx r this' cx1).
  { intros r0 this' Hp Hr0. split; [done|]. split; [done|]. exists [], []. split; [cbn; lia|]. split; [cbn; lia|].
    split; [apply Heff; intros c; apply Hi|]. split; [done|]. left. by apply Hnone. }
  unfold after_greet. destruct r as [[[[iv_in kf] rd]|why]|].
  - destruct Hgr as (Hsrc & Hpos & Hle & Htake & Hl1 & Hl2). destruct (find_key keys iv_in kf) as [key|] eqn:Hfind.
    + assert (Hproved : proved key iv_in (env cx1)) by by exists kf.
      destruct (draw cx1) as [iv cx2] eqn:Hdraw. destruct (draw_spec cx1 iv cx2 Hdraw) as (Hiv & Hio & Hch & Hsl2 & _).
      assert (Hset2 : settled s_out b0 wr (env cx2)) by (eapply settled_kept; [|exact Hset1]; cbn; by rewrite Hio).
      assert (Hg2 : stream_grows (Waker := nat) s_in (env cx1) (env cx2)) by (exists []; cbn; by rewrite Hio, app_nil_r).
      destruct (hello_first_ok iv (keyfinder key iv) wr cx2 Hset2) as (r & h' & cx3 & Hh & Hsaid & Hkeep). rewrite Hh. cbn [mbind outcome_bind].
      destruct (after_hello_ok key iv_in iv rd r h' cx2 cx3) as (r' & this' & cx' & Hp & Hw & Hg3 & Hi3 & Hserve & Hlink);
        [by eapply proved_grows|by eexists|done|done|done|done|].
      exists r', this', cx'. split; [exact Hp|]. split; [etransitivity; [exact Hsl|]; by etransitivity|].
      split; [etransitivity; [exact Hg|]; by etransitivity|]. exists [], []. split; [cbn; lia|]. split; [cbn; lia|].
      split; [|split; [done|by right]]. apply Heff. intros c. rewrite Hi3. transitivity (queued (env cx1) c); [|apply Hi].
      cbn. by rewrite Hch.
    + eexists _, _, _. split; [reflexivity|]. apply Hstay; [done|]. intros v [= <-]. by eexists.
  - eexists _, _, _. split; [reflexivity|]. apply Hstay; [done|]. intros v [= <-]. by eexists.
  - eexists _, _, _. split; [reflexivity|]. destruct Hgr as (H1 & H2 & _). apply Hstay; [|done]. intros _. by split_and!.
Qed.

Lemma server_poll_ok ps ds this cx :
  serving ps ds this cx →
  ∃ r this' cx', handle_connection_poll all_senders incoming keys this cx = Ret (r, this', cx')
    ∧ server_step ps ds this cx r this' cx'.
Proof.
  destruct this as [conn|wr g|key iv_in iv rd h|key iv_in iv tx [st rt]|]; cbn [handle_connection_poll]; [done| | |by apply tasks_ok|done].
  - intros (-> & -> & Hset & Hgr & Harm). destruct (greet_poll_ok (I := I) (C := C) s_in p0 g cx Hgr Harm) as (r & g' & cx1 & Hp & Hq & Hres).
    rewrite Hp. cbn [mbind outcome_bind]. apply greet_keeps in Hp. by apply after_greet_ok; [..|by intros e' Hi'].
  - intros (-> & -> & Hproved & Hown & Hsrc & Hpos & Hhello & Harm).
    destruct (hello_poll_ok (C := C) s_out b0 iv (keyfinder key iv) h cx Hhello Harm) as (r & h' & cx1 & Hp & Hsaid).
    rewrite Hp. cbn [mbind outcome_bind]. apply hello_keeps in Hp.
    destruct (after_hello_ok key iv_in iv rd r h' cx cx1 Hproved Hown Hsrc Hpos Hsaid Hp) as (r' & this' & cx' & Ha & Hw & Hg & Hi & Hs & Hl).
    exists r', this', cx'. split; [exact Ha|]. split; [done|]. split; [done|]. exists [], []. split; [cbn; lia|]. split; [cbn; lia|].
    split; [by split_and!|]. split; [done|by right].
Qed.

(** ** Runs of [handle_connection], from its first [await] on *)

Inductive server_run (this0 : Server R Wr C) (cx0 : Cx nat E) : list bytes → list bytes → Server R Wr C → Cx nat E → Prop :=
| server_run_start : server_run this0 cx0 [] [] this0 cx0
| server_run_poll ps ds this cx w others this' cx' took sent :
    server_run this0 cx0 ps ds this cx →
    stream_grows (Waker := nat) s_in (env cx) (others (env cx)) →
    transmitted (Waker := nat) s_out (others (env cx)) = transmitted (Waker := nat) s_out (env cx) →
    handle_connection_poll all_senders incoming keys this (at_poll w others cx) = Ret (Pending, this', cx') →
    effects this (others (env cx)) (env cx') took sent →
    server_run this0 cx0 (ps ++ took) (ds ++ sent) this' cx'.

Lemma effects_unique this e e' took sent took' sent' :
  effects this e e' took sent → effects this e e' took' sent' → took = took' ∧ sent = sent'.
Proof.
  destruct this as [| | |key iv_in iv tx tasks|]; cbn [effects]; [by intros (-> & -> & _) (-> & -> & _)..| |by intros (-> & -> & _) (-> & -> & _)].
  intros [Ht Hs] [Ht' Hs']. split; [rewrite Ht in Ht'; by apply app_inv_tail in Ht'|]. exact (received_unique _ _ _ _ _ _ Hs Hs').
Qed.

Lemma server_run_serving this0 cx0 ps ds this cx :
  serving [] [] this0 cx0 → server_run this0 cx0 ps ds this cx → serving ps ds this cx.
Proof.
  intros H0. induction 1 as [|ps ds this cx w others this' cx' took sent Hrun IH Hg Ht Hp Heff]; [done|].
  assert (Hs : serving ps ds this (at_poll w others cx)) by (eapply serving_kept; [apply went_poll|exact Hg|exact Ht|exact IH]).
  destruct (server_poll_ok ps ds this _ Hs) as (r & this1 & cx1 & Hp1 & _ & _ & took1 & sent1 & _ & _ & Heff1 & Hserve & _).
  rewrite Hp in Hp1. injection Hp1 as <- <- <-. destruct (effects_unique _ _ _ _ _ _ _ Heff Heff1) as [<- <-]. by apply Hserve.
Qed.

(** The state after the socket has been set up, in the first poll. *)
Definition server_first (rd : R) (wr : Wr) cx : Server R Wr C := SvGreet wr (GrIv (timeout_future rd read_timeout cx).1).

Lemma halves_serving conn cx rd wr cx1 :
  halves conn cx = Ret (Ok (rd, wr), cx1) →
  source (Waker := nat) (E := E) rd = s_in → position (Waker := nat) (E := E) rd = p0 →
  sink (Waker := nat) (E := E) wr = s_out → accepted (Waker := nat) (E := E) wr = b0 →
  (p0 <= length (arrived (Waker := nat) s_in (env cx1)))%nat ∧ settled s_out b0 wr (env cx1).
Proof.
  unfold halves. destruct (open_halves conn _) as [[[[r w]|] o]|]; cbn [mbind outcome_bind mret outcome_ret]; [|done|done].
  unfold call. intros [= <- <- <-] Hs Hp Hk Ha. cbn [env set_io io].
  pose proof (read_half_position (S := S) r (MkIo (POLL_REGISTER (io (env cx))) o)) as Hpos.
  destruct (write_half_settled (S := S) w (MkIo (POLL_REGISTER (io (env cx))) o)) as [Hw Hacc].
  cbn in Hs, Hp, Hk, Ha. rewrite Hs, Hp in Hpos. rewrite Ha, Hk in Hacc. split; [exact Hpos|]. by split_and!.
Qed.

Lemma server_first_serving conn cx rd wr cx1 :
  halves conn cx = Ret (Ok (rd, wr), cx1) →
  source (Waker := nat) (E := E) rd = s_in → position (Waker := nat) (E := E) rd = p0 →
  sink (Waker := nat) (E := E) wr = s_out → accepted (Waker := nat) (E := E) wr = b0 →
  serving [] [] (server_first rd wr cx1) (instant_now cx1).2.
Proof.
  intros Hh Hs Hp Hk Ha. destruct (halves_serving conn cx rd wr cx1 Hh Hs Hp Hk Ha) as [Hle Hset].
  split; [done|]. split; [done|]. split; [exact Hset|]. split; [by split_and!|]. intros f [= <-]. by intros v [=].
Qed.

(** The effects of a poll of the first run of states, which delivers nothing. *)
Lemma server_run_one this0 cx0 w others this' cx' :
  serving [] [] this0 cx0 → (match this0 with SvTasks _ _ _ _ _ => False | _ => True end) →
  stream_grows (Waker := nat) s_in (env cx0) (others (env cx0)) →
  transmitted (Waker := nat) s_out (others (env cx0)) = transmitted (Waker := nat) s_out (env cx0) →
  handle_connection_poll all_senders incoming keys this0 (at_poll w others cx0) = Ret (Pending, this', cx') →
  server_run this0 cx0 [] [] this' cx'.
Proof.
  intros Hserve Hthis Hg Ht Hp.
  destruct (server_poll_ok [] [] this0 (at_poll w others cx0)) as (r & this1 & cx1 & Hp1 & _ & _ & took & sent & _ & _ & Heff & _).
  { eapply serving_kept; [apply went_poll|exact Hg|exact Ht|exact Hserve]. }
  rewrite Hp in Hp1. injection Hp1 as <- <- <-.
  assert (took = [] ∧ sent = []) as [-> ->] by (destruct this0; try done; by destruct Heff as (-> & -> & _)).
  rewrite <- (app_nil_r []). by eapply (server_run_poll _ _ [] [] this0 cx0 w others this' cx' [] []); [constructor|..].
Qed.

(** C13. [handle_connection], poll by poll. Started with a socket, it fails when the
    socket cannot be set up; otherwise its polls never panic, and until the first 32
    bytes of the peer have proved that it knows one of the keys, nothing is written
    to the socket, no packet is delivered and the switchboard is told nothing; if
    it ends by then, it is with an error. From then on, what it has written is a
    prefix of the stream that [LegacyTcp] gives for that key and for the packets
    taken from its channel; it takes and delivers at most one packet per poll; and
    the packets delivered are those whose frames, sealed under the keys that follow
    from the peer's own bytes, the stream begins with. *)
Theorem handle_connection_polls conn cx rd wr cx1 ps ds this cx2 w others :
  halves conn cx = Ret (Ok (rd, wr), cx1) →
  source (Waker := nat) (E := E) rd = s_in → position (Waker := nat) (E := E) rd = p0 →
  sink (Waker := nat) (E := E) wr = s_out → accepted (Waker := nat) (E := E) wr = b0 →
  server_run (server_first rd wr cx1) (instant_now cx1).2 ps ds this cx2 →
  stream_grows (Waker := nat) s_in (env cx2) (others (env cx2)) →
  transmitted (Waker := nat) s_out (others (env cx2)) = transmitted (Waker := nat) s_out (env cx2) →
  let poll := handle_connection_poll all_senders incoming keys in
  poll (SvStart conn) cx = poll (server_first rd wr cx1) (instant_now cx1).2
  ∧ ∃ r this' cx' took sent, poll this (at_poll w others cx2) = Ret (r, this', cx')
      ∧ (length took <= 1)%nat ∧ (length sent <= 1)%nat ∧ effects this (others (env cx2)) (env cx') took sent
      ∧ (nothing_done r (others (env cx2)) (env cx') ∨ link_done (ps ++ took) (ds ++ sent) (env cx')).
Proof.
  intros Hh Hs Hp Hk Ha Hrun Hg Ht poll. pose proof (server_first_serving conn cx rd wr cx1 Hh Hs Hp Hk Ha) as H0. split.
  { unfold poll. cbn [handle_connection_poll]. by rewrite Hh. }
  pose proof (server_run_serving _ _ _ _ _ _ H0 Hrun) as Hserve.
  destruct (server_poll_ok ps ds this (at_poll w others cx2)) as (r & this' & cx' & Hpoll & _ & _ & took & sent & H1 & H2 & H3 & _ & H4).
  { eapply serving_kept; [apply went_poll|exact Hg|exact Ht|exact Hserve]. }
  by exists r, this', cx', took, sent.
Qed.
End server_proof.

(** ** [connect_impl] *)

Section client_proof.
Context (key : bytes) (key_ok : is_bytes key) (p0 : nat) (b0 : bytes).

(** The first bytes of the other end prove that it knows the key. *)
Abbreviation agreed := (proved [key] p0 key).

Lemma one_key_ok : Forall is_bytes [key].
Proof. by repeat constructor. Qed.

Definition client_loop (iv_in : bytes) := looping (mac_key key iv_in) (p0 + 32) (Framing.new (enc_key key iv_in)).
Definition client_frames (iv_in : bytes) := frames_delivered (mac_key key iv_in) (p0 + 32) (Framing.new (enc_key key iv_in)).

(** The receiving task. *)
Definition client_recv ds (x : ClientRecv R) cx : Prop :=
  match x with
  | CrStart rd => ds = [] ∧ source (Waker := nat) (E := E) rd = s_in ∧ position (Waker := nat) (E := E) rd = p0
      ∧ (p0 <= length (arrived (Waker := nat) s_in (env cx)))%nat
  | CrGreet g => ds = [] ∧ greeting s_in p0 g (env cx) ∧ greet_armed g cx
  | CrLoop iv_in rt => agreed iv_in (env cx) ∧ client_loop iv_in ds rt cx
  | CrDone => False
  end.
Definition client_delivered ds e : Prop := ds = [] ∨ ∃ iv_in, agreed iv_in e ∧ client_frames iv_in ds e.

Lemma client_recv_kept ds x cx cx' :
  went cx cx' → stream_grows (Waker := nat) s_in (env cx) (env cx') → client_recv ds x cx → client_recv ds x cx'.
Proof.
  intros Hw Hg. destruct x as [rd|g|iv_in rt|]; cbn [client_recv]; [| | |done].
  - intros (-> & H1 & H2 & H3). split_and!; [done|done|done|]. destruct Hg as (more & -> & _). rewrite length_app. lia.
  - intros (-> & H1 & H2). split_and!; [done|by eapply greeting_grows|]. intros f Hf. eapply armed_went; [exact Hw|]. by apply H2.
  - intros [H1 H2]. split; [by eapply proved_grows|by eapply looping_kept].
Qed.

Abbreviation client_recv_step tx := (recv_step tx client_recv client_delivered).

Lemma poll_loop_ok tx iv_in rt ds cx :
  agreed iv_in (env cx) → client_loop iv_in ds rt cx →
  ∃ r x' cx', poll_loop incoming key tx iv_in rt cx = Ret (r, x', cx') ∧ client_recv_step tx ds cx r x' cx'.
Proof.
  intros Hagree Hloop. destruct (proved_bytes [key] one_key_ok p0 key iv_in _ Hagree) as [_ Hi].
  destruct (looping_ok tx (mac_key key iv_in) (p0 + 32) (Framing.new (enc_key key iv_in)) ds rt cx)
    as (r & rt' & cx' & Hp & Hw & Hk & Hg & sent & Hl & Hsent & HD & HJ); [by apply mac_key_ok|by apply ks_new_wf, enc_key_ok|done|].
  unfold poll_loop. rewrite Hp. cbn [mbind outcome_bind].
  assert (Hagree' : agreed iv_in (env cx')) by by eapply proved_grows.
  destruct r as [v|]; eexists _, _, _; (split; [reflexivity|]); (split; [done|]); (split; [done|]); (split; [done|]); exists sent;
    (split; [done|]); (split; [done|]); (split; [right; by exists iv_in|]); [done|]. intros _. split; [done|]. by apply HJ.
Qed.

(** A part of the handshake leaves the channels alone. *)
Lemma quietly_step tx cx cx' r (x' : ClientRecv R) :
  quietly (I := I) (C := C) s_in cx cx' → reading_keeps (env cx) (env cx') →
  (r = Pending → client_recv [] x' cx') → client_recv_step tx [] cx r x' cx'.
Proof.
  intros Hq Hk HJ. pose proof Hq as (_ & _ & _ & _ & _ & Hg & _). split; [by eapply quietly_polled|]. split; [done|]. split; [done|].
  exists []. split; [cbn; lia|]. split; [by eapply quietly_received|]. split; [by left|done].
Qed.

Lemma check_greet_ok tx r g' cx cx1 :
  quietly (I := I) (C := C) s_in cx cx1 → reading_keeps (env cx) (env cx1) → greeted s_in p0 cx r g' cx1 →
  ∃ r' x' cx', check_greet incoming key tx (r, g', cx1) = Ret (r', x', cx') ∧ client_recv_step tx [] cx r' x' cx'.
Proof.
  intros Hq Hk Hgr. unfold check_greet. destruct r as [[[[iv_in kf] rd]|why]|].
  - destruct Hgr as (Hsrc & Hpos & Hle & Htake & Hl1 & Hl2). destruct (decide (keyfinder key iv_in ≠ kf)) as [Hne|Heq%dec_stable].
    { eexists _, _, _. split; [reflexivity|]. by apply quietly_step. }
    assert (Hagree : agreed iv_in (env cx1)).
    { exists kf. split_and!; [done|done|done|]. cbn [find_key]. by rewrite decide_True. }
    destruct (poll_loop_ok tx iv_in (recv_start (Framing.new (enc_key key iv_in)) rd) [] cx1 Hagree) as (r' & x' & cx' & Hp & Hstep).
    { split; [|by intros f [=]]. exists rd, []. split_and!; [done|done|by rewrite Hpos|by rewrite Hpos|apply arrived_bytes|done| |done].
      unfold taken. rewrite Hpos. cbn [seal_all fst app]. apply drop_ge. rewrite length_take. lia. }
    exists r', x', cx'. split; [exact Hp|]. destruct Hstep as (Hw2 & Hk2 & Hg2 & sent & Hl & Hsent & HD & HJ).
    pose proof (quietly_polled _ _ _ Hq) as Hsl. pose proof Hq as (_ & _ & _ & _ & _ & Hg & Hi). split; [by etransitivity|]. split; [by etransitivity|].
    split; [by etransitivity|]. exists sent. split; [done|]. split; [|by split]. destruct Hsent as (H1 & H2 & H3). split_and!.
    + rewrite H1. f_equal. apply Hi.
    + intros c Hc. rewrite H2 by done. apply Hi.
    + intros c. rewrite H3. apply Hi.
  - eexists _, _, _. split; [reflexivity|]. by apply quietly_step.
  - eexists _, _, _. split; [reflexivity|]. destruct Hgr as (H1 & H2 & _). apply quietly_step; [done|done|]. by intros _.
Qed.

Lemma client_recv_ok tx ds x cx :
  client_recv ds x cx →
  ∃ r x' cx', connect_recv_poll incoming key tx x cx = Ret (r, x', cx') ∧ client_recv_step tx ds cx r x' cx'.
Proof.
  assert (Hgreet : ∀ g cx, greeting s_in p0 g (env cx) → greet_armed g cx →
    ∃ r x' cx', (h ← greet_poll g cx; check_greet incoming key tx h) = Ret (r, x', cx') ∧ client_recv_step tx [] cx r x' cx').
  { intros g cx0 Hgr Harm. destruct (greet_poll_ok (I := I) (C := C) s_in p0 g cx0 Hgr Harm) as (r & g' & cx1 & Hp & Hq & Hres).
    rewrite Hp. cbn [mbind outcome_bind]. apply greet_keeps in Hp. by eapply check_greet_ok. }
  destruct x as [rd|g|iv_in rt|]; cbn [client_recv connect_recv_poll]; [| | |done].
  - intros (-> & Hs & Hp & Hle). rewrite greet_first_poll. destruct (buf_reader (Waker := nat) (E := E) rd) as [Hbs Hbp].
    destruct (Hgreet (GrIv (timeout_future (BufReader_new (Waker := nat) (E := E) rd) read_timeout cx).1) (instant_now cx).2)
      as (r & x' & cx' & Hpoll & Hstep); [by split_and!; [rewrite <- Hs|rewrite <- Hp|]|by intros f [= <-] w [=]|].
    exists r, x', cx'. split; [exact Hpoll|exact Hstep].
  - intros (-> & H1 & H2). by apply Hgreet.
  - intros [H1 H2]. by apply poll_loop_ok.
Qed.

Definition dialling ps ds (this : Client R Wr C) cx : Prop :=
  match this with
  | ClHello iv rd h =>
      ps = [] ∧ ds = [] ∧ own_iv iv ∧ client_recv [] (CrStart rd) cx ∧ helloing s_out b0 iv (keyfinder key iv) h (env cx) ∧ hello_armed h cx
  | ClTasks iv tx (st, x) =>
      own_iv iv ∧ sending false (mac_key key iv) s_out (out_base b0 key iv) (Framing.new (enc_key key iv)) ps st (env cx)
      ∧ write_armed st cx ∧ client_recv ds x cx
  | _ => False
  end.

Definition client_effects (this : Client R Wr C) e e' (took sent : list bytes) : Prop :=
  match this with
  | ClTasks _ tx _ => queued e tx = took ++ queued e' tx ∧ received incoming tx sent e e'
  | _ => took = [] ∧ ∃ tagged, queued e' incoming = queued e incoming ++ tagged ∧ sent = fst <$> tagged
  end.

(** What is on the wire and what was delivered. *)
Definition connect_done ps ds e' : Prop :=
  (∃ rng, transmitted (Waker := nat) s_out e' `prefix_of` b0 ++ wire key rng ps) ∧ client_delivered ds e'.

Definition client_step ps ds this cx (r : Poll (result unit)) (this' : Client R Wr C) cx' : Prop :=
  polled cx cx' ∧ stream_grows (Waker := nat) s_in (env cx) (env cx') ∧ RNG (env cx') = RNG (env cx)
  ∧ ∃ took sent, (length took <= 1)%nat ∧ (length sent <= 1)%nat ∧ client_effects this (env cx) (env cx') took sent
    ∧ (r = Pending → dialling (ps ++ took) (ds ++ sent) this' cx') ∧ connect_done (ps ++ took) (ds ++ sent) (env cx').

Lemma client_tasks_ok ps ds iv tx st x cx :
  dialling ps ds (ClTasks iv tx (st, x)) cx →
  ∃ r this' cx', client_tasks incoming key iv tx (st, x) cx = Ret (r, this', cx')
    ∧ client_step ps ds (ClTasks iv tx (st, x)) cx r this' cx'
    ∧ ∀ c : Sw, queued (env cx') c = queued (env cx) c.
Proof.
  intros ([rng Hiv] & Hsend & Harm & Hrecv).
  destruct (select_ok false tx (mac_key key iv) (out_base b0 key iv) (Framing.new (enc_key key iv))
    (connect_recv_poll incoming key tx) client_recv client_delivered (client_recv_ok tx) client_recv_kept ps ds st x cx Hsend Harm Hrecv)
    as (r & st' & x' & cx' & Hp & Hw & Hg & Hsw & Hrng & took & sent & Hl1 & Hl2 & Htook & Hsent & Ht & HD & Hpend).
  unfold client_tasks. rewrite Hp. cbn [mbind outcome_bind].
  assert (Hdone : connect_done (ps ++ took) (ds ++ sent) (env cx')).
  { split; [|done]. exists rng. by rewrite (wire_base b0 key iv rng). }
  destruct r as [[]|]; eexists _, _, _; (split; [reflexivity|]); (split; [|exact Hsw]); (split; [done|]); (split; [done|]); (split; [exact Hrng|]); exists took, sent;
    (split; [done|]); (split; [done|]); (split; [by split|]); (split; [|done]); [done|].
  intros _. destruct (Hpend eq_refl) as (H1 & H2 & H3). split; [by exists rng|]. by split.
Qed.

Lemma client_after_hello_ok iv rd (r : Poll (result Wr)) h' cx cx1 :
  own_iv iv → client_recv [] (CrStart rd) cx →
  said (C := C) s_out b0 iv (keyfinder key iv) cx r h' cx1 → writing_keeps (env cx) (env cx1) →
  ∃ r' this' cx', client_after_hello all_senders incoming key iv rd (r, h', cx1) = Ret (r', this', cx')
    ∧ ∀ this, (match this with ClTasks _ _ _ => False | _ => True end) →
        client_step [] [] this cx r' this' cx'.
Proof.
  intros Hown Hrecv (Hu & Hp & Hres) ([Hg Hr] & Hi & _). pose proof (unseen_polled _ _ _ Hu) as Hsl. pose proof Hown as [rng Hiv].
  assert (Hbase : b0 ++ iv ++ keyfinder key iv = out_base b0 key iv) by done.
  assert (Hdone : ∀ e, transmitted (Waker := nat) s_out e `prefix_of` out_base b0 key iv → connect_done [] [] e).
  { intros e Ht. split; [|by left]. exists rng. rewrite (wire_base b0 key iv rng [] Hiv). etransitivity; [exact Ht|]. by apply prefix_app_r. }
  assert (Hstay : ∀ r this', (r = Pending → dialling [] [] this' cx1) →
    ∀ this, (match this with ClTasks _ _ _ => False | _ => True end) → client_step [] [] this cx r this' cx1).
  { intros r0 this' HJ this Hthis. split; [exact Hsl|]. split; [done|]. split; [exact Hr|]. exists [], []. split; [cbn; lia|]. split; [cbn; lia|].
    split; [|split; [done|by apply Hdone; rewrite <- Hbase]].
    destruct this; try done; (split; [done|]); exists []; rewrite app_nil_r; split; done || apply Hi. }
  unfold client_after_hello. destruct r as [[wr|why]|].
  - destruct (register all_senders cx1) as [tx cx2] eqn:Hreg. destruct (register_spec cx1 tx cx2 Hreg) as (Hio & Hsl2 & Hrng & Hq & Hi2 & _).
    assert (Hg2 : stream_grows (Waker := nat) s_in (env cx1) (env cx2)) by (exists []; cbn; by rewrite Hio, app_nil_r).
    assert (Ht2 : transmitted (Waker := nat) s_out (env cx2) = transmitted (Waker := nat) s_out (env cx1)) by (cbn; by rewrite Hio).
    assert (Hset : settled s_out (out_base b0 key iv) (BufWriter_new (Waker := nat) (E := E) wr) (env cx2)).
    { apply (settled_kept s_out _ wr _ _ Ht2) in Hres as (H1 & H2 & H3 & H4).
      destruct (buf_writer (Waker := nat) (E := E) wr (env cx2) H3) as (H5 & H6 & H7). split_and!; congruence || done. }
    destruct (client_tasks_ok [] [] iv tx (send_start false (Framing.new (enc_key key iv)) (BufWriter_new (Waker := nat) (E := E) wr)) (CrStart rd) cx2)
      as (r' & this' & cx' & Hpoll & (Hw3 & Hg3 & Hr3 & took & sent & Hl1 & Hl2 & [Htook Hsent] & HJ & Hd) & _).
    { split; [done|]. split; [|split; [by intros f [=]|]].
      - cbn [sending send_start]. unfold keystream_after, sealed. cbn [filter list_filter seal_all fst snd]. rewrite app_nil_r. split_and!; try done; apply Hset.
      - apply (client_recv_kept [] _ cx cx2); [apply polled_went; by etransitivity|by etransitivity|exact Hrecv]. }
    exists r', this', cx'. split; [exact Hpoll|]. intros this Hthis. rewrite Hq in Htook. symmetry in Htook. apply app_nil in Htook as [-> Htook].
    split; [by do 2 (etransitivity; [eassumption|])|]. split; [by do 2 (etransitivity; [eassumption|])|]. split; [congruence|].
    exists [], sent. split; [cbn; lia|]. split; [done|]. split; [|by split].
    destruct this; try done; (split; [done|]); exists ((λ d, (d, tx)) <$> sent); destruct Hsent as (H1 & _);
      (split; [by rewrite H1, Hi2, (proj1 (Hi incoming))|]); rewrite <- list_fmap_compose; symmetry; apply list_fmap_id.
  - eexists _, _, _. split; [reflexivity|]. by apply Hstay.
  - destruct Hres as (H1 & H2 & _). eexists _, _, _. split; [reflexivity|]. apply Hstay. intros _.
    split_and!; try done. eapply client_recv_kept; [by apply polled_went|done..].
Qed.

Lemma dialling_kept ps ds this cx cx' :
  went cx cx' → stream_grows (Waker := nat) s_in (env cx) (env cx') →
  transmitted (Waker := nat) s_out (env cx') = transmitted (Waker := nat) s_out (env cx) →
  dialling ps ds this cx → dialling ps ds this cx'.
Proof.
  intros Hw Hg Ht. destruct this as [ct|iv rd h|iv tx [st x]|]; cbn [dialling]; [done| | |done].
  - intros (-> & -> & H1 & H2 & H3 & H4). split; [done|]. split; [done|]. split; [done|]. split; [by eapply client_recv_kept|]. split.
    + destruct h as [f|f|wr|]; cbn [helloing] in *; [..|done]; destruct H3 as (Hs & Ha & Hwr); (split_and!; [done|done|]);
        (eapply writing_kept; [|exact Hwr]; by rewrite Hs).
    + intros f Hf. eapply armed_went; [exact Hw|]. by apply H4.
  - intros (H1 & H2 & H3 & H4). split; [done|]. split; [by eapply sending_kept|]. split; [|by eapply client_recv_kept].
    intros f Hf. eapply armed_went; [exact Hw|]. by apply H3.
Qed.

Lemma client_poll_ok addr ps ds this cx :
  dialling ps ds this cx →
  ∃ r this' cx', connect_impl_poll all_senders incoming key addr this cx = Ret (r, this', cx') ∧ client_step ps ds this cx r this' cx'.
Proof.
  destruct this as [ct|iv rd h|iv tx [st x]|]; cbn [connect_impl_poll]; [done| | |done].
  - intros (-> & -> & Hown & Hrecv & Hhello & Harm).
    destruct (hello_poll_ok (C := C) s_out b0 iv (keyfinder key iv) h cx Hhello Harm) as (r & h' & cx1 & Hp & Hsaid).
    rewrite Hp. cbn [mbind outcome_bind]. apply hello_keeps in Hp.
    destruct (client_after_hello_ok iv rd r h' cx cx1 Hown Hrecv Hsaid Hp) as (r' & this' & cx' & Ha & Hstep).
    exists r', this', cx'. split; [exact Ha|]. by apply Hstep.
  - intros H. destruct (client_tasks_ok ps ds iv tx st x cx H) as (r & this' & cx' & Hp & Hstep & _). by exists r, this', cx'.
Qed.

Inductive client_run (addr : result SocketAddr) (this0 : Client R Wr C) (cx0 : Cx nat E) :
    list bytes → list bytes → Client R Wr C → Cx nat E → Prop :=
| client_run_start : client_run addr this0 cx0 [] [] this0 cx0
| client_run_poll ps ds this cx w others this' cx' took sent :
    client_run addr this0 cx0 ps ds this cx →
    stream_grows (Waker := nat) s_in (env cx) (others (env cx)) →
    transmitted (Waker := nat) s_out (others (env cx)) = transmitted (Waker := nat) s_out (env cx) →
    connect_impl_poll all_senders incoming key addr this (at_poll w others cx) = Ret (Pending, this', cx') →
    client_effects this (others (env cx)) (env cx') took sent →
    client_run addr this0 cx0 (ps ++ took) (ds ++ sent) this' cx'.

Lemma client_effects_unique this e e' took sent took' sent' :
  client_effects this e e' took sent → client_effects this e e' took' sent' → took = took' ∧ sent = sent'.
Proof.
  assert (Hother : (took = [] ∧ ∃ tagged : list (bytes * C), queued e' incoming = queued e incoming ++ tagged ∧ sent = fst <$> tagged) →
    (took' = [] ∧ ∃ tagged : list (bytes * C), queued e' incoming = queued e incoming ++ tagged ∧ sent' = fst <$> tagged) →
    took = took' ∧ sent = sent').
  { intros (-> & t & Ht & ->) (-> & t' & Ht' & ->). rewrite Ht in Ht'. by apply app_inv_head in Ht' as ->. }
  destruct this as [ct|iv rd h|iv tx tasks|]; cbn [client_effects]; [exact Hother|exact Hother| |exact Hother].
  intros [Ht Hs] [Ht' Hs']. split; [rewrite Ht in Ht'; by apply app_inv_tail in Ht'|]. exact (received_unique _ _ _ _ _ _ Hs Hs').
Qed.

Lemma client_run_dialling addr this0 cx0 ps ds this cx :
  dialling [] [] this0 cx0 → client_run addr this0 cx0 ps ds this cx → dialling ps ds this cx.
Proof.
  intros H0. induction 1 as [|ps ds this cx w others this' cx' took sent Hrun IH Hg Ht Hp Heff]; [done|].
  assert (Hs : dialling ps ds this (at_poll w others cx)) by (eapply dialling_kept; [apply went_poll|exact Hg|exact Ht|exact IH]).
  destruct (client_poll_ok addr ps ds this _ Hs) as (r & this1 & cx1 & Hp1 & _ & _ & _ & took1 & sent1 & _ & _ & Heff1 & Hd & _).
  rewrite Hp in Hp1. injection Hp1 as <- <- <-. destruct (client_effects_unique _ _ _ _ _ _ _ Heff Heff1) as [<- <-]. by apply Hd.
Qed.

(** The state after the connection has been made, in the same poll. *)
Definition client_first (iv : bytes) (rd : R) (wr : Wr) cx : Client R Wr C :=
  ClHello iv rd (HlIv (timeout_future wr write_timeout cx).1).

(** A poll before the tasks start, in which nothing is delivered. *)
Lemma client_run_one addr this0 cx0 w others this' cx' :
  dialling [] [] this0 cx0 → (match this0 with ClTasks _ _ _ => False | _ => True end) →
  stream_grows (Waker := nat) s_in (env cx0) (others (env cx0)) →
  transmitted (Waker := nat) s_out (others (env cx0)) = transmitted (Waker := nat) s_out (env cx0) →
  connect_impl_poll all_senders incoming key addr this0 (at_poll w others cx0) = Ret (Pending, this', cx') →
  queued (env cx') incoming = queued (others (env cx0)) incoming →
  client_run addr this0 cx0 [] [] this' cx'.
Proof.
  intros Hd Hthis Hg Ht Hp Hq. rewrite <- (app_nil_r []). eapply (client_run_poll addr _ _ [] [] this0 cx0 w others this' cx' [] []); [constructor|exact Hg|exact Ht|exact Hp|].
  destruct this0; try done; (split; [done|]); exists []; by rewrite Hq, app_nil_r.
Qed.

Lemma client_first_dialling sock cx rd wr cx1 iv cx2 :
  halves sock cx = Ret (Ok (rd, wr), cx1) → draw cx1 = (iv, cx2) →
  source (Waker := nat) (E := E) rd = s_in → position (Waker := nat) (E := E) rd = p0 →
  sink (Waker := nat) (E := E) wr = s_out → accepted (Waker := nat) (E := E) wr = b0 →
  dialling [] [] (client_first iv rd wr cx2) (instant_now cx2).2.
Proof.
  intros Hh Hd Hs Hp Hk Ha. destruct (halves_serving p0 b0 sock cx rd wr cx1 Hh Hs Hp Hk Ha) as [Hle Hset].
  destruct (draw_spec cx1 iv cx2 Hd) as (Hiv & Hio & _ & _).
  split; [done|]. split; [done|]. split; [by eexists|]. split; [split_and!; [done|done|done|cbn; by rewrite Hio]|].
  split; [|by intros f [= <-] v [=]].
  assert (Hset2 : settled s_out b0 wr (env cx2)) by (eapply settled_kept; [|exact Hset]; cbn; by rewrite Hio).
  destruct Hset2 as (H1 & H2 & H3 & _). split_and!; [done|done|]. cbn [timeout_future instant_now fst snd future env]. by apply writing_starts.
Qed.

(** C15. [connect_impl], poll by poll. In the poll in which the connection is made the
    socket is set up and an initialisation vector drawn; from there on, whatever
    the network and the rest of the program do, no poll panics. What has been
    written to the socket is a prefix of the stream that [LegacyTcp] gives for the
    key and for the packets taken from the link's channel. A packet is only
    delivered to the node after the first 32 bytes of the peer have shown that it
    knows the key, and the packets delivered are those whose frames the stream then
    begins with; at most one is taken and one delivered per poll. *)
Theorem connect_impl_polls addr sock cx rd wr cx1 iv cx2 ps ds this cx3 w others :
  halves sock cx = Ret (Ok (rd, wr), cx1) → draw cx1 = (iv, cx2) →
  source (Waker := nat) (E := E) rd = s_in → position (Waker := nat) (E := E) rd = p0 →
  sink (Waker := nat) (E := E) wr = s_out → accepted (Waker := nat) (E := E) wr = b0 →
  client_run (Ok addr) (client_first iv rd wr cx2) (instant_now cx2).2 ps ds this cx3 →
  stream_grows (Waker := nat) s_in (env cx3) (others (env cx3)) →
  transmitted (Waker := nat) s_out (others (env cx3)) = transmitted (Waker := nat) s_out (env cx3) →
  let poll := connect_impl_poll all_senders incoming key (Ok addr) in
  (∀ ct ct' cx0, focus io set_io (connect_timeout addr (from_secs 5)) ct cx0 = Ret (Ready (Ok sock), ct', cx) →
     poll (ClConnect ct) cx0 = poll (client_first iv rd wr cx2) (instant_now cx2).2)
  ∧ ∃ r this' cx' took sent, poll this (at_poll w others cx3) = Ret (r, this', cx')
      ∧ (length took <= 1)%nat ∧ (length sent <= 1)%nat ∧ client_effects this (others (env cx3)) (env cx') took sent
      ∧ connect_done (ps ++ took) (ds ++ sent) (env cx').
Proof.
  intros Hh Hd Hs Hp Hk Ha Hrun Hg Ht poll. pose proof (client_first_dialling sock cx rd wr cx1 iv cx2 Hh Hd Hs Hp Hk Ha) as H0. split.
  { intros ct ct' cx0 Hc. unfold poll. cbn [connect_impl_poll]. rewrite Hc. cbn [mbind outcome_bind]. rewrite Hh. cbn [mbind outcome_bind].
    by rewrite Hd. }
  pose proof (client_run_dialling _ _ _ _ _ _ _ H0 Hrun) as Hdial.
  destruct (client_poll_ok (Ok addr) ps ds this (at_poll w others cx3)) as (r & this' & cx' & Hpoll & _ & _ & _ & took & sent & H1 & H2 & H3 & _ & H4).
  { eapply dialling_kept; [apply went_poll|exact Hg|exact Ht|exact Hdial]. }
  by exists r, this', cx', took, sent.
Qed.
End client_proof.
End proof.
