(* ===== verification/LinkRuns.v ===== *)
(** Runs of [handle_connection] and of [connect_impl] in the concrete environment
    of [LinkEnv]: the theorems of [LinkTasks] at work. *)
From stdpp Require Import gmap.
From S2P Require Import Prelude Gimli Rng IpAddr Futures Channel AllSenders World Runtime Descriptors AsyncIo Framing LegacyTcp.
From S2P Require Import LinkEnv LinkRecv LinkSend LinkHello LinkTasks.
Import LinkEnv.Example Descriptors.Machine.

(** Descriptor 5 is a connection; its reading copy will be descriptor 6 and its
    writing copy descriptor 7. The peer has sent its half of the handshake and one
    packet. *)
Definition keys : list bytes := [str_bytes "other"; example_key].
Definition peer : bytes := wire example_key (Rng.absorb Rng.new [1]) [[1; 2; 3]].
Definition connection : Net :=
  MkNet (MkMachine {[5%nat := 2]} ∅ 0 []) {[6%nat := MkStream peer false [] 0 [] []; 7%nat := MkStream [] false [] 1000 [] []]}.
Definition cx_start : Cx nat Env :=
  MkCx 0%nat (λ n, Z.of_nat n) 0 [] [] (MkLinkEnv (MkIo [] connection) (MkChans example_world []) Rng.new).
Definition reader : nat * nat := (6%nat, 0%nat).
Definition writer : nat * bytes := (7%nat, []).

Abbreviation Serving := (Server (nat * nat) (nat * bytes) byte_tx).
Definition serve : Serving → Cx nat Env → outcome (Poll (result unit) * Serving * Cx nat Env) :=
  handle_connection_poll example_switch (Incoming 0) keys.

Lemma keys_ok : Forall is_bytes keys.
Proof. apply (bool_decide_unpack _). vm_compute. reflexivity. Qed.
Lemma reader_half : source (Waker := nat) (E := Env) reader = 6%nat ∧ position (Waker := nat) (E := Env) reader = 0%nat.
Proof. done. Qed.
Lemma writer_half : sink (Waker := nat) (E := Env) writer = 7%nat ∧ accepted (Waker := nat) (E := Env) writer = [].
Proof. done. Qed.

(** The socket is set up; the first poll goes through the handshake and registers
    the link, the second delivers the packet. *)
Lemma served : ∃ cx1 k i1 i2 tasks cx2 this2 cx3,
  halves 5 cx_start = Ret (Ok (reader, writer), cx1)
  ∧ serve (server_first reader writer cx1) (at_poll 0%nat id (instant_now cx1).2) = Ret (Pending, SvTasks k i1 i2 (Tx 0) tasks, cx2)
  ∧ serve (SvTasks k i1 i2 (Tx 0) tasks) (at_poll 0%nat id cx2) = Ret (Pending, this2, cx3)
  ∧ queued (env cx2) (Incoming 0) = [] ∧ queued (env cx3) (Incoming 0) = [([1; 2; 3], Tx 0)].
Proof. eexists _, _, _, _, _, _, _, _. do 4 (split; [vm_compute; reflexivity|]). vm_compute. reflexivity. Qed.

(** Whatever was sent to the node's queue is what was found there. *)
Lemma received_one sent (e e' : Env) p :
  received (Incoming 0) (Tx 0) sent e e' → queued e (Incoming 0) = [] → queued e' (Incoming 0) = [(p, Tx 0)] → sent = [p].
Proof.
  intros (Hq & _) H1 H2. assert (Hs : (λ d, (d, Tx 0)) <$> sent = [(p, Tx 0)]).
  { rewrite <- H2. symmetry. etransitivity; [exact Hq|]. change (queued e (Incoming 0) ++ ((λ d, (d, Tx 0)) <$> sent) = (λ d, (d, Tx 0)) <$> sent). by rewrite H1. }
  destruct sent as [|d [|]]; [done| |done]. by injection Hs as ->.
Qed.

Lemma unchanged (s : nat) (e : Env) : stream_grows (Waker := nat) s e (id e).
Proof. reflexivity. Qed.

Lemma handle_connection_polls_witness : ∃ cx1 this1 cx2 r this2 cx3 sent,
  server_run example_switch (Incoming 0) 6%nat 7%nat keys (server_first reader writer cx1) (instant_now cx1).2 [] [] this1 cx2
  ∧ serve this1 (at_poll 0%nat id cx2) = Ret (r, this2, cx3) ∧ sent = [[1; 2; 3]]
  ∧ ∃ took, link_done 6%nat 7%nat keys 0 [] took sent (env cx3).
Proof.
  destruct served as (cx1 & k & i1 & i2 & tasks & cx2 & this2 & cx3 & Hh & H1 & H2 & Hq2 & Hq3).
  destruct reader_half as [Hs Hp]. destruct writer_half as [Hk Ha].
  pose proof (server_first_serving (C := byte_tx) 6%nat 7%nat keys 0 [] 5 cx_start reader writer cx1 Hh Hs Hp Hk Ha) as H0.
  pose proof (server_run_one example_switch (Incoming 0) 6%nat 7%nat keys keys_ok 0 [] _ _ 0%nat id _ _ H0 I (unchanged _ _) eq_refl H1) as Hrun.
  destruct (handle_connection_polls example_switch (Incoming 0) 6%nat 7%nat keys keys_ok 0 [] 5 cx_start reader writer cx1 [] []
    _ cx2 0%nat id Hh Hs Hp Hk Ha Hrun (unchanged _ _) eq_refl) as (_ & r & this' & cx' & took & sent & Hpoll & _ & _ & [_ Hsent] & Hres).
  pose proof (eq_trans (eq_sym Hpoll) H2) as Heq. injection Heq as -> -> ->.
  pose proof (received_one sent _ _ _ Hsent Hq2 Hq3) as Hone.
  eexists cx1, _, cx2, _, this2, cx3, sent. split; [exact Hrun|]. split; [exact H2|]. split; [exact Hone|].
  exists took. destruct Hres as [(_ & Hq & _)|Hl]; [|exact Hl]. exfalso.
  assert (Hc : queued (env cx3) (Incoming 0) = []) by (etransitivity; [exact (Hq (Incoming 0))|exact Hq2]). rewrite Hq3 in Hc. discriminate Hc.
Defined.

(** ** The other end

    The same two descriptors, seen by [connect_impl]. *)
Abbreviation Dialling := (Client (nat * nat) (nat * bytes) byte_tx).
Definition address : result SocketAddr := Ok (SocketV4 0 2020).
Definition dial : Dialling → Cx nat Env → outcome (Poll (result unit) * Dialling * Cx nat Env) :=
  connect_impl_poll example_switch (Incoming 0) example_key address.

Lemma dialled : ∃ cx1 iv cx2 i1 tasks cx3 this2 cx4,
  halves 5 cx_start = Ret (Ok (reader, writer), cx1) ∧ draw cx1 = (iv, cx2)
  ∧ dial (client_first iv reader writer cx2) (at_poll 0%nat id (instant_now cx2).2) = Ret (Pending, ClTasks i1 (Tx 0) tasks, cx3)
  ∧ dial (ClTasks i1 (Tx 0) tasks) (at_poll 0%nat id cx3) = Ret (Pending, this2, cx4)
  ∧ queued (env (instant_now cx2).2) (Incoming 0) = [] ∧ queued (env cx3) (Incoming 0) = [] ∧ queued (env cx4) (Incoming 0) = [([1; 2; 3], Tx 0)].
Proof. eexists _, _, _, _, _, _, _, _. do 6 (split; [vm_compute; reflexivity|]). vm_compute. reflexivity. Qed.

Lemma connect_impl_polls_witness : ∃ iv cx2 this1 cx3 r this2 cx4 sent,
  client_run example_switch (Incoming 0) 6%nat 7%nat example_key address (client_first iv reader writer cx2) (instant_now cx2).2 [] [] this1 cx3
  ∧ dial this1 (at_poll 0%nat id cx3) = Ret (r, this2, cx4) ∧ sent = [[1; 2; 3]]
  ∧ ∃ took, connect_done 6%nat 7%nat example_key 0 [] took sent (env cx4).
Proof.
  destruct dialled as (cx1 & iv & cx2 & i1 & tasks & cx3 & this2 & cx4 & Hh & Hd & H1 & H2 & Hq2 & Hq3 & Hq4).
  destruct reader_half as [Hs Hp]. destruct writer_half as [Hk Ha].
  pose proof (client_first_dialling (C := byte_tx) 6%nat 7%nat example_key 0 [] 5 cx_start reader writer cx1 iv cx2 Hh Hd Hs Hp Hk Ha) as H0.
  pose proof (client_run_one example_switch (Incoming 0) 6%nat 7%nat example_key 0 [] address _ _ 0%nat id _ _ H0 I (unchanged _ _) eq_refl H1
    (eq_trans Hq3 (eq_sym Hq2))) as Hrun.
  destruct (connect_impl_polls example_switch (Incoming 0) 6%nat 7%nat example_key example_key_ok 0 [] (SocketV4 0 2020) 5 cx_start reader writer cx1 iv cx2 [] []
    _ cx3 0%nat id Hh Hd Hs Hp Hk Ha Hrun (unchanged _ _) eq_refl) as (_ & r & this' & cx' & took & sent & Hpoll & _ & _ & [_ Hsent] & Hres).
  pose proof (eq_trans (eq_sym Hpoll) H2) as Heq. injection Heq as -> -> ->.
  pose proof (received_one sent _ _ _ Hsent Hq3 Hq4) as Hone.
  eexists iv, cx2, _, cx3, _, this2, cx4, sent. split; [exact Hrun|]. split; [exact H2|]. split; [exact Hone|]. by exists took.
Defined.
