(* ===== verification/Listener.v ===== *)
(** The listening task as the future it is ([listener_impl] of
    [rust/src/legacy_tcp.rs]): the socket, and the loop that accepts connections
    and spawns [handle_connection] for each of them.

    The system calls are the class [PosixListen], over those of [Descriptors]; the
    environment has the descriptors for which [handle_connection] was spawned
    ([LinkTasks.SvStart]). *)
From S2P Require Import Prelude Rng Delay Futures Loops Runtime Descriptors LegacyTcp LinkEnv.
Import Poller.

Class PosixListen (Os : Type) := {
  sys_reuseaddr : nat → Os → sys_result unit * Os;
  (** [Backlog::new]. *)
  backlog_new : Z → sys_result Z;
  (** [bind] to a port of 0.0.0.0. *)
  sys_bind : nat → Z → Os → sys_result unit * Os;
  sys_listen : nat → Z → Os → sys_result unit * Os;
  sys_accept : nat → Os → sys_result nat * Os;
}.

Record ListenEnv (Os : Type) := MkListenEnv { lio : Io Os; spawned : list nat; lrng : Rng }.
Arguments MkListenEnv {_} _ _ _. Arguments lio {_} _. Arguments spawned {_} _. Arguments lrng {_} _.

(** What is known of a listening socket: [listening], how many connections wait to
    be accepted, and how many descriptors can still be opened. The socket is
    readable while connections wait; [accept] takes the first of them, unless no
    descriptor is left: then it fails, and the connection stays where it is. The
    flags of an open descriptor can be read and set. *)
Class ListenLaws (Os : Type) `{!Posix Os, !PosixListen Os} := {
  listening : nat → Os → Prop;
  waiting : nat → Os → nat;
  free : Os → nat;
  as_before (sock : nat) (o o' : Os) : Prop := listening sock o' ∧ waiting sock o' = waiting sock o ∧ free o' = free o;
  readable_waiting sock (o : Os) :
    listening sock o → (sys_poll sock Read o).1 = Done (Some (negb (waiting sock o =? 0)%nat)) ∧ as_before sock o (sys_poll sock Read o).2;
  accept_takes sock (o : Os) n m :
    listening sock o → waiting sock o = S n → free o = S m →
    let '(r, o') := sys_accept sock o in
    (∃ fd, r = Done fd ∧ (fcntl_getfl fd o').1 ≠ -1
       ∧ ∀ flags, 0 <= flags → (fcntl_setfl fd flags (fcntl_getfl fd o').2).1 ≠ -1)
    ∧ listening sock o' ∧ waiting sock o' = n ∧ free o' = m;
  accept_full sock (o : Os) n :
    listening sock o → waiting sock o = S n → free o = 0%nat →
    (∃ e, (sys_accept sock o).1 = Failed e) ∧ as_before sock o (sys_accept sock o).2;
  getfl_before sock fd (o : Os) : listening sock o → as_before sock o (fcntl_getfl fd o).2;
  setfl_before sock fd flags (o : Os) : listening sock o → as_before sock o (fcntl_setfl fd flags o).2;
  accept_keeps sock fd (o : Os) : nonblocking fd o → nonblocking fd (sys_accept sock o).2;
}.

Section listener.
Context {Os : Type} `{posix : !Posix Os, listen : !PosixListen Os}.
Abbreviation E := (ListenEnv Os).
Abbreviation Context := (Cx nat E).

Definition set_lio (i : Io Os) (e : E) : E := MkListenEnv i (spawned e) (lrng e).

(** A system call, from the task. *)
Definition os_call {T} (call : Os → T * Os) : Context → T * Context :=
  on_part lio set_lio (λ i, let '(v, o) := call (os i) in (v, MkIo (POLL_REGISTER i) o)).

(** [leo_async::spawn(handle_connection(..))]. *)
Definition spawn_connection (fd : nat) (cx : Context) : Context :=
  MkCx (waker cx) (clock cx) (reads cx) (sleep_register cx) (woken cx) (MkListenEnv (lio (env cx)) (spawned (env cx) ++ [fd]) (lrng (env cx))).

(** [?] on a [nix] result. *)
Definition try_sys {T} (r : sys_result T) : result T :=
  match r with Done v => Ok v | Failed e => Err (errno_text e) end.

(** Up to the loop. *)
Definition open_listener (port : Z) (o : Os) : result nat * Os :=
  match socket o with
  | (Err why, o) => (Err why, o)
  | (Ok sock, o) =>
      match fd_make_nonblocking sock o with
      | (Err why, o) => (Err why, o)
      | (Ok _, o) =>
          let '(r, o) := sys_reuseaddr sock o in
          match try_sys r with Err why => (Err why, o) | Ok _ =>
          let '(r, o) := sys_bind sock port o in
          match try_sys r with Err why => (Err why, o) | Ok _ =>
          match try_sys (backlog_new 128) with Err why => (Err why, o) | Ok n =>
          let '(r, o) := sys_listen sock n o in
          match try_sys r with Err why => (Err why, o) | Ok _ => (Ok sock, o) end end end end
      end
  end.

Inductive Listening := LsStart | LsWaiting (socket : nat) | LsDone.

Abbreviation Polled := (option (outcome (Poll (result unit) * Listening * Context))).

(** The loop, from a poll of [fd_wait_readable] on, within one poll of the task:
    it only leaves the poll where [fd_wait_readable] is pending or the function
    returns. *)
Fixpoint accept_poll (fuel : nat) (socket : nat) (cx : Context) : Polled :=
  match fuel with
  | O => None
  | S fuel =>
      match focus lio set_lio (fd_wait_readable socket) tt cx with
      | Panic why => Some (Panic why)
      | Ret (Pending, _, cx) => Some (Ret (Pending, LsWaiting socket, cx))
      | Ret (Ready (Err _), _, cx) => accept_poll fuel socket cx
      | Ret (Ready (Ok _), _, cx) =>
          let '(r, cx) := os_call (sys_accept socket) cx in
          match r with
          | Failed _ => accept_poll fuel socket cx
          | Done fd =>
              let '(r, cx) := os_call (fd_make_nonblocking fd) cx in
              match r with
              | Err why => Some (Ret (Ready (Err why), LsDone, cx))
              | Ok _ => accept_poll fuel socket (spawn_connection fd cx)
              end
          end
      end
  end.

Definition listener_impl_poll (port : Z) (fuel : nat) (this : Listening) (cx : Context) : Polled :=
  match this with
  | LsStart =>
      let '(r, cx) := os_call (open_listener port) cx in
      match r with
      | Err why => Some (Ret (Ready (Err why), LsDone, cx))
      | Ok socket => accept_poll fuel socket cx
      end
  | LsWaiting socket => accept_poll fuel socket cx
  | LsDone => Some (Panic "`async fn` resumed after completion")
  end.

(** The task of [listener]: [fuel] is for its own loop, [accepts] for that of
    [listener_impl] in a poll. *)
Definition set_lrng (r : Rng) (e : E) : E := MkListenEnv (lio e) (spawned e) r.
Definition listener_poll (port : Z) (accepts fuel : nat) :
    Retry Listening → Context → option (outcome (Poll unit * Retry Listening * Context)) :=
  retry_poll lrng set_lrng (listener_impl_poll port accepts) LsStart fuel.
Definition listener_start : Retry Listening := RyAttempt LsStart.

(** When [listener_impl] returns, the task sleeps for five to ten seconds, in the same
    poll. *)
Lemma listener_sleeps port accepts fuel this cx v st ended :
  listener_impl_poll port accepts this cx = Some (Ret (Ready v, st, ended)) → wf (lrng (env ended)) → steady ended →
  ∃ sleep cx', listener_poll port accepts (S (S fuel)) (RyAttempt this) cx = Some (Ret (Pending, RySleep sleep, cx'))
    ∧ paused ended sleep ∧ (target sleep, waker ended) ∈ sleep_register cx' ∧ spawned (env cx') = spawned (env ended).
Proof.
  intros Hl Hwf Hsteady. unfold listener_poll. cbn [retry_poll]. rewrite Hl.
  destruct (sleep_follows lrng set_lrng (listener_impl_poll port accepts) LsStart ltac:(done) (λ _ _, True) fuel ended Hwf Hsteady)
    as (sleep & cx' & Heq & _ & Hp & Hd & _ & _ & Hreg).
  exists sleep, cx'. split; [exact Heq|]. split; [done|]. split; [done|]. unfold drawn in Hd. by rewrite Hd.
Qed.
End listener.

(** ** One poll *)

Section proof.
Context {Os : Type} `{posix : !Posix Os, laws : !PosixLaws Os, listen : !PosixListen Os, listen_laws : !ListenLaws Os}.
Abbreviation E := (ListenEnv Os).
Implicit Types (cx : Cx nat E) (o : Os).

Abbreviation os_of cx := (os (lio (env cx))).

(** Only the operating system may have changed. *)
Definition same_task cx cx' : Prop :=
  waker cx' = waker cx ∧ sleep_register cx' = sleep_register cx ∧ woken cx' = woken cx.

#[export] Instance same_task_preorder : PreOrder same_task.
Proof. split; [by intros a|]. intros a b c (H1 & H2 & H3) (H4 & H5 & H6). split_and!; congruence. Qed.

Lemma os_call_spec {T} (call : Os → T * Os) cx :
  ∃ cx', os_call call cx = ((call (os_of cx)).1, cx') ∧ os_of cx' = (call (os_of cx)).2 ∧ spawned (env cx') = spawned (env cx)
    ∧ POLL_REGISTER (lio (env cx')) = POLL_REGISTER (lio (env cx)) ∧ same_task cx cx'.
Proof. unfold os_call, on_part. destruct (call (os_of cx)) as [v o']. by eexists. Qed.

(** [fd_wait_readable] does not panic, and says what [poll] says. *)
Lemma wait_spec sock cx :
  ∃ cx', same_task cx cx' ∧ os_of cx' = (sys_poll sock Read (os_of cx)).2 ∧ spawned (env cx') = spawned (env cx)
    ∧ match (sys_poll sock Read (os_of cx)).1 with
      | Done (Some false) => focus lio set_lio (fd_wait_readable sock) tt cx = Ret (Pending, tt, cx')
          ∧ POLL_REGISTER (lio (env cx')) = POLL_REGISTER (lio (env cx)) ++ [(sock, Read, waker cx)]
      | r => focus lio set_lio (fd_wait_readable sock) tt cx
             = Ret (Ready (match r with Done (Some _) => Ok tt | Done None => Err ":(" | Failed e => Err (errno_text e) end), tt, cx')
          ∧ POLL_REGISTER (lio (env cx')) = POLL_REGISTER (lio (env cx))
      end.
Proof.
  unfold focus, fd_wait_readable, fd_readable, fd_is, syscall. cbn.
  destruct (sys_poll sock Read (os_of cx)) as [[[[]|]|e] o']; cbn; eexists; (split; [|split; [|split; [|split; [reflexivity|]]]]); done.
Qed.

(** A poll that comes to an end is a run of the loop of [LegacyTcp] on some events. *)
Lemma accept_poll_events fuel sock cx res :
  accept_poll fuel sock cx = Some res →
  ∃ r st cx' events fds e, res = Ret (r, st, cx') ∧ accept_loop events = (fds, e)
    ∧ spawned (env cx') = spawned (env cx) ++ fds ∧ same_task cx cx'
    ∧ match r with
      | Pending => e = None ∧ st = LsWaiting sock ∧ (sock, Read, waker cx) ∈ POLL_REGISTER (lio (env cx'))
      | Ready v => ∃ why, v = Err why ∧ e = Some why
      end.
Proof.
  revert cx. induction fuel as [|fuel IH]; intros cx; cbn [accept_poll]; [done|].
  assert (Hcons : ∀ cx1 event, same_task cx cx1 → accept_poll fuel sock cx1 = Some res →
    (∀ events, ∃ before, accept_loop (event :: events) = (before ++ (accept_loop events).1, (accept_loop events).2)
       ∧ spawned (env cx1) = spawned (env cx) ++ before) →
    ∃ r st cx' events fds e, res = Ret (r, st, cx') ∧ accept_loop events = (fds, e)
      ∧ spawned (env cx') = spawned (env cx) ++ fds ∧ same_task cx cx'
      ∧ match r with
        | Pending => e = None ∧ st = LsWaiting sock ∧ (sock, Read, waker cx) ∈ POLL_REGISTER (lio (env cx'))
        | Ready v => ∃ why, v = Err why ∧ e = Some why
        end).
  { intros cx1 event Hst Hp Hev. destruct (IH cx1 Hp) as (r & st & cx' & events & fds & e & -> & Hl & Hs & Hst' & Hr).
    destruct (Hev events) as (before & He & Hs1). rewrite Hl in He. exists r, st, cx', (event :: events), (before ++ fds), e.
    split; [done|]. split; [exact He|]. split; [by rewrite Hs, Hs1, app_assoc|]. split; [by etransitivity|].
    destruct Hst as (<- & _). exact Hr. }
  destruct (wait_spec sock cx) as (cx1 & Hst1 & Ho1 & Hsp1 & Hw).
  destruct (sys_poll sock Read (os_of cx)).1 as [[[]|]|e]; destruct Hw as [-> Hreg]; cbn.
  2: { intros [= <-]. eexists Pending, _, cx1, [], [], None. split; [done|]. split; [done|]. split; [by rewrite app_nil_r|]. split; [done|].
    split; [done|]. split; [done|]. rewrite Hreg. apply elem_of_app. right. by apply list_elem_of_here. }
  2, 3: intros Hp; apply (Hcons cx1 WaitFailed Hst1 Hp); intros events; exists []; split; [|by rewrite app_nil_r]; cbn; by destruct (accept_loop events).
  destruct (os_call_spec (sys_accept sock) cx1) as (cx2 & -> & Ho2 & Hsp2 & Hreg2 & Hst2).
  assert (Hst : same_task cx cx2) by by etransitivity.
  destruct (sys_accept sock (os_of cx1)).1 as [fd|e].
  - destruct (os_call_spec (fd_make_nonblocking fd) cx2) as (cx3 & -> & Ho3 & Hsp3 & Hreg3 & Hst3).
    assert (Hst' : same_task cx cx3) by by etransitivity. destruct (fd_make_nonblocking fd (os_of cx2)).1 as [[]|why].
    + intros Hp. apply (Hcons (spawn_connection fd cx3) (Accepted fd (Ok tt))); [exact Hst'|exact Hp|].
      intros events. exists [fd]. split; [cbn; by destruct (accept_loop events)|]. cbn. by rewrite Hsp3, Hsp2, Hsp1.
    + intros [= <-]. eexists _, _, cx3, [Accepted fd (Err why)], [], (Some why). split; [done|]. split; [done|].
      split; [by rewrite app_nil_r, Hsp3, Hsp2, Hsp1|]. split; [done|]. by exists why.
  - intros Hp. apply (Hcons cx2 AcceptFailed Hst Hp). intros events. exists []. split; [cbn; by destruct (accept_loop events)|].
    by rewrite app_nil_r, Hsp2, Hsp1.
Qed.

(** *** While connections wait *)

Lemma as_before_listening sock o o' : as_before sock o o' → listening sock o'.
Proof. by intros (H & _). Qed.
Lemma as_before_trans sock o1 o2 o3 : as_before sock o1 o2 → as_before sock o2 o3 → as_before sock o1 o3.
Proof. intros (H1 & H2 & H3) (H4 & H5 & H6). split_and!; congruence || done. Qed.

(** A descriptor that was just accepted can be made non-blocking. *)
Lemma accepted_nonblocking sock fd o :
  listening sock o → (fcntl_getfl fd o).1 ≠ -1 →
  (∀ flags, 0 <= flags → (fcntl_setfl fd flags (fcntl_getfl fd o).2).1 ≠ -1) →
  ∃ o', fd_make_nonblocking fd o = (Ok tt, o') ∧ as_before sock o o'.
Proof.
  intros Hl Hg Hs. unfold fd_make_nonblocking. pose proof (getfl_before sock fd o Hl) as Hb1. pose proof (getfl_range fd o) as Hr.
  destruct (fcntl_getfl fd o) as [flags o1]. cbn [fst snd] in *. rewrite (proj2 (Z.eqb_neq _ _) Hg).
  assert (Hf : 0 <= Z.lor flags O_NONBLOCK) by (apply Z.lor_nonneg; pose proof nonblock_flag; lia).
  pose proof (setfl_before sock fd (Z.lor flags O_NONBLOCK) o1 (as_before_listening _ _ _ Hb1)) as Hb2. specialize (Hs _ Hf).
  destruct (fcntl_setfl fd _ o1) as [res o2]. cbn [fst snd] in *. rewrite (proj2 (Z.eqb_neq _ _) Hs).
  exists o2. split; [done|]. by eapply as_before_trans.
Qed.

(** One turn of the loop while a connection waits and a descriptor is left. *)
Lemma accept_one sock n m cx :
  listening sock (os_of cx) → waiting sock (os_of cx) = S n → free (os_of cx) = S m →
  ∃ fd cx', (∀ fuel, accept_poll (S fuel) sock cx = accept_poll fuel sock cx') ∧ same_task cx cx'
    ∧ spawned (env cx') = spawned (env cx) ++ [fd] ∧ nonblocking fd (os_of cx') ∧ stays_nonblocking (os_of cx) (os_of cx')
    ∧ listening sock (os_of cx') ∧ waiting sock (os_of cx') = n ∧ free (os_of cx') = m.
Proof.
  intros Hl Hn Hm. destruct (readable_waiting sock (os_of cx) Hl) as [Hp Hb].
  destruct (wait_spec sock cx) as (cx1 & Hst1 & Ho1 & Hsp1 & Hw). rewrite Hp, Hn in Hw. cbn in Hw. destruct Hw as [Hw _].
  rewrite <- Ho1 in Hb. destruct Hb as (Hl1 & Hn1 & Hm1). rewrite Hn in Hn1. rewrite Hm in Hm1.
  pose proof (accept_takes sock (os_of cx1) n m Hl1 Hn1 Hm1) as Ha. pose proof (λ fd, accept_keeps sock fd (os_of cx1)) as Hk.
  destruct (os_call_spec (sys_accept sock) cx1) as (cx2 & Hc2 & Ho2 & Hsp2 & _ & Hst2).
  destruct (sys_accept sock (os_of cx1)) as [r o2]. cbn [fst snd] in *. subst o2.
  destruct Ha as ((fd & -> & Hg & Hs) & Hl2 & Hn2 & Hm2).
  destruct (accepted_nonblocking sock fd (os_of cx2) Hl2 Hg Hs) as (o3 & Hmk & Hl3 & Hn3 & Hm3).
  destruct (os_call_spec (fd_make_nonblocking fd) cx2) as (cx3 & Hc3 & Ho3 & Hsp3 & _ & Hst3). rewrite Hmk in Hc3, Ho3. cbn in Hc3, Ho3. subst o3.
  exists fd, (spawn_connection fd cx3). split; [|split; [|split; [|split; [|split]]]].
  - intros fuel. cbn [accept_poll]. by rewrite Hw, Hc2, Hc3.
  - etransitivity; [exact Hst1|]. by etransitivity.
  - cbn. by rewrite Hsp3, Hsp2, Hsp1.
  - by eapply make_nonblocking_ok.
  - intros fd' Hfd. cbn. eapply (make_nonblocking_stays fd); [exact Hmk|]. apply Hk. rewrite Ho1. by apply poll_keeps.
  - split_and!; [exact Hl3|exact (eq_trans Hn3 Hn2)|exact (eq_trans Hm3 Hm2)].
Qed.

Lemma accept_drains sock n : ∀ fuel cx,
  listening sock (os_of cx) → waiting sock (os_of cx) = n → (n <= free (os_of cx))%nat → (n < fuel)%nat →
  ∃ fds cx', accept_poll fuel sock cx = Some (Ret (Pending, LsWaiting sock, cx')) ∧ same_task cx cx'
    ∧ spawned (env cx') = spawned (env cx) ++ fds ∧ length fds = n ∧ Forall (λ fd, nonblocking fd (os_of cx')) fds
    ∧ stays_nonblocking (os_of cx) (os_of cx') ∧ listening sock (os_of cx') ∧ waiting sock (os_of cx') = 0%nat
    ∧ free (os_of cx') = (free (os_of cx) - n)%nat ∧ (sock, Read, waker cx) ∈ POLL_REGISTER (lio (env cx')).
Proof.
  induction n as [|n IH]; intros [|fuel] cx Hl Hn Hle Hf; try lia.
  - destruct (readable_waiting sock (os_of cx) Hl) as [Hp Hb].
    destruct (wait_spec sock cx) as (cx1 & Hst1 & Ho1 & Hsp1 & Hw). rewrite Hp, Hn in Hw. cbn in Hw. destruct Hw as [Hw Hreg].
    rewrite <- Ho1 in Hb. destruct Hb as (Hl1 & Hn1 & Hm1). exists [], cx1. split; [cbn [accept_poll]; by rewrite Hw|]. split; [done|].
    split; [by rewrite app_nil_r|]. split; [done|]. split; [constructor|]. split; [intros fd Hfd; rewrite Ho1; by apply poll_keeps|].
    split_and!; [done|congruence|lia|]. rewrite Hreg. apply elem_of_app. right. by apply list_elem_of_here.
  - destruct (free (os_of cx)) as [|m] eqn:Hm; [lia|].
    destruct (accept_one sock n m cx Hl Hn Hm) as (fd & cx1 & Hstep & Hst & Hsp & Hnb & Hstay & Hl1 & Hn1 & Hm1).
    destruct (IH fuel cx1 Hl1 Hn1) as (fds & cx' & Hp & Hst' & Hsp' & Hlen & Hall & Hstay' & Hl' & Hn' & Hm' & Hreg); [lia|lia|].
    exists (fd :: fds), cx'. split; [by rewrite Hstep|]. split; [by etransitivity|].
    split; [by rewrite Hsp', Hsp, <- app_assoc|]. split; [cbn; by rewrite Hlen|]. split; [constructor; [by apply Hstay'|done]|].
    split; [intros fd' Hfd; by apply Hstay', Hstay|]. split_and!; [done|done|lia|]. destruct Hst as (<- & _). exact Hreg.
Qed.

(** One turn when no descriptor is left: nothing has changed. *)
Lemma accept_none sock n cx :
  listening sock (os_of cx) → waiting sock (os_of cx) = S n → free (os_of cx) = 0%nat →
  ∃ cx', (∀ fuel, accept_poll (S fuel) sock cx = accept_poll fuel sock cx')
    ∧ listening sock (os_of cx') ∧ waiting sock (os_of cx') = S n ∧ free (os_of cx') = 0%nat.
Proof.
  intros Hl Hn Hm. destruct (readable_waiting sock (os_of cx) Hl) as [Hp Hb].
  destruct (wait_spec sock cx) as (cx1 & _ & Ho1 & _ & Hw). rewrite Hp, Hn in Hw. cbn in Hw. destruct Hw as [Hw _].
  rewrite <- Ho1 in Hb. destruct Hb as (Hl1 & Hn1 & Hm1). rewrite Hn in Hn1. rewrite Hm in Hm1.
  destruct (accept_full sock (os_of cx1) n Hl1 Hn1 Hm1) as [[e He] (Hl2 & Hn2 & Hm2)].
  destruct (os_call_spec (sys_accept sock) cx1) as (cx2 & Hc2 & Ho2 & _). rewrite He in Hc2. rewrite <- Ho2 in Hl2, Hn2, Hm2.
  exists cx2. split; [intros fuel; cbn [accept_poll]; by rewrite Hw, Hc2|]. split_and!; congruence || done.
Qed.

Lemma accept_hangs sock : ∀ fuel n cx,
  listening sock (os_of cx) → waiting sock (os_of cx) = n → (free (os_of cx) < n)%nat → accept_poll fuel sock cx = None.
Proof.
  induction fuel as [|fuel IH]; intros [|n] cx Hl Hn Hlt; [done|done|lia|]. destruct (free (os_of cx)) as [|m] eqn:Hm.
  - destruct (accept_none sock n cx Hl Hn Hm) as (cx' & -> & Hl' & Hn' & Hm'). eapply IH; [done|exact Hn'|lia].
  - destruct (accept_one sock n m cx Hl Hn Hm) as (fd & cx' & -> & _ & _ & _ & _ & Hl' & Hn' & Hm'). eapply IH; [done|exact Hn'|lia].
Qed.

(** C16. A poll of the listening loop. When it comes to an end, it has spawned a
    connection for each socket that [LegacyTcp.accept_loop] says for the events
    it met, and either waits for the socket, registered with its own waker, or has
    returned the error of [fd_make_nonblocking]; it never panics. It comes to an
    end if and only if as many descriptors are left as connections wait: then it
    accepts all of them, makes their descriptors non-blocking and waits. With one
    descriptor too few it never gives the thread back: [accept] fails, the loop
    goes on, and the socket is still readable. *)
Theorem listener_polls sock cx :
  (∀ fuel res, accept_poll fuel sock cx = Some res →
     ∃ r st cx' events fds e, res = Ret (r, st, cx') ∧ accept_loop events = (fds, e)
       ∧ spawned (env cx') = spawned (env cx) ++ fds ∧ same_task cx cx'
       ∧ match r with
         | Pending => e = None ∧ st = LsWaiting sock ∧ (sock, Read, waker cx) ∈ POLL_REGISTER (lio (env cx'))
         | Ready v => ∃ why, v = Err why ∧ e = Some why
         end)
  ∧ (listening sock (os_of cx) →
      (waiting sock (os_of cx) <= free (os_of cx) →
         ∀ fuel, waiting sock (os_of cx) < fuel →
         ∃ fds cx', accept_poll fuel sock cx = Some (Ret (Pending, LsWaiting sock, cx')) ∧ same_task cx cx'
           ∧ spawned (env cx') = spawned (env cx) ++ fds ∧ length fds = waiting sock (os_of cx)
           ∧ Forall (λ fd, nonblocking fd (os_of cx')) fds ∧ stays_nonblocking (os_of cx) (os_of cx')
           ∧ listening sock (os_of cx') ∧ waiting sock (os_of cx') = 0
           ∧ free (os_of cx') = free (os_of cx) - waiting sock (os_of cx)
           ∧ (sock, Read, waker cx) ∈ POLL_REGISTER (lio (env cx')))
      ∧ (free (os_of cx) < waiting sock (os_of cx) → ∀ fuel, accept_poll fuel sock cx = None))%nat.
Proof.
  split; [intros fuel res; apply accept_poll_events|]. intros Hl. split.
  - intros Hle fuel Hf. by apply accept_drains.
  - intros Hlt fuel. by eapply accept_hangs.
Qed.
End proof.

(** ** Witnesses

    On the machine of [Descriptors]: an element of the input of the listening socket
    is a connection that waits, and the room is what is left for new descriptors. *)
Module Example.
Import Descriptors.Machine.

#[export] Instance machine_listen : PosixListen Machine := {
  sys_reuseaddr fd m := (Done tt, m);
  backlog_new n := Done n;
  sys_bind fd port m := (Done tt, m);
  sys_listen fd n m := (Done tt, m);
  sys_accept fd m :=
    match input m !!! fd, room m with
    | _ :: rest, S r =>
        let new := fresh (dom (flags m)) in
        (Done new, MkMachine (<[new := 2]> (flags m)) (<[fd := rest]> (input m)) r (output m))
    | _ :: _, O => (Failed (OtherErrno 24), m)
    | [], _ => (Failed EAGAIN, m)
    end;
}.

#[export] Instance machine_listen_laws : ListenLaws Machine.
Proof.
  refine {| listening _ _ := True; waiting fd m := length (input m !!! fd); free := room |}.
  - intros sock m _. cbn. split; [|done]. by destruct (input m !!! sock).
  - intros sock m n r _. cbn -[fresh]. destruct (input m !!! sock) as [|c rest]; [done|]. intros [= Hn] ->. cbn -[fresh].
    split; [|split; [done|split; [|done]]].
    + eexists. split; [reflexivity|]. rewrite lookup_insert_eq. split; [done|]. intros f Hf. by rewrite (proj2 (Z.ltb_ge _ _) Hf).
    + unfold lookup_total, map_lookup_total. by rewrite lookup_insert_eq.
  - intros sock m n _ Hn Hr. cbn. destruct (input m !!! sock) as [|c rest] eqn:Hi; [done|]. rewrite Hr. cbn.
    split; [by eexists|]. split_and!; [done|by rewrite Hi|done].
  - intros sock fd m _. done.
  - intros sock fd f m _. cbn. by destruct (f <? 0).
  - intros sock fd m. unfold nonblocking. cbn -[fresh]. destruct (input m !!! sock) as [|c rest]; [done|]. destruct (room m); [done|].
    cbn -[fresh]. intros Hn. rewrite lookup_insert_ne; [done|]. intros E. pose proof (is_fresh (dom (flags m))) as Hf. rewrite E in Hf.
    apply not_elem_of_dom in Hf. rewrite Hf in Hn. by destruct Hn.
Defined.

(** Three connections wait at descriptor 3; room for [n] more descriptors. *)
Definition port (n : nat) : Machine := MkMachine {[3%nat := 2050]} {[3%nat := [1; 2; 3]]} n [].
Definition at_port (n : nat) : Cx nat (ListenEnv Machine) := MkCx 0%nat (λ n, Z.of_nat n) 0 [] [] (MkListenEnv (MkIo [] (port n)) [] Rng.new).
End Example.
Import Descriptors.Machine Example.

(** With room for four, one poll accepts all three; with room for two, no fuel is
    enough. *)
Lemma listener_polls_witness :
  (∃ fds cx', accept_poll 4 3 (at_port 4) = Some (Ret (Pending, LsWaiting 3, cx')) ∧ spawned (env cx') = [] ++ fds ∧ length fds = 3%nat)
  ∧ ∀ fuel, accept_poll fuel 3 (at_port 2) = None.
Proof.
  split.
  - destruct (proj1 (proj2 (listener_polls (listen_laws := machine_listen_laws) 3 (at_port 4)) I) ltac:(vm_compute; lia) 4%nat ltac:(vm_compute; lia)) as (fds & cx' & Hp & _ & Hs & Hl & _).
    exists fds, cx'. split; [exact Hp|]. split; [exact Hs|exact Hl].
  - apply (proj2 (proj2 (listener_polls (listen_laws := machine_listen_laws) 3 (at_port 2)) I)). vm_compute. lia.
Defined.
