(* ===== verification/Retry.v ===== *)
(** The loop of [create_connection] ([rust/src/legacy_tcp.rs]), poll by poll: an
    attempt, a sleep of five to ten seconds, the next attempt. It is [Loops.retry_poll]
    around [LinkTasks.connect_impl_poll]. *)
From S2P Require Import Prelude Gimli Rng Delay Futures Loops Runtime Descriptors AsyncIo Framing LegacyTcp.
From S2P Require Import IpAddr Channel AllSenders World LinkEnv LinkRecv LinkSend LinkHello LinkTasks LinkRuns.

(** ** [create_connection] *)

Section create_connection.
Context {Os W R Wr S I Sw C : Type} `{!EqDecision I, !EqDecision Sw, !EqDecision C}.
Context `{posix : !Posix Os, posix_laws : !PosixLaws Os}.
Context `{read : !AsyncRead nat (Io Os) R S, read_laws : !AsyncReadLaws nat (Io Os) R S}.
Context `{write : !AsyncWrite nat (Io Os) Wr S, write_laws : !AsyncWriteLaws nat (Io Os) Wr S}.
Context `{sockets : !Sockets Os R Wr, sockets_laws : !SocketsLaws Os R Wr S}.
Context `{mpsc_in : !Mpsc W I (bytes * C), laws_in : !MpscLaws W I (bytes * C)}.
Context `{mpsc_sw : !Mpsc W Sw (AllSendersMessage C), laws_sw : !MpscLaws W Sw (AllSendersMessage C)}.
Context `{mpsc_c : !Mpsc W C bytes, mpsc_new : !MpscNew W C bytes, new_laws : !MpscNewLaws W C bytes}.
Context `{receive : !Receive nat W C bytes, receive_laws : !ReceiveLaws nat W C bytes}.
Context `{frame_sw_in : !MpscFrame W Sw (AllSendersMessage C) I (bytes * C), frame_in_sw : !MpscFrame W I (bytes * C) Sw (AllSendersMessage C)}.
Context `{frame_sw_c : !MpscFrame W Sw (AllSendersMessage C) C bytes, frame_in_c : !MpscFrame W I (bytes * C) C bytes}.
Context `{new_in : !MpscNewFrame W C bytes I (bytes * C), new_sw : !MpscNewFrame W C bytes Sw (AllSendersMessage C)}.
Context `{next_in : !NextFrame nat W C bytes I (bytes * C), next_sw : !NextFrame nat W C bytes Sw (AllSendersMessage C)}.
Context (all_senders : AllSenders Sw) (incoming : I) (key : bytes) (addr : result SocketAddr).

Abbreviation E := (LinkEnv Os W).
Abbreviation State := (Retry (Client R Wr C)).
Implicit Types (this : State) (cx : Cx nat E) (e : E).

(** The task of [create_connection]. *)
Definition create_connection_poll : nat → State → Cx nat E → option (outcome (Poll unit * State * Cx nat E)) :=
  retry_poll RNG set_RNG (λ x cx, Some (connect_impl_poll all_senders incoming key addr x cx)) (ClConnect CtStart).
Definition create_connection_start : State := RyAttempt (ClConnect CtStart).
Definition connection_follows : State → Cx nat E → State → Cx nat E → Prop :=
  followed RNG set_RNG (λ x cx, Some (connect_impl_poll all_senders incoming key addr x cx)) (ClConnect CtStart).

(** ** Its attempts *)

Definition ct_context cx : Cx nat (Io Os) := MkCx (waker cx) (clock cx) (reads cx) (sleep_register cx) (woken cx) (io (env cx)).

Definition client_alive (x : Client R Wr C) cx : Prop :=
  match x with
  | ClConnect CtStart => True
  | ClConnect ct => ∃ deadline, ct_waits deadline ct (ct_context cx)
  | ClDone => False
  | _ => ∃ s_in s_out p0 b0 ps ds, dialling (S := S) s_in s_out key p0 b0 ps ds x cx
  end.

Context (key_ok : is_bytes key) (addr_ok : ∀ a, addr = Ok a → ∃ ip port, a = SocketV4 ip port).

Definition attempt_returns cx (res : outcome (Poll (result unit) * Client R Wr C * Cx nat E)) : Prop :=
  ∃ r x' cx', res = Ret (r, x', cx') ∧ clock cx' = clock cx ∧ waker cx' = waker cx ∧ wf (RNG (env cx'))
    ∧ (r = Pending → client_alive x' cx').

Lemma dialling_returns (s_in s_out : S) p0 b0 ps ds x cx0 cx :
  clock cx = clock cx0 → waker cx = waker cx0 → wf (RNG (env cx)) → dialling s_in s_out key p0 b0 ps ds x cx →
  attempt_returns cx0 (connect_impl_poll all_senders incoming key addr x cx).
Proof.
  intros Hc Hw Hwf Hd. destruct (client_poll_ok all_senders incoming s_in s_out key key_ok p0 b0 addr ps ds x cx Hd)
    as (r & x' & cx' & Hp & [Hw' [Hc' _]] & _ & Hr & took & sent & _ & _ & _ & Hpend & _).
  exists r, x', cx'. split; [exact Hp|]. split; [congruence|]. split; [congruence|]. split; [by rewrite Hr|].
  intros Hr0. specialize (Hpend Hr0). destruct x' as [ct|iv rd h|iv tx [st x']|]; [done| | |done]; by exists s_in, s_out, p0, b0, (ps ++ took), (ds ++ sent).
Qed.

Lemma halves_returns sock cx :
  ∃ r cx', halves sock cx = Ret (r, cx') ∧ clock cx' = clock cx ∧ waker cx' = waker cx ∧ RNG (env cx') = RNG (env cx).
Proof.
  unfold halves. destruct (open_halves_returns sock (os (io (env cx)))) as (r & o & ->). cbn [mbind outcome_bind mret outcome_ret]. by eexists _, _.
Qed.

Lemma draw_iv_wf r : wf r → wf (draw_iv r).2.
Proof.
  intros [Hwf _]%u64_next_wf. unfold draw_iv, Rng.u64. destruct (u64_next r) as [a r1]. cbn [snd] in Hwf.
  apply u64_next_wf in Hwf as [Hwf _]. by destruct (u64_next r1).
Qed.

(** The socket is connected: the rest of the poll. *)
Lemma connected_returns sock a ct ct' cx0 cx :
  addr = Ok a → focus io set_io (connect_timeout a (from_secs 5)) ct cx0 = Ret (Ready (Ok sock), ct', cx) →
  clock cx = clock cx0 → waker cx = waker cx0 → wf (RNG (env cx)) →
  attempt_returns cx0 (connect_impl_poll all_senders incoming key addr (ClConnect ct) cx0).
Proof.
  intros Ha Hct Hc Hw Hwf. cbn [connect_impl_poll]. rewrite Ha, Hct. cbn [mbind outcome_bind].
  destruct (halves_returns sock cx) as (r & cx1 & Hh & Hc1 & Hw1 & Hr1). rewrite Hh. cbn [mbind outcome_bind].
  destruct r as [[rd wr]|why]; [|eexists _, _, cx1; split; [reflexivity|]; split; [congruence|]; split; [congruence|]; by rewrite Hr1].
  destruct (draw cx1) as [iv cx2] eqn:Hd. destruct (draw_spec cx1 iv cx2 Hd) as (_ & _ & _ & [Hw2 [Hc2 _]] & Hr2).
  pose proof (client_first_dialling (C := C) _ _ key _ _ sock cx rd wr cx1 iv cx2 Hh Hd eq_refl eq_refl eq_refl eq_refl) as Hdial.
  apply (dialling_returns _ _ _ _ _ _ _ cx0) in Hdial; [|cbn; congruence|cbn; congruence|cbn; rewrite Hr2; apply draw_iv_wf; by rewrite Hr1].
  exact Hdial.
Qed.

Lemma attempt_ok x cx : client_alive x cx → wf (RNG (env cx)) → attempt_returns cx (connect_impl_poll all_senders incoming key addr x cx).
Proof.
  intros Halive Hwf. destruct x as [ct|iv rd h|iv tx tasks|]; [| | |done].
  2, 3: destruct Halive as (s_in & s_out & p0 & b0 & ps & ds & Hd); by eapply dialling_returns.
  assert (Hcase : (∃ ip port, addr = Ok (SocketV4 ip port)) ∨ ∃ why, addr = Err why).
  { clear Halive. destruct addr as [a|why]; [|right; by eexists]. destruct (addr_ok a eq_refl) as (ip & port & ->). left. by eexists _, _. }
  destruct Hcase as [(ip & port & Ha)|[why Ha]]; [|cbn [connect_impl_poll]; rewrite Ha; eexists _, _, cx; by split].
  assert (Hct : ∃ r ct' (cx1 : Cx nat (Io Os)), connect_timeout (SocketV4 ip port) (from_secs 5) ct (ct_context cx) = Ret (r, ct', cx1)
    ∧ (r = Pending → ∃ deadline, ct_waits deadline ct' cx1)).
  { destruct ct as [|sock tf|].
    - destruct (ct_start_ok ip port (from_secs 5) (ct_context cx)) as (r & ct' & cx1 & Hp & Hr). exists r, ct', cx1. split; [exact Hp|].
      intros ->. eexists. apply Hr.
    - destruct Halive as [deadline Hd]. destruct (ct_again_ok ip port (from_secs 5) deadline _ _ Hd) as (r & ct' & cx1 & Hp & Hr).
      exists r, ct', cx1. split; [exact Hp|]. intros ->. exists deadline. apply Hr.
    - by destruct Halive. }
  destruct Hct as (r & ct' & cx1 & Hp & Hpend). pose proof (ct_polled _ _ _ _ _ _ _ _ Hp) as [Hw Hc].
  assert (Hf : focus io set_io (connect_timeout (SocketV4 ip port) (from_secs 5)) ct cx
    = Ret (r, ct', MkCx (waker cx1) (clock cx1) (reads cx1) (sleep_register cx1) (woken cx1) (set_io (env cx1) (env cx)))).
  { unfold focus. unfold ct_context in Hp. by rewrite Hp. }
  destruct r as [[sock|why]|]; [eapply connected_returns; [exact Ha|exact Hf|exact Hc|exact Hw|exact Hwf]| |];
    cbn [connect_impl_poll]; rewrite Ha, Hf; cbn [mbind outcome_bind]; (eexists _, _, _; split; [reflexivity|]); (split; [exact Hc|]);
    (split; [exact Hw|]); (split; [exact Hwf|]); [done|].
  intros _. destruct (Hpend eq_refl) as [deadline Hd]. cbn [client_alive]. destruct ct'; [done| |done]. by exists deadline.
Qed.

(** ** Between two polls *)

(** The socket that the task is writing to. *)
Definition hello_writes (h : Hello nat Wr) : option S :=
  match h with
  | HlIv f | HlKeyfinder f => Some (sink (Waker := nat) (E := E) (future f))
  | HlFlush wr => Some (sink (Waker := nat) (E := E) wr)
  | HlDone => None
  end.
Definition send_writes (st : SendTask nat Wr) : option S :=
  match st with
  | SdNext _ wr | SdYield _ _ wr _ | SdFlush _ wr => Some (sink (Waker := nat) (E := E) wr)
  | SdWrite _ _ f => Some (sink (Waker := nat) (E := E) (future f))
  | SdDone => None
  end.
Definition writes_to this : option S :=
  match this with
  | RyAttempt (ClHello _ _ h) => hello_writes h
  | RyAttempt (ClTasks _ _ (st, _)) => send_writes st
  | _ => None
  end.

(** What the network and the other tasks may do: streams grow, no descriptor starts
    to block, and the socket of this task is not written to by another. *)
Definition undisturbed this e e' : Prop :=
  (∀ s, stream_grows (Waker := nat) s e e') ∧ (∀ fd, nonblocking fd (os (io e)) → nonblocking fd (os (io e')))
  ∧ (∀ s, writes_to this = Some s → transmitted (Waker := nat) s e' = transmitted (Waker := nat) s e)
  ∧ (wf (RNG e) → wf (RNG e')).

Lemma dialling_writes (s_in s_out : S) p0 b0 ps ds x cx :
  dialling s_in s_out key p0 b0 ps ds x cx → writes_to (RyAttempt x) = Some s_out.
Proof.
  destruct x as [ct|iv rd h|iv tx [st x]|]; cbn [dialling writes_to]; [done| | |done].
  - intros (_ & _ & _ & _ & Hh & _). destruct h as [f|f|wr|]; cbn [helloing hello_writes] in *; [..|done]; f_equal; by apply Hh.
  - intros (_ & Hs & _).
    destruct st; cbn [sending send_writes] in *; try case_match; try done; f_equal; (by apply Hs) || (destruct Hs as (ps' & _ & Hs & _); apply Hs).
Qed.

Lemma running_kept this w others cx :
  undisturbed this (env cx) (others (env cx)) → running RNG client_alive this cx → running RNG client_alive this (at_poll w others cx).
Proof.
  intros (Hg & Hn & Ht & Hr) [Hwf Hthis]. split; [by apply Hr|]. destruct this as [x|sleep]; [|exact Hthis].
  assert (Hdial : ∀ x0, x0 = x → (∃ s_in s_out p0 b0 ps ds, dialling (S := S) s_in s_out key p0 b0 ps ds x0 cx) →
    ∃ s_in s_out p0 b0 ps ds, dialling (S := S) s_in s_out key p0 b0 ps ds x0 (at_poll w others cx)).
  { intros x0 -> (s_in & s_out & p0 & b0 & ps & ds & Hd). exists s_in, s_out, p0, b0, ps, ds.
    eapply dialling_kept; [apply went_poll|apply Hg|apply Ht; by eapply dialling_writes|exact Hd]. }
  destruct x as [ct|iv rd h|iv tx tasks|]; cbn [client_alive] in *; [|by apply Hdial|by apply Hdial|done].
  destruct ct as [|sock tf|]; [done| |by destruct Hthis]. destruct Hthis as [deadline (H1 & H2 & H3 & H4)]. exists deadline.
  split; [done|]. split; [done|]. split; [exact H3|]. by apply Hn.
Qed.

(** The task after some polls, from [cx0]. *)
Inductive connection_run (cx0 : Cx nat E) : State → Cx nat E → Prop :=
| connection_run_start : connection_run cx0 create_connection_start cx0
| connection_run_poll this cx w others fuel this' cx' :
    connection_run cx0 this cx → undisturbed this (env cx) (others (env cx)) →
    create_connection_poll fuel this (at_poll w others cx) = Some (Ret (Pending, this', cx')) →
    connection_run cx0 this' cx'.

Lemma create_connection_poll_ok fuel this cx :
  running RNG client_alive this cx → steady cx → (4 <= fuel)%nat →
  ∃ this' cx', create_connection_poll fuel this cx = Some (Ret (Pending, this', cx'))
    ∧ running RNG client_alive this' cx' ∧ connection_follows this cx this' cx' ∧ clock cx' = clock cx ∧ asleep_registered this' (waker cx) cx'.
Proof.
  intros Hrun Hsteady Hf.
  apply (retry_poll_ok RNG set_RNG (λ x cx, Some (connect_impl_poll all_senders incoming key addr x cx)) (ClConnect CtStart)
    ltac:(done) client_alive); [done| |exact Hrun|exact Hsteady|exact Hf].
  intros x cx0 Hx Hwf. destruct (attempt_ok x cx0 Hx Hwf) as (r & x' & cx' & Hp & H). exists r, x', cx'. by rewrite Hp.
Qed.

Lemma connection_run_running cx0 this cx :
  wf (RNG (env cx0)) → steady cx0 → connection_run cx0 this cx → running RNG client_alive this cx ∧ clock cx = clock cx0.
Proof.
  intros Hwf Hsteady. induction 1 as [|this cx w others fuel this' cx' Hrun [IH Hc] Hu Hp]; [done|].
  destruct (create_connection_poll_ok (fuel + 4) this (at_poll w others cx)) as (this1 & cx1 & Hp1 & Hrun1 & _ & Hc1 & _);
    [by apply running_kept|unfold steady; cbn; by rewrite Hc|lia|].
  apply (retry_poll_mono _ _ _ _ fuel (fuel + 4)) in Hp; [|lia].
  pose proof (eq_trans (eq_sym Hp) Hp1) as Heq. injection Heq as -> ->. split; [done|]. cbn in Hc1. congruence.
Qed.

(** C19. The task of [create_connection], poll by poll, for an address that parses to
    an IPv4 one or not at all. Whatever the network and the other tasks do, no poll
    panics, none goes round the loop more than four times, and the task never ends.
    When an attempt ends, in whatever way, the task sleeps: until five to ten seconds
    after the moment at which it ended, and it is registered for that time with the
    waker of the poll. While that time has not come a poll leaves the sleep as it is;
    the first poll after it starts the next attempt, which may fail in the same
    poll, and is then followed by the next sleep. *)
Theorem create_connection_polls cx0 this cx w others fuel :
  wf (RNG (env cx0)) → steady cx0 → connection_run cx0 this cx → undisturbed this (env cx) (others (env cx)) → (4 <= fuel)%nat →
  ∃ this' cx', create_connection_poll fuel this (at_poll w others cx) = Some (Ret (Pending, this', cx'))
    ∧ connection_follows this (at_poll w others cx) this' cx' ∧ asleep_registered this' w cx' ∧ connection_run cx0 this' cx'.
Proof.
  intros Hwf Hsteady Hrun Hu Hf. destruct (connection_run_running cx0 this cx Hwf Hsteady Hrun) as [Halive Hc].
  destruct (create_connection_poll_ok fuel this (at_poll w others cx)) as (this' & cx' & Hp & _ & Hfol & _ & Hreg);
    [by apply running_kept|unfold steady; cbn; by rewrite Hc|done|].
  exists this', cx'. split; [exact Hp|]. split; [exact Hfol|]. split; [exact Hreg|]. by eapply connection_run_poll.
Qed.
End create_connection.

(** ** Witness

    The peer does not answer, and a reading of the clock is four seconds after the
    one before: the first poll starts the connection, the second finds its deadline
    past and sleeps, the third finds the sleep over. *)
Module Example.
Import LinkEnv.Example.

Definition cx0 : Cx nat Env := MkCx 0%nat (λ n, from_secs (4 * Z.of_nat n)) 0 [] [] (MkLinkEnv (MkIo [] connection) (MkChans example_world []) Rng.new).
Abbreviation Dialler := (Retry Dialling).
Definition poll : Dialler → Cx nat Env → option (outcome (Poll unit * Dialler * Cx nat Env)) :=
  create_connection_poll example_switch (Incoming 0) example_key address 4.
Definition run : Dialler → Cx nat Env → Prop := connection_run (S := nat) example_switch (Incoming 0) example_key address cx0.

Lemma retried : ∃ x1 cx1 sleep cx2 x3 cx3,
  poll create_connection_start (at_poll 0%nat id cx0) = Some (Ret (Pending, RyAttempt x1, cx1))
  ∧ poll (RyAttempt x1) (at_poll 1%nat id cx1) = Some (Ret (Pending, RySleep sleep, cx2))
  ∧ poll (RySleep sleep) (at_poll 0%nat id cx2) = Some (Ret (Pending, RyAttempt x3, cx3))
  ∧ target sleep = from_secs 17 ∧ clock cx2 (reads cx2) = from_secs 20.
Proof. eexists _, _, _, _, _, _. do 3 (split; [vm_compute; reflexivity|]). split; vm_compute; reflexivity. Qed.

Lemma undisturbed_id (this : Dialler) (e : Env) : undisturbed (S := nat) this e (id e).
Proof. split; [intros s; reflexivity|]. by split_and!. Qed.

Lemma address_ok a : address = Ok a → ∃ ip port, a = SocketV4 ip port.
Proof. intros [= <-]. by eexists _, _. Qed.

Lemma steady_cx0 : steady cx0.
Proof. intros n. unfold cx0, from_secs. cbn -[Z.of_nat]. lia. Qed.
End Example.
Import LinkEnv.Example Example.

Lemma create_connection_polls_witness : ∃ sleep cx2 x3 cx3,
  run (RySleep sleep) cx2 ∧ poll (RySleep sleep) (at_poll 0%nat id cx2) = Some (Ret (Pending, RyAttempt x3, cx3))
  ∧ dial (ClConnect CtStart) (instant_now (at_poll 0%nat id cx2)).2
    = Ret (Pending, x3, cx3).
Proof.
  destruct retried as (x1 & cx1 & sleep & cx2 & x3 & cx3 & H1 & H2 & H3 & Ht & Hc). exists sleep, cx2, x3, cx3.
  assert (Hrun : run (RySleep sleep) cx2).
  { eapply connection_run_poll; [|apply undisturbed_id|exact H2]. eapply connection_run_poll; [apply connection_run_start|apply undisturbed_id|exact H1]. }
  destruct (create_connection_polls example_switch (Incoming 0) example_key address example_key_ok address_ok cx0 (RySleep sleep) cx2 0%nat id 4
    rng_new_wf steady_cx0 Hrun (undisturbed_id _ _) ltac:(lia)) as (this' & cx' & Hp & Hfol & _).
  pose proof (eq_trans (eq_sym Hp) H3) as Heq. injection Heq as -> ->. split; [exact Hrun|]. split; [exact H3|].
  apply followed_over in Hfol; [exact (Some_inj _ _ Hfol)|]. rewrite Ht. etransitivity; [|apply Z.eq_le_incl, (eq_sym Hc)]. done.
Defined.
