(* ===== verification/Wakeups.v ===== *)
(** Wake-ups from other threads ([rust/src/leo_async.rs]): [Task::wake] and the wake
    pipe, interleaved with [run_forever] step by step.

    [Runtime.Executor] runs an iteration of the executor as one function. Here every
    access to what threads share is a step of its own: the exchange of a [scheduled]
    flag, a push to [TASK_SENDER], a pop, the check [is_empty], each write to the
    wake pipe and each read from it, the return of [poll]. The steps of the executor
    and of any number of threads interleave freely (the atomic operations and the
    queue are taken to be sequentially consistent). *)
From S2P Require Import Prelude Runtime.
Import Executor.

(** Where a thread is in [Task::wake]: outside, between the exchange of the flag and
    the push, between the push and the write to the pipe. *)
Inductive Agent := Idle | Pushing (t : nat) | Poking.

(** Where the executor is in [run_forever]. *)
Inductive Pc :=
| Timers                              (* wake_all_ready *)
| Take (task_vec : list nat)          (* while let Some(task) = task_receiver.pop() *)
| Run (task_vec : list nat)           (* for task in task_vec.drain(..) *)
| Polling (t : nat) (task_vec : list nat)
| CheckEmpty                          (* if task_receiver.is_empty() *)
| Poll (block : bool)                 (* poll(), with a timeout or with 0 *)
| WakeReady                           (* wakers of the descriptors that are ready *)
| Drain.                              (* the loop that reads the wake pipe *)

(** The executor is agent 0: its own wake-ups take the same steps. *)
Record State := MkState {
  next_task : nat;
  scheduled : gset nat;
  queue : list nat;
  pipe : nat;                         (* bytes in the wake pipe *)
  agents : list Agent;
  pc : Pc;
  log : list event;
}.

Section wakeups.
(** The capacity of the pipe. *)
Context (capacity : nat).

Definition with_agent (i : nat) (a : Agent) (s : State) : State :=
  MkState (next_task s) (scheduled s) (queue s) (pipe s) (<[i := a]> (agents s)) (pc s) (log s).
Definition with_pc (p : Pc) (s : State) : State :=
  MkState (next_task s) (scheduled s) (queue s) (pipe s) (agents s) p (log s).

(** Where the executor calls [wake]. *)
Definition may_wake (i : nat) (p : Pc) : bool :=
  match i, p with
  | O, (Timers | Polling _ _ | WakeReady) => true
  | O, _ => false
  | S _, _ => true
  end.

(** [scheduled.compare_exchange(false, true)]: whether it succeeds. *)
Definition exchange (i t : nat) (s : State) : State :=
  if bool_decide (t ∈ scheduled s) then
    MkState (next_task s) (scheduled s) (queue s) (pipe s) (agents s) (pc s) (log s ++ [Woken t])
  else
    MkState (next_task s) ({[t]} ∪ scheduled s) (queue s) (pipe s) (<[i := Pushing t]> (agents s)) (pc s) (log s ++ [Woken t]).

(** [TASK_SENDER.push(task)]. *)
Definition push (i t : nat) (s : State) : State :=
  MkState (next_task s) (scheduled s) (queue s ++ [t]) (pipe s) (<[i := Poking]> (agents s)) (pc s) (log s).

(** [poke_wake_pipe]: one byte, or [EAGAIN] when the pipe is full. *)
Definition poke (i : nat) (s : State) : State :=
  MkState (next_task s) (scheduled s) (queue s) (if (pipe s <? capacity)%nat then S (pipe s) else pipe s)
    (<[i := Idle]> (agents s)) (pc s) (log s).

(** [spawn], by a task that is polled. *)
Definition spawn (s : State) : State :=
  MkState (S (next_task s)) ({[next_task s]} ∪ scheduled s) (queue s ++ [next_task s]) (pipe s) (agents s) (pc s)
    (log s ++ [Woken (next_task s)]).

(** One step of the executor outside [wake] and [spawn]; [None] while [poll] has no
    reason to return. [others] tells whether it has one other than the pipe: a
    descriptor, or its timeout. *)
Definition advance (others : bool) (s : State) : option State :=
  match pc s with
  | Timers => Some (with_pc (Take []) s)
  | Take vec =>
      Some match queue s with
      | t :: q => MkState (next_task s) (scheduled s) q (pipe s) (agents s) (Take (vec ++ [t])) (log s)
      | [] => with_pc (Run vec) s
      end
  | Run (t :: vec) =>
      (* task.scheduled.store(false) *)
      Some (MkState (next_task s) (scheduled s ∖ {[t]}) (queue s) (pipe s) (agents s) (Polling t vec) (log s ++ [Polled t]))
  | Run [] => Some (with_pc CheckEmpty s)
  | Polling _ vec => Some (with_pc (Run vec) s)
  | CheckEmpty => Some (with_pc (Poll match queue s with [] => true | _ => false end) s)
  | Poll block => if negb block || others || (0 <? pipe s)%nat then Some (with_pc WakeReady s) else None
  | WakeReady => Some (with_pc Drain s)
  | Drain =>
      (* read(fd, &mut [0u8; 2048]) *)
      Some match pipe s with
      | O => with_pc Timers s
      | n => MkState (next_task s) (scheduled s) (queue s) (n - 2048) (agents s) Drain (log s)
      end
  end.

Inductive step (s : State) : State → Prop :=
| step_exchange i t :
    agents s !! i = Some Idle → may_wake i (pc s) = true → (t < next_task s)%nat → step s (exchange i t s)
| step_push i t : agents s !! i = Some (Pushing t) → step s (push i t s)
| step_poke i : agents s !! i = Some Poking → step s (poke i s)
| step_interrupted i : agents s !! i = Some Poking → step s s       (* EINTR *)
| step_spawn t vec : agents s !! 0%nat = Some Idle → pc s = Polling t vec → step s (spawn s)
| step_thread t vec :                                               (* std::thread::spawn *)
    agents s !! 0%nat = Some Idle → pc s = Polling t vec →
    step s (MkState (next_task s) (scheduled s) (queue s) (pipe s) (agents s ++ [Idle]) (pc s) (log s))
| step_advance others s' : agents s !! 0%nat = Some Idle → advance others s = Some s' → step s s'.

(** [run_main]: the pipe is created, both ends non-blocking, and one task spawned. *)
Definition run_main : State := MkState 1 {[0%nat]} [0%nat] 0 [Idle] Timers [Woken 0].

Definition reachable : State → Prop := rtc step run_main.

(** ** The invariant *)

Definition pushing (l : list Agent) : list nat := omap (λ a, match a with Pushing t => Some t | _ => None end) l.
Definition task_vec (p : Pc) : list nat := match p with Take vec | Run vec | Polling _ vec => vec | _ => [] end.

(** Where a task that is scheduled can be: in the queue, taken by the executor, or
    in the hands of a thread that is going to push it. *)
Definition places (s : State) : list nat := queue s ++ task_vec (pc s) ++ pushing (agents s).

Definition inv (s : State) : Prop :=
  NoDup (places s) ∧ (∀ t, t ∈ scheduled s ↔ t ∈ places s) ∧ (∀ t, t ∈ scheduled s → (t < next_task s)%nat)
  ∧ (∀ t, last_event t (log s) = Some (Woken t) → t ∈ scheduled s)
  ∧ (pc s = Poll true → queue s ≠ [] → (0 < pipe s)%nat ∨ Poking ∈ agents s).

Lemma pushing_insert l i a b :
  l !! i = Some a →
  pushing l ≡ₚ pushing [a] ++ pushing (delete i l) ∧ pushing (<[i := b]> l) ≡ₚ pushing [b] ++ pushing (delete i l).
Proof.
  intros Hi. pose proof (take_drop_middle l i a Hi) as E. pose proof (lookup_lt_Some _ _ _ Hi) as Hlt.
  rewrite insert_take_drop by done. rewrite delete_take_drop. rewrite <- E at 1. unfold pushing. rewrite !omap_app.
  split; cbn; [destruct a|destruct b]; cbn; try done; by rewrite <- Permutation_middle.
Qed.

Lemma pushing_insert_same l i a b : l !! i = Some a → pushing [a] = [] → pushing [b] = [] → pushing (<[i := b]> l) ≡ₚ pushing l.
Proof. intros Hi Ha Hb. destruct (pushing_insert l i a b Hi) as [H1 H2]. by rewrite H2, H1, Ha, Hb. Qed.

Lemma inv_run_main : inv run_main.
Proof.
  split_and!.
  - apply NoDup_singleton.
  - intros t. cbn. by rewrite elem_of_singleton, list_elem_of_singleton.
  - intros t. cbn. rewrite elem_of_singleton. lia.
  - intros t. cbn. destruct (decide (0 = t)%nat) as [<-|]; [by intros _; apply elem_of_singleton|done].
  - done.
Qed.

(** Steps that move scheduled tasks from place to place and leave the rest. *)
Lemma inv_moves s s' :
  inv s → places s' ≡ₚ places s → scheduled s' = scheduled s → next_task s' = next_task s → log s' = log s →
  (pc s' = Poll true → queue s' ≠ [] → (0 < pipe s')%nat ∨ Poking ∈ agents s') → inv s'.
Proof.
  intros (H1 & H2 & H3 & H4 & _) Hp Es En El Hq. unfold inv. rewrite Es, En, El. split_and!; try assumption.
  - by rewrite Hp.
  - intros t. by rewrite Hp.
Qed.

Lemma inv_exchange i t s :
  agents s !! i = Some Idle → (t < next_task s)%nat → inv s → inv (exchange i t s).
Proof.
  intros Hi Ht (H1 & H2 & H3 & H4 & H5). unfold exchange. case_bool_decide as Hin.
  - split_and!; cbn [scheduled next_task log pc queue pipe agents]; [done..| |done].
    intros t'. rewrite last_event_snoc. destruct (decide (t = t')) as [->|]; [done|apply H4].
  - assert (Hp : places (MkState (next_task s) ({[t]} ∪ scheduled s) (queue s) (pipe s) (<[i := Pushing t]> (agents s)) (pc s)
        (log s ++ [Woken t])) ≡ₚ t :: places s).
    { unfold places. cbn [queue pc agents]. destruct (pushing_insert _ _ _ (Pushing t) Hi) as [E1 E2]. rewrite E2, E1. cbn [pushing omap].
      cbn. rewrite (app_assoc _ _ (t :: _)), <- Permutation_middle, <- app_assoc. done. }
    split_and!; cbn [scheduled next_task log pc queue pipe agents].
    + rewrite Hp. apply list.NoDup_cons. split; [|done]. by rewrite <- H2.
    + intros t'. rewrite Hp, elem_of_cons, elem_of_union, elem_of_singleton, H2. done.
    + intros t'. rewrite elem_of_union, elem_of_singleton. intros [->|?]; [done|by apply H3].
    + intros t'. rewrite last_event_snoc, elem_of_union, elem_of_singleton.
      destruct (decide (t = t')) as [->|]; [by left|]. intros ?. right. by apply H4.
    + intros Hpc Hq. destruct (H5 Hpc Hq) as [?|Hpk]; [by left|right].
      apply list_elem_of_lookup in Hpk as [j Hj]. apply list_elem_of_lookup. exists j.
      rewrite list_lookup_insert_ne; [done|]. intros <-. by rewrite Hi in Hj.
Qed.

Lemma inv_spawn t vec s : pc s = Polling t vec → inv s → inv (spawn s).
Proof.
  intros Hpc (H1 & H2 & H3 & H4 & _).
  assert (Hfresh : next_task s ∉ scheduled s) by (intros ?%H3; lia).
  assert (Hp : places (spawn s) ≡ₚ next_task s :: places s).
  { unfold places, spawn. cbn [queue pc agents]. rewrite <- app_assoc. cbn. by rewrite <- Permutation_middle. }
  split_and!; cbn [spawn scheduled next_task log pc].
  - rewrite Hp. apply list.NoDup_cons. split; [|done]. by rewrite <- H2.
  - intros t'. rewrite Hp, elem_of_cons, elem_of_union, elem_of_singleton, H2. done.
  - intros t'. rewrite elem_of_union, elem_of_singleton. intros [->|?%H3]; lia.
  - intros t'. rewrite last_event_snoc, elem_of_union, elem_of_singleton.
    destruct (decide (next_task s = t')) as [->|]; [by left|]. intros ?. right. by apply H4.
  - by rewrite Hpc.
Qed.

Lemma inv_advance others s s' : advance others s = Some s' → inv s → inv s'.
Proof.
  intros Hs Hinv. unfold advance in Hs. destruct (pc s) as [|vec|[|t vec]|t vec| |block| |] eqn:Hpc; try injection Hs as <-.
  - apply (inv_moves s); try done. unfold places. by rewrite Hpc.
  - destruct (queue s) as [|t q] eqn:Hq; apply (inv_moves s); try done; unfold places; cbn [with_pc queue pc agents]; rewrite Hpc, ?Hq; cbn; [done|].
    rewrite <- !app_assoc. cbn. by rewrite <- !Permutation_middle.
  - apply (inv_moves s); try done. unfold places. by rewrite Hpc.
  - destruct Hinv as (H1 & H2 & H3 & H4 & _).
    assert (Hp : places s ≡ₚ t :: queue s ++ vec ++ pushing (agents s)).
    { unfold places. rewrite Hpc. cbn. by rewrite <- Permutation_middle. }
    rewrite Hp in H1. apply list.NoDup_cons in H1 as [Ht H1].
    split_and!; cbn [scheduled next_task log pc]; [exact H1| | | |done].
    + intros t'. rewrite elem_of_difference, elem_of_singleton, H2, Hp, elem_of_cons. unfold places. cbn [queue pc agents task_vec].
      destruct (decide (t' = t)) as [->|]; tauto.
    + intros t'. rewrite elem_of_difference. intros [? _]. by apply H3.
    + intros t'. rewrite last_event_snoc, elem_of_difference, elem_of_singleton.
      destruct (decide (t = t')) as [->|Hne]; [done|]. intros Hl. split; [by apply H4|congruence].
  - apply (inv_moves s); try done. unfold places. by rewrite Hpc.
  - apply (inv_moves s); try done; unfold places; rewrite ?Hpc; [done|].
    cbn [with_pc pc queue]. by destruct (queue s).
  - destruct (negb block || others || _); [|done]. injection Hs as <-.
    apply (inv_moves s); try done. unfold places. by rewrite Hpc.
  - apply (inv_moves s); try done. unfold places. by rewrite Hpc.
  - destruct (pipe s); apply (inv_moves s); try done; unfold places; by rewrite Hpc.
Qed.

Lemma inv_step s s' : (0 < capacity)%nat → step s s' → inv s → inv s'.
Proof.
  intros Hcap [i t Hi Hm Ht|i t Hi|i Hi|i Hi|t vec Hi Hpc|t vec Hi Hpc|others s1 Hi Hs] Hinv.
  - by apply inv_exchange.
  - apply (inv_moves s); try done.
    + unfold places, push. cbn [queue pc agents]. destruct (pushing_insert _ _ _ Poking Hi) as [E1 E2]. rewrite E2, E1. cbn.
      rewrite <- app_assoc. cbn. rewrite (app_assoc _ _ (t :: _)), <- !Permutation_middle, <- app_assoc. done.
    + intros _ _. right. apply list_elem_of_lookup. exists i. cbn. apply list_lookup_insert_eq. by eapply lookup_lt_Some.
  - apply (inv_moves s); try done.
    + unfold places, poke. cbn [queue pc agents]. by rewrite (pushing_insert_same _ _ _ Idle Hi).
    + intros _ _. left. unfold poke. cbn [pipe]. destruct (Nat.ltb_spec (pipe s) capacity); lia.
  - done.
  - by eapply inv_spawn.
  - apply (inv_moves s); try done; cbn [pc queue pipe agents].
    + unfold places, pushing. cbn [queue pc agents]. rewrite omap_app. cbn. by rewrite app_nil_r.
    + by rewrite Hpc.
  - by eapply inv_advance.
Qed.

(** C24. No wake-up is lost between threads. However the steps of the executor and of
    any threads that wake tasks interleave: a task is scheduled exactly when it is
    in the queue, in the executor's hands, or in those of a thread about to push
    it, and it is there once, so that each wake-up that sets the flag is one poll;
    a task that was woken since it was last taken up is scheduled, so that it is
    taken up again; and when the executor sleeps in [poll] with nothing to end its
    sleep, and no thread is in the middle of a wake-up, no task is scheduled. *)
Theorem wakeups_not_lost s :
  (0 < capacity)%nat → reachable s →
  NoDup (places s) ∧ (∀ t, t ∈ scheduled s ↔ t ∈ places s)
  ∧ (∀ t, last_event t (log s) = Some (Woken t) → t ∈ scheduled s)
  ∧ (∀ others, advance others s = None → (∀ a, a ∈ agents s → a = Idle) → scheduled s = ∅).
Proof.
  intros Hcap Hr. assert (Hi : inv s).
  { assert (H0 : inv run_main) by apply inv_run_main. revert H0.
    unfold reachable in Hr. induction Hr as [s|s s1 s2 Hs _ IH]; intros H0; [done|]. by apply IH, (inv_step s). }
  destruct Hi as (H1 & H2 & H3 & H4 & H5). split_and!; [done..|].
  intros others Hadv Hidle. unfold advance in Hadv.
  destruct (pc s) as [| |[]| | |block| |] eqn:Hpc; try done. destruct block; [|done].
  destruct (Nat.ltb_spec 0 (pipe s)) as [|Hpipe]; [by rewrite orb_true_r in Hadv|].
  assert (Hq : queue s = []).
  { destruct (queue s) as [|t q] eqn:Hq; [done|]. destruct (H5 eq_refl) as [?|Hpk]; [done|lia|].
    by apply Hidle in Hpk. }
  assert (Hnone : pushing (agents s) = []).
  { clear -Hidle. induction (agents s) as [|a l IH]; [done|]. unfold pushing in *. cbn.
    rewrite (Hidle a) by (by apply list_elem_of_here). cbn. apply IH. intros a' Ha. apply Hidle. by apply list_elem_of_further. }
  apply set_eq. intros t. rewrite H2. unfold places. rewrite Hq, Hpc, Hnone. cbn. split; [by intros ?%elem_of_nil|done].
Qed.

(** ** The executor of [Runtime] is one interleaving

    An iteration in which only the executor takes steps. *)

Definition at_pc (p : Pc) (pipe : nat) (agents : list Agent) (rt : Runtime) : State :=
  MkState (Executor.next_task rt) (Executor.scheduled rt) (TASK_SENDER rt) pipe agents p (Executor.log rt).

Section simulation.
Context (ags : list Agent) (Hidle : ags !! 0%nat = Some Idle).

(** From [rt] at [p] the executor gets to [rt'] at [p']. *)
Definition leads (p : Pc) (rt : Runtime) (p' : Pc) (rt' : Runtime) : Prop :=
  ∀ n, ∃ n', rtc step (at_pc p n ags rt) (at_pc p' n' ags rt').

Lemma leads_refl p rt : leads p rt p rt.
Proof. intros n. exists n. apply rtc_refl. Qed.
Lemma leads_trans p1 rt1 p2 rt2 p3 rt3 : leads p1 rt1 p2 rt2 → leads p2 rt2 p3 rt3 → leads p1 rt1 p3 rt3.
Proof. intros H1 H2 n. destruct (H1 n) as [n1 R1], (H2 n1) as [n2 R2]. exists n2. by etransitivity. Qed.
Lemma leads_advance others p rt p' rt' :
  (∀ n, ∃ n', advance others (at_pc p n ags rt) = Some (at_pc p' n' ags rt')) → leads p rt p' rt'.
Proof. intros H n. destruct (H n) as [n' E]. exists n'. apply rtc_once. by eapply step_advance. Qed.

Lemma wake_leads p rt t : may_wake 0 p = true → (t < Executor.next_task rt)%nat → leads p rt p (wake rt t).
Proof.
  intros Hp Ht n.
  assert (Hx : step (at_pc p n ags rt) (exchange 0 t (at_pc p n ags rt))) by (by apply step_exchange).
  unfold exchange, at_pc in Hx. cbn in Hx. unfold wake. case_bool_decide.
  { exists n. by apply rtc_once. }
  eexists. eapply rtc_l; [exact Hx|].
  assert (Hlen : (0 < length ags)%nat) by (by eapply lookup_lt_Some).
  eapply rtc_l. { eapply (step_push _ 0 t). cbn. by apply list_lookup_insert_eq. }
  eapply rtc_l. { eapply (step_poke _ 0). cbn. apply list_lookup_insert_eq. by rewrite length_insert. }
  unfold push, poke, at_pc. cbn. rewrite !list_insert_insert_eq, list_insert_id by done. apply rtc_refl.
Qed.

Lemma wake_next rt t : Executor.next_task (wake rt t) = Executor.next_task rt.
Proof. unfold wake. by case_bool_decide. Qed.

Lemma wakes_leads p rt ws :
  may_wake 0 p = true → Forall (λ w, w < Executor.next_task rt)%nat ws → leads p rt p (foldl wake rt ws).
Proof.
  intros Hp. revert rt. induction ws as [|w ws IH]; intros rt Hall; [apply leads_refl|].
  apply list.Forall_cons in Hall as [Hw Hall]. cbn [foldl].
  eapply leads_trans; [by apply wake_leads|]. apply IH. by rewrite wake_next.
Qed.

Lemma acts_leads t vec rt as_ :
  Forall (action_ok (Executor.next_task rt)) as_ → leads (Polling t vec) rt (Polling t vec) (foldl act rt as_).
Proof.
  revert rt. induction as_ as [|a as_ IH]; intros rt Hall; [apply leads_refl|].
  apply list.Forall_cons in Hall as [Ha Hall]. cbn [foldl].
  assert (Hrest : Forall (action_ok (Executor.next_task (act rt a))) as_).
  { eapply list.Forall_impl; [exact Hall|]. pose proof (act_next rt a). intros []; simpl; lia. }
  eapply leads_trans; [|by apply IH]. destruct a as [w| | |]; cbn [act action_ok] in *.
  - by apply wake_leads.
  - intros n. exists n. apply rtc_once. by eapply step_spawn.
  - intros n. exists n. apply rtc_refl.
  - intros n. exists n. apply rtc_refl.
Qed.

Lemma run_task_leads poll t vec rt :
  Forall (action_ok (Executor.next_task rt)) (poll t).1 → leads (Run (t :: vec)) rt (Run vec) (run_task poll rt t).
Proof.
  intros Hacts. unfold run_task. cbv zeta. set (rt1 := MkRuntime _ _ _ _ _ _ _).
  eapply (leads_trans _ _ (Polling t vec) rt1).
  { apply (leads_advance false). intros n. by exists n. }
  case_bool_decide; [|apply (leads_advance false); intros n; by exists n].
  eapply leads_trans; [by apply (acts_leads t vec rt1 (poll t).1)|].
  apply (leads_advance false). intros n. exists n. by destruct (poll t).2.
Qed.

Lemma run_vec_leads n0 poll vec rt :
  (n0 <= Executor.next_task rt)%nat → (∀ t, Forall (action_ok n0) (poll t).1) → queue_ok vec rt →
  leads (Run vec) rt (Run []) (foldl (run_task poll) rt vec).
Proof.
  intros Hn Hacts. revert rt Hn. induction vec as [|t vec IH]; intros rt Hn Hok; [apply leads_refl|]. cbn [foldl].
  assert (Ha : Forall (action_ok (Executor.next_task rt)) (poll t).1).
  { eapply list.Forall_impl; [apply Hacts|]. intros []; simpl; lia. }
  destruct (run_task_ok poll vec rt t Ha Hok) as [Hok1 Hn1].
  eapply leads_trans; [by apply run_task_leads|]. apply IH; [lia|done].
Qed.

Lemma take_leads vec rt :
  leads (Take vec) rt (Run (vec ++ TASK_SENDER rt)) (with_queue [] rt).
Proof.
  destruct rt as [nt sc q fu sl po lg]. unfold with_queue. cbn.
  revert vec. induction q as [|t q IH]; intros vec.
  - rewrite app_nil_r. apply (leads_advance false). intros n. by exists n.
  - eapply (leads_trans _ _ (Take (vec ++ [t])) (MkRuntime nt sc q fu sl po lg)).
    + apply (leads_advance false). intros n. by exists n.
    + specialize (IH (vec ++ [t])). by rewrite <- app_assoc in IH.
Qed.

Lemma drain_leads rt : leads Drain rt Timers rt.
Proof.
  intros n. exists 0%nat. induction (lt_wf n) as [n _ IH]. destruct n as [|n].
  - apply rtc_once, (step_advance _ false); done.
  - eapply rtc_l; [by apply (step_advance _ false)|]. apply IH. lia.
Qed.

(** C37. The executor of [Runtime] is one of the interleavings: an iteration of
    [run_forever] as [Runtime.Executor] has it is a sequence of steps of this
    system in which only the executor moves, so that what holds of all
    interleavings holds of it. *)
Theorem executor_is_interleaving env rt s timeout rt' s' n :
  runtime_ok rt s → (∀ t, Forall (action_ok (Executor.next_task rt)) (task_poll env t).1) →
  run_forever_step env rt s = Ret (timeout, rt', s') →
  ∃ n', rtc step (at_pc Timers n ags rt) (at_pc Timers n' ags rt').
Proof.
  intros Hok Hacts Hstep. unfold run_forever_step in Hstep.
  destruct (run_tasks env rt s) as [[timeout1 rt1] s1] eqn:Hrun.
  apply bind_Ret_inv in Hstep as (rt2 & Hpoll & [= <- <- <-]).
  destruct (run_tasks_split env rt s timeout1 rt1 s1 Hok Hrun) as (ws & Hws & Hn & _ & Hok2 & ->).
  pose proof (run_tasks_spec env rt s Hok Hacts) as Hspec. rewrite Hrun in Hspec.
  destruct Hspec as ((_ & _ & [_ Hwk] & _) & _). set (rt0 := foldl wake (with_sleeps [] rt) ws) in *.
  set (rt1 := foldl (run_task (task_poll env)) _ _) in *. unfold poll_and_wake in Hpoll.
  apply bind_Ret_inv in Hpoll as (fds0 & _ & Hpoll). destruct (timeout1 <? -1); [done|].
  destruct (poll_answer env) as [ready|]; [|done]. injection Hpoll as <-.
  set (rt1' := with_polls (Poller.reregister (order' env) ready (POLL_REGISTER rt1)) rt1).
  enough (H : leads Timers rt Timers (foldl wake rt1' (Poller.wake_ready (order env) ready (POLL_REGISTER rt1)))) by apply H.
  eapply (leads_trans _ _ Timers rt0).
  { apply (wakes_leads Timers (with_sleeps [] rt) ws eq_refl Hws). }
  eapply (leads_trans _ _ (Run (TASK_SENDER rt0)) (with_queue [] rt0)).
  { eapply (leads_trans _ _ (Take []) rt0); [|apply (take_leads [])]. apply (leads_advance false). intros k. by exists k. }
  eapply (leads_trans _ _ (Run []) rt1).
  { apply (run_vec_leads (Executor.next_task rt)); [by rewrite <- Hn|exact Hacts|exact Hok2]. }
  eapply (leads_trans _ _ WakeReady rt1).
  { eapply (leads_trans _ _ CheckEmpty rt1); [apply (leads_advance false); intros k; by exists k|].
    eapply (leads_trans _ _ (Poll match TASK_SENDER rt1 with [] => true | _ => false end) rt1);
      [apply (leads_advance false); intros k; by exists k|].
    apply (leads_advance true). intros k. exists k. cbn. by rewrite orb_true_r. }
  eapply leads_trans; [|apply drain_leads].
  eapply (leads_trans _ _ WakeReady _ Drain); [|apply (leads_advance false); intros k; by exists k].
  apply (wakes_leads WakeReady rt1' _ eq_refl). apply list.Forall_forall. intros w (e & -> & He)%Poller.wake_ready_in.
  by eapply list.Forall_forall in Hwk; [|exact He].
Qed.
End simulation.
End wakeups.

(** ** Witnesses *)

(** The first task starts a thread and waits; the executor goes to sleep. *)
Definition asleep : State :=
  MkState 1 ({[0%nat]} ∖ {[0%nat]}) [] 0 [Idle; Idle] (Poll true) [Woken 0; Polled 0].

Ltac next_step := eapply rtc_l; [eapply (step_advance _ _ false); reflexivity|]; cbn.

Lemma asleep_reachable : reachable 16 asleep.
Proof.
  unfold reachable, run_main. do 4 next_step.
  eapply rtc_l. { by eapply step_thread. } cbn. do 3 next_step. apply rtc_refl.
Qed.

(** The thread then wakes the first task: until it has written to the pipe, the
    task is in its hands or in the queue. *)
Lemma wakeups_not_lost_witness :
  scheduled asleep = ∅
  ∧ (let s := push 1 0 (exchange 1 0 asleep) in reachable 16 s ∧ NoDup (places s) ∧ 0%nat ∈ scheduled s).
Proof.
  split.
  - destruct (wakeups_not_lost 16 asleep ltac:(lia) asleep_reachable) as (_ & _ & _ & H).
    apply (H false); [reflexivity|]. intros a Ha. repeat (apply elem_of_cons in Ha as [->|Ha]; [reflexivity|]). by apply elem_of_nil in Ha.
  - intros s.
    assert (E : exchange 1 0 asleep = MkState 1 ({[0%nat]} ∪ scheduled asleep) [] 0 [Idle; Pushing 0] (Poll true) [Woken 0; Polled 0; Woken 0]).
    { unfold exchange. rewrite bool_decide_false; [reflexivity|]. cbn. set_solver. }
    assert (Hr : reachable 16 s).
    { eapply rtc_r; [eapply rtc_r; [exact asleep_reachable|]|].
      - apply (step_exchange 16 asleep 1 0); [reflexivity|reflexivity|cbn; lia].
      - apply step_push. rewrite E. reflexivity. }
    destruct (wakeups_not_lost 16 s ltac:(lia) Hr) as (H1 & H2 & H3 & _). split; [exact Hr|]. split; [exact H1|].
    apply H3. unfold s. rewrite E. reflexivity.
Defined.

Lemma executor_is_interleaving_witness :
  ∃ timeout rt' s' n', run_forever_step example_env example_runtime SleepStore.new = Ret (timeout, rt', s')
    ∧ rtc (step 16) (at_pc Timers 0 [Idle] example_runtime) (at_pc Timers n' [Idle] rt').
Proof.
  assert (H : ∃ timeout rt' s', run_forever_step example_env example_runtime SleepStore.new = Ret (timeout, rt', s'))
    by (eexists _, _, _; vm_compute; reflexivity).
  destruct H as (timeout & rt' & s' & H).
  destruct (executor_is_interleaving 16 [Idle] eq_refl example_env example_runtime SleepStore.new timeout rt' s' 0
    example_runtime_ok example_tasks_ok H) as [n' Hn].
  exists timeout, rt', s', n'. split; [exact H|exact Hn].
Defined.
