(* ===== verification/Startup.v ===== *)
(** Starting the program ([rust/src/main.rs]: [async_main] and the part of
    [run_meshnode] before its loop).

    The file system, the JSON library and the commands run in a shell are
    arguments: what reading the configuration file gives, what the accessors of the
    parsed value show, and whether each command could be run. *)
From stdpp Require Import gmap.
From S2P Require Import Prelude IpAddr Rng MeshNode Tun Futures Runtime Descriptors Devices.

(** The configuration, as the accessors of the JSON library show it. *)
Record Config := MkConfig {
  node_name : option bytes;
  ipv4_addresses : list (option bytes);
  transports : list Transport;
  linux_tuntap : option bool;
  macos_tuntap : option bool;
}.

(** The loop over [config["ipv4_addresses"]]: the addresses added to [our_ips],
    and the octets of each announcing task. *)
Fixpoint config_ipv4s (addrs : list (option bytes)) : outcome (list (IpAddr * bytes)) :=
  match addrs with
  | [] => mret []
  | addr :: addrs =>
      addr ← unwrap addr;
      own ← own_ipv4s [addr];
      rest ← config_ipv4s addrs;
      mret (own ++ rest)
  end.

(** What is running when the node comes to its TUN interface: under which name and
    address, for which other addresses, with which links. *)
Record Started := MkStarted {
  name : bytes;
  node_ip : IpAddr;
  own_ipv4 : list (IpAddr * bytes);
  links : list LinkTask;
}.

Definition start_node (fuel : nat) (config : Config) : option (outcome Started) :=
  match node_name config with
  | None => Some (Panic "called `Option::unwrap()` on a `None` value")
  | Some node_name =>
      node_ip ← from_node_name fuel node_name;
      Some (ips ← config_ipv4s (ipv4_addresses config);
            links ← start_transports (transports config);
            mret (MkStarted node_name node_ip ips links))
  end.

(** [args.pop_front()], [read_to_string], [json::parse]. *)
Definition read_config (read_to_string : string → result string) (parse : string → result Config) (args : list string) :
    outcome Config :=
  match args with
  | [] => Panic "meshnode requires a <config-file> argument"
  | config_path :: _ =>
      match read_to_string config_path with
      | Err e => Panic ("failed to read " +:+ config_path +:+ ": " +:+ e)
      | Ok config_file =>
          match parse config_file with
          | Err e => Panic ("failed to parse JSON in " +:+ config_path +:+ ": " +:+ e)
          | Ok config => mret config
          end
      end
  end.

(** ** The TUN interface on Linux

    A command that cannot be run makes the thread that runs it panic: the future
    that waits for the thread is then never ready ([Hangs]). *)
Inductive ending (A : Type) := Goes (a : A) | Hangs.
Arguments Goes {_} _.
Arguments Hangs {_}.

Section tun.
Context {Os : Type} `{!Posix Os, !TunOs Os}.
(** [Command::spawn().unwrap().wait().unwrap()]: whether it gives a value. *)
Context (run_command : list string → Os → bool * Os).

Definition sh (cmd : string) : list string := ["sh"; "-c"; cmd]%string.

(** The loop over the IPv4 addresses runs its commands on the executor's thread. *)
Fixpoint set_ipv4s (addrs : list (option bytes)) (o : Os) : outcome Os :=
  match addrs with
  | [] => mret o
  | addr :: addrs =>
      addr ← unwrap addr;
      octets ← parse_ipv4 addr;
      addr ← ipv4_of_octets octets;
      let '(ok, o) := run_command (sh (Tun.Linux.set_ipv4_cmd addr)) o in
      if ok then set_ipv4s addrs o else Panic "called `Result::unwrap()` on an `Err` value"
  end.

(** [if let Some(true) = config["linux_tuntap"].as_bool() { .. }]: the descriptors
    of the two tasks of [run]. *)
Definition start_tun (config : Config) (node_ip : IpAddr) (o : Os) : outcome (ending (option (nat * nat)) * Os) :=
  if decide (linux_tuntap config ≠ Some true) then mret (Goes None, o) else
  '(tun, o) ← Devices.Linux.open "smolmesh1" o;
  let '(ok, o) := run_command Devices.Linux.bring_interface_up_args o in
  if negb ok then mret (Hangs, o) else
  let '(ok, o) := run_command (sh (Tun.Linux.set_ip6_cmd node_ip 128)) o in
  if negb ok then mret (Hangs, o) else
  o ← set_ipv4s (ipv4_addresses config) o;
  '(read_fd, write_fd, o) ← Devices.Linux.run_fds tun o;
  mret (Goes (Some (read_fd, write_fd)), o).

(** [if let Some(true) = config["macos_tuntap"].as_bool() { .. }]: the descriptors
    and the name that [route_creator] gets. A command that cannot be run is only
    logged, and the IPv4 addresses are not set. *)
Definition start_mac_tun (config : Config) (node_ip : IpAddr) (o : Os) : outcome (option (nat * nat * string) * Os) :=
  if decide (macos_tuntap config ≠ Some true) then mret (None, o) else
  '(tun, name, o) ← Devices.Mac.open o;
  let '(_, o) := run_command (sh (Devices.Mac.set_ip6_cmd name node_ip 128)) o in
  '(read_fd, write_fd, o) ← Devices.Mac.run_fds tun o;
  mret (Some (read_fd, write_fd, name), o).

(** The interface comes up on any configuration once a name could be opened and its
    descriptor copied, and what is configured besides makes no difference. *)
Lemma start_mac_tun_up config node_ip o fd name o1 read_fd o2 write_fd o3 :
  macos_tuntap config = Some true → Devices.Mac.open o = Ret (fd, name, o1) →
  dup fd (run_command (sh (Devices.Mac.set_ip6_cmd name node_ip 128)) o1).2 = (Ok read_fd, o2) → dup fd o2 = (Ok write_fd, o3) →
  start_mac_tun config node_ip o
    = Ret (Some (read_fd, write_fd, name), Devices.Mac.make_nonblocking write_fd (Devices.Mac.make_nonblocking read_fd o3)).
Proof.
  intros Hc Ho Hr Hw. unfold start_mac_tun. rewrite decide_False by (intros Hne; by apply Hne). rewrite Ho. cbn [mbind outcome_bind].
  destruct (run_command _ o1) as [b o1']. cbn [snd] in Hr. unfold Devices.Mac.run_fds. rewrite Hr. cbn [unwrap_result mbind outcome_bind].
  by rewrite Hw.
Qed.
End tun.

(** ** The command line *)

Definition help_text (executable : string) : list string :=
  ["smolmesh2 - peer-to-peer mesh VPN";
   "";
   executable +:+ " help";
   executable +:+ " --help";
   "    This help message";
   "";
   executable +:+ " meshnode [config-file]";
   "    Runs the mesh node with the specified configuration file";
   "";
   executable +:+ " name-to-ipv6 [node-name]";
   "    Converts a node name to its corresponding IPv6 address";
   "";
   executable +:+ " make-random-ipv4";
   "    Generates a random IPv4 address";
   "";
   executable +:+ " make-random-ipv6";
   "    Generates a random IPv6 address"]%string.

(** What a run of [async_main] comes to: lines printed, or the node with the rest of
    the arguments. *)
Inductive Run := Prints (lines : list string) | Meshnode (args : list string).

Definition async_main (fuel : nat) (sources : Sources) (args : list string) (RNG : Rng) : option (outcome (Run * Rng)) :=
  let RNG := init_rng RNG sources in
  match args with
  | [] => Some (Panic "Executable name should always be there")
  | executable :: args =>
      match (if decide (args = []) then ["help"%string] else args) with
      | [] => Some (Panic "called `Option::unwrap()` on a `None` value")
      | cmd :: args =>
          if (cmd =? "help")%string || (cmd =? "--help")%string then Some (Ret (Prints (help_text executable), RNG))
          else if (cmd =? "meshnode")%string then Some (Ret (Meshnode args, RNG))
          else if (cmd =? "name-to-ipv6")%string then
            line ← run_name_to_ipv6 fuel (str_bytes <$> args);
            Some (line ← line; Ret (Prints [line], RNG))
          else if (cmd =? "make-random-ipv4")%string then
            let '(addr, RNG) := make_random_ipv4 RNG in Some (Ret (Prints [fmt addr], RNG))
          else if (cmd =? "make-random-ipv6")%string then
            let '(addr, RNG) := make_random_ipv6 RNG in Some (Ret (Prints [fmt addr], RNG))
          else Some (Ret (Prints ["Unknown command '" +:+ cmd +:+ "'"]%string, RNG))
      end
  end.

(** ** What a configuration starts *)

(** The octets of a configured address: decimal numbers of a byte each, joined by
    dots. The node keeps the first four and announces them all. *)
Definition own_of (addr : option bytes) : option (IpAddr * bytes) :=
  s ← addr;
  octets ← mapM parse_u8 (split_on 46 s);
  match octets with a :: b :: c :: d :: _ => Some (V4 a b c d, octets) | _ => None end.

Definition connect_of (t : Transport) : option LinkTask :=
  if decide (ty t = Some (str_bytes "legacy_tcp_connect")) then
    h ← host t; p ← port t; k ← key t; Some (CreateConnection h (wrap 16 p) k)
  else None.
Definition listen_of (t : Transport) : option LinkTask :=
  if decide (ty t = Some (str_bytes "legacy_tcp_listen")) then
    p ← port t; ks ← mapM id (keys t); Some (Listener (wrap 16 p) ks)
  else None.

(** A transport that has what its type needs; other types need nothing. *)
Definition transport_ok (t : Transport) : Prop :=
  is_Some (ty t)
  ∧ (ty t = Some (str_bytes "legacy_tcp_connect") → is_Some (connect_of t))
  ∧ (ty t = Some (str_bytes "legacy_tcp_listen") → is_Some (listen_of t)).
#[export] Instance transport_ok_dec t : Decision (transport_ok t).
Proof. unfold transport_ok. apply _. Defined.

Definition config_ok (config : Config) : Prop :=
  is_Some (node_name config) ∧ Forall (λ a, is_Some (own_of a)) (ipv4_addresses config) ∧ Forall transport_ok (transports config).
#[export] Instance config_ok_dec config : Decision (config_ok config).
Proof. unfold config_ok. apply _. Defined.

(** *** Lemmas: each loop gives its list, or panics at the first bad entry. *)

Definition panics {A} (m : outcome A) : Prop := ∃ why, m = Panic why.

Lemma parse_octets_spec pieces :
  match mapM parse_u8 pieces with Some bs => parse_octets pieces = Ret bs | None => panics (parse_octets pieces) end.
Proof.
  induction pieces as [|p pieces IH]; [done|]. cbn [mapM parse_octets]. unfold panics in *.
  destruct (parse_u8 p) as [b|]; cbn [mbind option_bind]; [|by eexists].
  destruct (mapM parse_u8 pieces) as [bs|]; cbn; [by rewrite IH|]. destruct IH as [why ->]. by eexists.
Qed.

Lemma own_ipv4_spec addr :
  match own_of addr with
  | Some own => (addr ← unwrap addr; own_ipv4s [addr]) = Ret [own]
  | None => panics (addr ← unwrap addr; own_ipv4s [addr])
  end.
Proof.
  unfold own_of, panics. destruct addr as [s|]; cbn [mbind option_bind outcome_bind unwrap mret outcome_ret]; [|by eexists].
  cbn [own_ipv4s]. unfold parse_ipv4. pose proof (parse_octets_spec (split_on 46 s)) as H.
  destruct (mapM parse_u8 _) as [bs|]; cbn [mbind option_bind]; [|destruct H as [why ->]; eexists; reflexivity].
  rewrite H. destruct bs as [|a [|b [|c [|d bs]]]]; [eexists; reflexivity..|reflexivity].
Qed.

Lemma config_ipv4s_spec addrs :
  if decide (Forall (λ a, is_Some (own_of a)) addrs)
  then config_ipv4s addrs = Ret (omap own_of addrs) else panics (config_ipv4s addrs).
Proof.
  induction addrs as [|addr addrs IH]; [by rewrite decide_True|]. cbn [config_ipv4s omap list_omap].
  pose proof (own_ipv4_spec addr) as H. unfold panics in *.
  destruct (own_of addr) as [own|] eqn:Ho.
  - destruct addr as [s|]; [|done]. cbn [unwrap mbind outcome_bind mret outcome_ret] in *. rewrite H. cbn [mbind outcome_bind].
    destruct (decide (Forall _ addrs)) as [Hf|Hf].
    + rewrite decide_True by (by constructor; [rewrite Ho; eexists|]). by rewrite IH.
    + rewrite decide_False by (by intros [_ ?]%list.Forall_cons). destruct IH as [why ->]. by eexists.
  - rewrite decide_False by (intros [Hs _]%list.Forall_cons; rewrite Ho in Hs; by destruct Hs).
    destruct addr as [s|]; cbn [unwrap mbind outcome_bind mret outcome_ret] in *; [|by eexists].
    destruct H as [why ->]. by eexists.
Qed.

Lemma unwrap_all_spec os :
  match mapM id os with Some l => unwrap_all os = Ret l | None => panics (unwrap_all os) end.
Proof.
  unfold panics. induction os as [|[a|] os IH]; [done| |by eexists].
  change (mapM id (Some a :: os)) with (l ← mapM id os; Some (a :: l)). cbn [unwrap_all unwrap mbind outcome_bind mret outcome_ret].
  destruct (mapM id os) as [l|]; [by rewrite IH|]. destruct IH as [why ->]. by eexists.
Qed.

(** One of the two loops over the transports: what it starts, or a panic at the
    first entry that has no type, or has its type and not what that needs. *)
Lemma connect_transports_spec ts :
  Forall transport_ok ts → connect_transports ts = Ret (omap connect_of ts).
Proof.
  induction 1 as [|t ts (Hty & Hc & _) _ IH]; [done|]. cbn [connect_transports omap list_omap].
  destruct (ty t) as [b|] eqn:Ht; [|by destruct Hty]. cbn [unwrap mbind outcome_bind mret outcome_ret].
  destruct (decide (b = str_bytes "legacy_tcp_connect")) as [->|Hne].
  - rewrite decide_False by tauto. destruct (Hc eq_refl) as [l Hl]. rewrite Hl. unfold connect_of in Hl.
    rewrite Ht, decide_True in Hl by done. destruct (host t) as [h|], (port t) as [p|], (key t) as [k|]; try done.
    injection Hl as <-. cbn [unwrap mbind outcome_bind mret outcome_ret]. by rewrite IH.
  - rewrite decide_True by done. unfold connect_of. rewrite Ht, decide_False by congruence. exact IH.
Qed.

Lemma listen_transports_spec ts :
  Forall transport_ok ts → listen_transports ts = Ret (omap listen_of ts).
Proof.
  induction 1 as [|t ts (Hty & _ & Hc) _ IH]; [done|]. cbn [listen_transports omap list_omap].
  destruct (ty t) as [b|] eqn:Ht; [|by destruct Hty]. cbn [unwrap mbind outcome_bind mret outcome_ret].
  destruct (decide (b = str_bytes "legacy_tcp_listen")) as [->|Hne].
  - rewrite decide_False by tauto. destruct (Hc eq_refl) as [l Hl]. rewrite Hl. unfold listen_of in Hl.
    rewrite Ht, decide_True in Hl by done. pose proof (unwrap_all_spec (keys t)) as Hk.
    destruct (port t) as [p|], (mapM id (keys t)) as [ks|]; try done.
    injection Hl as <-. cbn [unwrap mbind outcome_bind mret outcome_ret]. rewrite Hk. cbn [mbind outcome_bind]. by rewrite IH.
  - rewrite decide_True by done. unfold listen_of. rewrite Ht, decide_False by congruence. exact IH.
Qed.

(** A bad entry stops the loop for its type. *)
Lemma bad_transport ts :
  ¬ Forall transport_ok ts → panics (start_transports ts).
Proof.
  intros Hbad.
  assert (H : panics (connect_transports ts) ∨ panics (listen_transports ts)).
  { induction ts as [|t ts IH]; [by destruct Hbad|]. cbn [connect_transports listen_transports]. unfold panics in *.
    destruct (ty t) as [b|] eqn:Ht; cbn [unwrap mbind outcome_bind mret outcome_ret]; [|left; by eexists].
    assert (Hrest : transport_ok t → (∃ why, connect_transports ts = Panic why) ∨ (∃ why, listen_transports ts = Panic why)).
    { intros Hok. apply IH. intros Hf. apply Hbad. by constructor. }
    destruct (decide (b = str_bytes "legacy_tcp_connect")) as [->|Hc].
    { rewrite decide_False by tauto. rewrite (decide_True (P := str_bytes "legacy_tcp_connect" ≠ _)) by done.
      destruct (host t) as [h|] eqn:Hh; cbn [unwrap mbind outcome_bind mret outcome_ret]; [|left; by eexists].
      destruct (port t) as [p|] eqn:Hp; cbn [unwrap mbind outcome_bind mret outcome_ret]; [|left; by eexists].
      destruct (key t) as [k|] eqn:Hk; cbn [unwrap mbind outcome_bind mret outcome_ret]; [|left; by eexists].
      destruct Hrest as [[why ->]|[why ->]]; [|left; by eexists|right; by eexists].
      unfold transport_ok, connect_of. rewrite Ht, Hh, Hp, Hk. split_and!; [by eexists|intros _|done].
      rewrite decide_True by done. by eexists. }
    rewrite (decide_True (P := b ≠ str_bytes "legacy_tcp_connect")) by done.
    destruct (decide (b = str_bytes "legacy_tcp_listen")) as [->|Hl].
    { rewrite decide_False by tauto. pose proof (unwrap_all_spec (keys t)) as Hks. unfold panics in Hks.
      destruct (port t) as [p|] eqn:Hp; cbn [unwrap mbind outcome_bind mret outcome_ret]; [|right; by eexists].
      destruct (mapM id (keys t)) as [ks|] eqn:Hk; [rewrite Hks|destruct Hks as [why ->]; right; by eexists].
      cbn [mbind outcome_bind].
      destruct Hrest as [[why ->]|[why ->]]; [|left; by eexists|right; by eexists].
      unfold transport_ok, listen_of. rewrite Ht, Hp, Hk. split_and!; [by eexists|done|intros _].
      rewrite decide_True by done. by eexists. }
    rewrite (decide_True (P := b ≠ str_bytes "legacy_tcp_listen")) by done. apply Hrest.
    unfold transport_ok. rewrite Ht. split_and!; [by eexists|congruence|congruence]. }
  unfold start_transports, panics in *. destruct (connect_transports ts) as [cs|why]; [|by eexists].
  destruct H as [[why ?]|[why ->]]; [done|by eexists].
Qed.

(** C29. Which configurations start a node. With a name whose address is found, a
    configuration is accepted exactly when every IPv4 address is decimal bytes
    joined by dots, at least four of them, and every transport has a type and
    what its type needs (transports of other types are skipped); then the node
    has the addresses listed, and opens one link per connecting entry and then
    one listener per listening entry, with ports modulo 2^16. Any other
    configuration ends the program before the node handles a packet. An address
    of more than four numbers is accepted, but what the node announces for it is
    noise to every node. *)
Theorem start_node_correct fuel config node_name_ ip :
  node_name config = Some node_name_ → from_node_name fuel node_name_ = Some ip →
  (config_ok config →
     start_node fuel config = Some (Ret (MkStarted node_name_ ip (omap own_of (ipv4_addresses config))
       (omap connect_of (transports config) ++ omap listen_of (transports config)))))
  ∧ (¬ config_ok config → ∃ why, start_node fuel config = Some (Panic why))
  ∧ (∀ addr v octets, own_of addr = Some (v, octets) → length octets ≠ 4%nat → decode fuel 2 octets = Some Noise).
Proof.
  intros Hname Hip. unfold start_node. rewrite Hname, Hip. cbn [mbind option_bind].
  pose proof (config_ipv4s_spec (ipv4_addresses config)) as Hips. split_and!.
  - intros (_ & Ha & Ht). rewrite decide_True in Hips by done. rewrite Hips. cbn [mbind outcome_bind].
    unfold start_transports. rewrite connect_transports_spec, listen_transports_spec by done. reflexivity.
  - intros Hbad. destruct (decide (Forall _ (ipv4_addresses config))) as [Ha|Ha].
    + rewrite Hips. cbn [mbind outcome_bind]. destruct (bad_transport (transports config)) as [why ->]; [|by eexists].
      intros Ht. apply Hbad. unfold config_ok. rewrite Hname. split_and!; [by eexists|done|done].
    + destruct Hips as [why ->]. by eexists.
  - intros addr v octets _ Hlen. unfold decode. cbn [Z.eqb Pos.eqb]. by rewrite decide_False.
Qed.

(** ** Witnesses *)

(** Node [P] with two addresses, one of them with a number too many, which connects
    to one node and listens on port 65536 + 80. *)
Definition example_config : Config :=
  MkConfig (Some (str_bytes "P")) [Some (str_bytes "10.0.0.1"); Some (str_bytes "10.0.0.2.9")]
    [MkTransport (Some (str_bytes "legacy_tcp_listen")) None (Some 65616) None [Some [1]];
     MkTransport (Some (str_bytes "other")) None None None [];
     MkTransport (Some (str_bytes "legacy_tcp_connect")) (Some (str_bytes "10.0.0.9")) (Some 81) (Some [7]) []] None None.

Lemma start_node_correct_witness :
  ∃ ip, from_node_name 1000 (str_bytes "P") = Some ip
    ∧ start_node 1000 example_config = Some (Ret (MkStarted (str_bytes "P") ip
        [(V4 10 0 0 1, [10; 0; 0; 1]); (V4 10 0 0 2, [10; 0; 0; 2; 9])]
        [CreateConnection (str_bytes "10.0.0.9") 81 [7]; Listener 80 [[1]]]))
    ∧ decode 1000 2 [10; 0; 0; 2; 9] = Some Noise.
Proof.
  assert (E : ∃ ip, from_node_name 1000 (str_bytes "P") = Some ip) by (eexists; vm_compute; reflexivity).
  destruct E as (ip & E). exists ip. split; [exact E|].
  destruct (start_node_correct 1000 example_config (str_bytes "P") ip eq_refl E) as (H1 & _ & H3).
  split.
  - rewrite H1; [reflexivity|]. apply (bool_decide_unpack _). vm_compute. reflexivity.
  - apply (H3 (Some (str_bytes "10.0.0.2.9")) (V4 10 0 0 2)); [reflexivity|discriminate].
Defined.
