(* ===== verification/Mesh.v ===== *)
(** A mesh of nodes as a transition system.

    A node is what [run_meshnode] keeps ([MeshNode]), what its switchboard keeps
    ([AllSenders]) and its channels ([World]); its steps are the iterations of
    its tasks, in any order. Links join the channels of nodes: what one end
    sends, the other end's receiving task puts in its node's queue with the
    link's own sender, unchanged and in order ([Framing.link_delivers]). *)
From stdpp Require Import functions.
From S2P Require Import Prelude Utf8 Gimli Rng IpAddr SeenPackets Channel AllSenders World Framing MeshNode Tun.

(** ** One node *)

Record Peer := MkPeer {
  node_name : bytes;
  ipv4_octets : list bytes;      (* what the tasks announcing IPv4 addresses carry *)
  node : Node byte_tx route_tx;
  task : TaskState byte_tx;
  chans : world;
}.

(** [all_senders::get()]; the node's own queue is [Incoming 0]. *)
Definition switchboard : AllSenders switch_tx := MkAllSenders (Switch 0).

Definition with_chans (w : world) (x : Peer) : Peer := MkPeer (node_name x) (ipv4_octets x) (node x) (task x) w.

(** The queues of a node. *)
Definition inq (x : Peer) : list (bytes * byte_tx) := queued (chans x) (Incoming 0).
Definition swq (x : Peer) : list (AllSendersMessage byte_tx) := queued (chans x) (Switch 0).
Definition lq (x : Peer) (n : nat) : list bytes := queued (chans x) (Tx n).
Definition rt (x : Peer) : gmap IpAddr (Z * byte_tx) := fastest_to_address (task x).

Section peer.
Context (fx_hash : bytes → Z).

(** One iteration of the receiving loop, on the next packet of the queue. *)
Definition receive_step (fuel : nat) (current : Z) (x : Peer) : option (outcome Peer) :=
  '(packet, w) ← next_incoming 0 (chans x);
  r ← handle_packet fx_hash switchboard fuel current (node x) packet.1 packet.2 w;
  Some ('(st, w) ← r; Ret (MkPeer (node_name x) (ipv4_octets x) st (task x) w)).

(** One iteration of [all_senders_task]. *)
Definition switch_step (x : Peer) : option Peer :=
  '(msg, w) ← next_switch 0 (chans x);
  let '(t, w) := handle (task x) w msg in
  Some (MkPeer (node_name x) (ipv4_octets x) (node x) t w).

(** The value at the head of the channel [Tx n] is taken, by the sending task of
    a link or by the task that writes to the TUN interface. *)
Definition take_link (n : nat) (x : Peer) : option (bytes * Peer) :=
  '(data, w) ← next_link n (chans x); Some (data, with_chans w x).
Definition take_route (x : Peer) : option (IpAddr * Peer) :=
  '(addr, w) ← next_route 0 (chans x); Some (addr, with_chans w x).

(** [incoming.unbounded_send((to_send, sender_tx.clone()))]. *)
Definition arrive (data : bytes) (link : byte_tx) (x : Peer) : Peer :=
  with_chans (unbounded_send (Incoming 0) (data, link) (chans x)).2 x.

(** A link is set up ([all_senders.add(sender)], with a new channel), or has ended. *)
Definition add_link (x : Peer) : Peer :=
  let '(link, w) := unbounded (chans x) in with_chans (add switchboard link w) x.
Definition end_link (n : nat) (x : Peer) : Peer := with_chans (close_link n (chans x)) x.

(** What an accepted packet says: the address it announces, and when. *)
Definition says (fuel : nat) (packet : bytes) : option (IpAddr * Z) :=
  match decode fuel (packet !!! 8%nat) (drop 9 packet) with
  | Some (Announce addr) => Some (addr, from_le_bytes (take 8 packet))
  | _ => None
  end.

(** A packet that a node has emitted or accepted, and what it says; a record for
    the statements, the code keeps none. *)
Definition note : Type := bytes * option (IpAddr * Z).

#[export] Instance accepts_dec current (st : Node byte_tx route_tx) data : Decision (accepts fx_hash current st data).
Proof. unfold accepts. apply _. Defined.

(** The steps of one node, each an iteration of one of its tasks. *)
Inductive peer_step (x : Peer) : option note → Peer → Prop :=
| step_receive fuel current packet w x' :
    next_incoming 0 (chans x) = Some (packet, w) → receive_step fuel current x = Some (Ret x') →
    peer_step x (if decide (accepts fx_hash current (node x) packet.1) then Some (packet.1, says fuel packet.1) else None) x'
| step_switch x' : switch_step x = Some x' → peer_step x None x'
| step_announce_name fuel ms addr :
    uint 64 ms → from_node_name fuel (node_name x) = Some addr →
    peer_step x (Some (name_announcement ms (node_name x), Some (addr, ms)))
      (with_chans (announce_name_step switchboard ms (node_name x) (chans x)) x)
| step_announce_ipv4 ms octets addr :
    uint 64 ms → octets ∈ ipv4_octets x → ipv4_of_octets octets = Ret addr →
    peer_step x (Some (ipv4_announcement ms octets, if decide (length octets = 4%nat) then Some (addr, ms) else None))
      (with_chans (announce_ipv4_step switchboard ms octets (chans x)) x)
| step_clean : peer_step x None (with_chans (cleaner_step switchboard (chans x)) x)
| step_tun millis packet w :
    uint 64 millis → is_bytes packet → forward switchboard millis packet (chans x) = Ret w → peer_step x None (with_chans w x)
| step_take_link n data x' : take_link n x = Some (data, x') → peer_step x None x'
| step_take_route addr x' : take_route x = Some (addr, x') → peer_step x None x'
| step_add_link : peer_step x None (add_link x)
| step_end_link n : tun_sender (node x) ≠ Some (Tx n) → peer_step x None (end_link n x).

(** ** Channels, field by field *)

Lemma next_incoming_spec n w a w' :
  next_incoming n w = Some (a, w') →
  queued w (Incoming n) = a :: queued w' (Incoming n)
  ∧ links w' = links w ∧ switches w' = switches w ∧ routes w' = routes w.
Proof.
  unfold next_incoming. destruct (next_value n (incomings w)) as [[b s]|] eqn:E; [|done]. intros [= -> <-].
  split; [by apply next_value_spec in E as [E _]|done].
Qed.

Lemma next_switch_spec n w a w' :
  next_switch n w = Some (a, w') →
  queued w (Switch n) = a :: queued w' (Switch n) ∧ is_open w' (Switch n) = is_open w (Switch n)
  ∧ links w' = links w ∧ incomings w' = incomings w ∧ routes w' = routes w.
Proof.
  unfold next_switch. destruct (next_value n (switches w)) as [[b s]|] eqn:E; [|done]. intros [= -> <-].
  apply next_value_spec in E as (E & _ & Ho). split_and!; [exact E|apply Ho|done..].
Qed.

Lemma next_link_spec n w a w' :
  next_link n w = Some (a, w') →
  queued w (Tx n) = a :: queued w' (Tx n)
  ∧ (∀ m, m ≠ n → queued w' (Tx m) = queued w (Tx m)) ∧ (∀ m, is_open w' (Tx m) = is_open w (Tx m))
  ∧ incomings w' = incomings w ∧ switches w' = switches w ∧ routes w' = routes w.
Proof.
  unfold next_link. destruct (next_value n (links w)) as [[b s]|] eqn:E; [|done]. intros [= -> <-].
  apply next_value_spec in E as (E & Hm & Ho). split_and!; [exact E|exact Hm|exact Ho|done..].
Qed.

Lemma next_route_spec n w a w' :
  next_route n w = Some (a, w') →
  (∀ c : route_tx, is_open w' c = is_open w c)
  ∧ links w' = links w ∧ incomings w' = incomings w ∧ switches w' = switches w.
Proof.
  unfold next_route. destruct (next_value n (routes w)) as [[b s]|] eqn:E; [|done]. intros [= -> <-].
  apply next_value_spec in E as (_ & _ & Ho). split_and!; [intros [m]; apply Ho|done..].
Qed.

(** What the code does with a packet never touches the node's own queue. *)
Definition same_incomings (w w' : world) : Prop := incomings w' = incomings w.

Lemma send_unwrap_incomings {D A} `{Mpsc world D A} (d : D) (a : A) w w' :
  (∀ w, same_incomings w (unbounded_send d a w).2) → send_unwrap d a w = Ret w' → same_incomings w w'.
Proof.
  intros Hs. unfold send_unwrap. specialize (Hs w). destruct (unbounded_send d a w) as [[] w1]; [|done].
  by intros [= <-].
Qed.

Lemma switch_incomings m w : same_incomings w (unbounded_send (Switch 0) m w).2.
Proof. apply send_switch_frame. Qed.

Lemma add_route_incomings (st : Node byte_tx route_tx) addr w w' : add_route st addr w = Ret w' → same_incomings w w'.
Proof.
  unfold add_route. destruct (route_adder st); [|by intros [= <-]]. apply send_unwrap_incomings.
  intros w0. apply send_route_frame.
Qed.

Lemma deliver_incomings (st : Node byte_tx route_tx) dst data orig w w' :
  deliver switchboard st dst data orig w = Ret w' → same_incomings w w'.
Proof.
  unfold deliver. destruct (bool_decide _).
  - destruct (tun_sender st); [|by intros [= <-]]. apply send_unwrap_incomings. intros w0. apply send_link_frame.
  - intros [= <-]. apply switch_incomings.
Qed.

Lemma handle_claim_incomings (st : Node byte_tx route_tx) ms addr orig link w w' :
  handle_claim switchboard st ms addr orig link w = Ret w' → same_incomings w w'.
Proof.
  unfold handle_claim. cbv zeta. intros H%add_route_incomings. unfold same_incomings in *. rewrite H.
  unfold send_all, add_fastest_to. cbn [sender switchboard]. by rewrite !switch_incomings.
Qed.

Lemma handle_ip_incomings (st : Node byte_tx route_tx) data orig w w' :
  handle_ip switchboard st data orig w = Ret w' → same_incomings w w'.
Proof.
  unfold handle_ip. intros (b0 & _ & H)%bind_Ret_inv. cbv zeta in H.
  destruct (_ =? 4); [|destruct (_ =? 6); [|by injection H as <-]];
    apply bind_Ret_inv in H as (buf & _ & H); apply bind_Ret_inv in H as (a & _ & H); by eapply deliver_incomings.
Qed.

Lemma handle_command_incomings fuel (st : Node byte_tx route_tx) ms cmd data orig link w w' :
  handle_command switchboard fuel st ms cmd data orig link w = Some (Ret w') → same_incomings w w'.
Proof.
  unfold handle_command. destruct (cmd =? 0).
  { unfold handle_name. destruct (from_utf8 data).
    - destruct (from_node_name fuel data) as [addr|]; [|done]. cbn [mbind option_bind]. cbv zeta.
      intros [= (w1 & H & [= <-])%bind_Ret_inv]. apply add_route_incomings in H. unfold same_incomings in *.
      unfold send_all, add_fastest_to in *. cbn [sender switchboard] in *. by rewrite switch_incomings, H, switch_incomings.
    - intros [= <-]. apply switch_incomings. }
  destruct (cmd =? 1); [|destruct (cmd =? 2); [|destruct (cmd =? 3)]].
  - case_decide; [by intros [= <-]|]. intros [= (a & _ & Hc)%bind_Ret_inv]. by eapply handle_claim_incomings.
  - case_decide; [by intros [= <-]|]. intros [= (a & _ & Hc)%bind_Ret_inv]. by eapply handle_claim_incomings.
  - intros [= H]. by eapply handle_ip_incomings.
  - by intros [= <-].
Qed.

Lemma handle_packet_incomings fuel current (st : Node byte_tx route_tx) data link w st' w' :
  handle_packet fx_hash switchboard fuel current st data link w = Some (Ret (st', w')) → same_incomings w w'.
Proof.
  unfold handle_packet. case_decide; [by intros [= <- <-]|]. case_decide; [by intros [= <- <-]|].
  destruct (SeenPackets.add _ _ _) as [[[] seen]|]; [by intros [= <- <-]| |done].
  destruct (handle_command _ _ _ _ _ _ _ _ _) as [[w1|]|] eqn:E; [|done|done]. intros [= <- <-].
  by eapply handle_command_incomings.
Qed.

(** The switchboard only sends on links. *)
Definition links_only (w w' : world) : Prop :=
  incomings w' = incomings w ∧ switches w' = switches w ∧ routes w' = routes w.

Lemma handle_links_only (t : TaskState byte_tx) w msg : links_only w (handle t w msg).2.
Proof.
  assert (Hsend : ∀ (c : byte_tx) (a : bytes) w0, links_only w w0 → links_only w (unbounded_send c a w0).2).
  { intros c a w0 (A & B & D). unfold links_only. destruct (send_link_frame c a w0) as (-> & -> & ->). done. }
  assert (Hrefl : links_only w w) by done.
  destruct msg as [s|m a s|a d|d|]; cbn [handle]; [done| | | |].
  - by destruct (fastest_to_address t !! a) as [[m0 s0]|]; [destruct (m <=? m0)|].
  - destruct (fastest_to_address t !! a) as [[m0 s]|]; [by apply Hsend|done].
  - cbn [snd]. unfold send_each. generalize (senders t). intros ss.
    cut (∀ w0, links_only w w0 → links_only w (foldl (λ w s, (unbounded_send s d w).2) w0 ss)); [auto|].
    induction ss as [|s ss IH]; intros w0 H0; [done|]. cbn [foldl]. by apply IH, Hsend.
  - generalize (senders t) 0%nat. intros ss n.
    cut (∀ w0, links_only w w0 → links_only w (retain_open ss n w0).2).
    { intros H. specialize (H w Hrefl). by destruct (retain_open ss n w) as [[? ?] ?]. }
    revert n. induction ss as [|s ss IH]; intros n w0 H; [done|]. cbn [retain_open].
    pose proof (Hsend s [] w0 H) as H1. destruct (unbounded_send s [] w0) as [ok w1]. cbn [snd] in H1. destruct ok.
    + specialize (IH n w1 H1). by destruct (retain_open ss n w1) as [[? ?] ?].
    + by apply IH.
Qed.

(** ** What a step does to the queues *)

(** A well-formed node: its own addresses include those it announces, its other
    tasks run, and its queue holds bytes. *)
Record peer_ok (x : Peer) : Prop := MkPeerOk {
  ok_utf8 : from_utf8 (node_name x) = true;
  ok_name : ∀ fuel addr, from_node_name fuel (node_name x) = Some addr → addr ∈ our_ips (node x);
  ok_ipv4 : ∀ octets addr, octets ∈ ipv4_octets x → ipv4_of_octets octets = Ret addr → addr ∈ our_ips (node x);
  ok_seen : SeenPackets.wf (seen_packets (node x));
  ok_open : channels_open switchboard (node x) (chans x);
  ok_inq : Forall (λ e, is_bytes e.1) (inq x);
}.

(** A packet that announces [addr] as of [ms]. *)
Definition announces (packet : bytes) (addr : IpAddr) (ms : Z) : Prop :=
  (9 <= length packet)%nat ∧ ∃ fuel, says fuel packet = Some (addr, ms).

Definition carries (msg : AllSendersMessage byte_tx) (packet : bytes) : Prop :=
  match msg with SendToAll data | SendToFastest _ data => data = packet | _ => False end.

(** Messages that neither announce anything nor change a route. *)
Definition harmless (msg : AllSendersMessage byte_tx) : Prop :=
  match msg with
  | AddFastestTo _ _ _ => False
  | SendToAll data | SendToFastest _ data => ∀ addr ms, ¬ announces data addr ms
  | _ => True
  end.

(** The links of a node: all channels but the one of its TUN interface. *)
Definition is_link (x : Peer) (n : nat) : Prop := tun_sender (node x) ≠ Some (Tx n).

Inductive effect (x x' : Peer) : option note → Prop :=
| eff_drop data link :
    inq x = (data, link) :: inq x' → swq x' = swq x → task x' = task x → (∀ n, lq x' n = lq x n) → effect x x' None
| eff_accept fuel data link body :
    inq x = (data, link) :: inq x' → (9 <= length data)%nat → decode fuel (data !!! 8%nat) (drop 9 data) = Some body →
    swq x' = swq x ++ to_switch (effects (node x) (from_le_bytes (take 8 data)) body data link) →
    task x' = task x → (∀ n, is_link x n → lq x' n = lq x n) → effect x x' (Some (data, says fuel data))
| eff_serve msg w w' :
    swq x = msg :: swq x' → handle (task x) w msg = (task x', w') → inq x' = inq x →
    (∀ n, lq x n = queued w (Tx n) ∧ lq x' n = queued w' (Tx n) ∧ is_open w (Tx n) = is_open (chans x) (Tx n)) →
    effect x x' None
| eff_emit data said :
    inq x' = inq x → swq x' = swq x ++ [SendToAll data] → task x' = task x → (∀ n, lq x' n = lq x n) →
    (∀ addr ms, announces data addr ms → said = Some (addr, ms) ∧ addr ∈ our_ips (node x)) →
    (∀ addr ms, said = Some (addr, ms) → announces data addr ms) → effect x x' (Some (data, said))
| eff_send msgs :
    inq x' = inq x → swq x' = swq x ++ msgs → Forall harmless msgs → task x' = task x → (∀ n, lq x' n = lq x n) →
    effect x x' None
| eff_shrink :
    inq x' = inq x → swq x' = swq x → task x' = task x → (∀ n, lq x' n = lq x n ∨ tail (lq x n) = lq x' n ∨ lq x' n = []) →
    effect x x' None.

(** The configuration of a node never changes. *)
Definition same_config (x x' : Peer) : Prop :=
  node_name x' = node_name x ∧ ipv4_octets x' = ipv4_octets x ∧ our_ips (node x') = our_ips (node x)
  ∧ tun_sender (node x') = tun_sender (node x).

Lemma announces_det p a t a' t' : announces p a t → announces p a' t' → a = a' ∧ t = t'.
Proof.
  unfold announces, says. intros [_ [f H]] [_ [f' H']].
  destruct (decode f _ _) as [b|] eqn:E; [|done]. destruct (decode f' _ _) as [b'|] eqn:E'; [|done].
  pose proof (decode_det _ _ _ _ _ _ E E') as <-. destruct b; try done. split; congruence.
Qed.

Lemma announces_decode fuel p body a t :
  decode fuel (p !!! 8%nat) (drop 9 p) = Some body → announces p a t →
  body = Announce a ∧ t = from_le_bytes (take 8 p) ∧ says fuel p = Some (a, t).
Proof.
  unfold announces, says. intros E [_ [f' H']]. destruct (decode f' _ _) as [b'|] eqn:E'; [|done].
  pose proof (decode_det _ _ _ _ _ _ E E') as <-. rewrite E. destruct body; try done. by injection H' as -> <-.
Qed.

Lemma traffic_not_announced ms body a t : ¬ announces (to_le_bytes 8 ms ++ 3 :: body) a t.
Proof.
  intros [_ [f H]]. unfold says in H. rewrite cmd_of in H. unfold decode in H. cbn [Z.eqb Pos.eqb] in H.
  unfold decode_ip in H. rewrite payload_of in H. destruct body as [|b0 body]; [done|]. cbv zeta in H.
  destruct (_ =? 4); [|destruct (_ =? 6); [|done]]; destruct (decide _); cbn in H; try done;
    by destruct (of_octets _).
Qed.

Lemma traffic_decode_not_announced fuel p dst ip a t :
  decode fuel (p !!! 8%nat) (drop 9 p) = Some (Traffic dst ip) → ¬ announces p a t.
Proof. intros H Ha. by destruct (announces_decode _ _ _ _ _ H Ha) as [? _]. Qed.

Lemma short_not_announced p a t : (length p < 9)%nat → ¬ announces p a t.
Proof. intros ? [? _]. lia. Qed.

(** Equal stores answer equally. *)
Lemma links_eq w w' (c : byte_tx) : links w' = links w → queued w' c = queued w c ∧ is_open w' c = is_open w c.
Proof. intros E. destruct c. cbn. by rewrite E. Qed.
Lemma switches_eq w w' (c : switch_tx) : switches w' = switches w → queued w' c = queued w c ∧ is_open w' c = is_open w c.
Proof. intros E. destruct c. cbn. by rewrite E. Qed.
Lemma routes_eq w w' (c : route_tx) : routes w' = routes w → queued w' c = queued w c ∧ is_open w' c = is_open w c.
Proof. intros E. destruct c. cbn. by rewrite E. Qed.
Lemma incomings_eq w w' (c : incoming_tx) : incomings w' = incomings w → queued w' c = queued w c ∧ is_open w' c = is_open w c.
Proof. intros E. destruct c. cbn. by rewrite E. Qed.

Lemma channels_open_mono (st : Node byte_tx route_tx) w w' :
  is_open w' (Switch 0) = is_open w (Switch 0) → (∀ c : route_tx, is_open w' c = is_open w c) →
  (∀ c, tun_sender st = Some c → is_open w' c = is_open w c) →
  channels_open switchboard st w → channels_open switchboard st w'.
Proof.
  intros Hs Hr Hc (H1 & H2 & H3). split_and!; [etransitivity; [exact Hs|exact H1]|intros; rewrite Hr; auto|intros; rewrite Hc; auto].
Qed.

(** A step that only changes the channels. *)
Lemma with_chans_ok x w :
  peer_ok x → channels_open switchboard (node x) w → Forall (λ e, is_bytes e.1) (queued w (Incoming 0)) →
  peer_ok (with_chans w x) ∧ same_config x (with_chans w x).
Proof. intros []. split; [by split|done]. Qed.

(** Sending a message to the switchboard. *)
Lemma send_switch_ok x msg :
  peer_ok x → let x' := with_chans (unbounded_send (Switch 0) msg (chans x)).2 x in
  peer_ok x' ∧ same_config x x' ∧ inq x' = inq x ∧ swq x' = swq x ++ [msg] ∧ task x' = task x ∧ (∀ n, lq x' n = lq x n).
Proof.
  intros Hok x'. destruct (send_switch_frame (Switch 0) msg (chans x)) as (Hl & Hi & Hr).
  pose proof (ok_open x Hok) as Hopen.
  assert (H : peer_ok x' ∧ same_config x x').
  { apply with_chans_ok; [done| |].
    - eapply channels_open_mono; [| | |exact Hopen]; intros; [apply send_is_open|by apply routes_eq|by apply links_eq].
    - rewrite (proj1 (incomings_eq _ _ (Incoming 0) Hi)). apply Hok. }
  destruct H as [H1 H2]. split_and!; [exact H1|exact H2| | |done|].
  - by apply incomings_eq.
  - unfold swq, x'. cbn [chans with_chans]. rewrite send_queued, decide_True by done.
    by rewrite (proj1 Hopen : is_open (chans x) (Switch 0) = true).
  - intros n. by apply links_eq.
Qed.

(** The receiving loop. *)
Lemma receive_effect x fuel current packet w x' :
  peer_ok x → next_incoming 0 (chans x) = Some (packet, w) → receive_step fuel current x = Some (Ret x') →
  peer_ok x' ∧ same_config x x' ∧
  effect x x' (if decide (accepts fx_hash current (node x) packet.1) then Some (packet.1, says fuel packet.1) else None).
Proof.
  intros Hok Hnext. unfold receive_step. rewrite Hnext. cbn [mbind option_bind]. destruct packet as [data link]. cbn [fst snd].
  destruct (handle_packet _ _ _ _ _ _ _ _) as [[[st w']|why]|] eqn:Hh; [|done|done]. cbn [mbind outcome_bind]. intros [= <-].
  apply next_incoming_spec in Hnext as (Hq & Hl & Hs & Hr).
  pose proof (ok_inq x Hok) as Hb. unfold inq in Hb. rewrite Hq in Hb. apply list.Forall_cons in Hb as [Hb Hrest]. cbn [fst] in Hb.
  assert (Hopen : channels_open switchboard (node x) w).
  { eapply channels_open_mono; [| | |exact (ok_open x Hok)]; intros; [by apply switches_eq|by apply routes_eq|by apply links_eq]. }
  pose proof (handle_packet_incomings _ _ _ _ _ _ _ _ Hh) as Hinc.
  assert (Hinq : queued w' (Incoming 0) = queued w (Incoming 0)) by (by apply incomings_eq).
  destruct (handle_packet_spec fx_hash switchboard fuel current (node x) data link w Hb (ok_seen x Hok) Hopen) as [Hno Hyes].
  cbn zeta in *. rewrite Hh in *. case_decide as Ha.
  - destruct (Hyes Ha) as (seen & _ & Hseen & Hd). clear Hno Hyes.
    destruct (decode fuel _ _) as [body|] eqn:Hdec; [|done].
    assert (H : ∃ w1, Some (Ret (st, w')) = Some (Ret (remember (node x) seen, w1)) ∧ channels_open switchboard (remember (node x) seen) w1
      ∧ performs switchboard (node x) (effects (node x) (from_le_bytes (take 8 data)) body data link) w w1).
    { destruct body; [exact Hd..|by destruct Hd|exact Hd]. }
    destruct H as (w1 & [= -> <-] & Hopen' & Hsw & _ & Hln & _). clear Hd.
    split_and!.
    + destruct Hok. split; cbn [MeshNode.our_ips node remember node_name ipv4_octets seen_packets chans]; try done.
      unfold inq. cbn [chans]. by rewrite Hinq.
    + done.
    + apply (eff_accept _ _ fuel data link body); [|by apply Ha|done| |done|].
      * unfold inq. cbn [chans]. by rewrite Hinq.
      * unfold swq. cbn [chans]. etransitivity; [exact Hsw|]. f_equal. by apply (switches_eq _ _ (Switch 0)).
      * intros n Hn. unfold lq. cbn [chans]. rewrite Hln, decide_False, app_nil_r by done. by apply links_eq.
  - injection (Hno Ha) as -> ->. split_and!.
    + destruct Hok. split; try done.
    + done.
    + apply (eff_drop _ _ data link); [done| |done|]; [by apply switches_eq|intros n; by apply links_eq].
Qed.

(** The switchboard. *)
Lemma switch_effect x x' :
  peer_ok x → switch_step x = Some x' → peer_ok x' ∧ same_config x x' ∧ effect x x' None.
Proof.
  intros Hok. unfold switch_step. destruct (next_switch 0 (chans x)) as [[msg w]|] eqn:Hnext; [|done].
  cbn [mbind option_bind]. destruct (handle (task x) w msg) as [t w'] eqn:Hh. intros [= <-].
  apply next_switch_spec in Hnext as (Hq & Hso & Hl & Hi & Hr).
  pose proof (handle_links_only (task x) w msg) as (Hi' & Hs' & Hr'). rewrite Hh in Hi', Hs', Hr'. cbn [snd] in *.
  pose proof (λ c, handle_open (task x) w msg c) as Hlo. rewrite Hh in Hlo. cbn [snd] in Hlo.
  assert (Hinq : incomings w' = incomings (chans x)) by congruence.
  split_and!; [|done|].
  - pose proof (ok_open x Hok) as Hopen. destruct Hok. split; cbn [node node_name ipv4_octets chans]; try done.
    + eapply channels_open_mono; [| | |exact Hopen].
      * etransitivity; [by apply (switches_eq w w')|exact Hso].
      * intros c. by apply routes_eq; rewrite Hr'.
      * intros c _. rewrite Hlo. by apply links_eq.
    + unfold inq. cbn [chans]. by rewrite (proj1 (incomings_eq _ _ (Incoming 0) Hinq)).
  - apply (eff_serve _ _ msg w w'); [|exact Hh|by apply incomings_eq|].
    + unfold swq. cbn [chans]. rewrite Hq. f_equal. symmetry. by apply (switches_eq w w' (Switch 0)).
    + intros n. split_and!; [symmetry; by apply links_eq|done|by apply links_eq].
Qed.

(** The announcing tasks. *)
Lemma emit_effect x data said :
  peer_ok x →
  (∀ addr ms, announces data addr ms → said = Some (addr, ms) ∧ addr ∈ our_ips (node x)) →
  (∀ addr ms, said = Some (addr, ms) → announces data addr ms) →
  let x' := with_chans (send_all switchboard data (chans x)) x in
  peer_ok x' ∧ same_config x x' ∧ effect x x' (Some (data, said)).
Proof.
  intros Hok Hs Hs' x'. destruct (send_switch_ok x (SendToAll data) Hok) as (H1 & H2 & H3 & H4 & H5 & H6).
  split_and!; [exact H1|exact H2|]. by apply eff_emit.
Qed.

Lemma name_announces fuel ms name addr :
  uint 64 ms → from_utf8 name = true → from_node_name fuel name = Some addr →
  ∀ a t, announces (name_announcement ms name) a t ↔ (a, t) = (addr, ms).
Proof.
  intros Hms Hutf Hname a t. unfold name_announcement. cbn [app].
  assert (Hd : decode fuel ((to_le_bytes 8 ms ++ 0 :: name) !!! 8%nat) (drop 9 (to_le_bytes 8 ms ++ 0 :: name)) = Some (Announce addr)).
  { rewrite cmd_of, payload_of. unfold decode. cbn [Z.eqb]. by rewrite Hutf, Hname. }
  split.
  - intros H. destruct (announces_decode _ _ _ _ _ Hd H) as ([= <-] & -> & _). by rewrite stamp_of.
  - intros [= -> ->]. split; [rewrite length_app, length_to_le_bytes; cbn [length]; lia|].
    exists fuel. unfold says. by rewrite Hd, stamp_of.
Qed.

Lemma ipv4_announces ms octets addr :
  uint 64 ms → ipv4_of_octets octets = Ret addr →
  ∀ a t, announces (ipv4_announcement ms octets) a t ↔ length octets = 4%nat ∧ (a, t) = (addr, ms).
Proof.
  intros Hms Haddr a t. unfold ipv4_announcement. cbn [app].
  assert (Hd : decode 0 ((to_le_bytes 8 ms ++ 2 :: octets) !!! 8%nat) (drop 9 (to_le_bytes 8 ms ++ 2 :: octets)) =
    Some (if decide (length octets = 4%nat) then Announce addr else Noise)).
  { rewrite cmd_of, payload_of. unfold decode. cbn [Z.eqb Pos.eqb]. case_decide as Hl; [|done].
    destruct octets as [|o1 [|o2 [|o3 [|o4 [|]]]]]; try done. cbn in Haddr. by injection Haddr as <-. }
  split.
  - intros H. destruct (announces_decode _ _ _ _ _ Hd H) as (E & -> & _). rewrite stamp_of by done.
    case_decide; [|done]. by injection E as <-.
  - intros [Hl [= -> ->]]. split; [rewrite length_app, length_to_le_bytes; cbn [length]; lia|].
    exists 0%nat. unfold says. rewrite Hd, decide_True by done. by rewrite stamp_of.
Qed.

(** The other tasks. *)
Lemma send_effect x msg :
  peer_ok x → harmless msg → let x' := with_chans (unbounded_send (Switch 0) msg (chans x)).2 x in
  peer_ok x' ∧ same_config x x' ∧ effect x x' None.
Proof.
  intros Hok Hm x'. destruct (send_switch_ok x msg Hok) as (H1 & H2 & H3 & H4 & H5 & H6).
  split_and!; [exact H1|exact H2|]. apply (eff_send _ _ [msg]); [done|done|by constructor|done|done].
Qed.

Lemma tun_effect x millis packet w :
  peer_ok x → forward switchboard millis packet (chans x) = Ret w →
  peer_ok (with_chans w x) ∧ same_config x (with_chans w x) ∧ effect x (with_chans w x) None.
Proof.
  intros Hok. unfold forward. intros (o & _ & H)%bind_Ret_inv. destruct o as [dst|]; injection H as <-.
  - apply (send_effect x (SendToFastest dst (netpacket millis packet)) Hok). cbn. intros a t.
    unfold netpacket. cbn [app]. apply traffic_not_announced.
  - assert (E : with_chans (chans x) x = x) by by destruct x. rewrite E. split_and!; [done|done|].
    apply (eff_send _ _ []); [done|by rewrite app_nil_r|done|done|done].
Qed.

Lemma take_link_effect x n data x' :
  peer_ok x → take_link n x = Some (data, x') → peer_ok x' ∧ same_config x x' ∧ inq x' = inq x ∧ swq x' = swq x ∧ task x' = task x
  ∧ lq x n = data :: lq x' n ∧ (∀ m, m ≠ n → lq x' m = lq x m).
Proof.
  intros Hok. unfold take_link. destruct (next_link n (chans x)) as [[d w]|] eqn:Hnext; [|done]. intros [= -> <-].
  apply next_link_spec in Hnext as (Hq & Hm & Ho & Hi & Hs & Hr).
  destruct (with_chans_ok x w Hok) as [H1 H2].
  - pose proof (ok_open x Hok) as Hopen.
    eapply channels_open_mono; [| | |exact Hopen]; intros; [by apply switches_eq|by apply routes_eq|].
    destruct c. apply Ho.
  - rewrite (proj1 (incomings_eq _ _ (Incoming 0) Hi)). apply Hok.
  - split_and!; [exact H1|exact H2|by apply incomings_eq|by apply switches_eq|done|exact Hq|exact Hm].
Qed.

Lemma take_route_effect x addr x' :
  peer_ok x → take_route x = Some (addr, x') → peer_ok x' ∧ same_config x x' ∧ effect x x' None.
Proof.
  intros Hok. unfold take_route. destruct (next_route 0 (chans x)) as [[d w]|] eqn:Hnext; [|done]. intros [= -> <-].
  apply next_route_spec in Hnext as (Ho & Hl & Hi & Hs). destruct (with_chans_ok x w Hok) as [H1 H2].
  - pose proof (ok_open x Hok) as Hopen.
    eapply channels_open_mono; [| | |exact Hopen]; intros; [by apply switches_eq|apply Ho|by apply links_eq].
  - rewrite (proj1 (incomings_eq _ _ (Incoming 0) Hi)). apply Hok.
  - split_and!; [exact H1|exact H2|]. apply eff_shrink; [by apply incomings_eq|by apply switches_eq|done|].
    intros n. left. by apply links_eq.
Qed.

Lemma unbounded_world w :
  let w' := (unbounded w).2 in
  (∀ n, queued w' (Tx n) = queued w (Tx n)) ∧ (∀ n, is_open w (Tx n) = true → is_open w' (Tx n) = true)
  ∧ incomings w' = incomings w ∧ switches w' = switches w ∧ routes w' = routes w.
Proof.
  cbn -[fresh].
  assert (Hf : (links w : gmap nat (bool * list bytes)) !! fresh (dom (links w)) = None)
    by (apply not_elem_of_dom; apply is_fresh).
  set (k := fresh (dom (links w))) in *. unfold chan_store in *. clearbody k.
  split_and!; [| |done..]; intros n; (destruct (decide (k = n)) as [<-|];
    [by rewrite lookup_insert_eq, ?Hf|by rewrite lookup_insert_ne]).
Qed.

Lemma add_link_effect x : peer_ok x → peer_ok (add_link x) ∧ same_config x (add_link x) ∧ effect x (add_link x) None.
Proof.
  intros Hok. unfold add_link. pose proof (unbounded_world (chans x)) as (Hq & Ho & Hi & Hs & Hr).
  destruct (unbounded (chans x)) as [link w]. cbn [snd] in *.
  assert (Hw : peer_ok (with_chans w x) ∧ same_config x (with_chans w x)).
  { apply with_chans_ok; [done| |].
    - pose proof (ok_open x Hok) as Hopen. eapply channels_open_mono; [| | |exact Hopen]; intros;
        [by apply switches_eq|by apply routes_eq|].
      destruct Hopen as (_ & _ & Hc). destruct c as [n]. rewrite (Hc (Tx n)) by done. by apply Ho, Hc.
    - rewrite (proj1 (incomings_eq _ _ (Incoming 0) Hi)). apply Hok. }
  destruct Hw as [Hw _].
  destruct (send_switch_ok (with_chans w x) (AddSender link) Hw) as (H1 & H2 & H3 & H4 & H5 & H6).
  split_and!; [exact H1|exact H2|]. apply (eff_send _ _ [AddSender link]).
  - etransitivity; [exact H3|]. by apply incomings_eq.
  - etransitivity; [exact H4|]. f_equal. by apply switches_eq.
  - by constructor.
  - done.
  - intros n. etransitivity; [apply H6|]. apply Hq.
Qed.

Lemma end_link_effect x n :
  peer_ok x → is_link x n → peer_ok (end_link n x) ∧ same_config x (end_link n x) ∧ effect x (end_link n x) None.
Proof.
  intros Hok Hn. unfold end_link. destruct (close_channel_spec n (links (chans x))) as (Hq & _ & Hm).
  destruct (with_chans_ok x (close_link n (chans x)) Hok) as [H1 H2].
  - eapply channels_open_mono; [| | |exact (ok_open x Hok)]; intros; [done|by apply routes_eq|].
    destruct c as [m]. apply Hm. congruence.
  - apply Hok.
  - split_and!; [exact H1|exact H2|]. apply eff_shrink; [done|done|done|].
    intros m. destruct (decide (m = n)) as [->|Hne]; [right; right; exact Hq|left; by apply Hm].
Qed.

(** Every step keeps a node well-formed and has one of the six effects. *)
Lemma peer_step_effect x e x' : peer_ok x → peer_step x e x' → peer_ok x' ∧ same_config x x' ∧ effect x x' e.
Proof.
  intros Hok Hstep. destruct Hstep.
  - by eapply receive_effect.
  - by eapply switch_effect.
  - apply emit_effect; [done| |].
    + intros a t Ha. eapply (name_announces fuel) in Ha as [= -> ->]; [|done|apply Hok|done].
      split; [done|]. by eapply (ok_name x Hok).
    + intros a t [= -> ->]. by apply (name_announces fuel _ _ a); [|apply Hok| |].
  - apply emit_effect; [done| |].
    + intros a t Ha. eapply ipv4_announces in Ha as [Hl [= -> ->]]; [|done|done].
      rewrite decide_True by done. split; [done|]. by eapply (ok_ipv4 x Hok).
    + intros a t. case_decide; [|done]. intros [= -> ->]. by eapply ipv4_announces.
  - by apply (send_effect x CleanBrokenSenders).
  - by eapply tun_effect.
  - eapply take_link_effect in H as (H1 & H2 & H3 & H4 & H5 & H6 & H7); [|done]. split_and!; [done|done|].
    apply eff_shrink; [done|done|done|]. intros m. destruct (decide (m = n)) as [->|]; [right; left; by rewrite H6|left; auto].
  - by eapply take_route_effect.
  - by apply add_link_effect.
  - by apply end_link_effect.
Qed.

Lemma arrive_spec x data link :
  peer_ok x → is_bytes data → let x' := arrive data link x in
  peer_ok x' ∧ same_config x x' ∧ swq x' = swq x ∧ task x' = task x ∧ (∀ n, lq x' n = lq x n)
  ∧ (inq x' = inq x ∨ inq x' = inq x ++ [(data, link)]).
Proof.
  intros Hok Hb x'. destruct (send_incoming_frame (Incoming 0) (data, link) (chans x)) as (Hl & Hs & Hr).
  assert (Hq : inq x' = inq x ∨ inq x' = inq x ++ [(data, link)]).
  { unfold inq, x', arrive. cbn [chans with_chans]. rewrite send_queued, decide_True by done.
    destruct (is_open _ _); [by right|left; by rewrite app_nil_r]. }
  destruct (with_chans_ok x (unbounded_send (Incoming 0) (data, link) (chans x)).2 Hok) as [H1 H2].
  - eapply channels_open_mono; [| | |exact (ok_open x Hok)]; intros; [by apply switches_eq|by apply routes_eq|by apply links_eq].
  - change (Forall (λ e, is_bytes e.1) (inq x')). destruct Hq as [-> | ->]; [apply Hok|].
    apply list.Forall_app. split; [apply Hok|by constructor].
  - split_and!; [exact H1|exact H2|by apply switches_eq|done|intros n; by apply links_eq|exact Hq].
Qed.
End peer.

(** ** The network

    [wire i n] is the other end of the link whose end at node [i] is the channel
    [n]: a node and a channel of it. The links of all times are numbered apart;
    a channel that is not one end of a link (the TUN interface's) has no wire. *)
Record Net := MkNet {
  peers : nat → Peer;
  log : list (nat * note);       (* what each node has emitted or accepted, in order *)
}.

Section net.
Context (fx_hash : bytes → Z) (wire : nat → nat → option (nat * nat)).

Inductive net_step (s : Net) : Net → Prop :=
| net_local i e x' :
    peer_step fx_hash (peers s i) e x' →
    net_step s (MkNet (<[i := x']> (peers s)) (log s ++ from_option (λ n, [(i, n)]) [] e))
| net_link i n j m data x' :
    wire i n = Some (j, m) → take_link n (peers s i) = Some (data, x') → data ≠ [] → packet_ok data →
    let ps := <[i := x']> (peers s) in
    net_step s (MkNet (<[j := arrive data (Tx m) (ps j)]> ps) (log s)).

Definition reachable : Net → Net → Prop := rtc net_step.

(** A network of nodes that have just been started by [run_meshnode]: nothing
    sent, no links yet, no routes. *)
Definition started (x : Peer) : Prop :=
  from_utf8 (node_name x) = true
  ∧ (∃ fuel addrs ips, own_ipv4s addrs = Ret ips ∧ ipv4_octets x = ips.*2
       ∧ run_meshnode_init fuel (node_name x) addrs (tun_sender (node x)) (route_adder (node x)) = Some (Ret (node x)))
  ∧ task x = initial ∧ channels_open switchboard (node x) (chans x)
  ∧ inq x = [] ∧ swq x = [] ∧ (∀ n, is_link x n → lq x n = []).

Definition net_started (s : Net) : Prop :=
  log s = [] ∧ (∀ i, started (peers s i)) ∧ (∀ i n, wire i n ≠ None → is_link (peers s i) n).

Lemma own_ipv4s_addr addrs ips :
  own_ipv4s addrs = Ret ips → ∀ octets addr, octets ∈ ips.*2 → ipv4_of_octets octets = Ret addr → addr ∈ ips.*1.
Proof.
  revert ips. induction addrs as [|s addrs IH]; intros ips; cbn [own_ipv4s].
  { intros [= <-] o a Ho. by apply elem_of_nil in Ho. }
  intros (os & _ & (a0 & Ha0 & (rest & Hrest & [= <-])%bind_Ret_inv)%bind_Ret_inv)%bind_Ret_inv o a.
  cbn [fmap list_fmap fst snd]. intros [->|Ho]%elem_of_cons Ha; apply elem_of_cons; [left; congruence|right; by eapply IH].
Qed.

Lemma started_ok x : started x → peer_ok x.
Proof.
  intros (Hutf & (fuel & addrs & ips & Hips & Hoct & Hinit) & Ht & Hopen & Hi & _).
  unfold run_meshnode_init in Hinit. destruct (from_node_name fuel (node_name x)) as [ip|] eqn:Hn; [|done].
  cbn [mbind option_bind] in Hinit. rewrite Hips in Hinit. cbn [mbind outcome_bind] in Hinit. injection Hinit as Hnode.
  assert (Hour : our_ips (node x) = list_to_set (ip :: ips.*1)) by by rewrite <- Hnode.
  split; [done| | | |done|by rewrite Hi].
  - intros f a Hf. rewrite (from_node_name_det _ _ _ _ _ Hf Hn), Hour. set_solver.
  - intros o a Ho Ha. rewrite Hour. rewrite Hoct in Ho. pose proof (own_ipv4s_addr _ _ Hips _ _ Ho Ha). set_solver.
  - rewrite <- Hnode. apply seen_new_wf.
Qed.

(** ** Schedules

    A network can be run: a schedule says whose task takes its next step. *)
Inductive command :=
| Receive (i fuel : nat) (current : Z)
| Serve (i : nat)
| AddLink (i : nat)
| AnnounceIpv4 (i : nat) (ms : Z) (octets : bytes)
| Transfer (i n : nat).

(** A step of the node [x], for the commands that have one. *)
Definition exec_peer (c : command) (x : Peer) : option (option note * Peer) :=
  match c with
  | Receive _ fuel current =>
      '(packet, w) ← next_incoming 0 (chans x);
      match receive_step fx_hash fuel current x with
      | Some (Ret x') =>
          Some (if decide (accepts fx_hash current (node x) packet.1) then Some (packet.1, says fuel packet.1) else None, x')
      | _ => None
      end
  | Serve _ => x' ← switch_step x; Some (None, x')
  | AddLink _ => Some (None, add_link x)
  | AnnounceIpv4 _ ms octets =>
      if decide (uint 64 ms ∧ octets ∈ ipv4_octets x) then
        match ipv4_of_octets octets with
        | Ret addr => Some (Some (ipv4_announcement ms octets, if decide (length octets = 4%nat) then Some (addr, ms) else None),
                            with_chans (announce_ipv4_step switchboard ms octets (chans x)) x)
        | _ => None
        end
      else None
  | Transfer _ _ => None
  end.

Lemma exec_peer_step c x e x' : exec_peer c x = Some (e, x') → peer_step fx_hash x e x'.
Proof.
  destruct c as [i fuel current|i|i|i ms octets|i n]; cbn [exec_peer].
  - destruct (next_incoming 0 (chans x)) as [[packet w]|] eqn:En; [|done]. cbn [mbind option_bind].
    destruct (receive_step fx_hash fuel current x) as [[x1|]|] eqn:Er; [|done|done]. intros [= <- <-].
    by eapply step_receive.
  - destruct (switch_step x) as [x1|] eqn:E; [|done]. intros [= <- <-]. by apply step_switch.
  - intros [= <- <-]. apply step_add_link.
  - case_decide as Hd; [|done]. destruct (ipv4_of_octets octets) as [addr|] eqn:E; [|done]. intros [= <- <-].
    destruct Hd. by eapply step_announce_ipv4.
  - done.
Qed.

Definition on_peer (c : command) : nat :=
  match c with Receive i _ _ | Serve i | AddLink i | AnnounceIpv4 i _ _ | Transfer i _ => i end.

Definition exec (c : command) (s : Net) : option Net :=
  match c with
  | Transfer i n =>
      '(j, m) ← wire i n; '(data, x') ← take_link n (peers s i);
      if decide (data ≠ [] ∧ packet_ok data) then
        let ps := <[i := x']> (peers s) in
        Some (MkNet (<[j := arrive data (Tx m) (ps j)]> ps) (log s))
      else None
  | _ =>
      '(e, x') ← exec_peer c (peers s (on_peer c));
      Some (MkNet (<[on_peer c := x']> (peers s)) (log s ++ from_option (λ n, [(on_peer c, n)]) [] e))
  end.

Fixpoint run (cs : list command) (s : Net) : option Net :=
  match cs with
  | [] => Some s
  | c :: cs => s ← exec c s; run cs s
  end.

Lemma exec_step c s s' : exec c s = Some s' → net_step s s'.
Proof.
  assert (Hlocal : ∀ c, ('(e, x') ← exec_peer c (peers s (on_peer c));
      Some (MkNet (<[on_peer c := x']> (peers s)) (log s ++ from_option (λ n, [(on_peer c, n)]) [] e))) = Some s' → net_step s s').
  { intros c'. destruct (exec_peer c' _) as [[e x']|] eqn:E; [|done]. cbn [mbind option_bind]. intros [= <-].
    apply net_local. by eapply exec_peer_step. }
  destruct c as [i fuel current|i|i|i ms octets|i n]; try apply (Hlocal (_ : command)). cbn [exec].
  destruct (wire i n) as [[j m]|] eqn:Hw; [|done]. cbn [mbind option_bind].
  destruct (take_link n (peers s i)) as [[data x']|] eqn:Ht; [|done]. cbn [mbind option_bind].
  case_decide as Hd; [|done]. intros [= <-]. destruct Hd. by eapply net_link.
Qed.

Lemma run_reachable cs s s' : run cs s = Some s' → reachable s s'.
Proof.
  revert s. induction cs as [|c cs IH]; intros s; cbn [run]; [intros [= <-]; apply rtc_refl|].
  destruct (exec c s) as [s1|] eqn:E; [|done]. cbn [mbind option_bind]. intros H.
  eapply rtc_l; [by eapply exec_step|by apply IH].
Qed.
End net.

(** ** An example: three nodes in a ring

    All have the same name; node 0 also owns 10.0.0.7. Channel 0 of each node leads
    to the next node, channel 1 to the one before. *)
Definition ring (i n : nat) : option (nat * nat) :=
  if decide (i < 3)%nat then
    match n with
    | 0%nat => Some (((i + 1) mod 3)%nat, 1%nat)
    | 1%nat => Some (((i + 2) mod 3)%nat, 0%nat)
    | _ => None
    end
  else None.

Definition ring_node (addrs : list bytes) : option (outcome (Node byte_tx route_tx)) :=
  run_meshnode_init 1000 (str_bytes "P") addrs None None.
Definition ring_world : world := MkWorld ∅ {[0%nat := (true, [])]} {[0%nat := (true, [])]} ∅.
Definition ring_peer (addrs : list bytes) (octets : list bytes) : Peer :=
  MkPeer (str_bytes "P") octets
    (match ring_node addrs with Some (Ret st) => st | _ => MkNode ∅ (SeenPackets.new 0) None None end) initial ring_world.
Definition ring_net : Net :=
  MkNet (λ i, if decide (i = 0%nat) then ring_peer [str_bytes "10.0.0.7"] [[10; 0; 0; 7]] else ring_peer [] []) [].

Lemma ring_sym i n j m : ring i n = Some (j, m) → ring j m = Some (i, n).
Proof.
  unfold ring. case_decide; [|done].
  destruct i as [|[|[|]]]; [..|lia]; destruct n as [|[|n]]; try done; by intros [= <- <-].
Qed.

Lemma ring_peer_started addrs octets st ips :
  own_ipv4s addrs = Ret ips → octets = ips.*2 → ring_node addrs = Some (Ret st) → tun_sender st = None → route_adder st = None →
  started (ring_peer addrs octets).
Proof.
  intros Hips Hoct Hst Htun Hroute. unfold ring_peer. rewrite Hst. split_and!.
  - vm_compute. reflexivity.
  - exists 1000%nat, addrs, ips. cbn [node node_name ipv4_octets]. rewrite Htun, Hroute.
    split; [exact Hips|]. split; [exact Hoct|exact Hst].
  - reflexivity.
  - cbn [node chans]. split_and!; [reflexivity| |]; intros c; [rewrite Hroute|rewrite Htun]; discriminate.
  - reflexivity.
  - reflexivity.
  - intros n _. reflexivity.
Qed.

Lemma ring_started : net_started ring ring_net.
Proof.
  assert (H0 : ∃ ips st, own_ipv4s [str_bytes "10.0.0.7"] = Ret ips ∧ [[10; 0; 0; 7]] = ips.*2
    ∧ ring_node [str_bytes "10.0.0.7"] = Some (Ret st) ∧ tun_sender st = None ∧ route_adder st = None)
    by (eexists _, _; split_and!; vm_compute; reflexivity).
  assert (H1 : ∃ ips st, own_ipv4s [] = Ret ips ∧ ([] : list bytes) = ips.*2
    ∧ ring_node [] = Some (Ret st) ∧ tun_sender st = None ∧ route_adder st = None)
    by (eexists _, _; split_and!; vm_compute; reflexivity).
  destruct H0 as (ips0 & st0 & A1 & A2 & A3 & A4 & A5), H1 as (ips1 & st1 & B1 & B2 & B3 & B4 & B5).
  split_and!; [reflexivity| |].
  - intros i. cbn [peers ring_net]. case_decide;
      [exact (ring_peer_started _ _ _ _ A1 A2 A3 A4 A5)|exact (ring_peer_started _ _ _ _ B1 B2 B3 B4 B5)].
  - intros i n _. unfold is_link. cbn [peers ring_net]. case_decide; unfold ring_peer; cbn [node].
    + rewrite A3, A4. discriminate.
    + rewrite B3, B4. discriminate.
Qed.

Lemma default_some {A} (d : A) (o : option A) :
  match o with Some _ => true | None => false end = true → o = Some (default d o).
Proof. by destruct o. Qed.

(** All links are set up. *)
Definition ring_links : list command :=
  [AddLink 0; AddLink 0; AddLink 1; AddLink 1; AddLink 2; AddLink 2;
   Serve 0; Serve 0; Serve 1; Serve 1; Serve 2; Serve 2].
(** Node 0 announces its address; the announcement goes round the ring both ways,
    until no copy is left. *)
Definition ring_flood : list command :=
  [AnnounceIpv4 0 1000 [10; 0; 0; 7]; Serve 0; Transfer 0 0; Transfer 0 1;
   Receive 1 0 1010; Receive 2 0 1010; Serve 1; Serve 1; Serve 2; Serve 2;
   Transfer 1 0; Transfer 1 1; Transfer 2 0; Transfer 2 1;
   Receive 0 0 1020; Receive 0 0 1020; Receive 1 0 1020; Receive 2 0 1020;
   Serve 0; Serve 0; Transfer 0 0; Transfer 0 1; Receive 1 0 1030; Receive 2 0 1030].
