(* ===== verification/NodePolls.v ===== *)
(** The tasks of a node poll by poll, and a network of nodes that run so
    ([run_meshnode] of [rust/src/main.rs], [all_senders_task] of
    [rust/src/all_senders.rs]).

    The receiving loop takes a packet, yields, and handles it in its next poll; the
    switchboard handles all that is queued in one poll; the announcing tasks and the
    cleaner are [Loops.retry_poll]. The theorems say that all this is what [Mesh] has
    as steps, so that what is proved there of every network holds of these. *)
From stdpp Require Import functions.
From S2P Require Import Prelude Utf8 Gimli Rng Delay IpAddr SeenPackets Channel AllSenders World Futures Loops Framing MeshNode Tun Mesh.

(** ** The environment of the tasks *)

Inductive queue := Packets | Messages.

(** The channels, the time since the epoch, the generator, and the wakers that wait
    for a value of a queue. *)
Record NodeEnv := MkNodeEnv { store : world; system_time : Z; NRNG : Rng; parked : list (queue * nat) }.

Definition with_store (w : world) (e : NodeEnv) : NodeEnv := MkNodeEnv w (system_time e) (NRNG e) (parked e).
Definition with_NRNG (r : Rng) (e : NodeEnv) : NodeEnv := MkNodeEnv (store e) (system_time e) r (parked e).

Abbreviation Context := (Cx nat NodeEnv).
Definition in_env (f : NodeEnv → NodeEnv) (cx : Context) : Context :=
  MkCx (waker cx) (clock cx) (reads cx) (sleep_register cx) (woken cx) (f (env cx)).
Definition park (q : queue) (cx : Context) : Context :=
  in_env (λ e, MkNodeEnv (store e) (system_time e) (NRNG e) (parked e ++ [(q, waker cx)])) cx.

(** [receiver.next()] of the node's own queue and of the switchboard's. Their senders
    live as long as the program: the end of the stream never comes. *)
Definition next_packet (cx : Context) : option (bytes * byte_tx) * Context :=
  match next_incoming 0 (store (env cx)) with
  | Some (packet, w) => (Some packet, in_env (with_store w) cx)
  | None => (None, park Packets cx)
  end.
Definition next_message (cx : Context) : option (AllSendersMessage byte_tx) * Context :=
  match next_switch 0 (store (env cx)) with
  | Some (msg, w) => (Some msg, in_env (with_store w) cx)
  | None => (None, park Messages cx)
  end.

Section tasks.
Context (fx_hash : bytes → Z).

(** ** The receiving loop

    Between two polls it waits for a packet, or holds one and has yielded. *)
Record Main := MkMain { mnode : Node byte_tx route_tx; held : option (bytes * byte_tx * bool) }.

Abbreviation Polled T := (option (outcome (Poll unit * T * Context))).

Definition take_packet (st : Node byte_tx route_tx) (cx : Context) : outcome (Poll unit * Main * Context) :=
  match next_packet cx with
  | (None, cx) => mret (Pending, MkMain st None, cx)
  | (Some packet, cx) =>
      '(r, yielded, cx) ← yield_poll false cx;
      mret (r, MkMain st (Some (packet, yielded)), cx)
  end.

Definition main_poll (fuel : nat) (this : Main) (cx : Context) : Polled Main :=
  match held this with
  | None => Some (take_packet (mnode this) cx)
  | Some (packet, yielded) =>
      match yield_poll yielded cx with
      | Panic why => Some (Panic why)
      | Ret (Pending, yielded, cx) => Some (Ret (Pending, MkMain (mnode this) (Some (packet, yielded)), cx))
      | Ret (Ready _, _, cx) =>
          r ← handle_packet fx_hash switchboard fuel (system_time (env cx)) (mnode this) packet.1 packet.2 (store (env cx));
          Some ('(st, w) ← r; take_packet st (in_env (with_store w) cx))
      end
  end.

(** ** The switchboard: [while let Some(msg) = receiver.next().await { .. }] *)
Fixpoint all_senders_poll (fuel : nat) (st : TaskState byte_tx) (cx : Context) : Polled (TaskState byte_tx) :=
  match fuel with
  | O => None
  | S fuel =>
      match next_message cx with
      | (None, cx) => Some (Ret (Pending, st, cx))
      | (Some msg, cx) =>
          let '(st, w) := handle st (store (env cx)) msg in
          all_senders_poll fuel st (in_env (with_store w) cx)
      end
  end.

(** ** The cleaner and the announcing tasks *)
Inductive periodic := Cleaner | AnnounceName | AnnounceIpv4 (octets : bytes).

Definition turn (name : bytes) (p : periodic) (e : NodeEnv) : world :=
  match p with
  | Cleaner => cleaner_step switchboard (store e)
  | AnnounceName => announce_name_step switchboard (system_time e) name (store e)
  | AnnounceIpv4 octets => announce_ipv4_step switchboard (system_time e) octets (store e)
  end.
Definition turn_poll (name : bytes) (p : periodic) (x : unit) (cx : Context) : Polled unit :=
  Some (Ret (Ready tt, tt, in_env (λ e, with_store (turn name p e) e) cx)).
Definition periodic_poll (name : bytes) (p : periodic) : nat → Retry unit → Context → Polled (Retry unit) :=
  retry_poll NRNG with_NRNG (turn_poll name p) tt.

(** ** A node *)

Record NodeState := MkNodeState {
  pname : bytes;
  poctets : list bytes;
  main : Main;
  switch : TaskState byte_tx;
  periodics : list (periodic * Retry unit);
  ctx : Context;
}.

(** What [run_meshnode] spawns. *)
Definition spawned (octets : list bytes) : list (periodic * Retry unit) :=
  (λ p, (p, RyAttempt tt)) <$> [Cleaner; AnnounceName] ++ (AnnounceIpv4 <$> octets).

(** The tasks of the links, of the TUN interface and of the route creator, as far as
    the node's channels go. *)
Inductive others_do (tun : option byte_tx) (w : world) : world → Prop :=
| others_take_link n data w' : next_link n w = Some (data, w') → others_do tun w w'
| others_take_route addr w' : next_route 0 w = Some (addr, w') → others_do tun w w'
| others_add_link : others_do tun w (let '(link, w') := unbounded w in add switchboard link w')
| others_end_link n : tun ≠ Some (Tx n) → others_do tun w (close_link n w)
| others_tun millis packet w' :
    uint 64 millis → is_bytes packet → forward switchboard millis packet w = Ret w' → others_do tun w w'.

(** A poll of one of its tasks, by the waker [w]; what other tasks do; time passes
    and others draw from the generator. *)
Inductive node_poll (s : NodeState) : NodeState → Prop :=
| poll_main fuel w r main' cx' :
    main_poll fuel (main s) (at_poll w id (ctx s)) = Some (Ret (r, main', cx')) →
    node_poll s (MkNodeState (pname s) (poctets s) main' (switch s) (periodics s) cx')
| poll_switch fuel w r switch' cx' :
    all_senders_poll fuel (switch s) (at_poll w id (ctx s)) = Some (Ret (r, switch', cx')) →
    node_poll s (MkNodeState (pname s) (poctets s) (main s) switch' (periodics s) cx')
| poll_periodic k fuel w p this r this' cx' :
    periodics s !! k = Some (p, this) →
    periodic_poll (pname s) p fuel this (at_poll w id (ctx s)) = Some (Ret (r, this', cx')) →
    node_poll s (MkNodeState (pname s) (poctets s) (main s) (switch s) (<[k := (p, this')]> (periodics s)) cx')
| poll_others w' :
    others_do (tun_sender (mnode (main s))) (store (env (ctx s))) w' →
    node_poll s (MkNodeState (pname s) (poctets s) (main s) (switch s) (periodics s) (in_env (with_store w') (ctx s)))
| poll_time now r wake :
    uint 64 now → Rng.wf r →
    node_poll s (MkNodeState (pname s) (poctets s) (main s) (switch s) (periodics s)
      (in_env (λ e, MkNodeEnv (store e) now r (filter (λ q, wake q = false) (parked e))) (ctx s))).

(** ** The node as [Mesh] sees it

    A packet that is held counts as queued. *)
Definition put_back (packet : bytes * byte_tx) (w : world) : world :=
  MkWorld (links w) (alter (λ c, (c.1, packet :: c.2)) 0%nat (incomings w)) (switches w) (routes w).
Definition unread (m : Main) (w : world) : world :=
  match held m with None => w | Some (packet, _) => put_back packet w end.
Definition as_peer (s : NodeState) : Peer :=
  MkPeer (pname s) (poctets s) (mnode (main s)) (switch s) (unread (main s) (store (env (ctx s)))).

(** Steps of a node, with what they emit and accept. *)
Inductive peer_steps (x : Peer) : list note → Peer → Prop :=
| peer_steps_none : peer_steps x [] x
| peer_steps_one e x1 notes x' :
    peer_step fx_hash x e x1 → peer_steps x1 notes x' → peer_steps x (from_option (λ n, [n]) [] e ++ notes) x'.

Lemma peer_steps_single x e x' : peer_step fx_hash x e x' → peer_steps x (from_option (λ n, [n]) [] e) x'.
Proof. intros H. rewrite <- (app_nil_r (from_option _ _ _)). econstructor; [exact H|constructor]. Qed.

(** *** Holding a packet back commutes with everything *)

Lemma put_back_next w packet w' : next_incoming 0 w = Some (packet, w') → put_back packet w' = w ∧ is_Some (incomings w' !! 0%nat).
Proof.
  unfold next_incoming, next_value, put_back. destruct (incomings w !! 0%nat) as [[b [|a q]]|] eqn:E; try done.
  intros [= <- <-]. cbn. destruct w as [l i sw r]. cbn in *. unfold chan_store in *.
  split; [|rewrite lookup_insert_eq; by eexists]. f_equal. apply (map_eq (M := gmap nat)). intros n. destruct (decide (n = 0%nat)) as [->|Hne].
  - by rewrite lookup_alter_eq, lookup_insert_eq, E.
  - by rewrite lookup_alter_ne, lookup_insert_ne.
Qed.

Lemma next_put_back packet w : is_Some (incomings w !! 0%nat) → next_incoming 0 (put_back packet w) = Some (packet, w).
Proof.
  intros [[b q] E]. unfold next_incoming, next_value, put_back. cbn. destruct w as [l i sw r]. cbn in *. unfold chan_store in *.
  rewrite lookup_alter_eq, E. cbn. do 2 f_equal. f_equal. apply (map_eq (M := gmap nat)). intros n. destruct (decide (n = 0%nat)) as [->|Hne].
  - by rewrite lookup_insert_eq, E.
  - by rewrite lookup_insert_ne, lookup_alter_ne.
Qed.

Lemma send_switch_put_back packet (c : switch_tx) (a : AllSendersMessage byte_tx) w :
  unbounded_send c a (put_back packet w) = ((unbounded_send c a w).1, put_back packet (unbounded_send c a w).2).
Proof. destruct c as [n]. cbn. by destruct (switches w !! n) as [[[] q]|]. Qed.

(** The switchboard works on the links alone: it does the same whatever the other
    queues hold. *)
Section reshape.
Context (gi : chan_store (bytes * byte_tx) → chan_store (bytes * byte_tx)).
Context (gs : chan_store (AllSendersMessage byte_tx) → chan_store (AllSendersMessage byte_tx)).

Definition reshape (w : world) : world := MkWorld (links w) (gi (incomings w)) (gs (switches w)) (routes w).

Lemma send_link_reshape (c : byte_tx) (a : bytes) w :
  unbounded_send c a (reshape w) = ((unbounded_send c a w).1, reshape (unbounded_send c a w).2).
Proof. destruct c as [n]. cbn. by destruct (links w !! n) as [[[] q]|]. Qed.

Lemma handle_reshape (t : TaskState byte_tx) w msg :
  handle t (reshape w) msg = ((handle t w msg).1, reshape (handle t w msg).2).
Proof.
  destruct msg as [l|ms addr l|addr data|data|]; cbn [handle]; [done| | | |].
  - destruct (fastest_to_address t !! addr) as [[old l0]|]; [|done]. by destruct (ms <=? old).
  - destruct (fastest_to_address t !! addr) as [[old l0]|]; [|done]. by rewrite send_link_reshape.
  - unfold send_each. cbn [fst snd]. f_equal. generalize (senders t). intros ss. revert w.
    induction ss as [|l ss IH]; intros w; [done|]. cbn [foldl]. rewrite send_link_reshape. cbn [snd]. by rewrite IH.
  - assert (Hr : ∀ ss n w, retain_open ss n (reshape w) = ((retain_open ss n w).1, reshape (retain_open ss n w).2)).
    { clear. induction ss as [|l ss IH]; intros n w; [done|]. cbn [retain_open]. rewrite send_link_reshape.
      destruct (unbounded_send l [] w) as [[] w1]; cbn [fst snd]; rewrite IH; by destruct (retain_open ss _ w1) as [[? ?] ?]. }
    rewrite Hr. by destruct (retain_open (senders t) 0 w) as [[? ?] ?].
Qed.
End reshape.

Lemma handle_put_back packet (t : TaskState byte_tx) w msg :
  handle t (put_back packet w) msg = ((handle t w msg).1, put_back packet (handle t w msg).2).
Proof. apply (handle_reshape (alter (λ c, (c.1, packet :: c.2)) 0%nat) id). Qed.

Lemma next_switch_put_back packet w :
  next_switch 0 (put_back packet w) = ('(msg, w') ← next_switch 0 w; Some (msg, put_back packet w')).
Proof. unfold next_switch, put_back. cbn. by destruct (next_value 0 (switches w)) as [[msg s]|]. Qed.

(** The other tasks. *)
Lemma others_put_back tun packet w w' : others_do tun w w' → others_do tun (put_back packet w) (put_back packet w').
Proof.
  intros H. destruct H as [n data w' H|addr w' H| |n H|millis data w' Hm Hb H].
  - apply (others_take_link _ _ n data). unfold next_link in *. cbn. destruct (next_value n (links w)) as [[a s]|]; [|done]. by injection H as -> <-.
  - apply (others_take_route _ _ addr). unfold next_route in *. cbn. destruct (next_value 0 (routes w)) as [[a s]|]; [|done]. by injection H as -> <-.
  - assert (E : (let '(link, w') := unbounded (put_back packet w) in add switchboard link w')
      = put_back packet (let '(link, w') := unbounded w in add switchboard link w')).
    { unfold add. change (unbounded (put_back packet w)) with ((unbounded w).1, put_back packet (unbounded w).2).
      destruct (unbounded w) as [link w1]. cbn [fst snd]. by rewrite send_switch_put_back. }
    rewrite <- E. apply others_add_link.
  - apply (others_end_link tun (put_back packet w) n H).
  - apply (others_tun _ _ millis data); [done|done|]. unfold forward in *. destruct (target_addr data) as [addr|]; [|done].
    cbn [mbind outcome_bind] in *. destruct addr as [addr|]; [|by injection H as <-]. injection H as <-. unfold send_to_fastest.
    by rewrite send_switch_put_back.
Qed.

(** ** Every poll is a sequence of steps of [Mesh] *)

(** Known of a node: its queue exists, the time is a 64-bit number, its name has an
    address, and it announces what it is configured with. *)
Definition may_run (name : bytes) (octets : list bytes) (p : periodic) : Prop :=
  match p with
  | Cleaner => True
  | AnnounceName => ∃ fuel addr, from_node_name fuel name = Some addr
  | AnnounceIpv4 o => o ∈ octets ∧ ∃ addr, ipv4_of_octets o = Ret addr
  end.
Definition env_ok (e : NodeEnv) : Prop := is_Some (incomings (store e) !! 0%nat) ∧ uint 64 (system_time e).
Definition node_ok (s : NodeState) : Prop :=
  env_ok (env (ctx s)) ∧ Forall (λ p, may_run (pname s) (poctets s) p.1) (periodics s).

Lemma take_packet_same st cx r m cx' :
  take_packet st cx = Ret (r, m, cx') →
  mnode m = st ∧ unread m (store (env cx')) = store (env cx) ∧ r = Pending ∧ (env_ok (env cx) → env_ok (env cx')).
Proof.
  unfold take_packet, next_packet. destruct (next_incoming 0 _) as [[packet w]|] eqn:Hn; cbn; intros [= <- <- <-]; [|by split_and!].
  apply put_back_next in Hn as [H1 H2]. split; [done|]. split; [exact H1|]. split; [done|]. intros [_ H]. by split.
Qed.

Lemma main_steps fuel name octets task m cx r m' cx' :
  env_ok (env cx) → main_poll fuel m cx = Some (Ret (r, m', cx')) →
  env_ok (env cx') ∧ r = Pending ∧ ∃ notes, peer_steps (MkPeer name octets (mnode m) task (unread m (store (env cx)))) notes
    (MkPeer name octets (mnode m') task (unread m' (store (env cx')))).
Proof.
  intros Hok. destruct m as [st [[packet yielded]|]]; unfold main_poll; cbn [held mnode unread].
  - destruct yielded; cbn [yield_poll mret outcome_ret].
    + destruct (handle_packet _ _ _ _ _ _ _ _) as [[[st' w]|why]|] eqn:Hh; [|done|done]. cbn [mbind option_bind outcome_bind].
      intros [= Ht]. apply take_packet_same in Ht as (<- & Hu & -> & Hok'). split; [|split; [done|]].
      { apply Hok'. destruct Hok as [Hq Hu64]. split; [|done]. cbn. pose proof (handle_packet_incomings _ _ _ _ _ _ _ _ _ Hh) as Hi.
        unfold same_incomings in Hi. by rewrite Hi. }
      rewrite Hu. cbn. eexists. apply peer_steps_single. eapply (step_receive _ _ fuel (system_time (env cx)) packet (store (env cx))).
      * apply next_put_back. apply Hok.
      * unfold receive_step. cbn [chans node]. rewrite next_put_back by apply Hok. cbn [mbind option_bind fst snd]. by rewrite Hh.
    + intros [= <- <- <-]. split; [done|]. split; [done|]. eexists. constructor.
  - intros [= Ht]. apply take_packet_same in Ht as (<- & Hu & -> & Hok'). split; [by apply Hok'|]. split; [done|]. rewrite Hu. eexists. constructor.
Qed.

Lemma peer_steps_app x n1 x1 n2 x' : peer_steps x n1 x1 → peer_steps x1 n2 x' → peer_steps x (n1 ++ n2) x'.
Proof. induction 1 as [|x e x1 notes x2 H _ IH]; [done|]. intros H2. rewrite <- app_assoc. econstructor; [exact H|by apply IH]. Qed.

(** With the packet that is held, if any. *)
Lemma handle_unread m (t : TaskState byte_tx) w msg :
  handle t (unread m w) msg = ((handle t w msg).1, unread m (handle t w msg).2).
Proof. destruct m as [st [[packet y]|]]; [apply handle_put_back|apply surjective_pairing]. Qed.
Lemma next_switch_unread m w : next_switch 0 (unread m w) = ('(msg, w') ← next_switch 0 w; Some (msg, unread m w')).
Proof. destruct m as [st [[packet y]|]]; [apply next_switch_put_back|]. cbn. by destruct (next_switch 0 w) as [[]|]. Qed.
Lemma send_switch_unread m (c : switch_tx) (a : AllSendersMessage byte_tx) w :
  (unbounded_send c a (unread m w)).2 = unread m (unbounded_send c a w).2.
Proof. destruct m as [st [[packet y]|]]; [cbn [unread held]; by rewrite send_switch_put_back|done]. Qed.
Lemma others_unread tun m w w' : others_do tun w w' → others_do tun (unread m w) (unread m w').
Proof. destruct m as [st [[packet y]|]]; [apply others_put_back|done]. Qed.

Lemma switch_steps name octets m fuel : ∀ t cx r t' cx',
  env_ok (env cx) → all_senders_poll fuel t cx = Some (Ret (r, t', cx')) →
  env_ok (env cx') ∧ r = Pending ∧ ∃ notes, peer_steps (MkPeer name octets (mnode m) t (unread m (store (env cx)))) notes
    (MkPeer name octets (mnode m) t' (unread m (store (env cx')))).
Proof.
  induction fuel as [|fuel IH]; intros t cx r t' cx' Hok; [done|]. cbn [all_senders_poll]. unfold next_message.
  destruct (next_switch 0 (store (env cx))) as [[msg w]|] eqn:Hn.
  - cbn [store env in_env with_store]. destruct (handle t w msg) as [t1 w1] eqn:Hh. intros Hp. apply IH in Hp as (Hok' & -> & notes & Hs).
    + split; [done|]. split; [done|]. eexists. econstructor; [|exact Hs]. apply step_switch. unfold switch_step. cbn [chans task].
      rewrite next_switch_unread, Hn. cbn [mbind option_bind]. by rewrite handle_unread, Hh.
    + destruct Hok as [Hq Hu]. split; [|done]. cbn. pose proof (handle_links_only t w msg) as (Hi & _). rewrite Hh in Hi. cbn in Hi. rewrite Hi.
      by apply next_switch_spec in Hn as (_ & _ & _ & -> & _).
  - intros [= <- <- <-]. split; [done|]. split; [done|]. eexists. constructor.
Qed.

(** One turn of a periodic task. *)
Lemma turn_step name octets m t p e :
  env_ok e → may_run name octets p →
  env_ok (with_store (turn name p e) e) ∧ ∃ note, peer_step fx_hash (MkPeer name octets (mnode m) t (unread m (store e))) note
    (MkPeer name octets (mnode m) t (unread m (turn name p e))).
Proof.
  intros [Hq Hu] Hmay. split.
  { split; [|done]. destruct p; cbn; unfold cleaner_step, announce_name_step, announce_ipv4_step, clean_broken_senders, send_all;
      by rewrite (switch_incomings _ (store e)). }
  set (x := MkPeer name octets (mnode m) t (unread m (store e))). destruct p as [| |o]; cbn [turn may_run] in *.
  - exists None. pose proof (step_clean fx_hash x) as H. unfold cleaner_step, clean_broken_senders in *.
    unfold with_chans, x in H. cbn [chans node task node_name ipv4_octets] in H. by rewrite send_switch_unread in H.
  - destruct Hmay as (fuel & addr & Hn). eexists. pose proof (step_announce_name fx_hash x fuel (system_time e) addr Hu Hn) as H.
    unfold announce_name_step, send_all in *. unfold with_chans, x in H. cbn [chans node task node_name ipv4_octets] in H.
    rewrite send_switch_unread in H. exact H.
  - destruct Hmay as (Ho & addr & Ha). eexists. pose proof (step_announce_ipv4 fx_hash x (system_time e) o addr Hu Ho Ha) as H.
    unfold announce_ipv4_step, send_all in *. unfold with_chans, x in H. cbn [chans node task node_name ipv4_octets] in H.
    rewrite send_switch_unread in H. exact H.
Qed.

Lemma sleep_poll_env (sleep : SleepFuture nat) (cx : Context) r sleep' cx' : sleep_poll sleep cx = Ret (r, sleep', cx') → env cx' = env cx.
Proof. unfold sleep_poll, instant_now. destruct (_ <=? _); [by intros [= <- <- <-]|]. case_bool_decide; by intros [= <- <- <-]. Qed.

Lemma periodic_steps name octets m t p : ∀ fuel this cx r this' cx',
  env_ok (env cx) → may_run name octets p → periodic_poll name p fuel this cx = Some (Ret (r, this', cx')) →
  env_ok (env cx') ∧ ∃ notes, peer_steps (MkPeer name octets (mnode m) t (unread m (store (env cx)))) notes
    (MkPeer name octets (mnode m) t (unread m (store (env cx')))).
Proof.
  induction fuel as [|fuel IH]; intros this cx r this' cx' Hok Hmay; [done|]. unfold periodic_poll in *. destruct this as [[]|sleep]; cbn [retry_poll].
  - unfold turn_poll at 1. unfold draw_delay. destruct (delay _) as [d rng]. cbn [sleep_seconds instant_now].
    intros Hp. destruct (turn_step name octets m t p (env cx) Hok Hmay) as [Hok1 [note Hstep]].
    apply IH in Hp as (Hok' & notes & Hs); [|exact Hok1|done]. split; [done|]. eexists. econstructor; [exact Hstep|exact Hs].
  - destruct (sleep_poll sleep cx) as [[[[[]|] sleep1] cx1]|] eqn:Hsl; [| |done]; apply sleep_poll_env in Hsl.
    + intros Hp. apply IH in Hp as (Hok' & notes & Hs); [|by rewrite Hsl|done]. split; [done|]. exists notes. by rewrite Hsl in Hs.
    + intros [= <- <- <-]. rewrite Hsl. split; [done|]. eexists. constructor.
Qed.

Lemma others_step x w : others_do (tun_sender (node x)) (chans x) w → peer_step fx_hash x None (with_chans w x).
Proof.
  intros [n data w' H|addr w' H| |n H|millis data w' Hm Hb H].
  - apply (step_take_link _ _ n data). unfold take_link. by rewrite H.
  - apply (step_take_route _ _ addr). unfold take_route. by rewrite H.
  - pose proof (step_add_link fx_hash x) as Ha. unfold add_link in Ha. by destruct (unbounded (chans x)).
  - by apply step_end_link.
  - by eapply step_tun.
Qed.

Lemma others_queue tun w w' : others_do tun w w' → incomings w' = incomings w.
Proof.
  intros [n data w1 H|addr w1 H| |n H|millis data w1 Hm Hb H].
  - by apply next_link_spec in H as (_ & _ & _ & H & _).
  - by apply next_route_spec in H as (_ & _ & H & _).
  - pose proof (switch_incomings (AddSender (unbounded w).1) (unbounded w).2) as H. exact H.
  - done.
  - unfold forward in H. destruct (target_addr data) as [[addr|]|]; [|by injection H as <-|done]. injection H as <-. apply switch_incomings.
Qed.

Lemma node_poll_steps s s' :
  node_ok s → node_poll s s' → node_ok s' ∧ ∃ notes, peer_steps (as_peer s) notes (as_peer s').
Proof.
  intros [Hok Hall] Hp. destruct Hp as [fuel w r m' cx' Hp|fuel w r t' cx' Hp|k fuel w p this r this' cx' Hk Hp|w' Ho|now r wake Hu Hr];
    unfold node_ok, as_peer; cbn [ctx periodics pname poctets main switch].
  - eapply main_steps in Hp as (Hok' & _ & Hs); [|exact Hok]. split; [by split|exact Hs].
  - eapply switch_steps in Hp as (Hok' & _ & Hs); [|exact Hok]. split; [by split|exact Hs].
  - assert (Hmay : may_run (pname s) (poctets s) p) by exact (proj1 (list.Forall_lookup _ _) Hall _ _ Hk).
    eapply periodic_steps in Hp as (Hok' & Hs); [|exact Hok|exact Hmay]. split; [|exact Hs]. split; [done|]. by apply list.Forall_insert.
  - split; [split; [|done]|].
    + destruct Hok as [Hq Hu]. split; [|done]. cbn. by rewrite (others_queue _ _ _ Ho).
    + eexists. apply peer_steps_single. apply (others_step (as_peer s)). by apply others_unread.
  - split; [split; [|done]|eexists; constructor]. split; [apply Hok|done].
Qed.

(** ** Every task goes on *)

(** The switchboard's queue, emptied. *)
Definition drained (w : world) : world := reshape id (alter (λ c, (c.1, [])) 0%nat) w.

Lemma drained_next w msg w' : next_switch 0 w = Some (msg, w') → drained w' = drained w.
Proof.
  unfold next_switch, next_value. destruct (switches w !! 0%nat) as [[b [|a q]]|] eqn:E; try done. intros [= -> <-].
  unfold drained, reshape. cbn. f_equal. unfold chan_store in *. apply (map_eq (M := gmap nat)). intros n.
  destruct (decide (n = 0%nat)) as [->|Hne].
  - by rewrite !lookup_alter_eq, lookup_insert_eq, E.
  - by rewrite !lookup_alter_ne, lookup_insert_ne.
Qed.

Lemma drained_empty w : next_switch 0 w = None → drained w = w ∧ queued w (Switch 0) = [].
Proof.
  unfold next_switch, next_value, drained, reshape. destruct w as [l i sw r]. cbn. unfold chan_store in *.
  destruct (sw !! 0%nat) as [[b [|a q]]|] eqn:E; try done; intros _; (split; [|done]); f_equal;
    apply (map_eq (M := gmap nat)); intros n; (destruct (decide (n = 0%nat)) as [->|Hne]; [by rewrite lookup_alter_eq, E|by rewrite lookup_alter_ne]).
Qed.

Lemma switch_drains fuel : ∀ t cx,
  (length (queued (store (env cx)) (Switch 0)) < fuel)%nat →
  let '(t', w') := all_senders_task t (drained (store (env cx))) (queued (store (env cx)) (Switch 0)) in
  all_senders_poll fuel t cx = Some (Ret (Pending, t', park Messages (in_env (with_store w') cx))).
Proof.
  induction fuel as [|fuel IH]; intros t cx Hf; [lia|]. cbn [all_senders_poll]. unfold next_message.
  destruct (next_switch 0 (store (env cx))) as [[msg w1]|] eqn:Hn.
  - pose proof (drained_next _ _ _ Hn) as Hd. apply next_switch_spec in Hn as (Hq & _). rewrite Hq in *. rewrite <- Hd.
    cbn [store env in_env with_store all_senders_task foldl]. unfold drained at 1. rewrite handle_reshape.
    pose proof (handle_links_only t w1 msg) as (_ & Hs & _). destruct (handle t w1 msg) as [t1 w2]. cbn [fst snd] in *.
    assert (Hq2 : queued w2 (Switch 0) = queued w1 (Switch 0)) by (by apply switches_eq).
    specialize (IH t1 (in_env (with_store w2) (in_env (with_store w1) cx))). cbn [store env in_env with_store] in IH. rewrite Hq2 in IH.
    cbn [length] in Hf. specialize (IH ltac:(lia)). unfold all_senders_task, drained in IH |- *. by destruct (foldl _ _ _) as [t' w'].
  - destruct (drained_empty _ Hn) as [Hd Hq]. rewrite Hd, Hq. cbn [all_senders_task foldl]. destruct cx as [? ? ? ? ? [? ? ? ?]]. reflexivity.
Qed.

(** The receiving loop waits for a packet, registered, or is woken. *)
Definition main_waits (w : nat) (m : Main) (cx : Context) : Prop :=
  match held m with
  | Some (_, yielded) => yielded = true ∧ w ∈ woken cx
  | None => queued (store (env cx)) (Incoming 0) = [] ∧ (Packets, w) ∈ parked (env cx)
  end.

Lemma next_incoming_none w : next_incoming 0 w = None → queued w (Incoming 0) = [].
Proof. unfold next_incoming, next_value. cbn. by destruct (incomings w !! 0%nat) as [[b [|a q]]|]. Qed.

Lemma take_packet_waits st cx : ∃ m cx', take_packet st cx = Ret (Pending, m, cx') ∧ main_waits (waker cx) m cx'.
Proof.
  unfold take_packet, next_packet. destruct (next_incoming 0 _) as [[packet w]|] eqn:Hn; cbn; eexists _, _; (split; [reflexivity|]); unfold main_waits; cbn.
  - split; [done|]. apply elem_of_app. right. by apply list_elem_of_here.
  - split; [by apply next_incoming_none|]. apply elem_of_app. right. by apply list_elem_of_here.
Qed.

(** A periodic task between two polls. *)
Abbreviation periodic_running := (running NRNG (λ (_ : unit) (_ : Context), True)).

Lemma periodic_goes_on name p fuel this cx :
  periodic_running this cx → steady cx → (4 <= fuel)%nat →
  ∃ sleep' cx', periodic_poll name p fuel this cx = Some (Ret (Pending, RySleep sleep', cx'))
    ∧ periodic_running (RySleep sleep') cx' ∧ clock cx' = clock cx ∧ (target sleep', waker cx) ∈ sleep_register cx'
    ∧ match this with
      | RySleep sleep =>
          if target sleep <=? clock cx (reads cx) then
            store (env cx') = turn name p (env cx) ∧ paused (instant_now cx).2 sleep'
          else env cx' = env cx ∧ target sleep' = target sleep
      | RyAttempt _ => store (env cx') = turn name p (env cx) ∧ paused cx sleep'
      end.
Proof.
  intros Hrun Hst Hf.
  destruct (retry_poll_ok NRNG with_NRNG (turn_poll name p) tt ltac:(done) (λ _ _, True) ltac:(done)) with (fuel := fuel) (this := this) (cx := cx)
    as (this' & cx' & Hp & Hrun' & Hfol & Hc & Hreg); [|done..|].
  { intros x cx0 _ Hwf. eexists _, _, _. split; [reflexivity|]. split; [done|]. split; [done|]. split; [exact Hwf|done]. }
  assert (Hatt : ∀ x cx1, attempted NRNG with_NRNG (turn_poll name p) x cx1 this' cx' →
    ∃ sleep', this' = RySleep sleep' ∧ store (env cx') = turn name p (env cx1) ∧ paused cx1 sleep').
  { intros x cx1. destruct this' as [x'|sleep']; cbn [attempted]; [done|]. intros (v & x1 & ended & [= <- <- <-] & Hpause & Hd).
    exists sleep'. split; [done|]. unfold drawn in Hd. rewrite Hd. by split. }
  destruct this as [x|sleep]; cbn [followed] in Hfol.
  - destruct (Hatt _ _ Hfol) as (sleep' & -> & H). by exists sleep', cx'.
  - cbn [instant_now] in Hfol. destruct (target sleep <=? clock cx (reads cx)).
    + destruct (Hatt _ _ Hfol) as (sleep' & -> & H). by exists sleep', cx'.
    + destruct Hfol as (sleep' & -> & Ht & He). by exists sleep', cx'.
Qed.

(** C14. No task of a node gets stuck. A poll of the switchboard handles all that is
    queued, as [AllSenders.all_senders_task] does, and ends with the queue empty and
    its waker left there. A poll of the receiving loop handles the packet it holds,
    if any, and that only; unless that packet makes it panic, it then holds the next
    one and is woken, or the queue is empty and its waker left there. A poll of the
    cleaner or of an announcing task sends once if its sleep is over, and then
    sleeps for five to ten seconds; otherwise it changes nothing; it is registered
    for the end of its sleep. *)
Theorem node_tasks_go_on (cx : Context) :
  (∀ t fuel, (length (queued (store (env cx)) (Switch 0)) < fuel)%nat →
     let '(t', w') := all_senders_task t (drained (store (env cx))) (queued (store (env cx)) (Switch 0)) in
     all_senders_poll fuel t cx = Some (Ret (Pending, t', park Messages (in_env (with_store w') cx))))
  ∧ (∀ st fuel, ∃ m cx', main_poll fuel (MkMain st None) cx = Some (Ret (Pending, m, cx')) ∧ main_waits (waker cx) m cx'
       ∧ mnode m = st ∧ unread m (store (env cx')) = store (env cx))
  ∧ (∀ st packet fuel, match handle_packet fx_hash switchboard fuel (system_time (env cx)) st packet.1 packet.2 (store (env cx)) with
       | Some (Ret (st', w)) => ∃ m cx', main_poll fuel (MkMain st (Some (packet, true))) cx = Some (Ret (Pending, m, cx'))
           ∧ main_waits (waker cx) m cx' ∧ mnode m = st' ∧ unread m (store (env cx')) = w
       | Some (Panic why) => main_poll fuel (MkMain st (Some (packet, true))) cx = Some (Panic why)
       | None => main_poll fuel (MkMain st (Some (packet, true))) cx = None
       end)
  ∧ (∀ name p fuel this, periodic_running this cx → steady cx → (4 <= fuel)%nat →
       ∃ sleep' cx', periodic_poll name p fuel this cx = Some (Ret (Pending, RySleep sleep', cx'))
         ∧ periodic_running (RySleep sleep') cx' ∧ (target sleep', waker cx) ∈ sleep_register cx'
         ∧ match this with
           | RySleep sleep =>
               if target sleep <=? clock cx (reads cx) then
                 store (env cx') = turn name p (env cx) ∧ paused (instant_now cx).2 sleep'
               else env cx' = env cx ∧ target sleep' = target sleep
           | RyAttempt _ => store (env cx') = turn name p (env cx) ∧ paused cx sleep'
           end).
Proof.
  split; [intros t fuel; apply switch_drains|]. split; [|split].
  - intros st fuel. destruct (take_packet_waits st cx) as (m & cx' & Ht & Hw). exists m, cx'. unfold main_poll. cbn [held mnode]. rewrite Ht.
    apply take_packet_same in Ht as (H1 & H2 & _). by split_and!.
  - intros st packet fuel. unfold main_poll. cbn [held mnode yield_poll mret outcome_ret].
    destruct (handle_packet _ _ _ _ _ _ _ _) as [[[st' w]|why]|]; [|done|done]. cbn [mbind option_bind outcome_bind].
    destruct (take_packet_waits st' (in_env (with_store w) cx)) as (m & cx' & Ht & Hw). exists m, cx'. rewrite Ht. split; [done|]. split; [exact Hw|].
    apply take_packet_same in Ht as (H1 & H2 & _). by split.
  - intros name p fuel this Hrun Hst Hf. destruct (periodic_goes_on name p fuel this cx Hrun Hst Hf) as (sleep' & cx' & H1 & H2 & _ & H3 & H4).
    by exists sleep', cx'.
Qed.

(** ** A network of polled nodes *)

Context (wire : nat → nat → option (nat * nat)).

Definition on_store (f : world → world) (s : NodeState) : NodeState :=
  MkNodeState (pname s) (poctets s) (main s) (switch s) (periodics s) (in_env (λ e, with_store (f (store e)) e) (ctx s)).

(** A poll at one of the nodes, or a packet that goes over a link: taken by the
    sending task of one end, delivered by the receiving task of the other. *)
Inductive polled_step (ps : nat → NodeState) : (nat → NodeState) → Prop :=
| polled_node i x' : node_poll (ps i) x' → polled_step ps (<[i := x']> ps)
| polled_link i n j m data w' :
    wire i n = Some (j, m) → next_link n (store (env (ctx (ps i)))) = Some (data, w') → data ≠ [] → packet_ok data →
    let ps1 := <[i := on_store (λ _, w') (ps i)]> ps in
    polled_step ps (<[j := on_store (λ w, (unbounded_send (Incoming 0) (data, Tx m) w).2) (ps1 j)]> ps1).

Definition agree (ps : nat → NodeState) (S : Net) : Prop := ∀ i, as_peer (ps i) = peers S i.

Lemma agree_insert ps S i x' X' l :
  agree ps S → as_peer x' = X' → agree (<[i := x']> ps) (MkNet (<[i := X']> (peers S)) l).
Proof.
  intros Ha <- j. cbn [peers]. destruct (decide (i = j)) as [->|Hne]; [by rewrite !fn_lookup_insert|].
  rewrite !fn_lookup_insert_ne by done. apply Ha.
Qed.

Lemma peer_steps_net i x notes x' : peer_steps x notes x' → ∀ S, peers S i = x →
  ∃ S', rtc (net_step fx_hash wire) S S' ∧ peers S' i = x' ∧ (∀ j, j ≠ i → peers S' j = peers S j)
    ∧ log S' = log S ++ ((i,.) <$> notes).
Proof.
  induction 1 as [x|x e x1 notes x' Hstep _ IH]; intros S HS.
  - exists S. split; [constructor|]. split_and!; [done|done|by rewrite app_nil_r].
  - destruct (IH (MkNet (<[i := x1]> (peers S)) (log S ++ from_option (λ n, [(i, n)]) [] e))) as (S' & Hr & Hi & Hj & Hl).
    { apply fn_lookup_insert. }
    exists S'. split; [|split; [done|split]].
    + eapply rtc_l; [|exact Hr]. apply net_local. by rewrite HS.
    + intros j Hne. rewrite Hj by done. cbn [peers]. by rewrite fn_lookup_insert_ne.
    + rewrite Hl. cbn [log]. rewrite <- app_assoc, fmap_app. f_equal. f_equal. by destruct e.
Qed.

Lemma arrive_unread m data link w :
  is_Some (incomings w !! 0%nat) →
  (unbounded_send (Incoming 0) (data, link) (unread m w)).2 = unread m (unbounded_send (Incoming 0) (data, link) w).2.
Proof.
  intros [[b q] E]. destruct m as [st [[packet y]|]]; [|done]. cbn [unread held]. unfold put_back. cbn. unfold chan_store in *.
  rewrite lookup_alter_eq, E. cbn. destruct b; cbn; [|done]. f_equal. apply (map_eq (M := gmap nat)). intros n.
  destruct (decide (n = 0%nat)) as [->|Hne].
  - by rewrite lookup_insert_eq, lookup_alter_eq, lookup_insert_eq.
  - by rewrite lookup_insert_ne, !lookup_alter_ne, lookup_insert_ne.
Qed.

Lemma next_link_unread m n w : next_link n (unread m w) = ('(data, w') ← next_link n w; Some (data, unread m w')).
Proof.
  destruct m as [st [[packet y]|]]; cbn [unread held]; [|by destruct (next_link n w) as [[]|]].
  unfold next_link, put_back. cbn. by destruct (next_value n (links w)) as [[data s]|].
Qed.

Lemma arrive_queue c a w : is_Some (incomings w !! 0%nat) → is_Some (incomings (unbounded_send (Incoming c) a w).2 !! 0%nat).
Proof.
  intros Hq. cbn. destruct (incomings w !! c) as [[[] q]|] eqn:E; cbn; [|done..]. unfold chan_store in *.
  destruct (decide (c = 0%nat)) as [->|]; [rewrite lookup_insert_eq; by eexists|by rewrite lookup_insert_ne].
Qed.

Lemma polled_step_net ps ps' S :
  (∀ i, node_ok (ps i)) → agree ps S → polled_step ps ps' →
  (∀ i, node_ok (ps' i)) ∧ ∃ S', rtc (net_step fx_hash wire) S S' ∧ agree ps' S'.
Proof.
  intros Hok Ha Hp. destruct Hp as [i x' Hp|i n j m data w' Hw Hn Hne Hpk ps1].
  - destruct (node_poll_steps _ _ (Hok i) Hp) as [Hok' [notes Hs]]. split.
    { intros k. destruct (decide (i = k)) as [->|]; [by rewrite fn_lookup_insert|by rewrite fn_lookup_insert_ne]. }
    destruct (peer_steps_net i _ _ _ Hs S (eq_sym (Ha i))) as (S' & Hr & Hi & Hj & _). exists S'. split; [done|]. intros k.
    destruct (decide (i = k)) as [<-|]; [by rewrite fn_lookup_insert|]. rewrite fn_lookup_insert_ne, Hj by done. apply Ha.
  - assert (Hok1 : ∀ k, node_ok (ps1 k)).
    { intros k. unfold ps1. destruct (decide (i = k)) as [<-|]; [|by rewrite fn_lookup_insert_ne]. rewrite fn_lookup_insert.
      destruct (Hok i) as [[Hq Hu] Hall]. split; [|done]. split; [|done]. cbn. by apply next_link_spec in Hn as (_ & _ & _ & -> & _). }
    split.
    { intros k. destruct (decide (j = k)) as [<-|]; [|by rewrite fn_lookup_insert_ne]. rewrite fn_lookup_insert.
      destruct (Hok1 j) as [[Hq Hu] Hall]. split; [|done]. split; [|done]. by apply arrive_queue. }
    set (X' := with_chans (unread (main (ps i)) w') (peers S i)).
    assert (Ht : take_link n (peers S i) = Some (data, X')).
    { unfold take_link. rewrite <- (Ha i). cbn [as_peer chans]. rewrite next_link_unread, Hn. cbn. unfold X'. by rewrite <- (Ha i). }
    assert (Ha1 : agree ps1 (MkNet (<[i := X']> (peers S)) (log S))).
    { apply agree_insert; [done|]. unfold X'. by rewrite <- (Ha i). }
    assert (Heq : as_peer (on_store (λ w, (unbounded_send (Incoming 0) (data, Tx m) w).2) (ps1 j)) = arrive data (Tx m) (<[i := X']> (peers S) j)).
    { etransitivity; [|exact (f_equal (arrive data (Tx m)) (Ha1 j))]. unfold arrive, with_chans, as_peer.
      cbn [pname poctets main switch ctx on_store in_env env with_store store chans node_name ipv4_octets node task].
      f_equal. symmetry. apply arrive_unread. apply Hok1. }
    eexists. split; [apply rtc_once; by eapply net_link|]. exact (agree_insert ps1 (MkNet (<[i := X']> (peers S)) (log S)) j _ _ (log S) Ha1 Heq).
Qed.

(** Nodes that have just been started: their queues exist and their tasks are
    spawned. *)
Definition fresh_node (s : NodeState) : Prop :=
  started (as_peer s) ∧ env_ok (env (ctx s)) ∧ held (main s) = None ∧ periodics s = spawned (poctets s).

Lemma own_ipv4s_octets addrs ips o : own_ipv4s addrs = Ret ips → o ∈ ips.*2 → ∃ addr, ipv4_of_octets o = Ret addr.
Proof.
  revert ips. induction addrs as [|s addrs IH]; cbn [own_ipv4s]; [by intros ips [= <-] ?%elem_of_nil|].
  intros ips (octets & _ & H)%bind_Ret_inv. apply bind_Ret_inv in H as (addr & Ha & H). apply bind_Ret_inv in H as (rest & Hr & [= <-]).
  cbn. intros [->|Hin]%elem_of_cons; [by exists addr|by eapply IH].
Qed.

Lemma fresh_node_ok s : fresh_node s → node_ok s.
Proof.
  intros ((_ & (fuel & addrs & ips & Hips & Hoct & Hinit) & _) & Hok & _ & Hp). split; [done|]. rewrite Hp. unfold spawned.
  apply list.Forall_fmap, list.Forall_forall. intros p Hin. cbn. apply elem_of_app in Hin as [Hin|(o & -> & Hin)%list_elem_of_fmap].
  - apply elem_of_cons in Hin as [->|Hin]; [done|]. apply list_elem_of_singleton in Hin as ->. cbn.
    unfold run_meshnode_init in Hinit. cbn [node_name as_peer] in Hinit.
    destruct (from_node_name fuel (pname s)) as [addr|] eqn:Hn; [by exists fuel, addr|done].
  - cbn in Hoct. split; [done|]. rewrite Hoct in Hin. by eapply own_ipv4s_octets.
Qed.

Lemma rtc_polled ps ps' S :
  (∀ i, node_ok (ps i)) → agree ps S → rtc polled_step ps ps' →
  (∀ i, node_ok (ps' i)) ∧ ∃ S', rtc (net_step fx_hash wire) S S' ∧ agree ps' S'.
Proof.
  intros Hok Ha H. revert S Hok Ha. induction H as [ps|ps ps1 ps' Hstep _ IH]; intros S Hok Ha; [split; [done|]; by exists S|].
  destruct (polled_step_net _ _ _ Hok Ha Hstep) as (Hok1 & S1 & Hr1 & Ha1). destruct (IH S1 Hok1 Ha1) as (Hok' & S' & Hr' & Ha').
  split; [done|]. exists S'. split; [by etransitivity|done].
Qed.

(** C10. Polled nodes are the nodes of [Mesh]. Whatever the order in which the tasks
    of the nodes of a network are polled, and whatever the links and the TUN
    interfaces do in between, the states and channels of the nodes are those of a
    reachable state of the network in [Mesh], in which a packet that the receiving
    loop holds while it yields is still queued. What is proved there of every
    reachable state holds of every run of the tasks. *)
Theorem polled_network_refines ps ps' :
  (∀ i, fresh_node (ps i)) → (∀ i n, wire i n ≠ None → is_link (as_peer (ps i)) n) → rtc polled_step ps ps' →
  let S := MkNet (λ i, as_peer (ps i)) [] in
  net_started wire S ∧ ∃ S', reachable fx_hash wire S S' ∧ ∀ i,
    pname (ps' i) = node_name (peers S' i) ∧ switch (ps' i) = task (peers S' i) ∧ mnode (main (ps' i)) = node (peers S' i)
    ∧ unread (main (ps' i)) (store (env (ctx (ps' i)))) = chans (peers S' i).
Proof.
  intros Hfresh Hlinks Hr S. split.
  { split; [done|]. split; [intros i; apply Hfresh|done]. }
  destruct (rtc_polled ps ps' S) as (_ & S' & HS & Ha); [intros i; by apply fresh_node_ok|done|done|].
  exists S'. split; [exact HS|]. intros i. rewrite <- (Ha i). done.
Qed.

End tasks.

(** ** Witnesses *)

(** *** Schedules of polls *)
Inductive poll_command :=
| PollMain (i fuel : nat)
| PollSwitch (i fuel : nat)
| PollPeriodic (i k fuel : nat)
| StartLink (i : nat)
| Carry (i n : nat).

Section schedule.
Context (fx_hash : bytes → Z) (wire : nat → nat → option (nat * nat)).

Definition polled_exec (c : poll_command) (ps : nat → NodeState) : option (nat → NodeState) :=
  match c with
  | PollMain i fuel =>
      let s := ps i in
      match main_poll fx_hash fuel (main s) (at_poll 0%nat id (ctx s)) with
      | Some (Ret (_, m, cx)) => Some (<[i := MkNodeState (pname s) (poctets s) m (switch s) (periodics s) cx]> ps)
      | _ => None
      end
  | PollSwitch i fuel =>
      let s := ps i in
      match all_senders_poll fuel (switch s) (at_poll 1%nat id (ctx s)) with
      | Some (Ret (_, t, cx)) => Some (<[i := MkNodeState (pname s) (poctets s) (main s) t (periodics s) cx]> ps)
      | _ => None
      end
  | PollPeriodic i k fuel =>
      let s := ps i in
      '(p, this) ← periodics s !! k;
      match periodic_poll (pname s) p fuel this (at_poll (2 + k)%nat id (ctx s)) with
      | Some (Ret (_, this', cx)) => Some (<[i := MkNodeState (pname s) (poctets s) (main s) (switch s) (<[k := (p, this')]> (periodics s)) cx]> ps)
      | _ => None
      end
  | StartLink i =>
      let s := ps i in
      let w := (let '(link, w') := unbounded (store (env (ctx s))) in add switchboard link w') in
      Some (<[i := MkNodeState (pname s) (poctets s) (main s) (switch s) (periodics s) (in_env (with_store w) (ctx s))]> ps)
  | Carry i n =>
      '(j, m) ← wire i n; '(data, w') ← next_link n (store (env (ctx (ps i))));
      if decide (data ≠ [] ∧ packet_ok data) then
        let ps1 := <[i := on_store (λ _, w') (ps i)]> ps in
        Some (<[j := on_store (λ w, (unbounded_send (Incoming 0) (data, Tx m) w).2) (ps1 j)]> ps1)
      else None
  end.
Fixpoint polled_run (cs : list poll_command) (ps : nat → NodeState) : option (nat → NodeState) :=
  match cs with [] => Some ps | c :: cs => ps ← polled_exec c ps; polled_run cs ps end.

Lemma polled_exec_step c ps ps' : polled_exec c ps = Some ps' → polled_step fx_hash wire ps ps'.
Proof.
  destruct c as [i fuel|i fuel|i k fuel|i|i n]; cbn [polled_exec].
  - destruct (main_poll _ _ _ _) as [[[[r m] cx]|]|] eqn:E; try done. intros [= <-]. apply polled_node. by eapply poll_main.
  - destruct (all_senders_poll _ _ _) as [[[[r m] cx]|]|] eqn:E; try done. intros [= <-]. apply polled_node. by eapply poll_switch.
  - destruct (periodics (ps i) !! k) as [[p this]|] eqn:Hk; [|done]. cbn [mbind option_bind].
    destruct (periodic_poll _ _ _ _ _) as [[[[r m] cx]|]|] eqn:E; try done. intros [= <-]. apply polled_node. by eapply poll_periodic.
  - intros [= <-]. apply polled_node, poll_others, others_add_link.
  - destruct (wire i n) as [[j m]|] eqn:Hw; [|done]. cbn [mbind option_bind].
    destruct (next_link n _) as [[data w']|] eqn:Hn; [|done]. cbn [mbind option_bind]. case_decide as Hd; [|done]. intros [= <-].
    destruct Hd. by apply (polled_link _ _ _ i n j m data w').
Qed.

Lemma polled_run_rtc cs ps ps' : polled_run cs ps = Some ps' → rtc (polled_step fx_hash wire) ps ps'.
Proof.
  revert ps. induction cs as [|c cs IH]; intros ps; cbn [polled_run]; [intros [= <-]; constructor|].
  destruct (polled_exec c ps) as [ps1|] eqn:E; [|done]. intros H. eapply rtc_l; [by eapply polled_exec_step|by apply IH].
Qed.
End schedule.

(** The ring of [Mesh], each node with its tasks just spawned, at 1000 milliseconds;
    the clock gives a second per reading. *)
Definition ring_state (addrs octets : list bytes) : NodeState :=
  let x := ring_peer addrs octets in
  MkNodeState (node_name x) octets (MkMain (node x) None) initial (spawned octets)
    (MkCx 0%nat (λ n, from_secs (Z.of_nat n)) 0 [] [] (MkNodeEnv ring_world 1000 Rng.new [])).
Definition ring_states (i : nat) : NodeState :=
  if decide (i = 0%nat) then ring_state [str_bytes "10.0.0.7"] [[10; 0; 0; 7]] else ring_state [] [].

Lemma ring_states_fresh i : fresh_node (ring_states i).
Proof.
  destruct ring_started as (_ & H & _). specialize (H i). cbn [peers ring_net] in H. unfold ring_states.
  destruct (decide (i = 0%nat)); (split; [exact H|]); (split; [|done]); (split; [by eexists|]); change (uint 64 1000); unfold uint; lia.
Qed.

(** Node 0 announces its address, the third of its periodic tasks; its switchboard
    sends it on the link to node 1, which takes it in one poll and handles it in the
    next; then its switchboard knows the route. *)
Definition ring_polls : list poll_command :=
  [StartLink 0; StartLink 1; StartLink 1; PollSwitch 0 9; PollSwitch 1 9; PollPeriodic 0 2 4; PollSwitch 0 9;
   Carry 0 0; PollMain 1 9; PollMain 1 9; PollSwitch 1 9].

Lemma polled_network_refines_witness : ∃ ps' S',
  rtc (polled_step (λ _, 0) ring) ring_states ps' ∧ reachable (λ _, 0) ring (MkNet (λ i, as_peer (ring_states i)) []) S'
  ∧ fastest_to_address (task (peers S' 1%nat)) !! V4 10 0 0 7 = Some (1000, Tx 1).
Proof.
  assert (H : ∃ ps', polled_run (λ _, 0) ring ring_polls ring_states = Some ps'
    ∧ fastest_to_address (switch (ps' 1%nat)) !! V4 10 0 0 7 = Some (1000, Tx 1)).
  { eexists. split; vm_compute; reflexivity. }
  destruct H as (ps' & Hrun%polled_run_rtc & Hroute).
  destruct (polled_network_refines (λ _, 0) ring ring_states ps' ring_states_fresh) as (_ & S' & Hr & Hs); [|exact Hrun|].
  { intros i n Hw. destruct ring_started as (_ & _ & H). specialize (H i n Hw). cbn [peers ring_net] in H. unfold ring_states. by destruct (decide (i = 0%nat)). }
  exists ps', S'. split; [exact Hrun|]. split; [exact Hr|]. destruct (Hs 1%nat) as (_ & <- & _). exact Hroute.
Defined.

(** The announcing task of node 0 at its first poll. *)
Lemma node_tasks_go_on_witness : ∃ sleep' cx',
  periodic_poll (str_bytes "P") (AnnounceIpv4 [10; 0; 0; 7]) 4 (RyAttempt tt) (ctx (ring_states 0%nat)) = Some (Ret (Pending, RySleep sleep', cx'))
  ∧ queued (store (env cx')) (Switch 0) = [SendToAll (ipv4_announcement 1000 [10; 0; 0; 7])]
  ∧ from_secs 5 <= target sleep' <= from_secs 10.
Proof.
  destruct (proj2 (proj2 (proj2 (node_tasks_go_on (λ _, 0) (ctx (ring_states 0%nat))))) (str_bytes "P") (AnnounceIpv4 [10; 0; 0; 7]) 4%nat (RyAttempt tt))
    as (sleep' & cx' & Hp & _ & _ & Hs & Hpause).
  - split; [exact rng_new_wf|done].
  - intros n. change (from_secs (Z.of_nat (S n)) < from_secs (Z.of_nat n) + from_secs 5). unfold from_secs. lia.
  - lia.
  - exists sleep', cx'. split; [exact Hp|]. split; [rewrite Hs; vm_compute; reflexivity|]. exact Hpause.
Defined.
