(* ===== verification/MeshRoutes.v ===== *)
(** The routes of a mesh ([Mesh]): in every reachable state, following the routes
    to an address never comes back to a node, and ends at a node that owns it.

    The proof orders the nodes, for each address and time of an announcement, by
    when they first emitted or accepted an announcement of that address and
    time: a route always points to a node that did so earlier, or that knows a
    newer announcement. *)
From stdpp Require Import functions.
From S2P Require Import Prelude IpAddr SeenPackets Channel AllSenders World Framing MeshNode Mesh.

(** ** First positions in a list *)

Section idx.
Context {A : Type} `{!EqDecision A}.

Fixpoint idx (x : A) (l : list A) : nat :=
  match l with [] => 0%nat | y :: l => if decide (y = x) then 0%nat else S (idx x l) end.

Lemma idx_app_in x l k : x ∈ l → idx x (l ++ k) = idx x l.
Proof.
  induction l as [|y l IH]; [by intros ?%elem_of_nil|]. intros Hx. cbn [app idx]. case_decide; [done|].
  f_equal. apply IH. by apply elem_of_cons in Hx as [->|].
Qed.

Lemma idx_app_notin x l k : x ∉ l → idx x (l ++ k) = (length l + idx x k)%nat.
Proof.
  induction l as [|y l IH]; [done|]. rewrite not_elem_of_cons. intros [Hne Hx]. cbn [app idx length].
  rewrite decide_False by congruence. by rewrite IH.
Qed.

Lemma idx_lt x l : x ∈ l ↔ (idx x l < length l)%nat.
Proof.
  split; [|intros Hlt; destruct (decide (x ∈ l)) as [|Hn]; [done|]; pose proof (idx_app_notin x l [] Hn) as E;
    rewrite app_nil_r in E; lia].
  induction l as [|y l IH]; [by intros ?%elem_of_nil|]. intros Hx. cbn [idx length]. case_decide; [lia|].
  apply elem_of_cons in Hx as [->|Hx]; [done|]. specialize (IH Hx). lia.
Qed.
End idx.

Lemma length_filter_lt {A} (P Q : A → Prop) `{∀ x, Decision (P x), ∀ x, Decision (Q x)} (l : list A) y :
  (∀ x, P x → Q x) → y ∈ l → Q y → ¬ P y → (length (filter P l) < length (filter Q l))%nat.
Proof.
  intros HPQ. assert (Hle : ∀ l : list A, (length (filter P l) <= length (filter Q l))%nat).
  { clear y l. intros l. induction l as [|x l IH]; [done|]. rewrite !filter_cons.
    destruct (decide (P x)) as [HP|]; [rewrite decide_True by auto; cbn; lia|]. destruct (decide (Q x)); cbn; lia. }
  induction l as [|x l IH]; [by intros ?%elem_of_nil|]. intros Hy HQ HP. rewrite !filter_cons.
  specialize (Hle l). apply elem_of_cons in Hy as [->|Hy].
  - rewrite (decide_False (P := P x)), (decide_True (P := Q x)) by done. cbn. lia.
  - specialize (IH Hy HQ HP). destruct (decide (P x)) as [HPx|]; [rewrite decide_True by auto; cbn; lia|].
    destruct (decide (Q x)); cbn; lia.
Qed.

Section routes.
Context (fx_hash : bytes → Z) (wire : nat → nat → option (nat * nat)).
Implicit Types (s : Net) (x : Peer) (i j : nat) (a : IpAddr) (t : Z) (link : byte_tx).

(** ** What nodes know *)

Definition said_log s : list (nat * (IpAddr * Z)) := omap (λ e, (e.1,.) <$> e.2.2) (log s).
(** Node [i] has emitted or accepted an announcement of [a] as of [t]. *)
Definition said s i a t : Prop := (i, (a, t)) ∈ said_log s.
Definition when s i a t : nat := idx (i, (a, t)) (said_log s).

Definition owns s i a : Prop := a ∈ our_ips (node (peers s i)).
(** Node [i] can pass on traffic as an announcement of [a] as of [t] promises. *)
Definition served s i a t : Prop := owns s i a ∨ ∃ r, rt (peers s i) !! a = Some r ∧ t <= r.1.
(** ... or will be, when its switchboard has handled [q]. *)
Definition pending s i a t (q : list (AllSendersMessage byte_tx)) : Prop :=
  served s i a t ∨ ∃ link, AddFastestTo t a link ∈ q.

(** The node at the other end of [link]. *)
Definition across i link j : Prop := ∃ n m, link = Tx n ∧ wire i n = Some (j, m).
Definition heard_from s i link a t : Prop := ∃ j, across i link j ∧ said s j a t ∧ served s j a t.
Definition earlier s i link a t : Prop := ∃ j, across i link j ∧ (when s j a t < when s i a t)%nat.

(** A message in the switchboard's queue of [i], behind the messages [q]. *)
Definition msg_ok s i (q : list (AllSendersMessage byte_tx)) (msg : AllSendersMessage byte_tx) : Prop :=
  match msg with
  | AddFastestTo t a link => said s i a t ∧ heard_from s i link a t ∧ (pending s i a t q ∨ earlier s i link a t)
  | SendToAll p => ∀ a t, announces p a t → said s i a t ∧ pending s i a t q
  | SendToFastest _ p => ∀ a t, ¬ announces p a t
  | _ => True
  end.
Definition queue_ok s i (q : list (AllSendersMessage byte_tx)) : Prop :=
  ∀ q1 msg q2, q = q1 ++ msg :: q2 → msg_ok s i q1 msg.

(** The invariant, for one node [x], the [i]-th, of the network [s]. *)
Record node_inv s i x : Prop := MkNodeInv {
  inv_peer : peer_ok x;
  inv_tun : ∀ n, wire i n ≠ None → is_link x n;
  inv_links : ∀ n p a t, wire i n ≠ None → p ∈ lq x n → announces p a t → said s i a t ∧ served s i a t;
  inv_inq : ∀ p link a t, (p, link) ∈ inq x → announces p a t → heard_from s i link a t;
  inv_swq : queue_ok s i (swq x);
  inv_rt : ∀ a t link, rt x !! a = Some (t, link) →
             said s i a t ∧ heard_from s i link a t ∧ (owns s i a ∨ earlier s i link a t);
  inv_log : ∀ a t, said s i a t → pending s i a t (swq x);
}.
Definition inv s : Prop := ∀ i, node_inv s i (peers s i).

(** ** Knowledge only grows *)

Definition extends s s' : Prop :=
  (∃ k, said_log s' = said_log s ++ k)
  ∧ (∀ i, our_ips (node (peers s' i)) = our_ips (node (peers s i)))
  ∧ (∀ i a r, rt (peers s i) !! a = Some r → ∃ r', rt (peers s' i) !! a = Some r' ∧ r.1 <= r'.1).

Lemma said_mono s s' i a t : extends s s' → said s i a t → said s' i a t.
Proof. intros [[k E] _]. unfold said. rewrite E, elem_of_app. tauto. Qed.

Lemma when_mono s s' i a t : extends s s' → said s i a t → when s' i a t = when s i a t.
Proof. intros [[k E] _] H. unfold when. rewrite E. by apply idx_app_in. Qed.

Lemma owns_mono s s' i a : extends s s' → owns s' i a ↔ owns s i a.
Proof. intros (_ & E & _). unfold owns. by rewrite E. Qed.

Lemma served_mono s s' i a t : extends s s' → served s i a t → served s' i a t.
Proof.
  intros Hext [Ho|(r & Hr & Ht)]; [left; by eapply owns_mono|right].
  destruct Hext as (_ & _ & E). destruct (E i a r Hr) as (r' & ? & ?). exists r'. split; [done|lia].
Qed.

Lemma pending_mono s s' i a t q : extends s s' → pending s i a t q → pending s' i a t q.
Proof. intros Hext [H|H]; [left; by eapply served_mono|by right]. Qed.

Lemma heard_from_mono s s' i link a t : extends s s' → heard_from s i link a t → heard_from s' i link a t.
Proof. intros Hext (j & ? & ? & ?). exists j. split_and!; [done|by eapply said_mono|by eapply served_mono]. Qed.

Lemma earlier_mono s s' i link a t :
  extends s s' → said s i a t → earlier s i link a t → earlier s' i link a t.
Proof.
  intros Hext Hi (j & Hj & Hlt). exists j. split; [done|]. rewrite (when_mono s s' i) by done.
  rewrite (when_mono s s' j); [done|done|]. unfold when in *. apply idx_lt in Hi.
  apply idx_lt. lia.
Qed.

Lemma msg_ok_mono s s' i q msg : extends s s' → msg_ok s i q msg → msg_ok s' i q msg.
Proof.
  intros Hext. destruct msg as [l|t a l|a d|d|]; cbn; try done.
  - intros (H1 & H2 & H3). split_and!; [by eapply said_mono|by eapply heard_from_mono|].
    destruct H3; [left; by eapply pending_mono|right; by eapply earlier_mono].
  - intros H a t Ha. destruct (H a t Ha). split; [by eapply said_mono|by eapply pending_mono].
Qed.

Lemma queue_ok_mono s s' i q : extends s s' → queue_ok s i q → queue_ok s' i q.
Proof. intros Hext H q1 msg q2 E. eapply msg_ok_mono; [done|by eapply H]. Qed.

Lemma node_inv_mono s s' i x :
  extends s s' → (∀ a t, said s' i a t → said s i a t) → node_inv s i x → node_inv s' i x.
Proof.
  intros Hext Hnew []. split; try done.
  - intros n p a t Hn Hp Ha. destruct (inv_links0 n p a t Hn Hp Ha). split; [by eapply said_mono|by eapply served_mono].
  - intros p link a t Hp Ha. eapply heard_from_mono; [done|by eapply inv_inq0].
  - by eapply queue_ok_mono.
  - intros a t link Hr. destruct (inv_rt0 a t link Hr) as (H1 & H2 & H3).
    split_and!; [by eapply said_mono|by eapply heard_from_mono|].
    destruct H3; [left; by eapply owns_mono|right; by eapply earlier_mono].
  - intros a t H. eapply pending_mono; [done|]. by apply inv_log0, Hnew.
Qed.

(** ** Queues *)

Lemma pending_app s i a t q q' : pending s i a t q → pending s i a t (q ++ q').
Proof. intros [H|[l H]]; [by left|right]. exists l. apply elem_of_app. by left. Qed.

Lemma queue_ok_nil s i : queue_ok s i [].
Proof. by intros [|? ?] msg q2. Qed.

Lemma queue_ok_snoc s i q msg : queue_ok s i q → msg_ok s i q msg → queue_ok s i (q ++ [msg]).
Proof.
  intros Hq Hm q1 m q2 E. destruct q2 as [|y q2 _] using rev_ind.
  - apply app_inj_tail in E as [<- <-]. exact Hm.
  - rewrite app_comm_cons, app_assoc in E. apply app_inj_tail in E as [-> _]. by eapply Hq.
Qed.

Lemma harmless_ok s i q msg : harmless msg → msg_ok s i q msg.
Proof. destruct msg; cbn; [done|done|done| |done]. intros H a t Ha. by destruct (H a t). Qed.

Lemma queue_ok_harmless s i q msgs : queue_ok s i q → Forall harmless msgs → queue_ok s i (q ++ msgs).
Proof.
  intros Hq Hm. revert q Hq. induction Hm as [|m msgs Hm _ IH]; intros q Hq; [by rewrite app_nil_r|].
  rewrite cons_middle, app_assoc. apply IH, queue_ok_snoc; [done|by apply harmless_ok].
Qed.

(** The head of the queue has been handled. *)
Lemma queue_ok_tail s i msg q :
  (∀ t a link, msg = AddFastestTo t a link → served s i a t) → queue_ok s i (msg :: q) → queue_ok s i q.
Proof.
  intros Hserved Hq q1 m q2 ->. specialize (Hq (msg :: q1) m q2 eq_refl).
  assert (Hp : ∀ a t, pending s i a t (msg :: q1) → pending s i a t q1).
  { intros a t [H|[l [<-|H]%elem_of_cons]]; [by left|left; by eapply Hserved|right; by exists l]. }
  destruct m as [l|t a l|a d|d|]; cbn in *; try done.
  - destruct Hq as (H1 & H2 & [H3|H3]); split_and!; auto.
  - intros a t Ha. destruct (Hq a t Ha). auto.
Qed.

(** ** One step of a node *)

Definition update s i x' (k : list (nat * note)) : Net := MkNet (<[i := x']> (peers s)) (log s ++ k).

Lemma peers_update_eq s i x' k : peers (update s i x' k) i = x'.
Proof. cbn. by rewrite fn_lookup_insert. Qed.
Lemma peers_update_ne s i x' k j : j ≠ i → peers (update s i x' k) j = peers s j.
Proof. intros. cbn. by rewrite fn_lookup_insert_ne. Qed.
Lemma said_log_update s i x' k : said_log (update s i x' k) = said_log s ++ omap (λ e, (e.1,.) <$> e.2.2) k.
Proof. apply omap_app. Qed.

Definition routes_grow x x' : Prop := ∀ a r, rt x !! a = Some r → ∃ r', rt x' !! a = Some r' ∧ r.1 <= r'.1.

Lemma update_extends s i x' k :
  our_ips (node x') = our_ips (node (peers s i)) → routes_grow (peers s i) x' → extends s (update s i x' k).
Proof.
  intros Hour Hrt. split_and!.
  - rewrite said_log_update. eauto.
  - intros j. destruct (decide (j = i)) as [->|]; [by rewrite peers_update_eq|by rewrite peers_update_ne].
  - intros j a r Hr. destruct (decide (j = i)) as [->|].
    + rewrite peers_update_eq. by apply Hrt.
    + rewrite peers_update_ne by done. exists r. split; [done|lia].
Qed.

Lemma same_task_grows x x' : task x' = task x → routes_grow x x'.
Proof. intros E a r Hr. unfold rt. rewrite E. exists r. split; [exact Hr|lia]. Qed.

Lemma inv_update s i x' k :
  inv s → our_ips (node x') = our_ips (node (peers s i)) → routes_grow (peers s i) x' → Forall (λ e, e.1 = i) k →
  node_inv (update s i x' k) i x' → inv (update s i x' k).
Proof.
  intros Hinv Hour Hrt Hk Hx j. destruct (decide (j = i)) as [->|Hne]; [by rewrite peers_update_eq|].
  rewrite peers_update_ne by done. eapply node_inv_mono; [by apply update_extends| |apply Hinv].
  intros a t. unfold said. rewrite said_log_update, elem_of_app. intros [H|H]; [done|].
  apply list_elem_of_omap in H as (e & He & Hs). eapply list.Forall_forall in Hk; [|exact He].
  destruct e as [j' [d o]]. cbn in Hk, Hs. subst j'. destruct o; [|done]. by injection Hs as <- _.
Qed.

(** Losing packets and links does no harm. *)
Lemma node_inv_sub s i x x' :
  node_inv s i x → peer_ok x' → same_config x x' → (∀ e, e ∈ inq x' → e ∈ inq x) → swq x' = swq x → task x' = task x →
  (∀ n p, wire i n ≠ None → p ∈ lq x' n → p ∈ lq x n) → node_inv s i x'.
Proof.
  intros [] Hok (_ & _ & _ & Htun) Hi Hs Ht Hl. split; [done| | | | | |].
  - intros n Hn. unfold is_link. rewrite Htun. by apply inv_tun0.
  - intros n p a t Hn Hp. eapply inv_links0; eauto.
  - intros p link a t Hp. eapply inv_inq0; eauto.
  - by rewrite Hs.
  - intros a t link. unfold rt. rewrite Ht. apply inv_rt0.
  - by rewrite Hs.
Qed.

(** What an entry of the log says. *)
Lemma said_update s i x' data o a t :
  said (update s i x' [(i, (data, o))]) i a t ↔ said s i a t ∨ o = Some (a, t).
Proof.
  unfold said. rewrite said_log_update, elem_of_app. cbn. destruct o as [[a' t']|]; cbn.
  - rewrite list_elem_of_singleton. split; (intros [H|H]; [by left|right]); [injection H as -> ->; done|injection H as -> ->; done].
  - rewrite elem_of_nil. split; [intros [H|[]]; by left|intros [H|?]; [by left|done]].
Qed.

(** The first announcement of [a] as of [t] at a node comes after the one it was
    heard from. *)
Lemma heard_earlier s i x' data link a t :
  extends s (update s i x' [(i, (data, Some (a, t)))]) → ¬ said s i a t → heard_from s i link a t →
  earlier (update s i x' [(i, (data, Some (a, t)))]) i link a t.
Proof.
  intros Hext Hnew (j & Hj & Hs & _). exists j. split; [done|]. rewrite (when_mono s) by done.
  unfold when at 2. rewrite said_log_update, idx_app_notin by done. apply idx_lt in Hs. unfold when. lia.
Qed.

Lemma accept_inv s i x' fuel data link body :
  let x := peers s i in let s' := update s i x' [(i, (data, says fuel data))] in
  node_inv s i x → peer_ok x' → same_config x x' →
  inq x = (data, link) :: inq x' → (9 <= length data)%nat → decode fuel (data !!! 8%nat) (drop 9 data) = Some body →
  swq x' = swq x ++ to_switch (effects (node x) (from_le_bytes (take 8 data)) body data link) →
  task x' = task x → (∀ n, is_link x n → lq x' n = lq x n) → node_inv s' i x'.
Proof.
  intros x s' Hinv Hok Hcfg Hi Hlen Hdec Hsw Ht Hl. set (ms := from_le_bytes (take 8 data)) in *.
  assert (Hext : extends s s') by (apply update_extends; [apply Hcfg|by apply same_task_grows]).
  destruct Hinv. pose proof Hcfg as (_ & _ & _ & Htun). split; [done| | | | | |].
  - intros n Hn. unfold is_link. rewrite Htun. by apply inv_tun0.
  - intros n p a t Hn Hp Ha. rewrite Hl in Hp by auto. destruct (inv_links0 n p a t Hn Hp Ha).
    split; [by eapply said_mono|by eapply served_mono].
  - intros p l a t Hp Ha. eapply heard_from_mono; [exact Hext|]. eapply inv_inq0; [|exact Ha]. rewrite Hi. by apply elem_of_cons; right.
  - rewrite Hsw. assert (Hq : queue_ok s' i (swq x)) by (by eapply queue_ok_mono).
    destruct body as [a| |dst ip| |]; cbn [effects to_switch]; rewrite ?app_nil_r; [| | |exact Hq|exact Hq].
    + assert (Hsays : says fuel data = Some (a, ms)) by (unfold says; by rewrite Hdec).
      assert (Hann : announces data a ms) by (split; [done|by exists fuel]).
      assert (Hheard : heard_from s i link a ms).
      { eapply inv_inq0; [|exact Hann]. rewrite Hi. apply list_elem_of_here. }
      assert (Hsaid : said s' i a ms) by (apply said_update; by right).
      rewrite cons_middle, app_assoc. apply queue_ok_snoc; [apply queue_ok_snoc; [done|]|].
      * cbn. split_and!; [done|by eapply heard_from_mono|].
        destruct (decide ((i, (a, ms)) ∈ said_log s)) as [Hold|Hnew].
        -- left. eapply pending_mono; [exact Hext|]. by apply inv_log0.
        -- right. unfold s' in *. rewrite Hsays in *. by apply heard_earlier.
      * cbn. intros a' t' Ha'. destruct (announces_det _ _ _ _ _ Ha' Hann) as [-> ->]. split; [done|].
        right. exists link. apply elem_of_app. right. apply list_elem_of_here.
    + apply queue_ok_snoc; [done|]. cbn. intros a t Ha. by destruct (announces_decode _ _ _ _ _ Hdec Ha) as [? _].
    + destruct (bool_decide _); [by rewrite app_nil_r|]. apply queue_ok_snoc; [done|]. cbn. intros a t.
      by eapply traffic_decode_not_announced.
  - intros a t l Hr. unfold rt in Hr. rewrite Ht in Hr. destruct (inv_rt0 a t l Hr) as (H1 & H2 & H3).
    split_and!; [by eapply said_mono|by eapply heard_from_mono|].
    destruct H3; [left; by eapply owns_mono|right; by eapply earlier_mono].
  - intros a t [Hold|Hnew]%said_update; rewrite Hsw.
    + apply pending_app. eapply pending_mono; [exact Hext|]. by apply inv_log0.
    + unfold says in Hnew. rewrite Hdec in Hnew. destruct body; try done. injection Hnew as -> <-.
      right. exists link. apply elem_of_app. right. apply list_elem_of_here.
Qed.

(** The routing table after a message: only an announcement changes it, and only
    for a newer time. *)
Lemma handle_rt (task : TaskState byte_tx) (w : world) msg :
  let task' := (handle task w msg).1 in
  fastest_to_address task' = fastest_to_address task
  ∨ ∃ t a link, msg = AddFastestTo t a link
      ∧ fastest_to_address task' = <[a := (t, link)]> (fastest_to_address task)
      ∧ ∀ r, fastest_to_address task !! a = Some r → r.1 < t.
Proof.
  destruct msg as [l|t a l|a d|d|]; cbn [handle]; [by left| | |by left|].
  - destruct (fastest_to_address task !! a) as [[t0 l0]|] eqn:E.
    + destruct (Z.leb_spec t t0); [by left|]. right. exists t, a, l. split_and!; [done|done|].
      intros r. rewrite E. by intros [= <-].
    + right. exists t, a, l. split_and!; [done|done|]. intros r. by rewrite E.
  - left. by destruct (fastest_to_address task !! a) as [[t0 l0]|].
  - left. by destruct (retain_open (senders task) 0 w) as [[ss n] w'].
Qed.

Lemma handle_grows (task : TaskState byte_tx) (w : world) msg a r :
  fastest_to_address task !! a = Some r →
  ∃ r', fastest_to_address (handle task w msg).1 !! a = Some r' ∧ r.1 <= r'.1.
Proof.
  intros Hr. destruct (handle_rt task w msg) as [->|(t & a' & l & -> & -> & Hnew)]; [exists r; split; [done|lia]|].
  destruct (decide (a' = a)) as [->|Hne].
  - rewrite lookup_insert_eq. eexists. split; [done|]. specialize (Hnew r Hr). cbn. lia.
  - rewrite lookup_insert_ne by done. exists r. split; [done|lia].
Qed.

(** Once an announcement has been handled, there is a route as new. *)
Lemma handle_announced (task : TaskState byte_tx) (w : world) t a link :
  ∃ r, fastest_to_address (handle task w (AddFastestTo t a link)).1 !! a = Some r ∧ t <= r.1.
Proof.
  cbn [handle]. destruct (fastest_to_address task !! a) as [[t0 l0]|] eqn:E.
  - destruct (Z.leb_spec t t0); cbn [fst fastest_to_address]; [by exists (t0, l0)|].
    rewrite lookup_insert_eq. eexists. split; [done|]. cbn. lia.
  - cbn [fst fastest_to_address]. rewrite lookup_insert_eq. eexists. split; [done|]. cbn. lia.
Qed.

(** The switchboard puts on links only what the message carries, or nothing. *)
Lemma handle_links (task : TaskState byte_tx) (w : world) msg (c : byte_tx) p :
  p ∈ queued (handle task w msg).2 c → p ∈ queued w c ∨ p = [] ∨ carries msg p.
Proof.
  destruct msg as [l|t a l|a d|d|]; cbn [handle]; [by left| | | |].
  - destruct (fastest_to_address task !! a) as [[t0 l0]|]; [destruct (t <=? t0)|]; by left.
  - destruct (fastest_to_address task !! a) as [[t0 l0]|]; cbn [snd]; [|by left].
    rewrite send_queued, elem_of_app. intros [H|H]; [by left|]. right; right.
    destruct (decide (c = l0)); [destruct (is_open w l0)|]; [|by apply elem_of_nil in H..]. by apply list_elem_of_singleton in H.
  - cbn [snd]. rewrite (proj1 (send_each_spec (senders task) d w c)), elem_of_app. intros [H|H]; [by left|].
    right; right. destruct (is_open w c); [|by apply elem_of_nil in H]. by apply elem_of_replicate_inv in H.
  - destruct (retain_open (senders task) 0 w) as [[ss n] w'] eqn:E. apply retain_open_spec in E as (_ & _ & Hq). cbn [snd].
    rewrite (proj1 (Hq c)), elem_of_app. intros [H|H]; [by left|]. right; left.
    destruct (is_open w c); [|by apply elem_of_nil in H]. by apply elem_of_replicate_inv in H.
Qed.

Lemma serve_inv s i x' msg w w' :
  let x := peers s i in let s' := update s i x' [] in
  node_inv s i x → peer_ok x' → same_config x x' →
  swq x = msg :: swq x' → handle (task x) w msg = (task x', w') → inq x' = inq x →
  (∀ n, lq x n = queued w (Tx n) ∧ lq x' n = queued w' (Tx n)) →
  extends s s' ∧ node_inv s' i x'.
Proof.
  intros x s' Hinv Hok Hcfg Hsw Hh Hi Hl.
  assert (Ht : task x' = (handle (task x) w msg).1) by by rewrite Hh.
  assert (Hext : extends s s').
  { apply update_extends; [apply Hcfg|]. intros a r Hr. unfold rt. rewrite Ht. by apply handle_grows. }
  split; [exact Hext|]. destruct Hinv. pose proof Hcfg as (_ & _ & _ & Htun).
  assert (Hhead : msg_ok s i [] msg) by (by eapply inv_swq0).
  assert (Hnil : ∀ a t, pending s i a t [] → served s i a t) by (intros a t [H|[l H]]; [done|by apply elem_of_nil in H]).
  assert (Hadd : ∀ t a link, msg = AddFastestTo t a link → served s' i a t).
  { intros t a link ->. right. unfold s'. rewrite peers_update_eq. unfold rt. rewrite Ht. apply handle_announced. }
  split; [done| | | | | |].
  - intros n Hn. unfold is_link. rewrite Htun. by apply inv_tun0.
  - intros n p a t Hn Hp Ha. destruct (Hl n) as [E E']. rewrite E' in Hp.
    replace w' with (handle (task x) w msg).2 in Hp by by rewrite Hh.
    apply handle_links in Hp as [Hp|[->|Hc]].
    + rewrite <- E in Hp. destruct (inv_links0 n p a t Hn Hp Ha). split; [by eapply said_mono|by eapply served_mono].
    + destruct (short_not_announced [] a t); [cbn; lia|done].
    + destruct msg as [l|t' a' l|a' d|d|]; cbn in Hc, Hhead; try done; subst d.
      * by destruct (Hhead a t).
      * destruct (Hhead a t Ha) as [H1 H2]. split; [by eapply said_mono|eapply served_mono; [exact Hext|auto]].
  - intros p l a t Hp Ha. rewrite Hi in Hp. eapply heard_from_mono; [exact Hext|by eapply inv_inq0].
  - eapply (queue_ok_tail s' i msg); [exact Hadd|]. rewrite <- Hsw. by eapply queue_ok_mono.
  - intros a t l Hr. unfold rt in Hr. rewrite Ht in Hr.
    destruct (handle_rt (task x) w msg) as [E|(t' & a' & l' & -> & E & Hnew)]; rewrite E in Hr.
    2: destruct (decide (a' = a)) as [->|Hne]; [rewrite lookup_insert_eq in Hr; injection Hr as -> ->|rewrite lookup_insert_ne in Hr by done].
    2: { destruct Hhead as (H1 & H2 & H3). split_and!; [by eapply said_mono|by eapply heard_from_mono|].
         destruct H3 as [[[Ho|(r & Hr & Hle)]|[l' Hnl]]|He].
         - left. by eapply owns_mono.
         - specialize (Hnew r Hr). lia.
         - by apply elem_of_nil in Hnl.
         - right. by eapply earlier_mono. }
    all: destruct (inv_rt0 a t l Hr) as (H1 & H2 & H3); split_and!; [by eapply said_mono|by eapply heard_from_mono|];
      destruct H3; [left; by eapply owns_mono|right; by eapply earlier_mono].
  - intros a t Hs. unfold said, s' in Hs. rewrite said_log_update in Hs. cbn in Hs. rewrite app_nil_r in Hs.
    destruct (inv_log0 a t Hs) as [H|[l H]]; [left; by eapply served_mono|].
    rewrite Hsw in H. apply elem_of_cons in H as [H|H]; [left; symmetry in H; by eapply Hadd|right; by exists l].
Qed.

Lemma emit_inv s i x' data o :
  let x := peers s i in let s' := update s i x' [(i, (data, o))] in
  node_inv s i x → peer_ok x' → same_config x x' →
  inq x' = inq x → swq x' = swq x ++ [SendToAll data] → task x' = task x → (∀ n, lq x' n = lq x n) →
  (∀ a t, announces data a t → o = Some (a, t) ∧ owns s i a) → (∀ a t, o = Some (a, t) → announces data a t) →
  node_inv s' i x'.
Proof.
  intros x s' Hinv Hok Hcfg Hi Hsw Ht Hl Ho Ho'.
  assert (Hext : extends s s') by (apply update_extends; [apply Hcfg|by apply same_task_grows]).
  destruct Hinv. pose proof Hcfg as (_ & _ & _ & Htun). split; [done| | | | | |].
  - intros n Hn. unfold is_link. rewrite Htun. by apply inv_tun0.
  - intros n p a t Hn Hp Ha. rewrite Hl in Hp. destruct (inv_links0 n p a t Hn Hp Ha).
    split; [by eapply said_mono|by eapply served_mono].
  - intros p l a t Hp Ha. rewrite Hi in Hp. eapply heard_from_mono; [exact Hext|by eapply inv_inq0].
  - rewrite Hsw. apply queue_ok_snoc; [by eapply queue_ok_mono|]. cbn. intros a t Ha. destruct (Ho a t Ha) as [-> Hown].
    split; [apply said_update; by right|]. left; left. by eapply owns_mono.
  - intros a t l Hr. unfold rt in Hr. rewrite Ht in Hr. destruct (inv_rt0 a t l Hr) as (H1 & H2 & H3).
    split_and!; [by eapply said_mono|by eapply heard_from_mono|].
    destruct H3; [left; by eapply owns_mono|right; by eapply earlier_mono].
  - intros a t [Hold|Hnew]%said_update; rewrite Hsw.
    + apply pending_app. eapply pending_mono; [exact Hext|]. by apply inv_log0.
    + left; left. eapply owns_mono; [exact Hext|]. by eapply Ho, Ho'.
Qed.

Lemma send_inv s i x' msgs :
  let x := peers s i in
  node_inv s i x → peer_ok x' → same_config x x' →
  inq x' = inq x → swq x' = swq x ++ msgs → Forall harmless msgs → task x' = task x → (∀ n, lq x' n = lq x n) →
  node_inv (update s i x' []) i x'.
Proof.
  intros x Hinv Hok Hcfg Hi Hsw Hm Ht Hl.
  assert (Hext : extends s (update s i x' [])) by (apply update_extends; [apply Hcfg|by apply same_task_grows]).
  eapply (node_inv_mono s); [exact Hext|intros a t; unfold said; rewrite said_log_update; cbn; by rewrite app_nil_r|].
  destruct Hinv. pose proof Hcfg as (_ & _ & _ & Htun). split; [done| | | | | |].
  - intros n Hn. unfold is_link. rewrite Htun. by apply inv_tun0.
  - intros n p a t Hn. rewrite Hl. by apply inv_links0.
  - intros p l a t. rewrite Hi. by apply inv_inq0.
  - rewrite Hsw. by apply queue_ok_harmless.
  - intros a t link. unfold rt. rewrite Ht. apply inv_rt0.
  - intros a t Hs. rewrite Hsw. by apply pending_app, inv_log0.
Qed.

Lemma update_nil_inv s i x' :
  node_inv s i x' → extends s (update s i x' []) → node_inv (update s i x' []) i x'.
Proof.
  intros Hinv Hext. eapply (node_inv_mono s); [exact Hext| |exact Hinv].
  intros a t. unfold said. rewrite said_log_update. cbn. by rewrite app_nil_r.
Qed.

Lemma effect_inv s i e x' :
  inv s → peer_ok x' → same_config (peers s i) x' → effect (peers s i) x' e →
  inv (update s i x' (from_option (λ n, [(i, n)]) [] e)).
Proof.
  intros Hinv Hok Hcfg He. pose proof (Hinv i) as Hi.
  assert (Hour : our_ips (node x') = our_ips (node (peers s i))) by apply Hcfg.
  assert (Hquiet : task x' = task (peers s i) → extends s (update s i x' [])).
  { intros Ht. apply update_extends; [done|by apply same_task_grows]. }
  destruct He as [data link Hq Hs Ht Hl|fuel data link body Hq Hlen Hdec Hs Ht Hl|msg w w' Hs Hh Hq Hl
    |data o Hq Hs Ht Hl Ho Ho'|msgs Hq Hs Hm Ht Hl|Hq Hs Ht Hl]; cbn [from_option].
  - apply inv_update; [done|done|by apply same_task_grows|constructor|]. apply update_nil_inv; [|auto].
    eapply node_inv_sub; [exact Hi|done|done| |done|done|].
    + intros e He. rewrite Hq. by apply elem_of_cons; right.
    + intros n p _. by rewrite Hl.
  - apply inv_update; [done|done|by apply same_task_grows|by constructor|]. by eapply accept_inv.
  - destruct (serve_inv s i x' msg w w' Hi Hok Hcfg Hs Hh Hq) as [Hext Hx]; [intros n; destruct (Hl n) as (? & ? & _); done|].
    apply inv_update; [done|done| |constructor|exact Hx].
    intros a r Hr. destruct Hext as (_ & _ & Hext). specialize (Hext i a r Hr). by rewrite peers_update_eq in Hext.
  - apply inv_update; [done|done|by apply same_task_grows|by constructor|]. by apply emit_inv.
  - apply inv_update; [done|done|by apply same_task_grows|constructor|]. by eapply send_inv.
  - apply inv_update; [done|done|by apply same_task_grows|constructor|]. apply update_nil_inv; [|auto].
    eapply node_inv_sub; [exact Hi|done|done|by rewrite Hq|done|done|].
    intros n p _ Hp. destruct (Hl n) as [E|[E|E]].
    + by rewrite <- E.
    + rewrite <- E in Hp. destruct (lq (peers s i) n); [done|]. by apply elem_of_cons; right.
    + rewrite E in Hp. by apply elem_of_nil in Hp.
Qed.

Context (wire_sym : ∀ i n j m, wire i n = Some (j, m) → wire j m = Some (i, n)).

Lemma net_step_inv s s' : net_step fx_hash wire s s' → inv s → inv s'.
Proof.
  intros Hstep Hinv. destruct Hstep as [i e x' Hp|i n j m data x' Hw Htake Hne [Hb _] ps].
  - destruct (peer_step_effect fx_hash _ _ _ (inv_peer _ _ _ (Hinv i)) Hp) as (Hok & Hcfg & He).
    by apply (effect_inv s i e x').
  - destruct (take_link_effect _ _ _ _ (inv_peer _ _ _ (Hinv i)) Htake) as (Hok & Hcfg & Hq & Hs & Ht & Hl & Hl').
    assert (Hwn : wire i n ≠ None) by by rewrite Hw.
    assert (H1 : inv (update s i x' [])).
    { apply (effect_inv s i None x'); [done|done|done|]. apply eff_shrink; [done|done|done|].
      intros k. destruct (decide (k = n)) as [->|]; [right; left; by rewrite Hl|left; auto]. }
    assert (Hext1 : extends s (update s i x' [])) by (apply update_extends; [apply Hcfg|by apply same_task_grows]).
    set (s1 := update s i x' []) in *.
    destruct (arrive_spec (peers s1 j) data (Tx m) (inv_peer _ _ _ (H1 j)) Hb) as (Hok2 & Hcfg2 & Hs2 & Ht2 & Hl2 & Hq2).
    assert (E : MkNet (<[j := arrive data (Tx m) (ps j)]> ps) (log s) = update s1 j (arrive data (Tx m) (peers s1 j)) []).
    { unfold update, s1. cbn. by rewrite !app_nil_r. }
    rewrite E. apply inv_update; [done|apply Hcfg2|by apply same_task_grows|constructor|].
    apply update_nil_inv; [|apply update_extends; [apply Hcfg2|by apply same_task_grows]].
    destruct (H1 j). pose proof Hcfg2 as (_ & _ & _ & Htun). split; [done| | | | | |].
    + intros k Hk. unfold is_link. rewrite Htun. by apply inv_tun0.
    + intros k p a t Hk. rewrite Hl2. by apply inv_links0.
    + intros p link a t Hp Ha. destruct Hq2 as [E2|E2]; rewrite E2 in Hp; [by eapply inv_inq0|].
      apply elem_of_app in Hp as [Hp|[= -> ->]%list_elem_of_singleton]; [by eapply inv_inq0|].
      exists i. split; [exists m, n; split; [done|by apply wire_sym]|].
      destruct (inv_links _ _ _ (Hinv i) n data a t Hwn) as [H3 H4]; [rewrite Hl; apply list_elem_of_here|done|].
      split; [by eapply said_mono|by eapply served_mono].
    + by rewrite Hs2.
    + intros a t link. unfold rt. rewrite Ht2. apply inv_rt0.
    + by rewrite Hs2.
Qed.

Lemma started_inv s : net_started wire s → inv s.
Proof.
  intros (Hlog & Hst & Htun) i. destruct (Hst i) as (H1 & H2 & Ht & Ho & Hi & Hs & Hl).
  split; [by apply started_ok| | | | | |].
  - apply Htun.
  - intros n p a t Hn. rewrite (Hl n) by (by apply Htun). by intros ?%elem_of_nil.
  - intros p link a t. rewrite Hi. by intros ?%elem_of_nil.
  - rewrite Hs. apply queue_ok_nil.
  - intros a t link. unfold rt. rewrite Ht. done.
  - intros a t. unfold said, said_log. rewrite Hlog. by intros ?%elem_of_nil.
Qed.

Lemma reachable_inv s s' : net_started wire s → reachable fx_hash wire s s' → inv s'.
Proof.
  intros H0%started_inv Hr. revert H0. induction Hr as [s|s s1 s2 Hstep _ IH]; intros H0; [done|].
  by apply IH, (net_step_inv s).
Qed.

(** ** Following the routes *)

(** Traffic for [a] that node [i] does not keep goes to node [j]. *)
Definition next_hop s a i j : Prop := ¬ owns s i a ∧ ∃ t link, rt (peers s i) !! a = Some (t, link) ∧ across i link j.

(** The route of [j] is newer than that of [i], or [j] knew of its announcement
    earlier. *)
Definition ahead s a (e e' : nat * (IpAddr * Z)) : Prop :=
  e.2.2 < e'.2.2 ∨ e.2.2 = e'.2.2 ∧ (idx e' (said_log s) < idx e (said_log s))%nat.
#[local] Instance ahead_dec s a e e' : Decision (ahead s a e e').
Proof. unfold ahead. apply _. Defined.

(** The announcement behind the route of [i] to [a]. *)
Definition origin s a i (e : nat * (IpAddr * Z)) : Prop := ∃ t link, rt (peers s i) !! a = Some (t, link) ∧ e = (i, (a, t)).

Lemma origin_fun s a i e e' : origin s a i e → origin s a i e' → e = e'.
Proof. intros (t & l & H & ->) (t' & l' & H' & ->). congruence. Qed.

Lemma across_fun i link j j' : across i link j → across i link j' → j = j'.
Proof. intros (n & m & -> & H) (n' & m' & [= <-] & H'). congruence. Qed.

Lemma next_hop_ahead s a i j :
  inv s → next_hop s a i j → owns s j a ∨ ∃ e e', origin s a i e ∧ origin s a j e' ∧ ahead s a e e'.
Proof.
  intros Hinv (Hno & t & link & Hr & Hj). destruct (inv_rt _ _ _ (Hinv i) a t link Hr) as (_ & (j1 & Hj1 & _ & Hserved) & [?|(j2 & Hj2 & Hlt)]); [done|].
  rewrite <- (across_fun _ _ _ _ Hj Hj1) in Hserved. rewrite <- (across_fun _ _ _ _ Hj Hj2) in Hlt. clear j1 Hj1 j2 Hj2.
  destruct Hserved as [?|([t' link'] & Hr' & Hle)]; [by left|right].
  exists (i, (a, t)), (j, (a, t')). split_and!; [by exists t, link|by exists t', link'|].
  unfold ahead. cbn [fst snd] in *. destruct (decide (t < t')); [by left|right].
  assert (t' = t) as -> by lia. split; [done|exact Hlt].
Qed.

Lemma next_hops_not_owned s a i j : tc (next_hop s a) i j → ¬ owns s i a.
Proof. destruct 1 as [i j H|i k j H _]; apply H. Qed.

Lemma next_hops_ahead s a i j :
  inv s → tc (next_hop s a) i j → owns s j a ∨ ∃ e e', origin s a i e ∧ origin s a j e' ∧ ahead s a e e'.
Proof.
  intros Hinv. induction 1 as [i j H|i k j H Hkj IH]; [by apply next_hop_ahead|].
  pose proof (next_hops_not_owned _ _ _ _ Hkj) as Hk.
  destruct (next_hop_ahead s a i k Hinv H) as [?|(e1 & e2 & O1 & O2 & A)]; [done|].
  destruct IH as [?|(e3 & e4 & O3 & O4 & B)]; [by left|right]. rewrite <- (origin_fun _ _ _ _ _ O2 O3) in B.
  exists e1, e4. split_and!; [done|done|]. unfold ahead in *. lia.
Qed.

Lemma route_reaches s a :
  inv s → ∀ i e, origin s a i e →
  ∃ n o, nsteps (next_hop s a) n i o ∧ owns s o a ∧ (n <= S (length (filter (ahead s a e) (said_log s))))%nat.
Proof.
  intros Hinv i e. remember (length (filter (ahead s a e) (said_log s))) as k eqn:Hk. revert i e Hk.
  induction k as [k IH] using lt_wf_ind. intros i e Hk He.
  destruct (decide (a ∈ our_ips (node (peers s i)))) as [Ho|Ho].
  { exists 0%nat, i. split_and!; [constructor|done|lia]. }
  pose proof He as (t & link & Hr & ->).
  destruct (inv_rt _ _ _ (Hinv i) a t link Hr) as (_ & (j & Hj & _ & _) & _).
  assert (Hhop : next_hop s a i j) by (split; [done|by exists t, link]).
  destruct (next_hop_ahead s a i j Hinv Hhop) as [Hown|(e1 & e2 & O1 & O2 & A)].
  { exists 1%nat, j. split_and!; [by eapply nsteps_once|done|lia]. }
  rewrite <- (origin_fun _ _ _ _ _ He O1) in A.
  assert (Hlt : (length (filter (ahead s a e2) (said_log s)) < k)%nat).
  { subst k. apply (length_filter_lt _ _ _ e2).
    - intros x Hx. unfold ahead in *. lia.
    - destruct O2 as (t2 & l2 & Hr2 & ->). apply (inv_rt _ _ _ (Hinv j) a t2 l2 Hr2).
    - exact A.
    - unfold ahead. lia. }
  destruct (IH _ Hlt j e2 eq_refl O2) as (n & o & Hn & Hown & Hb).
  exists (S n), o. split_and!; [by eapply nsteps_l|done|lia].
Qed.

(** C1. Routing never loops, and leads home. In every state a network of nodes can
    reach from its start, whatever the order of the steps of their tasks and
    whichever links come, go and lose packets: following, from node to node,
    the routes to an address never comes back to a node that does not own it,
    and from any node that has a route it ends, after finitely many hops, at a
    node that owns the address. *)
Theorem routes_loop_free s0 s a :
  net_started wire s0 → reachable fx_hash wire s0 s →
  (∀ i, ¬ tc (next_hop s a) i i)
  ∧ (∀ i, is_Some (rt (peers s i) !! a) →
       ∃ n o, nsteps (next_hop s a) n i o ∧ owns s o a ∧ (n <= length (log s))%nat).
Proof.
  intros H0 Hr. pose proof (reachable_inv s0 s H0 Hr) as Hinv. split.
  - intros i Htc. pose proof (next_hops_not_owned _ _ _ _ Htc) as Hi.
    destruct (next_hops_ahead s a i i Hinv Htc) as [?|(e & e' & O & O' & A)]; [done|].
    rewrite (origin_fun _ _ _ _ _ O O') in A. unfold ahead in A. lia.
  - intros i [[t link] Hi]. assert (Ho : origin s a i (i, (a, t))) by (by exists t, link).
    destruct (route_reaches s a Hinv i _ Ho) as (n & o & Hn & Hown & Hb). exists n, o. split_and!; [done|done|].
    assert (Hmem : (i, (a, t)) ∈ said_log s) by apply (inv_rt _ _ _ (Hinv i) a t link Hi).
    assert (Hlt : (length (filter (ahead s a (i, (a, t))) (said_log s)) < length (filter (λ _, True) (said_log s)))%nat).
    { apply (length_filter_lt _ _ _ (i, (a, t))); [done|done|done|]. unfold ahead. lia. }
    pose proof (length_filter (λ _, True) (said_log s)) as Hle.
    assert (length (said_log s) <= length (log s))%nat; [|lia].
    unfold said_log. generalize (log s). intros l. clear. induction l as [|x l IH]; [done|]. destruct x as [j [d [e|]]]; cbn in *; lia.
Qed.
End routes.

(** ** Witness

    After the flood of [ring_flood], both other nodes have a route to 10.0.0.7,
    and so has its owner. *)
Lemma routes_loop_free_witness :
  ∃ s, reachable example_hash ring ring_net s
    ∧ (∀ i, ¬ tc (next_hop ring s (V4 10 0 0 7)) i i)
    ∧ ∃ n o, nsteps (next_hop ring s (V4 10 0 0 7)) n 1%nat o ∧ owns s o (V4 10 0 0 7).
Proof.
  assert (H : ∃ s, run example_hash ring (ring_links ++ ring_flood) ring_net = Some s
    ∧ is_Some (rt (peers s 1%nat) !! V4 10 0 0 7)).
  { exists (default ring_net (run example_hash ring (ring_links ++ ring_flood) ring_net)).
    split; [apply default_some; vm_compute; reflexivity|]. vm_compute. eexists. reflexivity. }
  destruct H as (s & Hrun & Hroute). pose proof (run_reachable _ _ _ _ _ Hrun) as Hr. exists s. split; [exact Hr|].
  destruct (routes_loop_free example_hash ring ring_sym ring_net s (V4 10 0 0 7) ring_started Hr) as [H1 H2].
  split; [exact H1|]. destruct (H2 1%nat Hroute) as (n & o & Hn & Ho & _). exists n, o. split; [exact Hn|exact Ho].
Defined.
