(* ===== verification/MeshFlood.v ===== *)
(** Floods in a mesh ([Mesh]): a packet that is broadcast reaches every node that
    the links connect, and leaves routes behind ([MeshRoutes]).

    While a flood is under way, links may be set up but those in use neither end
    nor lose packets, and no node drops the packet as too old or mistakes it
    for another one; the tasks of all nodes take their steps in any order. *)
From stdpp Require Import functions.
From S2P Require Import Prelude IpAddr SeenPackets Channel AllSenders World Framing MeshNode Mesh MeshRoutes.

Section flood.
Context (fx_hash : bytes → Z) (wire : nat → nat → option (nat * nat)).
Context (wire_sym : ∀ i n j m, wire i n = Some (j, m) → wire j m = Some (i, n)).
Implicit Types (s : Net) (x : Peer) (i j : nat) (p : bytes).

(** The link whose end at [x] is the channel [n] is in use: it is one of the
    switchboard's and its tasks run. *)
Definition up x (n : nat) : Prop := Tx n ∈ senders (task x) ∧ is_open (chans x) (Tx n) = true.

(** Node [i] has emitted or accepted [p]. *)
Definition got s p i : Prop := ∃ o, (i, (p, o)) ∈ log s.

(** A step during the flood of [p]. *)
Inductive steady_step (p : bytes) (s : Net) : Net → Prop :=
| steady_local i e x' :
    peer_step fx_hash (peers s i) e x' →
    (* no link in use ends or loses a packet *)
    (∀ n, up (peers s i) n → wire i n ≠ None →
       is_open (chans x') (Tx n) = true ∧ ∀ q, q ≠ [] → q ∈ lq (peers s i) n → q ∈ lq x' n) →
    (* a node that takes [p] from its queue accepts it, or has done so before *)
    (∀ link rest, inq (peers s i) = (p, link) :: rest → inq x' = rest → from_option fst [] e = p ∨ got s p i) →
    steady_step p s (update s i x' (from_option (λ n, [(i, n)]) [] e))
| steady_link i n j m data x' :
    wire i n = Some (j, m) → take_link n (peers s i) = Some (data, x') → data ≠ [] → packet_ok data →
    (* the receiving loop of the other end runs *)
    is_open (chans (peers s j)) (Incoming 0) = true →
    let ps := <[i := x']> (peers s) in
    steady_step p s (MkNet (<[j := arrive data (Tx m) (ps j)]> ps) (log s)).

Lemma steady_is_step p s s' : steady_step p s s' → net_step fx_hash wire s s'.
Proof. destruct 1; [by apply net_local|by eapply net_link]. Qed.

(** Where [p] is, or has been, on the way from [i] over its channel [n] to [j]. *)
Definition under_way s p i n j m : Prop :=
  SendToAll p ∈ swq (peers s i) ∨ p ∈ lq (peers s i) n ∨ (p, Tx m) ∈ inq (peers s j) ∨ got s p j.

(** The invariant: a node that has [p] has passed it on to each of its links. *)
Definition flood_inv s p i n : Prop :=
  up (peers s i) n ∧ ∀ j m, wire i n = Some (j, m) → got s p i → under_way s p i n j m.

(** ** One node *)

Lemma handle_keeps_sender (task : TaskState byte_tx) (w : world) msg c :
  c ∈ senders task → is_open w c = true → c ∈ senders (handle task w msg).1.
Proof.
  intros Hc Ho. destruct msg as [l|t a l|a d|d|]; cbn [handle]; [|by repeat case_match|by repeat case_match|done|].
  - cbn. apply elem_of_app. by left.
  - destruct (retain_open (senders task) 0 w) as [[ss n] w'] eqn:E. apply retain_open_spec in E as (-> & _ & _).
    apply list_elem_of_filter. done.
Qed.

Lemma handle_floods (task : TaskState byte_tx) (w : world) p c :
  c ∈ senders task → is_open w c = true → p ∈ queued (handle task w (SendToAll p)).2 c.
Proof.
  intros Hc Ho. cbn [handle snd]. rewrite (proj1 (send_each_spec (senders task) p w c)), Ho. apply elem_of_app. right.
  unfold registrations. assert (Hin : c ∈ filter (c =.) (senders task)) by (by apply list_elem_of_filter).
  destruct (filter _ _); [by apply elem_of_nil in Hin|]. apply list_elem_of_here.
Qed.

(** A step of a node keeps its links in use, unless they end. *)
Lemma effect_up x x' e n :
  effect x x' e → up x n → is_open (chans x') (Tx n) = true → up x' n.
Proof.
  intros He [Hs Ho] Ho'. split; [|done].
  destruct He as [data link Hq Hsw Ht Hl|fuel data link body Hq Hlen Hdec Hsw Ht Hl|msg w w' Hsw Hh Hq Hl
    |data o Hq Hsw Ht Hl _ _|msgs Hq Hsw Hm Ht Hl|Hq Hsw Ht Hl]; try by rewrite Ht.
  replace (task x') with (handle (task x) w msg).1 by by rewrite Hh. apply handle_keeps_sender; [done|].
  destruct (Hl n) as (_ & _ & ->). done.
Qed.

(** A broadcast that waits is still waiting after a step, or on every link in use. *)
Lemma effect_broadcast x x' e p n :
  effect x x' e → up x n → SendToAll p ∈ swq x → SendToAll p ∈ swq x' ∨ p ∈ lq x' n.
Proof.
  intros He [Hs Ho] Hp.
  destruct He as [data link Hq Hsw Ht Hl|fuel data link body Hq Hlen Hdec Hsw Ht Hl|msg w w' Hsw Hh Hq Hl
    |data o Hq Hsw Ht Hl _ _|msgs Hq Hsw Hm Ht Hl|Hq Hsw Ht Hl]; try (left; rewrite Hsw; done || (apply elem_of_app; by left)).
  rewrite Hsw in Hp. apply elem_of_cons in Hp as [<-|Hp]; [right|by left].
  destruct (Hl n) as (_ & -> & Hw). replace w' with (handle (task x) w (SendToAll p)).2 by by rewrite Hh.
  apply handle_floods; [done|]. by rewrite Hw.
Qed.

(** A packet that waits in a node's queue is taken out only from its head. *)
Lemma effect_inq x x' e p link :
  effect x x' e → (p, link) ∈ inq x → (p, link) ∈ inq x' ∨ ∃ rest, inq x = (p, link) :: rest ∧ inq x' = rest.
Proof.
  intros He Hp. destruct He as [data l Hq _ _ _|fuel data l body Hq _ _ _ _ _|msg w w' _ _ Hq _
    |data o Hq _ _ _ _ _|msgs Hq _ _ _ _|Hq _ _ _]; try (left; by rewrite Hq);
    rewrite Hq in Hp; apply elem_of_cons in Hp as [[= <- <-]|Hp]; (by right; eauto) || by left.
Qed.

(** An announcement that is emitted or accepted is broadcast. *)
Lemma effect_got x x' p o a t :
  effect x x' (Some (p, o)) → announces p a t → SendToAll p ∈ swq x' ∧ o = Some (a, t).
Proof.
  intros He Ha. inversion He as [|fuel data link body Hq Hlen Hdec Hsw Ht Hl Heq| |data o' Hq Hsw Ht Hl Ho _ Heq| |]; subst.
  - destruct (announces_decode _ _ _ _ _ Hdec Ha) as (-> & _ & Hsays). rewrite Hsw. split; [|done].
    cbn [effects to_switch]. apply elem_of_app. right. apply elem_of_cons. right. apply list_elem_of_here.
  - rewrite Hsw. split; [|by apply Ho]. apply elem_of_app. right. apply list_elem_of_here.
Qed.

Lemma got_update s i x' k p j : got (update s i x' k) p j ↔ got s p j ∨ ∃ o, (j, (p, o)) ∈ k.
Proof. unfold got, update. cbn. setoid_rewrite elem_of_app. naive_solver. Qed.

(** ** The flood of an announcement *)

Context (p : bytes) (a : IpAddr) (t : Z) (p_announces : announces p a t).

Lemma p_nonempty : p ≠ [].
Proof. intros ->. by apply (short_not_announced [] a t); [cbn; lia|]. Qed.

Lemma local_flood s i0 e x' i n :
  let s' := update s i0 x' (from_option (λ n, [(i0, n)]) [] e) in
  effect (peers s i0) x' e →
  (∀ n, up (peers s i0) n → wire i0 n ≠ None →
     is_open (chans x') (Tx n) = true ∧ ∀ q, q ≠ [] → q ∈ lq (peers s i0) n → q ∈ lq x' n) →
  (∀ link rest, inq (peers s i0) = (p, link) :: rest → inq x' = rest → from_option fst [] e = p ∨ got s p i0) →
  wire i n ≠ None → flood_inv s p i n → flood_inv s' p i n.
Proof.
  intros s' He Hkeep Htake Hn [Hup Hinv].
  assert (Hgot : ∀ j, got s p j → got s' p j) by (intros j ?; apply got_update; by left).
  assert (Hinq : ∀ j link, (p, link) ∈ inq (peers s j) → (p, link) ∈ inq (peers s' j) ∨ got s' p j).
  { intros j link Hj. unfold s'. destruct (decide (j = i0)) as [->|]; [|rewrite peers_update_ne by done; by left].
    rewrite peers_update_eq. destruct (effect_inq _ _ _ _ _ He Hj) as [?|(rest & E & E')]; [by left|right].
    apply got_update. destruct (Htake link rest E E') as [Hp|?]; [|by left]. right.
    destruct e as [[q o]|]; cbn in Hp; [|by destruct p_nonempty]. subst q. exists o. apply list_elem_of_here. }
  destruct (decide (i = i0)) as [->|Hne].
  - destruct (Hkeep n Hup Hn) as [Ho Hl]. split; [unfold s'; rewrite peers_update_eq; by eapply effect_up|].
    intros j m Hw Hg. unfold under_way.
    assert (Ei : peers s' i0 = x') by apply peers_update_eq. rewrite !Ei.
    assert (Hcase : (∃ o, e = Some (p, o)) ∨ got s p i0).
    { apply got_update in Hg as [?|[o Ho']]; [by right|left]. exists o. destruct e as [ev|]; cbn in Ho'; [|by apply elem_of_nil in Ho'].
      apply list_elem_of_singleton in Ho'. by injection Ho' as <-. }
    destruct Hcase as [[o ->]|Hold]; [left; by eapply effect_got|].
    destruct (Hinv j m Hw Hold) as [H|[H|[H|H]]].
    + destruct (effect_broadcast _ _ _ _ _ He Hup H); [by left|by right; left].
    + right; left. apply Hl; [apply p_nonempty|done].
    + destruct (Hinq j _ H); [by right; right; left|by right; right; right].
    + right; right; right. by apply Hgot.
  - split; [unfold s'; by rewrite peers_update_ne|]. intros j m Hw Hg.
    assert (Hold : got s p i).
    { apply got_update in Hg as [?|[o Ho']]; [done|]. destruct e as [ev|]; cbn in Ho'; [|by apply elem_of_nil in Ho'].
      apply list_elem_of_singleton in Ho'. by injection Ho' as -> _. }
    unfold under_way. assert (Ei : peers s' i = peers s i) by (by apply peers_update_ne). rewrite !Ei.
    destruct (Hinv j m Hw Hold) as [H|[H|[H|H]]]; [by left|by right; left| |].
    + destruct (Hinq j _ H); [by right; right; left|by right; right; right].
    + right; right; right. by apply Hgot.
Qed.

Lemma take_link_up x n data x' k : take_link n x = Some (data, x') → task x' = task x ∧ is_open (chans x') (Tx k) = is_open (chans x) (Tx k)
  ∧ is_open (chans x') (Incoming 0) = is_open (chans x) (Incoming 0).
Proof.
  unfold take_link. destruct (next_link n (chans x)) as [[d w]|] eqn:E; [|done]. intros [= -> <-].
  apply next_link_spec in E as (_ & _ & Ho & Hi & _). split_and!; [done|apply Ho|by apply incomings_eq].
Qed.

Lemma arrive_up x data link k : task (arrive data link x) = task x ∧ is_open (chans (arrive data link x)) (Tx k) = is_open (chans x) (Tx k).
Proof. split; [done|]. apply links_eq, (send_incoming_frame (Incoming 0)). Qed.

Lemma link_flood s i0 n0 j0 m0 data x' i n :
  inv wire s → wire i0 n0 = Some (j0, m0) → take_link n0 (peers s i0) = Some (data, x') → packet_ok data →
  is_open (chans (peers s j0)) (Incoming 0) = true →
  let ps := <[i0 := x']> (peers s) in
  let s' := MkNet (<[j0 := arrive data (Tx m0) (ps j0)]> ps) (log s) in
  flood_inv s p i n → flood_inv s' p i n.
Proof.
  intros Hinv Hw0 Htake [Hb _] Hopen ps s' [Hup Hflood].
  destruct (take_link_effect _ _ _ _ (inv_peer _ _ _ _ (Hinv i0)) Htake) as (Hok & _ & Hq & Hs & Ht & Hl & Hl').
  (* after the packet has been taken *)
  assert (H1 : ∀ k, peer_ok (ps k) ∧ (up (peers s k) n → up (ps k) n) ∧ swq (ps k) = swq (peers s k) ∧ inq (ps k) = inq (peers s k)
    ∧ is_open (chans (ps k)) (Incoming 0) = is_open (chans (peers s k)) (Incoming 0)
    ∧ (∀ q, q ∈ lq (peers s k) n → q ∈ lq (ps k) n ∨ k = i0 ∧ n = n0 ∧ q = data)).
  { intros k. unfold ps. destruct (decide (k = i0)) as [->|]; [|rewrite fn_lookup_insert_ne by done; split_and!; try done;
      [apply Hinv|intros; by left]].
    rewrite fn_lookup_insert. destruct (take_link_up _ _ _ _ n Htake) as (_ & Ho & Hoi).
    split_and!; [done| |done|done|done|].
    - unfold up. by rewrite Ht, Ho.
    - intros q Hin. destruct (decide (n = n0)) as [->|Hne]; [|left; by rewrite Hl'].
      rewrite Hl in Hin. apply elem_of_cons in Hin as [->|?]; [by right|by left]. }
  (* after it has arrived *)
  assert (H2 : ∀ k, (up (ps k) n → up (peers s' k) n) ∧ swq (peers s' k) = swq (ps k) ∧ (∀ m, lq (peers s' k) m = lq (ps k) m)
    ∧ (∀ q, q ∈ inq (ps k) → q ∈ inq (peers s' k))).
  { intros k. unfold s'. cbn [peers]. destruct (decide (k = j0)) as [->|]; [|by rewrite fn_lookup_insert_ne].
    rewrite fn_lookup_insert. destruct (H1 j0) as (Hok1 & _).
    destruct (arrive_spec (ps j0) data (Tx m0) Hok1 Hb) as (_ & _ & Hs2 & _ & Hl2 & Hq2).
    destruct (arrive_up (ps j0) data (Tx m0) n) as [_ Ho2]. split_and!; [|done|done|].
    - intros [? ?]. split; [done|by rewrite Ho2].
    - intros q Hin. destruct Hq2 as [-> | ->]; [done|]. apply elem_of_app. by left. }
  assert (H3 : (data, Tx m0) ∈ inq (peers s' j0)).
  { unfold s'. cbn [peers]. rewrite fn_lookup_insert. unfold inq, arrive. cbn [chans with_chans].
    destruct (H1 j0) as (_ & _ & _ & _ & Ho1 & _). rewrite send_queued, decide_True, Ho1, Hopen by done.
    apply elem_of_app. right. apply list_elem_of_here. }
  split; [by apply H2, H1|]. intros j m Hw Hg. unfold under_way.
  destruct (H1 i) as (_ & _ & Es & _ & _ & El). destruct (H2 i) as (_ & Es' & El' & _).
  destruct (H1 j) as (_ & _ & _ & Ei & _ & _). destruct (H2 j) as (_ & _ & _ & Ei').
  destruct (Hflood j m Hw Hg) as [H|[H|[H|H]]].
  - left. by rewrite Es', Es.
  - destruct (El p H) as [H'|(-> & -> & ->)]; [right; left; by rewrite El'|right; right; left]. congruence.
  - right; right; left. apply Ei'. by rewrite Ei.
  - by right; right; right.
Qed.

Lemma steady_flood s s' i n :
  inv wire s → steady_step p s s' → wire i n ≠ None → flood_inv s p i n → flood_inv s' p i n.
Proof.
  intros Hinv Hstep Hn Hf. destruct Hstep as [i0 e x' Hp Hkeep Htake|i0 n0 j0 m0 data x' Hw Htake Hne Hb Ho ps].
  - destruct (peer_step_effect fx_hash _ _ _ (inv_peer _ _ _ _ (Hinv i0)) Hp) as (_ & _ & He). by eapply local_flood.
  - by eapply link_flood.
Qed.

(** The log says of [p] what [p] announces. *)
Definition log_says s : Prop := ∀ i o, (i, (p, o)) ∈ log s → o = Some (a, t).

Lemma step_log_says s s' : inv wire s → net_step fx_hash wire s s' → log_says s → log_says s'.
Proof.
  intros Hinv Hstep Hs. destruct Hstep as [i e x' Hp|]; [|exact Hs].
  destruct (peer_step_effect fx_hash _ _ _ (inv_peer _ _ _ _ (Hinv i)) Hp) as (_ & _ & He).
  intros j o [Hin|Hin]%elem_of_app; [by eapply Hs|]. destruct e as [ev|]; [|by apply elem_of_nil in Hin].
  cbn in Hin. apply list_elem_of_singleton in Hin. injection Hin as -> <-. by eapply effect_got.
Qed.

Lemma reachable_log_says s s' : inv wire s → log_says s → reachable fx_hash wire s s' → inv wire s' ∧ log_says s'.
Proof.
  intros Hinv Hs Hr. revert Hinv Hs. induction Hr as [s|s s1 s2 Hstep _ IH]; intros Hinv Hs; [done|].
  apply IH; [by eapply net_step_inv|by eapply step_log_says].
Qed.

(** Links over which a flood that starts in [s] travels. *)
Definition linked s i j : Prop := ∃ n m, up (peers s i) n ∧ wire i n = Some (j, m).

(** Nothing of the flood is on its way any more. *)
Definition settled s : Prop :=
  ∀ i, swq (peers s i) = [] ∧ (∀ n, wire i n ≠ None → p ∉ lq (peers s i) n) ∧ ∀ link, (p, link) ∉ inq (peers s i).

Lemma steady_floods s s' :
  inv wire s → log_says s → rtc (steady_step p) s s' →
  inv wire s' ∧ log_says s' ∧ ∀ i n, wire i n ≠ None → flood_inv s p i n → flood_inv s' p i n.
Proof.
  intros Hinv Hs Hr. revert Hinv Hs. induction Hr as [s|s s1 s2 Hstep _ IH]; intros Hinv Hs; [done|].
  pose proof (steady_is_step _ _ _ Hstep) as Hnet.
  destruct IH as (H1 & H2 & H3); [by eapply net_step_inv|by eapply step_log_says|].
  split_and!; [done|done|]. intros i n Hn Hf. apply H3; [done|]. exact (steady_flood s s1 i n Hinv Hstep Hn Hf).
Qed.

(** C3. A flood reaches everyone. An announcement that some node emits while links
    neither end nor lose packets, and no node finds it too old or mistakes it
    for another packet, has, once no queue holds anything of it, been accepted
    by every node that the links in use at its start connect to the emitter;
    each of them owns the address or has a route to it at least as new, and
    following the routes from it ends at an owner. *)
Theorem flood_reaches_everyone s0 s1 s o :
  net_started wire s0 → reachable fx_hash wire s0 s1 → (∀ i, ¬ got s1 p i) →
  rtc (steady_step p) s1 s → settled s → got s p o →
  ∀ k, rtc (linked s1) o k →
    got s p k
    ∧ (a ∈ our_ips (node (peers s k)) ∨ ∃ t' link, rt (peers s k) !! a = Some (t', link) ∧ t <= t')
    ∧ ∃ n owner, nsteps (next_hop wire s a) n k owner ∧ a ∈ our_ips (node (peers s owner)).
Proof.
  intros H0 Hr1 Hnone Hr Hset Ho k Hk.
  destruct (reachable_log_says s0 s1) as [Hinv1 Hlog1]; [by apply started_inv| |done|].
  { intros i e He. destruct H0 as [E _]. rewrite E in He. by apply elem_of_nil in He. }
  destruct (steady_floods s1 s Hinv1 Hlog1 Hr) as (Hinv & Hlog & Hflood).
  assert (Hgot : got s p k).
  { revert Ho. induction Hk as [o|o j k (n & m & Hup & Hw) _ IH]; intros Ho; [done|]. apply IH.
    assert (Hn : wire o n ≠ None) by by rewrite Hw.
    destruct (Hflood o n Hn) as [_ Hf]; [split; [done|]; intros ? ? _ Hg; by destruct (Hnone o)|].
    destruct (Hset o) as (Hs & Hl & _), (Hset j) as (_ & _ & Hi).
    destruct (Hf j m Hw Ho) as [H|[H|[H|H]]]; [rewrite Hs in H; by apply elem_of_nil in H|by destruct (Hl n Hn)|by destruct (Hi (Tx m))|done]. }
  split; [done|].
  assert (Hserved : served s k a t).
  { assert (Hsaid : said s k a t).
    { destruct Hgot as [e He]. pose proof (Hlog k e He) as ->. unfold said, said_log. apply list_elem_of_omap.
      exists (k, (p, Some (a, t))). done. }
    destruct (inv_log _ _ _ _ (Hinv k) a t Hsaid) as [?|[link H]]; [done|].
    destruct (Hset k) as (Hs & _). rewrite Hs in H. by apply elem_of_nil in H. }
  destruct Hserved as [Hown|([t' link] & Hrt & Hle)].
  - split; [by left|]. exists 0%nat, k. split; [constructor|done].
  - split; [right; by exists t', link|].
    destruct (route_reaches wire s a Hinv k (k, (a, t'))) as (n & owner & Hn & Hown & _); [by exists t', link|].
    by exists n, owner.
Qed.

(** ** Schedules during a flood *)

(** The conditions of [steady_step], for a step of the node [x]. *)
Definition keeps_links x x' : Prop :=
  Forall (λ c, is_open (chans x) c = true →
     is_open (chans x') c = true ∧ Forall (λ q, q = [] ∨ q ∈ queued (chans x') c) (queued (chans x) c)) (senders (task x)).
Definition takes s i x' (e : option note) : Prop :=
  match inq (peers s i) with
  | [] => True
  | (q, _) :: rest => q = p → inq x' = rest → from_option fst [] e = p ∨ Exists (λ en, en.1 = i ∧ en.2.1 = p) (log s)
  end.
#[local] Instance keeps_links_dec x x' : Decision (keeps_links x x').
Proof. unfold keeps_links. apply _. Defined.
#[local] Instance takes_dec s i x' e : Decision (takes s i x' e).
Proof. unfold takes. destruct (inq (peers s i)) as [|[q l] rest]; apply _. Defined.

Definition steady_exec (c : command) s : option Net :=
  match c with
  | Transfer i n =>
      '(j, m) ← wire i n;
      if decide (is_open (chans (peers s j)) (Incoming 0) = true) then exec fx_hash wire c s else None
  | _ =>
      '(e, x') ← exec_peer fx_hash c (peers s (on_peer c));
      if decide (keeps_links (peers s (on_peer c)) x' ∧ takes s (on_peer c) x' e) then exec fx_hash wire c s else None
  end.

Fixpoint steady_run (cs : list command) s : option Net :=
  match cs with
  | [] => Some s
  | c :: cs => s ← steady_exec c s; steady_run cs s
  end.

Lemma steady_exec_step c s s' : steady_exec c s = Some s' → steady_step p s s'.
Proof.
  assert (Hlocal : ∀ c, exec fx_hash wire c s = ('(e, x') ← exec_peer fx_hash c (peers s (on_peer c));
      Some (MkNet (<[on_peer c := x']> (peers s)) (log s ++ from_option (λ n, [(on_peer c, n)]) [] e))) →
    ('(e, x') ← exec_peer fx_hash c (peers s (on_peer c));
      if decide (keeps_links (peers s (on_peer c)) x' ∧ takes s (on_peer c) x' e) then exec fx_hash wire c s else None) = Some s' →
    steady_step p s s').
  { intros c' ->. destruct (exec_peer fx_hash c' _) as [[e x']|] eqn:E; [|done]. cbn [mbind option_bind].
    case_decide as Hd; [|done]. destruct Hd as [Hk Ht]. intros [= <-].
    apply steady_local; [by eapply exec_peer_step| |].
    - intros n [Hs Ho] _. eapply list.Forall_forall in Hk; [|exact Hs]. destruct (Hk Ho) as [Ho' Hq]. split; [done|].
      intros q Hne Hin. eapply list.Forall_forall in Hq; [|exact Hin]. by destruct Hq.
    - intros link rest Hin Hin'. unfold takes in Ht. rewrite Hin in Ht. destruct (Ht eq_refl Hin') as [?|He]; [by left|right].
      apply Exists_exists in He as ([i [q o]] & He & [Hi Hq]). cbn in Hi, Hq. rewrite Hi, Hq in He. exists o.
      apply list_elem_of_In. exact He. }
  destruct c as [i fuel current|i|i|i ms octets|i n]; try (apply Hlocal; reflexivity).
  cbn [steady_exec exec]. destruct (wire i n) as [[j m]|] eqn:Hw; [|done]. cbn [mbind option_bind].
  case_decide as Ho; [|done]. destruct (take_link n (peers s i)) as [[data x']|] eqn:Ht; [|done]. cbn [mbind option_bind].
  case_decide as Hd; [|done]. intros [= <-]. destruct Hd. by eapply steady_link.
Qed.

Lemma steady_run_rtc cs s s' : steady_run cs s = Some s' → rtc (steady_step p) s s'.
Proof.
  revert s. induction cs as [|c cs IH]; intros s; cbn [steady_run]; [intros [= <-]; apply rtc_refl|].
  destruct (steady_exec c s) as [s1|] eqn:E; [|done]. cbn [mbind option_bind]. intros H.
  eapply rtc_l; [by eapply steady_exec_step|by apply IH].
Qed.
End flood.

(** ** Witness *)

Lemma example_announces : announces example_announcement (V4 10 0 0 7) 1000.
Proof. split; [vm_compute; lia|]. exists 0%nat. vm_compute. reflexivity. Qed.

Definition ring_linked : Net := default ring_net (run example_hash ring ring_links ring_net).
Definition ring_flooded : Net :=
  default ring_net (steady_run example_hash ring example_announcement ring_flood ring_linked).

Lemma ring_settled : settled ring example_announcement ring_flooded.
Proof.
  assert (H : ∀ i, swq (peers ring_flooded i) = [] ∧ lq (peers ring_flooded i) 0%nat = [] ∧ lq (peers ring_flooded i) 1%nat = []
    ∧ inq (peers ring_flooded i) = []).
  { intros [|[|[|i]]]; vm_compute; split_and!; reflexivity. }
  intros i. destruct (H i) as (Hs & H0 & H1 & Hi). split_and!; [exact Hs| |].
  - intros n Hn. assert (E : lq (peers ring_flooded i) n = []).
    { destruct n as [|[|n]]; [exact H0|exact H1|]. destruct Hn. unfold ring. by case_decide. }
    rewrite E. apply not_elem_of_nil.
  - intros link. rewrite Hi. apply not_elem_of_nil.
Qed.

Lemma ring_connected : rtc (linked ring ring_linked) 0%nat 1%nat ∧ rtc (linked ring ring_linked) 0%nat 2%nat.
Proof.
  split; apply rtc_once; [exists 0%nat, 1%nat|exists 1%nat, 0%nat]; (split; [|reflexivity]);
    (split; [apply (bool_decide_unpack _)|]); vm_compute; reflexivity.
Qed.

(** Three nodes in a ring: the announcement of node 0 reaches the others. *)
Lemma flood_reaches_everyone_witness :
  got ring_flooded example_announcement 1%nat ∧ got ring_flooded example_announcement 2%nat.
Proof.
  assert (H1 : run example_hash ring ring_links ring_net = Some ring_linked) by (apply default_some; vm_compute; reflexivity).
  assert (H2 : steady_run example_hash ring example_announcement ring_flood ring_linked = Some ring_flooded)
    by (apply default_some; vm_compute; reflexivity).
  assert (Hnone : ∀ i, ¬ got ring_linked example_announcement i).
  { intros i [o Ho]. assert (E : log ring_linked = []) by (vm_compute; reflexivity). rewrite E in Ho. by apply elem_of_nil in Ho. }
  assert (Hgot : got ring_flooded example_announcement 0%nat).
  { exists (Some (V4 10 0 0 7, 1000)).
    assert (E : ∃ l, log ring_flooded = (0%nat, (example_announcement, Some (V4 10 0 0 7, 1000))) :: l)
      by (eexists; vm_compute; reflexivity).
    destruct E as [l E]. rewrite E. apply list_elem_of_here. }
  pose proof (flood_reaches_everyone example_hash ring ring_sym example_announcement (V4 10 0 0 7) 1000 example_announces
    ring_net ring_linked ring_flooded 0%nat ring_started (run_reachable _ _ _ _ _ H1) Hnone
    (steady_run_rtc _ _ _ _ _ _ H2) ring_settled Hgot) as H.
  destruct ring_connected as [C1 C2]. split; [apply (H 1%nat C1)|apply (H 2%nat C2)].
Defined.
