(* ===== verification/MeshTraffic.v ===== *)
(** Traffic through a mesh ([Mesh]): a packet that one node reads from its TUN
    interface goes from node to node along the routes ([MeshRoutes]) and comes out of
    the interface of an owner of its destination, unchanged.

    While the packet is under way the routes to its destination stay as they are,
    their links neither end nor lose it, and no node drops it as too old or
    mistakes it for another one; all else may happen, in any order. *)
From stdpp Require Import functions.
From S2P Require Import Prelude IpAddr SeenPackets Channel AllSenders World Framing MeshNode Tun Mesh MeshRoutes MeshFlood.

Section traffic.
Context (fx_hash : bytes → Z) (wire : nat → nat → option (nat * nat)).
Context (wire_sym : ∀ i n j m, wire i n = Some (j, m) → wire j m = Some (i, n)).
Context (millis : Z) (packet : bytes) (a : IpAddr).
Context (packet_bytes : is_bytes packet) (packet_to : decode_ip packet = Traffic a packet).
Implicit Types (s : Net) (x : Peer) (i j : nat).

(** What the nodes make of the packet. *)
Abbreviation p := (netpacket millis packet).

(** A step while [p] is under way. *)
Inductive quiet_step (s : Net) : Net → Prop :=
| quiet_local i e x' :
    peer_step fx_hash (peers s i) e x' →
    (* its route to [a] stays, and the link neither ends nor loses [p] *)
    rt x' !! a = rt (peers s i) !! a →
    (∀ t n, rt (peers s i) !! a = Some (t, Tx n) → is_open (chans (peers s i)) (Tx n) = true →
       is_open (chans x') (Tx n) = true ∧ (p ∈ lq (peers s i) n → p ∈ lq x' n)) →
    (* a node that takes [p] from its queue accepts it, or has done so before *)
    (∀ link rest, inq (peers s i) = (p, link) :: rest → inq x' = rest → from_option fst [] e = p ∨ got s p i) →
    quiet_step s (update s i x' (from_option (λ n, [(i, n)]) [] e))
| quiet_link i n j m data x' :
    wire i n = Some (j, m) → take_link n (peers s i) = Some (data, x') → data ≠ [] → packet_ok data →
    (* the receiving loop of the other end runs *)
    is_open (chans (peers s j)) (Incoming 0) = true →
    let ps := <[i := x']> (peers s) in
    quiet_step s (MkNet (<[j := arrive data (Tx m) (ps j)]> ps) (log s)).

Lemma quiet_is_step s s' : quiet_step s s' → net_step fx_hash wire s s'.
Proof. destruct 1; [by apply net_local|by eapply net_link]. Qed.

(** ** One node *)

Lemma p_not_empty : p ≠ [].
Proof. unfold netpacket. by destruct (to_le_bytes 8 millis). Qed.

Lemma p_decodes fuel : decode fuel (p !!! 8%nat) (drop 9 p) = Some (Traffic a packet).
Proof. unfold netpacket. cbn [app]. rewrite cmd_of, payload_of. unfold decode. cbn [Z.eqb Pos.eqb]. by rewrite packet_to. Qed.

(** [p] can only be accepted: no node emits it as an announcement. An owner then
    gives the packet to its interface, every other node sends [p] on. *)
Lemma accept_traffic x o x' :
  peer_ok x → peer_step fx_hash x (Some (p, o)) x' →
  (a ∈ our_ips (node x) → ∀ c, tun_sender (node x) = Some c → queued (chans x') c = queued (chans x) c ++ [packet])
  ∧ (a ∉ our_ips (node x) → swq x' = swq x ++ [SendToFastest a p]).
Proof.
  intros Hok Hstep. inversion Hstep as [fuel current [data link] w x1 Hnext Hrecv E| | | | | | | | |].
  cbn [fst] in E. case_decide as Ha; [|done]. injection E as -> _. subst x1.
  unfold receive_step in Hrecv. rewrite Hnext in Hrecv. cbn [mbind option_bind fst snd] in Hrecv.
  destruct (handle_packet _ _ _ _ _ _ _ _) as [[[st w']|why]|] eqn:Hh; [|done|done]. injection Hrecv as <-.
  apply next_incoming_spec in Hnext as (Hq & Hl & Hs & Hr).
  pose proof (ok_inq x Hok) as Hb. unfold inq in Hb. rewrite Hq in Hb. apply list.Forall_cons in Hb as [Hb _]. cbn [fst] in Hb.
  assert (Hopen : channels_open switchboard (node x) w).
  { eapply channels_open_mono; [| | |exact (ok_open x Hok)]; intros; [by apply switches_eq|by apply routes_eq|by apply links_eq]. }
  destruct (handle_packet_spec fx_hash switchboard fuel current (node x) p link w Hb (ok_seen x Hok) Hopen) as [_ Hyes].
  destruct (Hyes Ha) as (seen & _ & _ & Hd). rewrite p_decodes in Hd. cbn zeta in *.
  destruct Hd as (w1 & Hrun & _ & Hsw & _ & Htun & _). rewrite Hh in Hrun. injection Hrun as -> <-. cbn [effects] in Hsw, Htun.
  split; intros Hown.
  - intros c Hc. cbn [chans]. rewrite Htun, bool_decide_true, decide_True by done. cbn [to_tun]. f_equal. by apply links_eq.
  - unfold swq. cbn [chans]. rewrite bool_decide_false in Hsw by done. etransitivity; [exact Hsw|]. cbn [to_switch]. f_equal.
    by apply (switches_eq _ _ (Switch 0)).
Qed.

(** Traffic that waits for the switchboard is still waiting after a step, or on the
    link of the route. *)
Lemma effect_traffic x x' e t n :
  effect x x' e → rt x !! a = Some (t, Tx n) → is_open (chans x) (Tx n) = true →
  SendToFastest a p ∈ swq x → SendToFastest a p ∈ swq x' ∨ p ∈ lq x' n.
Proof.
  intros He Hrt Ho Hp.
  destruct He as [data link Hq Hsw Ht Hl|fuel data link body Hq Hlen Hdec Hsw Ht Hl|msg w w' Hsw Hh Hq Hl
    |data o Hq Hsw Ht Hl _ _|msgs Hq Hsw Hm Ht Hl|Hq Hsw Ht Hl]; try (left; rewrite Hsw; done || (apply elem_of_app; by left)).
  rewrite Hsw in Hp. apply elem_of_cons in Hp as [<-|Hp]; [right|by left].
  destruct (Hl n) as (_ & -> & Hw). cbn [handle] in Hh. unfold rt in Hrt. rewrite Hrt in Hh.
  assert (Hw' : w' = (unbounded_send (Tx n) p w).2) by by injection Hh. rewrite Hw', send_queued, decide_True by done. rewrite Hw, Ho. apply elem_of_app. right. apply list_elem_of_here.
Qed.

(** ** The way of the packet *)

Context (source : nat).

(** Where [p] is, or has been, on the way from [i] over its channel [n] to [j]. *)
Definition on_the_way s i n j m : Prop :=
  SendToFastest a p ∈ swq (peers s i) ∨ p ∈ lq (peers s i) n ∨ (p, Tx m) ∈ inq (peers s j) ∨ got s p j.

(** The invariant: a node on the way that has [p], and does not keep it, has passed
    it on over its route, the channel [n]. *)
Definition traffic_inv s i t n : Prop :=
  rt (peers s i) !! a = Some (t, Tx n) ∧ is_open (chans (peers s i)) (Tx n) = true
  ∧ ∀ j m, wire i n = Some (j, m) → i = source ∨ got s p i → a ∉ our_ips (node (peers s i)) → on_the_way s i n j m.

Lemma got_local s i x' e j :
  got (update s i x' (from_option (λ n, [(i, n)]) [] e)) p j → got s p j ∨ j = i ∧ ∃ o, e = Some (p, o).
Proof.
  rewrite (got_update fx_hash). intros [?|[o Ho]]; [by left|right]. destruct e as [ev|]; cbn in Ho; [|by apply elem_of_nil in Ho].
  apply list_elem_of_singleton in Ho. injection Ho as -> <-. split; [done|by exists o].
Qed.

Lemma local_traffic s i0 e x' i t n :
  inv wire s → peer_step fx_hash (peers s i0) e x' → rt x' !! a = rt (peers s i0) !! a →
  (∀ t n, rt (peers s i0) !! a = Some (t, Tx n) → is_open (chans (peers s i0)) (Tx n) = true →
     is_open (chans x') (Tx n) = true ∧ (p ∈ lq (peers s i0) n → p ∈ lq x' n)) →
  (∀ link rest, inq (peers s i0) = (p, link) :: rest → inq x' = rest → from_option fst [] e = p ∨ got s p i0) →
  traffic_inv s i t n → traffic_inv (update s i0 x' (from_option (λ n, [(i0, n)]) [] e)) i t n.
Proof.
  intros Hinv Hstep Hrt Hkeep Htake (Hroute & Hopen & Hway). set (s' := update _ _ _ _).
  pose proof (inv_peer _ _ _ _ (Hinv i0)) as Hok. destruct (peer_step_effect fx_hash _ _ _ Hok Hstep) as (_ & (_ & _ & Hips & _) & He).
  assert (Hgot : ∀ j, got s p j → got s' p j) by (intros j ?; apply (got_update fx_hash); by left).
  assert (Hinq : ∀ j link, (p, link) ∈ inq (peers s j) → (p, link) ∈ inq (peers s' j) ∨ got s' p j).
  { intros j link Hj. unfold s'. destruct (decide (j = i0)) as [->|]; [|rewrite peers_update_ne by done; by left].
    rewrite peers_update_eq. destruct (effect_inq _ _ _ _ _ He Hj) as [?|(rest & E & E')]; [by left|right].
    apply (got_update fx_hash). destruct (Htake link rest E E') as [Hp|?]; [|by left]. right.
    destruct e as [[q o]|]; cbn in Hp; [|by destruct p_not_empty]. subst q. exists o. apply list_elem_of_here. }
  destruct (decide (i = i0)) as [->|Hne].
  - assert (Ei : peers s' i0 = x') by apply peers_update_eq. unfold traffic_inv. rewrite !Ei.
    destruct (Hkeep t n Hroute Hopen) as [Ho Hl]. split; [by rewrite Hrt|]. split; [done|].
    intros j m Hw Hg Hown. rewrite Hips in Hown. unfold on_the_way. rewrite !Ei.
    assert (Hcase : (∃ o, e = Some (p, o)) ∨ (i0 = source ∨ got s p i0)).
    { destruct Hg as [?|[?|[_ ?]]%got_local]; [by right; left|by right; right|by left]. }
    destruct Hcase as [[o ->]|Hold].
    { left. rewrite (proj2 (accept_traffic _ _ _ Hok Hstep) Hown). apply elem_of_app. right. apply list_elem_of_here. }
    destruct (Hway j m Hw Hold Hown) as [H|[H|[H|H]]].
    + destruct (effect_traffic _ _ _ _ _ He Hroute Hopen H); [by left|by right; left].
    + right; left. by apply Hl.
    + destruct (Hinq j _ H); [by right; right; left|by right; right; right].
    + right; right; right. by apply Hgot.
  - assert (Ei : peers s' i = peers s i) by (by apply peers_update_ne). unfold traffic_inv, on_the_way. rewrite !Ei.
    split; [done|]. split; [done|]. intros j m Hw Hg Hown.
    assert (Hold : i = source ∨ got s p i) by (destruct Hg as [?|[?|[? _]]%got_local]; [by left|by right|done]).
    destruct (Hway j m Hw Hold Hown) as [H|[H|[H|H]]]; [by left|by right; left| |].
    + destruct (Hinq j _ H); [by right; right; left|by right; right; right].
    + right; right; right. by apply Hgot.
Qed.

(** A packet taken from one end of a link and put in the queue of the other. *)
Lemma carry_spec s i0 n0 j0 m0 data x' :
  inv wire s → take_link n0 (peers s i0) = Some (data, x') → packet_ok data →
  is_open (chans (peers s j0)) (Incoming 0) = true →
  let ps := <[i0 := x']> (peers s) in
  let s' := MkNet (<[j0 := arrive data (Tx m0) (ps j0)]> ps) (log s) in
  (data, Tx m0) ∈ inq (peers s' j0)
  ∧ ∀ i, same_config (peers s i) (peers s' i) ∧ task (peers s' i) = task (peers s i) ∧ swq (peers s' i) = swq (peers s i)
      ∧ (∀ n, is_open (chans (peers s' i)) (Tx n) = is_open (chans (peers s i)) (Tx n))
      ∧ (∀ e, e ∈ inq (peers s i) → e ∈ inq (peers s' i))
      ∧ (∀ n q, q ∈ lq (peers s i) n → q ∈ lq (peers s' i) n ∨ i = i0 ∧ n = n0 ∧ q = data).
Proof.
  intros Hinv Htake [Hb _] Hopen ps s'.
  destruct (take_link_effect _ _ _ _ (inv_peer _ _ _ _ (Hinv i0)) Htake) as (Hok & Hc & Hq & Hs & Ht & Hl & Hl').
  assert (H1 : ∀ k, peer_ok (ps k) ∧ same_config (peers s k) (ps k) ∧ task (ps k) = task (peers s k) ∧ swq (ps k) = swq (peers s k)
    ∧ inq (ps k) = inq (peers s k) ∧ is_open (chans (ps k)) (Incoming 0) = is_open (chans (peers s k)) (Incoming 0)
    ∧ (∀ n, is_open (chans (ps k)) (Tx n) = is_open (chans (peers s k)) (Tx n))
    ∧ (∀ n q, q ∈ lq (peers s k) n → q ∈ lq (ps k) n ∨ k = i0 ∧ n = n0 ∧ q = data)).
  { intros k. unfold ps. destruct (decide (k = i0)) as [->|]; [|rewrite fn_lookup_insert_ne by done; split_and!; try done;
      [apply Hinv|intros; by left]].
    rewrite fn_lookup_insert. split; [done|]. split; [done|]. split; [done|]. split; [done|]. split; [done|].
    split; [by destruct (take_link_up _ _ _ _ 0 Htake) as (_ & _ & ->)|].
    split; [intros n; by destruct (take_link_up _ _ _ _ n Htake) as (_ & -> & _)|].
    intros n q Hin. destruct (decide (n = n0)) as [->|Hne]; [|left; by rewrite Hl'].
    rewrite Hl in Hin. apply elem_of_cons in Hin as [->|?]; [by right|by left]. }
  destruct (H1 j0) as (Hok1 & Hc1 & Ht1 & Hs1 & Hi1 & Ho1 & Hop1 & Hl1).
  destruct (arrive_spec (ps j0) data (Tx m0) Hok1 Hb) as (_ & Hc2 & Hs2 & Ht2 & Hl2 & Hq2).
  split.
  - unfold s'. cbn [peers]. rewrite fn_lookup_insert. unfold inq, arrive. cbn [chans with_chans].
    rewrite send_queued, decide_True, Ho1, Hopen by done. apply elem_of_app. right. apply list_elem_of_here.
  - intros i. unfold s'. cbn [peers]. destruct (decide (i = j0)) as [->|Hne].
    + rewrite fn_lookup_insert. split; [exact Hc1|]. split; [exact Ht1|]. split; [by rewrite Hs2|].
      split; [intros n; rewrite (proj2 (arrive_up (ps j0) data (Tx m0) n)); apply Hop1|].
      split; [|intros n q Hin; rewrite Hl2; by apply Hl1].
      intros e He. rewrite <- Hi1 in He. destruct Hq2 as [-> | ->]; [done|]. apply elem_of_app. by left.
    + rewrite fn_lookup_insert_ne by done. destruct (H1 i) as (_ & ? & ? & ? & Hi & _ & ? & ?).
      split_and!; try done. intros e He. by rewrite Hi.
Qed.

Lemma link_traffic s i0 n0 j0 m0 data x' i t n :
  inv wire s → wire i0 n0 = Some (j0, m0) → take_link n0 (peers s i0) = Some (data, x') → packet_ok data →
  is_open (chans (peers s j0)) (Incoming 0) = true →
  let ps := <[i0 := x']> (peers s) in
  traffic_inv s i t n → traffic_inv (MkNet (<[j0 := arrive data (Tx m0) (ps j0)]> ps) (log s)) i t n.
Proof.
  intros Hinv Hw0 Htake Hd Hopen0 ps (Hroute & Hopen & Hway).
  destruct (carry_spec s i0 n0 j0 m0 data x' Hinv Htake Hd Hopen0) as [Hin Hall]. fold ps in Hin, Hall.
  set (s' := MkNet _ _) in *. destruct (Hall i) as ((_ & _ & Hips & _) & Ht & Hs & Ho & _ & Hl).
  split; [unfold rt; by rewrite Ht|]. split; [by rewrite Ho|]. intros j m Hw Hg Hown. rewrite Hips in Hown.
  destruct (Hall j) as (_ & _ & _ & _ & Hi & _). unfold on_the_way. rewrite Hs.
  destruct (Hway j m Hw Hg Hown) as [H|[H|[H|H]]]; [by left| |right; right; left; by apply Hi|by right; right; right].
  destruct (Hl n p H) as [?|(-> & -> & ->)]; [by right; left|right; right; left]. rewrite Hw in Hw0. by injection Hw0 as -> ->.
Qed.

Lemma quiet_traffic s s' i t n : inv wire s → quiet_step s s' → traffic_inv s i t n → traffic_inv s' i t n.
Proof.
  intros Hinv Hstep. destruct Hstep; [by apply local_traffic|by eapply link_traffic].
Qed.

(** What a node owns and its interface never change. *)
Lemma net_step_config s s' i : inv wire s → net_step fx_hash wire s s' → same_config (peers s i) (peers s' i).
Proof.
  intros Hinv Hstep. destruct Hstep as [i0 e x' Hp|i0 n j m data x' Hw Htake Hne [Hb _]].
  - cbn. destruct (decide (i = i0)) as [->|]; [|by rewrite fn_lookup_insert_ne].
    rewrite fn_lookup_insert. apply (peer_step_effect fx_hash _ _ _ (inv_peer _ _ _ _ (Hinv i0)) Hp).
  - cbn. destruct (take_link_effect _ _ _ _ (inv_peer _ _ _ _ (Hinv i0)) Htake) as (Hok & Hc & _).
    assert (H1 : ∀ k, peer_ok (<[i0 := x']> (peers s) k) ∧ same_config (peers s k) (<[i0 := x']> (peers s) k)).
    { intros k. destruct (decide (k = i0)) as [->|]; [by rewrite fn_lookup_insert|rewrite fn_lookup_insert_ne by done].
      split; [apply Hinv|done]. }
    destruct (decide (i = j)) as [->|]; [|rewrite fn_lookup_insert_ne by done; apply H1].
    rewrite fn_lookup_insert. apply H1.
Qed.

(** ** Runs *)

Lemma quiet_run s s' :
  inv wire s → rtc quiet_step s s' →
  inv wire s' ∧ (∀ i, same_config (peers s i) (peers s' i)) ∧ ∀ i t n, traffic_inv s i t n → traffic_inv s' i t n.
Proof.
  intros Hinv Hr. revert Hinv. induction Hr as [s|s s1 s2 Hstep _ IH]; intros Hinv; [done|].
  pose proof (quiet_is_step _ _ Hstep) as Hnet.
  destruct IH as (H1 & H2 & H3); [by eapply net_step_inv|]. split; [done|]. split.
  - intros i. destruct (net_step_config s s1 i Hinv Hnet) as (A1 & A2 & A3 & A4), (H2 i) as (B1 & B2 & B3 & B4).
    split_and!; congruence.
  - intros i t n Ht. by apply H3, (quiet_traffic s).
Qed.

(** A node that has got [p] in a run has taken the step that accepts it. *)
Lemma got_in_run s s' i :
  rtc quiet_step s s' → got s' p i → ¬ got s p i →
  ∃ u u' o, rtc quiet_step s u ∧ peer_step fx_hash (peers u i) (Some (p, o)) (peers u' i) ∧ quiet_step u u' ∧ rtc quiet_step u' s'.
Proof.
  intros Hr. revert s' Hr. apply (rtc_ind_r (λ s', got s' p i → ¬ got s p i →
    ∃ u u' o, rtc quiet_step s u ∧ peer_step fx_hash (peers u i) (Some (p, o)) (peers u' i) ∧ quiet_step u u' ∧ rtc quiet_step u' s')); [done|].
  intros u u' Hru Hstep IH Hgot Hno.
  assert (Hcase : got u p i ∨ ∃ o, peer_step fx_hash (peers u i) (Some (p, o)) (peers u' i)).
  { destruct Hstep as [i0 e x' Hp Hrt Hkeep Htake|]; [|by left]. apply got_local in Hgot as [?|[-> [o ->]]]; [by left|right].
    exists o. by rewrite peers_update_eq. }
  destruct Hcase as [Hg|[o Ho]]; [|exists u, u', o; by split_and!].
  destruct (IH Hg Hno) as (v & v' & o & H1 & H2 & H3 & H4). exists v, v', o. split_and!; [done|done|done|]. by eapply rtc_r.
Qed.

(** Nothing of [p] is on its way any more. *)
Definition nothing_left s : Prop :=
  ∀ i, (SendToFastest a p ∉ swq (peers s i)) ∧ (∀ n, wire i n ≠ None → p ∉ lq (peers s i) n) ∧ ∀ link, (p, link) ∉ inq (peers s i).

(** Along the routes [p] gets to the end. *)
Lemma gets_along s1 s n i owner :
  inv wire s1 → rtc quiet_step s1 s → nothing_left s →
  (∀ j t l, rtc (next_hop wire s1 a) i j → rt (peers s1 j) !! a = Some (t, Tx l) → traffic_inv s1 j t l) →
  nsteps (next_hop wire s1 a) n i owner → n = 0%nat ∨ i = source ∨ got s p i → (0 < n)%nat → got s p owner.
Proof.
  intros Hinv Hr Hnone Hall Hn. induction Hn as [i|n i j owner Hhop Hns IH]; intros Hg Hpos; [lia|].
  destruct (quiet_run s1 s Hinv Hr) as (_ & Hconf & Htr). pose proof Hhop as (Hown & t & link & Hrt & (l & m & -> & Hw)).
  destruct (Htr i t l (Hall i t l ltac:(reflexivity) Hrt)) as (_ & _ & Hway).
  assert (Hgj : got s p j).
  { destruct (Hconf i) as (_ & _ & Hips & _). destruct (Hnone i) as (H1 & H2 & _), (Hnone j) as (_ & _ & H3).
    destruct Hg as [?|Hg]; [done|].
    destruct (Hway j m Hw Hg) as [H|[H|[H|H]]]; [by rewrite Hips|done|by destruct (H2 l ltac:(by rewrite Hw))|by destruct (H3 (Tx m))|done]. }
  destruct n as [|n]; [|apply IH; [|by right; right|lia]].
  - by inversion Hns; subst.
  - intros j' t' l' Hj'. apply Hall. by eapply rtc_l.
Qed.
(** The task that reads the interface hands [p] to the switchboard of the source. *)
Definition after_read s w : Net := update s source (with_chans w (peers s source)) [].

Lemma read_spec s :
  inv wire s → uint 64 millis →
  ∃ w, forward switchboard millis packet (chans (peers s source)) = Ret w ∧ net_step fx_hash wire s (after_read s w)
    ∧ SendToFastest a p ∈ swq (peers (after_read s w) source) ∧ log (after_read s w) = log s
    ∧ ∀ i, same_config (peers s i) (peers (after_read s w) i) ∧ task (peers (after_read s w) i) = task (peers s i)
        ∧ ∀ n, is_open (chans (peers (after_read s w) i)) (Tx n) = is_open (chans (peers s i)) (Tx n).
Proof.
  intros Hinv Hms. assert (Hne : packet ≠ []) by (intros ->; discriminate packet_to).
  destruct (forward_spec switchboard millis packet (chans (peers s source)) packet_bytes Hne) as (w & Hw & Hd).
  rewrite packet_to in Hd. exists w. split; [exact Hw|].
  destruct (send_switch_ok (peers s source) (SendToFastest a p) (inv_peer _ _ _ _ (Hinv source))) as (_ & Hc & _ & Hs & Ht & _).
  change (unbounded_send (Switch 0) (SendToFastest a p) (chans (peers s source))).2
    with (send_to_fastest switchboard a p (chans (peers s source))) in Hc, Hs, Ht. rewrite <- Hd in Hc, Hs, Ht.
  split; [apply (net_local fx_hash wire s source None); by eapply step_tun|].
  split; [unfold after_read; rewrite peers_update_eq, Hs; apply elem_of_app; right; apply list_elem_of_here|].
  split; [apply app_nil_r|]. intros i. unfold after_read. destruct (decide (i = source)) as [->|]; [|by rewrite peers_update_ne].
  rewrite peers_update_eq. split; [exact Hc|]. split; [exact Ht|]. intros n. cbn [chans with_chans]. rewrite Hd.
  apply links_eq, (send_switch_frame (Switch 0)).
Qed.

Lemma same_hops s s' :
  (∀ i, same_config (peers s i) (peers s' i) ∧ task (peers s' i) = task (peers s i)) →
  ∀ i j, next_hop wire s a i j ↔ next_hop wire s' a i j.
Proof.
  intros Hsame i j. destruct (Hsame i) as ((_ & _ & Hips & _) & Ht). unfold next_hop, owns, rt. by rewrite Hips, Ht.
Qed.

(** C4. Traffic reaches its destination. In any reachable network, let a node that
    has a route to an address read an IP packet for it from its interface, the links
    of the routes from there on being open. The task that reads it never fails, and
    what it makes of the packet fits in a frame. If then the routes to the address
    stay as they are, their links neither end nor lose the packet, and no node on the
    way rejects it, then, in whatever order all tasks of all nodes take their steps,
    once nothing of it is left in any queue it has come out where the routes end, at
    an owner of the address, any number of hops away: one step of that node has put
    exactly the bytes that were read in the queue of its interface, if it has one. *)
Theorem traffic_reaches_owner s0 s1 :
  net_started wire s0 → reachable fx_hash wire s0 s1 →
  uint 64 millis → Z.of_nat (length packet) <= 2048 →
  a ∉ our_ips (node (peers s1 source)) → is_Some (rt (peers s1 source) !! a) → (∀ i, ¬ got s1 p i) →
  (∀ i t n, rtc (next_hop wire s1 a) source i → rt (peers s1 i) !! a = Some (t, Tx n) → is_open (chans (peers s1 i)) (Tx n) = true) →
  ∃ w, forward switchboard millis packet (chans (peers s1 source)) = Ret w ∧ packet_ok p
    ∧ ∀ s, rtc quiet_step (after_read s1 w) s → nothing_left s →
        ∃ n owner, nsteps (next_hop wire s1 a) (Datatypes.S n) source owner ∧ a ∈ our_ips (node (peers s1 owner)) ∧ got s p owner
          ∧ ∀ tun, tun_sender (node (peers s1 owner)) = Some tun →
              ∃ u u', rtc quiet_step (after_read s1 w) u ∧ quiet_step u u' ∧ rtc quiet_step u' s
                ∧ queued (chans (peers u' owner)) tun = queued (chans (peers u owner)) tun ++ [packet].
Proof.
  intros H0 Hr Hms Hlen Hnot Hroute Hnone Hopen. pose proof (reachable_inv fx_hash wire wire_sym s0 s1 H0 Hr) as Hinv1.
  destruct (read_spec s1 Hinv1 Hms) as (w & Hw & Hstep & Hin & Hlog & Hsame). set (s2 := after_read s1 w) in *.
  exists w. split; [exact Hw|]. split.
  { split; [apply list.Forall_app; split; [apply to_le_bytes_bytes|by constructor]|].
    unfold netpacket. rewrite length_app, length_to_le_bytes. cbn [app length]. lia. }
  intros s Hrun Hleft. pose proof (net_step_inv fx_hash wire wire_sym s1 s2 Hstep Hinv1) as Hinv2.
  pose proof (same_hops s1 s2 ltac:(intros i; split; apply Hsame)) as Hhop.
  destruct Hroute as [[t link] Hrt].
  destruct (route_reaches wire s1 a Hinv1 source (source, (a, t))) as (n & owner & Hn & Hown & _); [by exists t, link|].
  destruct n as [|n]; [by inversion Hn; subst|]. exists n, owner. split; [exact Hn|]. split; [exact Hown|].
  assert (Hn2 : nsteps (next_hop wire s2 a) (Datatypes.S n) source owner).
  { refine (nsteps_congruence (λ i, i) (next_hop wire s2 a) _ _ _ _ Hn). intros i j. apply Hhop. }
  assert (Hgot : got s p owner).
  { apply (gets_along s2 s (Datatypes.S n) source owner Hinv2 Hrun Hleft); [|exact Hn2|by right; left|lia].
    intros j t' l Hj Hrtj. destruct (Hsame j) as (_ & Ht & Ho). unfold rt in Hrtj. rewrite Ht in Hrtj.
    split; [unfold rt; by rewrite Ht|]. split.
    - rewrite Ho. eapply Hopen; [|exact Hrtj]. refine (rtc_congruence (λ i, i) (next_hop wire s1 a) _ _ _ Hj). intros i k. apply Hhop.
    - intros j' m Hw' [->|Hg]; [intros _; by left|]. destruct (Hnone j). unfold got in *. by rewrite <- Hlog. }
  split; [exact Hgot|]. intros tun Htun.
  destruct (got_in_run s2 s owner Hrun Hgot) as (u & u' & o & H1 & H2 & H3 & H4).
  { intros Hg. apply (Hnone owner). unfold got in *. by rewrite <- Hlog. }
  exists u, u'. split; [exact H1|]. split; [exact H3|]. split; [exact H4|].
  destruct (quiet_run s2 u Hinv2 H1) as (Hinvu & Hconf & _).
  destruct (Hsame owner) as ((_ & _ & A1 & A2) & _), (Hconf owner) as (_ & _ & B1 & B2).
  apply (accept_traffic _ _ _ (inv_peer _ _ _ _ (Hinvu owner)) H2); [by rewrite B1, A1|by rewrite B2, A2].
Qed.

(** ** Schedules *)

(** The conditions of [quiet_step], for a step of the node [x]. *)
Definition keeps_route x x' : Prop :=
  rt x' !! a = rt x !! a
  ∧ match rt x !! a with
    | Some (_, Tx n) => is_open (chans x) (Tx n) = true → is_open (chans x') (Tx n) = true ∧ (p ∈ lq x n → p ∈ lq x' n)
    | None => True
    end.
#[local] Instance keeps_route_dec x x' : Decision (keeps_route x x').
Proof. unfold keeps_route. destruct (rt x !! a) as [[? []]|]; apply _. Defined.
#[local] Instance takes_traffic_dec s i x' e : Decision (takes p s i x' e).
Proof. unfold takes. destruct (inq (peers s i)) as [|[q l] rest]; apply _. Defined.

Definition quiet_exec (c : command) s : option Net :=
  match c with
  | Transfer i n =>
      '(j, m) ← wire i n;
      if decide (is_open (chans (peers s j)) (Incoming 0) = true) then exec fx_hash wire c s else None
  | _ =>
      '(e, x') ← exec_peer fx_hash c (peers s (on_peer c));
      if decide (keeps_route (peers s (on_peer c)) x' ∧ takes p s (on_peer c) x' e) then exec fx_hash wire c s else None
  end.

Fixpoint quiet_runs (cs : list command) s : option Net :=
  match cs with
  | [] => Some s
  | c :: cs => s ← quiet_exec c s; quiet_runs cs s
  end.

Lemma quiet_exec_step c s s' : quiet_exec c s = Some s' → quiet_step s s'.
Proof.
  assert (Hlocal : ∀ c, exec fx_hash wire c s = ('(e, x') ← exec_peer fx_hash c (peers s (on_peer c));
      Some (MkNet (<[on_peer c := x']> (peers s)) (log s ++ from_option (λ n, [(on_peer c, n)]) [] e))) →
    ('(e, x') ← exec_peer fx_hash c (peers s (on_peer c));
      if decide (keeps_route (peers s (on_peer c)) x' ∧ takes p s (on_peer c) x' e) then exec fx_hash wire c s else None) = Some s' →
    quiet_step s s').
  { intros c' ->. destruct (exec_peer fx_hash c' _) as [[e x']|] eqn:E; [|done]. cbn [mbind option_bind].
    case_decide as Hd; [|done]. destruct Hd as [[Hrt Hk] Ht]. intros [= <-].
    apply quiet_local; [by eapply exec_peer_step|done| |].
    - intros t n Hr. by rewrite Hr in Hk.
    - intros link rest Hin Hin'. unfold takes in Ht. rewrite Hin in Ht. destruct (Ht eq_refl Hin') as [?|He]; [by left|right].
      apply Exists_exists in He as ([i [q o]] & He & [Hi Hq]). cbn in Hi, Hq. rewrite Hi, Hq in He. exists o.
      apply list_elem_of_In. exact He. }
  destruct c as [i fuel current|i|i|i ms octets|i n]; try (apply Hlocal; reflexivity).
  cbn [quiet_exec exec]. destruct (wire i n) as [[j m]|] eqn:Hw; [|done]. cbn [mbind option_bind].
  case_decide as Ho; [|done]. destruct (take_link n (peers s i)) as [[data x']|] eqn:Ht; [|done]. cbn [mbind option_bind].
  case_decide as Hd; [|done]. intros [= <-]. destruct Hd. by eapply quiet_link.
Qed.

Lemma quiet_runs_rtc cs s s' : quiet_runs cs s = Some s' → rtc quiet_step s s'.
Proof.
  revert s. induction cs as [|c cs IH]; intros s; cbn [quiet_runs]; [intros [= <-]; apply rtc_refl|].
  destruct (quiet_exec c s) as [s1|] eqn:E; [|done]. cbn [mbind option_bind]. intros H.
  eapply rtc_l; [by eapply quiet_exec_step|by apply IH].
Qed.
End traffic.

(** ** Witness

    Three nodes in a line. Node 0 owns 10.0.0.7 and has a TUN interface, its channel
    0; node 2 is two hops away. *)
Definition line (i n : nat) : option (nat * nat) :=
  match i, n with
  | 0%nat, 1%nat => Some (1%nat, 0%nat)
  | 1%nat, 0%nat => Some (0%nat, 1%nat)
  | 1%nat, 1%nat => Some (2%nat, 0%nat)
  | 2%nat, 0%nat => Some (1%nat, 1%nat)
  | _, _ => None
  end.

Definition line_node : option (outcome (Node byte_tx route_tx)) :=
  run_meshnode_init 1000 (str_bytes "P") [str_bytes "10.0.0.7"] (Some (Tx 0)) None.
Definition line_owner : Peer :=
  MkPeer (str_bytes "P") [[10; 0; 0; 7]]
    (match line_node with Some (Ret st) => st | _ => MkNode ∅ (SeenPackets.new 0) None None end) initial
    (MkWorld {[0%nat := (true, [])]} {[0%nat := (true, [])]} {[0%nat := (true, [])]} ∅).
Definition line_net : Net := MkNet (λ i, if decide (i = 0%nat) then line_owner else ring_peer [] []) [].

Lemma line_sym i n j m : line i n = Some (j, m) → line j m = Some (i, n).
Proof. destruct i as [|[|[|i]]], n as [|[|n]]; try done; by intros [= <- <-]. Qed.

Lemma line_started : net_started line line_net.
Proof.
  assert (H0 : ∃ ips st, own_ipv4s [str_bytes "10.0.0.7"] = Ret ips ∧ [[10; 0; 0; 7]] = ips.*2
    ∧ line_node = Some (Ret st) ∧ tun_sender st = Some (Tx 0) ∧ route_adder st = None)
    by (eexists _, _; split_and!; vm_compute; reflexivity).
  assert (H1 : ∃ ips st, own_ipv4s [] = Ret ips ∧ ([] : list bytes) = ips.*2
    ∧ ring_node [] = Some (Ret st) ∧ tun_sender st = None ∧ route_adder st = None)
    by (eexists _, _; split_and!; vm_compute; reflexivity).
  destruct H0 as (ips0 & st0 & A1 & A2 & A3 & A4 & A5), H1 as (ips1 & st1 & B1 & B2 & B3 & B4 & B5).
  assert (Ho : node line_owner = st0) by (unfold line_owner; by rewrite A3).
  split; [reflexivity|]. split.
  - intros i. cbn [peers line_net]. case_decide; [|exact (ring_peer_started _ _ _ _ B1 B2 B3 B4 B5)].
    unfold started. rewrite Ho, A4, A5. split; [vm_compute; reflexivity|]. split; [exists 1000%nat, [str_bytes "10.0.0.7"], ips0; split; [exact A1|split; [exact A2|exact A3]]|].
    split; [reflexivity|]. split; [|split; [reflexivity|split; [reflexivity|]]].
    + split; [reflexivity|]. rewrite A4, A5. split; [done|]. by intros c [= <-].
    + intros n Hn. destruct n as [|n]; [reflexivity|]. unfold lq, line_owner. cbn. unfold chan_store.
      by rewrite (lookup_singleton_ne (M := gmap nat)).
  - intros i n Hn. unfold is_link. cbn [peers line_net]. case_decide as Hi.
    + rewrite Ho, A4. intros [= <-]. rewrite Hi in Hn. exact (Hn eq_refl).
    + unfold ring_peer. cbn [node]. rewrite B3, B4. discriminate.
Qed.

(** The links are set up, and the announcement of node 0 goes down the line. *)
Definition line_flood : list command :=
  [AddLink 0; AddLink 1; AddLink 1; AddLink 2; Serve 0; Serve 1; Serve 1; Serve 2;
   AnnounceIpv4 0 1000 [10; 0; 0; 7]; Serve 0; Transfer 0 1; Receive 1 0 1010; Serve 1; Serve 1;
   Transfer 1 0; Transfer 1 1; Receive 0 0 1020; Receive 2 0 1020; Serve 0; Serve 0; Serve 2; Serve 2;
   Transfer 0 1; Transfer 2 0; Receive 1 0 1030; Receive 1 0 1030].
(** The packet goes up the line. *)
Definition line_traffic : list command :=
  [Serve 2; Transfer 2 0; Receive 1 0 1110; Serve 1; Transfer 1 0; Receive 0 0 1120].

Definition line_flooded : Net := default line_net (run example_hash line line_flood line_net).
Definition line_read (w : world) : Net := after_read 2 line_flooded w.
Definition line_end (w : world) : Net :=
  default line_net (quiet_runs example_hash line 1100 example_ip (V4 10 0 0 7) line_traffic (line_read w)).

Lemma line_routes i :
  match rt (peers line_flooded i) !! V4 10 0 0 7 with
  | Some (_, Tx n) => is_open (chans (peers line_flooded i)) (Tx n) = true
  | None => True
  end.
Proof. destruct i as [|[|[|i]]]; vm_compute; reflexivity || exact I. Qed.

Lemma line_not_got i : ¬ got line_flooded (netpacket 1100 example_ip) i.
Proof.
  intros [o Ho]. assert (H : Forall (λ en, en.2.1 ≠ netpacket 1100 example_ip) (log line_flooded)).
  { apply (bool_decide_unpack _). vm_compute. reflexivity. }
  eapply list.Forall_forall in H; [|exact Ho]. by apply H.
Qed.

Lemma line_owned i : V4 10 0 0 7 ∈ our_ips (node (peers line_flooded i)) ↔ i = 0%nat.
Proof.
  assert (H : bool_decide (V4 10 0 0 7 ∈ our_ips (node (peers line_flooded i))) = match i with 0%nat => true | _ => false end)
    by (destruct i as [|[|[|i]]]; vm_compute; reflexivity).
  destruct i as [|i]; [apply bool_decide_eq_true in H|apply bool_decide_eq_false in H].
  - split; intros _; [reflexivity|exact H].
  - split; [intros E; destruct (H E)|discriminate].
Qed.

(** What node 2 reads comes out of the interface of node 0. *)
Lemma traffic_reaches_owner_witness :
  ∃ w s u u', rtc (quiet_step example_hash line 1100 example_ip (V4 10 0 0 7)) (line_read w) u
    ∧ rtc (quiet_step example_hash line 1100 example_ip (V4 10 0 0 7)) u' s
    ∧ queued (chans (peers u' 0%nat)) (Tx 0) = queued (chans (peers u 0%nat)) (Tx 0) ++ [example_ip].
Proof.
  assert (H1 : run example_hash line line_flood line_net = Some line_flooded) by (apply default_some; vm_compute; reflexivity).
  assert (Hb : is_bytes example_ip) by solve_bytes.
  assert (Hto : decode_ip example_ip = Traffic (V4 10 0 0 7) example_ip) by (vm_compute; reflexivity).
  assert (Hnot : V4 10 0 0 7 ∉ our_ips (node (peers line_flooded 2%nat))) by (by rewrite line_owned).
  assert (Hroute : is_Some (rt (peers line_flooded 2%nat) !! V4 10 0 0 7)) by (vm_compute; eexists; reflexivity).
  assert (Hopen : ∀ i t n, rtc (next_hop line line_flooded (V4 10 0 0 7)) 2%nat i →
    rt (peers line_flooded i) !! V4 10 0 0 7 = Some (t, Tx n) → is_open (chans (peers line_flooded i)) (Tx n) = true).
  { intros i t n _ Hr. pose proof (line_routes i) as H. by rewrite Hr in H. }
  destruct (traffic_reaches_owner example_hash line line_sym 1100 example_ip (V4 10 0 0 7) Hb Hto 2%nat line_net line_flooded
    line_started (run_reachable _ _ _ _ _ H1) ltac:(split; [lia|reflexivity]) ltac:(discriminate) Hnot Hroute line_not_got Hopen)
    as (w & Hw & _ & H).
  assert (H2 : quiet_runs example_hash line 1100 example_ip (V4 10 0 0 7) line_traffic (line_read w) = Some (line_end w)
    ∧ nothing_left line 1100 example_ip (V4 10 0 0 7) (line_end w) ∧ tun_sender (node (peers line_flooded 0%nat)) = Some (Tx 0)).
  { assert (Hfw : ∃ w', forward switchboard 1100 example_ip (chans (peers line_flooded 2%nat)) = Ret w' ∧
      quiet_runs example_hash line 1100 example_ip (V4 10 0 0 7) line_traffic (line_read w') = Some (line_end w')
      ∧ ∀ i, swq (peers (line_end w') i) = [] ∧ lq (peers (line_end w') i) 1%nat = [] ∧ (i ≠ 0%nat → lq (peers (line_end w') i) 0%nat = [])
        ∧ inq (peers (line_end w') i) = []).
    { eexists. split; [vm_compute; reflexivity|]. split; [apply default_some; vm_compute; reflexivity|].
      intros [|[|[|i]]]; vm_compute; split_and!; try reflexivity; intros E; destruct (E eq_refl). }
    destruct Hfw as (w' & Hw' & Hrun & Hq). rewrite Hw in Hw'. injection Hw' as <-. split; [exact Hrun|]. split; [|vm_compute; reflexivity].
    intros i. destruct (Hq i) as (Hs & Hl1 & Hl0 & Hi). split_and!; [rewrite Hs; apply not_elem_of_nil| |intros link; rewrite Hi; apply not_elem_of_nil].
    intros n Hn. assert (E : lq (peers (line_end w) i) n = []); [|rewrite E; apply not_elem_of_nil].
    destruct n as [|[|n]]; [|exact Hl1|destruct i as [|[|[|i]]]; destruct (Hn eq_refl)].
    apply Hl0. intros ->. exact (Hn eq_refl). }
  destruct H2 as (Hrun & Hleft & Htun).
  destruct (H (line_end w) (quiet_runs_rtc _ _ _ _ _ _ _ _ Hrun) Hleft) as (n & owner & _ & Hown & _ & Hout).
  apply line_owned in Hown as ->. destruct (Hout (Tx 0) Htun) as (u & u' & Hu & _ & Hu' & Hq).
  exists w, (line_end w), u, u'. split; [exact Hu|]. split; [exact Hu'|exact Hq].
Defined.
