(* ===== verification/MeshSettle.v ===== *)
(** Floods end ([Mesh]): how many steps, in the whole network, an announcement
    that is broadcast can cause.

    The network has finitely many nodes and links. While the flood is under way
    links may be set up (up to [D] per node), lose packets and end, the tasks of
    all nodes take their steps in any order, and all other traffic goes on. The
    proof is by a potential: what the copies of the packet in all queues can
    still cause, which every step that handles the packet takes from, and which
    only its emission or acceptance adds to; and a node accepts the packet once
    while its memory ([SeenPackets]) holds it. *)
From stdpp Require Import functions numbers.
From S2P Require Import Prelude IpAddr SeenPackets Channel AllSenders World Framing MeshNode Mesh MeshRoutes MeshFlood.

(** ** Counting *)

(** How often a packet occurs in a list. *)
Definition occ (p : bytes) (l : list bytes) : nat := length (filter (p =.) l).

Lemma occ_app p l k : occ p (l ++ k) = (occ p l + occ p k)%nat.
Proof. unfold occ. by rewrite list.filter_app, length_app. Qed.
Lemma occ_cons p q l : occ p (q :: l) = ((if decide (p = q) then 1 else 0) + occ p l)%nat.
Proof. unfold occ. rewrite filter_cons. by case_decide. Qed.
Lemma occ_replicate_ne p q n : p ≠ q → occ p (replicate n q) = 0%nat.
Proof. intros Hne. induction n as [|n IH]; [done|]. cbn [replicate]. by rewrite occ_cons, decide_False, IH. Qed.
Lemma occ_replicate p n : occ p (replicate n p) = n.
Proof. induction n as [|n IH]; [done|]. cbn [replicate]. by rewrite occ_cons, decide_True, IH. Qed.
Lemma occ_none p l : p ∉ l → occ p l = 0%nat.
Proof.
  unfold occ. intros Hl. destruct (filter (p =.) l) as [|q k] eqn:E; [done|]. destruct Hl.
  assert (Hq : q ∈ filter (p =.) l) by (rewrite E; apply list_elem_of_here). by apply list_elem_of_filter in Hq as [-> ?].
Qed.
Lemma occ_tail p l : (occ p (tail l) <= occ p l)%nat.
Proof. destruct l as [|q l]; [done|]. rewrite occ_cons. cbn [tail]. lia. Qed.

Lemma sum_list_with_le {A} (f g : A → nat) l :
  (∀ x, x ∈ l → f x <= g x)%nat → (sum_list_with f l <= sum_list_with g l)%nat.
Proof.
  induction l as [|x l IH]; intros H; [done|]. cbn. pose proof (H x (list_elem_of_here _ _)).
  assert (sum_list_with f l <= sum_list_with g l)%nat by (apply IH; intros; apply H; by apply elem_of_cons; right). lia.
Qed.

Lemma sum_list_with_lt {A} (f g : A → nat) l :
  (∀ x, x ∈ l → f x <= g x)%nat → (∃ x, x ∈ l ∧ f x ≠ g x) → (sum_list_with f l < sum_list_with g l)%nat.
Proof.
  induction l as [|x l IH]; intros H (y & Hy & Hne); [by apply elem_of_nil in Hy|]. cbn.
  pose proof (H x (list_elem_of_here _ _)) as Hx.
  assert (Hl : ∀ y, y ∈ l → (f y <= g y)%nat) by (intros; apply H; by apply elem_of_cons; right).
  pose proof (sum_list_with_le f g l Hl). apply elem_of_cons in Hy as [->|Hy]; [lia|].
  assert (sum_list_with f l < sum_list_with g l)%nat by (apply IH; eauto). lia.
Qed.

Lemma sum_list_with_eq {A} (f g : A → nat) l : (∀ x, x ∈ l → f x = g x) → sum_list_with f l = sum_list_with g l.
Proof.
  intros H. apply Nat.le_antisymm; apply sum_list_with_le; intros x Hx; by rewrite (H x Hx).
Qed.

(** A sum of which one term changes. *)
Lemma sum_list_with_update {A} (f g : A → nat) l x :
  NoDup l → x ∈ l → (∀ y, y ∈ l → y ≠ x → f y = g y) →
  (sum_list_with f l + g x = sum_list_with g l + f x)%nat.
Proof.
  induction 1 as [|y l Hy Hnd IH]; intros Hx Hother; [by apply elem_of_nil in Hx|]. cbn.
  apply elem_of_cons in Hx as [->|Hx].
  - rewrite (sum_list_with_eq f g l); [lia|]. intros z Hz. apply Hother; [by apply elem_of_cons; right|]. intros ->. done.
  - rewrite (Hother y) by (first [apply list_elem_of_here|intros ->; done]).
    specialize (IH Hx (λ z Hz, Hother z (list_elem_of_further _ _ _ Hz))). lia.
Qed.

(** ** One node *)

(** The broadcasts of a packet in the queue of a switchboard. *)
Definition load (msg : AllSendersMessage byte_tx) : list bytes :=
  match msg with SendToAll data => [data] | _ => [] end.
Definition waiting (p : bytes) (q : list (AllSendersMessage byte_tx)) : nat := occ p (q ≫= load).

Lemma waiting_app p q q' : waiting p (q ++ q') = (waiting p q + waiting p q')%nat.
Proof. unfold waiting. by rewrite bind_app, occ_app. Qed.
Lemma waiting_cons p msg q : waiting p (msg :: q) = (occ p (load msg) + waiting p q)%nat.
Proof. unfold waiting. by rewrite bind_cons, occ_app. Qed.
Lemma waiting_none p q : SendToAll p ∉ q → waiting p q = 0%nat.
Proof.
  intros Hq. apply occ_none. intros (msg & Hp & Hm)%list_elem_of_bind. destruct Hq.
  destruct msg as [s|m a s|a d|d|]; cbn in Hp; try by apply elem_of_nil in Hp.
  by apply list_elem_of_singleton in Hp as ->.
Qed.

(** The links a node sends on. *)
Definition degree (x : Peer) : nat := length (senders (task x)).

Section node.
Context (ends : list nat) (ends_nodup : NoDup ends) (D : nat) (p : bytes).
Context (a : IpAddr) (t : Z) (p_announces : announces p a t).

(** The copies of [p] on the links, and in the node's own queue. *)
Definition on_links (x : Peer) : nat := sum_list_with (λ n, occ p (lq x n)) ends.
Definition in_queue (x : Peer) : nat := occ p (inq x).*1.

(** How many steps the copies of [p] at a node can still cause, there and at the
    other ends of its [D] links: a copy on a link travels and is received; a
    broadcast that waits is served first, for each link. *)
Definition burden (x : Peer) : nat := ((2 * D + 1) * waiting p (swq x) + 2 * on_links x + in_queue x)%nat.

(** A step at a node handles [p] if it changes one of its queues as far as [p] goes. *)
Definition handles (x x' : Peer) : Prop :=
  waiting p (swq x') ≠ waiting p (swq x) ∨ in_queue x' ≠ in_queue x ∨ Exists (λ n, occ p (lq x' n) ≠ occ p (lq x n)) ends.
#[export] Instance handles_dec x x' : Decision (handles x x').
Proof. unfold handles. apply _. Defined.

(** A broadcast makes at most one copy per link registered. *)
Lemma registrations_bound (ss : list byte_tx) ns :
  NoDup ns → (sum_list_with (λ n, registrations (Tx n) ss) ns <= length ss)%nat.
Proof.
  intros Hns. induction ss as [|[m] ss IH]; [clear Hns; induction ns as [|n ns IHn]; [done|exact IHn]|].
  assert (E : (sum_list_with (λ n, registrations (Tx n) (Tx m :: ss)) ns
    <= 1 + sum_list_with (λ n, registrations (Tx n) ss) ns)%nat); [|cbn [length]; lia].
  clear IH. unfold registrations. destruct (decide (m ∈ ns)) as [Hm|Hm].
  - pose proof (sum_list_with_update (λ n, length (filter (Tx n =.) (Tx m :: ss))) (λ n, length (filter (Tx n =.) ss)) ns m Hns Hm) as H.
    cbv beta in H. rewrite (filter_cons (Tx m =.)), decide_True in H by done. cbn [length] in H.
    rewrite (Nat.add_comm _ (length _)) in H. specialize (H ltac:(intros y _ Hy; by rewrite filter_cons, decide_False by congruence)). lia.
  - rewrite (sum_list_with_eq _ (λ n, length (filter (Tx n =.) ss))); [lia|].
    intros n Hn. rewrite filter_cons, decide_False; [done|]. intros [= ->]. done.
Qed.

(** Links that only shrink. *)
Lemma on_links_le x x' :
  (∀ n, n ∈ ends → occ p (lq x' n) <= occ p (lq x n))%nat →
  (on_links x' <= on_links x)%nat ∧ (Exists (λ n, occ p (lq x' n) ≠ occ p (lq x n)) ends → on_links x' < on_links x)%nat.
Proof.
  intros H. split; [by apply sum_list_with_le|]. intros He. apply sum_list_with_lt; [done|].
  apply list.Exists_exists in He. done.
Qed.

Lemma on_links_same x x' : (∀ n, n ∈ ends → occ p (lq x' n) = occ p (lq x n)) →
  on_links x' = on_links x ∧ ¬ Exists (λ n, occ p (lq x' n) ≠ occ p (lq x n)) ends.
Proof.
  intros H. split; [apply sum_list_with_eq; intros n Hn; by rewrite H|].
  intros (n & Hn & Hne)%list.Exists_exists. by rewrite H in Hne.
Qed.

(** What serving a message puts on the links. *)
Lemma delivered_occ (ts : TaskState byte_tx) (w : world) msg c :
  p ≠ [] → (∀ b, msg ≠ SendToFastest b p) →
  (occ p (delivered ts w msg c) <= registrations c (senders ts) * occ p (load msg))%nat.
Proof.
  intros Hp Hmsg. unfold delivered. destruct (is_open w c); [|cbn; lia].
  destruct msg as [s|m b s|b d|d|]; cbn [load]; try (cbn; lia).
  - destruct (fastest_to_address ts !! b) as [[m s]|]; [|cbn; lia]. case_decide; [|cbn; lia].
    rewrite occ_cons, decide_False; [cbn; lia|]. intros ->. by apply (Hmsg b).
  - destruct (decide (p = d)) as [->|Hne]; [|rewrite occ_replicate_ne by done; lia].
    rewrite occ_replicate, occ_cons, decide_True by done. cbn. lia.
  - rewrite occ_replicate_ne by done. lia.
Qed.

Lemma serve_links x x' msg w w' :
  p ≠ [] → (∀ b, msg ≠ SendToFastest b p) → (degree x <= D)%nat →
  handle (task x) w msg = (task x', w') → (∀ n, lq x n = queued w (Tx n) ∧ lq x' n = queued w' (Tx n)) →
  (on_links x' <= on_links x + D * occ p (load msg))%nat
  ∧ (occ p (load msg) = 0%nat → ∀ n, occ p (lq x' n) = occ p (lq x n)).
Proof.
  intros Hp Hmsg HD Hh Hl.
  assert (Hocc : ∀ n, (occ p (lq x n) <= occ p (lq x' n) <= occ p (lq x n) + registrations (Tx n) (senders (task x)) * occ p (load msg))%nat).
  { intros n. destruct (Hl n) as [-> ->]. replace w' with (handle (task x) w msg).2 by by rewrite Hh.
    destruct (handle_spec (task x) w msg) as [H _]. destruct (H (Tx n)) as [-> _]. rewrite occ_app.
    pose proof (delivered_occ (task x) w msg (Tx n) Hp Hmsg). lia. }
  split; [|intros E n; specialize (Hocc n); rewrite E in Hocc; lia].
  pose proof (registrations_bound (senders (task x)) ends ends_nodup) as Hr. unfold degree in HD.
  transitivity (on_links x + sum_list_with (λ n, registrations (Tx n) (senders (task x))) ends * occ p (load msg))%nat; [|nia].
  unfold on_links. clear -Hocc. induction ends as [|n ns IH]; [done|]. cbn [sum_list_with]. specialize (Hocc n). rewrite Nat.mul_add_distr_r. lia.
Qed.
(** The packets that what a node does puts in its switchboard's queue. *)
Lemma effects_waiting (st : Node byte_tx route_tx) fuel data body link :
  decode fuel (data !!! 8%nat) (drop 9 data) = Some body →
  waiting p (to_switch (effects st (from_le_bytes (take 8 data)) body data link)) = if decide (data = p) then 1%nat else 0%nat.
Proof.
  intros Hdec. case_decide as E.
  - subst data. destruct (announces_decode _ _ _ _ _ Hdec p_announces) as (-> & _ & _). cbn [effects to_switch].
    rewrite !waiting_cons. cbn [load]. by rewrite occ_cons, decide_True.
  - apply waiting_none. destruct body as [b| |dst ip| |]; cbn [effects to_switch];
      [| |destruct (bool_decide _)| |]; set_solver.
Qed.

(** What an effect does to the burden: only the emission or acceptance of [p]
    adds to it, and every step that handles [p] takes some of it. *)
Lemma effect_burden x x' e :
  p ≠ [] → (degree x <= D)%nat → (∀ n, n ∈ ends → is_link x n) → (∀ b, SendToFastest b p ∉ swq x) → effect x x' e →
  ((if decide (handles x x') then 1 else 0) + burden x'
    <= burden x + if decide (from_option fst [] e = p) then 2 * D + 2 else 0)%nat.
Proof.
  intros Hp HD Hlinks Hroute He.
  set (c := if decide (from_option fst [] e = p) then _ else _).
  enough (burden x' <= burden x + c ∧ (handles x x' → burden x' < burden x + c))%nat by (case_decide; naive_solver lia).
  unfold c, burden, handles. clear c.
  destruct He as [data link Hq Hsw Ht Hl|fuel data link body Hq Hlen Hdec Hsw Ht Hl|msg w w' Hsw Hh Hq Hl
    |data o Hq Hsw Ht Hl _ _|msgs Hq Hsw Hm Ht Hl|Hq Hsw Ht Hl].
  - (* dropped *)
    destruct (on_links_same x x') as [-> Hno]; [intros; by rewrite Hl|]. rewrite Hsw.
    assert (Ei : in_queue x = ((if decide (p = data) then 1 else 0) + in_queue x')%nat) by (unfold in_queue; rewrite Hq; apply occ_cons).
    rewrite Ei. rewrite (decide_False (P := from_option fst [] None = p)) by (cbn; congruence).
    split; [lia|]. intros [?|[?|?]]; [done|lia|done].
  - (* accepted *)
    destruct (on_links_same x x') as [-> Hno]; [intros; rewrite Hl; auto|].
    assert (Ei : in_queue x = ((if decide (p = data) then 1 else 0) + in_queue x')%nat) by (unfold in_queue; rewrite Hq; apply occ_cons).
    pose proof (effects_waiting (node x) fuel data body link Hdec) as Ew. rewrite Hsw, waiting_app, Ew, Ei. cbn [from_option fst].
    destruct (decide (data = p)) as [->|Hne]; [rewrite !decide_True by done; split; [nia|intros _; nia]|].
    rewrite (decide_False (P := p = data)) by congruence.
    split; [lia|]. intros [?|[?|?]]; [lia|lia|done].
  - (* served *)
    assert (Hmsg : ∀ b, msg ≠ SendToFastest b p) by (intros b ->; apply (Hroute b); rewrite Hsw; apply list_elem_of_here).
    destruct (serve_links x x' msg w w' Hp Hmsg HD Hh) as [Hle Hzero];
      [intros n; split; apply Hl|]. rewrite Hsw, waiting_cons.
    assert (Ei : in_queue x' = in_queue x) by (unfold in_queue; by rewrite Hq). rewrite Ei.
    destruct (occ p (load msg)) as [|k]; [|split; nia].
    destruct (on_links_same x x') as [-> Hno]; [intros; by apply Hzero|].
    split; [lia|]. intros [?|[?|?]]; [lia|lia|done].
  - (* emitted *)
    destruct (on_links_same x x') as [-> Hno]; [intros; by rewrite Hl|].
    assert (Ei : in_queue x' = in_queue x) by (unfold in_queue; by rewrite Hq).
    rewrite Hsw, waiting_app, waiting_cons, Ei. cbn [load from_option fst]. rewrite occ_cons.
    destruct (decide (data = p)) as [->|Hne]; [rewrite (decide_True (P := p = p)) by done; change (waiting p []) with 0%nat; change (occ p []) with 0%nat; split; [nia|intros _; nia]|].
    rewrite (decide_False (P := p = data)) by congruence. change (waiting p []) with 0%nat; change (occ p []) with 0%nat.
    split; [lia|]. intros [?|[?|?]]; [lia|lia|done].
  - (* other messages *)
    destruct (on_links_same x x') as [-> Hno]; [intros; by rewrite Hl|].
    assert (Ei : in_queue x' = in_queue x) by (unfold in_queue; by rewrite Hq).
    rewrite Hsw, waiting_app, Ei, (waiting_none p msgs).
    + split; [lia|]. intros [?|[?|?]]; [lia|lia|done].
    + intros Hin. eapply list.Forall_forall in Hm; [|exact Hin]. by apply (Hm a t).
  - (* links shrink *)
    assert (Ei : in_queue x' = in_queue x) by (unfold in_queue; by rewrite Hq). rewrite Hsw, Ei.
    destruct (on_links_le x x') as [Hle Hlt].
    { intros n _. destruct (Hl n) as [-> |[<- | ->]]; [done|apply occ_tail|cbn; lia]. }
    split; [lia|]. intros [?|[?|Hh]]; [done|lia|]. specialize (Hlt Hh). lia.
Qed.
End node.

(** ** The network *)

Section settle.
Context (fx_hash : bytes → Z) (wire : nat → nat → option (nat * nat)).
Context (wire_sym : ∀ i n j m, wire i n = Some (j, m) → wire j m = Some (i, n)).
(* the nodes, the channels that are links, and how many links a node sends on *)
Context (nodes ends : list nat) (nodes_nodup : NoDup nodes) (ends_nodup : NoDup ends) (D : nat → nat).
Context (wire_finite : ∀ i n, wire i n ≠ None → i ∈ nodes ∧ n ∈ ends).
Context (p : bytes) (a : IpAddr) (t : Z) (p_announces : announces p a t).
Implicit Types (s : Net) (x : Peer) (i j : nat).

Definition ends_of i : list nat := filter (λ n, wire i n ≠ None) ends.
Definition burden_of i x : nat := burden (ends_of i) (D i) p x.
Definition net_burden s : nat := sum_list_with (λ i, burden_of i (peers s i)) nodes.

(** How often node [i] has emitted or accepted [p]. *)
Definition times s i : nat := length (filter (λ en, en.1 = i ∧ en.2.1 = p) (log s)).

(** A step of the node [i] that takes a packet from its queue, and one that emits
    [p], in a list of nodes. *)
Definition takes_one i x x' : list nat := if decide (inq x' = inq x) then [] else [i].
Definition emits_one i x (e : option note) x' : list nat :=
  if decide (from_option fst [] e = p ∧ inq x' = inq x) then [i] else [].
Definition tally (l : list nat) i : nat := length (filter (i =.) l).

(** A run during which no node sends on more than [D] links, in which [k] steps
    handle [p], the nodes [taken] each took a packet from their queues, and the
    nodes [emitted] emitted [p]. Links may be set up and end, packets get lost,
    and all other traffic goes on. *)
Inductive busy_run : nat → list nat → list nat → Net → Net → Prop :=
| busy_refl s : busy_run 0 [] [] s s
| busy_local k taken emitted s i e x' s' :
    peer_step fx_hash (peers s i) e x' → (degree (peers s i) <= D i)%nat →
    busy_run k taken emitted (update s i x' (from_option (λ n, [(i, n)]) [] e)) s' →
    busy_run ((if decide (i ∈ nodes ∧ handles (ends_of i) p (peers s i) x') then 1 else 0) + k)
      (takes_one i (peers s i) x' ++ taken) (emits_one i (peers s i) e x' ++ emitted) s s'
| busy_link k taken emitted s i n j m data x' s' :
    wire i n = Some (j, m) → take_link n (peers s i) = Some (data, x') → data ≠ [] → packet_ok data →
    let ps := <[i := x']> (peers s) in
    busy_run k taken emitted (MkNet (<[j := arrive data (Tx m) (ps j)]> ps) (log s)) s' →
    busy_run ((if decide (data = p) then 1 else 0) + k) taken emitted s s'.

Lemma ends_of_nodup i : NoDup (ends_of i).
Proof. by apply list.NoDup_filter. Qed.

Lemma times_update s i x' (e : option note) j :
  times (update s i x' (from_option (λ n, [(i, n)]) [] e)) j
    = (times s j + if decide (j = i ∧ from_option fst [] e = p) then 1 else 0)%nat.
Proof.
  assert (Hp : p ≠ []) by (intros ->; by apply (short_not_announced [] a t); [cbn; lia|]).
  unfold times, update. cbn [log]. rewrite list.filter_app, length_app. f_equal. destruct e as [[q o]|]; cbn [from_option fst].
  - rewrite filter_cons. cbn. case_decide; case_decide; naive_solver.
  - rewrite decide_False; [done|]. intros [_ E]. congruence.
Qed.

(** A change at one node. *)
Lemma net_burden_update s i x' k :
  i ∈ nodes → (net_burden (update s i x' k) + burden_of i (peers s i) = net_burden s + burden_of i x')%nat.
Proof.
  intros Hi. unfold net_burden.
  rewrite (sum_list_with_update (λ j, burden_of j (peers (update s i x' k) j)) (λ j, burden_of j (peers s j)) nodes i);
    [by rewrite peers_update_eq|done|done|].
  intros j _ Hj. by rewrite peers_update_ne.
Qed.

Lemma net_burden_outside s i x' k : i ∉ nodes → net_burden (update s i x' k) = net_burden s.
Proof. intros Hi. apply sum_list_with_eq. intros j Hj. rewrite peers_update_ne; [done|]. by intros ->. Qed.

(** What the packets emitted and accepted so far may have cost. *)
Definition cost s : nat := sum_list_with (λ i, (2 * D i + 2) * times s i)%nat nodes.

Lemma cost_update s i x' (e : option note) :
  cost (update s i x' (from_option (λ n, [(i, n)]) [] e))
    = (cost s + if decide (i ∈ nodes ∧ from_option fst [] e = p) then 2 * D i + 2 else 0)%nat.
Proof.
  set (s' := update _ _ _ _). destruct (decide (i ∈ nodes)) as [Hi|Hi].
  - pose proof (sum_list_with_update (λ j, (2 * D j + 2) * times s' j)%nat (λ j, (2 * D j + 2) * times s j)%nat nodes i
      nodes_nodup Hi) as H. cbv beta in H. fold (cost s) (cost s') in H. unfold s' in H. rewrite times_update in H.
    assert (E : ∀ j, j ≠ i → times s' j = times s j) by (intros j ?; unfold s'; rewrite times_update, decide_False by naive_solver; lia).
    specialize (H (λ j _ Hj, f_equal (Nat.mul (2 * D j + 2)) (E j Hj))).
    fold s' in H. destruct (decide (from_option fst [] e = p)) as [He|He].
    + rewrite decide_True in H by done. rewrite decide_True by done. lia.
    + rewrite decide_False in H by (by intros [_ ?]). rewrite decide_False by (by intros [_ ?]). lia.
  - rewrite (decide_False (P := i ∈ nodes ∧ _)) by naive_solver. rewrite Nat.add_0_r. apply sum_list_with_eq. intros j Hj.
    unfold s'. rewrite times_update, decide_False, Nat.add_0_r; [done|]. intros [-> _]. done.
Qed.

Lemma cost_log s s' : log s' = log s → cost s' = cost s.
Proof. unfold cost, times. by intros ->. Qed.

Lemma local_burden s i e x' :
  inv wire s → peer_step fx_hash (peers s i) e x' → (degree (peers s i) <= D i)%nat →
  let s' := update s i x' (from_option (λ n, [(i, n)]) [] e) in
  ((if decide (i ∈ nodes ∧ handles (ends_of i) p (peers s i) x') then 1 else 0) + net_burden s' + cost s
    <= net_burden s + cost s')%nat.
Proof.
  intros Hinv Hstep HD s'. unfold s'. rewrite cost_update. destruct (decide (i ∈ nodes)) as [Hi|Hi].
  2: { rewrite net_burden_outside by done. rewrite !decide_False by naive_solver. lia. }
  destruct (peer_step_effect fx_hash _ _ _ (inv_peer _ _ _ _ (Hinv i)) Hstep) as (_ & _ & He).
  pose proof (net_burden_update s i x' (from_option (λ n, [(i, n)]) [] e) Hi) as Hsum.
  assert (Hb : ((if decide (handles (ends_of i) p (peers s i) x') then 1 else 0) + burden_of i x'
    <= burden_of i (peers s i) + if decide (from_option fst [] e = p) then 2 * D i + 2 else 0)%nat).
  { eapply effect_burden; [apply ends_of_nodup|exact p_announces| |exact HD| | |exact He].
    - intros ->. by apply (short_not_announced [] a t); [cbn; lia|].
    - intros n Hn. apply list_elem_of_filter in Hn as [Hn _]. by apply Hinv.
    - intros b (q1 & q2 & Eq)%list_elem_of_split. by apply (inv_swq _ _ _ _ (Hinv i) q1 _ q2 Eq a t). }
  rewrite (decide_ext (i ∈ nodes ∧ handles (ends_of i) p (peers s i) x') (handles (ends_of i) p (peers s i) x')),
    (decide_ext (i ∈ nodes ∧ from_option fst [] e = p) (from_option fst [] e = p)) by tauto. lia.
Qed.

Lemma take_burden i n j m x data x' :
  wire i n = Some (j, m) → peer_ok x → take_link n x = Some (data, x') →
  (burden_of i x = burden_of i x' + 2 * if decide (data = p) then 1 else 0)%nat.
Proof.
  intros Hw Hok Ht. destruct (take_link_effect _ _ _ _ Hok Ht) as (_ & _ & Hq & Hs & _ & Hl & Hl').
  assert (Hn : n ∈ ends_of i) by (apply list_elem_of_filter; rewrite Hw; split; [done|apply (wire_finite i n); by rewrite Hw]).
  pose proof (sum_list_with_update (λ m, occ p (lq x m)) (λ m, occ p (lq x' m)) (ends_of i) n (ends_of_nodup i) Hn) as H.
  cbv beta in H. specialize (H ltac:(intros k _ Hk; by rewrite Hl')). rewrite Hl, occ_cons in H.
  unfold burden_of, burden. rewrite Hs. unfold in_queue. rewrite Hq. fold (on_links (ends_of i) p x) (on_links (ends_of i) p x') in H.
  repeat case_decide; try congruence; lia.
Qed.

Lemma arrive_burden j m x data :
  peer_ok x → is_bytes data → (burden_of j (arrive data (Tx m) x) <= burden_of j x + if decide (data = p) then 1 else 0)%nat.
Proof.
  intros Hok Hb. destruct (arrive_spec x data (Tx m) Hok Hb) as (_ & _ & Hs & _ & Hl & Hq).
  unfold burden_of, burden. rewrite Hs. destruct (on_links_same (ends_of j) p x (arrive data (Tx m) x)) as [-> _]; [intros; by rewrite Hl|].
  unfold in_queue. destruct Hq as [-> | ->]; [lia|]. rewrite fmap_app, occ_app. cbn [fmap list_fmap fst]. rewrite occ_cons.
  change (occ p []) with 0%nat. repeat case_decide; try congruence; lia.
Qed.

Lemma link_burden s i n j m data x' :
  inv wire s → wire i n = Some (j, m) → take_link n (peers s i) = Some (data, x') → packet_ok data →
  let ps := <[i := x']> (peers s) in let s' := MkNet (<[j := arrive data (Tx m) (ps j)]> ps) (log s) in
  ((if decide (data = p) then 1 else 0) + net_burden s' <= net_burden s)%nat.
Proof.
  intros Hinv Hw Ht [Hb _] ps s'.
  destruct (wire_finite i n) as [Hi _]; [by rewrite Hw|]. destruct (wire_finite j m) as [Hj _]; [by rewrite (wire_sym _ _ _ _ Hw)|].
  pose proof (take_burden i n j m _ _ _ Hw (inv_peer _ _ _ _ (Hinv i)) Ht) as H1.
  pose proof (net_burden_update s i x' [] Hi) as H2.
  assert (Hok : peer_ok (ps j)).
  { unfold ps. destruct (decide (j = i)) as [->|]; [rewrite fn_lookup_insert|rewrite fn_lookup_insert_ne by done; apply Hinv].
    apply (take_link_effect _ _ _ _ (inv_peer _ _ _ _ (Hinv i)) Ht). }
  pose proof (arrive_burden j m (ps j) data Hok Hb) as H3.
  pose proof (net_burden_update (update s i x' []) j (arrive data (Tx m) (ps j)) [] Hj) as H4.
  change (peers (update s i x' []) j) with (ps j) in H4. change (net_burden (update (update s i x' []) j _ [])) with (net_burden s') in H4.
  case_decide; lia.
Qed.

Lemma busy_run_burden k taken emitted s s' :
  inv wire s → busy_run k taken emitted s s' → (k + net_burden s' + cost s <= net_burden s + cost s')%nat.
Proof.
  intros Hinv Hr. revert Hinv.
  induction Hr as [s|k tk em s i e x' s' Hp HD _ IH|k tk em s i n j m data x' s' Hw Ht Hne Hb ps _ IH]; intros Hinv; [lia| |].
  - pose proof (local_burden s i e x' Hinv Hp HD) as H. cbv zeta in H.
    specialize (IH ltac:(eapply (net_step_inv fx_hash); [done|by apply net_local|done])). lia.
  - pose proof (link_burden s i n j m data x' Hinv Hw Ht Hb) as H. cbv zeta in H.
    specialize (IH ltac:(eapply (net_step_inv fx_hash); [done|by eapply net_link|done])). subst ps. rewrite (cost_log s) in IH by done. lia.
Qed.

(** Nothing is known of [p], and no copy of it is on its way. *)
Definition unheard s : Prop :=
  ∀ i, i ∈ nodes → times s i = 0%nat ∧ (SendToAll p ∉ swq (peers s i))
    ∧ (∀ n, wire i n ≠ None → p ∉ lq (peers s i) n) ∧ (∀ link, (p, link) ∉ inq (peers s i)).

Lemma unheard_burden s : unheard s → net_burden s = 0%nat ∧ cost s = 0%nat.
Proof.
  intros Hu. assert (H0 : ∀ l : list nat, sum_list_with (λ _, 0%nat) l = 0%nat) by (induction l; done).
  split; rewrite <- (H0 nodes); apply sum_list_with_eq; intros i Hi; destruct (Hu i Hi) as (Ht & Hs & Hl & Hq); [|by rewrite Ht, Nat.mul_0_r].
  unfold burden_of, burden, on_links, in_queue. rewrite occ_none, waiting_none.
  - rewrite (sum_list_with_eq _ (λ _, 0%nat)), H0; [lia|]. intros n Hn. apply list_elem_of_filter in Hn as [Hn _].
    by apply occ_none, Hl.
  - done.
  - intros ([q link] & -> & Hin)%list_elem_of_fmap. by apply (Hq link).
Qed.

(** *** How often a node accepts *)

Lemma tally_app l k i : tally (l ++ k) i = (tally l i + tally k i)%nat.
Proof. unfold tally. by rewrite list.filter_app, length_app. Qed.

(** What a step of a node does to its memory, and to its queue. *)
Lemma step_memory x e x' :
  peer_ok x → peer_step fx_hash x e x' →
  (∃ packet link, inq x = (packet, link) :: inq x'
     ∧ ((contains fx_hash (seen_packets (node x)) packet = false ∧ e = Some (packet, from_option snd None e)
           ∧ SeenPackets.add fx_hash (seen_packets (node x)) packet = Ret (false, seen_packets (node x')))
        ∨ e = None ∧ node x' = node x))
  ∨ node x' = node x ∧ (e = None ∨ inq x' = inq x).
Proof.
  intros Hok Hstep. destruct Hstep as [fuel current packet w x' Hn Hr|x' Hs|fuel ms addr Hms Ha|ms octets addr Hms Ho Ha| |
    millis packet w Hms Hb Hf|n data x' Ht|addr x' Ht| |n Hn]; [left|right..].
  - unfold receive_step in Hr. rewrite Hn in Hr. cbn [mbind option_bind] in Hr. destruct packet as [data link]. cbn [fst snd] in *.
    destruct (handle_packet _ _ _ _ _ _ _ _) as [[[st w']|why]|] eqn:Hh; [|done|done]. cbn [mbind outcome_bind] in Hr. injection Hr as <-.
    apply next_incoming_spec in Hn as (Hq & Hl & Hs & Hr). exists data, link.
    pose proof (handle_packet_incomings fx_hash _ _ _ _ _ _ _ _ Hh) as Hinc.
    split; [unfold inq; cbn [chans]; rewrite Hq; f_equal; symmetry; by apply incomings_eq|].
    pose proof (ok_inq x Hok) as Hb. unfold inq in Hb. rewrite Hq in Hb. apply list.Forall_cons in Hb as [Hb _]. cbn [fst] in Hb.
    assert (Hopen : channels_open switchboard (node x) w).
    { eapply channels_open_mono; [| | |exact (ok_open x Hok)]; intros; [by apply switches_eq|by apply routes_eq|by apply links_eq]. }
    destruct (handle_packet_spec fx_hash switchboard fuel current (node x) data link w Hb (ok_seen x Hok) Hopen) as [Hno Hyes].
    cbn zeta in *. rewrite Hh in *. case_decide as Ha; cbn [node].
    + left. destruct (Hyes Ha) as (seen & Hadd & _ & Hd). split_and!; [apply Ha|done|]. rewrite Hadd. do 2 f_equal.
      destruct (decode fuel _ _) as [body|]; [|done]. destruct body; [| | |by destruct Hd|]; by destruct Hd as (w1 & [= -> _] & _).
    + right. by injection (Hno Ha) as -> _.
  - split; [|by left]. unfold switch_step in Hs. destruct (next_switch 0 (chans x)) as [[msg w]|]; [|done].
    cbn [mbind option_bind] in Hs. destruct (handle (task x) w msg). by injection Hs as <-.
  - split; [done|right]. by apply (send_switch_ok x _ Hok).
  - split; [done|right]. by apply (send_switch_ok x _ Hok).
  - split; [done|by left].
  - split; [done|by left].
  - split; [|by left]. unfold take_link in Ht. destruct (next_link n (chans x)) as [[d w]|]; [|done]. by injection Ht as _ <-.
  - split; [|by left]. unfold take_route in Ht. destruct (next_route 0 (chans x)) as [[d w]|]; [|done]. by injection Ht as _ <-.
  - split; [|by left]. unfold add_link. by destruct (unbounded (chans x)).
  - split; [done|by left].
Qed.

(** [p] was accepted at most [j] packets ago. *)
Definition knows x (j : nat) : Prop := remembers j (seen_packets (node x)) (fx_hash p).
Definition memory x : nat := capacity (seen_packets (node x)).

Lemma knows_le x j j' : (j <= j')%nat → knows x j → knows x j'.
Proof. intros Hj (l1 & l2 & E & Hl). exists l1, l2. split; [done|lia]. Qed.

Lemma tally_takes i x x' : tally (takes_one i x x') i = if decide (inq x' = inq x) then 0%nat else 1%nat.
Proof. unfold takes_one, tally. case_decide; [done|]. by rewrite filter_cons, decide_True. Qed.
Lemma tally_emits i x e x' :
  tally (emits_one i x e x') i = if decide (from_option fst [] e = p ∧ inq x' = inq x) then 1%nat else 0%nat.
Proof. unfold emits_one, tally. case_decide; [|done]. by rewrite filter_cons, decide_True. Qed.
Lemma tally_other i j x e x' : j ≠ i → tally (takes_one i x x') j = 0%nat ∧ tally (emits_one i x e x') j = 0%nat.
Proof.
  intros Hj. unfold takes_one, emits_one, tally.
  split; case_decide; try done; by rewrite filter_cons, decide_False.
Qed.

(** A node that knows [p] emits it or lets it be; one that does not may accept
    it, and then knows it. *)
Lemma local_memory i x e x' :
  peer_ok x → peer_step fx_hash x e x' →
  let tk := tally (takes_one i x x') i in let em := tally (emits_one i x e x') i in
  let new := if decide (from_option fst [] e = p) then 1%nat else 0%nat in
  memory x' = memory x
  ∧ (∀ j, knows x j → (j + tk < memory x)%nat → new = em ∧ knows x' (j + tk))
  ∧ ((tk < memory x)%nat → new = em ∨ new = 1%nat ∧ em = 0%nat ∧ tk = 1%nat ∧ knows x' 0).
Proof.
  intros Hok Hstep tk em new. unfold tk, em, new. rewrite tally_takes, tally_emits. clear tk em new.
  assert (Hp : p ≠ []) by (intros ->; by apply (short_not_announced [] a t); [cbn; lia|]).
  destruct (step_memory x e x' Hok Hstep) as [(q & link & Hq & Hcase)|(Hn & He)].
  - assert (Hne : inq x' ≠ inq x).
    { intros E. apply (f_equal length) in E. rewrite Hq in E. cbn [length] in E. lia. }
    rewrite (decide_False (P := inq x' = inq x)) by done.
    rewrite (decide_False (P := from_option fst [] e = p ∧ inq x' = inq x)) by (by intros [_ ?]).
    destruct Hcase as [(Hc & He & Hadd)|[-> Hn]].
    + rewrite He. cbn [from_option fst]. destruct (add_wf fx_hash _ _ _ _ (ok_seen x Hok) Hadd) as [_ Hcap]. split; [done|]. split.
      * intros j Hj Hlt. unfold knows. destruct (decide (q = p)) as [->|Hqp].
        { rewrite (remembers_contains fx_hash _ _ _ (ok_seen x Hok) Hj) in Hc. done. }
        split; [done|]. rewrite Nat.add_1_r.
        eapply (remembers_add fx_hash); [apply (ok_seen x Hok)|exact Hj| |exact Hadd]. unfold memory in Hlt. lia.
      * intros Hlt. destruct (decide (q = p)) as [->|Hqp]; [right|by left]. split_and!; [done..|].
        eapply add_remembers; [apply (ok_seen x Hok)|unfold memory in Hlt; lia|exact Hadd].
    + cbn [from_option]. rewrite decide_False by congruence. unfold memory, knows. rewrite Hn. split_and!; [done| |by left].
      intros j Hj _. split; [done|]. revert Hj. rewrite <- Hn. apply (knows_le x' j). lia.
  - unfold memory. rewrite Hn. split; [done|].
    assert (E : (if decide (from_option fst [] e = p) then 1%nat else 0%nat)
      = if decide (from_option fst [] e = p ∧ inq x' = inq x) then 1%nat else 0%nat).
    { destruct He as [->|Hi]; [cbn [from_option]; rewrite !decide_False by (congruence || by intros [? _]); done|].
      apply decide_ext. tauto. }
    rewrite E. split; [|by left]. intros j Hj _. split; [done|]. unfold knows in *. rewrite Hn. revert Hj. apply (knows_le x). lia.
Qed.

(** A packet that crosses a link changes no node's variables. *)
Lemma link_node s i n j m data x' k :
  take_link n (peers s i) = Some (data, x') → let ps := <[i := x']> (peers s) in
  node (peers (MkNet (<[j := arrive data (Tx m) (ps j)]> ps) (log s)) k) = node (peers s k).
Proof.
  intros Ht ps. assert (E : ∀ l, node (ps l) = node (peers s l)).
  { intros l. unfold ps. destruct (decide (l = i)) as [->|]; [|by rewrite fn_lookup_insert_ne]. rewrite fn_lookup_insert.
    unfold take_link in Ht. destruct (next_link n (chans (peers s i))) as [[d w]|]; [|done]. by injection Ht as _ <-. }
  cbn [peers]. destruct (decide (k = j)) as [->|]; [rewrite fn_lookup_insert|rewrite fn_lookup_insert_ne by done]; apply E.
Qed.

Lemma reachable_memory s0 s i :
  net_started wire s0 → reachable fx_hash wire s0 s → memory (peers s i) = Z.to_nat 16384.
Proof.
  intros H0 Hr. assert (Hm : memory (peers s0 i) = Z.to_nat 16384).
  { destruct H0 as (_ & Hst & _). destruct (Hst i) as (_ & (fuel & addrs & ips & Hips & _ & Hinit) & _).
    unfold run_meshnode_init in Hinit. destruct (from_node_name fuel _) as [ip|]; [|done].
    cbn [mbind option_bind] in Hinit. rewrite Hips in Hinit. cbn [mbind outcome_bind] in Hinit. injection Hinit as Hnode.
    unfold memory. by rewrite <- Hnode. }
  apply (started_inv fx_hash) in H0. induction Hr as [s|s s1 s2 Hstep _ IH]; [done|].
  apply IH; [by eapply (net_step_inv fx_hash)|]. destruct Hstep as [i0 e x' Hp|i0 n j m data x' Hw Ht Hne Hb ps].
  - cbn [peers]. destruct (decide (i = i0)) as [->|]; [rewrite fn_lookup_insert|by rewrite fn_lookup_insert_ne].
    by rewrite (proj1 (local_memory i0 _ _ _ (inv_peer _ _ _ _ (H0 i0)) Hp)).
  - unfold memory in *. rewrite <- Hm. do 2 f_equal. exact (link_node s i0 n j m data x' i Ht).
Qed.

(** So a node accepts [p] at most once while it remembers it. *)
Lemma busy_run_times k taken emitted s s' i :
  inv wire s → busy_run k taken emitted s s' →
  (∀ j, knows (peers s i) j → (j + tally taken i < memory (peers s i))%nat → (times s' i <= times s i + tally emitted i)%nat)
  ∧ ((tally taken i < memory (peers s i))%nat → (times s' i <= times s i + tally emitted i + 1)%nat).
Proof.
  intros Hinv Hr. revert Hinv.
  induction Hr as [s|k tk em s i0 e x' s' Hp HD _ IH|k tk em s i0 n j0 m data x' s' Hw Ht Hne Hb ps _ IH]; intros Hinv.
  - split; intros; lia.
  - specialize (IH ltac:(eapply (net_step_inv fx_hash); [done|by apply net_local|done])). rewrite times_update, !tally_app in *.
    destruct (decide (i = i0)) as [->|Hi].
    + rewrite peers_update_eq in IH. rewrite (decide_ext (i0 = i0 ∧ from_option fst [] e = p) (from_option fst [] e = p)) in IH by tauto.
      destruct (local_memory i0 _ _ _ (inv_peer _ _ _ _ (Hinv i0)) Hp) as (Hm & H1 & H2). cbv zeta in *. rewrite Hm in IH.
      destruct IH as [IH1 IH2]. split.
      * intros j Hj Hlt. destruct (H1 j Hj ltac:(lia)) as [E Hj']. specialize (IH1 _ Hj' ltac:(lia)). lia.
      * intros Hlt. destruct (H2 ltac:(lia)) as [E|(E1 & E2 & E3 & Hj')]; [specialize (IH2 ltac:(lia)); lia|].
        specialize (IH1 _ Hj' ltac:(lia)). lia.
    + rewrite peers_update_ne in IH by done. rewrite (decide_False (P := i = i0 ∧ _)), Nat.add_0_r in IH by naive_solver.
      destruct (tally_other i0 i (peers s i0) e x' Hi) as [-> ->]. exact IH.
  - specialize (IH ltac:(eapply (net_step_inv fx_hash); [done|by eapply net_link|done])).
    pose proof (link_node s i0 n j0 m data x' i Ht) as En. cbv zeta in En. subst ps. unfold knows, memory in *. by rewrite En in IH.
Qed.

(** C5. Floods end. However the tasks of the nodes interleave, whatever other
    traffic there is, and whichever links are set up, end or lose packets: an
    announcement nobody has heard of before causes, in the whole network, at
    most [2 * D + 2] steps for each node and each time it is emitted, where [D]
    is the number of links the node sends on: one to emit or accept it, one to
    broadcast it, and for each link one to cross it and one to be received at
    the other end. That holds for runs in which each node receives fewer packets
    than it remembers, 16384. *)
Theorem floods_end s0 s k taken emitted s' :
  net_started wire s0 → reachable fx_hash wire s0 s → unheard s → busy_run k taken emitted s s' →
  (∀ i, i ∈ nodes → Z.of_nat (tally taken i) < 16384) →
  (k <= sum_list_with (λ i, (2 * D i + 2) * (1 + tally emitted i)) nodes)%nat.
Proof.
  intros H0 Hr Hu Hrun Htk. destruct (unheard_burden s Hu) as [Hb Hc].
  assert (Hinv : inv wire s) by (by eapply reachable_inv).
  pose proof (busy_run_burden _ _ _ s s' Hinv Hrun) as Hk.
  transitivity (cost s'); [lia|]. apply sum_list_with_le. intros i Hi. apply Nat.mul_le_mono_l.
  destruct (busy_run_times _ _ _ s s' i Hinv Hrun) as [_ H]. destruct (Hu i Hi) as [Hz _]. rewrite Hz in H.
  rewrite (reachable_memory s0 s i H0 Hr) in H. specialize (Htk i Hi). specialize (H ltac:(lia)). lia.
Qed.
(** ** Schedules *)

(** What a step counts for, and the next state. *)
Record Counted := MkCounted { busy : nat; taken : list nat; emitted : list nat; net : Net }.

Definition busy_exec (c : command) s : option Counted :=
  match c with
  | Transfer i n =>
      '(data, _) ← take_link n (peers s i); s' ← exec fx_hash wire c s;
      Some (MkCounted (if decide (data = p) then 1 else 0) [] [] s')
  | _ =>
      let i := on_peer c in let x := peers s i in
      '(e, x') ← exec_peer fx_hash c x;
      if decide (degree x <= D i)%nat then
        s' ← exec fx_hash wire c s;
        Some (MkCounted (if decide (i ∈ nodes ∧ handles (ends_of i) p x x') then 1 else 0) (takes_one i x x') (emits_one i x e x') s')
      else None
  end.

Fixpoint busy_steps (cs : list command) s : option Counted :=
  match cs with
  | [] => Some (MkCounted 0 [] [] s)
  | c :: cs =>
      r ← busy_exec c s; r' ← busy_steps cs (net r);
      Some (MkCounted (busy r + busy r') (taken r ++ taken r') (emitted r ++ emitted r') (net r'))
  end.

Definition counted_run s (r : Counted) : Prop := busy_run (busy r) (taken r) (emitted r) s (net r).

Lemma busy_exec_run c s r k tk em s' :
  busy_exec c s = Some r → busy_run k tk em (net r) s' → busy_run (busy r + k) (taken r ++ tk) (emitted r ++ em) s s'.
Proof.
  assert (Hlocal : ∀ c, exec fx_hash wire c s = ('(e, x') ← exec_peer fx_hash c (peers s (on_peer c));
      Some (MkNet (<[on_peer c := x']> (peers s)) (log s ++ from_option (λ n, [(on_peer c, n)]) [] e))) →
    (let i := on_peer c in let x := peers s i in
      '(e, x') ← exec_peer fx_hash c x;
      if decide (degree x <= D i)%nat then
        s' ← exec fx_hash wire c s;
        Some (MkCounted (if decide (i ∈ nodes ∧ handles (ends_of i) p x x') then 1 else 0) (takes_one i x x') (emits_one i x e x') s')
      else None) = Some r → busy_run k tk em (net r) s' → busy_run (busy r + k) (taken r ++ tk) (emitted r ++ em) s s').
  { intros c' ->. cbv zeta. destruct (exec_peer fx_hash c' _) as [[e x']|] eqn:E; [|done]. cbn [mbind option_bind].
    case_decide as HD; [|done]. intros [= <-] Hr. cbn [busy taken emitted net] in *.
    apply (busy_local k tk em s (on_peer c') e x' s'); [by eapply exec_peer_step|done|exact Hr]. }
  destruct c as [i fuel current|i|i|i ms octets|i n]; try (apply Hlocal; reflexivity).
  cbn [busy_exec exec]. destruct (take_link n (peers s i)) as [[data x']|] eqn:Ht; [|done]. cbn [mbind option_bind].
  destruct (wire i n) as [[j m]|] eqn:Hw; [|done]. cbn [mbind option_bind].
  destruct (decide (data ≠ [] ∧ packet_ok data)) as [[Hne Hb]|]; [|done]. cbn [mbind option_bind]. intros [= <-] Hr.
  cbn [busy taken emitted net app] in *. eapply busy_link; [exact Hw|exact Ht|exact Hne|exact Hb|exact Hr].
Qed.

Lemma busy_steps_run cs s r : busy_steps cs s = Some r → counted_run s r.
Proof.
  revert s r. induction cs as [|c cs IH]; intros s r; cbn [busy_steps]; [intros [= <-]; apply busy_refl|].
  destruct (busy_exec c s) as [r1|] eqn:E; [|done]. cbn [mbind option_bind].
  destruct (busy_steps cs (net r1)) as [r2|] eqn:E'; [|done]. cbn [mbind option_bind]. intros [= <-].
  eapply busy_exec_run; [exact E|exact (IH _ _ E')].
Qed.
End settle.

(** Three nodes in a ring. In the flood of [MeshFlood] the announcement is emitted
    once and accepted three times; 21 steps handle it. *)

Lemma ring_unheard : unheard ring [0; 1; 2]%nat example_announcement ring_linked.
Proof.
  intros i Hi.
  assert (H : times example_announcement ring_linked i = 0%nat ∧ swq (peers ring_linked i) = []
    ∧ lq (peers ring_linked i) 0%nat = [] ∧ lq (peers ring_linked i) 1%nat = [] ∧ inq (peers ring_linked i) = []).
  { rewrite !elem_of_cons, elem_of_nil in Hi. destruct Hi as [-> |[-> |[-> |[]]]]; vm_compute; split_and!; reflexivity. }
  destruct H as (Ht & Hs & H0 & H1 & Hq). rewrite Hs, Hq. split_and!; [exact Ht|apply not_elem_of_nil| |intros; apply not_elem_of_nil].
  intros n Hn. destruct n as [|[|n]]; [rewrite H0; apply not_elem_of_nil|rewrite H1; apply not_elem_of_nil|].
  destruct Hn. unfold ring. by case_decide.
Qed.

Lemma ring_finite i n : ring i n ≠ None → i ∈ [0; 1; 2]%nat ∧ n ∈ [0; 1]%nat.
Proof.
  unfold ring. case_decide; [|done]. destruct n as [|[|n]]; [..|done]; intros _; (split; [|set_solver]);
    destruct i as [|[|[|i]]]; first [set_solver|lia].
Qed.

Lemma ring_settles : ∃ taken s', busy_run example_hash ring [0; 1; 2]%nat [0; 1]%nat (λ _, 2%nat) example_announcement
    21 taken [0%nat] ring_linked s' ∧ ∀ i, Z.of_nat (tally taken i) < 16384.
Proof.
  assert (Hk : (λ r, (busy r, emitted r, (length (taken r) <=? 100)%nat)) <$>
      busy_steps example_hash ring [0; 1; 2]%nat [0; 1]%nat (λ _, 2%nat) example_announcement ring_flood ring_linked
    = Some (21%nat, [0%nat], true)) by (vm_compute; reflexivity).
  destruct (busy_steps _ _ _ _ _ _ _ _) as [[k tk em s']|] eqn:H; [|discriminate Hk]. cbn in Hk.
  apply (inj Some) in Hk. injection Hk as -> -> Hl. apply busy_steps_run in H. exists tk, s'. split; [exact H|].
  intros i. apply Nat.leb_le in Hl. pose proof (length_filter (i =.) tk). unfold tally. lia.
Qed.

Lemma floods_end_witness :
  ∃ taken s', busy_run example_hash ring [0; 1; 2]%nat [0; 1]%nat (λ _, 2%nat) example_announcement 21 taken [0%nat] ring_linked s'
    ∧ (21 <= 6 * 2 + 6 + 6)%nat.
Proof.
  assert (Hn1 : NoDup [0; 1; 2]%nat) by (apply (bool_decide_unpack _); vm_compute; reflexivity).
  assert (Hn2 : NoDup [0; 1]%nat) by (apply (bool_decide_unpack _); vm_compute; reflexivity).
  assert (H1 : run example_hash ring ring_links ring_net = Some ring_linked) by (apply default_some; vm_compute; reflexivity).
  destruct ring_settles as (tk & s' & Hrun & Htk). exists tk, s'. split; [exact Hrun|].
  apply (floods_end example_hash ring ring_sym [0; 1; 2]%nat [0; 1]%nat Hn1 Hn2 (λ _, 2%nat)
    ring_finite example_announcement (V4 10 0 0 7) 1000 example_announces ring_net ring_linked 21 tk [0%nat] s'
    ring_started (run_reachable _ _ _ _ _ H1) ring_unheard Hrun (λ i _, Htk i)).
Defined.
