(* ===== verification/MeshTypes.v ===== *)
(** Types in a mesh ([Mesh]): the model keeps bytes, 64-bit times and addresses as
    integers; here is that they never leave their ranges. Whatever comes in as
    bytes is passed on, routed and recorded as what its type in the code says. *)
From stdpp Require Import functions.
From S2P Require Import Prelude Utf8 IpAddr SeenPackets Channel AllSenders World Framing MeshNode Tun Mesh MeshRoutes.

(** ** Values *)

Definition typed_msg (msg : AllSendersMessage byte_tx) : Prop :=
  match msg with
  | AddFastestTo ms addr _ => uint 64 ms ∧ is_addr addr
  | SendToFastest addr data => is_addr addr ∧ is_bytes data
  | SendToAll data => is_bytes data
  | AddSender _ | CleanBrokenSenders => True
  end.
Definition typed_body (b : Body) : Prop :=
  match b with Announce addr => is_addr addr | Traffic dst ip => is_addr dst ∧ is_bytes ip | _ => True end.
Definition typed_effects (e : Effects byte_tx) : Prop :=
  Forall typed_msg (to_switch e) ∧ Forall is_addr (to_routes e) ∧ Forall is_bytes (to_tun e).
Definition typed_note (n : note) : Prop :=
  is_bytes n.1 ∧ ∀ addr ms, n.2 = Some (addr, ms) → is_addr addr ∧ uint 64 ms.

Lemma uint64_of_bytes data : is_bytes data → (8 <= length data)%nat → uint 64 (from_le_bytes (take 8 data)).
Proof.
  intros Hb Hl. pose proof (uint_from_le_bytes (take 8 data) (Forall_take _ _ _ Hb)) as H.
  rewrite length_take, Nat.min_l in H by done. exact H.
Qed.

Lemma of_octets_typed buf addr : is_bytes buf → of_octets buf = Some addr → is_addr addr.
Proof.
  intros Hb Ho. unfold is_addr.
  do 4 (destruct buf as [|? buf]; [done|]). destruct buf as [|? buf]; [by injection Ho as <-|].
  do 11 (destruct buf as [|? buf]; [done|]). destruct buf as [|? buf]; [by injection Ho as <-|done].
Qed.

Lemma decode_ip_typed payload : is_bytes payload → typed_body (decode_ip payload).
Proof.
  intros Hb. unfold decode_ip. destruct payload as [|b0 l] eqn:E; [done|]. rewrite <- E in *. clear E.
  assert (H : ∀ i n, typed_body (from_option (λ dst, Traffic dst payload) Truncated
    (if decide (i + n <= length payload)%nat then of_octets (take n (drop i payload)) else None))).
  { intros i n. case_decide; [|done]. destruct (of_octets _) as [dst|] eqn:Ho; [|done]. split; [|done].
    eapply of_octets_typed; [|exact Ho]. by apply Forall_take, Forall_drop. }
  destruct (_ =? 4); [apply H|]. destruct (_ =? 6); [apply H|done].
Qed.

Lemma decode_typed fuel cmd payload body : is_bytes payload → decode fuel cmd payload = Some body → typed_body body.
Proof.
  intros Hb. assert (H : ∀ n, typed_body (if decide (length payload = n) then from_option Announce Noise (of_octets payload) else Noise)).
  { intros n. case_decide; [|done]. destruct (of_octets payload) as [addr|] eqn:Ho; [|done]. by eapply of_octets_typed. }
  unfold decode. destruct (cmd =? 0); [destruct (from_utf8 payload)|].
  - intros (addr & Ha & ->)%fmap_Some. by apply (from_node_name_octets fuel payload).
  - by intros [= <-].
  - destruct (cmd =? 1); [intros [= <-]; apply H|]. destruct (cmd =? 2); [intros [= <-]; apply H|].
    destruct (cmd =? 3); intros [= <-]; [by apply decode_ip_typed|done].
Qed.

Lemma effects_typed (st : Node byte_tx route_tx) ms body orig link :
  uint 64 ms → is_bytes orig → typed_body body → typed_effects (effects st ms body orig link).
Proof.
  intros Hms Ho Hb. unfold typed_effects.
  destruct body as [addr| |dst ip| |]; cbn [effects]; [| |destruct Hb; case_bool_decide| |];
    cbn [to_switch to_routes to_tun]; rewrite ?list.Forall_cons, ?list.Forall_nil; cbn [typed_msg]; unfold typed_body in *; tauto.
Qed.

Lemma parse_digits_u8 l : ∀ acc b, u8 acc → parse_digits acc l = Some b → u8 b.
Proof.
  induction l as [|c l IH]; intros acc b Ha; cbn [parse_digits]; [by intros [= <-]|].
  destruct (_ && _) eqn:E; [|done]. apply IH. unfold uint in *. lia.
Qed.

Lemma parse_octets_bytes pieces bs : parse_octets pieces = Ret bs → is_bytes bs.
Proof.
  revert bs. induction pieces as [|q pieces IH]; intros bs; cbn [parse_octets]; [by intros [= <-]|].
  destruct (parse_u8 q) as [b|] eqn:Hb; [|done]. intros (bs' & Hbs & [= <-])%bind_Ret_inv. constructor; [|by apply IH].
  assert (H0 : u8 0) by done. unfold parse_u8 in Hb. repeat case_match; try done; by eapply parse_digits_u8.
Qed.

Lemma own_ipv4s_typed addrs ips : own_ipv4s addrs = Ret ips → Forall (λ e, is_addr e.1 ∧ is_bytes e.2) ips.
Proof.
  revert ips. induction addrs as [|s addrs IH]; intros ips; cbn [own_ipv4s]; [by intros [= <-]|].
  intros (os & Ho & (a0 & Ha0 & (rest & Hrest & [= <-])%bind_Ret_inv)%bind_Ret_inv)%bind_Ret_inv.
  apply parse_octets_bytes in Ho. constructor; [|by apply IH]. split; [|done]. cbn [fst].
  unfold ipv4_of_octets, index in Ha0. unfold is_addr.
  do 4 (destruct os as [|? os]; [done|apply list.Forall_cons in Ho as [? Ho]]).
  injection Ha0 as <-. cbn [octets]. rewrite !list.Forall_cons, list.Forall_nil. done.
Qed.

(** ** One node *)

Record typed (x : Peer) : Prop := MkTyped {
  ty_name : is_bytes (node_name x);
  ty_octets : Forall is_bytes (ipv4_octets x);
  ty_ips : ∀ a, a ∈ our_ips (node x) → is_addr a;
  ty_switch : Forall typed_msg (swq x);
  ty_bytes : ∀ c, Forall is_bytes (queued (chans x) (c : byte_tx));
  ty_routes : ∀ r, Forall is_addr (queued (chans x) (r : route_tx));
  ty_rt : ∀ a t link, rt x !! a = Some (t, link) → is_addr a ∧ uint 64 t;
}.

(** Nodes that differ in their queues only. *)
Lemma with_chans_typed x w :
  typed x → Forall typed_msg (queued w (Switch 0)) →
  (∀ c : byte_tx, Forall is_bytes (queued w c)) → (∀ r : route_tx, Forall is_addr (queued w r)) → typed (with_chans w x).
Proof. intros [] H1 H2 H3. split; done. Qed.

Lemma send_switch_typed x msg : typed x → typed_msg msg → typed (with_chans (unbounded_send (Switch 0) msg (chans x)).2 x).
Proof.
  intros Hty Hm. destruct (send_switch_frame (Switch 0) msg (chans x)) as (Hl & Hi & Hr). apply with_chans_typed; [done| | |].
  - rewrite send_queued, decide_True by done. apply list.Forall_app. split; [apply Hty|]. destruct (is_open _ _); by repeat constructor.
  - intros [n]. rewrite (proj1 (links_eq _ _ (Tx n) Hl)). apply Hty.
  - intros [n]. rewrite (proj1 (routes_eq _ _ (Route n) Hr)). apply Hty.
Qed.

Section node.
Context (fx_hash : bytes → Z).

Lemma receive_typed x fuel current packet w x' :
  peer_ok x → typed x → next_incoming 0 (chans x) = Some (packet, w) → receive_step fx_hash fuel current x = Some (Ret x') →
  typed x' ∧ (accepts fx_hash current (node x) packet.1 → typed_note (packet.1, says fuel packet.1)).
Proof.
  intros Hok Hty Hnext. unfold receive_step. rewrite Hnext. cbn [mbind option_bind]. destruct packet as [data link]. cbn [fst snd].
  destruct (handle_packet _ _ _ _ _ _ _ _) as [[[st w']|why]|] eqn:Hh; [|done|done]. cbn [mbind outcome_bind]. intros [= <-].
  apply next_incoming_spec in Hnext as (Hq & Hl & Hs & Hr).
  pose proof (ok_inq x Hok) as Hb. unfold inq in Hb. rewrite Hq in Hb. apply list.Forall_cons in Hb as [Hb _]. cbn [fst] in Hb.
  assert (Hopen : channels_open switchboard (node x) w).
  { eapply channels_open_mono; [| | |exact (ok_open x Hok)]; intros; [by apply switches_eq|by apply routes_eq|by apply links_eq]. }
  assert (Hw : Forall typed_msg (queued w (Switch 0)) ∧ (∀ c : byte_tx, Forall is_bytes (queued w c))
    ∧ ∀ r : route_tx, Forall is_addr (queued w r)).
  { split_and!; [rewrite (proj1 (switches_eq _ _ (Switch 0) Hs))|intros c; rewrite (proj1 (links_eq _ _ c Hl))
      |intros r; rewrite (proj1 (routes_eq _ _ r Hr))]; apply Hty. }
  destruct (handle_packet_spec fx_hash switchboard fuel current (node x) data link w Hb (ok_seen x Hok) Hopen) as [Hno Hyes].
  cbn zeta in *. rewrite Hh in *. destruct (decide (accepts fx_hash current (node x) data)) as [Ha|Ha].
  2:{ injection (Hno Ha) as -> ->. split; [|done]. destruct Hw as (H1 & H2 & H3). destruct Hty. by split. }
  destruct (Hyes Ha) as (seen & _ & _ & Hd). clear Hno Hyes.
  destruct (decode fuel _ _) as [body|] eqn:Hdec; [|done].
  assert (Hms : uint 64 (from_le_bytes (take 8 data))) by (apply uint64_of_bytes; [done|destruct Ha; lia]).
  pose proof (decode_typed _ _ _ _ (Forall_drop _ _ _ Hb) Hdec) as Hbody.
  assert (Hdone : ∃ w1, Some (Ret (st, w')) = Some (Ret (remember (node x) seen, w1))
    ∧ performs switchboard (node x) (effects (node x) (from_le_bytes (take 8 data)) body data link) w w1).
  { destruct body; [| | |by destruct Hd|]; destruct Hd as (w1 & ? & _ & ?); by exists w1. }
  destruct Hdone as (w1 & [= -> <-] & Psw & Prt & Pln & _). clear Hd.
  destruct (effects_typed (node x) _ body data link Hms Hb Hbody) as (E1 & E2 & E3). destruct Hw as (H1 & H2 & H3). split.
  - destruct Hty. split; cbn [node node_name ipv4_octets chans MeshNode.our_ips remember]; try done.
    + unfold swq. cbn [chans]. rewrite (Psw : queued w' (Switch 0) = _). by apply list.Forall_app.
    + intros c. rewrite Pln. apply list.Forall_app. split; [done|]. by case_decide.
    + intros r. rewrite Prt. apply list.Forall_app. split; [done|]. by case_decide.
  - intros _. split; [done|]. cbn [snd]. unfold says. rewrite Hdec. intros addr ms. destruct body; try done. by intros [= <- <-].
Qed.

Lemma switch_typed x x' : peer_ok x → typed x → switch_step x = Some x' → typed x'.
Proof.
  intros Hok Hty. unfold switch_step. destruct (next_switch 0 (chans x)) as [[msg w]|] eqn:Hnext; [|done].
  cbn [mbind option_bind]. destruct (handle (task x) w msg) as [t w'] eqn:Hh. intros [= <-].
  apply next_switch_spec in Hnext as (Hq & _ & Hl & Hi & Hr).
  pose proof (handle_links_only (task x) w msg) as (_ & Hs' & Hr'). rewrite Hh in Hs', Hr'. cbn [snd] in *.
  pose proof (ty_switch x Hty) as Hsw. unfold swq in Hsw. rewrite Hq in Hsw. apply list.Forall_cons in Hsw as [Hmsg Hsw].
  assert (Et : t = (handle (task x) w msg).1) by by rewrite Hh. assert (Ew : w' = (handle (task x) w msg).2) by by rewrite Hh.
  destruct Hty. split; cbn [node node_name ipv4_octets chans]; try done.
  - unfold swq. cbn [chans]. by rewrite (proj1 (switches_eq _ _ (Switch 0) Hs')).
  - intros c. apply list.Forall_forall. intros q Hqin. rewrite Ew in Hqin. apply handle_links in Hqin as [Hin|[->|Hc]].
    + rewrite (proj1 (links_eq _ _ c Hl)) in Hin. specialize (ty_bytes0 c). by eapply list.Forall_forall in ty_bytes0.
    + constructor.
    + destruct msg; cbn in Hc, Hmsg; try done; subst; by apply Hmsg.
  - intros r. rewrite (proj1 (routes_eq _ _ r (eq_trans Hr' Hr))). done.
  - intros a ms link. unfold rt. cbn [task]. rewrite Et. destruct (handle_rt (task x) w msg) as [->|(t' & a' & l' & -> & -> & _)]; [apply ty_rt0|].
    destruct (decide (a' = a)) as [->|Hne]; [rewrite lookup_insert_eq|rewrite lookup_insert_ne by done; apply ty_rt0].
    intros [= -> ->]. cbn in Hmsg. tauto.
Qed.

Lemma target_addr_typed packet addr : is_bytes packet → target_addr packet = Ret (Some addr) → is_addr addr.
Proof.
  intros Hb. unfold target_addr. intros (b0 & _ & H)%bind_Ret_inv.
  assert (Hs : ∀ i j buf, slice packet i j = Ret buf → is_bytes buf).
  { intros i j buf. unfold slice. case_decide; [|done]. intros [= <-]. by apply Forall_take, Forall_drop. }
  destruct (_ && _); [|destruct (_ && _); [|done]].
  - apply bind_Ret_inv in H as (buf & Hbuf & (a0 & Ha & [= <-])%bind_Ret_inv).
    apply ipv4_from_buf_inv in Ha as [_ Ha]. unfold is_addr. rewrite Ha. by eapply Hs.
  - apply bind_Ret_inv in H as (buf & Hbuf & (a0 & Ha & [= <-])%bind_Ret_inv).
    apply ipv6_from_buf_inv in Ha as [_ Ha]. unfold is_addr. rewrite Ha. by eapply Hs.
Qed.

Lemma take_route_typed x addr x' : typed x → take_route x = Some (addr, x') → typed x' ∧ is_addr addr.
Proof.
  intros Hty. unfold take_route, next_route. destruct (next_value 0 (routes (chans x))) as [[a0 s]|] eqn:E; [|done]. intros [= -> <-].
  apply next_value_spec in E as (E & Hm & _).
  pose proof (ty_routes x Hty (Route 0) : Forall is_addr (queued (routes (chans x)) 0%nat)) as H0.
  rewrite E in H0. apply list.Forall_cons in H0 as [Ha H0]. split; [|done].
  apply with_chans_typed; [done|apply Hty|apply Hty|]. intros [n]. destruct (decide (n = 0%nat)) as [->|Hn]; [exact H0|].
  change (Forall is_addr (queued s n)). rewrite Hm by done. apply (ty_routes x Hty (Route n)).
Qed.

(** Every step of a node. *)
Lemma peer_step_typed x e x' :
  peer_ok x → typed x → peer_step fx_hash x e x' → typed x' ∧ (∀ n, e = Some n → typed_note n).
Proof.
  intros Hok Hty Hstep. destruct Hstep as [fuel current packet w x' Hn Hr|x' Hs|fuel ms addr Hms Ha|ms octets addr Hms Ho Ha| |
    millis packet w Hms Hb Hf|n data x' Ht|addr x' Ht| |n Hn].
  - destruct (receive_typed x fuel current packet w x' Hok Hty Hn Hr) as [H1 H2]. split; [done|]. intros n. case_decide; [|done].
    intros [= <-]. by apply H2.
  - split; [by eapply switch_typed|done].
  - assert (Hb : is_bytes (name_announcement ms (node_name x))).
    { apply list.Forall_app. split; [apply to_le_bytes_bytes|]. constructor; [done|apply Hty]. }
    split; [by apply send_switch_typed|]. intros n [= <-]. split; [done|]. intros a t [= <- <-]. split; [|done].
    eapply from_node_name_octets; [apply Hty|done].
  - assert (Hb : is_bytes octets) by (pose proof (ty_octets x Hty) as H; by eapply list.Forall_forall in H).
    assert (Hp : is_bytes (ipv4_announcement ms octets)).
    { apply list.Forall_app. split; [apply to_le_bytes_bytes|]. by constructor. }
    split; [by apply send_switch_typed|]. intros n [= <-]. split; [done|]. intros a t. cbn [snd]. case_decide; [|done].
    intros [= <- <-]. split; [|done]. apply (ty_ips x Hty). by eapply (ok_ipv4 x Hok).
  - split; [by apply send_switch_typed|done].
  - split; [|done]. unfold forward in Hf. apply bind_Ret_inv in Hf as (o & Ho & Hf). destruct o as [dst|]; injection Hf as <-.
    + apply send_switch_typed; [done|]. split; [by eapply target_addr_typed|]. unfold netpacket.
      apply list.Forall_app. split; [apply to_le_bytes_bytes|]. by constructor.
    + by destruct x.
  - split; [|done]. destruct (take_link_effect _ _ _ _ Hok Ht) as (_ & _ & _ & Hs & _ & Hl & Hl').
    unfold take_link in Ht. destruct (next_link n (chans x)) as [[d w]|] eqn:E; [|done]. injection Ht as -> <-.
    apply next_link_spec in E as (_ & _ & _ & _ & _ & Hr). apply with_chans_typed; [done| | |].
    + rewrite (Hs : queued w (Switch 0) = _). apply Hty.
    + intros [m]. pose proof (ty_bytes x Hty (Tx m)) as H. destruct (decide (m = n)) as [->|Hm].
      * rewrite (Hl : queued (chans x) (Tx n) = _) in H. by apply list.Forall_cons in H as [_ H].
      * by rewrite (Hl' m Hm : queued w (Tx m) = _).
    + intros r. rewrite (proj1 (routes_eq _ _ r Hr)). apply Hty.
  - split; [by eapply take_route_typed|done].
  - split; [|done]. unfold add_link. pose proof (unbounded_world (chans x)) as (Hq & _ & _ & Hs & Hr).
    destruct (unbounded (chans x)) as [link w]. cbn [snd] in *. apply (send_switch_typed (with_chans w x) (AddSender link)); [|done].
    apply with_chans_typed; [done| | |].
    + rewrite (proj1 (switches_eq _ _ (Switch 0) Hs)). apply Hty.
    + intros [n]. rewrite Hq. apply Hty.
    + intros r. rewrite (proj1 (routes_eq _ _ r Hr)). apply Hty.
  - split; [|done]. destruct (close_channel_spec n (links (chans x))) as (Hq & _ & Hm).
    apply with_chans_typed; [done|apply Hty| |apply Hty]. intros [m]. destruct (decide (m = n)) as [->|Hne].
    + change (Forall is_bytes (queued (close_channel n (links (chans x))) n)). rewrite Hq. constructor.
    + change (Forall is_bytes (queued (close_channel n (links (chans x))) m)). rewrite (proj1 (Hm m Hne)). apply (ty_bytes x Hty (Tx m)).
Qed.
End node.

(** ** The network *)

(** A node before anything has been sent: all channels of the started node are
    empty, those of its TUN interface and routes too, and its name is a string
    of bytes. *)
Definition quiet (x : Peer) : Prop :=
  is_bytes (node_name x) ∧ (∀ c : byte_tx, queued (chans x) c = []) ∧ (∀ r : route_tx, queued (chans x) r = []).

Lemma started_typed x : started x → quiet x → typed x.
Proof.
  intros (Hutf & (fuel & addrs & ips & Hips & Hoct & Hinit) & Ht & Hopen & Hi & Hs & _) (Hname & Hc & Hr).
  unfold run_meshnode_init in Hinit. destruct (from_node_name fuel (node_name x)) as [ip|] eqn:Hn; [|done].
  cbn [mbind option_bind] in Hinit. rewrite Hips in Hinit. cbn [mbind outcome_bind] in Hinit. injection Hinit as Hnode.
  apply own_ipv4s_typed in Hips. split.
  - done.
  - rewrite Hoct. apply list.Forall_fmap. eapply list.Forall_impl; [exact Hips|]. by intros [a o] [_ ?].
  - rewrite <- Hnode. cbn [our_ips]. intros a [->%elem_of_singleton|Ha%elem_of_list_to_set]%elem_of_union.
    + by eapply from_node_name_octets.
    + apply list_elem_of_fmap in Ha as ([a' o] & -> & Hin). eapply list.Forall_forall in Hips; [|exact Hin]. apply Hips.
  - by rewrite Hs.
  - intros c. by rewrite Hc.
  - intros r. by rewrite Hr.
  - intros a t link. unfold rt. by rewrite Ht.
Qed.

Section net.
Context (fx_hash : bytes → Z) (wire : nat → nat → option (nat * nat)).
Context (wire_sym : ∀ i n j m, wire i n = Some (j, m) → wire j m = Some (i, n)).
Implicit Types (s : Net) (i j : nat).

Definition net_typed s : Prop := (∀ i, typed (peers s i)) ∧ ∀ e, e ∈ log s → typed_note e.2.

Lemma net_step_typed s s' : (∀ i, peer_ok (peers s i)) → net_step fx_hash wire s s' → net_typed s → net_typed s'.
Proof.
  intros Hok Hstep [Hty Hlog]. destruct Hstep as [i e x' Hp|i n j m data x' Hw Ht Hne Hb ps].
  - destruct (peer_step_typed fx_hash _ _ _ (Hok i) (Hty i) Hp) as [Hx He]. split; cbn [peers log].
    + intros k. destruct (decide (k = i)) as [->|]; [by rewrite fn_lookup_insert|by rewrite fn_lookup_insert_ne].
    + intros ev [Hin|Hin]%elem_of_app; [by apply Hlog|]. destruct e as [nt|]; [|by apply elem_of_nil in Hin].
      cbn in Hin. apply list_elem_of_singleton in Hin as ->. by apply He.
  - assert (Hps : ∀ k, typed (ps k)).
    { intros k. unfold ps. destruct (decide (k = i)) as [->|]; [|by rewrite fn_lookup_insert_ne].
      rewrite fn_lookup_insert. eapply (peer_step_typed fx_hash); [apply (Hok i)|apply Hty|by eapply step_take_link]. }
    split; [|exact Hlog]. intros k. cbn [peers]. destruct (decide (k = j)) as [->|]; [|by rewrite fn_lookup_insert_ne].
    rewrite fn_lookup_insert. destruct (send_incoming_frame (Incoming 0) (data, Tx m) (chans (ps j))) as (Hl & Hs & Hr).
    apply with_chans_typed; [done| | |].
    + rewrite (proj1 (switches_eq _ _ (Switch 0) Hs)). apply Hps.
    + intros c. rewrite (proj1 (links_eq _ _ c Hl)). apply Hps.
    + intros r. rewrite (proj1 (routes_eq _ _ r Hr)). apply Hps.
Qed.

(** Types. In every reachable state of a network the integers of the model
    are in the ranges of their types: all that is in the queues of links, TUN
    interfaces and receiving loops is bytes; what waits for a switchboard or a
    route creator, the routing tables and all that was ever announced hold 64-bit
    times and addresses of bytes. *)
Theorem network_typed s0 s :
  net_started wire s0 → (∀ i, quiet (peers s0 i)) → reachable fx_hash wire s0 s →
  (∀ i, typed (peers s i) ∧ Forall (λ e, is_bytes e.1) (inq (peers s i)) ∧ SeenPackets.wf (seen_packets (node (peers s i))))
  ∧ ∀ i p said, (i, (p, said)) ∈ log s → is_bytes p ∧ ∀ a t, said = Some (a, t) → is_addr a ∧ uint 64 t.
Proof.
  intros H0 Hq Hr. cut (inv wire s ∧ net_typed s).
  { intros [Hinv [Hty Hlog]]. split; [|intros i p said Hin; apply (Hlog _ Hin)].
    intros i. split_and!; [done|apply (Hinv i)|apply (Hinv i)]. }
  assert (Hty : net_typed s0).
  { destruct H0 as (Hlog & Hst & _). split; [intros i; by apply started_typed|]. rewrite Hlog. by intros e ?%elem_of_nil. }
  apply (started_inv fx_hash) in H0. clear Hq. induction Hr as [s|s s1 s2 Hstep _ IH]; [done|].
  apply IH; [by eapply (net_step_inv fx_hash)|]. eapply net_step_typed; [intros i; apply H0|exact Hstep|exact Hty].
Qed.
End net.

(** The ring of three nodes, after its flood. *)
Definition ring_end : Net := default ring_net (run example_hash ring (ring_links ++ ring_flood) ring_net).

Lemma ring_quiet i : quiet (peers ring_net i).
Proof.
  cbn [ring_net peers]. assert (Hn : ∀ addrs octs, is_bytes (node_name (ring_peer addrs octs))) by (intros; solve_bytes).
  case_decide; split_and!; try apply Hn; by intros [].
Qed.

Lemma network_typed_witness : typed (peers ring_end 0%nat) ∧ typed (peers ring_end 1%nat) ∧ typed (peers ring_end 2%nat).
Proof.
  assert (H : run example_hash ring (ring_links ++ ring_flood) ring_net = Some ring_end) by (apply default_some; vm_compute; reflexivity).
  destruct (network_typed example_hash ring ring_sym ring_net ring_end ring_started ring_quiet (run_reachable _ _ _ _ _ H)) as [Hty _].
  split; [apply Hty|split; apply Hty].
Defined.
